(* ===== verification/_CoqProject ===== *)
-Q . S2P
Prelude.v
F64.v
Metrics.v
ModArith.v
Ntt.v
Metabolic.v
Bytes.v
Value.v
Crypto.v
Signals.v
Merkle.v
Stake.v
Rewards.v
Certificate.v
WaveField.v
Domain.v
Dag.v
DagOrder.v
Evm.v
Oscillator.v
Synthesis.v
Settlement.v
Network.v
Gossip.v
Persistence.v
Typing.v
Simulation.v
Bridge.v
Api.v
EvmRpc.v
Views.v
Live.v
Sockets.v
ApiTyping.v
Node.v
Server.v
Config.v
Demo.v
Tests.v
