(* ===== verification/Prelude.v ===== *)
(** * Fluidic node: a verification library

    A Fluidic node keeps accounts in a "wave field", orders signed transfers ("stateful
    shifts") in a DAG under vector clocks, folds unsigned pool updates ("commutative
    shifts") through a number theoretic transform, runs Ethereum transactions, and once per
    tick synthesizes all of it into new balances and a certificate that staked operators
    exchange to form quorums.  Around that core are gossip over TCP, snapshots on disk, and
    an HTTP and an Ethereum JSON-RPC interface.  This library models that program in Rocq,
    from the arithmetic up to the process of bin/mesh_node.rs, and proves it correct where
    it is, with counterexamples where it is not.

    ** The program and the files

    Each file models the named sources, one record per structure and one definition per
    operation, with the source's names; modules keep apart names that several sources share.

      Prelude      machine integers, results, hash tables in any order, sorting, tactics
      F64          binary64 with its roundings;  Metrics: ages, averages and rates in it
      Bytes        byte strings and encodings; ids are the numbers they spell big-endian
      ModArith     sums and roots of unity modulo a number (mathematics only)
      Crypto       crypto/keys.rs, field/coordinates.rs, vector clocks of crypto/phase_shift.rs
      Signals      the signals of crypto/phase_shift.rs and their signing bytes
      Merkle       state/merkle.rs
      Stake        operator/stake.rs
      Rewards      operator/rewards.rs
      Certificate  consensus/certificate.rs, light_client/mod.rs
      Value        value/spectrum.rs, value/stream.rs, value/supply.rs
      Metabolic    value/metabolic.rs
      Ntt          consensus/ntt.rs
      WaveField    field/wave_field.rs
      Domain       consensus/domain.rs
      Dag          consensus/dag.rs;  DagOrder: its invariant and its order
      Evm          evm/mod.rs, evm/executor.rs
      Oscillator   consensus/oscillator.rs, state and ingestion
      Synthesis    consensus/oscillator.rs, the cycle;  Settlement: its correctness
      Network      network/buffer.rs, the framing of network/node.rs, the connections of
                   network/tcp_gossip.rs;  Gossip: their tasks, and the in-process node
      Persistence  persistence/mod.rs;  Typing: the widths of every value of the state
      Simulation   consensus/simulation.rs
      Bridge       bridge/mod.rs
      Api          api/state.rs, the handlers of api/routes.rs that change the node
      EvmRpc       api/evm_rpc.rs;  ApiTyping: the widths at both interfaces
      Views        the handlers of api/routes.rs that only read
      Live         the metrics of a cycle, the snapshot of api/state.rs, waiting for a tick
                   in api/routes.rs, the broadcast task of api/websocket.rs
      Sockets      the clients of api/websocket.rs
      Node         bin/mesh_node.rs
      Server       api/server.rs, in front of Node
      Config       the texts bin/mesh_node.rs, bin/gen_operators.rs and operator/stake.rs read
      Demo         main.rs
      Tests        the unit tests of the sources above, run on the definitions

    ** How the parts interact, and how that is modelled

    [Oscillator] is the state every part shares: wave field, DAG, EVM pool, stake table,
    certificate tracker, reward pool, domains, supply, replay tables.  Its operations are
    functions from state to state and result; [Settlement.osc_step] gathers them into a
    step relation, with the transfers accepted and settled as history; [Persistence.life]
    adds snapshots, crashes and reloads; [Node.node_life] is the whole process, and its
    refinement theorem states that whatever arrives through HTTP, JSON-RPC, gossip or a
    timer is a sequence of oscillator steps.  A component's client is proved against its
    interface where the code has one: certificates against [Certificate.StakeOracle]
    (the callbacks the tracker is given), bridges against [Bridge.BridgeAdapter].

    Third-party crates are classes, with what the code relies on as laws and an executable
    instance that satisfies them, which the witnesses run: BLAKE3 and Ed25519
    ([Crypto.Crypto], [Crypto.CryptoLaws], [Crypto.lawful_crypto]), ethers and revm
    ([Evm.Ethers], [ApiTyping.EthersLaws], [Evm.Revm], [Evm.RevmLaws]), hex ([Stake.Hex]), bincode
    ([Network.Codec]), the broadcast channel of tokio ([Sockets.Broadcast],
    [Sockets.BroadcastLaws]), serde_json and the parsers of addresses and numbers
    ([Persistence.SnapshotJson], [Persistence.EvmText], [EvmRpc.U256Text],
    [Views.FloatText], [Config.HexText]).  The iteration order of hash tables is the class [HashOrder]:
    theorems hold for every order.  No hash is assumed injective: where it matters a
    theorem exhibits a collision ([Crypto.collision]).

    Integers keep their width: [N] for u64 and u128, [Z] for i128 and residues, [nat] for
    usize, with wrapping, saturating and truncating operations written out; the program is
    built in release mode, so the plain operators wrap.  An [f64] is the Standard Library's [spec_float] at
    binary64 ([F64.f64]), every operation rounding to nearest even as the hardware does;
    [F64.near] bounds what a rounding adds, in units of 2^-2200, and the theorems about
    metrics, prices and rates carry that error in their statements.  A panic is [None], an error value
    [Err].  Locks are taken and released within one operation, so operations are sequential
    and concurrency is the order of the steps.  The clock is an argument.

    ** What the theorems show

    - exactly-once: [Settlement.settled_exactly_once] for one process,
      [Persistence.settled_once_across_restarts] through restarts,
      [Node.node_refines_life] for the whole node, [Evm.evm_exactly_once] for the EVM;
    - a cycle terminates without panic ([Settlement.synthesis_total]) and conserves value
      ([Settlement.settlement_conserves], [WaveField.decay_conserves],
      [Oscillator.stake_conserves], [Rewards.reward_pool_solvent], [Value.Supply.supply_cap]);
    - consensus: two results of a tick never both reach a quorum
      ([Certificate.quorum_agreement]), equivocation is slashed for good
      ([Certificate.equivocation_is_slashed], [Stake.slashing_is_permanent]), a light client
      only moves forward ([Certificate.light_client_finality]);
    - order: the DAG's loop lists every node once, causes first
      ([DagOrder.topological_order_correct]), derived clocks validate
      ([DagOrder.derived_clock_validates]), clocks are a partial order
      ([Crypto.VectorClock.vector_clock_order]);
    - arithmetic: the in-place transform is the discrete Fourier transform and is inverted
      exactly ([Ntt.ntt_computes_dft], [Ntt.intt_ntt_roundtrip]), a batch through it is exact
      or refused ([WaveField.batch_spec]), [Metabolic.pow_saturates],
      [Simulation.stress_bin_exact];
    - commitments and signatures: [Merkle.root_binding], what signing bytes determine
      ([Signals.ss_signing_injective_same_shape], [Api.registration_bytes_cover]);
    - bytes on the wire and on disk: [Network.ring_refines_fifo],
      [Network.next_shift_roundtrip], [Network.gossip_delivers],
      [Gossip.gossip_node], [Persistence.snapshot_restores],
      [Persistence.save_is_atomic], [EvmRpc.quantities];
    - interfaces: [Api.api_authenticated], [Api.payout_bounds],
      [EvmRpc.raw_transaction_found], [Oscillator.register_domain_spec], and the rate limit
      in front of them, [Server.rate_limit];
    - what is displayed: [Live.cycle_metrics], [Live.displayed_state],
      [Sockets.websocket_delivery];
    - what is configured: [Config.node_identity], [Config.stake_spec_read];
    - widths: [Node.node_in_range], every value of every run fits its machine type, from
      [Typing.osc_typed] and [ApiTyping.api_typed].

    The [Example]s are runs of the model.  Many show behaviour the code does not intend:
    a forged registration takes an account over ([Node.registration_takeover]), restarts
    create value ([Node.restart_mints]), a swap is paid out without its payment
    ([Api.swap_without_payment]), a node with clocked shifts cannot be saved
    ([Persistence.clocked_node_is_not_saved]).

    ** Fuel

    Loops that are not structural take fuel that is proved enough where they are used: the
    bit loop of [Metabolic.pow] one unit per bit of the exponent; [Dag.order_loop] one per
    node; [Network.read_loop] by [Network.read_loop_fuel], a bound on packets plus chunks;
    [EvmRpc.digits] one per bit of the number; [Config.strip] one per byte of the text.

    ** Not modelled

    What the program leaves to its libraries: HTTP, JSON extraction and routing, CORS, the
    body limit and the timeout of api/server.rs; sockets, channels' capacities, tasks and
    timers as such (their effects are events, in any order); the generation of random keys,
    which are arguments; reading environment variables, addresses and the clock, whose
    values are arguments; logging, and the names of signals it prints; the derived [Debug],
    [Clone] and [Default] instances; the re-exports of lib.rs and the mod.rs files.  The
    benchmark under benches/ measures modelled operations and asserts nothing. *)
From stdpp Require Export prelude gmap list fin_maps sorting.
From Stdlib Require Export NArith ZArith Lia.

#[global] Set Default Goal Selector "!".
Declare Scope rust_scope.
Delimit Scope rust_scope with rust.

(** ** Machine integers

    Unsigned machine integers are [N]; [i128] values are [Z]; [usize] indices and
    lengths are [nat].  The node ships as a release build (see README and
    docker/Dockerfile: [cargo build --release], no [profile] override in Cargo.toml),
    so the plain operators wrap around at their width. *)

Definition umax (w : N) : N := 2 ^ w - 1.
Definition u64_max : N := 2 ^ 64 - 1.
Definition u128_max : N := 2 ^ 128 - 1.

(** [a + b], [a - b], [a * b] on [uw] in a release build. *)
Definition wrap (w x : N) : N := x mod 2 ^ w.
Definition wadd (w a b : N) : N := (a + b) mod 2 ^ w.
Definition wsub (w a b : N) : N := (a + (2 ^ w - b)) mod 2 ^ w.

(** [saturating_add] and [saturating_mul]; [saturating_sub] is [N.sub]. *)
Definition sat_add (w a b : N) : N := N.min (a + b) (umax w).
Definition sat_mul (w a b : N) : N := N.min (a * b) (umax w).

Notation "a +w b" := (wadd 128 a b) (at level 50, left associativity) : rust_scope.
Notation "a -w b" := (wsub 128 a b) (at level 50, left associativity) : rust_scope.
Notation "a +s b" := (sat_add 128 a b) (at level 50, left associativity) : rust_scope.
Notation "a *s b" := (sat_mul 128 a b) (at level 40, left associativity) : rust_scope.

(** The hint database of the development: range facts and no-wrap rewrites. *)
Create HintDb fluidic.
Create Rewrite HintDb fluidic_rw.

Lemma pow2_pos (w : N) : (0 < 2 ^ w)%N.
Proof. apply N.neq_0_lt_0. by apply N.pow_nonzero. Qed.

Lemma wadd_small (w a b : N) : (a + b < 2 ^ w)%N → wadd w a b = (a + b)%N.
Proof. intros H. unfold wadd. by apply N.mod_small. Qed.

Lemma wsub_small (w a b : N) : (b ≤ a)%N → (a < 2 ^ w)%N → wsub w a b = (a - b)%N.
Proof.
  intros H Ha. unfold wsub.
  replace (a + (2 ^ w - b))%N with ((a - b) + 1 * 2 ^ w)%N by lia.
  rewrite N.Div0.mod_add. apply N.mod_small. lia.
Qed.

Lemma wadd_lt (w a b : N) : (wadd w a b < 2 ^ w)%N.
Proof. apply N.mod_lt. by apply N.pow_nonzero. Qed.

Lemma wsub_lt (w a b : N) : (wsub w a b < 2 ^ w)%N.
Proof. apply N.mod_lt. by apply N.pow_nonzero. Qed.

Lemma umax_lt (w : N) : (umax w < 2 ^ w)%N.
Proof. unfold umax. pose proof (pow2_pos w). lia. Qed.

Lemma sat_add_le (w a b : N) : (sat_add w a b ≤ a + b)%N.
Proof. unfold sat_add. lia. Qed.

Lemma sat_add_exact (w a b : N) : (a + b < 2 ^ w)%N → sat_add w a b = (a + b)%N.
Proof. unfold sat_add, umax. lia. Qed.

Lemma sat_add_lt (w a b : N) : (sat_add w a b < 2 ^ w)%N.
Proof. unfold sat_add. pose proof (umax_lt w). lia. Qed.

Lemma sat_mul_le (w a b : N) : (sat_mul w a b ≤ a * b)%N.
Proof. unfold sat_mul. lia. Qed.

Lemma sat_mul_exact (w a b : N) : (a * b < 2 ^ w)%N → sat_mul w a b = (a * b)%N.
Proof. unfold sat_mul, umax. lia. Qed.

Lemma sat_mul_lt (w a b : N) : (sat_mul w a b < 2 ^ w)%N.
Proof. unfold sat_mul. pose proof (umax_lt w). lia. Qed.

#[export] Hint Resolve wadd_lt wsub_lt sat_add_lt sat_mul_lt pow2_pos umax_lt : fluidic.
#[export] Hint Rewrite wadd_small wsub_small sat_add_exact sat_mul_exact
  using (simpl; lia) : fluidic_rw.

(** ** Fallible code: Rust's [Result] *)

Inductive result (E T : Type) : Type :=
  | Ok (t : T)
  | Err (e : E).
Arguments Ok {_ _} _.
Arguments Err {_ _} _.

#[export] Instance result_ret {E} : MRet (result E) := λ T t, Ok t.
#[export] Instance result_bind {E} : MBind (result E) := λ T U f r,
  match r with Ok t => f t | Err e => Err e end.

Definition ok_or {E T} (o : option T) (e : E) : result E T :=
  match o with Some t => Ok t | None => Err e end.
Definition is_ok {E T} (r : result E T) : bool :=
  match r with Ok _ => true | Err _ => false end.
(** Early return: [guard b or e] is [if !b { return Err(e) }]. *)
Definition guard_or {E} (b : bool) (e : E) : result E () := if b then Ok () else Err e.

Lemma bind_ok {E T U} (r : result E T) (f : T → result E U) (u : U) :
  r ≫= f = Ok u ↔ ∃ t, r = Ok t ∧ f t = Ok u.
Proof. destruct r; naive_solver. Qed.

Lemma guard_or_ok {E} (b : bool) (e : E) (u : ()) : guard_or b e = Ok u ↔ b = true.
Proof. destruct b, u; naive_solver. Qed.

Ltac inv_result :=
  repeat match goal with
  | H : _ ≫= _ = Ok _ |- _ => apply bind_ok in H as (? & ? & H)
  | H : guard_or _ _ = Ok _ |- _ => apply guard_or_ok in H
  | H : Ok _ = Ok _ |- _ => simplify_eq
  | H : Err _ = Ok _ |- _ => discriminate H
  | H : Ok _ = Err _ |- _ => discriminate H
  end.

(** ** Sums of natural numbers and of balance tables *)

Fixpoint Nsum (l : list N) : N :=
  match l with [] => 0%N | x :: l => (x + Nsum l)%N end.

#[export] Instance Nsum_perm : Proper ((≡ₚ) ==> eq) Nsum.
Proof. intros l l' Hp. induction Hp; cbn [Nsum]; lia. Qed.

Lemma Nsum_app (l k : list N) : Nsum (l ++ k) = (Nsum l + Nsum k)%N.
Proof. induction l as [|x l IH]; simpl; [done|]. rewrite IH. lia. Qed.

Lemma Nsum_elem_le (l : list N) (x : N) : x ∈ l → (x ≤ Nsum l)%N.
Proof.
  induction l as [|y l IH]; [by intros ?%not_elem_of_nil|].
  intros [->|Hin]%elem_of_cons; cbn [Nsum]; [lia|]. specialize (IH Hin). lia.
Qed.

Lemma Nsum_zero (l : list N) : (∀ x, x ∈ l → x = 0%N) → Nsum l = 0%N.
Proof.
  induction l as [|x l IH]; intros Hl; cbn [Nsum]; [done|].
  rewrite IH by (intros; apply Hl; by right). rewrite (Hl x); [done|by left].
Qed.

Lemma Nsum_fmap_le {A} (f g : A → N) (l : list A) :
  (∀ x, x ∈ l → (f x ≤ g x)%N) → (Nsum (f <$> l) ≤ Nsum (g <$> l))%N.
Proof.
  induction l as [|x l IH]; intros H; cbn; [lia|].
  assert (f x ≤ g x)%N by (apply H; set_solver).
  assert (Nsum (f <$> l) ≤ Nsum (g <$> l))%N by (apply IH; set_solver). lia.
Qed.

Section map_sums.
Context `{Countable K}.
Implicit Types m : gmap K N.

(** Total of all values of a balance table. *)
Definition msum (m : gmap K N) : N := Nsum ((map_to_list m).*2).

Lemma msum_empty : msum ∅ = 0%N.
Proof. unfold msum. by rewrite map_to_list_empty. Qed.

Lemma msum_insert_fresh m k v : m !! k = None → msum (<[k:=v]> m) = (v + msum m)%N.
Proof. intros Hk. unfold msum. by rewrite map_to_list_insert. Qed.

Lemma msum_delete m k v : m !! k = Some v → msum m = (v + msum (delete k m))%N.
Proof.
  intros Hk. rewrite <- (insert_delete_id m k v) at 1 by done.
  apply msum_insert_fresh, lookup_delete_eq.
Qed.

(** Replacing an entry: the total moves by the change of that entry. *)
Lemma msum_insert m k v :
  (msum (<[k:=v]> m) + default 0 (m !! k) = msum m + v)%N.
Proof.
  destruct (m !! k) as [w|] eqn:Hk; simpl.
  - rewrite (msum_delete m k w) by done.
    rewrite <- insert_delete_eq, msum_insert_fresh by apply lookup_delete_eq. lia.
  - rewrite msum_insert_fresh by done. lia.
Qed.

Lemma msum_lookup_le m k : (default 0 (m !! k) ≤ msum m)%N.
Proof.
  destruct (m !! k) as [v|] eqn:Hk; simpl; [|lia].
  rewrite (msum_delete m k v) by done. lia.
Qed.

(** [*map.entry(k).or_insert(0) += a] on a table of [u128]. *)
Definition entry_add (k : K) (a : N) (m : gmap K N) : gmap K N :=
  <[k := wadd 128 (default 0%N (m !! k)) a]> m.

Lemma msum_entry_add m k a :
  (msum m + a < 2 ^ 128)%N → msum (entry_add k a m) = (msum m + a)%N.
Proof.
  intros Hlt. unfold entry_add.
  pose proof (msum_lookup_le m k). pose proof (msum_insert m k (wadd 128 (default 0%N (m !! k)) a)) as E.
  rewrite wadd_small in * by lia. lia.
Qed.

Lemma entry_add_lookup m k a :
  entry_add k a m !! k = Some (wadd 128 (default 0%N (m !! k)) a).
Proof. apply lookup_insert_eq. Qed.

Lemma entry_add_default m k a : (default 0 (m !! k) + a < 2 ^ 128)%N →
  default 0%N (entry_add k a m !! k) = (default 0 (m !! k) + a)%N.
Proof. intros Hlt. rewrite entry_add_lookup. by apply wadd_small. Qed.

Lemma entry_add_lookup_ne m k j a : k ≠ j → entry_add k a m !! j = m !! j.
Proof. apply lookup_insert_ne. Qed.
End map_sums.

(** ** Iteration order of hash tables

    [HashMap], [HashSet] and [DashMap] iterate in an unspecified order that can differ
    between processes.  Every definition that iterates over one takes the order from
    this interface, and every theorem holds for each order it admits. *)

Class HashOrder := {
  hm_iter : ∀ {K} `{Countable K} {A}, gmap K A → list (K * A);
  hm_iter_perm : ∀ {K} `{Countable K} {A} (m : gmap K A), hm_iter m ≡ₚ map_to_list m;
}.

(** One order that exists: the one stdpp lists a map in. *)
Definition map_order : HashOrder.
Proof.
  refine {| hm_iter := λ K _ _ A m, map_to_list m |}. intros; reflexivity.
Defined.

Section hash_order.
Context `{!HashOrder} `{Countable K} {A : Type}.
Implicit Types m : gmap K A.

Definition hm_values (m : gmap K A) : list A := (hm_iter m).*2.
Definition hm_keys (m : gmap K A) : list K := (hm_iter m).*1.
(** A [HashSet] is a map to unit. *)
Definition hs_iter (s : gset K) : list K := (hm_iter (gset_to_gmap () s)).*1.

Lemma elem_of_hm_iter m k a : (k, a) ∈ hm_iter m ↔ m !! k = Some a.
Proof. rewrite hm_iter_perm. apply elem_of_map_to_list. Qed.

Lemma hm_iter_NoDup m : NoDup (hm_iter m).
Proof. rewrite hm_iter_perm. apply NoDup_map_to_list. Qed.

Lemma hm_keys_NoDup m : NoDup (hm_keys m).
Proof. unfold hm_keys. rewrite hm_iter_perm. apply NoDup_fst_map_to_list. Qed.

Lemma elem_of_hm_values m a : a ∈ hm_values m ↔ ∃ k, m !! k = Some a.
Proof.
  unfold hm_values. rewrite list_elem_of_fmap. split.
  - intros ([k b] & -> & Hin%elem_of_hm_iter). eauto.
  - intros [k Hk%elem_of_hm_iter]. by exists (k, a).
Qed.

Lemma elem_of_hm_keys m k : k ∈ hm_keys m ↔ is_Some (m !! k).
Proof.
  unfold hm_keys. rewrite list_elem_of_fmap. split.
  - intros ([k' b] & -> & Hin%elem_of_hm_iter). eauto.
  - intros [b Hk%elem_of_hm_iter]. by exists (k, b).
Qed.

Lemma elem_of_hs_iter (s : gset K) k : k ∈ hs_iter s ↔ k ∈ s.
Proof.
  unfold hs_iter. rewrite hm_iter_perm, list_elem_of_fmap. split.
  - intros ([k' u] & -> & Hin%elem_of_map_to_list). simpl.
    by apply lookup_gset_to_gmap_Some in Hin as [??].
  - intros Hin. exists (k, ()). split; [done|].
    by apply elem_of_map_to_list, lookup_gset_to_gmap_Some.
Qed.

Lemma hs_iter_NoDup (s : gset K) : NoDup (hs_iter s).
Proof. unfold hs_iter. rewrite hm_iter_perm. apply NoDup_fst_map_to_list. Qed.
End hash_order.

#[export] Hint Resolve hm_iter_NoDup hm_keys_NoDup hs_iter_NoDup : fluidic.

(** ** Bit counting: [count_ones], [is_power_of_two], [trailing_zeros] *)

Fixpoint pos_ones (p : positive) : N :=
  match p with xH => 1 | xO p => pos_ones p | xI p => N.succ (pos_ones p) end.
Definition count_ones (x : N) : N := match x with N0 => 0 | Npos p => pos_ones p end.
Definition is_power_of_two (x : N) : bool := (count_ones x =? 1)%N.

Fixpoint pos_tz (p : positive) : nat :=
  match p with xO p => S (pos_tz p) | _ => O end.
(** [trailing_zeros] of a non-zero [usize]; zero has all 64. *)
Definition trailing_zeros (x : N) : nat := match x with N0 => 64 | Npos p => pos_tz p end.

Lemma pos_ones_pos (p : positive) : (1 ≤ pos_ones p)%N.
Proof. induction p; cbn [pos_ones]; lia. Qed.

Lemma is_power_of_two_spec (x : N) : is_power_of_two x = true ↔ ∃ m : nat, x = (2 ^ N.of_nat m)%N.
Proof.
  unfold is_power_of_two. rewrite N.eqb_eq. split.
  - destruct x as [|p]; [done|]. cbn. induction p as [p IH|p IH|]; cbn; intros Hp.
    + pose proof (pos_ones_pos p). lia.
    + destruct (IH Hp) as [m Hm]. exists (S m).
      rewrite Nat2N.inj_succ, N.pow_succ_r', <- Hm. done.
    + by exists 0%nat.
  - intros [m ->]. induction m as [|m IH]; [done|].
    rewrite Nat2N.inj_succ, N.pow_succ_r'. pose proof (pow2_pos (N.of_nat m)).
    destruct (2 ^ N.of_nat m)%N as [|p]; [lia|]. done.
Qed.

Lemma of_nat_pow2 (w : nat) : N.of_nat (2 ^ w) = (2 ^ N.of_nat w)%N.
Proof. by rewrite Nat2N.inj_pow. Qed.

Lemma trailing_zeros_pow2 (m : nat) : trailing_zeros (2 ^ N.of_nat m) = m.
Proof.
  induction m as [|m IH]; [done|].
  rewrite Nat2N.inj_succ, N.pow_succ_r'. pose proof (pow2_pos (N.of_nat m)).
  destruct (2 ^ N.of_nat m)%N as [|p]; [lia|]. change (S (pos_tz p) = S m). by f_equal.
Qed.

(** Halving the exponent of a square-and-multiply loop drops one bit. *)
Lemma size_nat_shiftr (e : N) : N.size_nat (N.shiftr e 1) = pred (N.size_nat e).
Proof. by destruct e as [|[p|p|]]. Qed.

(** Left fold with early failure: a loop whose body can panic. *)
Fixpoint fold_opt {A B} (f : A → B → option A) (l : list B) (a : A) : option A :=
  match l with
  | [] => Some a
  | b :: l => a' ← f a b; fold_opt f l a'
  end.

Lemma fold_opt_app {A B} (f : A → B → option A) (l k : list B) (a : A) :
  fold_opt f (l ++ k) a = fold_opt f l a ≫= fold_opt f k.
Proof. revert a. induction l as [|b l IH]; intros a; cbn; [done|]. by destruct (f a b); cbn. Qed.

(** Loop invariants for [for i in 0..n]. *)
Lemma fold_opt_seq_inv {A} (f : A → nat → option A) (P : nat → A → Prop) (n : nat) (a : A) :
  P 0 a → (∀ i b, i < n → P i b → ∃ b', f b i = Some b' ∧ P (S i) b') →
  ∃ a', fold_opt f (seq 0 n) a = Some a' ∧ P n a'.
Proof.
  intros H0 Hstep. induction n as [|n IH]; [by exists a|].
  destruct IH as (b & Hb & HP); [intros; apply Hstep; [lia|done]|].
  destruct (Hstep n b) as (b' & Hb' & HP'); [lia|done|].
  exists b'. rewrite seq_S, fold_opt_app, Hb. cbn. by rewrite Hb'.
Qed.

(** Case analysis on every comparison of [nat] in the goal. *)
Ltac nat_cases :=
  repeat match goal with
  | |- context [(?a <=? ?b)%nat] => destruct (Nat.leb_spec a b); try lia
  | |- context [(?a <? ?b)%nat] => destruct (Nat.ltb_spec a b); try lia
  | |- context [(?a =? ?b)%nat] => destruct (Nat.eqb_spec a b); try lia
  end; cbn [andb orb negb].

(** ** Sorting: Rust's stable [sort_by] *)

Section sort_by.
Context {A : Type} (le : A → A → bool).

Fixpoint insert_sorted (x : A) (l : list A) : list A :=
  match l with
  | [] => [x]
  | y :: l => if le x y then x :: y :: l else y :: insert_sorted x l
  end.

(** Insertion from the right: equal elements keep their order. *)
Fixpoint sort_by (l : list A) : list A :=
  match l with [] => [] | x :: l => insert_sorted x (sort_by l) end.

Lemma insert_sorted_perm x l : insert_sorted x l ≡ₚ x :: l.
Proof.
  induction l as [|y l IH]; cbn; [done|]. destruct (le x y); [done|].
  rewrite IH. apply Permutation_swap.
Qed.

Lemma sort_by_perm l : sort_by l ≡ₚ l.
Proof. induction l as [|x l IH]; cbn; [done|]. by rewrite insert_sorted_perm, IH. Qed.

Hypothesis le_total : ∀ x y, le x y = true ∨ le y x = true.
Hypothesis le_trans : ∀ x y z, le x y = true → le y z = true → le x z = true.

Lemma sort_by_sorted l : StronglySorted (λ x y, le x y = true) (sort_by l).
Proof using le_total le_trans.
  induction l as [|x l IH]; cbn; [constructor|]. revert IH.
  generalize (sort_by l). intros k. induction k as [|y k IHk]; intros Hs; cbn.
  { repeat constructor. }
  inversion_clear Hs as [|?? Hs' Hf]. destruct (le x y) eqn:E.
  - constructor; [by constructor|]. constructor; [done|].
    eapply Forall_impl; [done|]. cbn. intros z Hz. by eapply le_trans.
  - constructor; [by apply IHk|]. rewrite insert_sorted_perm. constructor; [|done].
    by destruct (le_total x y); [congruence|].
Qed.

(** When [le] separates the elements, the sorted list does not depend on the order in
    which they come. *)
Lemma sort_by_canonical l k :
  (∀ x y, x ∈ l → y ∈ l → le x y = true → le y x = true → x = y) →
  l ≡ₚ k → sort_by l = sort_by k.
Proof using le_total le_trans.
  intros Hsep Hp. apply (StronglySorted_unique_strong (λ x y, le x y = true)).
  - intros x y Hx Hy. apply Hsep; [by rewrite sort_by_perm in Hx|].
    rewrite sort_by_perm, <- Hp in Hy. done.
  - apply sort_by_sorted.
  - apply sort_by_sorted.
  - by rewrite !sort_by_perm.
Qed.
End sort_by.

(** ** Ordered maps: iteration of a [BTreeMap] keyed by 256-bit identifiers *)

Definition key_le {A} (x y : N * A) : bool := (x.1 <=? y.1)%N.
Definition bt_iter {A} (m : gmap N A) : list (N * A) := sort_by key_le (map_to_list m).

Lemma key_le_total {A} (x y : N * A) : key_le x y = true ∨ key_le y x = true.
Proof. unfold key_le. rewrite !N.leb_le. lia. Qed.

Lemma key_le_trans {A} (x y z : N * A) :
  key_le x y = true → key_le y z = true → key_le x z = true.
Proof. unfold key_le. rewrite !N.leb_le. lia. Qed.

Lemma elem_of_bt_iter {A} (m : gmap N A) k a : (k, a) ∈ bt_iter m ↔ m !! k = Some a.
Proof. unfold bt_iter. rewrite sort_by_perm. apply elem_of_map_to_list. Qed.

Lemma bt_iter_NoDup {A} (m : gmap N A) : NoDup (bt_iter m).*1.
Proof. unfold bt_iter. rewrite sort_by_perm. apply NoDup_fst_map_to_list. Qed.

(** Collecting any enumeration of a map and sorting it by key gives the same list. *)
Lemma sort_map_entries {A} (m : gmap N A) (l : list (N * A)) :
  l ≡ₚ map_to_list m → sort_by key_le l = bt_iter m.
Proof.
  intros Hp. apply sort_by_canonical; [apply key_le_total|apply key_le_trans| |done].
  intros [k a] [j b]. rewrite Hp, !elem_of_map_to_list. unfold key_le; cbn.
  rewrite !N.leb_le. intros Hk Hj ??. assert (k = j) as -> by lia. congruence.
Qed.

(** Equality of tuples, component by component. *)
Ltac tuple_eq := repeat lazymatch goal with |- (_, _) = (_, _) => refine (f_equal2 pair _ _) end.

(** Split [Forall] over explicit lists. *)
Ltac split_Forall := repeat match goal with H : Forall _ (_ :: _) |- _ => apply Forall_cons in H as [? H] end.

(** Closed decidable goals, by evaluation of their decision procedure. *)
Ltac by_decision := apply (bool_decide_eq_true_1 _); vm_compute; reflexivity.

(** A boolean check of an optional value, run as a whole. *)
Lemma checked_option {A} (p : A → bool) (o : option A) :
  p <$> o = Some true → ∃ x, o = Some x ∧ p x = true.
Proof. destruct o as [x|]; cbn; [|done]. intros [= Hp]. by exists x. Qed.

(** A function without repetitions on a list is injective on it. *)
Lemma NoDup_map_inj {A B} (f : A → B) (l : list A) (x y : A) :
  NoDup (map f l) → x ∈ l → y ∈ l → f x = f y → x = y.
Proof.
  intros Hnd [i Hi]%list_elem_of_lookup [j Hj]%list_elem_of_lookup E.
  assert (i = j) as ->; [|congruence]. apply (NoDup_lookup _ i j (f x) Hnd);
    [by apply list_lookup_fmap_Some; exists x|apply list_lookup_fmap_Some; by exists y].
Qed.

(** ** [i128] *)

Definition i128_max : Z := 2 ^ 127 - 1.
Definition i128_wrap (z : Z) : Z := (z + 2 ^ 127) mod 2 ^ 128 - 2 ^ 127.
(** [saturating_add] on [i128]. *)
Definition i128_sat (z : Z) : Z := Z.max (- 2 ^ 127) (Z.min i128_max z).

Lemma i128_wrap_small (z : Z) : (Z.abs z < 2 ^ 127)%Z → i128_wrap z = z.
Proof. intros Hz. unfold i128_wrap. rewrite Z.mod_small by lia. lia. Qed.
Lemma i128_sat_small (z : Z) : (Z.abs z < 2 ^ 127)%Z → i128_sat z = z.
Proof. unfold i128_sat, i128_max. lia. Qed.

Fixpoint Zsum (l : list Z) : Z := match l with [] => 0 | x :: l => x + Zsum l end%Z.

#[export] Instance Zsum_perm : Proper ((≡ₚ) ==> eq) Zsum.
Proof. intros l l' Hp. induction Hp; cbn [Zsum]; lia. Qed.

Lemma Zsum_app (l k : list Z) : (Zsum (l ++ k) = Zsum l + Zsum k)%Z.
Proof. induction l as [|x l IH]; cbn [Zsum app]; [done|]. rewrite IH. lia. Qed.

Lemma Zsum_abs (l : list Z) : (Z.abs (Zsum l) ≤ Zsum (map Z.abs l))%Z.
Proof. induction l as [|x l IH]; cbn [Zsum map]; lia. Qed.

Lemma Zsum_nonneg (l : list Z) : (0 ≤ Zsum (map Z.abs l))%Z.
Proof. induction l as [|x l IH]; cbn [Zsum map]; lia. Qed.
