(* ===== verification/F64.v ===== *)
(** * Binary64 arithmetic

    The [f64] of the source, as the Standard Library's [spec_float] at precision 53 and
    exponent 1024: the operations round to nearest, ties to even, as the hardware does.
    The lemmas bound every rounding of non-negative values: the result is finite, not NaN,
    not negative, and within one part in 2^52 (or the smallest subnormal) of the exact
    value.  Values are compared through [fval], the value as an integer multiple of 2^-2200. *)
From S2P Require Import Prelude.
From Stdlib Require Import Floats.SpecFloat.
Local Open Scope Z_scope.

Definition f64 : Type := spec_float.

Definition f64_add : f64 → f64 → f64 := SFadd 53 1024.
Definition f64_sub : f64 → f64 → f64 := SFsub 53 1024.
Definition f64_mul : f64 → f64 → f64 := SFmul 53 1024.
Definition f64_div : f64 → f64 → f64 := SFdiv 53 1024.

(** [n as f64] for an unsigned [n]. *)
Definition f64_of_N (n : N) : f64 := binary_normalize 53 1024 (Z.of_N n) 0 false.

Definition f64_zero : f64 := S754_zero false.
Definition f64_one : f64 := f64_of_N 1.

(** [a < b], [a >= b], [a == b] are false on NaN. *)
Definition f64_lt (x y : f64) : bool := SFltb x y.
Definition f64_ge (x y : f64) : bool := SFleb y x.
Definition f64_eq (x y : f64) : bool := SFeqb x y.

Definition is_nan (x : f64) : bool := match x with S754_nan => true | _ => false end.

(** [f64::min]: a NaN argument is ignored. *)
Definition f64_min (x y : f64) : f64 :=
  if is_nan x then y else if is_nan y then x else if f64_lt y x then y else x.

Definition f64_abs : f64 → f64 := SFabs.

(** [f64::EPSILON], 2^-52 *)
Definition f64_epsilon : f64 := S754_finite false 4503599627370496 (-104).

(** The literals 0.8 and 0.2. *)
Definition f64_0_8 : f64 := S754_finite false 7205759403792794 (-53).
Definition f64_0_2 : f64 := S754_finite false 7205759403792794 (-55).

Definition is_finite (x : f64) : bool := match x with S754_zero _ | S754_finite _ _ _ => true | _ => false end.

(** ** Values *)

(** Non-negative, finite and in canonical form. *)
Definition f64_ok (x : f64) : Prop :=
  match x with
  | S754_zero s => s = false
  | S754_finite s m e => s = false ∧ bounded 53 1024 m e = true
  | _ => False
  end.

Definition fval (x : f64) : Z :=
  match x with S754_finite _ m e => Zpos m * 2 ^ (e + 2200) | _ => 0 end.

(** One, and 2^52 times the smallest subnormal: constants, so that linear arithmetic takes them
    as unknowns. *)
Definition scale : Z := 2 ^ 2200.
Definition tiny : Z := 2 ^ 1178.

(** The fixed-point form of an integer. *)
Definition fx (n : Z) : Z := n * scale.

(** The rounding error of a value, at most one part in 2^52, or the smallest subnormal. *)
Definition near (v u : Z) : Prop := Z.abs (v - u) * 2 ^ 52 ≤ u + tiny.

Lemma pow2_positive k : 0 ≤ k → 0 < 2 ^ k.
Proof. intros Hk. by apply Z.pow_pos_nonneg. Qed.

Lemma scale_pos : 0 < scale.
Proof. by apply pow2_positive. Qed.

Lemma tiny_pos : 0 < tiny.
Proof. by apply pow2_positive. Qed.

Lemma pow_sep : 0 < tiny ∧ tiny * 2 ^ 600 ≤ scale.
Proof. split; [apply tiny_pos|]. unfold tiny, scale. rewrite <- Z.pow_add_r by done. by apply Z.pow_le_mono_r. Qed.

#[export] Hint Resolve scale_pos tiny_pos : core.

Lemma digits2_log m : Zpos (digits2_pos m) = Z.log2 (Zpos m) + 1.
Proof.
  induction m as [m IH|m IH|]; cbn [digits2_pos]; rewrite ?Pos2Z.inj_succ, ?IH; [| |done].
  - rewrite (Pos2Z.inj_xI m). rewrite Z.log2_succ_double by lia. lia.
  - rewrite (Pos2Z.inj_xO m). rewrite Z.log2_double by lia. lia.
Qed.

Lemma Zdigits2_log m : 0 < m → Zdigits2 m = Z.log2 m + 1.
Proof. destruct m as [|m|m]; [done| |done]. intros _. apply digits2_log. Qed.

Lemma fexp_eq e : fexp 53 1024 e = Z.max (e - 53) (-1074).
Proof. done. Qed.

(** ** Shifting *)

Lemma iter_pos_nat {A} (f : A → A) p x : iter_pos f p x = Nat.iter (Pos.to_nat p) f x.
Proof.
  revert x. induction p as [p IH|p IH|]; intros x; cbn [iter_pos]; [| |done].
  - rewrite !IH, <- Nat.iter_add, <- Nat.iter_succ_r. f_equal. lia.
  - rewrite !IH, <- Nat.iter_add. f_equal. lia.
Qed.

Lemma shr_1_spec r : 0 ≤ shr_m r → shr_m (shr_1 r) = shr_m r / 2.
Proof.
  destruct r as [m b s]. cbn [shr_m]. intros Hm.
  destruct m as [|[p|p|]|p]; cbn [shr_1 shr_m]; try lia; try done.
  - rewrite Pos2Z.inj_xI, Z.add_comm, Z.mul_comm, Z.div_add by lia. done.
  - rewrite Pos2Z.inj_xO, Z.mul_comm, Z.div_mul by lia. done.
Qed.

Lemma shr_iter_spec n r : 0 ≤ shr_m r → shr_m (Nat.iter n shr_1 r) = shr_m r / 2 ^ Z.of_nat n.
Proof.
  intros Hm. induction n as [|n IH].
  - cbn [Nat.iter nat_rect]. by rewrite Z.pow_0_r, Z.div_1_r.
  - rewrite Nat.iter_succ, shr_1_spec by (rewrite IH; apply Z.div_pos; lia).
    rewrite IH, Z.div_div by lia. f_equal. rewrite Nat2Z.inj_succ, Z.pow_succ_r by lia. lia.
Qed.

(** ** One rounding *)

(** [shr_fexp] shifts to the exponent of the result. *)
Lemma shr_fexp_spec m e l : 0 < m → e ≤ fexp 53 1024 (Z.log2 m + 1 + e) →
  let e1 := fexp 53 1024 (Z.log2 m + 1 + e) in
  ∃ r, shr_fexp 53 1024 m e l = (r, e1) ∧ shr_m r = m / 2 ^ (e1 - e).
Proof.
  intros Hm He. cbn zeta. unfold shr_fexp. rewrite Zdigits2_log by done.
  set (e1 := fexp 53 1024 (Z.log2 m + 1 + e)) in *.
  assert (Hl : shr_m (shr_record_of_loc m l) = m) by (by destruct l as [|[]]).
  destruct (e1 - e) as [|p|p] eqn:Hk; cbn [shr]; [| |lia].
  - eexists. split; [f_equal; lia|]. by rewrite Z.pow_0_r, Z.div_1_r.
  - rewrite iter_pos_nat. eexists. split; [f_equal; lia|].
    rewrite shr_iter_spec, positive_nat_Z, Hl by lia. done.
Qed.

Lemma nearest_even_bounds m r : m ≤ round_nearest_even m (loc_of_shr_record r) ≤ m + 1.
Proof. destruct r as [n [] []]; cbn; destruct (Z.even m); lia. Qed.

(** An already rounded mantissa is left alone, but for 2^53. *)
Lemma shr_rounded m e : 0 ≤ m < 2 ^ 53 → -1074 ≤ e →
  ∃ e', shr_fexp 53 1024 m e loc_Exact = ({| shr_m := m; shr_r := false; shr_s := false |}, e')
    ∧ (0 < m → e' = e).
Proof.
  intros Hm He. destruct (Z.eq_dec m 0) as [->|Hz].
  { unfold shr_fexp. cbn [Zdigits2 shr_record_of_loc]. rewrite fexp_eq, Z.add_0_l.
    destruct (Z.max (e - 53) (-1074) - e) as [|p|p] eqn:Hk; [|lia|]; by eexists. }
  unfold shr_fexp. rewrite Zdigits2_log, fexp_eq by lia. pose proof (Z.log2_lt_pow2 m 53 ltac:(lia)) as Hl.
  destruct (Z.max (Z.log2 m + 1 + e - 53) (-1074) - e) as [|p|p] eqn:Hk; [|lia|]; by eexists.
Qed.

Lemma shr_carry e : -1074 ≤ e →
  shr_fexp 53 1024 (2 ^ 53) e loc_Exact = ({| shr_m := 2 ^ 52; shr_r := false; shr_s := false |}, e + 1).
Proof.
  intros He. unfold shr_fexp. rewrite Zdigits2_log, fexp_eq by lia. rewrite Z.log2_pow2 by lia.
  replace (Z.max (53 + 1 + e - 53) (-1074) - e) with 1 by lia. done.
Qed.

(** The mantissa a rounding computes, and the value it makes of it. *)
Lemma round_aux_spec m e l : 0 < m → e ≤ fexp 53 1024 (Z.log2 m + 1 + e) →
  let e1 := fexp 53 1024 (Z.log2 m + 1 + e) in
  ∃ m1, m / 2 ^ (e1 - e) ≤ m1 ≤ m / 2 ^ (e1 - e) + 1 ∧ 0 ≤ m1 ≤ 2 ^ 53
    ∧ binary_round_aux 53 1024 false m e l
      = if m1 =? 2 ^ 53
        then if e1 + 1 <=? 971 then S754_finite false (2 ^ 52) (e1 + 1) else S754_infinity false
        else match m1 with
             | Zpos q => if e1 <=? 971 then S754_finite false q e1 else S754_infinity false
             | _ => S754_zero false
             end.
Proof.
  intros Hm He. cbn zeta. set (e1 := fexp 53 1024 (Z.log2 m + 1 + e)) in *.
  destruct (shr_fexp_spec m e l Hm He) as (r & Hr & Hrm). cbn zeta in *. fold e1 in Hr, Hrm.
  unfold binary_round_aux. rewrite Hr, Hrm. set (f := m / 2 ^ (e1 - e)).
  pose proof (nearest_even_bounds f r) as Hn. set (m1 := round_nearest_even _ _) in *.
  assert (He1 : -1074 ≤ e1 ∧ Z.log2 m + 1 ≤ 53 + (e1 - e)) by (unfold e1; rewrite fexp_eq; lia).
  assert (Hf : 0 ≤ f < 2 ^ 53).
  { split; [apply Z.div_pos; lia|]. apply Z.div_lt_upper_bound; [lia|]. rewrite <- Z.pow_add_r by lia.
    eapply Z.lt_le_trans; [apply (Z.log2_spec m Hm)|]. apply Z.pow_le_mono_r; lia. }
  exists m1. split; [done|]. split; [lia|]. destruct (Z.eqb_spec m1 (2 ^ 53)) as [->|Hne].
  - rewrite shr_carry by lia. done.
  - destruct (shr_rounded m1 e1) as (e' & -> & He'); [lia..|]. cbn [shr_m].
    destruct m1 as [|q|q]; [done| |lia]. by rewrite He'.
Qed.

Lemma pow2_split a b c : 0 ≤ b → 0 ≤ c → a = b + c → 2 ^ a = 2 ^ b * 2 ^ c.
Proof. intros Hb Hc ->. by apply Z.pow_add_r. Qed.

(** One unit of the result's last place is a small part of the value. *)
Lemma ulp_small m e : 0 < m → -2200 ≤ e →
  2 ^ (fexp 53 1024 (Z.log2 m + 1 + e) + 2200) * 2 ^ 52 ≤ m * 2 ^ (e + 2200) + tiny.
Proof.
  intros Hm He. rewrite fexp_eq.
  assert (Hv : 0 ≤ m * 2 ^ (e + 2200)) by (apply Z.mul_nonneg_nonneg; lia).
  destruct (Z.max_spec (Z.log2 m + 1 + e - 53) (-1074)) as [[_ ->]|[Hc ->]].
  - change (-1074 + 2200) with 1126. rewrite <- Z.pow_add_r by lia. change (2 ^ (1126 + 52)) with tiny. lia.
  - pose proof tiny_pos. enough (2 ^ (Z.log2 m + 1 + e - 53 + 2200) * 2 ^ 52 ≤ m * 2 ^ (e + 2200)) by lia.
    rewrite <- Z.pow_add_r by lia. replace (_ + 52) with (Z.log2 m + (e + 2200)) by lia.
    rewrite Z.pow_add_r by (pose proof (Z.log2_nonneg m); lia).
    apply Z.mul_le_mono_nonneg_r; [lia|]. apply (Z.log2_spec m Hm).
Qed.

(** A rounding of a value that is not huge is finite, canonical and near. *)
Lemma round_ok m e l u : 0 < m → -2200 ≤ e → e ≤ fexp 53 1024 (Z.log2 m + 1 + e) →
  m * 2 ^ (e + 2200) ≤ u ≤ (m + 1) * 2 ^ (e + 2200) → u < fx (2 ^ 1000) →
  f64_ok (binary_round_aux 53 1024 false m e l) ∧ near (fval (binary_round_aux 53 1024 false m e l)) u.
Proof.
  intros Hm He Hle Hu Hbig. pose proof (ulp_small m e Hm He) as Hulp.
  destruct (round_aux_spec m e l Hm Hle) as (m1 & Hb & Hr & ->). cbn zeta in *.
  set (e1 := fexp 53 1024 (Z.log2 m + 1 + e)) in *.
  assert (He1 : -1074 ≤ e1 ≤ 950).
  { unfold e1. rewrite fexp_eq. enough (Z.log2 m + e < 1000) by lia.
    apply (Z.pow_lt_mono_r_iff 2); [lia|lia|].
    destruct (Z.lt_ge_cases (Z.log2 m + e) 0) as [Hn|Hn]; [rewrite Z.pow_neg_r by done; lia|].
    unfold fx in Hbig. apply (Z.mul_lt_mono_pos_r scale); [done|].
    eapply Z.le_lt_trans; [|exact Hbig]. eapply Z.le_trans; [|apply Hu]. unfold scale. rewrite <- Z.pow_add_r by lia.
    replace (Z.log2 m + e + 2200) with (Z.log2 m + (e + 2200)) by lia.
    rewrite Z.pow_add_r by (pose proof (Z.log2_nonneg m); lia).
    apply Z.mul_le_mono_nonneg_r; [lia|]. apply (Z.log2_spec m Hm). }
  assert (Hnear : near (m1 * 2 ^ (e1 + 2200)) u).
  { unfold near. assert (Hs : 2 ^ (e1 + 2200) = 2 ^ (e1 - e) * 2 ^ (e + 2200)) by (apply pow2_split; lia).
    pose proof (Z.div_mod m (2 ^ (e1 - e)) ltac:(lia)) as Hdm.
    pose proof (Z.mod_pos_bound m (2 ^ (e1 - e)) ltac:(lia)) as Hmb.
    set (f := m / 2 ^ (e1 - e)) in *. set (k := 2 ^ (e1 - e)) in *. set (w := 2 ^ (e + 2200)) in *.
    rewrite Hs in *. assert (0 < w) by (unfold w; lia). assert (0 < k) by (unfold k; lia).
    enough (Z.abs (m1 * (k * w) - u) ≤ k * w).
    { eapply Z.le_trans; [apply Z.mul_le_mono_nonneg_r; [done|eassumption]|]. etransitivity; [exact Hulp|]. lia. }
    apply Z.abs_le. clear Hulp Hbig He1. nia. }
  assert (Hcan : ∀ q, Zpos q = m1 → m1 ≠ 2 ^ 53 → bounded 53 1024 q e1 = true).
  { intros q Hq Hne. unfold bounded, canonical_mantissa. rewrite digits2_log, Hq, fexp_eq.
    apply andb_true_iff. split; [|apply Z.leb_le; lia]. apply Z.eqb_eq. unfold e1 in *. rewrite fexp_eq in *.
    pose proof (Z.log2_lt_pow2 m1 53 ltac:(lia)) as Hl.
    destruct (Z.max_spec (Z.log2 m + 1 + e - 53) (-1074)) as [[Hc Hx]|[Hc Hx]]; rewrite Hx in *; [lia|].
    enough (2 ^ 52 ≤ m1) by (apply Z.log2_le_mono in H; rewrite Z.log2_pow2 in H; lia).
    etransitivity; [|apply Hb]. apply Z.div_le_lower_bound; [lia|]. rewrite <- Z.pow_add_r by lia.
    replace (_ + 52) with (Z.log2 m) by lia. apply (Z.log2_spec m Hm). }
  destruct (Z.eqb_spec m1 (2 ^ 53)) as [E|Hne].
  - rewrite (proj2 (Z.leb_le (e1 + 1) 971)) by lia. split.
    + split; [done|]. unfold bounded, canonical_mantissa. rewrite digits2_log, fexp_eq.
      change (Z.log2 (Zpos (2 ^ 52))) with 52. apply andb_true_iff. split; [|apply Z.leb_le; lia].
      apply Z.eqb_eq. lia.
    + rewrite E in Hnear. cbn [fval]. replace (Zpos (2 ^ 52) * 2 ^ (e1 + 1 + 2200)) with (2 ^ 53 * 2 ^ (e1 + 2200)); [done|].
      rewrite <- !Z.pow_add_r by lia. change (Zpos (2 ^ 52)) with (2 ^ 52). rewrite <- Z.pow_add_r by lia. f_equal. lia.
  - destruct m1 as [|q|q]; [by split| |lia]. rewrite (proj2 (Z.leb_le e1 971)) by lia.
    split; [split; [done|by apply Hcan]|done].
Qed.

(** ** Operations on non-negative values *)

Lemma iter_xO m d : Zpos (Pos.iter xO m d) = Zpos m * 2 ^ Zpos d.
Proof.
  induction d as [|d IH] using Pos.peano_ind; [cbn; lia|].
  rewrite Pos.iter_succ, Pos2Z.inj_xO, IH, Pos2Z.inj_succ, Z.pow_succ_r by lia. lia.
Qed.

(** Aligning keeps the value and reaches the exponent, when it is not above the present one. *)
Lemma shl_align_spec m e e' : -2200 ≤ e' →
  let '(m1, e1) := shl_align m e e' in
  Zpos m1 * 2 ^ (e1 + 2200) = Zpos m * 2 ^ (e + 2200) ∧ e1 = Z.min e e'
  ∧ Z.log2 (Zpos m1) + e1 = Z.log2 (Zpos m) + e.
Proof.
  intros He. unfold shl_align. destruct (e' - e) as [|d|d] eqn:Hd; cbn [fst snd].
  - split_and!; [done|lia|done].
  - split_and!; [done|lia|done].
  - rewrite iter_xO. rewrite Z.log2_mul_pow2 by lia. split_and!; [|lia|lia].
    rewrite <- Z.mul_assoc, <- Z.pow_add_r by lia. do 2 f_equal. lia.
Qed.

Lemma binary_round_ok m e : -2200 ≤ e → Zpos m * 2 ^ (e + 2200) < fx (2 ^ 1000) →
  f64_ok (binary_round 53 1024 false m e)
  ∧ near (fval (binary_round 53 1024 false m e)) (Zpos m * 2 ^ (e + 2200)).
Proof.
  intros He Hb. unfold binary_round. rewrite digits2_log.
  pose proof (shl_align_spec m e (fexp 53 1024 (Z.log2 (Zpos m) + 1 + e))) as Hs.
  destruct (shl_align _ _ _) as [m1 e1]. destruct Hs as (Hv & He1 & Hl); [rewrite fexp_eq; lia|].
  rewrite <- Hv in *. apply round_ok; [lia|rewrite fexp_eq in He1; lia| | |done].
  - replace (Z.log2 (Zpos m1) + 1 + e1) with (Z.log2 (Zpos m) + 1 + e) by lia. lia.
  - split; [done|]. apply Z.mul_le_mono_nonneg_r; lia.
Qed.

Lemma near_0 : near 0 0.
Proof. done. Qed.

Lemma of_N_ok n : Z.of_N n < 2 ^ 1000 → f64_ok (f64_of_N n) ∧ near (fval (f64_of_N n)) (fx (Z.of_N n)).
Proof.
  intros Hn. unfold f64_of_N, binary_normalize. destruct (Z.of_N n) as [|p|p] eqn:Hp; [done| |lia].
  apply (binary_round_ok p 0); [done|]. change (2 ^ (0 + 2200)) with scale. by apply Z.mul_lt_mono_pos_r.
Qed.

Lemma f64_ok_inv x : f64_ok x → x = S754_zero false
  ∨ ∃ m e, x = S754_finite false m e ∧ fexp 53 1024 (Z.log2 (Zpos m) + 1 + e) = e ∧ -1074 ≤ e ≤ 971.
Proof.
  destruct x as [s|s| |s m e]; cbn; [by left; subst|done|done|]. intros [-> Hb]. right. exists m, e.
  unfold bounded, canonical_mantissa in Hb. rewrite digits2_log in Hb.
  apply andb_true_iff in Hb as [H1%Z.eqb_eq H2%Z.leb_le]. split_and!; [done|done| |lia].
  rewrite fexp_eq in H1. lia.
Qed.

Lemma fval_nonneg x : f64_ok x → 0 ≤ fval x.
Proof. intros [->|(m & e & -> & _)]%f64_ok_inv; cbn; lia. Qed.

Lemma near_exact v u : v = u → 0 ≤ u → near v u.
Proof. intros -> Hu. unfold near. rewrite Z.sub_diag. pose proof tiny_pos. lia. Qed.

Lemma add_ok x y : f64_ok x → f64_ok y → fval x + fval y < fx (2 ^ 1000) →
  f64_ok (f64_add x y) ∧ near (fval (f64_add x y)) (fval x + fval y).
Proof.
  intros Hx Hy Hb. pose proof (fval_nonneg x Hx). pose proof (fval_nonneg y Hy). pose proof Hx as Hx0. pose proof Hy as Hy0.
  destruct (f64_ok_inv x Hx) as [->|(m & e & -> & _ & Hme)], (f64_ok_inv y Hy) as [->|(n & f & -> & _ & Hnf)];
    cbn [f64_add SFadd]; try (split; [done|]; apply near_exact; cbn in *; lia).
  cbn [f64_add SFadd cond_Zopp].
  pose proof (shl_align_spec m e (Z.min e f) ltac:(lia)) as Hm. destruct (shl_align m e _) as [m1 e1].
  pose proof (shl_align_spec n f (Z.min e f) ltac:(lia)) as Hn. destruct (shl_align n f _) as [n1 f1].
  destruct Hm as (Hm & -> & _), Hn as (Hn & -> & _). cbn [fst binary_normalize fval Z.add] in *.
  replace (Z.min e (Z.min e f)) with (Z.min e f) in Hm by lia. replace (Z.min f (Z.min e f)) with (Z.min e f) in Hn by lia.
  rewrite <- Hm, <- Hn, <- Z.mul_add_distr_r, <- Pos2Z.inj_add in *. apply binary_round_ok; [lia|done].
Qed.

Lemma sub_ok x y : f64_ok x → f64_ok y → fval y ≤ fval x → fval x < fx (2 ^ 1000) →
  f64_ok (f64_sub x y) ∧ near (fval (f64_sub x y)) (fval x - fval y).
Proof.
  intros Hx Hy Hle Hb. pose proof (fval_nonneg x Hx). pose proof (fval_nonneg y Hy).
  destruct (f64_ok_inv x Hx) as [->|(m & e & -> & _ & Hme)], (f64_ok_inv y Hy) as [->|(n & f & -> & _ & Hnf)];
    cbn [f64_sub SFsub fval] in *; try (exfalso; lia); try (split; [done|]; apply near_exact; cbn; lia).
  cbn [cond_Zopp].
  pose proof (shl_align_spec m e (Z.min e f) ltac:(lia)) as Hm. destruct (shl_align m e _) as [m1 e1].
  pose proof (shl_align_spec n f (Z.min e f) ltac:(lia)) as Hn. destruct (shl_align n f _) as [n1 f1].
  destruct Hm as (Hm & -> & _), Hn as (Hn & -> & _). cbn [fst fval] in *.
  replace (Z.min e (Z.min e f)) with (Z.min e f) in Hm by lia. replace (Z.min f (Z.min e f)) with (Z.min e f) in Hn by lia.
  rewrite <- Hm, <- Hn in *. rewrite <- Z.mul_sub_distr_r in *.
  assert (Hd : Zpos n1 ≤ Zpos m1) by (apply (Z.mul_le_mono_pos_r _ _ (2 ^ (Z.min e f + 2200))); lia).
  destruct (Zpos m1 - Zpos n1) as [|q|q] eqn:Hq; [done| |lia]. cbn [binary_normalize].
  apply binary_round_ok; [lia|]. nia.
Qed.

(** A product of two mantissas in canonical form is not coarser than its result. *)
Lemma product_fine m e n f : fexp 53 1024 (Z.log2 (Zpos m) + 1 + e) = e → fexp 53 1024 (Z.log2 (Zpos n) + 1 + f) = f →
  e + f ≤ fexp 53 1024 (Z.log2 (Zpos (m * n)) + 1 + (e + f)).
Proof.
  rewrite !fexp_eq, Pos2Z.inj_mul. intros He Hf. pose proof (Z.log2_mul_below (Zpos m) (Zpos n)).
  pose proof (Z.log2_nonneg (Zpos m)). pose proof (Z.log2_nonneg (Zpos n)). lia.
Qed.

Lemma mul_ok x y : f64_ok x → f64_ok y → fval x * fval y < fx (2 ^ 1000) * scale →
  f64_ok (f64_mul x y) ∧ near (fval (f64_mul x y)) (fval x * fval y / scale).
Proof.
  intros Hx Hy Hb.
  destruct (f64_ok_inv x Hx) as [->|(m & e & -> & He & Hme)], (f64_ok_inv y Hy) as [->|(n & f & -> & Hf & Hnf)];
    cbn [f64_mul SFmul fval xorb] in *; try (split; [done|]; rewrite ?Z.mul_0_r, ?Z.mul_0_l, Z.div_0_l by lia; done).
  assert (Hp : Zpos m * 2 ^ (e + 2200) * (Zpos n * 2 ^ (f + 2200)) = Zpos (m * n) * 2 ^ (e + f + 2200) * scale).
  { unfold scale. rewrite Pos2Z.inj_mul. rewrite <- (Z.mul_assoc _ _ (2 ^ 2200)), <- Z.pow_add_r by lia.
    replace (e + f + 2200 + 2200) with ((e + 2200) + (f + 2200)) by lia.
    rewrite (Z.pow_add_r 2 (e + 2200)) by lia. generalize (2 ^ (e + 2200)), (2 ^ (f + 2200)). intros. ring. }
  rewrite Hp, Z.div_mul in * by (by apply Z.neq_sym, Z.lt_neq). apply round_ok; [lia|lia|by apply product_fine| |].
  - split; [done|]. apply Z.mul_le_mono_nonneg_r; lia.
  - by apply (Z.mul_lt_mono_pos_r scale).
Qed.

Lemma quotient_log m n : 0 < n → 1 ≤ Z.log2 m - Z.log2 n → Z.log2 m - Z.log2 n - 1 ≤ Z.log2 (m / n).
Proof.
  intros Hn Hl. pose proof (Z.log2_nonneg n) as Hn0. assert (Hm : 0 < m).
  { destruct (Z_lt_le_dec 0 m) as [|Hm]; [done|]. rewrite (Z.log2_nonpos m Hm) in Hl. lia. }
  rewrite <- (Z.log2_pow2 (Z.log2 m - Z.log2 n - 1)) by lia. apply Z.log2_le_mono.
  apply Z.div_le_lower_bound; [done|]. pose proof (proj2 (Z.log2_spec n Hn)). pose proof (proj1 (Z.log2_spec m Hm)).
  etransitivity; [apply Z.mul_le_mono_nonneg_r; [lia|apply Z.lt_le_incl; eassumption]|].
  rewrite <- Z.pow_add_r by lia. replace (Z.succ _ + _) with (Z.log2 m) by lia. done.
Qed.

(** The quotient and the exponent of a division, before rounding. *)
Lemma div_core m e n f : -1074 ≤ e ≤ 971 → -1074 ≤ f ≤ 971 →
  ∃ q e' l, SFdiv_core_binary 53 1024 (Zpos m) e (Zpos n) f = (q, e', l)
    ∧ 0 ≤ q ∧ -2200 ≤ e' ∧ (q = 0 → e' ≤ -1074)
    ∧ (0 < q → e' ≤ fexp 53 1024 (Z.log2 q + 1 + e'))
    ∧ q * Zpos n ≤ Zpos m * 2 ^ (e - f - e') < (q + 1) * Zpos n ∧ e' ≤ e - f.
Proof.
  intros He Hf. unfold SFdiv_core_binary. rewrite !Zdigits2_log by lia.
  set (D := Z.log2 (Zpos m) + 1 + e - (Z.log2 (Zpos n) + 1 + f)). set (e' := Z.min (fexp 53 1024 D) (e - f)).
  assert (He' : (e' ≤ -1074 ∨ e' ≤ D - 53) ∧ -2200 ≤ e' ∧ e' ≤ e - f ∧ e' ≤ fexp 53 1024 D)
    by (unfold e'; rewrite fexp_eq; lia).
  replace (match e - f - e' with Zpos _ => _ | 0 => _ | Zneg _ => 0 end) with (Zpos m * 2 ^ (e - f - e')).
  2: { destruct (e - f - e') as [|p|p] eqn:Hp; [lia|by rewrite Z.shiftl_mul_pow2 by lia|lia]. }
  set (t := Zpos m * 2 ^ (e - f - e')).
  assert (Hlog : Z.log2 t = Z.log2 (Zpos m) + (e - f - e')) by (unfold t; rewrite Z.log2_mul_pow2; lia).
  pose proof (quotient_log t (Zpos n) ltac:(lia)) as Hql.
  pose proof (Z_div_mod t (Zpos n) ltac:(lia)) as Hdm. unfold Z.div in Hql.
  destruct (Z.div_eucl t (Zpos n)) as [q r]. destruct Hdm as [Hqr Hr].
  exists q, e', (new_location (Zpos n) r). split; [done|]. rewrite Hlog in Hql.
  assert (Ht : 0 < t) by (unfold t; lia). assert (Hq : 0 ≤ q) by nia.
  split_and!; [done|lia| | |nia|nia|lia].
  - intros ->. destruct He' as ([|Hd] & _); [done|].
    unfold D in Hd. pose proof (Hql ltac:(lia)) as Hbad. change (Z.log2 0) with 0 in Hbad. lia.
  - intros Hpos. pose proof (Z.log2_nonneg q). rewrite fexp_eq. destruct He' as ([|Hd] & _); [lia|].
    unfold D in Hd. pose proof (Hql ltac:(lia)). lia.
Qed.

(** A value below half the smallest subnormal rounds to nothing or to it. *)
Lemma round_zero e l u : -2200 ≤ e ≤ -1074 → 0 ≤ u ≤ 2 ^ (e + 2200) →
  f64_ok (binary_round_aux 53 1024 false 0 e l) ∧ near (fval (binary_round_aux 53 1024 false 0 e l)) u.
Proof.
  intros He Hu. assert (Hu2 : 2 ^ (e + 2200) ≤ 2 ^ 1126) by (apply Z.pow_le_mono_r; lia).
  assert (Hs : ∃ r, shr_fexp 53 1024 0 e l = (r, -1074) ∧ shr_m r = 0).
  { unfold shr_fexp. cbn [Zdigits2]. rewrite fexp_eq, Z.add_0_l, Z.max_r by lia.
    assert (Hl : shr_m (shr_record_of_loc 0 l) = 0) by (by destruct l as [|[]]).
    destruct (-1074 - e) as [|p|p] eqn:Hk; cbn [shr]; [| |lia].
    - eexists. split; [f_equal; lia|done].
    - rewrite iter_pos_nat. eexists. split; [f_equal; lia|]. rewrite shr_iter_spec by lia. by rewrite Hl, Z.div_0_l by lia. }
  destruct Hs as (r & Hr & Hm). unfold binary_round_aux. rewrite Hr, Hm.
  pose proof (nearest_even_bounds 0 r) as Hn. set (m1 := round_nearest_even _ _) in *.
  assert (Hm1 : m1 = 0 ∨ m1 = 1) by lia. unfold near.
  destruct Hm1 as [-> | ->].
  - change tiny with (2 ^ 1126 * 2 ^ 52). cbn [fst]. split; [done|].
    replace (fval _) with 0 by done. generalize dependent (2 ^ 1126). intros. lia.
  - change tiny with (2 ^ 1126 * 2 ^ 52). split; [by split|].
    replace (fval _) with (2 ^ 1126) by done. generalize dependent (2 ^ 1126). intros. lia.
Qed.

Lemma div_ok x y : f64_ok x → f64_ok y → 0 < fval y → fval x * scale < fx (2 ^ 1000) * fval y →
  f64_ok (f64_div x y) ∧ near (fval (f64_div x y)) (fval x * scale / fval y).
Proof.
  intros Hx Hy Hpos Hb.
  destruct (f64_ok_inv y Hy) as [->|(n & f & -> & Hf & Hnf)]; [done|].
  destruct (f64_ok_inv x Hx) as [->|(m & e & -> & He & Hme)].
  { cbn [f64_div SFdiv fval xorb]. by rewrite Z.mul_0_l, Z.div_0_l by (cbn in *; lia). }
  cbn [fval] in *. cbn [f64_div SFdiv xorb].
  destruct (div_core m e n f Hme Hnf) as (q & e' & l & -> & Hq & He' & Hzero & Hfine & Hqn & Hle).
  assert (Hs : Zpos m * 2 ^ (e + 2200) * scale
    = Zpos m * 2 ^ (e - f - e') * (2 ^ (e' + 2200) * 2 ^ (f + 2200))).
  { unfold scale. rewrite <- !Z.mul_assoc, <- !Z.pow_add_r by lia. do 2 f_equal. lia. }
  set (w := 2 ^ (e' + 2200)) in *. set (v := 2 ^ (f + 2200)) in *. set (t := Zpos m * 2 ^ (e - f - e')) in *.
  assert (0 < w) by (unfold w; lia). assert (0 < v) by (unfold v; lia).
  assert (Hu : q * w ≤ Zpos m * 2 ^ (e + 2200) * scale / (Zpos n * v) ≤ (q + 1) * w).
  { rewrite Hs. assert (0 < w * v) by (by apply Z.mul_pos_pos). split.
    - apply Z.div_le_lower_bound; [lia|]. replace (Zpos n * v * (q * w)) with (q * Zpos n * (w * v)) by ring.
      apply Z.mul_le_mono_nonneg_r; [lia|apply Hqn].
    - apply Z.lt_le_incl, Z.div_lt_upper_bound; [lia|].
      replace (Zpos n * v * ((q + 1) * w)) with ((q + 1) * Zpos n * (w * v)) by ring.
      apply Z.mul_lt_mono_pos_r; [done|apply Hqn]. }
  destruct (Z.eq_dec q 0) as [->|Hnz].
  - apply round_zero; [lia|]. fold w. lia.
  - apply round_ok; [lia|done|by apply Hfine; lia|done|].
    apply Z.div_lt_upper_bound; [lia|]. rewrite (Z.mul_comm (Zpos n * v)). done.
Qed.

(** ** Comparisons follow the values *)

Lemma exponent_order m e n f : fexp 53 1024 (Z.log2 (Zpos m) + 1 + e) = e → fexp 53 1024 (Z.log2 (Zpos n) + 1 + f) = f →
  -1074 ≤ e < f → Zpos m * 2 ^ (e + 2200) < Zpos n * 2 ^ (f + 2200).
Proof.
  rewrite !fexp_eq. intros He Hf Hef.
  assert (Hm : Zpos m < 2 ^ 53) by (apply Z.log2_lt_pow2; lia).
  assert (Hn : 2 ^ 52 ≤ Zpos n) by (apply Z.log2_le_pow2; lia).
  replace (2 ^ (f + 2200)) with (2 ^ (e + 2200) * (2 * 2 ^ (f - e - 1)))
    by (rewrite <- Z.pow_succ_r, <- Z.pow_add_r by lia; f_equal; lia).
  assert (0 < 2 ^ (e + 2200)) by lia. pose proof (Z.pow_pos_nonneg 2 (f - e - 1) ltac:(lia) ltac:(lia)) as Hk.
  set (w := 2 ^ (e + 2200)) in *. set (k := 2 ^ (f - e - 1)) in *.
  replace (Zpos n * (w * (2 * k))) with (Zpos n * 2 * k * w) by ring. apply Z.mul_lt_mono_pos_r; [done|].
  eapply Z.lt_le_trans; [exact Hm|]. change (2 ^ 53) with (2 ^ 52 * 2). nia.
Qed.

Lemma compare_ok x y : f64_ok x → f64_ok y → SFcompare x y = Some (fval x ?= fval y).
Proof.
  intros Hx Hy.
  destruct (f64_ok_inv x Hx) as [->|(m & e & -> & He & Hme)], (f64_ok_inv y Hy) as [->|(n & f & -> & Hf & Hnf)];
    cbn [SFcompare fval]; f_equal; symmetry.
  - by apply Z.compare_lt_iff; lia.
  - by apply Z.compare_gt_iff; lia.
  - destruct (Z.compare_spec e f) as [->|Hlt|Hlt].
    + change (Pos.compare_cont Eq m n) with (Zpos m ?= Zpos n).
      symmetry. apply Zmult_compare_compat_r. lia.
    + apply Z.compare_lt_iff, exponent_order; [done..|lia].
    + apply Z.compare_gt_iff, exponent_order; [done..|lia].
Qed.

Lemma lt_ok x y : f64_ok x → f64_ok y → f64_lt x y = (fval x <? fval y).
Proof. intros Hx Hy. unfold f64_lt, SFltb, Z.ltb. by rewrite compare_ok. Qed.

Lemma ge_ok x y : f64_ok x → f64_ok y → f64_ge x y = (fval y <=? fval x).
Proof. intros Hx Hy. unfold f64_ge, SFleb, Z.leb. rewrite compare_ok by done. by destruct (fval y ?= fval x). Qed.

Lemma eq_ok x y : f64_ok x → f64_ok y → f64_eq x y = (fval x =? fval y).
Proof. intros Hx Hy. unfold f64_eq, SFeqb. rewrite compare_ok by done. by rewrite Z.eqb_compare. Qed.

Lemma ok_not_nan x : f64_ok x → is_nan x = false.
Proof. by destruct x. Qed.

Lemma min_ok x y : f64_ok x → f64_ok y → f64_ok (f64_min x y) ∧ fval (f64_min x y) = Z.min (fval x) (fval y).
Proof.
  intros Hx Hy. unfold f64_min. rewrite !ok_not_nan, lt_ok by done.
  destruct (Z.ltb_spec (fval y) (fval x)); (split; [done|lia]).
Qed.

Lemma ok_finite x : f64_ok x → is_finite x = true.
Proof. by destruct x. Qed.

Lemma sub_self x : f64_ok x → f64_abs (f64_sub x x) = f64_zero.
Proof.
  unfold f64_abs, f64_sub, f64_ok. destruct x as [s| | |s m e]; try done; [by intros ->|].
  intros [-> _]. unfold SFsub. rewrite Z.sub_diag. done.
Qed.

Lemma fx_mono a b : a ≤ b → fx a ≤ fx b.
Proof. apply Z.mul_le_mono_nonneg_r. by apply Z.lt_le_incl. Qed.

Lemma fx_nonneg a : 0 ≤ a → 0 ≤ fx a.
Proof. apply (fx_mono 0). Qed.

(** ** Quotients *)

Local Abbreviation O := scale.

(** Linear arithmetic over the two scales as plain unknowns. *)
Ltac scales :=
  destruct pow_sep as [Hscale1 Hscale2];
  repeat match goal with H : context [O] |- _ => progress revert H end;
  repeat match goal with H : context [tiny] |- _ => progress revert H end;
  generalize tiny; generalize O; intros; lia.

Lemma fx_pow_big k : 0 ≤ k < 1000 → fx (2 ^ k) < fx (2 ^ 1000).
Proof. intros Hk. unfold fx. apply Z.mul_lt_mono_pos_r; [done|]. apply Z.pow_lt_mono_r; lia. Qed.

(** An integer in the fixed-point form. *)
Lemma scaled_ge n : (0 < n)%N → O ≤ Z.of_N n * O.
Proof. intros Hn. rewrite <- (Z.mul_1_l O) at 1. apply Z.mul_le_mono_nonneg_r; [by apply Z.lt_le_incl|lia]. Qed.

Lemma scaled_mono a b : a ≤ b → a * O ≤ b * O.
Proof. apply Z.mul_le_mono_nonneg_r. by apply Z.lt_le_incl. Qed.

Lemma scaled_nonneg a : 0 ≤ a → 0 ≤ a * O.
Proof. intros Ha. apply Z.mul_nonneg_nonneg; [done|by apply Z.lt_le_incl]. Qed.

(** A positive integer is a positive float. *)
Lemma of_N_pos n : (0 < n)%N → Z.of_N n < 2 ^ 1000 → fx (Z.of_N n) ≤ 2 * fval (f64_of_N n).
Proof.
  intros H0 Hn. destruct (of_N_ok n Hn) as [_ Hnear]. unfold near, fx in *.
  pose proof (scaled_ge n H0) as Hw0. generalize dependent (Z.of_N n * O). intros w Hnear Hw. scales.
Qed.

(** Scaling a bound of a product: [c * x ≤ o * o], from bounds of [c] and [x]. *)
Lemma product_bound c x t o k : 0 ≤ t → 0 ≤ o → 0 ≤ k → 0 ≤ c ≤ t → x ≤ 2 ^ k * o →
  k ≤ 540 → t * 2 ^ 600 ≤ o → c * x * 2 ^ 60 ≤ o * o.
Proof.
  intros Ht Ho Hk Hc Hx Hk2 Hto.
  assert (H1 : c * x ≤ c * (2 ^ k * o)) by (apply Z.mul_le_mono_nonneg_l; [apply Hc|done]).
  assert (Hp : 0 ≤ 2 ^ k) by (apply Z.pow_nonneg; lia).
  assert (H2 : c * (2 ^ k * o) ≤ t * (2 ^ k * o)) by (apply Z.mul_le_mono_nonneg_r; [by apply Z.mul_nonneg_nonneg|apply Hc]).
  assert (H3 : 2 ^ k * 2 ^ 60 ≤ 2 ^ 600) by (rewrite <- Z.pow_add_r by lia; apply Z.pow_le_mono_r; lia).
  assert (H4 : t * (2 ^ k * 2 ^ 60) ≤ t * 2 ^ 600) by (by apply Z.mul_le_mono_nonneg_l).
  assert (H5 : t * (2 ^ k * 2 ^ 60) * o ≤ o * o) by (apply Z.mul_le_mono_nonneg_r; [done|by etransitivity]).
  replace (t * (2 ^ k * 2 ^ 60) * o) with (t * (2 ^ k * o) * 2 ^ 60) in H5 by ring.
  etransitivity; [|exact H5]. apply Z.mul_le_mono_nonneg_r; [done|by etransitivity].
Qed.

(** The chain of roundings behind a quotient, over its two scales. *)
Lemma quotient_chain a b q f w o t : 0 ≤ a → 0 ≤ q → 0 ≤ f → 0 < t → t * 2 ^ 600 ≤ o → o ≤ w → o ≤ 2 * b →
  a ≤ 2 ^ 300 * o → w ≤ 2 ^ 200 * o → Z.abs (b - w) * 2 ^ 52 ≤ w + t → Z.abs (q - f) * 2 ^ 52 ≤ f + t →
  f * b ≤ a * o → a * o < b * Z.succ f → Z.abs (q * w - a * o) * 2 ^ 50 ≤ a * o + o * o.
Proof.
  intros Ha Hq Hf Ht Hto Hwo Hbo Ha2 Hw2 Hb Hqf D1 D2.
  assert (Hto' : t ≤ o) by (clear -Ht Hto; lia). assert (Ho : 0 < o) by lia.
  pose proof (Z.lt_le_incl _ _ Ht) as Ht0. pose proof (Z.lt_le_incl _ _ Ho) as Ho0.
  assert (T1 : 1 ≤ t) by (clear -Ht; lia). assert (Pb : 0 ≤ b) by (clear -Hbo Ho; lia).
  assert (Hf2 : f ≤ 2 ^ 301 * o).
  { assert (H1 : f * o ≤ 2 * (f * b)) by (replace (2 * (f * b)) with (f * (2 * b)) by ring; by apply Z.mul_le_mono_nonneg_l).
    assert (H2 : f * o ≤ (2 * a) * o) by lia. apply Z.mul_le_mono_pos_r in H2; [|done].
    clear -H2 Ha2. change (2 ^ 301) with (2 * 2 ^ 300). lia. }
  assert (Hq2 : q ≤ 2 ^ 302 * o).
  { clear -Hf2 Hqf Hto' Ho Hf. change (2 ^ 302) with (2 * 2 ^ 301). rewrite <- Z.mul_assoc. assert (o ≤ 2 ^ 301 * o) by lia.
    generalize dependent (2 ^ 301 * o). intros. lia. }
  assert (Hb2 : b ≤ 2 ^ 202 * o).
  { clear -Hw2 Hb Hto' Hwo Ho. change (2 ^ 202) with (4 * 2 ^ 200). lia. }
  pose proof (product_bound t q t o 302 Ht0 Ho0 ltac:(done) (conj Ht0 (Z.le_refl t)) Hq2 ltac:(done) Hto) as Htq.
  pose proof (product_bound t b t o 202 Ht0 Ho0 ltac:(done) (conj Ht0 (Z.le_refl t)) Hb2 ltac:(done) Hto) as Htb.
  pose proof (product_bound 1 b t o 202 Ht0 Ho0 ltac:(done) (conj Z.le_0_1 T1) Hb2 ltac:(done) Hto) as Hbs.
  assert (N1 : Z.abs (q * b - q * w) * 2 ^ 52 ≤ q * w + t * q).
  { rewrite <- Z.mul_sub_distr_l, Z.abs_mul, (Z.abs_eq q) by done.
    replace (q * w + t * q) with (q * (w + t)) by ring. rewrite <- Z.mul_assoc. by apply Z.mul_le_mono_nonneg_l. }
  assert (N2 : Z.abs (q * b - f * b) * 2 ^ 52 ≤ f * b + t * b).
  { rewrite <- Z.mul_sub_distr_r, Z.abs_mul, (Z.abs_eq b) by done.
    replace (f * b + t * b) with ((f + t) * b) by ring. rewrite <- Z.mul_assoc, (Z.mul_comm b), Z.mul_assoc.
    by apply Z.mul_le_mono_nonneg_r. }
  rewrite Z.mul_succ_r in D2. rewrite (Z.mul_comm b f) in D2. rewrite Z.mul_1_l in Hbs. clear -Htq Htb Hbs N1 N2 D1 D2.
  assert (Z.abs (q * w - a * o) ≤ Z.abs (q * b - q * w) + Z.abs (q * b - f * b) + b) by lia.
  generalize dependent (q * w). generalize dependent (q * b). generalize dependent (f * b).
  generalize dependent (t * q). generalize dependent (t * b). generalize dependent (a * o). generalize dependent (o * o).
  intros. lia.
Qed.

(** A float divided by an integer. *)
Lemma quotient_ok x n : f64_ok x → fval x ≤ 2 ^ 300 * O → (0 < n)%N → Z.of_N n < 2 ^ 200 →
  f64_ok (f64_div x (f64_of_N n))
  ∧ Z.abs (fval (f64_div x (f64_of_N n)) * Z.of_N n - fval x) * 2 ^ 50 ≤ fval x + O.
Proof.
  intros Hx Hbx H0 Hn. pose proof (fval_nonneg x Hx) as Px.
  assert (Hn' : Z.of_N n < 2 ^ 1000) by (eapply Z.lt_le_trans; [exact Hn|by apply Z.pow_le_mono_r]).
  destruct (of_N_ok n Hn') as [Oy Ny]. pose proof (of_N_pos n H0 Hn') as Py. unfold near in Ny.
  change (fx (Z.of_N n)) with (Z.of_N n * O) in *. set (y := f64_of_N n) in *.
  pose proof (scaled_ge n H0) as Hw. assert (Hw2 : Z.of_N n * O ≤ 2 ^ 200 * O) by (apply scaled_mono; lia).
  destruct (div_ok x y Hx Oy) as [Oq Nq]; [generalize dependent (Z.of_N n * O); intros; scales| |].
  { unfold fx. rewrite (Z.mul_comm (2 ^ 1000 * O)), Z.mul_assoc. apply Z.mul_lt_mono_pos_r; [done|].
    assert (H2 : 2 ^ 301 < 2 ^ 1000) by (by apply Z.pow_lt_mono_r). apply (Z.le_lt_trans _ (2 ^ 300 * (2 * fval y))).
    - etransitivity; [exact Hbx|]. apply Z.mul_le_mono_nonneg_l; [done|]. by etransitivity.
    - rewrite (Z.mul_comm (fval y)), Z.mul_assoc. apply Z.mul_lt_mono_pos_r; [|exact H2]. pose proof scale_pos. lia. }
  split; [done|]. unfold near in Nq. destruct pow_sep as [S1 S2].
  assert (HO : 0 < O) by done. assert (HOy : O ≤ 2 * fval y) by (by etransitivity).
  assert (Hy : 0 < fval y) by (clear -HO HOy; lia).
  assert (Pa : 0 ≤ fval x * O) by (apply Z.mul_nonneg_nonneg; done).
  assert (D1 : fval x * O / fval y * fval y ≤ fval x * O) by (rewrite Z.mul_comm; by apply Z.mul_div_le).
  pose proof (quotient_chain (fval x) (fval y) (fval (f64_div x y)) (fval x * O / fval y) (Z.of_N n * O) O tiny
    Px (fval_nonneg _ Oq) (Z.div_pos _ _ Pa Hy) S1 S2 Hw HOy Hbx Hw2 Ny Nq D1 (Z.mul_succ_div_gt _ _ Hy)) as Hc.
  apply (Z.mul_le_mono_pos_r _ _ O HO). rewrite Z.mul_add_distr_r. etransitivity; [|exact Hc].
  rewrite Z.mul_assoc, <- Z.mul_sub_distr_r, Z.abs_mul, (Z.abs_eq O) by done. apply Z.eq_le_incl. generalize O. intros. ring.
Qed.

(** The ratio of two integers. *)
Lemma ratio_ok u n : Z.of_N u < 2 ^ 200 → (0 < n)%N → Z.of_N n < 2 ^ 200 →
  let r := f64_div (f64_of_N u) (f64_of_N n) in
  f64_ok r ∧ Z.abs (fval r * Z.of_N n - fx (Z.of_N u)) * 2 ^ 49 ≤ fx (Z.of_N u) + O.
Proof.
  intros Hu H0 Hn. cbn zeta. assert (Hu' : Z.of_N u < 2 ^ 1000) by (eapply Z.lt_le_trans; [exact Hu|by apply Z.pow_le_mono_r]).
  destruct (of_N_ok u Hu') as [Ou Nu]. unfold near in Nu. change (fx (Z.of_N u)) with (Z.of_N u * O) in *.
  assert (Hw : 0 ≤ Z.of_N u * O ≤ 2 ^ 200 * O) by (split; [apply scaled_nonneg|apply scaled_mono]; lia).
  destruct (quotient_ok (f64_of_N u) n Ou) as [Oq Nq]; [|done|done|].
  { change (2 ^ 300) with (2 ^ 200 * 2 ^ 100). generalize dependent (Z.of_N u * O).
    intros. assert (1 ≤ 2 ^ 100) by done. scales. }
  split; [done|]. generalize dependent (Z.of_N u * O). intros. scales.
Qed.

(** Literals. *)
Example f64_literals :
  f64_one = S754_finite false 4503599627370496 (-52)
  ∧ f64_div (f64_of_N 8) (f64_of_N 10) = f64_0_8 ∧ f64_div (f64_of_N 1) (f64_of_N 5) = f64_0_2
  ∧ f64_add (f64_of_N 9007199254740992) f64_one = f64_of_N 9007199254740992
  ∧ f64_eq f64_epsilon (f64_div f64_one (f64_of_N 4503599627370496)) = true.
Proof. vm_compute. done. Qed.
