(* ===== verification/Metrics.v ===== *)
(** * Metrics in binary64

    Ages in milliseconds, sums of ages with what rounding adds to them, averages, and rates
    per second, as the end of a synthesis cycle computes them: how far each is from the
    number it stands for. *)
From S2P Require Import Prelude F64.

(** ** Ages and sums of ages *)

Local Open Scope Z_scope.
Local Abbreviation O := scale.

(** An age in milliseconds, of an age in nanoseconds. *)
Lemma age_near ns : Z.of_N ns < 2 ^ 64 →
  let ms := f64_div (f64_of_N ns) (f64_of_N 1000000) in
  f64_ok ms ∧ Z.abs (fval ms * 1000000 - fx (Z.of_N ns)) * 2 ^ 49 ≤ fx (Z.of_N ns) + O.
Proof.
  intros H. apply (ratio_ok ns 1000000); [|done|done].
  eapply Z.lt_trans; [exact H|]. by apply Z.pow_lt_mono_r.
Qed.

(** The unit that ages are compared in: [L] nanoseconds, a part in 2^40 and a nanosecond above. *)
Definition age_scale : Z := 1000000 * 2 ^ 40.
Definition age_bound (L : N) : Z := fx (Z.of_N L * (2 ^ 40 + 1) + 2 ^ 40).

Lemma age_bound_pos L : 2 ^ 40 * O ≤ age_bound L.
Proof. unfold age_bound, fx. apply scaled_mono. lia. Qed.

Lemma age_bounded ns L : (ns ≤ L)%N → Z.of_N L < 2 ^ 64 →
  let ms := f64_div (f64_of_N ns) (f64_of_N 1000000) in
  f64_ok ms ∧ fval ms * age_scale ≤ age_bound L.
Proof.
  intros Hns HL. cbn zeta. destruct (age_near ns ltac:(lia)) as [Ho Hn]. split; [done|].
  assert (H1 : fx (Z.of_N ns) ≤ fx (Z.of_N L)) by (apply fx_mono; lia).
  unfold age_bound, age_scale. replace (fx (Z.of_N L * (2 ^ 40 + 1) + 2 ^ 40)) with ((2 ^ 40 + 1) * fx (Z.of_N L) + 2 ^ 40 * O)
    by (unfold fx; ring).
  assert (H0 : 0 ≤ fx (Z.of_N ns)) by (apply fx_nonneg; lia).
  generalize dependent (fx (Z.of_N ns)). generalize dependent (fx (Z.of_N L)). intros. scales.
Qed.

Lemma age_bound_range L : Z.of_N L < 2 ^ 64 → O ≤ age_bound L ≤ 2 ^ 200 * O.
Proof.
  intros HL. pose proof (age_bound_pos L) as Hp. split; [etransitivity; [|exact Hp]; done|].
  unfold age_bound, fx. apply scaled_mono.
  etransitivity; [|by apply (Z.pow_le_mono_r 2 110 200)]. lia.
Qed.

(** A count, and the sum of as many ages of at most [M] with what rounding adds. *)
Record sum_ok (M : Z) (c : nat * f64) : Prop := {
  so_ok : f64_ok c.2;
  so_bound : fval c.2 * age_scale * 2 ^ 51 ≤ Z.of_nat c.1 * M * (2 ^ 51 + Z.of_nat c.1);
}.

Lemma sum_zero M : sum_ok M (0%nat, f64_zero).
Proof. split; [done|]. cbn. lia. Qed.

(** Sums as [a], ages as [l], their roundings, over plain unknowns. *)
Lemma sum_chain k a l r t M : 0 ≤ k < 2 ^ 40 → 0 ≤ a → 0 ≤ l → 0 ≤ t → t ≤ M →
  Z.abs (r - (a + l)) * 2 ^ 52 ≤ a + l + t →
  a * 2 ^ 51 ≤ k * M * (2 ^ 51 + k) → l ≤ M → r * 2 ^ 51 ≤ (k + 1) * M * (2 ^ 51 + (k + 1)).
Proof.
  intros Hk Ha Hl Ht HtM Hr Hak HlM.
  assert (Hkk : k * k ≤ 2 ^ 40 * k) by nia. assert (HkM : 0 ≤ k * M) by nia.
  assert (HkkM : k * k * M ≤ 2 ^ 40 * (k * M)) by nia.
  replace ((k + 1) * M * (2 ^ 51 + (k + 1))) with (2 ^ 51 * (k * M) + 2 ^ 51 * M + k * k * M + 2 * (k * M) + M) by ring.
  replace (k * M * (2 ^ 51 + k)) with (2 ^ 51 * (k * M) + k * k * M) in Hak by ring.
  generalize dependent (k * k * M). generalize dependent (k * M). clear Hkk. intros. lia.
Qed.

(** A rounded sum, in the unit of ages. *)
Lemma add_scaled x y : f64_ok x → f64_ok y → fval x ≤ 2 ^ 300 * O → fval y ≤ 2 ^ 300 * O →
  f64_ok (f64_add x y)
  ∧ Z.abs (fval (f64_add x y) * age_scale - (fval x * age_scale + fval y * age_scale)) * 2 ^ 52
    ≤ fval x * age_scale + fval y * age_scale + O.
Proof.
  intros Hx Hy Bx By. destruct (add_ok x y Hx Hy) as [Ho Hn].
  { apply (Z.le_lt_trans _ (fx (2 ^ 301))); [|exact (fx_pow_big 301 ltac:(lia))].
    unfold fx. change (2 ^ 301) with (2 ^ 300 + 2 ^ 300). lia. }
  split; [done|]. unfold near in Hn. unfold age_scale. rewrite <- !Z.mul_add_distr_r, <- Z.mul_sub_distr_r, Z.abs_mul. clear Bx By Hx Hy Ho.
  generalize dependent (fval (f64_add x y)). generalize dependent (fval x + fval y). intros. scales.
Qed.

Section sums.
Context (M : Z) (HM : O ≤ M ≤ 2 ^ 200 * O).

Lemma M_pos : 0 < M.
Proof using HM. by eapply Z.lt_le_trans; [|apply HM]. Qed.

Lemma sum_small c : sum_ok M c → Z.of_nat c.1 ≤ 2 ^ 40 → fval c.2 ≤ 2 ^ 298 * O.
Proof using HM.
  intros [Ho Hb] Hk. pose proof (fval_nonneg _ Ho). 
  assert (H1 : Z.of_nat c.1 * M * (2 ^ 51 + Z.of_nat c.1) ≤ 2 ^ 40 * (2 ^ 200 * O) * (2 ^ 51 + 2 ^ 40)).
  { pose proof M_pos. apply Z.mul_le_mono_nonneg; [apply Z.mul_nonneg_nonneg; lia| |lia|lia].
    apply Z.mul_le_mono_nonneg; [lia|lia|lia|apply HM]. }
  assert (H2 : fval c.2 * 1 ≤ fval c.2 * (age_scale * 2 ^ 51)) by (by apply Z.mul_le_mono_nonneg_l).
  assert (H3 : 2 ^ 40 * (2 ^ 200 * O) * (2 ^ 51 + 2 ^ 40) = 2 ^ 40 * 2 ^ 200 * (2 ^ 51 + 2 ^ 40) * O) by ring.
  assert (H4 : 2 ^ 40 * 2 ^ 200 * (2 ^ 51 + 2 ^ 40) * O ≤ 2 ^ 298 * O) by (by apply scaled_mono).
  rewrite Z.mul_1_r in H2. rewrite Z.mul_assoc in H2. etransitivity; [exact H2|].
  etransitivity; [exact Hb|]. etransitivity; [exact H1|]. by rewrite H3.
Qed.

Lemma sum_step c l : sum_ok M c → Z.of_nat c.1 < 2 ^ 40 → f64_ok l → fval l * age_scale ≤ M →
  sum_ok M (S c.1, f64_add c.2 l).
Proof using HM.
  intros Hc Hk Hl HlM. pose proof (sum_small c Hc ltac:(lia)) as Bc.
  assert (B298 : 2 ^ 298 * O ≤ 2 ^ 300 * O) by (by apply scaled_mono). destruct Hc as [Ho Hb].
  pose proof (fval_nonneg _ Ho). pose proof (fval_nonneg _ Hl).
  assert (Bl : fval l ≤ 2 ^ 300 * O).
  { assert (2 ^ 200 * O ≤ 2 ^ 300 * O) by (by apply scaled_mono). unfold age_scale in HlM. lia. }
  destruct (add_scaled c.2 l Ho Hl (Z.le_trans _ _ _ Bc B298) Bl) as [Hs Hn]. split; cbn [fst snd]; [done|].
  rewrite Nat2Z.inj_succ, <- Z.add_1_r.
  apply (sum_chain (Z.of_nat c.1) (fval c.2 * age_scale) (fval l * age_scale) _ O M); try done.
  - lia.
  - by apply Z.mul_nonneg_nonneg.
  - by apply Z.mul_nonneg_nonneg.
  - apply HM.
Qed.

Lemma sum_skip c : sum_ok M c → sum_ok M (S c.1, c.2).
Proof using HM.
  intros [Ho Hb]. split; [done|]. cbn [fst snd]. etransitivity; [exact Hb|].
  pose proof scale_pos. rewrite Nat2Z.inj_succ. apply Z.mul_le_mono_nonneg; [| |lia|lia].
  - apply Z.mul_nonneg_nonneg; lia.
  - apply Z.mul_le_mono_nonneg_r; lia.
Qed.

(** The sum of two sums, as the end of a cycle adds them. *)
Lemma sum_both c d : sum_ok M c → sum_ok M d → Z.of_nat (c.1 + d.1) < 2 ^ 38 → (0 < c.1 + d.1)%nat →
  let t := f64_add (f64_add f64_zero c.2) d.2 in
  f64_ok t ∧ fval t ≤ 2 ^ 300 * O ∧ fval t * age_scale * 2 ^ 11 ≤ Z.of_nat (c.1 + d.1) * M * (2 ^ 11 + 1).
Proof using HM.
  intros Hc Hd Hk Hpos. cbn zeta. pose proof (sum_small c Hc ltac:(lia)) as Bc. pose proof (sum_small d Hd ltac:(lia)) as Bd.
  destruct Hc as [Oc Hc], Hd as [Od Hd]. pose proof (fval_nonneg _ Oc). pose proof (fval_nonneg _ Od).
  assert (B298 : 4 * (2 ^ 298 * O) = 2 ^ 300 * O) by (rewrite Z.mul_assoc; done).
  pose proof scale_pos as HO. pose proof M_pos as HM0. assert (HOM : O ≤ M) by apply HM.
  destruct (add_scaled f64_zero c.2 (so_ok M _ (sum_zero M)) Oc ltac:(done) ltac:(clear -B298 Bc HO; lia)) as [Oz Nz].
  change (fval f64_zero) with 0 in Nz. rewrite Z.mul_0_l, Z.add_0_l in Nz.
  set (z := f64_add f64_zero c.2) in *. pose proof (fval_nonneg _ Oz).
  assert (Bz : fval z ≤ 2 * fval c.2 + O) by (clear -Nz HO; unfold age_scale in Nz; lia).
  destruct (add_scaled z d.2 Oz Od ltac:(clear -B298 Bz Bc HO; lia) ltac:(clear -B298 Bd HO; lia)) as [Ot Nt].
  set (t := f64_add z d.2) in *. pose proof (fval_nonneg _ Ot). split; [done|].
  split; [clear -Nt Bz Bc Bd B298 HO; unfold age_scale in Nt; lia|].
  assert (Hc2 : Z.of_nat c.1 * M * (2 ^ 51 + Z.of_nat c.1) ≤ Z.of_nat c.1 * M * (2 ^ 51 + 2 ^ 38)).
  { apply Z.mul_le_mono_nonneg_l; [apply Z.mul_nonneg_nonneg|]; lia. }
  assert (Hd2 : Z.of_nat d.1 * M * (2 ^ 51 + Z.of_nat d.1) ≤ Z.of_nat d.1 * M * (2 ^ 51 + 2 ^ 38)).
  { apply Z.mul_le_mono_nonneg_l; [apply Z.mul_nonneg_nonneg|]; lia. }
  assert (HnM : 1 * M ≤ Z.of_nat (c.1 + d.1) * M) by (apply Z.mul_le_mono_nonneg_r; lia).
  rewrite Nat2Z.inj_add, !Z.mul_add_distr_r in *.
  assert (Pc : 0 ≤ fval c.2 * age_scale) by (by apply Z.mul_nonneg_nonneg).
  assert (Pd : 0 ≤ fval d.2 * age_scale) by (by apply Z.mul_nonneg_nonneg).
  clear -Hc Hd Hc2 Hd2 HnM HOM Nz Nt HM0 Pc Pd.
  generalize dependent (Z.of_nat c.1 * M * (2 ^ 51 + Z.of_nat c.1)).
  generalize dependent (Z.of_nat d.1 * M * (2 ^ 51 + Z.of_nat d.1)).
  generalize dependent (Z.of_nat c.1 * M). generalize dependent (Z.of_nat d.1 * M).
  generalize dependent (fval c.2 * age_scale). generalize dependent (fval d.2 * age_scale).
  generalize dependent (fval z * age_scale). generalize dependent (fval t * age_scale).
  generalize dependent O. intros. lia.
Qed.
End sums.

(** The average of two sums. *)
Lemma average_bounded L c d : Z.of_N L < 2 ^ 64 → sum_ok (age_bound L) c → sum_ok (age_bound L) d →
  Z.of_nat (c.1 + d.1) < 2 ^ 38 → (0 < c.1 + d.1)%nat →
  let a := f64_div (f64_add (f64_add f64_zero c.2) d.2) (f64_of_N (N.of_nat (c.1 + d.1))) in
  f64_ok a ∧ fval a * 1000000 * 2 ^ 9 ≤ fx (Z.of_N (L + 1)) * (2 ^ 9 + 1).
Proof.
  intros HL Hc Hd Hk Hpos. cbn zeta.
  destruct (sum_both (age_bound L) (age_bound_range L HL) c d Hc Hd Hk Hpos) as (Ot & Bt & Ht). cbn zeta in *.
  set (t := f64_add _ d.2) in *. set (n := (c.1 + d.1)%nat) in *.
  destruct (quotient_ok t (N.of_nat n) Ot Bt) as [Oa Na]; [lia|eapply Z.lt_trans; [|by apply (Z.pow_lt_mono_r 2 38 200)]; lia|].
  split; [done|]. set (a := f64_div t _) in *. rewrite nat_N_Z in Na. pose proof (fval_nonneg _ Oa).
  assert (HM : age_bound L = (2 ^ 40 + 1) * (Z.of_N L * O) + 2 ^ 40 * O) by (unfold age_bound, fx; ring).
  replace (fx (Z.of_N (L + 1))) with (Z.of_N L * O + O) by (unfold fx; rewrite N2Z.inj_add; ring).
  assert (HLO : 0 ≤ Z.of_N L * O) by (apply scaled_nonneg; lia).
  assert (Hp : 0 < Z.of_nat n) by (clear -Hpos; lia).
  apply (Z.mul_le_mono_pos_r _ _ (Z.of_nat n) Hp).
  assert (HnO : O ≤ Z.of_nat n * O) by (assert (1 * O ≤ Z.of_nat n * O) by (apply scaled_mono; lia); clear -H0; lia).
  rewrite HM in Ht. clear -Ht Na HLO HnO H Hp. unfold age_scale in *.
  replace (Z.of_nat n * ((2 ^ 40 + 1) * (Z.of_N L * O) + 2 ^ 40 * O) * (2 ^ 11 + 1))
    with ((2 ^ 11 + 1) * (2 ^ 40 + 1) * (Z.of_nat n * (Z.of_N L * O)) + (2 ^ 11 + 1) * 2 ^ 40 * (Z.of_nat n * O)) in Ht by ring.
  replace ((Z.of_N L * O + O) * (2 ^ 9 + 1) * Z.of_nat n)
    with ((2 ^ 9 + 1) * (Z.of_nat n * (Z.of_N L * O)) + (2 ^ 9 + 1) * (Z.of_nat n * O)) by ring.
  replace (fval a * 1000000 * 2 ^ 9 * Z.of_nat n) with (fval a * Z.of_nat n * 1000000 * 2 ^ 9) by ring.
  assert (HnLO : 0 ≤ Z.of_nat n * (Z.of_N L * O)) by (apply Z.mul_nonneg_nonneg; lia).
  generalize dependent (Z.of_nat n * (Z.of_N L * O)). generalize dependent (Z.of_nat n * O).
  generalize dependent (fval a * Z.of_nat n). generalize dependent (fval t). generalize dependent O. intros. lia.
Qed.

(** ** Operations per second *)

(** The chain of roundings behind the rate, over its scales: [o] is one, [t] the least
    float, [ns] the nanoseconds, [w] the operations, [e] the seconds, [q] the rate. *)
Lemma rate_chain ns w v e q f o t : 0 < t → t * 2 ^ 600 ≤ o → 0 ≤ q → 0 ≤ f → 0 ≤ w ≤ 2 ^ 66 * o →
  1 ≤ ns < 2 ^ 64 → Z.abs (e * 10 ^ 9 - ns * o) * 2 ^ 28 ≤ ns * o →
  Z.abs (v - w) * 2 ^ 52 ≤ w + t → Z.abs (q - f) * 2 ^ 52 ≤ f + t →
  f * e ≤ v * o → v * o < e * Z.succ f → Z.abs (q * ns - w * 10 ^ 9) * 2 ^ 20 ≤ w * 10 ^ 9 + o.
Proof.
  intros Ht Hto Hq Hf Hw Hns He Hv Hqf D1 D2.
  assert (Ho : 0 < o) by (clear -Ht Hto; lia). assert (Hno : 0 < ns * o) by (apply Z.mul_pos_pos; lia).
  assert (He0 : 0 < e) by (clear -He Hno; lia).
  assert (He1 : e ≤ 2 ^ 64 * o).
  { assert (ns * o ≤ 2 ^ 64 * o) by (apply Z.mul_le_mono_pos_r; lia). clear -He H Ho. lia. }
  assert (Hee : e * 2 ^ 100 ≤ o * o).
  { assert (H1 : 2 ^ 600 ≤ t * 2 ^ 600) by (clear -Ht; lia).
    assert (H2 : 2 ^ 64 * o * 2 ^ 100 ≤ o * o); [|clear -H2 He1; lia].
    replace (2 ^ 64 * o * 2 ^ 100) with (2 ^ 64 * 2 ^ 100 * o) by ring. apply Z.mul_le_mono_pos_r; [done|].
    etransitivity; [|etransitivity; [exact H1|exact Hto]]. done. }
  assert (Hte : t * e * 2 ^ 100 ≤ o * o).
  { apply (Z.le_trans _ (t * (2 ^ 64 * o) * 2 ^ 100)); [apply Z.mul_le_mono_nonneg_r; [done|]; apply Z.mul_le_mono_nonneg_l; lia|].
    replace (t * (2 ^ 64 * o) * 2 ^ 100) with (t * (2 ^ 64 * 2 ^ 100) * o) by ring. apply Z.mul_le_mono_pos_r; [done|].
    etransitivity; [|exact Hto]. by apply Z.mul_le_mono_pos_l. }
  assert (N1 : Z.abs (q * e - f * e) * 2 ^ 52 ≤ f * e + t * e).
  { rewrite <- Z.mul_sub_distr_r, Z.abs_mul, (Z.abs_eq e) by lia.
    replace (f * e + t * e) with ((f + t) * e) by ring. rewrite <- Z.mul_assoc, (Z.mul_comm e), Z.mul_assoc.
    apply Z.mul_le_mono_nonneg_r; [lia|done]. }
  assert (N2 : Z.abs (q * e * 10 ^ 9 - q * (ns * o)) * 2 ^ 28 ≤ q * (ns * o)).
  { rewrite <- Z.mul_assoc, <- Z.mul_sub_distr_l, Z.abs_mul, (Z.abs_eq q) by done. rewrite <- Z.mul_assoc.
    by apply Z.mul_le_mono_nonneg_l. }
  assert (N3 : Z.abs (v * o - w * o) * 2 ^ 52 ≤ w * o + o * o).
  { rewrite <- Z.mul_sub_distr_r, Z.abs_mul, (Z.abs_eq o) by lia.
    replace (w * o + o * o) with ((w + o) * o) by ring. rewrite <- Z.mul_assoc, (Z.mul_comm o), Z.mul_assoc.
    apply Z.mul_le_mono_nonneg_r; [lia|]. clear -Hv Hto Ht. lia. }
  apply (Z.mul_le_mono_pos_r _ _ o Ho).
  replace (Z.abs (q * ns - w * 10 ^ 9) * 2 ^ 20 * o) with (Z.abs (q * (ns * o) - w * o * 10 ^ 9) * 2 ^ 20).
  2:{ replace (q * (ns * o) - w * o * 10 ^ 9) with ((q * ns - w * 10 ^ 9) * o) by ring.
      rewrite Z.abs_mul, (Z.abs_eq o) by lia. ring. }
  replace ((w * 10 ^ 9 + o) * o) with (w * o * 10 ^ 9 + o * o) by ring.
  rewrite Z.mul_succ_r in D2. rewrite (Z.mul_comm e f) in D2.
  assert (Hwo : 0 ≤ w * o) by (apply Z.mul_nonneg_nonneg; lia). clear -Hee Hte N1 N2 N3 D1 D2 Hwo.
  generalize dependent (q * (ns * o)). generalize dependent (q * e). generalize dependent (f * e).
  generalize dependent (t * e). generalize dependent (v * o). generalize dependent (w * o).
  generalize dependent (o * o). intros. lia.
Qed.

(** Seconds, as the end of a cycle computes them from nanoseconds. *)
Lemma seconds_near ns : (0 < ns)%N → Z.of_N ns < 2 ^ 64 →
  let e := f64_div (f64_div (f64_of_N ns) (f64_of_N 1000000)) (f64_of_N 1000) in
  f64_ok e ∧ Z.abs (fval e * 10 ^ 9 - Z.of_N ns * O) * 2 ^ 28 ≤ Z.of_N ns * O.
Proof.
  intros H0 Hns. destruct (age_near ns Hns) as [Om Nm]. cbn zeta in *.
  set (m := f64_div _ (f64_of_N 1000000)) in *. pose proof (fval_nonneg _ Om). unfold fx in Nm.
  assert (Hn : O ≤ Z.of_N ns * O) by (by apply scaled_ge).
  assert (Hn2 : Z.of_N ns * O ≤ 2 ^ 64 * O) by (apply scaled_mono; lia).
  destruct (quotient_ok m 1000 Om) as [Oe Ne]; [|done|done|].
  { assert (2 ^ 66 * O ≤ 2 ^ 300 * O) by (by apply scaled_mono). clear -H1 Hn2 Nm Hn. lia. }
  split; [done|]. change (Z.of_N 1000) with 1000 in Ne. clear -Ne Nm Hn.
  generalize dependent (Z.of_N ns * O). generalize dependent (fval (f64_div m (f64_of_N 1000))).
  generalize dependent (fval m). generalize O. intros. lia.
Qed.

(** The rate of [total] operations in [ns] nanoseconds. *)
Lemma rate_near total ns : (0 < ns)%N → Z.of_N ns < 2 ^ 64 → Z.of_N total < 2 ^ 66 →
  let q := f64_div (f64_of_N total)
             (f64_div (f64_div (f64_of_N ns) (f64_of_N 1000000)) (f64_of_N 1000)) in
  f64_ok q ∧ Z.abs (fval q * Z.of_N ns - fx (Z.of_N total) * 10 ^ 9) * 2 ^ 20 ≤ fx (Z.of_N total) * 10 ^ 9 + O.
Proof.
  intros H0 Hns Ht. cbn zeta. destruct (seconds_near ns H0 Hns) as [Oe Ne]. cbn zeta in Oe, Ne.
  set (e := f64_div _ (f64_of_N 1000)) in *.
  assert (Ht' : Z.of_N total < 2 ^ 1000) by (eapply Z.lt_le_trans; [exact Ht|by apply Z.pow_le_mono_r]).
  destruct (of_N_ok total Ht') as [Ov Nv]. unfold near in Nv.
  assert (Hw : 0 ≤ fx (Z.of_N total) ≤ 2 ^ 66 * O).
  { unfold fx. split; [apply scaled_nonneg; lia|]. apply scaled_mono; lia. }
  assert (Hno : O ≤ Z.of_N ns * O) by (by apply scaled_ge).
  destruct pow_sep as [S1 S2]. pose proof scale_pos as HO.
  assert (He : O ≤ fval e * 2 ^ 31) by (clear -Ne Hno HO; generalize dependent (Z.of_N ns * O); generalize dependent O; intros; lia).
  assert (He0 : 0 < fval e) by (clear -He HO; lia).
  destruct (div_ok _ e Ov Oe He0) as [Oq Nq].
  { unfold fx. rewrite (Z.mul_comm (2 ^ 1000)), <- Z.mul_assoc, (Z.mul_comm _ O). apply Z.mul_lt_mono_pos_l; [done|].
    assert (H1 : fval (f64_of_N total) < 2 ^ 68 * O).
    { clear -Hw Nv S1 S2 HO. generalize dependent (fx (Z.of_N total)). intros. scales. }
    assert (H2 : 2 ^ 68 * O ≤ 2 ^ 68 * (fval e * 2 ^ 31)) by (by apply Z.mul_le_mono_nonneg_l).
    assert (H3 : 2 ^ 68 * 2 ^ 31 * fval e ≤ 2 ^ 1000 * fval e) by (apply Z.mul_le_mono_pos_r; [done|]; done).
    clear -H1 H2 H3. lia. }
  split; [done|]. unfold near in Nq.
  apply (rate_chain (Z.of_N ns) (fx (Z.of_N total)) (fval (f64_of_N total)) (fval e) _ (fval (f64_of_N total) * O / fval e) O tiny);
    try done.
  - by apply fval_nonneg.
  - apply Z.div_pos; [|done]. apply Z.mul_nonneg_nonneg; [by apply fval_nonneg|done].
  - clear -H0 Hns. lia.
  - rewrite Z.mul_comm. by apply Z.mul_div_le.
  - by apply Z.mul_succ_div_gt.
Qed.
