(* ===== verification/ModArith.v ===== *)
(** * Arithmetic modulo a number

    Finite sums over [0..n), natural powers, congruence, geometric sums at principal
    roots of unity and bit reversal: the mathematics the transform of Ntt.v rests on.
    Nothing here depends on the modulus being prime. *)
From S2P Require Import Prelude.
From Stdlib Require Import Zdiv Ring.
Local Open Scope Z_scope.

(** ** Sums and powers *)

Fixpoint zsum (f : nat → Z) (n : nat) : Z :=
  match n with O => 0 | S n => zsum f n + f n end.

Fixpoint npow (r : Z) (k : nat) : Z :=
  match k with O => 1 | S k => r * npow r k end.

Lemma zsum_ext (f g : nat → Z) (n : nat) :
  (∀ j, (j < n)%nat → f j = g j) → zsum f n = zsum g n.
Proof.
  induction n as [|n IH]; intros H; cbn [zsum]; [done|].
  rewrite IH by (intros; apply H; lia). rewrite H by lia. done.
Qed.

Lemma zsum_plus (f g : nat → Z) (n : nat) :
  zsum (λ j, f j + g j) n = zsum f n + zsum g n.
Proof. induction n as [|n IH]; cbn [zsum]; [done|]. rewrite IH. ring. Qed.

Lemma zsum_scale (c : Z) (f : nat → Z) (n : nat) : zsum (λ j, c * f j) n = c * zsum f n.
Proof. induction n as [|n IH]; cbn [zsum]; [ring|]. rewrite IH. ring. Qed.

Lemma zsum_app (f : nat → Z) (n m : nat) :
  zsum f (n + m) = zsum f n + zsum (λ j, f (n + j)%nat) m.
Proof.
  induction m as [|m IH]; [rewrite Nat.add_0_r; cbn [zsum]; ring|].
  rewrite Nat.add_succ_r. cbn [zsum]. rewrite IH. ring.
Qed.

Lemma zsum_even_odd (f : nat → Z) (n : nat) :
  zsum f (2 * n) = zsum (λ j, f (2 * j)%nat) n + zsum (λ j, f (2 * j + 1)%nat) n.
Proof.
  induction n as [|n IH]; [done|].
  replace (2 * S n)%nat with (S (S (2 * n))) by lia. cbn [zsum]. rewrite IH.
  replace (2 * n + 1)%nat with (S (2 * n)) by lia. ring.
Qed.

Lemma zsum_swap (f : nat → nat → Z) (n m : nat) :
  zsum (λ i, zsum (λ j, f i j) m) n = zsum (λ j, zsum (λ i, f i j) n) m.
Proof.
  induction n as [|n IH]; cbn [zsum].
  - induction m as [|m IHm]; cbn [zsum]; [done|]. by rewrite <- IHm.
  - by rewrite IH, zsum_plus.
Qed.

Lemma zsum_zero (f : nat → Z) (n : nat) : (∀ j, (j < n)%nat → f j = 0) → zsum f n = 0.
Proof.
  intros H. rewrite (zsum_ext f (λ _, 0) n) by done.
  induction n as [|n IH]; cbn [zsum]; [done|]. rewrite IH; [done|]. intros; apply H; lia.
Qed.

Lemma npow_add (r : Z) (a b : nat) : npow r (a + b) = npow r a * npow r b.
Proof. induction a as [|a IH]; cbn [npow Nat.add]; [ring|]. rewrite IH. ring. Qed.

Lemma npow_mul (r : Z) (a b : nat) : npow r (a * b) = npow (npow r a) b.
Proof.
  induction b as [|b IH]; [by rewrite Nat.mul_0_r|].
  rewrite Nat.mul_succ_r, Nat.add_comm, npow_add, IH. done.
Qed.

Lemma npow_mul_base (r s : Z) (k : nat) : npow (r * s) k = npow r k * npow s k.
Proof. induction k as [|k IH]; cbn [npow]; [done|]. rewrite IH. ring. Qed.

Lemma npow_1_l (k : nat) : npow 1 k = 1.
Proof. induction k as [|k IH]; cbn [npow]; [done|]. rewrite IH. done. Qed.

Lemma npow_Zpow (r : Z) (k : nat) : npow r k = r ^ Z.of_nat k.
Proof.
  induction k as [|k IH]; [done|]. rewrite Nat2Z.inj_succ, Z.pow_succ_r by lia.
  cbn [npow]. by rewrite IH.
Qed.

(** ** Congruence modulo [p] *)

Section congruence.
Context (p : Z).

Definition cong (a b : Z) : Prop := a mod p = b mod p.

#[export] Instance cong_equiv : Equivalence cong.
Proof. unfold cong. split; [intros ? | intros ??? | intros ?????]; congruence. Qed.
#[export] Instance cong_add : Proper (cong ==> cong ==> cong) Z.add.
Proof. intros a a' Ha b b' Hb. unfold cong in *. by rewrite Zplus_mod, Ha, Hb, <- Zplus_mod. Qed.
#[export] Instance cong_sub : Proper (cong ==> cong ==> cong) Z.sub.
Proof. intros a a' Ha b b' Hb. unfold cong in *. by rewrite Zminus_mod, Ha, Hb, <- Zminus_mod. Qed.
#[export] Instance cong_mul : Proper (cong ==> cong ==> cong) Z.mul.
Proof. intros a a' Ha b b' Hb. unfold cong in *. by rewrite Zmult_mod, Ha, Hb, <- Zmult_mod. Qed.
#[export] Instance cong_npow : Proper (cong ==> eq ==> cong) npow.
Proof.
  intros a b Hab k ? <-. induction k as [|k IH]; cbn [npow]; [done|]. by rewrite IH, Hab.
Qed.

Lemma cong_mod (a : Z) : cong (a mod p) a.
Proof. unfold cong. apply Z.mod_mod_divide. apply Z.divide_refl. Qed.

Lemma zsum_cong (f g : nat → Z) (n : nat) :
  (∀ j, (j < n)%nat → cong (f j) (g j)) → cong (zsum f n) (zsum g n).
Proof.
  induction n as [|n IH]; intros H; cbn [zsum]; [done|].
  rewrite IH by (intros; apply H; lia). rewrite H by lia. done.
Qed.

Lemma cong_small (a b : Z) : 0 ≤ a < p → 0 ≤ b < p → cong a b → a = b.
Proof. unfold cong. intros Ha Hb. by rewrite !Z.mod_small by lia. Qed.

Lemma cong_opp1_odd (k : nat) : Nat.Odd k → npow (-1) k = -1.
Proof.
  intros [t ->]. rewrite npow_add, npow_mul. cbn [npow]. by rewrite npow_1_l.
Qed.

(** Sum of a geometric progression of length [2^m]. *)
Lemma geometric_double (z : Z) (m : nat) :
  zsum (npow z) (2 ^ S m) = zsum (npow z) (2 ^ m) * (1 + npow z (2 ^ m)).
Proof.
  replace (2 ^ S m)%nat with (2 ^ m + 2 ^ m)%nat by (cbn; lia).
  rewrite zsum_app. rewrite (zsum_ext (λ j, npow z (2 ^ m + j)) (λ j, npow z (2 ^ m) * npow z j))
    by (intros; apply npow_add).
  rewrite zsum_scale. ring.
Qed.

(** If [r^(2^m) = -1] then the powers of [r^d] cancel over a full period. *)
Lemma geometric_principal_root (m : nat) (r : Z) (d : nat) :
  cong (npow r (2 ^ m)) (-1) → (0 < d < 2 ^ S m)%nat →
  cong (zsum (npow (npow r d)) (2 ^ S m)) 0.
Proof.
  revert r d. induction m as [|m IH]; intros r d Hr Hd.
  - assert (d = 1%nat) as -> by (cbn in Hd; lia).
    cbn in *. rewrite Z.mul_1_r in *. rewrite Hr. done.
  - rewrite geometric_double. destruct (Nat.Even_or_Odd d) as [[d' ->]|Ho].
    + assert (Hz : cong (zsum (npow (npow r (2 * d'))) (2 ^ S m)) 0).
      { rewrite npow_mul. apply IH; [|cbn in *; lia].
        rewrite <- npow_mul. replace (2 * 2 ^ m)%nat with (2 ^ S m)%nat by done. done. }
      rewrite Hz, Z.mul_0_l. done.
    + rewrite <- npow_mul, Nat.mul_comm, npow_mul, Hr.
      rewrite cong_opp1_odd by done. by rewrite Z.mul_0_r.
Qed.
End congruence.

(** ** Bit reversal *)

(** The low [w] bits of [x] in reverse order. *)
Fixpoint rev_bits (w : nat) (x : N) : N :=
  match w with
  | O => 0%N
  | S w => let r := rev_bits w (N.div2 x) in if N.odd x then N.setbit r (N.of_nat w) else r
  end.

Definition bitrev (w i : nat) : nat := N.to_nat (rev_bits w (N.of_nat i)).

Lemma rev_bits_spec (w : nat) (x i : N) :
  N.testbit (rev_bits w x) i =
  (i <? N.of_nat w)%N && N.testbit x (N.of_nat w - 1 - i).
Proof.
  revert x i. induction w as [|w IH]; intros x i; cbn [rev_bits].
  { rewrite N.bits_0. by destruct (N.ltb_spec i (N.of_nat 0)); [lia|]. }
  assert (Hr : N.testbit (if N.odd x then N.setbit (rev_bits w (N.div2 x)) (N.of_nat w)
                          else rev_bits w (N.div2 x)) i
               = ((N.of_nat w =? i)%N && N.odd x) || N.testbit (rev_bits w (N.div2 x)) i).
  { destruct (N.odd x); [rewrite N.setbit_eqb; by rewrite andb_true_r|].
    by rewrite andb_false_r. }
  cbn zeta. rewrite Hr, IH. clear Hr IH.
  destruct (N.eqb_spec (N.of_nat w) i) as [<-|Hne]; cbn [andb orb].
  - rewrite N.ltb_irrefl, orb_false_r. replace (N.of_nat w <? N.of_nat (S w))%N with true by (symmetry; apply N.ltb_lt; lia).
    cbn [andb].    replace (N.of_nat (S w) - 1 - N.of_nat w)%N with 0%N by lia. by rewrite N.bit0_odd.
  - destruct (N.ltb_spec i (N.of_nat w)), (N.ltb_spec i (N.of_nat (S w))); try lia.
    cbn [andb].     rewrite N.div2_spec, N.shiftr_spec'. f_equal. lia.
Qed.

Lemma rev_bits_even (w : nat) (b : N) : rev_bits (S w) (2 * b) = rev_bits w b.
Proof.
  cbn [rev_bits]. rewrite N.odd_mul. cbn [andb N.odd].
  by rewrite N.div2_even.
Qed.

Lemma rev_bits_lt (w : nat) (x : N) : (rev_bits w x < 2 ^ N.of_nat w)%N.
Proof.
  destruct (N.eq_dec (rev_bits w x) 0) as [->|Hne]; [apply pow2_pos|].
  apply N.log2_lt_pow2; [lia|]. pose proof (N.bit_log2 _ Hne) as Hb.
  rewrite rev_bits_spec in Hb. apply andb_true_iff in Hb as [?%N.ltb_lt _]. done.
Qed.

Lemma rev_bits_odd (w : nat) (b : N) :
  rev_bits (S w) (2 * b + 1) = (rev_bits w b + 2 ^ N.of_nat w)%N.
Proof.
  cbn [rev_bits]. rewrite N.odd_add, N.odd_mul. cbn [andb N.odd xorb].
  rewrite N.div2_odd'.
  rewrite N.setbit_spec', N.add_nocarry_lxor, N.lxor_lor; [done|..].
  all: apply N.bits_inj_0; intros i; rewrite N.land_spec, N.pow2_bits_eqb, rev_bits_spec.
  all: destruct (N.eqb_spec (N.of_nat w) i) as [<-|]; [|by rewrite andb_false_r].
  all: by rewrite N.ltb_irrefl.
Qed.

Lemma rev_bits_invol (w : nat) (x : N) : (x < 2 ^ N.of_nat w)%N → rev_bits w (rev_bits w x) = x.
Proof.
  intros Hx. apply N.bits_inj. intros i. rewrite !rev_bits_spec.
  destruct (N.ltb_spec i (N.of_nat w)) as [Hi|Hi]; cbn [andb].
  - destruct (N.ltb_spec (N.of_nat w - 1 - i) (N.of_nat w)); [|lia]. cbn [andb]. f_equal. lia.
  - symmetry. destruct (N.eq_dec x 0) as [->|]; [apply N.bits_0|].
    apply N.bits_above_log2. apply N.log2_lt_pow2 in Hx; lia.
Qed.

(** Reversing all 64 bits and shifting down reverses the low [w] bits. *)
Lemma rev_bits_64_shift (w : nat) (x : N) : (w ≤ 64)%nat →
  N.shiftr (rev_bits 64 x) (64 - N.of_nat w) = rev_bits w x.
Proof.
  intros Hw. apply N.bits_inj. intros i. rewrite N.shiftr_spec', !rev_bits_spec.
  destruct (N.ltb_spec (i + (64 - N.of_nat w)) (N.of_nat 64)), (N.ltb_spec i (N.of_nat w)); try lia.
  cbn [andb]. f_equal. lia.
Qed.

Lemma bitrev_lt (w i : nat) : (bitrev w i < 2 ^ w)%nat.
Proof. unfold bitrev. pose proof (rev_bits_lt w (N.of_nat i)) as H. rewrite <- of_nat_pow2 in H. lia. Qed.

Lemma bitrev_invol (w i : nat) : (i < 2 ^ w)%nat → bitrev w (bitrev w i) = i.
Proof.
  intros Hi. unfold bitrev. rewrite N2Nat.id, rev_bits_invol; [lia|].
  rewrite <- of_nat_pow2. lia.
Qed.

Lemma bitrev_even (w b : nat) : bitrev (S w) (2 * b) = bitrev w b.
Proof. unfold bitrev. by rewrite Nat2N.inj_mul, <- (rev_bits_even w). Qed.

Lemma bitrev_odd (w b : nat) : bitrev (S w) (2 * b + 1) = (bitrev w b + 2 ^ w)%nat.
Proof.
  unfold bitrev. rewrite Nat2N.inj_add, Nat2N.inj_mul.
  change (N.of_nat 2) with 2%N. change (N.of_nat 1) with 1%N. rewrite rev_bits_odd.
  rewrite <- of_nat_pow2. lia.
Qed.
