(* ===== verification/Ntt.v ===== *)
(** * The number theoretic transform (src/src/consensus/ntt.rs)

    The engine, its in-place radix-2 transforms and the modular arithmetic under them.
    [u64] residues are held as [Z]; an index out of range or a failed [assert!] is [None].
    Proved: the engine is built exactly for the sizes [2^m], [1 <= m <= 23]; the forward
    loop computes the discrete Fourier transform at the engine's root of unity; the
    inverse loop undoes it. *)
From S2P Require Import Prelude ModArith.
From Stdlib Require Import Zdiv.
Local Open Scope Z_scope.

Definition NTT_MODULUS : Z := 998244353.
Definition NTT_PRIMITIVE_ROOT : Z := 3.

(** ** Residues *)

(** [a + b] and [a + m] are [u64] additions. *)
Definition add_mod (a b m : Z) : Z :=
  let s := (a + b) mod 2 ^ 64 in if m <=? s then s - m else s.

Definition sub_mod (a b m : Z) : Z :=
  if b <=? a then a - b else (a + m - b) mod 2 ^ 64.

(** The product is taken in [u128], so it cannot overflow; the result is below [m]. *)
Definition mul_mod (a b m : Z) : Z := (a * b) mod m.

Fixpoint mod_pow_loop (fuel : nat) (result base : Z) (exp : N) (modulus : Z) : Z :=
  match fuel with
  | O => result
  | S fuel =>
      if (exp =? 0)%N then result else
      let result := if N.odd exp then mul_mod result base modulus else result in
      mod_pow_loop fuel result (mul_mod base base modulus) (N.shiftr exp 1) modulus
  end.

(** One turn of [while exp > 0] per bit of [exp]. *)
Definition mod_pow (base : Z) (exp : N) (modulus : Z) : Z :=
  mod_pow_loop (N.size_nat exp) 1 (base mod modulus) exp modulus.

Definition mod_inv (a m : Z) : Z := mod_pow a (Z.to_N (m - 2)) m.

(** ** The engine *)

Record NttEngine := {
  ntt_size : nat;
  ntt_roots : list Z;
  ntt_inv_roots : list Z;
  ntt_inv_size : Z;
}.

(** [for i in 1..size { roots[i] = mul_mod(roots[i - 1], root, P) }]. *)
Definition fill_roots (root : Z) (size : nat) : option (list Z) :=
  fold_opt (λ roots k,
      prev ← roots !! k;
      Some (<[S k := mul_mod prev root NTT_MODULUS]> roots))
    (seq 0 (size - 1)) (replicate size 1).

Definition engine_new (size : nat) : option NttEngine :=
  if is_power_of_two (N.of_nat size) && (2 <=? size)%nat
     && ((NTT_MODULUS - 1) mod Z.of_nat size =? 0)
  then
    let exp := Z.to_N ((NTT_MODULUS - 1) / Z.of_nat size) in
    let root := mod_pow NTT_PRIMITIVE_ROOT exp NTT_MODULUS in
    let inv_root := mod_inv root NTT_MODULUS in
    roots ← fill_roots root size;
    inv_roots ← fill_roots inv_root size;
    Some {| ntt_size := size; ntt_roots := roots; ntt_inv_roots := inv_roots;
            ntt_inv_size := mod_inv (Z.of_nat size) NTT_MODULUS |}
  else None.

(** [i.reverse_bits() >> (usize::BITS - bits)] with [bits = n.trailing_zeros()]. *)
Definition reversed_index (n i : nat) : nat :=
  N.to_nat (N.shiftr (rev_bits 64 (N.of_nat i)) (64 - N.of_nat (trailing_zeros (N.of_nat n)))).

(** [a.swap(i, j)] *)
Definition swap (a : list Z) (i j : nat) : option (list Z) :=
  x ← a !! i; y ← a !! j; Some (<[j := x]> (<[i := y]> a)).

Definition bit_reverse_permute (a : list Z) : option (list Z) :=
  let n := length a in
  fold_opt (λ a i,
      let rev := reversed_index n i in
      if (i <? rev)%nat then swap a i rev else Some a)
    (seq 0 n) a.

Definition butterfly (roots : list Z) (i half step : nat) (a : list Z) (j : nat)
    : option (list Z) :=
  w ← roots !! (j * step)%nat;
  u ← a !! (i + j)%nat;
  x ← a !! (i + j + half)%nat;
  let v := mul_mod x w NTT_MODULUS in
  Some (<[(i + j + half)%nat := sub_mod u v NTT_MODULUS]>
          (<[(i + j)%nat := add_mod u v NTT_MODULUS]> a)).

(** [for i in (0..size).step_by(len) { while j < half { .. } }]; [i] is the [b]-th
    multiple of [len]. *)
Definition stage (roots : list Z) (size len : nat) (a : list Z) : option (list Z) :=
  let half := Nat.div len 2 in
  let step := Nat.div size len in
  fold_opt (λ a b, fold_opt (butterfly roots (b * len) half step) (seq 0 half) a)
    (seq 0 (Nat.div (size + len - 1) len)) a.

(** [while len <= size { .. len <<= 1 }] *)
Fixpoint stages (fuel : nat) (roots : list Z) (size len : nat) (a : list Z) : option (list Z) :=
  match fuel with
  | O => None
  | S fuel =>
      if (len <=? size)%nat then
        a' ← stage roots size len a;
        stages fuel roots size (2 * len) a'
      else Some a
  end.

(** The loop doubles [len], so one turn per bit of [size], plus the failing test. *)
Definition stage_fuel (size : nat) : nat := S (Nat.log2 size).

Definition ntt (e : NttEngine) (a : list Z) : option (list Z) :=
  if (length a =? ntt_size e)%nat then
    a' ← bit_reverse_permute a;
    stages (stage_fuel (ntt_size e)) (ntt_roots e) (ntt_size e) 2 a'
  else None.

Definition intt (e : NttEngine) (a : list Z) : option (list Z) :=
  if (length a =? ntt_size e)%nat then
    a' ← bit_reverse_permute a;
    a'' ← stages (stage_fuel (ntt_size e)) (ntt_inv_roots e) (ntt_size e) 2 a';
    Some (map (λ x, mul_mod x (ntt_inv_size e) NTT_MODULUS) a'')
  else None.

(** The unit tests of ntt.rs, evaluated. *)
Example ntt_intt_roundtrip_16 :
  let original := (λ x, Z.of_nat x * 7) <$> seq 0 16 in
  (e ← engine_new 16; a ← ntt e original; intt e a) = Some original.
Proof. vm_compute. reflexivity. Qed.

Example engine_sizes :
  ((λ o, if o is Some _ then true else false) <$> [engine_new 2; engine_new 64; engine_new 1; engine_new 12]) = [true; true; false; false].
Proof. vm_compute. reflexivity. Qed.

(** ** Residue arithmetic *)

Abbreviation P := NTT_MODULUS.
Definition canonical (x : Z) : Prop := 0 ≤ x < P.

Lemma P_val : P = 998244353.
Proof. done. Qed.

Lemma add_mod_spec (a b : Z) : canonical a → canonical b →
  canonical (add_mod a b P) ∧ cong P (add_mod a b P) (a + b).
Proof.
  unfold canonical, add_mod, cong. rewrite P_val. intros Ha Hb.
  rewrite (Z.mod_small (a + b) (2 ^ 64)) by lia.
  destruct (Z.leb_spec 998244353 (a + b)); split; [lia| |lia|done].
  replace (a + b - 998244353) with (a + b + (-1) * 998244353) by lia. apply Z_mod_plus_full.
Qed.

Lemma sub_mod_spec (a b : Z) : canonical a → canonical b →
  canonical (sub_mod a b P) ∧ cong P (sub_mod a b P) (a - b).
Proof.
  unfold canonical, sub_mod, cong. rewrite P_val. intros Ha Hb.
  destruct (Z.leb_spec b a); [split; [lia|done]|].
  rewrite (Z.mod_small (a + 998244353 - b) (2 ^ 64)) by lia. split; [lia|].
  replace (a + 998244353 - b) with (a - b + 1 * 998244353) by lia. apply Z_mod_plus_full.
Qed.

Lemma mul_mod_spec (a b : Z) :
  canonical (mul_mod a b P) ∧ cong P (mul_mod a b P) (a * b).
Proof. split; [apply Z.mod_pos_bound; done | apply cong_mod]. Qed.

Lemma npow_shiftr (b : Z) (e : N) :
  npow b (N.to_nat e) = (if N.odd e then b else 1) * npow (b * b) (N.to_nat (N.shiftr e 1)).
Proof.
  rewrite <- N.div2_spec. rewrite (N.div2_odd e) at 1.
  rewrite N2Nat.inj_add, N2Nat.inj_mul, Nat.add_comm, npow_add, npow_mul.
  change (npow b (N.to_nat 2)) with (b * (b * 1)). rewrite Z.mul_1_r.
  destruct (N.odd e); cbn [N.b2n]; [change (N.to_nat 1) with 1%nat | change (N.to_nat 0) with 0%nat];
    cbn [npow]; ring.
Qed.

Lemma mod_pow_loop_spec (fuel : nat) (r b : Z) (e : N) :
  canonical r → (N.size_nat e ≤ fuel)%nat →
  canonical (mod_pow_loop fuel r b e P)
  ∧ cong P (mod_pow_loop fuel r b e P) (r * npow b (N.to_nat e)).
Proof.
  revert r b e. induction fuel as [|fuel IH]; intros r b e Hr Hf; cbn [mod_pow_loop].
  { destruct e; [|destruct p; simpl in Hf; lia]. split; [done|]. cbn. by rewrite Z.mul_1_r. }
  destruct (N.eqb_spec e 0) as [->|He].
  { split; [done|]. cbn. by rewrite Z.mul_1_r. }
  destruct (IH (if N.odd e then mul_mod r b P else r) (mul_mod b b P) (N.shiftr e 1)) as [Hc Heq].
  { destruct (N.odd e); [apply mul_mod_spec|done]. }
  { rewrite size_nat_shiftr. lia. }
  split; [done|]. rewrite Heq, (npow_shiftr b e), (proj2 (mul_mod_spec b b)).
  destruct (N.odd e); [rewrite (proj2 (mul_mod_spec r b))|].
  - by rewrite Z.mul_assoc.
  - by rewrite Z.mul_1_l.
Qed.

Lemma mod_pow_spec (b : Z) (e : N) :
  canonical (mod_pow b e P) ∧ cong P (mod_pow b e P) (npow b (N.to_nat e)).
Proof.
  destruct (mod_pow_loop_spec (N.size_nat e) 1 (b mod P) e) as [Hc Heq];
    [unfold canonical; rewrite P_val; lia | done |].
  split; [done|]. unfold mod_pow. rewrite Heq, Z.mul_1_l. by rewrite cong_mod.
Qed.

(** ** Building the engine *)

(** [roots] holds the powers of [W] below [size]. *)
Definition power_table (W : Z) (size : nat) (roots : list Z) : Prop :=
  length roots = size ∧
  ∀ i, (i < size)%nat → ∃ x, roots !! i = Some x ∧ canonical x ∧ cong P x (npow W i).

Lemma fill_roots_spec (W : Z) (size : nat) :
  ∃ roots, fill_roots W size = Some roots ∧ power_table W size roots.
Proof.
  destruct size as [|size]; [by exists []; split; [|split; [|intros; lia]]|].
  unfold fill_roots. replace (S size - 1)%nat with size by lia.
  edestruct (fold_opt_seq_inv (λ roots k, prev ← roots !! k;
      Some (<[S k := mul_mod prev W P]> roots))
    (λ k roots, length roots = S size ∧
       ∀ i, (i ≤ k)%nat → ∃ x, roots !! i = Some x ∧ canonical x ∧ cong P x (npow W i))
    size (replicate (S size) 1)) as (roots & Hr & Hlen & Hall).
  - split; [apply length_replicate|]. intros i Hi. assert (i = 0%nat) as -> by lia.
    exists 1. split_and!; [done| |done]. split; by vm_compute.
  - intros k roots Hk [Hlen Hall]. destruct (Hall k) as (x & Hx & Hc & Heq); [lia|].
    rewrite Hx. cbn [mbind option_bind]. eexists; split; [done|].
    split; [by rewrite length_insert|]. intros i Hi. destruct (decide (i = S k)) as [->|].
    + rewrite list_lookup_insert_eq by lia. eexists; split_and!; [done|apply mul_mod_spec|].
      rewrite (proj2 (mul_mod_spec x W)), Heq, Z.mul_comm. done.
    + rewrite list_lookup_insert_ne by done. apply Hall. lia.
  - exists roots. split; [done|]. split; [done|]. intros i Hi. apply Hall. lia.
Qed.

Lemma npow_cong_1 (x : Z) (k : nat) : cong P x 1 → cong P (npow x k) 1.
Proof. intros Hx. rewrite Hx, npow_1_l. done. Qed.

Lemma npow_neg1_even (x : Z) (k : nat) : cong P x (-1) → cong P (npow x (2 * k)) 1.
Proof.
  intros Hx. rewrite npow_mul. apply npow_cong_1. rewrite Hx. done.
Qed.

(** 3 has order [P - 1 = 119 * 2^23]: its half power is [-1] (evaluated). *)
Lemma primitive_half : cong P (npow 3 (N.to_nat 499122176)) (-1).
Proof.
  destruct (mod_pow_spec 3 499122176) as [_ <-]. vm_compute. done.
Qed.

Lemma two_fermat : cong P (npow 2 (N.to_nat 998244352)) 1.
Proof. destruct (mod_pow_spec 2 998244352) as [_ <-]. vm_compute. done. Qed.

(** What the rest of the proof needs of an engine of size [2^(S m)]. *)
Record engine_ok (m : nat) (W V : Z) (e : NttEngine) : Prop := {
  eo_size : ntt_size e = (2 ^ S m)%nat;
  eo_roots : power_table W (ntt_size e) (ntt_roots e);
  eo_inv_roots : power_table V (ntt_size e) (ntt_inv_roots e);
  eo_half : cong P (npow W (2 ^ m)) (-1);
  eo_inv_half : cong P (npow V (2 ^ m)) (-1);
  eo_inverse : cong P (W * V) 1;
  eo_inv_size : cong P (Z.of_nat (ntt_size e) * ntt_inv_size e) 1;
}.

Lemma root_half (m : nat) (W : Z) (k : N) :
  cong P W (npow 3 (N.to_nat k)) → (N.of_nat (2 ^ m) * k = 499122176)%N →
  cong P (npow W (2 ^ m)) (-1).
Proof.
  intros HW Hk. rewrite HW, <- npow_mul, <- primitive_half, <- Hk.
  rewrite N2Nat.inj_mul, Nat2N.id, Nat.mul_comm. reflexivity.
Qed.

Lemma inverse_half (m : nat) (W V : Z) :
  cong P (npow W (2 ^ m)) (-1) → cong P (W * V) 1 → cong P (npow V (2 ^ m)) (-1).
Proof.
  intros HW HV.
  assert (E : cong P (npow W (2 ^ m) * npow V (2 ^ m)) 1).
  { rewrite <- npow_mul_base. by apply npow_cong_1. }
  rewrite HW in E. transitivity (-1 * (-1 * npow V (2 ^ m))).
  - by rewrite Z.mul_assoc, Z.mul_1_l.
  - by rewrite E.
Qed.

(** ** The transform *)

Section transform.
Context (M : nat) (W : Z) (roots : list Z).
Hypothesis HM : (M ≤ 64)%nat.
Hypothesis Hroots : power_table W (2 ^ M) roots.

Abbreviation n := (2 ^ M)%nat.

(** The vector [a] holds canonical representatives of the values of [f]. *)
Definition holds (a : list Z) (f : nat → Z) : Prop :=
  length a = n ∧
  ∀ i, (i < n)%nat → ∃ x, a !! i = Some x ∧ canonical x ∧ cong P x (f i).

Lemma holds_ext (a : list Z) (f g : nat → Z) :
  holds a f → (∀ i, (i < n)%nat → cong P (f i) (g i)) → holds a g.
Proof.
  intros [Hl Ha] Hfg. split; [done|]. intros i Hi.
  destruct (Ha i Hi) as (x & Hx & Hc & Hf). exists x. split_and!; [done|done|].
  rewrite Hf. by apply Hfg.
Qed.

Lemma reversed_index_bitrev (i : nat) : reversed_index n i = bitrev M i.
Proof.
  unfold reversed_index, bitrev.
  rewrite of_nat_pow2, trailing_zeros_pow2, rev_bits_64_shift; done.
Qed.

(** Each pair [{i, bitrev i}] is exchanged once, at its smaller index: after [t] indices, the
    pairs below [t] are in place. *)
Definition exchanged (x : list Z) (t : nat) (a : list Z) : Prop :=
  length a = n ∧ ∀ i, (i < n)%nat → a !! i = x !! (if (Nat.min i (bitrev M i) <? t)%nat then bitrev M i else i).

Lemma exchange_step x t a : (t < n)%nat → (t < bitrev M t)%nat → exchanged x t a →
  ∃ a', swap a t (bitrev M t) = Some a' ∧ exchanged x (S t) a'.
Proof.
  intros Ht Hlt [Hlen Hall].
  pose proof (bitrev_lt M t) as Hrt. pose proof (bitrev_invol M t Ht) as Hinv.
  assert (is_Some (a !! t)) as [y Hy] by (apply lookup_lt_is_Some; lia).
  assert (is_Some (a !! bitrev M t)) as [z Hz] by (apply lookup_lt_is_Some; lia).
  unfold swap. rewrite Hy. cbn [mbind option_bind]. rewrite Hz. cbn [mbind option_bind].
  eexists; split; [done|]. split; [by rewrite !length_insert|]. intros i Hi.
  pose proof (Hall t Ht) as Et. pose proof (Hall _ Hrt) as Er. rewrite Hinv in Er.
  rewrite Nat.min_l in Et by lia. rewrite Nat.min_r in Er by lia. rewrite Nat.ltb_irrefl in Et, Er.
  destruct (decide (i = bitrev M t)) as [->|Hir].
  { rewrite list_lookup_insert_eq by (rewrite length_insert; lia).
    rewrite Hinv, Nat.min_r by lia. destruct (Nat.ltb_spec t (S t)); [|lia]. congruence. }
  rewrite list_lookup_insert_ne by done.
  destruct (decide (i = t)) as [->|Hit].
  { rewrite list_lookup_insert_eq by lia. rewrite Nat.min_l by lia.
    destruct (Nat.ltb_spec t (S t)); [|lia]. congruence. }
  rewrite list_lookup_insert_ne by done. rewrite (Hall i Hi).
  assert (bitrev M i ≠ t) by (intros E; apply Hir; rewrite <- E; by rewrite bitrev_invol).
  destruct (Nat.ltb_spec (Nat.min i (bitrev M i)) t),
    (Nat.ltb_spec (Nat.min i (bitrev M i)) (S t)); try lia; done.
Qed.

Lemma exchange_skip x t a : (t < n)%nat → (bitrev M t ≤ t)%nat → exchanged x t a → exchanged x (S t) a.
Proof.
  intros Ht Hge [Hlen Hall]. split; [done|]. intros i Hi. rewrite (Hall i Hi).
  destruct (Nat.ltb_spec (Nat.min i (bitrev M i)) t),
    (Nat.ltb_spec (Nat.min i (bitrev M i)) (S t)); try lia; [done| |done].
  assert (Nat.min i (bitrev M i) = t) as E by lia.
  destruct (Nat.min_dec i (bitrev M i)) as [E'|E']; rewrite E' in E.
  - subst i. assert (bitrev M t = t) as -> by lia. done.
  - assert (i = bitrev M t) by (rewrite <- E; by rewrite bitrev_invol). assert (i = t) as -> by lia. by rewrite E.
Qed.

Lemma bit_reverse_permute_spec (x : list Z) : length x = n →
  ∃ a, bit_reverse_permute x = Some a ∧ length a = n ∧
       ∀ i, (i < n)%nat → a !! i = x !! bitrev M i.
Proof.
  intros Hx. unfold bit_reverse_permute. rewrite Hx.
  edestruct (fold_opt_seq_inv (λ a i,
      let rev := reversed_index n i in
      if (i <? rev)%nat then swap a i rev else Some a) (exchanged x) n x) as (a & Ha & Hlen & Hall).
  - split; [done|]. intros i _. done.
  - intros t a Ht Hx'. cbn zeta. rewrite reversed_index_bitrev.
    destruct (Nat.ltb_spec t (bitrev M t)) as [Hlt|Hge]; [by apply exchange_step|].
    eexists; split; [done|]. by apply exchange_skip.
  - exists a. split_and!; [done|done|]. intros i Hi. rewrite (Hall i Hi).
    destruct (Nat.ltb_spec (Nat.min i (bitrev M i)) n); [done|lia].
Qed.

(** What one stage does to position [k], for half-width [h]. *)
Definition bf (f : nat → Z) (h step k : nat) : Z :=
  let r := (k mod (2 * h))%nat in
  if (r <? h)%nat then f k + npow W (r * step) * f (k + h)%nat
  else f (k - h)%nat - npow W ((r - h) * step) * f k.

Lemma butterfly_spec (a : list Z) (f : nat → Z) (i h step j : nat) :
  holds a f → (j * step < n)%nat → (i + j + h < n)%nat → (0 < h)%nat →
  ∃ a', butterfly roots i h step a j = Some a' ∧
    holds a' (λ k, if (k =? i + j)%nat then f k + npow W (j * step) * f (k + h)%nat
                   else if (k =? i + j + h)%nat then f (k - h)%nat - npow W (j * step) * f k
                   else f k).
Proof.
  intros [Hlen Ha] Hj Hi Hh. destruct Hroots as [_ Hr].
  destruct (Hr _ Hj) as (w & Hw & Hwc & Hwe).
  destruct (Ha (i + j)%nat ltac:(lia)) as (u & Hu & Huc & Hue).
  destruct (Ha (i + j + h)%nat Hi) as (x & Hx & Hxc & Hxe).
  unfold butterfly. rewrite Hw. cbn [mbind option_bind]. rewrite Hu. cbn [mbind option_bind].
  rewrite Hx. cbn [mbind option_bind]. eexists; split; [done|].
  split; [by rewrite !length_insert|]. intros k Hk.
  destruct (mul_mod_spec x w) as [Hvc Hve].
  assert (Hv : cong P (mul_mod x w P) (npow W (j * step) * f (i + j + h)%nat)).
  { by rewrite Hve, Hxe, Hwe, Z.mul_comm. }
  destruct (Nat.eqb_spec k (i + j)) as [->|Hk1].
  { rewrite list_lookup_insert_ne by lia. rewrite list_lookup_insert_eq by lia.
    eexists; split; [done|]. destruct (add_mod_spec u (mul_mod x w P)) as [Hc He]; [done|done|].
    split; [done|]. by rewrite He, Hue, Hv. }
  destruct (Nat.eqb_spec k (i + j + h)) as [->|Hk2].
  { rewrite list_lookup_insert_eq by (rewrite length_insert; lia).
    eexists; split; [done|]. destruct (sub_mod_spec u (mul_mod x w P)) as [Hc He]; [done|done|].
    split; [done|]. rewrite He, Hue, Hv. by replace (i + j + h - h)%nat with (i + j)%nat by lia. }
  rewrite !list_lookup_insert_ne by done. apply Ha. lia.
Qed.

Lemma block_spec (a : list Z) (f : nat → Z) (i h step : nat) :
  holds a f → (h * step ≤ n)%nat → (0 < step)%nat → (i + 2 * h ≤ n)%nat →
  ∃ a', fold_opt (butterfly roots i h step) (seq 0 h) a = Some a' ∧
    holds a' (λ k, if (i <=? k)%nat && (k <? i + h)%nat
                   then f k + npow W ((k - i) * step) * f (k + h)%nat
                   else if (i + h <=? k)%nat && (k <? i + h + h)%nat
                   then f (k - h)%nat - npow W ((k - h - i) * step) * f k
                   else f k).
Proof.
  intros Ha Hs Hs0 Hi.
  apply (fold_opt_seq_inv _ (λ J a', holds a' (λ k,
      if (i <=? k)%nat && (k <? i + J)%nat
      then f k + npow W ((k - i) * step) * f (k + h)%nat
      else if (i + h <=? k)%nat && (k <? i + h + J)%nat
      then f (k - h)%nat - npow W ((k - h - i) * step) * f k
      else f k))).
  - apply (holds_ext _ _ _ Ha). intros k _. nat_cases; done.
  - intros J b HJ Hb.
    destruct (butterfly_spec b _ i h step J Hb) as (b' & Hb' & Hh); [nia|lia|lia|].
    exists b'. split; [done|]. apply (holds_ext _ _ _ Hh). intros k Hk. cbn beta.
    destruct (Nat.eqb_spec k (i + J)) as [->|].
    { replace (i + J - i)%nat with J by lia. nat_cases; done. }
    destruct (Nat.eqb_spec k (i + J + h)) as [->|].
    { replace (i + J + h - h)%nat with (i + J)%nat by lia.
      replace (i + J - i)%nat with J by lia. nat_cases; done. }
    nat_cases; done.
Qed.

(** A whole stage applies [bf] at every position. *)
Lemma stage_spec (a : list Z) (f : nat → Z) (s : nat) : (s < M)%nat →
  holds a f →
  ∃ a', stage roots n (2 ^ S s) a = Some a' ∧ holds a' (bf f (2 ^ s) (2 ^ (M - S s))).
Proof.
  intros Hs Ha. unfold stage.
  assert (Hh : (2 ^ S s / 2 = 2 ^ s)%nat).
  { rewrite Nat.pow_succ_r', Nat.mul_comm. by apply Nat.div_mul. }
  assert (En : (2 ^ M = 2 ^ (M - S s) * 2 ^ S s)%nat) by (rewrite <- Nat.pow_add_r; f_equal; lia).
  assert (0 < 2 ^ s)%nat by (apply Nat.neq_0_lt_0, Nat.pow_nonzero; lia).
  assert (0 < 2 ^ (M - S s))%nat by (apply Nat.neq_0_lt_0, Nat.pow_nonzero; lia).
  assert (Hstep : (n / 2 ^ S s = 2 ^ (M - S s))%nat).
  { rewrite En. apply Nat.div_mul. rewrite Nat.pow_succ_r'. lia. }
  assert (Hb : ((n + 2 ^ S s - 1) / 2 ^ S s = 2 ^ (M - S s))%nat).
  { symmetry. apply (Nat.div_unique _ _ _ (2 ^ S s - 1)); rewrite Nat.pow_succ_r' in *; nia. }
  rewrite Hh, Hstep, Hb. rewrite Nat.pow_succ_r' in *.
  set (h := (2 ^ s)%nat) in *. set (B := (2 ^ (M - S s))%nat) in *.
  edestruct (fold_opt_seq_inv (λ a b,
      fold_opt (butterfly roots (b * (2 * h)) h B) (seq 0 h) a)
    (λ b a', holds a' (λ k, if (k <? b * (2 * h))%nat then bf f h B k else f k)) B a)
    as (a' & Ha' & Hh').
  - apply (holds_ext _ _ _ Ha). intros k _. nat_cases; done.
  - intros b a1 Hb1 Ha1.
    destruct (block_spec a1 _ (b * (2 * h)) h B Ha1) as (a2 & Ha2 & Hh2); [nia|lia|nia|].
    exists a2. split; [done|]. apply (holds_ext _ _ _ Hh2). intros k Hk. cbn beta.
    unfold bf.
    destruct (decide (b * (2 * h) ≤ k < b * (2 * h) + 2 * h)%nat) as [Hin|Hout].
    + assert (Hmod : (k mod (2 * h) = k - b * (2 * h))%nat).
      { symmetry. apply (Nat.mod_unique _ _ b); lia. }
      rewrite Hmod. nat_cases; try done.
      by replace (k - h - b * (2 * h))%nat with (k - b * (2 * h) - h)%nat by lia.
    + nat_cases; done.
  - exists a'. split; [done|]. apply (holds_ext _ _ _ Hh'). intros k Hk. cbn beta.
    nat_cases; done.
Qed.

(** *** The stages compute ever larger partial transforms *)

(** After [s] stages, block [b] of length [2^s] holds the transform of the elements of
    [X] at stride [2^(M-s)] from [bitrev (M-s) b]. *)
Definition partial_dft (X : nat → Z) (s i : nat) : Z :=
  let b := (i / 2 ^ s)%nat in
  let k := (i mod 2 ^ s)%nat in
  zsum (λ j, X (bitrev (M - s) b + j * 2 ^ (M - s))%nat * npow W (2 ^ (M - s) * (j * k))) (2 ^ s).

(** The discrete Fourier transform at the root [W]. *)
Definition dft (X : nat → Z) (k : nat) : Z := zsum (λ j, X j * npow W (j * k)) n.

Lemma partial_dft_0 (X : nat → Z) (i : nat) : partial_dft X 0 i = X (bitrev M i).
Proof.
  unfold partial_dft. rewrite Nat.sub_0_r. cbn [Nat.pow zsum].
  rewrite Nat.div_1_r, Nat.mul_0_l, Nat.mul_0_l, Nat.mul_0_r, Nat.add_0_r. cbn [npow]. lia.
Qed.

Lemma partial_dft_M (X : nat → Z) (i : nat) : (i < n)%nat → partial_dft X M i = dft X i.
Proof.
  intros Hi. unfold partial_dft, dft.
  rewrite Nat.div_small, Nat.mod_small, Nat.sub_diag by done.
  apply zsum_ext. intros j _. unfold bitrev. cbn [rev_bits].
  change (N.to_nat 0) with 0%nat. rewrite Nat.pow_0_r. f_equal; f_equal; lia.
Qed.

Hypothesis Hhalf : ∀ s, S s = M → cong P (npow W (2 ^ s)) (-1).

(** Division and remainder of an index inside the two halves of a block. *)
Lemma half_block h b c r : (r < h)%nat →
  ((2 * h * b + c * h + r) / h = 2 * b + c)%nat ∧ ((2 * h * b + c * h + r) mod h = r)%nat.
Proof.
  intros Hr. split; [symmetry; apply (Nat.div_unique _ _ _ r); lia|].
  symmetry; apply (Nat.mod_unique _ _ (2 * b + c)); lia.
Qed.

Lemma npow_half B h t : cong P (npow W (B * h)) (-1) → cong P (npow W (B * (t * h))) (npow (-1) t).
Proof. intros Htop. replace (B * (t * h))%nat with (B * h * t)%nat by lia. by rewrite npow_mul, Htop. Qed.

(** The twiddle factors of the upper half of a block, read off its lower half. *)
Lemma upper_even B h j k : cong P (npow W (B * h)) (-1) → (h ≤ k)%nat →
  cong P (npow W (B * (2 * j * k))) (npow W (2 * B * (j * (k - h)))).
Proof.
  intros Htop Hk. replace (B * (2 * j * k))%nat with (2 * B * (j * (k - h)) + B * (2 * j * h))%nat
    by (destruct (Nat.le_exists_sub h k Hk) as (d & -> & _); rewrite Nat.add_sub; lia).
  rewrite npow_add, (npow_half B h _ Htop), (npow_mul (-1) 2 j). change (npow (-1) 2) with 1.
  by rewrite npow_1_l, Z.mul_1_r.
Qed.

Lemma upper_odd B h j k : cong P (npow W (B * h)) (-1) → (h ≤ k)%nat →
  cong P (npow W (B * ((2 * j + 1) * k))) (npow W ((k - h) * B) * npow W (2 * B * (j * (k - h))) * -1).
Proof.
  intros Htop Hk. replace (B * ((2 * j + 1) * k))%nat
    with ((k - h) * B + 2 * B * (j * (k - h)) + B * ((2 * j + 1) * h))%nat
    by (destruct (Nat.le_exists_sub h k Hk) as (d & -> & _); rewrite Nat.add_sub; lia).
  by rewrite !npow_add, (npow_half B h _ Htop), cong_opp1_odd by (exists j; lia).
Qed.

Lemma partial_dft_step (X : nat → Z) (s i : nat) : (s < M)%nat → (i < n)%nat →
  cong P (bf (partial_dft X s) (2 ^ s) (2 ^ (M - S s)) i) (partial_dft X (S s) i).
Proof.
  intros Hs Hi.
  assert (Hh0 : (0 < 2 ^ s)%nat) by (apply Nat.neq_0_lt_0, Nat.pow_nonzero; lia).
  unfold bf, partial_dft.
  replace (2 ^ (M - s))%nat with (2 * 2 ^ (M - S s))%nat
    by (rewrite <- Nat.pow_succ_r'; f_equal; lia).
  replace (M - s)%nat with (S (M - S s)) by lia.
  assert (Htop : cong P (npow W (2 ^ (M - S s) * 2 ^ s)) (-1)).
  { rewrite <- Nat.pow_add_r. apply Hhalf. lia. }
  rewrite (Nat.pow_succ_r' 2 s), zsum_even_odd.
  set (h := (2 ^ s)%nat) in *. set (B := (2 ^ (M - S s))%nat) in *.
  pose proof (Nat.div_mod_eq i (2 * h)) as Ei.
  pose proof (Nat.mod_upper_bound i (2 * h) ltac:(lia)) as Hk.
  set (b := (i / (2 * h))%nat) in *. set (k := (i mod (2 * h))%nat) in *.
  pose proof (half_block h b) as Hsub.
  destruct (Nat.ltb_spec k h) as [Hkh|Hkh].
  - destruct (Hsub 0%nat k Hkh) as [D0 M0]. destruct (Hsub 1%nat k Hkh) as [D1 M1].
    replace (2 * h * b + 0 * h + k)%nat with i in D0, M0 by lia.
    replace (2 * h * b + 1 * h + k)%nat with (i + h)%nat in D1, M1 by lia.
    rewrite D0, M0, D1, M1, Nat.add_0_r, bitrev_even, bitrev_odd. fold B.
    rewrite <- zsum_scale. apply eq_subrelation; [apply _|]. f_equal.
    + apply zsum_ext. intros j _. f_equal; [f_equal; lia|f_equal; lia].
    + apply zsum_ext. intros j _. rewrite Z.mul_comm, <- Z.mul_assoc, <- npow_add.
      f_equal; f_equal; lia.
  - destruct (Hsub 1%nat (k - h)%nat ltac:(lia)) as [D1 M1].
    destruct (Hsub 0%nat (k - h)%nat ltac:(lia)) as [D0 M0].
    replace (2 * h * b + 1 * h + (k - h))%nat with i in D1, M1 by lia.
    replace (2 * h * b + 0 * h + (k - h))%nat with (i - h)%nat in D0, M0 by lia.
    rewrite D0, M0, D1, M1, Nat.add_0_r, bitrev_even, bitrev_odd. fold B.
    rewrite <- zsum_scale. unfold Z.sub.
    apply cong_add.
    + apply zsum_cong. intros j _.
      replace (2 * j * B)%nat with (j * (2 * B))%nat by lia.
      by rewrite (upper_even B h j k Htop Hkh).
    + rewrite Z.opp_eq_mul_m1, Z.mul_comm, <- zsum_scale.
      apply zsum_cong. intros j _.
      replace (bitrev (M - S s) b + (2 * j + 1) * B)%nat
        with (bitrev (M - S s) b + B + j * (2 * B))%nat by lia.
      rewrite (upper_odd B h j k Htop Hkh). apply eq_subrelation; [apply _|]. ring.
Qed.

Lemma stages_spec (X : nat → Z) (d : nat) : (d ≤ M)%nat → ∀ a fuel, (S d ≤ fuel)%nat →
  holds a (partial_dft X (M - d)) →
  ∃ a', stages fuel roots n (2 ^ S (M - d)) a = Some a' ∧ holds a' (dft X).
Proof.
  induction d as [|d IH]; intros Hd a fuel Hf Ha; (destruct fuel as [|fuel]; [lia|]);
    cbn [stages].
  - rewrite Nat.sub_0_r in *. destruct (Nat.leb_spec (2 ^ S M) n) as [Hle|_].
    { apply (Nat.pow_le_mono_r_iff 2) in Hle; lia. }
    exists a. split; [done|]. apply (holds_ext _ _ _ Ha). intros i Hi.
    by rewrite partial_dft_M.
  - destruct (Nat.leb_spec (2 ^ S (M - S d)) n) as [_|Hgt].
    2: { apply (Nat.pow_lt_mono_r_iff 2) in Hgt; lia. }
    destruct (stage_spec a _ (M - S d) ltac:(lia) Ha) as (a1 & Ha1 & Hh1).
    rewrite Ha1. cbn [mbind option_bind].
    replace (2 * 2 ^ S (M - S d))%nat with (2 ^ S (M - d))%nat
      by (rewrite <- Nat.pow_succ_r'; f_equal; lia).
    apply IH; [lia|lia|]. apply (holds_ext _ _ _ Hh1). intros i Hi.
    rewrite partial_dft_step by lia. by replace (S (M - S d)) with (M - d)%nat by lia.
Qed.

Lemma transform_spec (x : list Z) : length x = n → Forall canonical x →
  ∃ a, (a' ← bit_reverse_permute x; stages (stage_fuel n) roots n 2 a') = Some a
       ∧ holds a (dft (λ j, nth j x 0)).
Proof.
  intros Hlen Hx.
  destruct (bit_reverse_permute_spec x Hlen) as (a & Ha & Hla & Hall).
  rewrite Ha. cbn [mbind option_bind].
  destruct (stages_spec (λ j, nth j x 0) M ltac:(lia) a (stage_fuel n)) as (a' & Ha' & Hh').
  - unfold stage_fuel. rewrite Nat.log2_pow2 by lia. lia.
  - rewrite Nat.sub_diag. split; [done|]. intros i Hi. rewrite (Hall i Hi), partial_dft_0.
    pose proof (bitrev_lt M i) as Hb.
    destruct (lookup_lt_is_Some_2 x (bitrev M i)) as [v Hv]; [lia|].
    exists v. rewrite (nth_lookup_Some _ _ _ _ Hv).
    split_and!; [done| by eapply Forall_lookup_1 |done].
  - rewrite Nat.sub_diag in Ha'. by exists a'.
Qed.
End transform.

(** *** Inversion *)

Lemma cong_dft (W : Z) (M : nat) (X Y : nat → Z) (k : nat) :
  (∀ j, (j < 2 ^ M)%nat → cong P (X j) (Y j)) → cong P (dft M W X k) (dft M W Y k).
Proof. intros H. apply zsum_cong. intros j Hj. by rewrite H. Qed.

Lemma zsum_const (c : Z) (n : nat) : zsum (λ _, c) n = c * Z.of_nat n.
Proof. induction n as [|n IH]; cbn [zsum]; [lia|]. rewrite IH. lia. Qed.

Lemma zsum_single (f : nat → Z) (n i : nat) : (i < n)%nat →
  (∀ j, (j < n)%nat → j ≠ i → cong P (f j) 0) → cong P (zsum f n) (f i).
Proof.
  induction n as [|n IH]; intros Hi H; [lia|]. cbn [zsum].
  destruct (decide (i = n)) as [->|].
  - rewrite (zsum_cong P f (λ _, 0)) by (intros; apply H; lia).
    by rewrite zsum_const.
  - rewrite IH by (try lia; intros; apply H; lia). rewrite (H n) by lia. by rewrite Z.add_0_r.
Qed.

(** The characters of two roots inverse to each other are orthogonal. *)
Lemma orthogonality (m : nat) (W V : Z) (i j : nat) :
  cong P (npow W (2 ^ m)) (-1) → cong P (npow V (2 ^ m)) (-1) → cong P (W * V) 1 →
  (i < 2 ^ S m)%nat → (j < 2 ^ S m)%nat → i ≠ j →
  cong P (zsum (λ k, npow W (j * k) * npow V (k * i)) (2 ^ S m)) 0.
Proof.
  intros HW HV HWV Hi Hj Hij.
  assert (Hc : ∀ t, cong P (npow W t * npow V t) 1).
  { intros t. rewrite <- npow_mul_base. by apply npow_cong_1. }
  destruct (Nat.lt_ge_cases i j).
  - rewrite <- (geometric_principal_root P m W (j - i)) by (done || lia).
    apply zsum_cong. intros k _. rewrite <- npow_mul.
    replace (j * k)%nat with ((j - i) * k + k * i)%nat by nia.
    by rewrite npow_add, <- Z.mul_assoc, Hc, Z.mul_1_r.
  - rewrite <- (geometric_principal_root P m V (i - j)) by (done || lia).
    apply zsum_cong. intros k _. rewrite <- npow_mul.
    replace (k * i)%nat with (j * k + (i - j) * k)%nat by nia.
    by rewrite npow_add, Z.mul_assoc, Hc, Z.mul_1_l.
Qed.

Lemma dft_inverse (m : nat) (W V : Z) (X : nat → Z) (i : nat) :
  cong P (npow W (2 ^ m)) (-1) → cong P (npow V (2 ^ m)) (-1) → cong P (W * V) 1 →
  (i < 2 ^ S m)%nat →
  cong P (dft (S m) V (dft (S m) W X) i) (X i * Z.of_nat (2 ^ S m)).
Proof.
  intros HW HV HWV Hi. unfold dft.
  set (n := (2 ^ S m)%nat) in *.
  transitivity (zsum (λ j, X j * zsum (λ k, npow W (j * k) * npow V (k * i)) n) n).
  - apply eq_subrelation; [apply _|].
    rewrite (zsum_ext _ (λ k, zsum (λ j, X j * (npow W (j * k) * npow V (k * i))) n)).
    + rewrite zsum_swap. apply zsum_ext. intros j _. by rewrite zsum_scale.
    + intros k _. rewrite Z.mul_comm, <- zsum_scale. apply zsum_ext. intros j _. ring.
  - etransitivity.
    { apply (zsum_single _ _ i); [done|]. intros j Hj Hne.
      transitivity (X j * 0); [|by rewrite Z.mul_0_r].
      apply cong_mul; [done|]. by apply (orthogonality m W V i j). }
    apply cong_mul; [done|]. etransitivity; [apply (zsum_cong P _ (λ _, 1))|].
    2: by rewrite zsum_const, Z.mul_1_l.
    intros k _. rewrite (Nat.mul_comm k i), <- npow_mul_base. by apply npow_cong_1.
Qed.

(** ** Which engines exist *)

Lemma group_order : P - 1 = 119 * 2 ^ 23.
Proof. done. Qed.

Lemma size_divides (k : nat) : (k ≤ 23)%nat →
  (P - 1) mod Z.of_nat (2 ^ k) = 0 ∧
  (P - 1) / Z.of_nat (2 ^ k) = 119 * 2 ^ (23 - Z.of_nat k).
Proof.
  intros Hk. rewrite Nat2Z.inj_pow, group_order.
  replace (2 ^ 23) with (2 ^ (23 - Z.of_nat k) * Z.of_nat 2 ^ Z.of_nat k)
    by (rewrite <- Z.pow_add_r by lia; f_equal; lia).
  assert (0 < Z.of_nat 2 ^ Z.of_nat k) by (apply Z.pow_pos_nonneg; lia).
  rewrite Z.mul_assoc. split; [apply Z_mod_mult|apply Z.div_mul; lia].
Qed.

(** [engine_new] succeeds exactly on these sizes. *)
Lemma engine_size_iff (size : nat) :
  is_power_of_two (N.of_nat size) && (2 <=? size)%nat && ((P - 1) mod Z.of_nat size =? 0) = true
  ↔ ∃ m, (m ≤ 22)%nat ∧ size = (2 ^ S m)%nat.
Proof.
  split.
  - intros [[[k Hk]%is_power_of_two_spec H2%Nat.leb_le]%andb_true_iff Hd%Z.eqb_eq]%andb_true_iff.
    rewrite <- of_nat_pow2 in Hk. apply Nat2N.inj in Hk as ->.
    destruct k as [|m]; [cbn in H2; lia|]. exists m. split; [|done].
    destruct (Nat.le_gt_cases m 22) as [|Hm]; [done|exfalso].
    rewrite Nat2Z.inj_pow in Hd.
    assert (Hdiv : (Z.of_nat 2 ^ 24 | P - 1)).
    { transitivity (Z.of_nat 2 ^ Z.of_nat (S m)).
      - exists (Z.of_nat 2 ^ (Z.of_nat (S m) - 24)). rewrite <- Z.pow_add_r by lia. f_equal. lia.
      - apply Z.mod_divide; [apply Z.pow_nonzero; lia|done]. }
    apply Z.mod_divide in Hdiv; [|done]. by vm_compute in Hdiv.
  - intros (m & Hm & ->). rewrite !andb_true_iff. split_and!.
    + apply is_power_of_two_spec. exists (S m). apply of_nat_pow2.
    + apply Nat.leb_le. pose proof (Nat.pow_le_mono_r 2 1 (S m)). cbn in *. lia.
    + apply Z.eqb_eq. apply size_divides. lia.
Qed.

Lemma half_exponent (m : nat) : (m ≤ 22)%nat →
  (N.of_nat (2 ^ m) * Z.to_N ((P - 1) / Z.of_nat (2 ^ S m)))%N = 499122176%N.
Proof.
  intros Hm. rewrite (proj2 (size_divides (S m) ltac:(lia))).
  apply N2Z.inj. rewrite N2Z.inj_mul, Z2N.id by (apply Z.mul_nonneg_nonneg; [lia|apply Z.pow_nonneg; lia]).
  rewrite nat_N_Z, Nat2Z.inj_pow.
  replace (Z.of_nat 2 ^ Z.of_nat m * (119 * 2 ^ (23 - Z.of_nat (S m))))
    with (119 * (2 ^ Z.of_nat m * 2 ^ (23 - Z.of_nat (S m)))) by (change (Z.of_nat 2) with 2; ring).
  rewrite <- Z.pow_add_r by lia. replace (Z.of_nat m + (23 - Z.of_nat (S m))) with 22 by lia. done.
Qed.

Lemma npow_succ_pred (x : Z) (k : N) : (0 < k)%N →
  x * npow x (N.to_nat (k - 1)) = npow x (N.to_nat k).
Proof.
  intros Hk. change (x * npow x (N.to_nat (k - 1))) with (npow x (S (N.to_nat (k - 1)))).
  f_equal. lia.
Qed.

Lemma mod_inv_spec (x : Z) : cong P (npow x (N.to_nat 998244352)) 1 → cong P (x * mod_inv x P) 1.
Proof.
  intros Hx. unfold mod_inv. change (Z.to_N (P - 2)) with (998244352 - 1)%N.
  rewrite (proj2 (mod_pow_spec x _)), npow_succ_pred; done.
Qed.

Lemma engine_new_ok (m : nat) : (m ≤ 22)%nat →
  ∃ e W V, engine_new (2 ^ S m) = Some e ∧ engine_ok m W V e.
Proof.
  intros Hm. unfold engine_new.
  rewrite (proj2 (engine_size_iff (2 ^ S m))) by eauto.
  pose proof (half_exponent m Hm) as Hk.
  set (k := Z.to_N _) in *.
  set (W := mod_pow NTT_PRIMITIVE_ROOT k P). set (V := mod_inv W P).
  destruct (fill_roots_spec W (2 ^ S m)) as (roots & Hr & Hrt).
  destruct (fill_roots_spec V (2 ^ S m)) as (iroots & Hir & Hirt).
  rewrite Hr. cbn [mbind option_bind]. rewrite Hir. cbn [mbind option_bind].
  assert (HW : cong P W (npow 3 (N.to_nat k))) by apply mod_pow_spec.
  assert (Hhalf : cong P (npow W (2 ^ m)) (-1)) by (by apply (root_half m W k)).
  (* W^(P-1) = (W^(2^m))^(2 * odd) = 1 *)
  assert (Hfermat : ∀ x, cong P (npow x (2 ^ m)) (-1) → cong P (npow x (N.to_nat 998244352)) 1).
  { intros x Hx. assert (E : (998244352 = N.of_nat (2 ^ m) * (2 * k))%N) by lia.
    rewrite E, N2Nat.inj_mul, Nat2N.id, npow_mul, Hx, N2Nat.inj_mul.
    change (N.to_nat 2) with 2%nat. by rewrite npow_mul, npow_1_l. }
  assert (HV : cong P (W * V) 1) by (by apply mod_inv_spec, Hfermat).
  eexists _, W, V. split; [done|]. split; cbn [ntt_size ntt_roots ntt_inv_roots ntt_inv_size];
    try done.
  - by apply (inverse_half m W V).
  - apply mod_inv_spec. rewrite Nat2Z.inj_pow, <- npow_Zpow, <- npow_mul, Nat.mul_comm, npow_mul.
    by apply npow_cong_1, two_fermat.
Qed.

Lemma engine_new_inv (size : nat) (e : NttEngine) : engine_new size = Some e →
  ∃ m W V, (m ≤ 22)%nat ∧ size = (2 ^ S m)%nat ∧ engine_ok m W V e.
Proof.
  intros He.
  assert (∃ m, (m ≤ 22)%nat ∧ size = (2 ^ S m)%nat) as (m & Hm & ->).
  { apply engine_size_iff. unfold engine_new in He. by destruct (_ && _ && _). }
  destruct (engine_new_ok m Hm) as (e' & W & V & He' & Hok).
  rewrite He' in He. simplify_eq. by exists m, W, V.
Qed.

Lemma ntt_then_intt (size : nat) (e : NttEngine) (a : list Z) :
  engine_new size = Some e → length a = size → Forall canonical a →
  ∃ r, ntt e a = Some r ∧ length r = size ∧ Forall canonical r ∧ intt e r = Some a.
Proof.
  intros He Hla Hca. destruct (engine_new_inv _ _ He) as (m & W & V & Hm & -> & Hok).
  destruct Hok as [Hsz Hr Hir Hhalf Hihalf Hinv Hisz]. rewrite Hsz in *.
  destruct (transform_spec (S m) W (ntt_roots e) ltac:(lia) Hr) with a as (r & Hrr & Hrl & Hall);
    [intros s [= ->]; done | done | done |].
  assert (Hcr : Forall canonical r).
  { apply Forall_lookup. intros i x Hx. destruct (Hall i) as (x' & Hx' & Hc & _); [|congruence].
    rewrite <- Hrl. by eapply lookup_lt_Some. }
  destruct (transform_spec (S m) V (ntt_inv_roots e) ltac:(lia) Hir) with r as (q & Hq & Hql & Hqall);
    [intros s [= ->]; done | done | done |].
  exists r. split_and!; [|done|done|].
  { unfold ntt. by rewrite Hsz, (proj2 (Nat.eqb_eq _ _) Hla), Hrr. }
  unfold intt. rewrite Hsz, (proj2 (Nat.eqb_eq _ _) Hrl).
  destruct (bit_reverse_permute r) as [r'|]; [|done]. cbn [mbind option_bind] in *.
  rewrite Hq. cbn [mbind option_bind]. f_equal.
  apply list_eq_same_length with (2 ^ S m)%nat; [done|by rewrite length_map|].
  intros i x y Hi Hx Hy. rewrite list_lookup_fmap in Hx.
  destruct (Hqall i Hi) as (z & Hz & Hzc & Hzd). rewrite Hz in Hx. injection Hx as <-.
  apply (cong_small P); [apply mul_mod_spec| by eapply Forall_lookup_1 in Hca|].
  rewrite (proj2 (mul_mod_spec _ _)), Hzd.
  rewrite (cong_dft V (S m) _ (dft (S m) W (λ j, nth j a 0))).
  - rewrite dft_inverse by done. rewrite <- Z.mul_assoc, Hisz, Z.mul_1_r.
    by rewrite (nth_lookup_Some _ _ _ _ Hy).
  - intros j Hj. destruct (Hall j Hj) as (w & Hw & _ & Hwd). by rewrite (nth_lookup_Some _ _ _ _ Hw).
Qed.

(** ** The properties *)

(** [NttEngine::new] panics on every size except the powers of two from [2] to
    [2^23]; on those it returns an engine of that size. *)
Theorem engine_new_sizes (size : nat) :
  is_Some (engine_new size) ↔ ∃ m, (m ≤ 22)%nat ∧ size = (2 ^ S m)%nat.
Proof.
  split.
  - intros [e He]. destruct (engine_new_inv _ _ He) as (m & _ & _ & ? & ? & _). eauto.
  - intros (m & Hm & ->). destruct (engine_new_ok m Hm) as (e & _ & _ & He & _). eauto.
Qed.

(** C11: the in-place, bit-reversed, iterative [ntt] is the discrete Fourier transform:
    for every engine there is a root of unity [W] of order [size] (its [size/2] power is
    [-1]) such that on any canonical vector of the engine's size [ntt] does not panic and
    entry [k] of its result is the canonical residue of [Σ_j a[j] W^(jk)]. *)
Theorem ntt_computes_dft (size : nat) (e : NttEngine) : engine_new size = Some e →
  ∃ W, cong P (npow W (Nat.div size 2)) (-1) ∧
  ∀ a, length a = size → Forall canonical a →
  ∃ r, ntt e a = Some r ∧ length r = size ∧
    ∀ k, (k < size)%nat →
      r !! k = Some ((zsum (λ j, nth j a 0 * npow W (j * k)) size) mod P).
Proof.
  intros He. destruct (engine_new_inv _ _ He) as (m & W & V & Hm & -> & Hok).
  destruct Hok as [Hsz Hr _ Hhalf _ _ _]. rewrite Hsz in Hr.
  exists W. split.
  { rewrite Nat.pow_succ_r', Nat.mul_comm, Nat.div_mul by done. done. }
  intros a Hla Hca.
  destruct (transform_spec (S m) W (ntt_roots e) ltac:(lia) Hr) with a as (r & Hrr & Hrl & Hall).
  { intros s [= ->]. done. } { done. } { done. }
  exists r. unfold ntt. rewrite Hsz, (proj2 (Nat.eqb_eq _ _) Hla). split_and!; [done|done|].
  intros k Hk. destruct (Hall k Hk) as (x & -> & Hc & Hx). f_equal.
  unfold cong, dft in Hx. rewrite <- Hx. symmetry. by apply Z.mod_small.
Qed.

(** C12: round trip: on every engine the constructor builds, [intt] undoes [ntt] on
    canonical vectors of the engine's size, and neither panics. *)
Theorem intt_ntt_roundtrip (size : nat) (e : NttEngine) (a : list Z) :
  engine_new size = Some e → length a = size → Forall canonical a →
  (r ← ntt e a; intt e r) = Some a.
Proof.
  intros He Hl Hc. destruct (ntt_then_intt size e a He Hl Hc) as (r & -> & _ & _ & Hi). done.
Qed.

Lemma ntt_computes_dft_witness : ∃ e, engine_new 8 = Some e ∧
  ∃ W, cong P (npow W (Nat.div 8 2)) (-1) ∧
  ∀ a, length a = 8%nat → Forall canonical a →
  ∃ r, ntt e a = Some r ∧ length r = 8%nat ∧
    ∀ k, (k < 8)%nat → r !! k = Some ((zsum (λ j, nth j a 0 * npow W (j * k)) 8) mod P).
Proof.
  eexists. split; [vm_compute; reflexivity|].
  apply (ntt_computes_dft 8). vm_compute. reflexivity.
Defined.

Lemma intt_ntt_roundtrip_witness : ∃ e, engine_new 4 = Some e ∧
  (r ← ntt e [998244352; 0; 7; 12345]; intt e r) = Some [998244352; 0; 7; 12345].
Proof.
  eexists. split; [vm_compute; reflexivity|].
  apply (intt_ntt_roundtrip 4); [vm_compute; reflexivity | reflexivity |].
  repeat constructor; vm_compute; congruence.
Defined.
