(* ===== verification/Metabolic.v ===== *)
(** * Metabolic decay (src/src/value/metabolic.rs)

    The saturating integer power, the closed-form decay of a balance, metabolic
    streams and the engine that owns them.  Proved: [pow] is the exact power clamped to
    [u128]; the decay never grows a balance, is the documented closed form while the
    products fit, and collapses any positive balance to one unit once both powers
    saturate; the engine conserves value. *)
From S2P Require Import Prelude.
Local Open Scope N_scope.

Definition BASIS_POINTS_DENOMINATOR : N := 10000.
Definition DECAY_DENOMINATOR : N := 1000000.
Definition DEFAULT_DEX_LAMBDA_PPM : N := 20.
Definition METABOLIC_IDLE_GRACE_TICKS : N := 4 * 60 * 60.
Definition METABOLIC_BURN_BP : N := 2500.

(** The [while exp > 0] loop; one unit of fuel per bit of [exp]. *)
Fixpoint pow_loop (fuel : nat) (acc base exp : N) : N :=
  match fuel with
  | O => acc
  | S fuel =>
      if exp =? 0 then acc else
      let acc := if N.odd exp then sat_mul 128 acc base else acc in
      let exp := N.shiftr exp 1 in
      let base := if 0 <? exp then sat_mul 128 base base else base in
      pow_loop fuel acc base exp
  end.

Definition pow (base exp : N) : N := pow_loop (N.size_nat exp) 1 base exp.

Definition decayed_balance (balance rate_ppm elapsed : N) : N :=
  if (balance =? 0) || (elapsed =? 0) then balance else
  let rate_ppm := N.min rate_ppm (DECAY_DENOMINATOR - 1) in
  let retain := DECAY_DENOMINATOR - rate_ppm in
  let numerator := pow retain elapsed in
  let denominator := pow DECAY_DENOMINATOR elapsed in
  sat_mul 128 balance numerator / denominator.

Section streams.
(** [StreamId] is [[u8; 32]] and [owner] an [AccountId]; both are only stored. *)
Context {StreamId AccountId : Type} `{Countable StreamId}.

Record MetabolicStream := {
  ms_id : StreamId;
  ms_owner : AccountId;
  ms_initial_balance : N;
  ms_created_tick : N;
  ms_rate_ppm : N;
  ms_remaining : N;
  ms_last_update_tick : N;
}.

Definition stream_new_at (id : StreamId) (owner : AccountId)
    (initial_balance rate_ppm created_tick : N) : MetabolicStream :=
  {| ms_id := id; ms_owner := owner; ms_initial_balance := initial_balance;
     ms_created_tick := created_tick;
     ms_rate_ppm := N.min rate_ppm (DECAY_DENOMINATOR - 1);
     ms_remaining := initial_balance; ms_last_update_tick := created_tick |}.

Definition stream_new (id : StreamId) (owner : AccountId)
    (initial_balance rate_ppm : N) : MetabolicStream :=
  stream_new_at id owner initial_balance rate_ppm 0.

Definition remaining_at (s : MetabolicStream) (tick : N) : N :=
  decayed_balance (ms_initial_balance s) (ms_rate_ppm s) (tick - ms_created_tick s).

(** Returns the updated stream, the value burned and whether it is exhausted. *)
Definition process (s : MetabolicStream) (tick : N) : MetabolicStream * (N * bool) :=
  let new_remaining := N.min (remaining_at s tick) (ms_remaining s) in
  let burned := ms_remaining s - new_remaining in
  let s' := {| ms_id := ms_id s; ms_owner := ms_owner s;
               ms_initial_balance := ms_initial_balance s;
               ms_created_tick := ms_created_tick s; ms_rate_ppm := ms_rate_ppm s;
               ms_remaining := new_remaining; ms_last_update_tick := tick |} in
  (s', (burned, new_remaining =? 0)).

Record MetabolicDecayEngine := {
  eng_streams : gmap StreamId MetabolicStream;
  eng_total_burned : N;
}.

Definition engine_new : MetabolicDecayEngine :=
  {| eng_streams := ∅; eng_total_burned := 0 |}.

Definition add_stream (e : MetabolicDecayEngine) (s : MetabolicStream) :=
  {| eng_streams := <[ms_id s := s]> (eng_streams e);
     eng_total_burned := eng_total_burned e |}.

(** The closure given to [DashMap::retain], over the remaining entries. *)
Fixpoint retain_loop (tick : N) (l : list (StreamId * MetabolicStream))
    (kept : gmap StreamId MetabolicStream) (tick_burn : N)
    : gmap StreamId MetabolicStream * N :=
  match l with
  | [] => (kept, tick_burn)
  | (k, s) :: l =>
      let '(s', (burned, exhausted)) := process s tick in
      retain_loop tick l (if exhausted then kept else <[k := s']> kept)
        (sat_add 128 tick_burn burned)
  end.

Definition process_metabolic_degradation `{!HashOrder}
    (e : MetabolicDecayEngine) (tick : N) : MetabolicDecayEngine * N :=
  let '(streams, tick_burn) := retain_loop tick (hm_iter (eng_streams e)) ∅ 0 in
  ({| eng_streams := streams;
      eng_total_burned := wadd 128 (eng_total_burned e) tick_burn |}, tick_burn).

Definition active_stream_count (e : MetabolicDecayEngine) : nat := size (eng_streams e).

Definition record_burn (e : MetabolicDecayEngine) (amount : N) : MetabolicDecayEngine :=
  {| eng_streams := eng_streams e;
     eng_total_burned := wadd 128 (eng_total_burned e) amount |}.

(** Value still held by the active streams. *)
Definition held (l : list (StreamId * MetabolicStream)) : N :=
  Nsum ((λ p, ms_remaining p.2) <$> l).
Definition engine_value (e : MetabolicDecayEngine) : N := held (map_to_list (eng_streams e)).
End streams.
Arguments MetabolicStream : clear implicits.
Arguments MetabolicDecayEngine StreamId AccountId {_ _}.

(** ** The saturating power *)

Lemma sat_mul_min (A B : N) :
  sat_mul 128 (N.min A u128_max) (N.min B u128_max) = N.min (A * B) u128_max.
Proof.
  unfold sat_mul. change (umax 128) with u128_max.
  assert (1 ≤ u128_max) by (vm_compute; congruence).
  generalize dependent u128_max. intros M HM.
  destruct (N.eq_dec A 0) as [->|]; [by rewrite N.min_0_l, !N.mul_0_l, !N.min_0_l|].
  destruct (N.eq_dec B 0) as [->|]; [by rewrite N.min_0_l, !N.mul_0_r, !N.min_0_l|].
  destruct (N.le_gt_cases A M), (N.le_gt_cases B M).
  - by rewrite (N.min_l A), (N.min_l B) by done.
  - rewrite (N.min_l A), (N.min_r B), !N.min_r by nia. done.
  - rewrite (N.min_r A), (N.min_l B), !N.min_r by nia. done.
  - rewrite (N.min_r A), (N.min_r B), !N.min_r by nia. done.
Qed.

Lemma pow_split (b e : N) : b ^ e = (if N.odd e then b else 1) * (b * b) ^ N.shiftr e 1.
Proof.
  rewrite <- N.div2_spec.
  rewrite (N.div2_odd e) at 1.
  rewrite N.pow_add_r, N.pow_mul_r, N.pow_2_r.
  destruct (N.odd e); cbn [N.b2n]; [rewrite N.pow_1_r | rewrite N.pow_0_r]; lia.
Qed.

Lemma pow_loop_spec (fuel : nat) (A B e : N) :
  (N.size_nat e ≤ fuel)%nat →
  pow_loop fuel (N.min A u128_max) (N.min B u128_max) e = N.min (A * B ^ e) u128_max.
Proof.
  revert A B e. induction fuel as [|fuel IH]; intros A B e Hf; cbn [pow_loop].
  { destruct e; [|destruct p; simpl in Hf; lia]. by rewrite N.pow_0_r, N.mul_1_r. }
  destruct (N.eqb_spec e 0) as [->|He].
  { by rewrite N.pow_0_r, N.mul_1_r. }
  rewrite (pow_split B e).
  assert (Hs : (N.size_nat (N.shiftr e 1) ≤ fuel)%nat) by (rewrite size_nat_shiftr; lia).
  set (e' := N.shiftr e 1) in *.
  replace (if N.odd e then sat_mul 128 (N.min A u128_max) (N.min B u128_max)
           else N.min A u128_max)
    with (N.min (A * (if N.odd e then B else 1)) u128_max)
    by (destruct (N.odd e); [by rewrite sat_mul_min | by rewrite N.mul_1_r]).
  destruct (N.ltb_spec 0 e').
  - rewrite sat_mul_min, IH by done. f_equal. lia.
  - assert (e' = 0) as E by lia. rewrite E in *. rewrite IH by done.
    rewrite !N.pow_0_r. f_equal. lia.
Qed.

Lemma pow_spec (base exp : N) :
  base ≤ u128_max → pow base exp = N.min (base ^ exp) u128_max.
Proof.
  intros Hb. unfold pow.
  replace 1 with (N.min 1 u128_max) by (vm_compute; done).
  replace base with (N.min base u128_max) at 1 by lia.
  rewrite pow_loop_spec by done. by rewrite N.mul_1_l.
Qed.

(** C13: [pow base exp], exponentiation by squaring with [saturating_mul], is exactly the
    mathematical power clamped to [u128::MAX], for every [u128] base and every
    exponent; in particular one turn of the loop per bit of [exp] is enough. *)
Theorem pow_saturates (base exp : N) :
  base < 2 ^ 128 → pow base exp = N.min (base ^ exp) (2 ^ 128 - 1).
Proof. intros Hb. apply pow_spec. unfold u128_max. lia. Qed.

Lemma pow_saturates_witness :
  1000000 < 2 ^ 128 ∧ pow 1000000 7 = N.min (1000000 ^ 7) (2 ^ 128 - 1).
Proof. split; [vm_compute; done | apply (pow_saturates 1000000 7); vm_compute; done]. Defined.

(** ** The closed-form decay *)

Lemma retain_bounds (rate : N) :
  1 ≤ DECAY_DENOMINATOR - N.min rate (DECAY_DENOMINATOR - 1) ≤ DECAY_DENOMINATOR.
Proof. unfold DECAY_DENOMINATOR. lia. Qed.

Lemma pow_denominator (e : N) : pow DECAY_DENOMINATOR e = N.min (DECAY_DENOMINATOR ^ e) u128_max.
Proof. apply pow_spec. vm_compute. congruence. Qed.

Lemma pow_retain (rate e : N) :
  pow (DECAY_DENOMINATOR - N.min rate (DECAY_DENOMINATOR - 1)) e =
  N.min ((DECAY_DENOMINATOR - N.min rate (DECAY_DENOMINATOR - 1)) ^ e) u128_max.
Proof.
  apply pow_spec. pose proof (retain_bounds rate).
  assert (DECAY_DENOMINATOR ≤ u128_max) by (vm_compute; congruence). lia.
Qed.

Lemma u128_max_pos : 1 ≤ u128_max.
Proof. vm_compute. congruence. Qed.

Lemma decayed_balance_upper (b rate e : N) : decayed_balance b rate e ≤ b.
Proof.
  unfold decayed_balance. destruct (_ || _); [lia|].
  rewrite pow_denominator, pow_retain.
  pose proof (retain_bounds rate) as [H1 H2].
  set (r := DECAY_DENOMINATOR - _) in *.
  assert (r ^ e ≤ DECAY_DENOMINATOR ^ e) by (apply N.pow_le_mono_l; done).
  assert (DECAY_DENOMINATOR ^ e ≠ 0) by (by apply N.pow_nonzero).
  pose proof u128_max_pos. pose proof (sat_mul_le 128 b (N.min (r ^ e) u128_max)).
  apply N.Div0.div_le_upper_bound. nia.
Qed.

Lemma decayed_balance_exact (b rate e : N) :
  e ≤ 6 → b * (DECAY_DENOMINATOR - N.min rate (DECAY_DENOMINATOR - 1)) ^ e < 2 ^ 128 →
  decayed_balance b rate e =
  b * (DECAY_DENOMINATOR - N.min rate (DECAY_DENOMINATOR - 1)) ^ e / DECAY_DENOMINATOR ^ e.
Proof.
  intros He Hb. unfold decayed_balance. destruct (N.eqb_spec b 0) as [->|Hb0]; cbn [orb].
  { by rewrite N.mul_0_l, N.Div0.div_0_l. }
  destruct (N.eqb_spec e 0) as [->|He0].
  { by rewrite !N.pow_0_r, N.mul_1_r, N.div_1_r. }
  rewrite pow_denominator, pow_retain.
  pose proof (retain_bounds rate) as [H1 H2]. set (r := DECAY_DENOMINATOR - _) in *.
  assert (r ^ e ≤ DECAY_DENOMINATOR ^ e) by (apply N.pow_le_mono_l; done).
  assert (DECAY_DENOMINATOR ^ e ≤ DECAY_DENOMINATOR ^ 6) by (apply N.pow_le_mono_r; done).
  assert (DECAY_DENOMINATOR ^ 6 ≤ u128_max) by (vm_compute; congruence).
  rewrite !N.min_l by lia. by rewrite sat_mul_exact.
Qed.

(** Once both powers saturate the quotient is [u128::MAX / u128::MAX]. *)
Lemma decayed_balance_saturated (b rate e : N) :
  1 ≤ b → u128_max ≤ (DECAY_DENOMINATOR - N.min rate (DECAY_DENOMINATOR - 1)) ^ e →
  e ≠ 0 → decayed_balance b rate e = 1.
Proof.
  intros Hb Hr He. unfold decayed_balance.
  destruct (N.eqb_spec b 0), (N.eqb_spec e 0); [lia..|]; cbn [orb].
  rewrite pow_denominator, pow_retain.
  pose proof (retain_bounds rate) as [H1 H2]. set (r := DECAY_DENOMINATOR - _) in *.
  assert (r ^ e ≤ DECAY_DENOMINATOR ^ e) by (apply N.pow_le_mono_l; done).
  pose proof u128_max_pos. rewrite !N.min_r by lia.
  unfold sat_mul. change (umax 128) with u128_max. rewrite N.min_r by nia.
  apply N.div_same. lia.
Qed.

(** Metabolic decay never creates value, and while the powers fit ([elapsed <= 6] and
    [balance * retain^elapsed < 2^128]) it is the documented closed form
    [B * (10^6 - lambda)^t / 10^(6 t)], with lambda capped below 10^6. *)
Theorem decayed_balance_closed_form (balance rate_ppm elapsed : N) :
  let retain := DECAY_DENOMINATOR - N.min rate_ppm (DECAY_DENOMINATOR - 1) in
  decayed_balance balance rate_ppm elapsed ≤ balance ∧
  (elapsed ≤ 6 → balance * retain ^ elapsed < 2 ^ 128 →
   decayed_balance balance rate_ppm elapsed
   = balance * retain ^ elapsed / (10 ^ 6) ^ elapsed).
Proof. split; [apply decayed_balance_upper | apply decayed_balance_exact]. Qed.

(** C14: the closed form does not survive saturation: with the default DEX constant every
    positive balance, however large, decays to exactly one sub-unit as soon as seven
    ticks have elapsed, because numerator and denominator both clamp to [u128::MAX]. *)
Theorem decay_collapses_after_seven_ticks (balance elapsed : N) :
  1 ≤ balance → 7 ≤ elapsed →
  decayed_balance balance DEFAULT_DEX_LAMBDA_PPM elapsed = 1.
Proof.
  intros Hb He. apply decayed_balance_saturated; [done| |lia].
  transitivity ((DECAY_DENOMINATOR - N.min DEFAULT_DEX_LAMBDA_PPM (DECAY_DENOMINATOR - 1)) ^ 7).
  - vm_compute. congruence.
  - apply N.pow_le_mono_r; [vm_compute; congruence | done].
Qed.

Lemma decay_collapses_witness :
  decayed_balance (10 ^ 18) DEFAULT_DEX_LAMBDA_PPM 7 = 1.
Proof. apply (decay_collapses_after_seven_ticks (10 ^ 18) 7); vm_compute; congruence. Defined.

(** ** Streams and the engine *)

Section engine.
Context {StreamId AccountId : Type} `{Countable StreamId} `{!HashOrder}.
Abbreviation Stream := (MetabolicStream StreamId AccountId).
Abbreviation Engine := (MetabolicDecayEngine StreamId AccountId).

Lemma process_burned (s : Stream) (tick : N) :
  ms_remaining (process s tick).1 + (process s tick).2.1 = ms_remaining s.
Proof. unfold process. simpl. lia. Qed.

Lemma process_exhausted (s : Stream) (tick : N) :
  (process s tick).2.2 = true ↔ ms_remaining (process s tick).1 = 0.
Proof. unfold process. simpl. apply N.eqb_eq. Qed.

Lemma held_nil : held ([] : list (StreamId * Stream)) = 0.
Proof. done. Qed.

Lemma held_cons k (s : Stream) l : held ((k, s) :: l) = ms_remaining s + held l.
Proof. done. Qed.

#[local] Instance held_perm : Proper ((≡ₚ) ==> eq) (@held StreamId AccountId).
Proof. intros l l' Hp. unfold held. by rewrite Hp. Qed.

Lemma retain_loop_spec (tick : N) (l : list (StreamId * Stream)) kept tb :
  NoDup l.*1 → (∀ k s, (k, s) ∈ l → kept !! k = None) →
  tb + held l < 2 ^ 128 →
  let '(kept', tb') := retain_loop tick l kept tb in
  held (map_to_list kept') + tb'
  = held (map_to_list kept) + held l + tb
  ∧ tb' ≤ tb + held l
  ∧ (∀ k s, kept' !! k = Some s → kept !! k = Some s ∨ ms_remaining s ≠ 0).
Proof.
  revert kept tb. induction l as [|[k s] l IH]; intros kept tb Hnd Hfresh Hlt; cbn [retain_loop].
  { rewrite held_nil. split_and!; [lia..|]. naive_solver. }
  pose proof (process_burned s tick) as Hb. pose proof (process_exhausted s tick) as Hx.
  destruct (process s tick) as [s' [burned ex]]; simpl in Hb, Hx.
  rewrite held_cons in *. apply NoDup_cons in Hnd as [Hk Hnd].
  rewrite sat_add_exact by (simpl; lia).
  specialize (IH (if ex then kept else <[k:=s']> kept) (tb + burned) Hnd).
  destruct (retain_loop _ _ _ _) as [kept' tb'].
  destruct IH as (E & Hle & Hall).
  { intros k' s2 Hin. assert (kept !! k' = None) by (eapply Hfresh; by constructor 2).
    destruct ex; [done|]. rewrite lookup_insert_ne; [done|]. intros ->.
    apply Hk, list_elem_of_fmap. by exists (k', s2). }
  { lia. }
  assert (Hkn : kept !! k = None) by (eapply Hfresh; by constructor 1).
  destruct ex.
  - assert (ms_remaining s' = 0) by (by apply Hx). split_and!; [lia..|done].
  - rewrite map_to_list_insert, held_cons in E by done. split_and!; [lia..|].
    intros k' s2 [Hl|?]%Hall; [|by right]. destruct (decide (k = k')) as [->|].
    + simplify_map_eq. right. intros ?%Hx. done.
    + simplify_map_eq. by left.
Qed.

Lemma engine_value_iter (e : Engine) :
  engine_value e = held (hm_iter (eng_streams e)).
Proof. unfold engine_value. by rewrite hm_iter_perm. Qed.

(** One pass of the decay engine conserves value whatever order the table is
    iterated in: what the streams held before is what they hold after plus the burn
    of the tick, the burn is added to the running total, and no exhausted stream
    stays in the table. *)
Theorem engine_pass_conserves_value (e : Engine) (tick : N) :
  engine_value e < 2 ^ 128 →
  let '(e', tick_burn) := process_metabolic_degradation e tick in
  engine_value e' + tick_burn = engine_value e
  ∧ eng_total_burned e' = wadd 128 (eng_total_burned e) tick_burn
  ∧ (∀ k s, eng_streams e' !! k = Some s → ms_remaining s ≠ 0).
Proof.
  intros Hv. unfold process_metabolic_degradation.
  pose proof (retain_loop_spec tick (hm_iter (eng_streams e)) ∅ 0) as Hl.
  destruct (retain_loop _ _ _ _) as [kept tb].
  rewrite engine_value_iter in Hv. destruct Hl as (E & Hle & Hall).
  - apply hm_keys_NoDup.
  - intros. apply lookup_empty.
  - lia.
  - rewrite (engine_value_iter e). unfold engine_value. cbn [eng_streams eng_total_burned].
    rewrite map_to_list_empty, held_nil in E. split_and!; [lia|done|].
    intros k s Hk. destruct (Hall k s Hk) as [Hn|]; [|done]. by rewrite lookup_empty in Hn.
Qed.
End engine.

Section witness.
#[local] Instance wit_order : HashOrder := map_order.
Definition demo_engine : MetabolicDecayEngine N N :=
  add_stream (add_stream engine_new (stream_new 3 0 1000000 10000)) (stream_new 4 0 1 9999).

Lemma engine_pass_witness :
  let '(e', tick_burn) := process_metabolic_degradation demo_engine 1 in
  engine_value e' + tick_burn = engine_value demo_engine
  ∧ eng_total_burned e' = wadd 128 (eng_total_burned demo_engine) tick_burn
  ∧ (∀ k s, eng_streams e' !! k = Some s → ms_remaining s ≠ 0).
Proof. apply (engine_pass_conserves_value demo_engine 1). vm_compute. done. Defined.

(** The unit tests of metabolic.rs, evaluated. *)
Example pow_tests : (pow 1 0, pow 7 1, pow 2 10, pow 9999 2) = (1, 7, 1024, 99980001).
Proof. reflexivity. Qed.
Example decay_tests :
  (decayed_balance 1000000 10000 1, decayed_balance 1000000 10000 2,
   decayed_balance 1000000 10000 3) = (990000, 980100, 970299).
Proof. vm_compute. reflexivity. Qed.
Example engine_tests :
  (process_metabolic_degradation demo_engine 1).2 = 10001.
Proof. vm_compute. reflexivity. Qed.
End witness.
