(* ===== verification/Bytes.v ===== *)
(** * Byte strings

    Little-endian encodings ([to_le_bytes]), 32-byte identifiers ([u8; 32], held as the
    256-bit number they spell in big-endian order, so that numeric order is the
    lexicographic order Rust uses), two's complement [i128], ASCII tags, lexicographic
    comparison of byte vectors, and the injectivity lemmas every signing-bytes proof
    uses. *)
From S2P Require Import Prelude.
From Stdlib Require Export Strings.Byte.
From Stdlib Require Strings.String.
Export Strings.String.StringSyntax.

Abbreviation bytes := (list byte).

#[export] Instance byte_eq_dec : EqDecision byte := Byte.byte_eq_dec.
#[export] Program Instance byte_countable : Countable byte :=
  inj_countable Byte.to_N Byte.of_N _.
Next Obligation. intros b. apply Byte.of_to_N. Qed.

(** ** Encodings *)

(** The truncation [x as u8]. *)
Definition byte_of (x : N) : byte := default x00 (Byte.of_N (x mod 256)).

(** The [k] low bytes of [x], least significant first. *)
Fixpoint le_bytes (k : nat) (x : N) : bytes :=
  match k with
  | O => []
  | S k => byte_of x :: le_bytes k (x / 256)
  end.

Fixpoint of_le (bs : bytes) : N :=
  match bs with
  | [] => 0
  | b :: bs => Byte.to_N b + 256 * of_le bs
  end%N.

Definition be_bytes (k : nat) (x : N) : bytes := rev (le_bytes k x).
Definition of_be (bs : bytes) : N := of_le (rev bs).

Definition u32_le : N → bytes := le_bytes 4.
Definition u64_le : N → bytes := le_bytes 8.
Definition u128_le : N → bytes := le_bytes 16.
Definition u128_be : N → bytes := be_bytes 16.
(** [usize] has 64 bits. *)
Definition usize_le (n : nat) : bytes := u64_le (N.of_nat n).
Definition i128_le (z : Z) : bytes := u128_le (Z.to_N (z mod 2 ^ 128)).

(** The bytes of a [u8; 32]. *)
Definition id_bytes : N → bytes := be_bytes 32.

Definition ascii (s : String.string) : bytes := String.list_byte_of_string s.
Arguments ascii s%_string_scope.

(** [Ord] on [Vec<u8>] and [[u8]]: lexicographic, a proper prefix is smaller. *)
Fixpoint bytes_compare (a b : bytes) : comparison :=
  match a, b with
  | [], [] => Eq
  | [], _ :: _ => Lt
  | _ :: _, [] => Gt
  | x :: a, y :: b =>
      match (Byte.to_N x ?= Byte.to_N y)%N with Eq => bytes_compare a b | c => c end
  end.

(** ** Round trips and injectivity *)

Lemma to_N_lt (b : byte) : (Byte.to_N b < 256)%N.
Proof. pose proof (Byte.to_N_bounded b). lia. Qed.

Lemma to_N_byte_of (x : N) : Byte.to_N (byte_of x) = (x mod 256)%N.
Proof.
  unfold byte_of. pose proof (N.mod_lt x 256 ltac:(done)) as Hlt.
  destruct (Byte.of_N (x mod 256)) as [b|] eqn:E.
  - by apply Byte.to_of_N in E.
  - apply Byte.of_N_None_iff in E. lia.
Qed.

Lemma byte_of_to_N (b : byte) : byte_of (Byte.to_N b) = b.
Proof. unfold byte_of. rewrite N.mod_small by apply to_N_lt. by rewrite Byte.of_to_N. Qed.

Lemma length_le_bytes (k : nat) (x : N) : length (le_bytes k x) = k.
Proof. revert x. induction k as [|k IH]; intros x; cbn; [done|]. by rewrite IH. Qed.

Lemma of_le_le_bytes (k : nat) (x : N) : of_le (le_bytes k x) = (x mod 256 ^ N.of_nat k)%N.
Proof.
  revert x. induction k as [|k IH]; intros x; cbn [le_bytes of_le].
  { by rewrite N.mod_1_r. }
  rewrite IH, to_N_byte_of, Nat2N.inj_succ, N.pow_succ_r'.
  rewrite N.Div0.mod_mul_r. lia.
Qed.

Lemma of_le_bound (bs : bytes) : (of_le bs < 256 ^ N.of_nat (length bs))%N.
Proof.
  induction bs as [|b bs IH]; cbn [of_le length]; [done|].
  rewrite Nat2N.inj_succ, N.pow_succ_r'. pose proof (to_N_lt b). lia.
Qed.

Lemma le_bytes_of_le (bs : bytes) : le_bytes (length bs) (of_le bs) = bs.
Proof.
  induction bs as [|b bs IH]; cbn [of_le length le_bytes]; [done|].
  pose proof (to_N_lt b). f_equal.
  - transitivity (byte_of (Byte.to_N b)); [|apply byte_of_to_N]. unfold byte_of.
    by rewrite N.mul_comm, N.Div0.mod_add.
  - rewrite <- (N.div_unique (Byte.to_N b + 256 * of_le bs) 256 (of_le bs) (Byte.to_N b)); lia || done.
Qed.

Lemma le_bytes_inj (k : nat) (x y : N) : (x < 256 ^ N.of_nat k)%N → (y < 256 ^ N.of_nat k)%N →
  le_bytes k x = le_bytes k y → x = y.
Proof.
  intros Hx Hy E. apply (f_equal of_le) in E. rewrite !of_le_le_bytes in E.
  by rewrite !N.mod_small in E by done.
Qed.

Lemma u32_le_inj x y : (x < 2 ^ 32)%N → (y < 2 ^ 32)%N → u32_le x = u32_le y → x = y.
Proof. apply (le_bytes_inj 4). Qed.
Lemma u64_le_inj x y : (x < 2 ^ 64)%N → (y < 2 ^ 64)%N → u64_le x = u64_le y → x = y.
Proof. apply (le_bytes_inj 8). Qed.
Lemma u128_le_inj x y : (x < 2 ^ 128)%N → (y < 2 ^ 128)%N → u128_le x = u128_le y → x = y.
Proof. apply (le_bytes_inj 16). Qed.

Lemma length_id_bytes x : length (id_bytes x) = 32.
Proof. unfold id_bytes, be_bytes. by rewrite length_rev, length_le_bytes. Qed.

Lemma of_be_id_bytes x : (x < 2 ^ 256)%N → of_be (id_bytes x) = x.
Proof.
  intros Hx. unfold of_be, id_bytes, be_bytes. rewrite rev_involutive, of_le_le_bytes.
  by apply N.mod_small.
Qed.

Lemma id_bytes_of_be bs : length bs = 32 → id_bytes (of_be bs) = bs.
Proof.
  intros Hl. unfold of_be, id_bytes, be_bytes.
  rewrite <- Hl, <- (length_rev bs), le_bytes_of_le. apply rev_involutive.
Qed.

Lemma of_be_bound bs : length bs = 32 → (of_be bs < 2 ^ 256)%N.
Proof. intros Hl. pose proof (of_le_bound (rev bs)) as H. by rewrite length_rev, Hl in H. Qed.

Lemma id_bytes_inj x y : (x < 2 ^ 256)%N → (y < 2 ^ 256)%N → id_bytes x = id_bytes y → x = y.
Proof. intros Hx Hy E. apply (f_equal of_be) in E. by rewrite !of_be_id_bytes in E. Qed.

Lemma i128_le_inj (x y : Z) : (- 2 ^ 127 ≤ x < 2 ^ 127)%Z → (- 2 ^ 127 ≤ y < 2 ^ 127)%Z →
  i128_le x = i128_le y → x = y.
Proof.
  intros Hx Hy E. unfold i128_le in E.
  pose proof (Z.mod_pos_bound x (2 ^ 128) ltac:(lia)).
  pose proof (Z.mod_pos_bound y (2 ^ 128) ltac:(lia)).
  apply u128_le_inj in E; [|lia..].
  apply Z2N.inj in E; [|lia..].
  rewrite (Z.div_mod x (2 ^ 128)), (Z.div_mod y (2 ^ 128)) by lia.
  pose proof (Z.div_mod x (2 ^ 128) ltac:(lia)). pose proof (Z.div_mod y (2 ^ 128) ltac:(lia)). lia.
Qed.

(** Concatenations of fields of equal widths agree field by field. *)
Lemma field_app_inj (n : nat) (l1 l2 k1 k2 : bytes) :
  length l1 = n → length l2 = n → l1 ++ k1 = l2 ++ k2 → l1 = l2 ∧ k1 = k2.
Proof. intros H1 H2. apply app_inj_1. congruence. Qed.

Lemma length_u64_le x : length (u64_le x) = 8.
Proof. apply length_le_bytes. Qed.
Lemma length_u32_le x : length (u32_le x) = 4.
Proof. apply length_le_bytes. Qed.
Lemma length_u128_le x : length (u128_le x) = 16.
Proof. apply length_le_bytes. Qed.
Lemma length_i128_le x : length (i128_le x) = 16.
Proof. apply length_le_bytes. Qed.
Lemma length_usize_le x : length (usize_le x) = 8.
Proof. apply length_le_bytes. Qed.
Lemma length_u128_be x : length (u128_be x) = 16.
Proof. unfold u128_be, be_bytes. by rewrite length_rev, length_le_bytes. Qed.

Create Rewrite HintDb bytes_len.
#[export] Hint Rewrite length_le_bytes length_id_bytes length_u64_le length_u32_le
  length_u128_le length_i128_le length_usize_le length_u128_be @length_app : bytes_len.

(** Split an equation between concatenations of fixed-width fields. *)
Ltac split_fields H :=
  lazymatch type of H with
  | ?l1 ++ _ = _ ++ _ =>
      let H1 := fresh "Hf" in
      first
        [ apply (field_app_inj (length l1)) in H as [H1 H];
            [| reflexivity | autorewrite with bytes_len; reflexivity]; split_fields H
        | idtac ]
  | _ => idtac
  end.

(** ** Lexicographic order *)

Lemma bytes_compare_refl a : bytes_compare a a = Eq.
Proof. induction a as [|x a IH]; cbn; [done|]. by rewrite N.compare_refl. Qed.

Lemma bytes_compare_eq a b : bytes_compare a b = Eq ↔ a = b.
Proof.
  split; [|intros ->; apply bytes_compare_refl].
  revert b. induction a as [|x a IH]; intros [|y b]; cbn; try done.
  destruct (N.compare_spec (Byte.to_N x) (Byte.to_N y)) as [E| |]; try done.
  intros Hc%IH. subst. f_equal. apply (f_equal byte_of) in E. by rewrite !byte_of_to_N in E.
Qed.

Lemma bytes_compare_antisym a b : bytes_compare b a = CompOpp (bytes_compare a b).
Proof.
  revert b. induction a as [|x a IH]; intros [|y b]; cbn; try done.
  rewrite (N.compare_antisym (Byte.to_N x)). destruct (Byte.to_N x ?= Byte.to_N y)%N; cbn; done.
Qed.

Lemma bytes_compare_lt_trans a b c :
  bytes_compare a b = Lt → bytes_compare b c = Lt → bytes_compare a c = Lt.
Proof.
  revert b c. induction a as [|x a IH]; intros [|y b] [|z c]; cbn; try done.
  destruct (N.compare_spec (Byte.to_N x) (Byte.to_N y)) as [E|E|E]; try done.
  - rewrite E. destruct (Byte.to_N y ?= Byte.to_N z)%N; try done. apply IH.
  - destruct (N.compare_spec (Byte.to_N y) (Byte.to_N z)) as [F|F|F]; try done; intros _ _.
    + rewrite <- F. by rewrite (proj2 (N.compare_lt_iff _ _)).
    + by rewrite (proj2 (N.compare_lt_iff _ _) (N.lt_trans _ _ _ E F)).
Qed.

(** [a <= b] for [sort_by(|(a, _), (b, _)| a.cmp(b))]. *)
Definition bytes_le (a b : bytes) : Prop := bytes_compare a b ≠ Gt.
#[export] Instance bytes_le_dec : RelDecision bytes_le.
Proof. intros a b. unfold bytes_le. apply _. Defined.

#[export] Instance bytes_le_total : Total bytes_le.
Proof.
  intros a b. unfold bytes_le. rewrite (bytes_compare_antisym a b).
  destruct (bytes_compare a b); cbn; auto.
Qed.

#[export] Instance bytes_le_trans : Transitive bytes_le.
Proof.
  intros a b c. unfold bytes_le. intros Hab Hbc Hac.
  rewrite bytes_compare_antisym in Hac. destruct (bytes_compare c a) eqn:Hca; try done.
  destruct (bytes_compare a b) eqn:E1; try done.
  - apply bytes_compare_eq in E1 as ->. by rewrite bytes_compare_antisym, Hca in Hbc.
  - pose proof (bytes_compare_lt_trans _ _ _ Hca E1) as Hcb.
    by rewrite bytes_compare_antisym, Hcb in Hbc.
Qed.

#[export] Instance bytes_le_antisym : AntiSymm (=) bytes_le.
Proof.
  intros a b. unfold bytes_le. rewrite (bytes_compare_antisym a b). intros H1 H2.
  apply bytes_compare_eq. by destruct (bytes_compare a b).
Qed.
