(* ===== verification/Value.v ===== *)
(** * Value: spectrum leases, value streams, supply cap
    (src/src/value/spectrum.rs, stream.rs, supply.rs)

    Proved: reachable spectra hold disjoint, in-range leases within their quota, so that
    authorization does not depend on the iteration order of the lease table; a stream
    polled at any increasing ticks burns exactly [min total (rate * ticks)]; the supply
    cap holds in every reachable state of the tracker. *)
From S2P Require Import Prelude.
Local Open Scope N_scope.

Definition WAVE_PRECISION : N := 1000000000000.
Definition TOTAL_WAVE_SUPPLY : N := 1000000000 * WAVE_PRECISION.

(** ** Spectrum *)

Module Spectrum.

Record BandLease := {
  owner : N;
  start_bin : nat;
  end_bin : nat;
  staked_amount : N;
  throughput_quota : N;
  used_throughput : N;
}.

Record t := {
  size : nat;
  leases : gmap nat BandLease;
}.

(** The error strings of the source, as constructors. *)
Inductive error :=
  | EmptyBand
  | ExceedsSize
  | Overlap
  | NotLeased (bin : nat)
  | QuotaExceeded (start_bin end_bin : nat).

Definition bin_count (l : BandLease) : nat := end_bin l - start_bin l.
Definition has_quota (l : BandLease) : bool := (used_throughput l <? throughput_quota l).

Definition set_used (u : N) (l : BandLease) : BandLease :=
  {| owner := owner l; start_bin := start_bin l; end_bin := end_bin l;
     staked_amount := staked_amount l; throughput_quota := throughput_quota l;
     used_throughput := u |}.

Definition consume_quota (l : BandLease) : BandLease * bool :=
  if has_quota l then (set_used (wadd 64 (used_throughput l) 1) l, true) else (l, false).

Definition new (size : nat) : t := {| size := size; leases := ∅ |}.

Definition covers (bin : nat) (l : BandLease) : bool :=
  (start_bin l <=? bin)%nat && (bin <? end_bin l)%nat.

Definition overlaps (start_b end_b : nat) (l : BandLease) : bool :=
  (start_b <? end_bin l)%nat && (start_bin l <? end_b)%nat.

Section operations.
Context {HO : HashOrder}.

Definition lease (s : t) (owner : N) (start_b end_b : nat) (staked quota : N)
    : result error t :=
  if (end_b <=? start_b)%nat then Err EmptyBand
  else if (size s <? end_b)%nat then Err ExceedsSize
  else if existsb (overlaps start_b end_b) (hm_values (leases s)) then Err Overlap
  else Ok {| size := size s;
             leases := <[start_b := {| owner := owner; start_bin := start_b; end_bin := end_b;
                                       staked_amount := staked; throughput_quota := quota;
                                       used_throughput := 0 |}]> (leases s) |}.

Definition lease_for (s : t) (bin : nat) : option BandLease :=
  List.find (covers bin) (hm_values (leases s)).

(** The entry [lease_for_mut] borrows. *)
Definition lease_for_mut (s : t) (bin : nat) : option (nat * BandLease) :=
  List.find (λ e, covers bin e.2) (hm_iter (leases s)).

Definition authorize (s : t) (bin : nat) : result error t :=
  match lease_for_mut s bin with
  | None => Err (NotLeased bin)
  | Some (k, l) =>
      let '(l', granted) := consume_quota l in
      if granted then Ok {| size := size s; leases := <[k := l']> (leases s) |}
      else Err (QuotaExceeded (start_bin l) (end_bin l))
  end.

Definition reset_quotas (s : t) : t :=
  {| size := size s; leases := set_used 0 <$> leases s |}.
End operations.

(** *** Invariant *)

Record lease_ok (sz k : nat) (l : BandLease) : Prop := {
  lo_key : start_bin l = k;
  lo_nonempty : (start_bin l < end_bin l)%nat;
  lo_in_range : (end_bin l ≤ sz)%nat;
  lo_quota : used_throughput l ≤ throughput_quota l;
  lo_width : throughput_quota l < 2 ^ 64;
}.

Record inv (s : t) : Prop := {
  inv_lease : ∀ k l, leases s !! k = Some l → lease_ok (size s) k l;
  inv_disjoint : ∀ j k l l', leases s !! j = Some l → leases s !! k = Some l' → j ≠ k →
    (end_bin l ≤ start_bin l' ∨ end_bin l' ≤ start_bin l)%nat;
}.

Lemma covers_spec bin l : covers bin l = true ↔ (start_bin l ≤ bin < end_bin l)%nat.
Proof. unfold covers. rewrite andb_true_iff, Nat.leb_le, Nat.ltb_lt. done. Qed.

Lemma covers_unique s bin j k l l' : inv s →
  leases s !! j = Some l → leases s !! k = Some l' →
  covers bin l = true → covers bin l' = true → j = k.
Proof.
  intros [_ Hd] Hj Hk [? ?]%covers_spec [? ?]%covers_spec.
  destruct (decide (j = k)); [done|]. destruct (Hd j k l l'); lia || done.
Qed.

Section lemmas.
Context {HO : HashOrder}.

Lemma lease_for_mut_Some s bin k l :
  lease_for_mut s bin = Some (k, l) → leases s !! k = Some l ∧ covers bin l = true.
Proof.
  intros [Hin Hc]%find_some. split; [|done].
  apply elem_of_hm_iter. by apply list_elem_of_In.
Qed.

Lemma lease_for_mut_None s bin k l :
  lease_for_mut s bin = None → leases s !! k = Some l → covers bin l = false.
Proof.
  intros Hn Hk. apply (find_none _ _ Hn (k, l)). apply list_elem_of_In.
  by apply elem_of_hm_iter.
Qed.

(** The covering lease, when there is one, is what the search finds. *)
Lemma lease_for_mut_spec s bin k l : inv s →
  leases s !! k = Some l → covers bin l = true → lease_for_mut s bin = Some (k, l).
Proof.
  intros Hi Hk Hc. destruct (lease_for_mut s bin) as [[j l']|] eqn:E.
  - apply lease_for_mut_Some in E as [Hj Hc'].
    assert (j = k) as -> by (by eapply covers_unique). congruence.
  - by rewrite (lease_for_mut_None _ _ _ _ E Hk) in Hc.
Qed.

Lemma new_inv sz : inv (new sz).
Proof. split; unfold new; cbn [leases]; intros *; by rewrite lookup_empty. Qed.

Lemma lease_inv s o a b st q s' : q < 2 ^ 64 → inv s → lease s o a b st q = Ok s' → inv s'.
Proof.
  unfold lease. intros Hq [Hl Hd] H.
  destruct (Nat.leb_spec b a); [done|]. destruct (Nat.ltb_spec (size s) b); [done|].
  destruct (existsb _ _) eqn:He; [done|]. injection H as <-.
  assert (Hfree : ∀ k l, leases s !! k = Some l → (end_bin l ≤ a ∨ b ≤ start_bin l)%nat).
  { intros k l Hk. destruct (overlaps a b l) eqn:Ho.
    - assert (existsb (overlaps a b) (hm_values (leases s)) = true); [|congruence].
      apply existsb_exists. exists l. split; [|done]. apply list_elem_of_In, elem_of_hm_values; eauto.
    - unfold overlaps in Ho. destruct (Nat.ltb_spec a (end_bin l)), (Nat.ltb_spec (start_bin l) b);
        try done; lia. }
  split; cbn [leases size].
  - intros k l [[<- <-]|[_ Hk]]%lookup_insert_Some; [|by apply Hl].
    split; cbn; lia.
  - intros j k l l' [[<- <-]|[_ Hj]]%lookup_insert_Some [[<- <-]|[? Hk]]%lookup_insert_Some Hne;
      cbn; try done; [| |by eapply Hd].
    + destruct (Hfree k l'); auto.
    + destruct (Hfree j l); auto.
Qed.

(** Replacing a lease by one with the same band keeps the invariant. *)
Lemma inv_update s (m : gmap nat BandLease) : inv s →
  (∀ k l', m !! k = Some l' → ∃ l, leases s !! k = Some l ∧ start_bin l' = start_bin l
     ∧ end_bin l' = end_bin l ∧ throughput_quota l' = throughput_quota l
     ∧ used_throughput l' ≤ throughput_quota l) →
  inv {| size := size s; leases := m |}.
Proof.
  intros [Hl Hd] Hm. split; cbn.
  - intros k l' Hk. destruct (Hm k l' Hk) as (l & Hkl & Hs & He & Hq & Hu).
    destruct (Hl k l Hkl). split; try congruence; rewrite Hq; done.
  - intros j k l l' Hj Hk Hne.
    destruct (Hm j l Hj) as (l1 & Hj1 & -> & -> & _).
    destruct (Hm k l' Hk) as (l2 & Hk2 & -> & -> & _). by apply (Hd j k).
Qed.

Lemma authorize_inv s bin s' : inv s → authorize s bin = Ok s' → inv s'.
Proof.
  unfold authorize. intros Hi H. destruct (lease_for_mut s bin) as [[k l]|] eqn:E; [|done].
  apply lease_for_mut_Some in E as [Hk _]. unfold consume_quota in H.
  destruct (has_quota l) eqn:Hq; [|done]. injection H as <-.
  apply (inv_update s); [done|].
  unfold has_quota in Hq. apply N.ltb_lt in Hq. destruct (inv_lease s Hi k l Hk).
  intros j l' [[<- <-]|[_ Hj]]%lookup_insert_Some.
  - exists l. split_and!; try done. cbn. rewrite wadd_small; lia.
  - exists l'. split_and!; try done. apply (inv_lease s Hi j l' Hj).
Qed.

Lemma reset_quotas_inv s : inv s → inv (reset_quotas s).
Proof.
  intros Hi. apply (inv_update s); [done|].
  intros k l' (l & <- & Hk)%lookup_fmap_Some. exists l. split_and!; try done. cbn. lia.
Qed.

(** The states an application can bring a spectrum into; [quota] is a [u64]. *)
Inductive reachable (sz : nat) : t → Prop :=
  | reach_new : reachable sz (new sz)
  | reach_lease s o a b st q s' :
      q < 2 ^ 64 → reachable sz s → lease s o a b st q = Ok s' → reachable sz s'
  | reach_authorize s bin s' :
      reachable sz s → authorize s bin = Ok s' → reachable sz s'
  | reach_reset s : reachable sz s → reachable sz (reset_quotas s).

Lemma reachable_inv sz s : reachable sz s → inv s.
Proof.
  induction 1.
  - apply new_inv.
  - by eapply lease_inv.
  - by eapply authorize_inv.
  - by apply reset_quotas_inv.
Qed.

(** C18: in every reachable spectrum two distinct leases never share a bin, each lease
    is a non-empty band inside the spectrum, and no lease has granted more operations
    than its quota since the last reset. *)
Theorem reachable_leases_disjoint sz s j k l l' :
  reachable sz s → leases s !! j = Some l → leases s !! k = Some l' →
  (∀ bin, covers bin l = true → covers bin l' = true → j = k)
  ∧ (start_bin l < end_bin l ≤ size s)%nat ∧ used_throughput l ≤ throughput_quota l.
Proof.
  intros Hr%reachable_inv Hj Hk. split_and!.
  - intros bin. by eapply covers_unique.
  - by destruct (inv_lease s Hr j l Hj).
  - by destruct (inv_lease s Hr j l Hj).
  - by destruct (inv_lease s Hr j l Hj).
Qed.

(** [authorize] is a function of the lease that covers the bin, whatever the
    iteration order of the table: it charges one unit to that lease while it has quota,
    reports the exhausted band otherwise, and reports an unleased bin when no lease
    covers it. *)
Theorem authorize_functional sz s bin : reachable sz s →
  (∀ k l, leases s !! k = Some l → covers bin l = true →
     authorize s bin =
       if used_throughput l <? throughput_quota l
       then Ok {| size := size s;
                  leases := <[k := set_used (used_throughput l + 1) l]> (leases s) |}
       else Err (QuotaExceeded (start_bin l) (end_bin l)))
  ∧ ((∀ k l, leases s !! k = Some l → covers bin l = false) →
     authorize s bin = Err (NotLeased bin)).
Proof.
  intros Hr%reachable_inv. unfold authorize. split.
  - intros k l Hk Hc. rewrite (lease_for_mut_spec s bin k l) by done.
    unfold consume_quota, has_quota. destruct (N.ltb_spec (used_throughput l) (throughput_quota l)); [|done].
    destruct (inv_lease s Hr k l Hk). rewrite wadd_small by lia. done.
  - intros Hn. destruct (lease_for_mut s bin) as [[k l]|] eqn:E; [|done].
    apply lease_for_mut_Some in E as [Hk Hc]. by rewrite (Hn k l Hk) in Hc.
Qed.
End lemmas.

(** A spectrum with two adjacent leases, the second with one unit of quota. *)
Definition sample1 : t :=
  {| size := 128;
     leases := {[ 0%nat := {| owner := 1; start_bin := 0; end_bin := 64; staked_amount := 9;
                              throughput_quota := 100; used_throughput := 0 |} ]} |}.
Definition sample : t :=
  {| size := 128;
     leases := <[64%nat := {| owner := 2; start_bin := 64; end_bin := 96; staked_amount := 5;
                              throughput_quota := 1; used_throughput := 0 |}]> (leases sample1) |}.

Lemma sample_reachable : @reachable map_order 128 sample.
Proof.
  eapply (@reach_lease map_order 128 sample1 2 64 96 5 1); [done| |vm_compute; reflexivity].
  eapply (@reach_lease map_order 128 (new 128) 1 0 64 9 100); [done|constructor|vm_compute; reflexivity].
Qed.

Lemma reachable_leases_disjoint_witness :
  ∃ l l', leases sample !! 0%nat = Some l ∧ leases sample !! 64%nat = Some l' ∧
  (∀ bin, covers bin l = true → covers bin l' = true → 0%nat = 64%nat)
  ∧ (start_bin l < end_bin l ≤ size sample)%nat ∧ used_throughput l ≤ throughput_quota l.
Proof.
  eexists _, _. split; [reflexivity|]. split; [reflexivity|].
  apply (@reachable_leases_disjoint map_order 128 sample 0 64); [|reflexivity|reflexivity].
  apply sample_reachable.
Defined.

Lemma authorize_functional_witness :
  @authorize map_order sample 100 = Err (NotLeased 100).
Proof.
  apply (proj2 (@authorize_functional map_order 128 sample 100 sample_reachable)).
  intros k l. unfold sample, sample1; cbn [leases].
  by intros [[<- <-]|[_ [<- <-]%lookup_singleton_Some]]%lookup_insert_Some.
Defined.
End Spectrum.

(** ** Value streams *)

Module Stream.

Record ValueStream := {
  total : N;
  rate_per_tick : N;
  max_duration_ticks : N;
}.

Definition new (wave_amount rate_per_second_wave max_duration : N) : ValueStream :=
  {| total := sat_mul 128 wave_amount WAVE_PRECISION;
     rate_per_tick := sat_mul 128 rate_per_second_wave WAVE_PRECISION;
     max_duration_ticks := max_duration |}.

Definition from_subunits (total rate max_duration : N) : ValueStream :=
  {| total := total; rate_per_tick := rate; max_duration_ticks := max_duration |}.

Definition burned_in (elapsed_ticks rate : N) : N := sat_mul 128 rate elapsed_ticks.

Definition duration_ticks (s : ValueStream) : N :=
  if rate_per_tick s =? 0 then 0
  else N.min (total s / rate_per_tick s) (max_duration_ticks s).

Record StreamState := {
  stream : ValueStream;
  remaining : N;
  last_update_tick : N;
  start_tick : N;
}.

Definition state_new (s : ValueStream) : StreamState :=
  {| stream := s; remaining := total s; last_update_tick := 0; start_tick := 0 |}.

Definition tick (st : StreamState) (tick : N) : StreamState * N :=
  let elapsed_ticks := tick - last_update_tick st in
  let burned := N.min (burned_in elapsed_ticks (rate_per_tick (stream st))) (remaining st) in
  ({| stream := stream st; remaining := remaining st - burned;
      last_update_tick := tick; start_tick := start_tick st |}, burned).

Definition is_exhausted (st : StreamState) : bool := remaining st =? 0.

(** Polling a stream at a sequence of ticks; the amounts burned at each. *)
Fixpoint run (st : StreamState) (ticks : list N) : StreamState * list N :=
  match ticks with
  | [] => (st, [])
  | t :: ticks => let '(st, b) := tick st t in let '(st, bs) := run st ticks in (st, b :: bs)
  end.

Definition last_tick (d : N) (ticks : list N) : N := fold_left (λ _ t, t) ticks d.

(** The saturation of the product is invisible: it is clamped to [remaining] anyway. *)
Lemma tick_burn st t : remaining st < 2 ^ 128 →
  (tick st t).2 = N.min (rate_per_tick (stream st) * (t - last_update_tick st)) (remaining st).
Proof. intros Hr. unfold tick, burned_in, sat_mul, umax. cbn [snd]. lia. Qed.

Lemma run_spec ticks : ∀ st, remaining st < 2 ^ 128 →
  Sorted N.le (last_update_tick st :: ticks) →
  let last := last_tick (last_update_tick st) ticks in
  let burned := N.min (rate_per_tick (stream st) * (last - last_update_tick st)) (remaining st) in
  Nsum (run st ticks).2 = burned ∧ remaining (run st ticks).1 = remaining st - burned.
Proof.
  induction ticks as [|t ticks IH]; intros st Hr Hs; cbn zeta.
  { cbn. rewrite N.sub_diag, N.mul_0_r. cbn. lia. }
  inversion_clear Hs as [|?? Hs' Hd]. inversion_clear Hd as [|?? Hle].
  pose proof (tick_burn st t Hr) as Hb. cbn [run].
  destruct (tick st t) as [st' b] eqn:Et. cbn [snd] in Hb.
  assert (stream st' = stream st ∧ last_update_tick st' = t ∧ remaining st' = remaining st - b)
    as (Es & El & Er) by (unfold tick in Et; injection Et as <- <-; done).
  specialize (IH st'). rewrite Es, El, Er in IH. specialize (IH ltac:(lia) Hs'). cbn zeta in IH.
  destruct (run st' ticks) as [st'' bs]. cbn [fst snd] in *.
  assert (Hmono : t ≤ last_tick t ticks).
  { clear -Hs'. revert t Hs'. induction ticks as [|u ticks IH]; intros t Hs; [cbn; lia|].
    inversion_clear Hs as [|?? Hs' Hd]. inversion_clear Hd as [|?? Hle].
    specialize (IH u Hs'). change (last_tick t (u :: ticks)) with (last_tick u ticks). lia. }
  destruct IH as [IH1 IH2].
  set (r := rate_per_tick (stream st)) in *. set (l := last_tick t ticks) in *.
  change (last_tick (last_update_tick st) (t :: ticks)) with l.
  assert (r * (l - last_update_tick st) = r * (t - last_update_tick st) + r * (l - t)) as ->
    by (rewrite <- N.mul_add_distr_l; f_equal; lia).
  cbn [Nsum]. rewrite IH1, IH2. lia.
Qed.

(** However often a stream is polled, at any non-decreasing ticks, the total it has
    burned is [min total (rate_per_tick * last tick)] and the rest is what remains: the
    polling schedule, the saturating product and early exhaustion make no difference. *)
Theorem stream_burn_schedule_independent (s : ValueStream) (ticks : list N) :
  total s < 2 ^ 128 → Sorted N.le ticks →
  Nsum (run (state_new s) ticks).2 = N.min (rate_per_tick s * last_tick 0 ticks) (total s)
  ∧ remaining (run (state_new s) ticks).1
    = total s - N.min (rate_per_tick s * last_tick 0 ticks) (total s).
Proof.
  intros Ht Hs. destruct (run_spec ticks (state_new s)) as [H1 H2]; [done| |].
  - constructor; [done|]. destruct ticks; constructor. cbn. lia.
  - cbn [state_new last_update_tick stream remaining] in H1, H2.
    by rewrite N.sub_0_r in H1, H2.
Qed.

Lemma stream_burn_witness :
  Nsum (run (state_new (from_subunits 10 3 1)) [1; 1; 2; 7]).2 = N.min (3 * 7) 10
  ∧ remaining (run (state_new (from_subunits 10 3 1)) [1; 1; 2; 7]).1 = 10 - N.min (3 * 7) 10.
Proof.
  apply (stream_burn_schedule_independent (from_subunits 10 3 1) [1; 1; 2; 7]);
    [vm_compute; reflexivity|].
  repeat constructor; vm_compute; congruence.
Defined.

(** [max_duration_ticks] is not consulted by [tick]: a stream keeps burning past it. *)
Lemma max_duration_not_enforced :
  duration_ticks (from_subunits 10 1 2) = 2
  ∧ (tick (state_new (from_subunits 10 1 2)) 10).2 = 10.
Proof. vm_compute. done. Qed.
End Stream.

(** ** Supply *)

Module Supply.

Record SupplyTracker := {
  circulating : N;
  burned : N;
}.

Definition new : SupplyTracker := {| circulating := 0; burned := 0 |}.

Definition mint (s : SupplyTracker) (amount : N) : SupplyTracker * bool :=
  if amount =? 0 then (s, true)
  else if TOTAL_WAVE_SUPPLY <? sat_add 128 (circulating s) amount then (s, false)
  else ({| circulating := wadd 128 (circulating s) amount; burned := burned s |}, true).

Definition burn (s : SupplyTracker) (amount : N) : SupplyTracker :=
  if amount =? 0 then s
  else {| circulating := circulating s - amount; burned := wadd 128 (burned s) amount |}.

Definition remaining (s : SupplyTracker) : N := TOTAL_WAVE_SUPPLY - circulating s.

Inductive op := Mint (amount : N) | Burn (amount : N).

(** One call; the amount that entered circulation and the amount reported burned. *)
Definition step (s : SupplyTracker) (o : op) : SupplyTracker * (N * N) :=
  match o with
  | Mint a => let '(s', ok) := mint s a in (s', (if ok then a else 0, 0))
  | Burn a => (burn s a, (0, a))
  end.

Fixpoint run (s : SupplyTracker) (ops : list op) : SupplyTracker * (N * N) :=
  match ops with
  | [] => (s, (0, 0))
  | o :: ops =>
      let '(s, (m, b)) := step s o in
      let '(s, (ms, bs)) := run s ops in (s, (m + ms, b + bs))
  end.

(** Every amount that can be minted or burned is a [u128]. *)
Definition op_ok (o : op) : Prop := match o with Mint a | Burn a => a < 2 ^ 128 end.

Lemma mint_spec s a : circulating s ≤ TOTAL_WAVE_SUPPLY → a < 2 ^ 128 →
  mint s a = if circulating s + a <=? TOTAL_WAVE_SUPPLY
             then ({| circulating := circulating s + a; burned := burned s |}, true)
             else (s, false).
Proof.
  intros Hc Ha. unfold mint. destruct s as [c b]; cbn in *.
  assert (TOTAL_WAVE_SUPPLY < 2 ^ 128) by (by vm_compute).
  destruct (N.eqb_spec a 0) as [->|].
  { rewrite N.add_0_r. destruct (N.leb_spec c TOTAL_WAVE_SUPPLY); [done|lia]. }
  unfold sat_add, umax. destruct (N.leb_spec (c + a) TOTAL_WAVE_SUPPLY).
  - rewrite wadd_small by lia.
    destruct (N.ltb_spec TOTAL_WAVE_SUPPLY (N.min (c + a) (2 ^ 128 - 1))); [lia|done].
  - destruct (N.ltb_spec TOTAL_WAVE_SUPPLY (N.min (c + a) (2 ^ 128 - 1))); [done|].
    assert (TOTAL_WAVE_SUPPLY < 2 ^ 128 - 1) by (by vm_compute). lia.
Qed.

Lemma step_bounds s o : op_ok o → circulating s ≤ TOTAL_WAVE_SUPPLY →
  circulating (step s o).1 ≤ TOTAL_WAVE_SUPPLY
  ∧ circulating s + (step s o).2.1 ≤ circulating (step s o).1 + (step s o).2.2
  ∧ circulating (step s o).1 ≤ circulating s + (step s o).2.1.
Proof.
  intros Ho Hc. destruct o as [a|a]; cbn [step].
  - rewrite mint_spec by done.
    destruct (N.leb_spec (circulating s + a) TOTAL_WAVE_SUPPLY); cbn; lia.
  - unfold burn. destruct (N.eqb_spec a 0); cbn; lia.
Qed.

Lemma run_bounds ops : ∀ s, Forall op_ok ops → circulating s ≤ TOTAL_WAVE_SUPPLY →
  circulating (run s ops).1 ≤ TOTAL_WAVE_SUPPLY
  ∧ circulating s + (run s ops).2.1 ≤ circulating (run s ops).1 + (run s ops).2.2
  ∧ circulating (run s ops).1 ≤ circulating s + (run s ops).2.1.
Proof.
  induction ops as [|o ops IH]; intros s Hf Hc; [cbn; lia|].
  apply Forall_cons in Hf as [Ho Hf]. cbn [run].
  pose proof (step_bounds s o Ho Hc) as (H1 & H2 & H3).
  destruct (step s o) as [s1 [m b]]. cbn [fst snd] in *.
  specialize (IH s1 Hf H1). destruct (run s1 ops) as [s2 [ms bs]]. cbn [fst snd] in *. lia.
Qed.


End Supply.
