(* ===== verification/Crypto.v ===== *)
(** * Keys, identifiers, vector clocks, coordinates
    (src/src/crypto/keys.rs, src/src/crypto/phase_shift.rs 27-76,
     src/src/field/coordinates.rs)

    BLAKE3 and Ed25519 are parameters (class [Crypto]); what the node relies on is the
    class [CryptoLaws]; [lawful_crypto] is an instance that satisfies the laws.  Proved:
    happened-before is a strict partial order read off the component-wise order, merge is
    the least upper bound, coordinates always map into the spectrum. *)
From S2P Require Import Prelude Bytes.
Local Open Scope N_scope.

(** ** Cryptographic primitives *)

Class Crypto := {
  (** [blake3::hash], the digest as a 256-bit number. *)
  blake3 : bytes → N;
  (** [blake3::keyed_hash] under a 32-byte key. *)
  blake3_keyed : N → bytes → N;
  SigningKey : Type;
  VerifyingKey : Type;
  Signature : Type;
  signing_key_from_bytes : N → SigningKey;
  verifying_key : SigningKey → VerifyingKey;
  vk_to_bytes : VerifyingKey → N;
  vk_from_bytes : N → option VerifyingKey;
  ed25519_sign : SigningKey → bytes → Signature;
  ed25519_verify : VerifyingKey → bytes → Signature → bool;
  sig_to_bytes : Signature → bytes;
  sig_from_slice : bytes → option Signature;
}.

Class CryptoLaws (C : Crypto) := {
  blake3_256 : ∀ bs, blake3 bs < 2 ^ 256;
  vk_to_bytes_256 : ∀ vk, vk_to_bytes vk < 2 ^ 256;
  vk_roundtrip : ∀ sk, vk_from_bytes (vk_to_bytes (verifying_key sk)) = Some (verifying_key sk);
  sig_roundtrip : ∀ s, sig_from_slice (sig_to_bytes s) = Some s;
  verify_sign : ∀ sk m, ed25519_verify (verifying_key sk) m (ed25519_sign sk m) = true;
}.

(** A hash collision: what a theorem reduces a discrepancy to. *)
Definition collision {C : Crypto} : Prop := ∃ x y, x ≠ y ∧ blake3 x = blake3 y.

(** Executable stand-ins that satisfy the laws: the hash is a remainder, a key is
    its own public key, a signature is the message prefixed by the key. *)
Definition lawful_crypto : Crypto := {|
  blake3 := λ bs, of_le bs mod (2 ^ 256 - 189);
  blake3_keyed := λ k bs, (k + of_le bs) mod 2 ^ 256;
  SigningKey := N; VerifyingKey := N; Signature := bytes;
  signing_key_from_bytes := λ k, k;
  verifying_key := λ k, k mod 2 ^ 256;
  vk_to_bytes := λ k, k mod 2 ^ 256;
  vk_from_bytes := λ k, Some k;
  ed25519_sign := λ k m, id_bytes (k mod 2 ^ 256) ++ m;
  ed25519_verify := λ k m s, bool_decide (s = id_bytes k ++ m);
  sig_to_bytes := λ s, s;
  sig_from_slice := λ s, Some s;
|}.

#[export] Instance lawful_crypto_laws : CryptoLaws lawful_crypto.
Proof.
  split; cbn.
  - intros bs. etransitivity; [by apply N.mod_lt|done].
  - intros k. by apply N.mod_lt.
  - intros k. f_equal. by apply N.Div0.mod_mod.
  - done.
  - intros k m. by apply bool_decide_eq_true.
Qed.

(** ** keys.rs *)

Section keys.
Context {C : Crypto}.

(** [AccountId(blake3(public_key))] *)
Definition account_from_public_key (vk : VerifyingKey) : N := blake3 (id_bytes (vk_to_bytes vk)).

Definition wave_address_from_account_id (id : N) : N :=
  blake3 (ascii "fluidic:wave-address:v1" ++ id_bytes id).

Record KeyPair := { signing_key : SigningKey }.

Definition from_seed (seed : N) : KeyPair := {| signing_key := signing_key_from_bytes seed |}.
Definition public_key (kp : KeyPair) : VerifyingKey := verifying_key (signing_key kp).
Definition account_id (kp : KeyPair) : N := account_from_public_key (public_key kp).
Definition wave_address (kp : KeyPair) : N := wave_address_from_account_id (account_id kp).
(** [sign(..).to_bytes().to_vec()] *)
Definition sign (kp : KeyPair) (m : bytes) : bytes := sig_to_bytes (ed25519_sign (signing_key kp) m).

(** [Signature::from_slice(..)] then [KeyPair::verify]; a malformed signature is [false]. *)
Definition verify_bytes (vk : VerifyingKey) (m sig : bytes) : bool :=
  match sig_from_slice sig with
  | None => false
  | Some s => ed25519_verify vk m s
  end.

Lemma verify_bytes_sign {L : CryptoLaws C} (kp : KeyPair) (m : bytes) :
  verify_bytes (public_key kp) m (sign kp m) = true.
Proof. unfold verify_bytes, sign. rewrite sig_roundtrip. apply verify_sign. Qed.
End keys.

(** ** Vector clocks *)

Module VectorClock.

Abbreviation t := (gmap N N).

Definition new : t := ∅.

Definition tick (c : t) (node : N) : t * N :=
  let time := wadd 64 (default 0 (c !! node)) 1 in (<[node := time]> c, time).

Definition merge (c other : t) : t :=
  fold_left (λ c e, <[e.1 := N.max (default 0 (c !! e.1)) e.2]> c) (bt_iter other) c.

Definition get (c : t) (node : N) : N := default 0 (c !! node).

Definition happened_before (c other : t) : bool :=
  forallb (λ e, e.2 <=? default 0 (other !! e.1)) (bt_iter c)
  && existsb (λ e, default 0 (c !! e.1) <? e.2) (bt_iter other).

Definition concurrent_with (c other : t) : bool :=
  negb (happened_before c other) && negb (happened_before other c).

(** Clocks with the same readings; an absent entry reads 0. *)
Definition clock_le (c d : t) : Prop := ∀ n, get c n ≤ get d n.
Definition clock_equiv (c d : t) : Prop := ∀ n, get c n = get d n.

#[export] Instance clock_equiv_equivalence : Equivalence clock_equiv.
Proof. split; [intros c n|intros c d H n|intros c d e H1 H2 n]; congruence. Qed.
#[export] Instance clock_le_preorder : PreOrder clock_le.
Proof. split; [intros c n; lia|intros c d e H1 H2 n; specialize (H1 n); specialize (H2 n); lia]. Qed.
#[export] Instance clock_le_proper : Proper (clock_equiv ==> clock_equiv ==> iff) clock_le.
Proof. intros c c' Hc d d' Hd. unfold clock_le. split; intros H n; [rewrite <- Hc, <- Hd|rewrite Hc, Hd]; done. Qed.

Lemma all_leq_spec (c d : t) :
  forallb (λ e, e.2 <=? default 0 (d !! e.1)) (bt_iter c) = true ↔ clock_le c d.
Proof.
  rewrite forallb_forall. unfold clock_le, get. split.
  - intros H n. destruct (c !! n) as [v|] eqn:E; cbn; [|lia].
    apply elem_of_bt_iter, list_elem_of_In, H, N.leb_le in E. done.
  - intros H [n v] Hin%list_elem_of_In%elem_of_bt_iter. apply N.leb_le. cbn.
    specialize (H n). by rewrite Hin in H.
Qed.

Lemma strictly_less_spec (c d : t) :
  existsb (λ e, default 0 (c !! e.1) <? e.2) (bt_iter d) = true ↔ ∃ n, get c n < get d n.
Proof.
  rewrite existsb_exists. unfold get. split.
  - intros ([n v] & Hin%list_elem_of_In%elem_of_bt_iter & Hlt%N.ltb_lt). exists n.
    by rewrite Hin.
  - intros [n Hn]. destruct (d !! n) as [v|] eqn:E; cbn in Hn; [|lia].
    exists (n, v). split; [by apply list_elem_of_In, elem_of_bt_iter|by apply N.ltb_lt].
Qed.

Lemma happened_before_spec (c d : t) :
  happened_before c d = true ↔ clock_le c d ∧ ∃ n, get c n < get d n.
Proof.
  unfold happened_before. by rewrite andb_true_iff, all_leq_spec, strictly_less_spec.
Qed.

#[export] Instance happened_before_proper :
  Proper (clock_equiv ==> clock_equiv ==> eq) happened_before.
Proof.
  intros c c' Hc d d' Hd. apply eq_true_iff_eq. rewrite !happened_before_spec, Hc, Hd.
  split; intros [H [n Hn]]; (split; [done|]); exists n; [rewrite <- Hc, <- Hd|rewrite Hc, Hd]; done.
Qed.

Lemma happened_before_irrefl (c : t) : happened_before c c = false.
Proof. apply not_true_iff_false. rewrite happened_before_spec. intros [_ [n Hn]]. lia. Qed.

Lemma happened_before_trans (c d e : t) :
  happened_before c d = true → happened_before d e = true → happened_before c e = true.
Proof.
  rewrite !happened_before_spec. intros [H1 [n Hn]] [H2 _]. split; [by transitivity d|].
  exists n. specialize (H2 n). lia.
Qed.

Lemma get_merge (c d : t) (n : N) : get (merge c d) n = N.max (get c n) (get d n).
Proof.
  unfold merge. enough (∀ l c, NoDup l.*1 →
    get (fold_left (λ c e, <[e.1 := N.max (default 0 (c !! e.1)) e.2]> c) l c) n
    = N.max (get c n) (get (list_to_map l) n)) as H.
  { rewrite H by apply bt_iter_NoDup. f_equal. unfold get. f_equal.
    apply option_eq. intros v. rewrite <- elem_of_list_to_map by apply bt_iter_NoDup.
    apply elem_of_bt_iter. }
  clear c. induction l as [|[k v] l IH]; intros c Hnd; cbn.
  { unfold get. rewrite (lookup_empty (M := gmap N)). cbn. lia. }
  cbn in Hnd. apply NoDup_cons in Hnd as [Hk Hnd]. rewrite IH by done.
  unfold get. destruct (decide (k = n)) as [->|Hne].
  - rewrite !lookup_insert_eq. cbn.
    assert (list_to_map (M := gmap N N) l !! n = None) as -> by (by apply not_elem_of_list_to_map).
    cbn. lia.
  - by rewrite !lookup_insert_ne by done.
Qed.


Lemma tick_spec (c : t) (node : N) : get c node < 2 ^ 64 - 1 →
  happened_before c (tick c node).1 = true
  ∧ (∀ n, n ≠ node → (tick c node).1 !! n = c !! n)
  ∧ (tick c node).1 !! node = Some (get c node + 1).
Proof.
  intros Hlt. unfold tick; cbn [fst]. fold (get c node). rewrite wadd_small by lia.
  split_and!; [|intros n Hn; by rewrite lookup_insert_ne|apply lookup_insert_eq].
  apply happened_before_spec. split.
  - intros n. unfold get at 2. destruct (decide (n = node)) as [->|Hn].
    + rewrite lookup_insert_eq. cbn. lia.
    + by rewrite lookup_insert_ne.
  - exists node. unfold get at 2. rewrite lookup_insert_eq. cbn. lia.
Qed.

(** A local event moves a clock strictly forward in the causal order, until the
    64-bit counter of the node wraps. *)
Theorem tick_happened_before (c : t) (node : N) :
  get c node < 2 ^ 64 - 1 →
  happened_before c (tick c node).1 = true ∧ get (tick c node).1 node = (tick c node).2
  ∧ (tick c node).2 = get c node + 1
  ∧ ∀ n, n ≠ node → get (tick c node).1 n = get c n.
Proof.
  intros Hlt.
  assert (E : (tick c node).2 = get c node + 1) by (cbn; apply wadd_small; fold (get c node); lia).
  destruct (tick_spec c node Hlt) as (Hb & Hoth & Hown). unfold tick in *; cbn [fst snd] in *.
  split_and!; [done| |done|].
  - unfold get at 1. by rewrite Hown, E.
  - intros n Hn. unfold get. by rewrite Hoth.
Qed.

Lemma tick_happened_before_witness :
  happened_before {[ 7 := 3 ]} (tick {[ 7 := 3 ]} 7).1 = true
  ∧ get (tick {[ 7 := 3 ]} 7).1 7 = (tick {[ 7 := 3 ]} 7).2
  ∧ (tick {[ 7 := 3 ]} 7).2 = get {[ 7 := 3 ]} 7 + 1
  ∧ ∀ n, n ≠ 7 → get (tick {[ 7 := 3 ]} 7).1 n = get {[ 7 := 3 ]} n.
Proof. apply (tick_happened_before {[ 7 := 3 ]} 7). vm_compute. reflexivity. Defined.
End VectorClock.

(** ** Coordinates *)

Record Coordinate := Coord { comp0 : N; comp1 : N; comp2 : N; comp3 : N }.

#[export] Instance coordinate_eq_dec : EqDecision Coordinate.
Proof. solve_decision. Defined.

Definition components (c : Coordinate) : list N := [comp0 c; comp1 c; comp2 c; comp3 c].
Definition coord_zero : Coordinate := Coord 0 0 0 0.
Definition coord_from_scalar (s : N) : Coordinate := Coord s 0 0 0.

Definition coord_to_bytes (c : Coordinate) : bytes := concat (map u64_le (components c)).

Definition to_ntt_index (c : Coordinate) (size : nat) : nat :=
  let acc := fold_left (λ acc ic,
      wadd 64 acc (wrap 64 (ic.2 * wadd 64 2654435761 (N.of_nat ic.1))))
    (combine (seq 0 4) (components c)) 0 in
  N.to_nat (acc mod N.of_nat size).

Definition coord_ok (c : Coordinate) : Prop := Forall (λ x, x < 2 ^ 64) (components c).

Lemma length_coord_to_bytes c : length (coord_to_bytes c) = 32%nat.
Proof.
  unfold coord_to_bytes, components. cbn [map concat].
  autorewrite with bytes_len. done.
Qed.
#[export] Hint Rewrite length_coord_to_bytes : bytes_len.

Lemma coord_to_bytes_inj c d : coord_ok c → coord_ok d →
  coord_to_bytes c = coord_to_bytes d → c = d.
Proof.
  unfold coord_ok, coord_to_bytes, components. cbn [map concat]. rewrite !Forall_cons.
  intros (?&?&?&?&_) (?&?&?&?&_) E. destruct c, d; cbn [comp0 comp1 comp2 comp3] in *.
  split_fields E. f_equal; by apply u64_le_inj.
Qed.

Lemma to_ntt_index_lt c size : (0 < size)%nat → (to_ntt_index c size < size)%nat.
Proof.
  intros H. unfold to_ntt_index. set (acc := fold_left _ _ _).
  pose proof (N.mod_lt acc (N.of_nat size) ltac:(lia)). lia.
Qed.

(** [FrequencyVector]: amplitudes moved by signed deltas, clamped at zero. *)
Definition FrequencyVector : Type := list N.

(** [x as i64] *)
Definition as_i64 (x : N) : Z :=
  if (x <? 2 ^ 63) then Z.of_N x else (Z.of_N x - 2 ^ 64)%Z.

Definition amplitude_add (a : N) (d : Z) : N :=
  Z.to_N (Z.max (Z.max (- 2 ^ 63) (Z.min (2 ^ 63 - 1) (as_i64 a + d))) 0)%Z.

Definition frequency_add (v : FrequencyVector) (delta : list Z) : FrequencyVector :=
  zip_with amplitude_add v delta.
