(* ===== verification/Signals.v ===== *)
(** * Signals and their signing bytes
    (src/src/crypto/phase_shift.rs, the record and signing bytes of
     src/src/consensus/certificate.rs)

    The payloads gossiped between nodes, the byte strings their signatures cover and
    their hashes.  Proved: every payload a key holder builds verifies under its key; the
    signing bytes of commutative shifts, stakes and certificates determine every signed
    field; the kinds of payload can never be confused; the signing bytes of stateful
    shifts determine the fields only once the number of clock entries is known, and two
    different shifts with the same signing bytes exist. *)
From S2P Require Import Prelude Bytes Crypto.
Local Open Scope N_scope.

(** ["DEX_WAVE_USDC"] padded with zeros to 32 bytes. *)
Definition DEFAULT_DEX_DOMAIN : N := of_be (ascii "DEX_WAVE_USDC" ++ replicate 19 x00).

Record CommutativeShift := {
  cs_domain : N;
  cs_coordinate : Coordinate;
  cs_delta : Z;
  cs_pool_id : N;
  cs_nonce : N;
  cs_timestamp_ns : N;
  cs_first_seen_at_ns : N;
  cs_signature : bytes;
}.

Record StatefulShift := {
  ss_domain : N;
  ss_from : N;
  ss_to : N;
  ss_amount : N;
  ss_vector_clock : VectorClock.t;
  ss_predecessors : list N;
  ss_nonce : N;
  ss_timestamp_ns : N;
  ss_first_seen_at_ns : N;
  ss_signature : bytes;
}.

Record RegistrationShift := {
  rs_account : N;
  rs_public_key : N;
  rs_wave_account : N;
  rs_usdc_account : N;
  rs_nonce : N;
  rs_timestamp_ns : N;
}.

Record StakeShift := {
  sk_operator : N;
  sk_public_key : N;
  sk_amount : N;
  sk_nonce : N;
  sk_timestamp_ns : N;
  sk_signature : bytes;
}.

Record SynthesisCertificate := {
  sc_operator : N;
  sc_tick : N;
  sc_commutative_applied : nat;
  sc_stateful_applied : nat;
  sc_evm_applied : nat;
  sc_commutative_root : N;
  sc_stateful_root : N;
  sc_balances_root : N;
  sc_stake_root : N;
  sc_reward_root : N;
  sc_evm_root : N;
  sc_metabolic_burned : N;
  sc_timestamp_ns : N;
  sc_signature : bytes;
}.

Inductive Signal :=
  | SigCommutative (s : CommutativeShift)
  | SigStateful (s : StatefulShift)
  | SigRegistration (s : RegistrationShift)
  | SigStake (s : StakeShift)
  | SigPing (timestamp_ns nonce : N)
  | SigPong (timestamp_ns nonce : N)
  | SigCertificate (c : SynthesisCertificate)
  | SigAuth (proof : N).

(** ** Signing bytes *)

Definition cs_signing_bytes (s : CommutativeShift) : bytes :=
  ascii "FLUIDIC:COMMUTATIVE:v2"
  ++ id_bytes (cs_domain s) ++ coord_to_bytes (cs_coordinate s) ++ i128_le (cs_delta s)
  ++ id_bytes (cs_pool_id s) ++ u64_le (cs_nonce s) ++ u64_le (cs_timestamp_ns s).

Definition clock_entry (e : N * N) : bytes := id_bytes e.1 ++ u64_le e.2.

Definition clock_bytes (c : VectorClock.t) : bytes := concat (map clock_entry (bt_iter c)).

Definition ss_signing_bytes (s : StatefulShift) : bytes :=
  ascii "FLUIDIC:STATEFUL:v2"
  ++ id_bytes (ss_domain s) ++ id_bytes (ss_from s) ++ id_bytes (ss_to s)
  ++ u128_le (ss_amount s)
  ++ clock_bytes (ss_vector_clock s)
  ++ concat (map id_bytes (ss_predecessors s))
  ++ u64_le (ss_nonce s) ++ u64_le (ss_timestamp_ns s).

Definition sk_signing_bytes (s : StakeShift) : bytes :=
  ascii "FLUIDIC:STAKE:v1"
  ++ id_bytes (sk_operator s) ++ id_bytes (sk_public_key s) ++ u128_le (sk_amount s)
  ++ u64_le (sk_nonce s) ++ u64_le (sk_timestamp_ns s).

Definition sc_signing_bytes (c : SynthesisCertificate) : bytes :=
  ascii "FLUIDIC:SYNTHESIS:v3"
  ++ id_bytes (sc_operator c) ++ u64_le (sc_tick c)
  ++ usize_le (sc_commutative_applied c) ++ usize_le (sc_stateful_applied c)
  ++ usize_le (sc_evm_applied c)
  ++ id_bytes (sc_commutative_root c) ++ id_bytes (sc_stateful_root c)
  ++ id_bytes (sc_balances_root c) ++ id_bytes (sc_stake_root c)
  ++ id_bytes (sc_reward_root c) ++ id_bytes (sc_evm_root c)
  ++ u128_le (sc_metabolic_burned c) ++ u64_le (sc_timestamp_ns c).

(** ** Construction, hashes, verification *)

Section signed.
Context {C : Crypto}.

Definition cs_new (kp : KeyPair) (domain : N) (coordinate : Coordinate) (delta : Z)
    (pool_id nonce timestamp_ns : N) : CommutativeShift :=
  let shift sig := {| cs_domain := domain; cs_coordinate := coordinate; cs_delta := delta;
    cs_pool_id := pool_id; cs_nonce := nonce; cs_timestamp_ns := timestamp_ns;
    cs_first_seen_at_ns := 0; cs_signature := sig |} in
  shift (sign kp (cs_signing_bytes (shift []))).

Definition cs_hash (s : CommutativeShift) : N := blake3 (cs_signing_bytes s ++ cs_signature s).

Definition cs_verify (s : CommutativeShift) (vk : VerifyingKey) : bool :=
  verify_bytes vk (cs_signing_bytes s) (cs_signature s).

Definition ss_new (kp : KeyPair) (domain to amount : N) (vc : VectorClock.t)
    (predecessors : list N) (nonce timestamp_ns : N) : StatefulShift :=
  let shift sig := {| ss_domain := domain; ss_from := account_id kp; ss_to := to;
    ss_amount := amount; ss_vector_clock := vc; ss_predecessors := predecessors;
    ss_nonce := nonce; ss_timestamp_ns := timestamp_ns; ss_first_seen_at_ns := 0;
    ss_signature := sig |} in
  shift (sign kp (ss_signing_bytes (shift []))).

Definition ss_hash (s : StatefulShift) : N := blake3 (ss_signing_bytes s ++ ss_signature s).

Definition ss_verify_signature (s : StatefulShift) (vk : VerifyingKey) : bool :=
  verify_bytes vk (ss_signing_bytes s) (ss_signature s).

Definition ss_verify (s : StatefulShift) (vk : VerifyingKey) : bool :=
  if negb (ss_verify_signature s vk) then false
  else account_from_public_key vk =? ss_from s.

Definition sk_sign (kp : KeyPair) (amount nonce timestamp_ns : N) : StakeShift :=
  let shift sig := {| sk_operator := account_id kp;
    sk_public_key := vk_to_bytes (public_key kp); sk_amount := amount; sk_nonce := nonce;
    sk_timestamp_ns := timestamp_ns; sk_signature := sig |} in
  shift (sign kp (sk_signing_bytes (shift []))).

Definition sk_verify (s : StakeShift) : bool :=
  match vk_from_bytes (sk_public_key s) with
  | None => false
  | Some pk =>
      if negb (verify_bytes pk (sk_signing_bytes s) (sk_signature s)) then false
      else account_from_public_key pk =? sk_operator s
  end.

Definition sc_sign (kp : KeyPair) (tick : N) (ca sa ea : nat)
    (croot sroot broot stroot rroot eroot burned timestamp_ns : N) : SynthesisCertificate :=
  let cert sig := {| sc_operator := account_id kp; sc_tick := tick;
    sc_commutative_applied := ca; sc_stateful_applied := sa; sc_evm_applied := ea;
    sc_commutative_root := croot; sc_stateful_root := sroot; sc_balances_root := broot;
    sc_stake_root := stroot; sc_reward_root := rroot; sc_evm_root := eroot;
    sc_metabolic_burned := burned; sc_timestamp_ns := timestamp_ns; sc_signature := sig |} in
  cert (sign kp (sc_signing_bytes (cert []))).

Definition sc_verify (c : SynthesisCertificate) (vk : VerifyingKey) : bool :=
  verify_bytes vk (sc_signing_bytes c) (sc_signature c).

Definition sc_hash (c : SynthesisCertificate) : N :=
  blake3 (ascii "fluidic:certificate:v1" ++ sc_signing_bytes c).

Definition signal_hash (s : Signal) : N :=
  match s with
  | SigCommutative s => cs_hash s
  | SigStateful s => ss_hash s
  | SigRegistration s =>
      blake3 (id_bytes (rs_account s) ++ id_bytes (rs_public_key s)
              ++ id_bytes (rs_wave_account s) ++ id_bytes (rs_usdc_account s)
              ++ u64_le (rs_nonce s) ++ u64_le (rs_timestamp_ns s))
  | SigStake s =>
      blake3 (id_bytes (sk_operator s) ++ id_bytes (sk_public_key s)
              ++ u128_le (sk_amount s) ++ u64_le (sk_nonce s) ++ u64_le (sk_timestamp_ns s))
  | SigPing t n | SigPong t n => blake3 (u64_le t ++ u64_le n)
  | SigCertificate c => sc_hash c
  | SigAuth proof => proof
  end.

Definition signal_timestamp_ns (s : Signal) : N :=
  match s with
  | SigCommutative s => cs_timestamp_ns s
  | SigStateful s => ss_timestamp_ns s
  | SigRegistration s => rs_timestamp_ns s
  | SigStake s => sk_timestamp_ns s
  | SigPing t _ | SigPong t _ => t
  | SigCertificate c => sc_timestamp_ns c
  | SigAuth _ => 0
  end.

(** Every payload a key holder builds verifies: commutative and stateful shifts,
    stakes and certificates made with a key pair are accepted under its public key, and
    a stateful shift or a stake is accepted only from the account it names. *)
Theorem constructed_payloads_verify {L : CryptoLaws C} (kp : KeyPair) :
  (∀ d c dl p n t, cs_verify (cs_new kp d c dl p n t) (public_key kp) = true)
  ∧ (∀ d to a vc ps n t, ss_verify (ss_new kp d to a vc ps n t) (public_key kp) = true)
  ∧ (∀ a n t, sk_verify (sk_sign kp a n t) = true)
  ∧ (∀ t ca sa ea r1 r2 r3 r4 r5 r6 b ts,
       sc_verify (sc_sign kp t ca sa ea r1 r2 r3 r4 r5 r6 b ts) (public_key kp) = true)
  ∧ (∀ s, ss_verify s (public_key kp) = true → ss_from s = account_id kp)
  ∧ (∀ s, sk_verify s = true → ∃ pk, vk_from_bytes (sk_public_key s) = Some pk
        ∧ account_from_public_key pk = sk_operator s
        ∧ verify_bytes pk (sk_signing_bytes s) (sk_signature s) = true).
Proof.
  split_and!.
  - intros. apply verify_bytes_sign.
  - intros d to a vc ps n t. set (s := ss_new kp d to a vc ps n t).
    assert (ss_verify_signature s (public_key kp) = true) as E by apply verify_bytes_sign.
    unfold ss_verify. rewrite E. apply N.eqb_refl.
  - intros a n t. set (s := sk_sign kp a n t).
    assert (verify_bytes (public_key kp) (sk_signing_bytes s) (sk_signature s) = true) as E
      by apply verify_bytes_sign.
    unfold sk_verify. change (sk_public_key s) with (vk_to_bytes (public_key kp)).
    unfold public_key at 1. rewrite vk_roundtrip. fold (public_key kp). rewrite E. apply N.eqb_refl.
  - intros. apply verify_bytes_sign.
  - unfold ss_verify. intros s. destruct (ss_verify_signature _ _); [|done].
    by intros ?%N.eqb_eq.
  - unfold sk_verify. intros s. destruct (vk_from_bytes _) as [pk|]; [|done].
    destruct (verify_bytes _ _ _) eqn:E; [|done]. intros ?%N.eqb_eq. by exists pk.
Qed.
End signed.

Lemma constructed_payloads_verify_witness :
  let C := lawful_crypto in let kp := from_seed 7 in
  (∀ d c dl p n t, cs_verify (cs_new kp d c dl p n t) (public_key kp) = true)
  ∧ (∀ d to a vc ps n t, ss_verify (ss_new kp d to a vc ps n t) (public_key kp) = true)
  ∧ (∀ a n t, sk_verify (sk_sign kp a n t) = true)
  ∧ (∀ t ca sa ea r1 r2 r3 r4 r5 r6 b ts,
       sc_verify (sc_sign kp t ca sa ea r1 r2 r3 r4 r5 r6 b ts) (public_key kp) = true)
  ∧ (∀ s, ss_verify s (public_key kp) = true → ss_from s = account_id kp)
  ∧ (∀ s, sk_verify s = true → ∃ pk, vk_from_bytes (sk_public_key s) = Some pk
        ∧ account_from_public_key pk = sk_operator s
        ∧ verify_bytes pk (sk_signing_bytes s) (sk_signature s) = true).
Proof. intros C kp. apply (@constructed_payloads_verify lawful_crypto lawful_crypto_laws kp). Defined.

(** ** What the signing bytes determine *)

Record cs_ok (s : CommutativeShift) : Prop := {
  cso_domain : cs_domain s < 2 ^ 256;
  cso_coord : coord_ok (cs_coordinate s);
  cso_delta : (- 2 ^ 127 ≤ cs_delta s < 2 ^ 127)%Z;
  cso_pool : cs_pool_id s < 2 ^ 256;
  cso_nonce : cs_nonce s < 2 ^ 64;
  cso_time : cs_timestamp_ns s < 2 ^ 64;
}.

(** Two commutative shifts with well-typed fields and the same signing bytes agree
    on every signed field: they differ at most in the arrival time and the signature. *)
Theorem cs_signing_injective (s s' : CommutativeShift) : cs_ok s → cs_ok s' →
  cs_signing_bytes s = cs_signing_bytes s' →
  s' = {| cs_domain := cs_domain s; cs_coordinate := cs_coordinate s; cs_delta := cs_delta s;
          cs_pool_id := cs_pool_id s; cs_nonce := cs_nonce s; cs_timestamp_ns := cs_timestamp_ns s;
          cs_first_seen_at_ns := cs_first_seen_at_ns s'; cs_signature := cs_signature s' |}.
Proof.
  intros [] []. unfold cs_signing_bytes. intros E. split_fields E.
  destruct s', s; cbn [cs_domain cs_coordinate cs_delta cs_pool_id cs_nonce cs_timestamp_ns] in *.
  f_equal; symmetry; auto using id_bytes_inj, coord_to_bytes_inj, i128_le_inj, u64_le_inj.
Qed.

Record sk_ok (s : StakeShift) : Prop := {
  sko_operator : sk_operator s < 2 ^ 256;
  sko_key : sk_public_key s < 2 ^ 256;
  sko_amount : sk_amount s < 2 ^ 128;
  sko_nonce : sk_nonce s < 2 ^ 64;
  sko_time : sk_timestamp_ns s < 2 ^ 64;
}.

Lemma sk_signing_inj (s s' : StakeShift) : sk_ok s → sk_ok s' →
  sk_signing_bytes s = sk_signing_bytes s' →
  (sk_operator s, sk_public_key s, sk_amount s, sk_nonce s, sk_timestamp_ns s)
  = (sk_operator s', sk_public_key s', sk_amount s', sk_nonce s', sk_timestamp_ns s').
Proof.
  intros [] []. unfold sk_signing_bytes. intros E. split_fields E.
  tuple_eq; auto using id_bytes_inj, u128_le_inj, u64_le_inj.
Qed.

Record sc_ok (c : SynthesisCertificate) : Prop := {
  sco_ids : Forall (λ x, x < 2 ^ 256) [sc_operator c; sc_commutative_root c; sc_stateful_root c;
    sc_balances_root c; sc_stake_root c; sc_reward_root c; sc_evm_root c];
  sco_words : Forall (λ x, x < 2 ^ 64) [sc_tick c; N.of_nat (sc_commutative_applied c);
    N.of_nat (sc_stateful_applied c); N.of_nat (sc_evm_applied c); sc_timestamp_ns c];
  sco_burned : sc_metabolic_burned c < 2 ^ 128;
}.

(** The operator signature on a certificate covers every field of it but itself: two
    certificates with the same signing bytes are the same up to the signature. *)
Theorem sc_signing_injective (c c' : SynthesisCertificate) : sc_ok c → sc_ok c' →
  sc_signing_bytes c = sc_signing_bytes c' →
  c' = {| sc_operator := sc_operator c; sc_tick := sc_tick c;
          sc_commutative_applied := sc_commutative_applied c;
          sc_stateful_applied := sc_stateful_applied c; sc_evm_applied := sc_evm_applied c;
          sc_commutative_root := sc_commutative_root c; sc_stateful_root := sc_stateful_root c;
          sc_balances_root := sc_balances_root c; sc_stake_root := sc_stake_root c;
          sc_reward_root := sc_reward_root c; sc_evm_root := sc_evm_root c;
          sc_metabolic_burned := sc_metabolic_burned c; sc_timestamp_ns := sc_timestamp_ns c;
          sc_signature := sc_signature c' |}.
Proof.
  intros [Hi Hw Hb] [Hi' Hw' Hb']. unfold sc_signing_bytes. intros E. split_fields E.
  split_Forall. unfold usize_le in *.
  destruct c', c; cbn [sc_operator sc_tick sc_commutative_applied sc_stateful_applied
    sc_evm_applied sc_commutative_root sc_stateful_root sc_balances_root sc_stake_root
    sc_reward_root sc_evm_root sc_metabolic_burned sc_timestamp_ns sc_signature] in *.
  f_equal; symmetry; auto using id_bytes_inj, u128_le_inj, u64_le_inj, Nat2N.inj.
Qed.

(** The tag that opens each kind of message keeps the kinds apart. *)
Lemma tag_apart (n : nat) (t1 t2 k1 k2 : bytes) :
  take n t1 ≠ take n t2 → (n ≤ length t1)%nat → (n ≤ length t2)%nat → t1 ++ k1 ≠ t2 ++ k2.
Proof. intros H H1 H2 E. apply H. apply (f_equal (take n)) in E. by rewrite !take_app_le in E by lia. Qed.

(** A signature on one kind of payload is never a signature on another: the signing
    bytes of a commutative shift, a stateful shift, a stake and a certificate differ. *)
Theorem signing_domains_separate s s' k c :
  cs_signing_bytes s ≠ ss_signing_bytes s' ∧ cs_signing_bytes s ≠ sk_signing_bytes k
  ∧ cs_signing_bytes s ≠ sc_signing_bytes c ∧ ss_signing_bytes s' ≠ sk_signing_bytes k
  ∧ ss_signing_bytes s' ≠ sc_signing_bytes c ∧ sk_signing_bytes k ≠ sc_signing_bytes c.
Proof.
  split_and!; apply (tag_apart 12); vm_compute; first [discriminate | repeat constructor].
Qed.

(** *** Stateful shifts *)

Record ss_ok (s : StatefulShift) : Prop := {
  sso_domain : ss_domain s < 2 ^ 256;
  sso_from : ss_from s < 2 ^ 256;
  sso_to : ss_to s < 2 ^ 256;
  sso_amount : ss_amount s < 2 ^ 128;
  sso_clock : Forall (λ e, e.1 < 2 ^ 256 ∧ e.2 < 2 ^ 64) (bt_iter (ss_vector_clock s));
  sso_preds : Forall (λ p, p < 2 ^ 256) (ss_predecessors s);
  sso_nonce : ss_nonce s < 2 ^ 64;
  sso_time : ss_timestamp_ns s < 2 ^ 64;
}.

(** Equal-length lists of fixed-width records are determined by their concatenation. *)
Lemma concat_map_inj {A} (f : A → bytes) (w : nat) (Q : A → Prop) :
  (∀ x, length (f x) = w) → (∀ x y, Q x → Q y → f x = f y → x = y) →
  ∀ l l' k k', length l = length l' → Forall Q l → Forall Q l' →
  concat (map f l) ++ k = concat (map f l') ++ k' → l = l' ∧ k = k'.
Proof.
  intros Hw Hf. induction l as [|x l IH]; intros [|y l'] k k' Hl HQ HQ'; try done; cbn [map concat].
  rewrite <- !app_assoc. intros [E1 E2]%(app_inj_1 (f x)); [|by rewrite !Hw].
  apply Forall_cons in HQ as [? ?]. apply Forall_cons in HQ' as [? ?].
  destruct (IH l' k k') as [-> ->]; [by injection Hl|done..|]. by rewrite (Hf x y).
Qed.

Lemma length_concat_map {A} (f : A → bytes) (w : nat) (l : list A) :
  (∀ x, length (f x) = w) → length (concat (map f l)) = (w * length l)%nat.
Proof.
  intros Hw. induction l as [|x l IH]; cbn [map concat length]; [lia|].
  rewrite length_app, Hw, IH. lia.
Qed.

Lemma length_clock_entry (e : N * N) : length (clock_entry e) = 40%nat.
Proof. unfold clock_entry. by autorewrite with bytes_len. Qed.

(** C20: stateful shifts: once two shifts have the same number of vector-clock entries,
    equal signing bytes force every signed field to agree. *)
Theorem ss_signing_injective_same_shape (s s' : StatefulShift) : ss_ok s → ss_ok s' →
  size (ss_vector_clock s) = size (ss_vector_clock s') →
  ss_signing_bytes s = ss_signing_bytes s' →
  (ss_domain s, ss_from s, ss_to s, ss_amount s, ss_vector_clock s, ss_predecessors s,
   ss_nonce s, ss_timestamp_ns s)
  = (ss_domain s', ss_from s', ss_to s', ss_amount s', ss_vector_clock s', ss_predecessors s',
     ss_nonce s', ss_timestamp_ns s').
Proof.
  intros [] [] Hsz E. unfold ss_signing_bytes in E.
  pose proof (f_equal length E) as Hlen. split_fields E.
  unfold clock_bytes in *.
  assert (Hcl : ∀ m : VectorClock.t, length (bt_iter m) = size m).
  { intros m. unfold bt_iter. rewrite sort_by_perm. apply length_map_to_list. }
  rewrite !length_app in Hlen. autorewrite with bytes_len in Hlen.
  rewrite !(length_concat_map clock_entry 40) in Hlen by apply length_clock_entry.
  rewrite !(length_concat_map id_bytes 32) in Hlen by apply length_id_bytes.
  rewrite !Hcl in Hlen.
  apply (concat_map_inj clock_entry 40 (λ e : N * N, e.1 < 2 ^ 256 ∧ e.2 < 2 ^ 64)) in E as [Ec E];
    [|apply length_clock_entry| |by rewrite !Hcl|done|done].
  2: { intros [] [] [] [] F. unfold clock_entry in F. cbn [fst snd] in *. split_fields F.
       f_equal; [by apply id_bytes_inj|by apply u64_le_inj]. }
  apply (concat_map_inj id_bytes 32 (λ p, p < 2 ^ 256)) in E as [Ep E];
    [|apply length_id_bytes|intros; by apply id_bytes_inj|lia|done|done].
  apply (field_app_inj 8) in E as [En Et]; [|by autorewrite with bytes_len..].
  assert (ss_vector_clock s = ss_vector_clock s') as ->.
  { apply map_eq. intros i. apply option_eq. intros v. rewrite <- !elem_of_bt_iter. by rewrite Ec. }
  tuple_eq; auto using id_bytes_inj, u128_le_inj, u64_le_inj.
Qed.

Definition plain_shift (to amount : N) (vc : VectorClock.t) (preds : list N) : StatefulShift :=
  {| ss_domain := DEFAULT_DEX_DOMAIN; ss_from := 17; ss_to := to; ss_amount := amount;
     ss_vector_clock := vc; ss_predecessors := preds; ss_nonce := 1; ss_timestamp_ns := 5;
     ss_first_seen_at_ns := 0; ss_signature := [] |}.

Lemma ss_signing_injective_witness :
  let s := plain_shift 3 50 {[ 1 := 4; 2 := 9 ]} [8] in
  let s' := plain_shift 3 50 (<[2 := 9]> {[ 1 := 4 ]}) [8] in
  (ss_domain s, ss_from s, ss_to s, ss_amount s, ss_vector_clock s, ss_predecessors s,
   ss_nonce s, ss_timestamp_ns s)
  = (ss_domain s', ss_from s', ss_to s', ss_amount s', ss_vector_clock s', ss_predecessors s',
     ss_nonce s', ss_timestamp_ns s').
Proof.
  intros s s'. apply (ss_signing_injective_same_shape s s').
  1, 2: split; by_decision.
  - vm_compute. reflexivity.
  - vm_compute. reflexivity.
Defined.

(** Cut a byte string into 32-byte identifiers. *)
Fixpoint ids_of (n : nat) (bs : bytes) : list N :=
  match n with O => [] | S n => of_be (take 32 bs) :: ids_of n (drop 32 bs) end.

Definition ambiguous_clock : VectorClock.t := {[ 1 := 10; 2 := 20; 3 := 30; 4 := 40 ]}.
Definition ambiguous_preds : list N := ids_of 5 (clock_bytes ambiguous_clock).

Lemma same_signed_bytes {C : Crypto} (s s' : StatefulShift) (vk : VerifyingKey) :
  ss_signing_bytes s = ss_signing_bytes s' → ss_signature s = ss_signature s' →
  ss_hash s = ss_hash s' ∧ ss_verify_signature s vk = ss_verify_signature s' vk.
Proof. intros E F. unfold ss_hash, ss_verify_signature. by rewrite E, F. Qed.

(** The byte counts of the clock and of the predecessors are not part of the signed
    bytes: a shift with four clock entries and no predecessor and a shift with no clock
    and five predecessors (both well formed) have the same signing bytes, so any
    signature for one verifies for the other and gives both the same hash. *)
Theorem ss_signing_ambiguous :
  let s := plain_shift 3 50 ambiguous_clock [] in
  let s' := plain_shift 3 50 ∅ ambiguous_preds in
  ss_ok s ∧ ss_ok s' ∧ ss_vector_clock s ≠ ss_vector_clock s'
  ∧ ss_predecessors s ≠ ss_predecessors s' ∧ ss_signing_bytes s = ss_signing_bytes s'
  ∧ ∀ (C : Crypto) (vk : VerifyingKey),
      ss_hash s = ss_hash s' ∧ ss_verify_signature s vk = ss_verify_signature s' vk.
Proof.
  intros s s'.
  assert (E : ss_signing_bytes s = ss_signing_bytes s') by (vm_compute; reflexivity).
  split_and!.
  - split; by_decision.
  - split; by_decision.
  - by vm_compute.
  - by vm_compute.
  - done.
  - intros C vk. by apply same_signed_bytes.
Qed.

Definition sample_cs : CommutativeShift :=
  {| cs_domain := DEFAULT_DEX_DOMAIN; cs_coordinate := Coord 7 0 0 0; cs_delta := -5;
     cs_pool_id := 1; cs_nonce := 1; cs_timestamp_ns := 9; cs_first_seen_at_ns := 4;
     cs_signature := [x01] |}.

Lemma cs_signing_injective_witness :
  let s := sample_cs in
  let s' := {| cs_domain := DEFAULT_DEX_DOMAIN; cs_coordinate := Coord 7 0 0 0; cs_delta := -5;
     cs_pool_id := 1; cs_nonce := 1; cs_timestamp_ns := 9; cs_first_seen_at_ns := 77;
     cs_signature := [] |} in
  s' = {| cs_domain := cs_domain s; cs_coordinate := cs_coordinate s; cs_delta := cs_delta s;
          cs_pool_id := cs_pool_id s; cs_nonce := cs_nonce s; cs_timestamp_ns := cs_timestamp_ns s;
          cs_first_seen_at_ns := cs_first_seen_at_ns s'; cs_signature := cs_signature s' |}.
Proof.
  intros s s'. apply (cs_signing_injective s s').
  1, 2: split; by_decision.
  vm_compute. reflexivity.
Defined.

Definition sample_cert (sig : bytes) : SynthesisCertificate :=
  {| sc_operator := 1; sc_tick := 2; sc_commutative_applied := 3; sc_stateful_applied := 4;
     sc_evm_applied := 5; sc_commutative_root := 6; sc_stateful_root := 7;
     sc_balances_root := 8; sc_stake_root := 9; sc_reward_root := 10; sc_evm_root := 11;
     sc_metabolic_burned := 12; sc_timestamp_ns := 13; sc_signature := sig |}.

Lemma sc_signing_injective_witness :
  let c := sample_cert [x00] in let c' := sample_cert [x01] in
  c' = {| sc_operator := sc_operator c; sc_tick := sc_tick c;
          sc_commutative_applied := sc_commutative_applied c;
          sc_stateful_applied := sc_stateful_applied c; sc_evm_applied := sc_evm_applied c;
          sc_commutative_root := sc_commutative_root c; sc_stateful_root := sc_stateful_root c;
          sc_balances_root := sc_balances_root c; sc_stake_root := sc_stake_root c;
          sc_reward_root := sc_reward_root c; sc_evm_root := sc_evm_root c;
          sc_metabolic_burned := sc_metabolic_burned c; sc_timestamp_ns := sc_timestamp_ns c;
          sc_signature := sc_signature c' |}.
Proof.
  intros c c'. apply (sc_signing_injective c c').
  1, 2: split; by_decision.
  vm_compute. reflexivity.
Defined.
