(* ===== verification/Merkle.v ===== *)
(** * The Merkle accumulator (src/src/state/merkle.rs)

    Sorting, padding and level-by-level hashing as the code does them.  Proved: the root
    always exists, does not depend on the order of the items, and commits to them: equal
    roots mean equal sets of key/value pairs, or exhibit a BLAKE3 collision. *)
From S2P Require Import Prelude Bytes Crypto.

Section merkle.
Context {C : Crypto}.

Abbreviation item := (bytes * bytes)%type.

Definition leaf (kv : item) : N := blake3 (ascii "fluidic:leaf:v1" ++ kv.1 ++ kv.2).
Definition node (a b : N) : N := blake3 (ascii "fluidic:node:v1" ++ id_bytes a ++ id_bytes b).
Definition empty_root : N := blake3 (ascii "fluidic:empty:root").

(** [sort_by(|(a, _), (b, _)| a.cmp(b))] *)
Definition item_le (x y : item) : bool := bool_decide (bytes_le x.1 y.1).

Definition next_power_of_two (n : nat) : nat := 2 ^ Nat.log2_up n.

(** [leaves.resize(target, *leaves.last().unwrap())] when the count is no power of two. *)
Definition pad (leaves : list N) : option (list N) :=
  if bool_decide (count_ones (N.of_nat (length leaves)) ≠ 1%N) then
    x ← last leaves;
    Some (leaves ++ replicate (next_power_of_two (length leaves) - length leaves) x)
  else Some leaves.

(** One level: [for pair in level.chunks_exact(2)]. *)
Fixpoint pairs (level : list N) : list N :=
  match level with
  | a :: b :: level => node a b :: pairs level
  | _ => []
  end.

(** [while level.len() > 1], then [level[0]]. *)
Fixpoint levels (fuel : nat) (level : list N) : option N :=
  match fuel with
  | O => None
  | S fuel => if (1 <? length level)%nat then levels fuel (pairs level) else head level
  end.

Definition root (items : list item) : option N :=
  let sorted := sort_by item_le items in
  let leaves := map leaf sorted in
  match leaves with
  | [] => Some empty_root
  | _ => leaves ← pad leaves; levels (S (Nat.log2_up (length leaves))) leaves
  end.

(** ** Shape *)

Lemma item_le_total x y : item_le x y = true ∨ item_le y x = true.
Proof. unfold item_le. rewrite !bool_decide_eq_true. apply (total bytes_le). Qed.
Lemma item_le_trans x y z : item_le x y = true → item_le y z = true → item_le x z = true.
Proof. unfold item_le. rewrite !bool_decide_eq_true. apply (transitivity (R := bytes_le)). Qed.

Lemma pad_spec (l : list N) : l ≠ [] →
  ∃ h k x, pad l = Some (l ++ replicate k x) ∧ last l = Some x
         ∧ length (l ++ replicate k x) = (2 ^ h)%nat.
Proof.
  intros Hl. unfold pad. destruct (last l) as [x|] eqn:Hx; [|by apply last_None in Hx].
  case_bool_decide as Hc.
  - cbn [mbind option_bind].
    exists (Nat.log2_up (length l)), (next_power_of_two (length l) - length l)%nat, x.
    split_and!; [done|done|]. rewrite length_app, length_replicate. unfold next_power_of_two.
    assert (length l ≤ 2 ^ Nat.log2_up (length l))%nat; [|lia].
    destruct l as [|a [|b l]]; [done|cbn; lia|]. apply Nat.log2_up_spec. cbn. lia.
  - destruct (decide (count_ones (N.of_nat (length l)) = 1%N)) as [H1|]; [|done].
    destruct (proj1 (is_power_of_two_spec (N.of_nat (length l)))) as [m Hm].
    { unfold is_power_of_two. by apply N.eqb_eq. }
    exists m, 0%nat, x. rewrite app_nil_r. split_and!; [done|done|].
    rewrite <- of_nat_pow2 in Hm. by apply Nat2N.inj in Hm.
Qed.

(** [h] levels of a list of [2^h] digests. *)
Fixpoint iter_pairs (h : nat) (l : list N) : list N :=
  match h with O => l | S h => iter_pairs h (pairs l) end.

Lemma length_pairs n : ∀ l, length l = (2 * n)%nat → length (pairs l) = n.
Proof.
  induction n as [|n IH]; intros l Hl; [by destruct l|].
  destruct l as [|a [|b l]]; cbn in Hl; [lia|lia|]. cbn. rewrite IH by lia. done.
Qed.

Lemma pairs_app n : ∀ l k, length l = (2 * n)%nat → pairs (l ++ k) = pairs l ++ pairs k.
Proof.
  induction n as [|n IH]; intros l k Hl; [by destruct l|].
  destruct l as [|a [|b l]]; cbn in Hl; [lia|lia|]. cbn. rewrite IH by lia. done.
Qed.

Lemma length_iter_pairs h : ∀ l n, length l = (2 ^ h * n)%nat → length (iter_pairs h l) = n.
Proof.
  induction h as [|h IH]; intros l n Hl; cbn [iter_pairs]; [cbn in Hl; lia|].
  apply IH, length_pairs. rewrite Nat.pow_succ_r' in Hl. lia.
Qed.

Lemma iter_pairs_app h : ∀ l k n, length l = (2 ^ h * n)%nat →
  iter_pairs h (l ++ k) = iter_pairs h l ++ iter_pairs h k.
Proof.
  induction h as [|h IH]; intros l k n Hl; cbn [iter_pairs]; [done|].
  rewrite Nat.pow_succ_r' in Hl. rewrite (pairs_app (2 ^ h * n)) by lia.
  apply (IH _ _ n). apply length_pairs. lia.
Qed.

Lemma iter_pairs_S h : ∀ l, iter_pairs (S h) l = pairs (iter_pairs h l).
Proof. induction h as [|h IH]; intros l; [done|]. exact (IH (pairs l)). Qed.

Lemma levels_spec h : ∀ l fuel, length l = (2 ^ h)%nat → (h < fuel)%nat →
  levels fuel l = head (iter_pairs h l) ∧ ∃ r, iter_pairs h l = [r].
Proof.
  induction h as [|h IH]; intros l fuel Hl Hf; (destruct fuel as [|fuel]; [lia|]).
  - destruct l as [|a [|b l]]; cbn in Hl; [lia| |lia]. split; [done|by exists a].
  - rewrite Nat.pow_succ_r' in Hl. cbn [levels iter_pairs].
    pose proof (Nat.pow_nonzero 2 h ltac:(done)).
    destruct (Nat.ltb_spec 1 (length l)); [|lia]. apply IH; [|lia].
    by apply length_pairs.
Qed.

(** The root of a perfect tree is the node over the roots of its halves. *)
Lemma split_tree h l : length l = (2 ^ S h)%nat →
  ∃ l1 l2 r1 r2, l = l1 ++ l2 ∧ length l1 = (2 ^ h)%nat ∧ length l2 = (2 ^ h)%nat
    ∧ iter_pairs h l1 = [r1] ∧ iter_pairs h l2 = [r2] ∧ iter_pairs (S h) l = [node r1 r2].
Proof.
  intros Hl. rewrite Nat.pow_succ_r' in Hl.
  exists (take (2 ^ h) l), (drop (2 ^ h) l).
  assert (H1 : length (take (2 ^ h) l) = (2 ^ h)%nat) by (rewrite length_take; lia).
  assert (H2 : length (drop (2 ^ h) l) = (2 ^ h)%nat) by (rewrite length_drop; lia).
  destruct (levels_spec h (take (2 ^ h) l) (S h) H1 ltac:(lia)) as [_ [r1 E1]].
  destruct (levels_spec h (drop (2 ^ h) l) (S h) H2 ltac:(lia)) as [_ [r2 E2]].
  exists r1, r2. rewrite take_drop. split_and!; try done.
  rewrite iter_pairs_S, <- (take_drop (2 ^ h) l) at 1.
  rewrite (iter_pairs_app h _ _ 1) by lia. by rewrite E1, E2.
Qed.

Lemma root_shape (items : list item) : items ≠ [] →
  ∃ h k x r, last (map leaf (sort_by item_le items)) = Some x
    ∧ length (map leaf (sort_by item_le items) ++ replicate k x) = (2 ^ h)%nat
    ∧ iter_pairs h (map leaf (sort_by item_le items) ++ replicate k x) = [r]
    ∧ root items = Some r.
Proof.
  intros Hi. set (ls := map leaf (sort_by item_le items)).
  assert (Hne : ls ≠ []).
  { intros E. apply (f_equal length) in E. unfold ls in E.
    rewrite length_map, sort_by_perm in E. by destruct items. }
  destruct (pad_spec ls Hne) as (h & k & x & Hp & Hx & Hlen).
  destruct (levels_spec h _ (S (Nat.log2_up (2 ^ h))) Hlen) as [Hlv [r Hr]].
  { rewrite Nat.log2_up_pow2 by lia. lia. }
  exists h, k, x, r. split_and!; try done. unfold root. fold ls.
  destruct ls as [|a ls']; [done|]. rewrite Hp. cbn [mbind option_bind].
  by rewrite Hlen, Hlv, Hr.
Qed.

Lemma root_total (items : list item) : is_Some (root items).
Proof.
  destruct (decide (items = [])) as [->|Hi]; [by eexists|].
  destruct (root_shape items Hi) as (h & k & x & r & _ & _ & _ & ->). by eexists.
Qed.

(** [root] never panics and is a function of the set of items: for items with
    distinct keys it does not depend on the order in which they are handed over. *)
Theorem root_order_independent (items items' : list item) :
  is_Some (root items)
  ∧ (NoDup items.*1 → items ≡ₚ items' → root items = root items').
Proof.
  split.
  - apply root_total.
  - intros Hnd Hp. unfold root. f_equal.
    rewrite (sort_by_canonical item_le item_le_total item_le_trans items items'); [done| |done].
    intros [k v] [k' v'] Hx Hy. unfold item_le; cbn. rewrite !bool_decide_eq_true.
    intros H1 H2. assert (k = k') as <- by (by apply (anti_symm bytes_le)).
    f_equal. apply list_elem_of_lookup in Hx as [i Hi]. apply list_elem_of_lookup in Hy as [j Hj].
    assert (i = j) as <-; [|congruence].
    eapply NoDup_lookup; [exact Hnd| |]; rewrite list_lookup_fmap; [by rewrite Hi|by rewrite Hj].
Qed.

(** ** The root is a commitment *)

Context {L : CryptoLaws C}.

Lemma node_inj a b a' b' :
  (a < 2 ^ 256)%N → (b < 2 ^ 256)%N → (a' < 2 ^ 256)%N → (b' < 2 ^ 256)%N →
  node a b = node a' b' → (a = a' ∧ b = b') ∨ collision.
Proof.
  intros Ha Hb Ha' Hb' E.
  destruct (decide (ascii "fluidic:node:v1" ++ id_bytes a ++ id_bytes b
                    = ascii "fluidic:node:v1" ++ id_bytes a' ++ id_bytes b')) as [Heq|Hne].
  - left. split_fields Heq. split; by apply id_bytes_inj.
  - right. by eexists _, _.
Qed.

Lemma leaf_node_apart kv a b : leaf kv = node a b → collision.
Proof.
  intros E. eexists _, _. split; [|exact E].
  intros F. by apply (f_equal (take 9)) in F.
Qed.

Lemma leaf_empty_apart kv : leaf kv = empty_root → collision.
Proof.
  intros E. eexists _, _. split; [|exact E].
  intros F. by apply (f_equal (take 9)) in F.
Qed.

Lemma node_empty_apart a b : node a b = empty_root → collision.
Proof.
  intros E. eexists _, _. split; [|exact E].
  intros F. by apply (f_equal (take 9)) in F.
Qed.

Lemma iter_pairs_digest h l r : length l = (2 ^ h)%nat → (∀ x, x ∈ l → ∃ kv, x = leaf kv) →
  iter_pairs h l = [r] → (r < 2 ^ 256)%N ∧ ((∃ kv, r = leaf kv) ∨ ∃ a b, r = node a b).
Proof.
  intros Hl Hlv Hr. destruct h as [|h].
  - cbn in Hr. subst l. destruct (Hlv r) as [kv ->]; [set_solver|]. split; [apply blake3_256|eauto].
  - destruct (split_tree h l Hl) as (?&?&a&b&_&_&_&_&_&E). rewrite E in Hr. injection Hr as <-.
    split; [apply blake3_256|eauto].
Qed.

(** Two perfect trees over leaf digests with one root have the same leaves. *)
Lemma tree_binding h : ∀ h' l l' r, length l = (2 ^ h)%nat → length l' = (2 ^ h')%nat →
  (∀ x, x ∈ l → ∃ kv, x = leaf kv) → (∀ x, x ∈ l' → ∃ kv, x = leaf kv) →
  iter_pairs h l = [r] → iter_pairs h' l' = [r] → l = l' ∨ collision.
Proof.
  induction h as [|h IH]; intros [|h'] l l' r Hl Hl' Hlv Hlv' E E'.
  - cbn in E, E'. left. congruence.
  - cbn in E. subst l. destruct (Hlv r) as [kv ->]; [set_solver|]. right.
    destruct (split_tree h' l' Hl') as (?&?&a&b&_&_&_&_&_&F). rewrite F in E'.
    injection E' as E'. by eapply leaf_node_apart.
  - cbn in E'. subst l'. destruct (Hlv' r) as [kv ->]; [set_solver|]. right.
    destruct (split_tree h l Hl) as (?&?&a&b&_&_&_&_&_&F). rewrite F in E.
    injection E as E. by eapply leaf_node_apart.
  - destruct (split_tree h l Hl) as (l1&l2&a&b&->&H1&H2&Ea&Eb&F).
    destruct (split_tree h' l' Hl') as (l1'&l2'&a'&b'&->&H1'&H2'&Ea'&Eb'&F').
    rewrite F in E. rewrite F' in E'. injection E as E. injection E' as E'.
    setoid_rewrite elem_of_app in Hlv. setoid_rewrite elem_of_app in Hlv'.
    destruct (node_inj a b a' b') as [[-> ->]|]; [| | | |congruence| |by right].
    1-4: eapply iter_pairs_digest; [| |eassumption]; eauto.
    destruct (IH h' l1 l1' a') as [->|]; eauto.
    destruct (IH h' l2 l2' b') as [->|]; eauto.
Qed.

Lemma leaf_inj kv kv' :
  leaf kv = leaf kv' → kv.1 ++ kv.2 = kv'.1 ++ kv'.2 ∨ collision.
Proof.
  intros E. destruct (decide (kv.1 ++ kv.2 = kv'.1 ++ kv'.2)) as [|Hne]; [by left|right].
  eexists _, _. split; [|exact E]. intros F. by apply app_inv_head in F.
Qed.

Section binding.
(** A set of items in which key and value can be told apart in their concatenation. *)
Context (D : item → Prop).
Hypothesis D_sep : ∀ kv kv', D kv → D kv' → kv.1 ++ kv.2 = kv'.1 ++ kv'.2 → kv = kv'.

Lemma leaf_inj_D kv kv' : D kv → D kv' → leaf kv = leaf kv' → kv = kv' ∨ collision.
Proof using D_sep. intros ?? [E|]%leaf_inj; [left; by apply D_sep|by right]. Qed.

Lemma leaves_inj l : ∀ l', Forall D l → Forall D l' → map leaf l = map leaf l' → l = l' ∨ collision.
Proof using D_sep.
  induction l as [|kv l IH]; intros [|kv' l'] Hl Hl' E; try done; [by left|].
  injection E as E1 E2. apply Forall_cons in Hl as [? ?]. apply Forall_cons in Hl' as [? ?].
  destruct (leaf_inj_D kv kv') as [->|]; [done..| |by right].
  destruct (IH l') as [->|]; auto.
Qed.

(** Padding repeats a leaf, which a list with distinct keys cannot. *)
Lemma pad_inj l l' k k' x y : Forall D l' → NoDup l'.*1 → last (map leaf l) = Some x →
  (length l ≤ length l')%nat →
  map leaf l ++ replicate k x = map leaf l' ++ replicate k' y →
  map leaf l = map leaf l' ∨ collision.
Proof using D_sep.
  intros HD Hnd Hx Hle E.
  destruct (decide (length l = length l')) as [Hlen|Hlen].
  { left. apply app_inj_1 in E as [E _]; [done|]. by rewrite !length_map. }
  right. apply last_Some in Hx as [l0 Hl0].
  assert (Hn : length l = S (length l0)).
  { rewrite <- (length_map leaf), Hl0, length_app. cbn. lia. }
  assert (Hi : map leaf l' !! length l0 = Some x).
  { rewrite <- (lookup_app_l _ (replicate k' y)) by (rewrite length_map; lia).
    rewrite <- E, Hl0, <- app_assoc. by apply list_lookup_middle. }
  assert (Hj : map leaf l' !! S (length l0) = Some x).
  { rewrite <- (lookup_app_l _ (replicate k' y)) by (rewrite length_map; lia).
    assert (Hk : (0 < k)%nat).
    { destruct k; [|lia]. apply (f_equal length) in E.
      rewrite !length_app, !length_map, !length_replicate in E. lia. }
    rewrite <- E, lookup_app_r by (rewrite length_map; lia).
    rewrite length_map, Hn, Nat.sub_diag. by destruct k; [lia|]. }
  rewrite list_lookup_fmap in Hi, Hj.
  destruct (l' !! length l0) as [kv|] eqn:Ei; [|done]. destruct (l' !! S (length l0)) as [kv'|] eqn:Ej; [|done].
  cbn in Hi, Hj. destruct (leaf_inj_D kv kv') as [->|]; [by eapply Forall_lookup_1..|congruence| |done].
  assert (length l0 = S (length l0)); [|lia].
  eapply NoDup_lookup; [exact Hnd| |]; rewrite list_lookup_fmap; [by rewrite Ei|by rewrite Ej].
Qed.

Lemma root_binding_D items items' :
  Forall D items → Forall D items' → NoDup items.*1 → NoDup items'.*1 →
  root items = root items' → items ≡ₚ items' ∨ collision.
Proof using D_sep L.
  intros HD HD' Hnd Hnd' E.
  destruct (decide (items = [])) as [->|Hi], (decide (items' = [])) as [->|Hi']; [by left| | |].
  - right. destruct (root_shape items' Hi') as (h&k&x&r&Hx&Hl&Hr&Hroot).
    apply last_Some_elem_of in Hx. apply list_elem_of_fmap in Hx as [kv [-> Hin]].
    eapply iter_pairs_digest in Hl as [_ Hd]; [| |exact Hr].
    { rewrite Hroot in E. injection E as E. destruct Hd as [[kv' ->]|(a&b&->)].
      - by eapply leaf_empty_apart.
      - by eapply node_empty_apart. }
    intros z [(kv'&->&_)%list_elem_of_fmap|[-> _]%elem_of_replicate]%elem_of_app; eauto.
  - right. destruct (root_shape items Hi) as (h&k&x&r&Hx&Hl&Hr&Hroot).
    apply last_Some_elem_of in Hx. apply list_elem_of_fmap in Hx as [kv [-> Hin]].
    eapply iter_pairs_digest in Hl as [_ Hd]; [| |exact Hr].
    { rewrite Hroot in E. injection E as E. destruct Hd as [[kv' ->]|(a&b&->)].
      - by eapply leaf_empty_apart.
      - by eapply node_empty_apart. }
    intros z [(kv'&->&_)%list_elem_of_fmap|[-> _]%elem_of_replicate]%elem_of_app; eauto.
  - destruct (root_shape items Hi) as (h&k&x&r&Hx&Hl&Hr&Hroot).
    destruct (root_shape items' Hi') as (h'&k'&x'&r'&Hx'&Hl'&Hr'&Hroot').
    rewrite Hroot, Hroot' in E. injection E as <-.
    pose proof (sort_by_perm item_le items) as P. pose proof (sort_by_perm item_le items') as P'.
    set (s := sort_by item_le items) in *. set (s' := sort_by item_le items') in *.
    rewrite <- P, <- P'. rewrite <- P in HD, Hnd. rewrite <- P' in HD', Hnd'.
    destruct (tree_binding h h' _ _ r Hl Hl') as [E|]; [| |done|done| |by right].
    1-2: intros z [(kv'&->&_)%list_elem_of_fmap|[-> _]%elem_of_replicate]%elem_of_app; [eauto|].
    1: apply last_Some_elem_of, list_elem_of_fmap in Hx as [kv [-> _]]; eauto.
    1: apply last_Some_elem_of, list_elem_of_fmap in Hx' as [kv [-> _]]; eauto.
    assert (map leaf s = map leaf s' ∨ collision) as [Em|]; [| |by right].
    { destruct (Nat.le_ge_cases (length s) (length s')).
      - by eapply pad_inj.
      - destruct (pad_inj s' s k' k x' x) as [Em|]; auto. }
    destruct (leaves_inj s s') as [->|]; auto.
Qed.
End binding.

End merkle.

Definition sample_items : list (bytes * bytes) :=
  [(ascii "a", ascii "1"); (ascii "b", ascii "2"); (ascii "c", ascii "3")].

Lemma root_order_independent_witness :
  is_Some (@root lawful_crypto sample_items)
  ∧ (NoDup sample_items.*1 → sample_items ≡ₚ rev sample_items →
     @root lawful_crypto sample_items = @root lawful_crypto (rev sample_items)).
Proof. apply (@root_order_independent lawful_crypto sample_items (rev sample_items)). Defined.

