(* ===== verification/Stake.v ===== *)
(** * The stake table (src/src/operator/stake.rs)

    Locked collateral, slashing, the quorum threshold, the Merkle commitment and the
    snapshot format.  Proved: slashing is permanent, across re-staking and restarts; the
    threshold makes quorums of any real stake overlap, and where it is not strictly above
    two thirds; snapshots round-trip; the commitment determines stakes and slash flags.
    [from_spec], which parses a string, is in Config. *)
From S2P Require Import Prelude Bytes Crypto Merkle.
Local Open Scope N_scope.

(** The [hex] crate; a [String] is its bytes. *)
Class Hex := {
  hex_encode : bytes → bytes;
  hex_decode : bytes → option bytes;
}.
Class HexLaws (H : Hex) := hex_roundtrip : ∀ bs, hex_decode (hex_encode bs) = Some bs.

Record StakingConfig := { min_stake : N }.

Definition default_config : StakingConfig := {| min_stake := 1000000000000000000 |}.

Record OperatorEntry := { stake : N; slash_nonce : option N }.

#[export] Instance operator_entry_eq_dec : EqDecision OperatorEntry.
Proof. solve_decision. Defined.

Record StakeTable := {
  config : StakingConfig;
  operators : gmap N OperatorEntry;
  slash_counter : N;
}.

Definition table_new (c : StakingConfig) : StakeTable :=
  {| config := c; operators := ∅; slash_counter := 0 |}.

(** [entry(op).or_insert_with(|| OperatorEntry { stake: 0, slash_nonce: None })] *)
Definition entry_or_default (t : StakeTable) (op : N) : OperatorEntry :=
  default {| stake := 0; slash_nonce := None |} (operators t !! op).

Definition lock_stake (t : StakeTable) (op amount : N) : StakeTable * N :=
  let e := entry_or_default t op in
  ({| config := config t;
      operators := <[op := {| stake := amount; slash_nonce := slash_nonce e |}]> (operators t);
      slash_counter := slash_counter t |}, stake e).

Definition get_stake (t : StakeTable) (op : N) : N :=
  match operators t !! op with Some e => stake e | None => 0 end.

Definition is_staked_inner (t : StakeTable) (e : OperatorEntry) : bool :=
  (min_stake (config t) <=? stake e) && negb (bool_decide (is_Some (slash_nonce e))).

Definition is_staked (t : StakeTable) (op : N) : bool :=
  match operators t !! op with Some e => is_staked_inner t e | None => false end.

Definition is_slashed (t : StakeTable) (op : N) : bool :=
  match operators t !! op with Some e => bool_decide (is_Some (slash_nonce e)) | None => false end.

Definition slash (t : StakeTable) (op : N) : StakeTable * (N * N) :=
  let nonce := slash_counter t in
  let e := entry_or_default t op in
  ({| config := config t;
      operators := <[op := {| stake := 0; slash_nonce := Some nonce |}]> (operators t);
      slash_counter := wadd 64 nonce 1 |}, (nonce, stake e)).

(** [iter().sum()] on [u128] in a release build. *)
Definition wsum (l : list N) : N := fold_left (wadd 128) l 0.

Section tables.
Context {HO : HashOrder}.

Definition staked_operators (t : StakeTable) : list (N * N) :=
  map (λ ke, (ke.1, stake ke.2)) (List.filter (λ ke, is_staked_inner t ke.2) (hm_iter (operators t))).

Definition total_stake (t : StakeTable) : N :=
  wsum (map stake (List.filter (λ e, negb (bool_decide (is_Some (slash_nonce e))))
                              (hm_values (operators t)))).

Definition quorum_threshold (t : StakeTable) : N :=
  let total := total_stake t in
  if total =? 0 then 0 else total / 3 * 2 + 1.

(** The value bytes of a stake-table leaf. *)
Definition entry_bytes (e : OperatorEntry) : bytes :=
  u128_be (stake e) ++ [if bool_decide (is_Some (slash_nonce e)) then x01 else x00].

Definition table_items (t : StakeTable) : list (bytes * bytes) :=
  sort_by item_le (map (λ ke, (id_bytes ke.1, entry_bytes ke.2)) (hm_iter (operators t))).

Definition table_root {C : Crypto} (t : StakeTable) : option N := root (table_items t).

Context {HX : Hex}.

(** [to_snapshot] inserts every entry under its hex key. *)
Definition to_snapshot (t : StakeTable) : gmap bytes OperatorEntry :=
  fold_left (λ m ke, <[hex_encode (id_bytes ke.1) := ke.2]> m) (hm_iter (operators t)) ∅.

Definition snapshot_iter (m : gmap bytes OperatorEntry) : list (bytes * OperatorEntry) :=
  sort_by (λ x y, bool_decide (bytes_le x.1 y.1)) (map_to_list m).

(** The body of the loop of [from_snapshot]: undecodable keys are skipped. *)
Definition load_entry (acc : gmap N OperatorEntry * N) (he : bytes * OperatorEntry)
    : gmap N OperatorEntry * N :=
  match hex_decode he.1 with
  | None => acc
  | Some bs =>
      if negb (length bs =? 32)%nat then acc
      else (<[of_be bs := he.2]> acc.1,
            match slash_nonce he.2 with Some n => N.max acc.2 n | None => acc.2 end)
  end.

Definition from_snapshot (c : StakingConfig) (m : gmap bytes OperatorEntry) : StakeTable :=
  let '(ops, max_nonce) := fold_left load_entry (snapshot_iter m) (∅, 0) in
  {| config := c; operators := ops; slash_counter := wadd 64 max_nonce 1 |}.
End tables.

(** ** Totals *)

Lemma wsum_Nsum_acc l a : a + Nsum l < 2 ^ 128 → fold_left (wadd 128) l a = a + Nsum l.
Proof.
  revert a. induction l as [|x l IH]; intros a H; cbn [fold_left Nsum] in *; [lia|].
  rewrite wadd_small by lia. rewrite IH by lia. lia.
Qed.

Lemma wsum_exact l : Nsum l < 2 ^ 128 → wsum l = Nsum l.
Proof. intros H. unfold wsum. rewrite wsum_Nsum_acc by lia. lia. Qed.

(** Stake that is not slashed, as an exact sum. *)
Definition live_stake (t : StakeTable) : N :=
  Nsum (map (λ ke : N * OperatorEntry, if slash_nonce ke.2 is Some _ then 0 else stake ke.2)
            (map_to_list (operators t))).

Section lemmas.
Context {HO : HashOrder}.

Lemma total_stake_live t : live_stake t < 2 ^ 128 → total_stake t = live_stake t.
Proof.
  intros Hlt. unfold total_stake.
  assert (E : Nsum (map stake (List.filter (λ e, negb (bool_decide (is_Some (slash_nonce e))))
             (hm_values (operators t)))) = live_stake t).
  { unfold live_stake, hm_values. rewrite <- (Nsum_perm _ _ (Permutation_map _ (hm_iter_perm (operators t)))).
    generalize (hm_iter (operators t)). intros l. induction l as [|[k e] l IH]; [done|].
    cbn. destruct e as [s [n|]]; cbn; [rewrite IH; lia|].
    change (map stake (List.filter _ (snd <$> l))) with
      (map stake (List.filter (λ e : OperatorEntry, negb (bool_decide (is_Some (slash_nonce e)))) l.*2)).
    lia. }
  by rewrite wsum_exact by (by rewrite E).
Qed.

(** The quorum threshold. With a live stake [T > 0] that fits in 128 bits it is the
    integer [2 * (T / 3) + 1]: at most [T]; above [2/3 T] exactly when [T mod 3] is not 2;
    and any two sets of signers that both reach it overlap in stake, except when the
    whole stake of the network is two sub-units. *)
Theorem quorum_threshold_spec (t : StakeTable) :
  0 < live_stake t < 2 ^ 128 →
  quorum_threshold t ≤ live_stake t
  ∧ (2 * live_stake t < 3 * quorum_threshold t ↔ live_stake t mod 3 ≠ 2)
  ∧ (∀ a b, quorum_threshold t ≤ a → quorum_threshold t ≤ b →
       live_stake t ≠ 2 → live_stake t < a + b).
Proof.
  intros [H0 Hlt]. unfold quorum_threshold. rewrite total_stake_live by done.
  destruct (N.eqb_spec (live_stake t) 0); [lia|].
  pose proof (N.div_mod (live_stake t) 3 ltac:(done)) as E.
  pose proof (N.mod_lt (live_stake t) 3 ltac:(done)) as Hm.
  set (q := live_stake t / 3) in *. set (r := live_stake t mod 3) in *.
  split_and!; [lia| |intros; lia]. lia.
Qed.

(** ** Slashing is permanent *)

Context {HX : Hex} {HL : HexLaws HX}.

(** [AccountId]s are 32 bytes. *)
Definition keys_ok (t : StakeTable) : Prop := ∀ k e, operators t !! k = Some e → k < 2 ^ 256.

Lemma to_snapshot_lookup t : keys_ok t → ∀ h e,
  to_snapshot t !! h = Some e ↔ ∃ k, h = hex_encode (id_bytes k) ∧ operators t !! k = Some e.
Proof.
  intros Hok h e. unfold to_snapshot.
  assert (G : ∀ l (m : gmap bytes OperatorEntry), NoDup l.*1 → Forall (λ ke, ke.1 < 2 ^ 256) l →
    fold_left (λ m ke, <[hex_encode (id_bytes ke.1) := ke.2]> m) l m !! h = Some e ↔
    (∃ k, h = hex_encode (id_bytes k) ∧ (k, e) ∈ l)
    ∨ (m !! h = Some e ∧ ∀ k e', (k, e') ∈ l → h ≠ hex_encode (id_bytes k))).
  { induction l as [|[k e0] l IH]; intros m Hnd Hf; cbn [fold_left].
    { split; [intros Hm; right; split; [done|]; intros ? ? Hin; by apply elem_of_nil in Hin|].
      intros [(k & _ & Hin)|[? _]]; [by apply elem_of_nil in Hin|done]. }
    cbn in Hnd. apply NoDup_cons in Hnd as [Hk Hnd]. apply Forall_cons in Hf as [Hk256 Hf].
    cbn in Hk256. rewrite IH by done. cbn [fst snd].
    assert (Hinj : ∀ j e', (j, e') ∈ l → hex_encode (id_bytes j) ≠ hex_encode (id_bytes k)).
    { intros j e' Hin E. apply (f_equal hex_decode) in E. rewrite !hex_roundtrip in E.
      apply (inj Some) in E. apply id_bytes_inj in E as ->; [|by apply (proj1 (Forall_forall _ _) Hf (j, e'))|done].
      apply Hk, list_elem_of_fmap. by exists (k, e'). }
    split.
    - intros [(j & -> & Hin)|[Hm Hn]]; [left; exists j; split; [done|by right]|].
      apply lookup_insert_Some in Hm as [[<- <-]|[Hne Hm]].
      + left. exists k. split; [done|by left].
      + right. split; [done|]. intros j e' [[= -> ->]|Hin]%elem_of_cons; [done|eauto].
    - intros [(j & -> & [[= -> ->]|Hin]%elem_of_cons)|[Hm Hn]].
      + right. split; [by rewrite lookup_insert_eq|]. intros j e' Hin E. symmetry in E.
        by eapply Hinj.
      + left. eauto.
      + right. split; [|intros j e' Hin; apply (Hn j e'); by right].
        rewrite lookup_insert_ne; [done|]. intros E. apply (Hn k e0); [by left|done]. }
  rewrite G; [|apply hm_keys_NoDup|].
  - rewrite lookup_empty. setoid_rewrite elem_of_hm_iter. naive_solver.
  - apply Forall_forall. intros [k e'] Hin%elem_of_hm_iter. by eapply Hok.
Qed.

Lemma snapshot_iter_spec (m : gmap bytes OperatorEntry) :
  NoDup (snapshot_iter m).*1 ∧ ∀ h e, (h, e) ∈ snapshot_iter m ↔ m !! h = Some e.
Proof.
  unfold snapshot_iter. split; [rewrite sort_by_perm; apply NoDup_fst_map_to_list|].
  intros h e. rewrite sort_by_perm. apply elem_of_map_to_list.
Qed.

Lemma load_entry_hex acc k e : k < 2 ^ 256 → load_entry acc (hex_encode (id_bytes k), e)
  = (<[k := e]> acc.1, match slash_nonce e with Some n => N.max acc.2 n | None => acc.2 end).
Proof.
  intros Hk. unfold load_entry. cbn [fst snd]. rewrite hex_roundtrip, length_id_bytes. cbn [Nat.eqb negb].
  by rewrite of_be_id_bytes.
Qed.

(** Loading entries whose keys are hex account ids. *)
Lemma load_entries_spec (l : list (bytes * OperatorEntry)) : ∀ acc, NoDup l.*1 →
  (∀ h e, (h, e) ∈ l → ∃ k, h = hex_encode (id_bytes k) ∧ k < 2 ^ 256) →
  (∀ k e, k < 2 ^ 256 → (fold_left load_entry l acc).1 !! k = Some e ↔
     (hex_encode (id_bytes k), e) ∈ l
     ∨ (acc.1 !! k = Some e ∧ ∀ e', (hex_encode (id_bytes k), e') ∉ l))
  ∧ (∀ k e, 2 ^ 256 ≤ k → (fold_left load_entry l acc).1 !! k = Some e ↔ acc.1 !! k = Some e)
  ∧ acc.2 ≤ (fold_left load_entry l acc).2
  ∧ (∀ h e n, (h, e) ∈ l → slash_nonce e = Some n → n ≤ (fold_left load_entry l acc).2)
  ∧ ((fold_left load_entry l acc).2 = acc.2
     ∨ ∃ h e, (h, e) ∈ l ∧ slash_nonce e = Some (fold_left load_entry l acc).2).
Proof.
  induction l as [|[h e0] l IH]; intros acc Hnd Hh; cbn [fold_left].
  { split_and!; [..|by left]; try done.
    - intros k e _. split; [intros Ha; right; split; [done|by intros ? ?%elem_of_nil]|].
      by intros [?%elem_of_nil|[? _]].
    - intros ? ? ? ?%elem_of_nil. done. }
  destruct (Hh h e0 ltac:(by left)) as (k0 & -> & Hk0).
  cbn in Hnd. apply NoDup_cons in Hnd as [Hnin Hnd].
  rewrite load_entry_hex by done. set (acc' := (_, _)).
  destruct (IH acc' Hnd) as (H1 & H2 & H3 & H4 & H5); [intros h e Hin; apply (Hh h e); by right|].
  assert (Hacc : acc.2 ≤ acc'.2 ∧ ∀ n, slash_nonce e0 = Some n → n ≤ acc'.2).
  { unfold acc'; cbn. split; [destruct (slash_nonce e0); lia|intros n ->; lia]. }
  split_and!.
  - intros k e Hk. rewrite (H1 k e Hk). unfold acc' at 1; cbn [fst].
    destruct (decide (k = k0)) as [->|Hne].
    + rewrite lookup_insert_eq.
      assert (Hno : ∀ e', (hex_encode (id_bytes k0), e') ∉ l).
      { intros e' Hin. apply Hnin, list_elem_of_fmap. by exists (hex_encode (id_bytes k0), e'). }
      split.
      * intros [Hin|[[= ->] _]]; left; [by apply Hno in Hin|by left].
      * intros [[[= ->]|Hin]%elem_of_cons|[_ Hn]]; [by right|by apply Hno in Hin|].
        exfalso. apply (Hn e0). by left.
    + rewrite lookup_insert_ne by done.
      assert (Hx : ∀ e', (hex_encode (id_bytes k), e') ∈ (hex_encode (id_bytes k0), e0) :: l ↔
                         (hex_encode (id_bytes k), e') ∈ l).
      { intros e'. rewrite elem_of_cons. split; [|by right]. intros [[= E _]|]; [|done].
        apply (f_equal hex_decode) in E. rewrite !hex_roundtrip in E. apply (inj Some) in E.
        by apply id_bytes_inj in E. }
      setoid_rewrite Hx. done.
  - intros k e Hk. rewrite (H2 k e Hk). unfold acc'; cbn [fst].
    rewrite lookup_insert_ne; [done|lia].
  - lia.
  - intros h e n [[= -> ->]|Hin]%elem_of_cons Hs; [|by eapply H4].
    destruct Hacc as [_ Hacc]. specialize (Hacc n Hs). lia.
  - destruct H5 as [->|(h & e & Hin & Hs)]; [|right; exists h, e; split; [by right|done]].
    unfold acc'; cbn [snd]. destruct (slash_nonce e0) as [n|] eqn:Es; [|by left].
    destruct (N.max_spec acc.2 n) as [[_ ->]|[_ ->]]; [|by left].
    right. eexists _, e0. split; [by left|done].
Qed.

(** Every recorded slash nonce is below the counter. *)
Definition nonces_ok (t : StakeTable) : Prop :=
  ∀ k e n, operators t !! k = Some e → slash_nonce e = Some n → n < slash_counter t.

(** C15: a snapshot restores every operator's stake and slash state exactly, and the new
    slash counter is above every nonce it restores (as long as the 64-bit counter has not
    wrapped), whatever order the table is written in. *)
Theorem snapshot_roundtrip (t : StakeTable) (c : StakingConfig) :
  keys_ok t → nonces_ok t → slash_counter t < 2 ^ 64 →
  operators (from_snapshot c (to_snapshot t)) = operators t
  ∧ config (from_snapshot c (to_snapshot t)) = c
  ∧ nonces_ok (from_snapshot c (to_snapshot t))
  ∧ slash_counter (from_snapshot c (to_snapshot t)) ≤ N.max 1 (slash_counter t).
Proof.
  intros Hok Hn Hc. destruct (snapshot_iter_spec (to_snapshot t)) as [Hnd Hin].
  destruct (load_entries_spec (snapshot_iter (to_snapshot t)) (∅, 0) Hnd)
    as (H1 & H2 & _ & H4 & H5).
  { intros h e (k & -> & Hk)%Hin%(to_snapshot_lookup t Hok). exists k. split; [done|by eapply Hok]. }
  unfold from_snapshot. destruct (fold_left load_entry _ _) as [ops mx] eqn:E. cbn [fst snd] in *.
  assert (Hlk : ∀ k, ops !! k = operators t !! k).
  { intros k. apply option_eq. intros e. destruct (N.lt_ge_cases k (2 ^ 256)) as [Hk|Hk].
    - rewrite (H1 k e Hk), Hin, (to_snapshot_lookup t Hok). split.
      + intros [(j & Ej & Hj)|[He _]]; [|by rewrite lookup_empty in He].
        apply (f_equal hex_decode) in Ej. rewrite !hex_roundtrip in Ej. apply (inj Some) in Ej.
        apply id_bytes_inj in Ej as ->; [done|done|by eapply Hok].
      + intros He. left. by exists k.
    - rewrite (H2 k e Hk), lookup_empty. split; [done|]. intros He%Hok. lia. }
  assert (mx < 2 ^ 64 - 1 ∧ mx + 1 ≤ N.max 1 (slash_counter t)) as [Hmx Hle].
  { destruct H5 as [->|(h & e & (k & -> & Hk)%Hin%(to_snapshot_lookup t Hok) & Hs)]; [lia|].
    specialize (Hn k e _ Hk Hs). lia. }
  cbn [operators config slash_counter]. split_and!.
  - by apply map_eq.
  - done.
  - intros k e n Hk Hs. cbn [operators slash_counter] in *. rewrite wadd_small by lia.
    rewrite Hlk in Hk. pose proof (H4 (hex_encode (id_bytes k)) e n) as Hb.
    rewrite Hin in Hb. assert (n ≤ mx); [|lia]. apply Hb; [|done].
    apply (to_snapshot_lookup t Hok). by exists k.
  - rewrite wadd_small by lia. done.
Qed.

(** What can happen to a stake table: staking, slashing, a restart from disk. *)
Inductive op := OpStake (who amount : N) | OpSlash (who : N) | OpRestart (c : StakingConfig).

Definition op_ok (o : op) : Prop :=
  match o with OpStake w _ | OpSlash w => w < 2 ^ 256 | OpRestart _ => True end.

Definition step (t : StakeTable) (o : op) : StakeTable :=
  match o with
  | OpStake w a => (lock_stake t w a).1
  | OpSlash w => (slash t w).1
  | OpRestart c => from_snapshot c (to_snapshot t)
  end.

Lemma keys_ok_insert t k e c n : k < 2 ^ 256 → keys_ok t →
  keys_ok {| config := c; operators := <[k := e]> (operators t); slash_counter := n |}.
Proof.
  intros Hk Ht j e'. cbn [operators].
  intros [[<- _]|[_ Hj]]%lookup_insert_Some; [done|by eapply Ht].
Qed.

(** Restarting keeps the operators of any table, whatever its counter. *)
Lemma restart_operators t c : keys_ok t →
  operators (from_snapshot c (to_snapshot t)) = operators t.
Proof.
  intros Hok. destruct (snapshot_iter_spec (to_snapshot t)) as [Hnd Hin].
  destruct (load_entries_spec (snapshot_iter (to_snapshot t)) (∅, 0) Hnd) as (H1 & H2 & _).
  { intros h e (k & -> & Hk)%Hin%(to_snapshot_lookup t Hok). exists k. split; [done|by eapply Hok]. }
  unfold from_snapshot. destruct (fold_left load_entry _ _) as [ops mx]. cbn [fst snd operators] in *.
  apply map_eq. intros k. apply option_eq. intros e. destruct (N.lt_ge_cases k (2 ^ 256)) as [Hk|Hk].
  - rewrite (H1 k e Hk), Hin, (to_snapshot_lookup t Hok). split.
    + intros [(j & Ej & Hj)|[He _]]; [|by rewrite lookup_empty in He].
      apply (f_equal hex_decode) in Ej. rewrite !hex_roundtrip in Ej. apply (inj Some) in Ej.
      apply id_bytes_inj in Ej as ->; [done|done|by eapply Hok].
    + intros He. left. by exists k.
  - rewrite (H2 k e Hk), lookup_empty. split; [done|]. intros He%Hok. lia.
Qed.

Lemma step_keys_ok t o : op_ok o → keys_ok t → keys_ok (step t o).
Proof.
  intros Ho Ht. destruct o as [w a|w|c]; cbn [step].
  - by apply keys_ok_insert.
  - by apply keys_ok_insert.
  - intros k e. rewrite restart_operators by done. apply Ht.
Qed.

Lemma is_slashed_spec t w :
  is_slashed t w = true ↔ ∃ e n, operators t !! w = Some e ∧ slash_nonce e = Some n.
Proof.
  unfold is_slashed. destruct (operators t !! w) as [e|]; [|naive_solver].
  rewrite bool_decide_eq_true. split; [intros [n Hn]; eauto|intros (? & n & [= <-] & ?); by exists n].
Qed.

Lemma step_slashed t o w : keys_ok t → is_slashed t w = true → is_slashed (step t o) w = true.
Proof.
  rewrite !is_slashed_spec. intros Ht (e & n & He & Hn). destruct o as [v a|v|c]; cbn [step lock_stake slash fst operators].
  - destruct (decide (v = w)) as [->|]; [|by exists e, n; rewrite lookup_insert_ne].
    rewrite lookup_insert_eq. unfold entry_or_default. rewrite He. eexists _, n. split; [done|done].
  - destruct (decide (v = w)) as [->|]; [|by exists e, n; rewrite lookup_insert_ne].
    rewrite lookup_insert_eq. eexists _, _. done.
  - rewrite restart_operators by done. by exists e, n.
Qed.

(** C9: slashing is final: it burns the whole stake of the operator, and after any later
    stakes, slashes and restarts the operator is still slashed and is not eligible, even
    if it locks new stake. *)
Theorem slashing_is_permanent (t : StakeTable) (w : N) (ops : list op) :
  keys_ok t → w < 2 ^ 256 → Forall op_ok ops →
  (slash t w).2.2 = get_stake t w
  ∧ get_stake (slash t w).1 w = 0
  ∧ let t' := fold_left step ops (slash t w).1 in
    is_slashed t' w = true ∧ is_staked t' w = false.
Proof.
  intros Ht Hw Hops.
  assert (Hkey : keys_ok (slash t w).1) by (by apply keys_ok_insert).
  assert (Hsl : is_slashed (slash t w).1 w = true).
  { apply is_slashed_spec. eexists _, _. split; [apply lookup_insert_eq|done]. }
  split_and!.
  - cbn. unfold entry_or_default, get_stake. by destruct (operators t !! w).
  - unfold get_stake. cbn. by rewrite lookup_insert_eq.
  - cbn zeta. assert (H : is_slashed (fold_left step ops (slash t w).1) w = true).
    { revert Hops Hkey Hsl. generalize (slash t w).1. induction ops as [|o ops IH]; intros u Ho Hk Hs; [done|].
      apply Forall_cons in Ho as [? ?]. cbn [fold_left].
      apply IH; [done|by apply step_keys_ok|by apply step_slashed]. }
    split; [done|]. apply is_slashed_spec in H as (e & n & He & Hn).
    unfold is_staked. rewrite He. unfold is_staked_inner. rewrite Hn.
    rewrite bool_decide_true by (by eexists). apply andb_false_r.
Qed.

(** ** The commitment *)

(** What the certificate's [stake_root] is meant to bind: stake and slash flag. *)
Definition visible (t : StakeTable) (k : N) : option (N * bool) :=
  (λ e, (stake e, bool_decide (is_Some (slash_nonce e)))) <$> operators t !! k.

Definition stakes_ok (t : StakeTable) : Prop :=
  ∀ k e, operators t !! k = Some e → k < 2 ^ 256 ∧ stake e < 2 ^ 128.

Lemma elem_of_table_items t kv :
  kv ∈ table_items t ↔ ∃ k e, operators t !! k = Some e ∧ kv = (id_bytes k, entry_bytes e).
Proof.
  unfold table_items. rewrite sort_by_perm, list_elem_of_fmap. split.
  - intros ([k e] & -> & Hin%elem_of_hm_iter). by exists k, e.
  - intros (k & e & Hk & ->). exists (k, e). split; [done|by apply elem_of_hm_iter].
Qed.

Lemma table_items_NoDup t : stakes_ok t → NoDup (table_items t).*1.
Proof.
  intros Hok. unfold table_items. rewrite sort_by_perm, <- list_fmap_compose.
  apply NoDup_fmap_2_strong; [|auto with fluidic].
  intros [k e] [k' e'] Hk%elem_of_hm_iter Hk'%elem_of_hm_iter E. cbn in E.
  apply id_bytes_inj in E as ->; [congruence|by eapply Hok..].
Qed.

Lemma entry_bytes_inj e e' : stake e < 2 ^ 128 → stake e' < 2 ^ 128 →
  entry_bytes e = entry_bytes e' →
  (stake e, bool_decide (is_Some (slash_nonce e))) = (stake e', bool_decide (is_Some (slash_nonce e'))).
Proof.
  intros H1 H2 E. unfold entry_bytes in E. apply (field_app_inj 16) in E as [Es Ef]; [|by autorewrite with bytes_len..].
  assert (stake e = stake e') as ->.
  { unfold u128_be, be_bytes in Es. apply (f_equal (@rev byte)) in Es.
    rewrite !rev_involutive in Es. by apply (le_bytes_inj 16). }
  by destruct (bool_decide (is_Some (slash_nonce e))), (bool_decide (is_Some (slash_nonce e'))).
Qed.

Lemma table_items_sub t t' k : stakes_ok t → stakes_ok t' → table_items t ≡ₚ table_items t' →
  ∀ v, visible t k = Some v → visible t' k = Some v.
Proof.
  intros Hok Hok' Hp v Hv. unfold visible in *. apply fmap_Some in Hv as (e & Hk & ->).
  assert (Hin : (id_bytes k, entry_bytes e) ∈ table_items t').
  { rewrite <- Hp. apply elem_of_table_items. by exists k, e. }
  apply elem_of_table_items in Hin as (k' & e' & Hk' & E).
  pose proof (f_equal fst E) as E1. pose proof (f_equal snd E) as E2. cbn [fst snd] in E1, E2.
  destruct (Hok k e Hk), (Hok' k' e' Hk').
  apply id_bytes_inj in E1 as <-; [|done..]. rewrite Hk'. cbn. f_equal. symmetry.
  by apply entry_bytes_inj.
Qed.

(** The stake root signed in every certificate commits to the stake table: nodes
    that agree on it agree on every operator's stake and slash flag, whatever order
    their hash tables iterate in, or exhibit a BLAKE3 collision. *)
Theorem stake_root_binding {C : Crypto} {LC : CryptoLaws C} (t t' : StakeTable) :
  stakes_ok t → stakes_ok t' → table_root t = table_root t' →
  (∀ k, visible t k = visible t' k) ∨ collision.
Proof.
  intros Hok Hok' E.
  assert (HD : ∀ u, Forall (λ kv, length kv.1 = 32%nat) (table_items u)).
  { intros u. apply Forall_forall. intros kv (k & e & _ & ->)%elem_of_table_items. apply length_id_bytes. }
  destruct (root_binding_D (λ kv, length kv.1 = 32%nat)) with (table_items t) (table_items t')
    as [Hp|]; [| | | | | | |by right].
  - intros [k v] [k' v'] H1 H2. cbn in *. intros [-> ->]%(app_inj_1 k); [done|congruence].
  - apply HD.
  - apply HD.
  - by apply table_items_NoDup.
  - by apply table_items_NoDup.
  - done.
  - left. intros k. apply option_eq. intros v. split; apply table_items_sub; done.
Qed.
End lemmas.

(** ** Witnesses *)

(** A hex codec, for the witnesses. *)
Definition nibble (n : N) : byte := byte_of (if n <? 10 then 48 + n else 87 + n).
Definition of_nibble (b : byte) : option N :=
  let c := Byte.to_N b in
  if (48 <=? c) && (c <? 58) then Some (c - 48)
  else if (97 <=? c) && (c <? 103) then Some (c - 87)
  else if (65 <=? c) && (c <? 71) then Some (c - 55) else None.
Fixpoint lower_hex (bs : bytes) : bytes :=
  match bs with
  | [] => []
  | b :: bs => nibble (Byte.to_N b / 16) :: nibble (Byte.to_N b mod 16) :: lower_hex bs
  end.
Fixpoint parse_hex (bs : bytes) : option bytes :=
  match bs with
  | [] => Some []
  | [_] => None
  | a :: b :: bs =>
      x ← of_nibble a; y ← of_nibble b; r ← parse_hex bs; Some (byte_of (16 * x + y) :: r)
  end.
Definition plain_hex : Hex := {| hex_encode := lower_hex; hex_decode := parse_hex |}.

#[export] Instance plain_hex_laws : HexLaws plain_hex.
Proof.
  intros bs. induction bs as [|b bs IH]; [done|]. cbn [hex_encode hex_decode plain_hex] in *.
  cbn [lower_hex parse_hex]. rewrite IH. by destruct b.
Qed.

Definition sample_table : StakeTable :=
  {| config := {| min_stake := 100 |};
     operators := {[ 1 := {| stake := 500; slash_nonce := None |};
                     2 := {| stake := 300; slash_nonce := None |};
                     3 := {| stake := 0; slash_nonce := Some 0 |} ]};
     slash_counter := 1 |}.

Lemma sample_table_cases k e : operators sample_table !! k = Some e →
  (k = 1 ∨ k = 2 ∨ k = 3) ∧ stake e ≤ 500 ∧ (slash_nonce e = None ∨ slash_nonce e = Some 0).
Proof.
  unfold sample_table; cbn [operators].
  intros [[<- <-]|[_ [[<- <-]|[_ [<- <-]%lookup_singleton_Some]]%lookup_insert_Some]]%lookup_insert_Some;
    cbn; (split; [lia|]); (split; [lia|]); auto.
Qed.

Lemma quorum_threshold_witness :
  0 < live_stake sample_table < 2 ^ 128 ∧
  (@quorum_threshold map_order sample_table ≤ live_stake sample_table
  ∧ (2 * live_stake sample_table < 3 * @quorum_threshold map_order sample_table
     ↔ live_stake sample_table mod 3 ≠ 2)
  ∧ (∀ a b, @quorum_threshold map_order sample_table ≤ a → @quorum_threshold map_order sample_table ≤ b →
       live_stake sample_table ≠ 2 → live_stake sample_table < a + b)).
Proof.
  assert (H : 0 < live_stake sample_table < 2 ^ 128) by (vm_compute; done).
  split; [exact H|]. apply (@quorum_threshold_spec map_order sample_table H).
Defined.

Lemma snapshot_roundtrip_witness :
  let t := sample_table in let c := default_config in
  let r := @from_snapshot plain_hex c (@to_snapshot map_order plain_hex t) in
  operators r = operators t ∧ config r = c ∧ nonces_ok r
  ∧ slash_counter r ≤ N.max 1 (slash_counter t).
Proof.
  intros t c r. apply (@snapshot_roundtrip map_order plain_hex plain_hex_laws t c).
  - intros k e [H _]%sample_table_cases. lia.
  - intros k e n (_ & _ & [H|H])%sample_table_cases; rewrite H; intros [= <-]. vm_compute. done.
  - vm_compute. reflexivity.
Defined.

Lemma slashing_witness :
  let ops := [OpStake 1 900; OpRestart default_config; OpSlash 2; OpStake 1 901] in
  (slash sample_table 1).2.2 = get_stake sample_table 1
  ∧ get_stake (slash sample_table 1).1 1 = 0
  ∧ let t' := fold_left (@step map_order plain_hex) ops (slash sample_table 1).1 in
    is_slashed t' 1 = true ∧ is_staked t' 1 = false.
Proof.
  intros ops. apply (@slashing_is_permanent map_order plain_hex plain_hex_laws sample_table 1 ops).
  - intros k e [H _]%sample_table_cases. lia.
  - vm_compute. reflexivity.
  - repeat constructor; vm_compute; reflexivity.
Defined.

Lemma stake_root_witness :
  (∀ k, visible sample_table k = visible sample_table k) ∨ @collision lawful_crypto.
Proof.
  apply (@stake_root_binding map_order lawful_crypto lawful_crypto_laws sample_table sample_table).
  1, 2: intros k e (H & Hs & _)%sample_table_cases; lia.
  reflexivity.
Defined.
