(* ===== verification/Rewards.v ===== *)
(** * The reward pool (src/src/operator/rewards.rs)

    Proved: a distribution pays out at most what was burned, half of it to the
    liquidity pool, and each operator its floor share; across any history of
    distributions and claims no more leaves or stays in the pool than was put in. *)
From S2P Require Import Prelude Bytes Crypto Signals Merkle Stake.
Local Open Scope N_scope.

Definition OPERATOR_REWARD_BASIS_POINTS : N := 5000.
Definition LP_REWARD_BASIS_POINTS : N := 5000.

Record RewardPool := {
  rewards : gmap N N;
  lp_rewards : gmap N N;
}.

Definition pool_new : RewardPool := {| rewards := ∅; lp_rewards := ∅ |}.

(** The operator loop: [if share > 0 { *entry(operator).or_insert(0) += share }]. *)
Definition pay_operator (reward_amount total : N) (rw : gmap N N) (os : N * N) : gmap N N :=
  let share := sat_mul 128 reward_amount os.2 / total in
  if 0 <? share then entry_add os.1 share rw else rw.

Section pool.
Context {HO : HashOrder}.

Definition distribute (p : RewardPool) (burned : N) (t : StakeTable) : RewardPool :=
  if burned =? 0 then p else
  let lp_amount := sat_mul 128 burned LP_REWARD_BASIS_POINTS / 10000 in
  let lp := if 0 <? lp_amount then entry_add DEFAULT_DEX_DOMAIN lp_amount (lp_rewards p)
            else lp_rewards p in
  let reward_amount := sat_mul 128 burned OPERATOR_REWARD_BASIS_POINTS / 10000 in
  if reward_amount =? 0 then {| rewards := rewards p; lp_rewards := lp |} else
  let staked := staked_operators t in
  let total := wsum (map snd staked) in
  if total =? 0 then {| rewards := rewards p; lp_rewards := lp |} else
  {| rewards := fold_left (pay_operator reward_amount total) staked (rewards p);
     lp_rewards := lp |}.

Definition distribute_fees (p : RewardPool) (fees : N) (t : StakeTable) : RewardPool :=
  distribute p fees t.

Definition balance (p : RewardPool) (op : N) : N := default 0 (rewards p !! op).

Definition claim (p : RewardPool) (op : N) : RewardPool * N :=
  ({| rewards := delete op (rewards p); lp_rewards := lp_rewards p |}, balance p op).

Definition lp_reward_balance (p : RewardPool) (pool_id : N) : N := default 0 (lp_rewards p !! pool_id).

Definition claim_lp_reward (p : RewardPool) (pool_id : N) : RewardPool * N :=
  ({| rewards := rewards p; lp_rewards := delete pool_id (lp_rewards p) |},
   lp_reward_balance p pool_id).

Definition pool_items (p : RewardPool) : list (bytes * bytes) :=
  sort_by item_le
    (map (λ kv, (id_bytes kv.1, u128_be kv.2)) (hm_iter (rewards p))
     ++ map (λ kv, (ascii "lp:" ++ id_bytes kv.1, u128_be kv.2)) (hm_iter (lp_rewards p))).

Definition pool_root {C : Crypto} (p : RewardPool) : option N := root (pool_items p).
End pool.

(** ** Payouts *)

Definition share_of (reward_amount total stake : N) : N := sat_mul 128 reward_amount stake / total.

Lemma shares_le r total (l : list (N * N)) : total ≠ 0 → Nsum (map snd l) ≤ total →
  Nsum (map (λ os, share_of r total os.2) l) ≤ r.
Proof.
  intros Ht Hs.
  assert (H : total * Nsum (map (λ os, share_of r total os.2) l) ≤ r * Nsum (map snd l)).
  { clear Hs. induction l as [|[o s] l IH]; cbn [map Nsum snd]; [lia|].
    assert (total * share_of r total s ≤ r * s).
    { unfold share_of. etransitivity; [apply N.Div0.mul_div_le|]. apply sat_mul_le. }
    lia. }
  apply (N.mul_le_mono_pos_l _ _ total); [lia|]. etransitivity; [exact H|].
  rewrite (N.mul_comm total r). by apply N.mul_le_mono_l.
Qed.

Lemma pay_all_spec r total l : ∀ rw, NoDup l.*1 →
  msum rw + Nsum (map (λ os, share_of r total os.2) l) < 2 ^ 128 →
  msum (fold_left (pay_operator r total) l rw)
    = msum rw + Nsum (map (λ os, share_of r total os.2) l)
  ∧ ∀ op, default 0 (fold_left (pay_operator r total) l rw !! op)
          = default 0 (rw !! op)
            + Nsum (map (λ os, if os.1 =? op then share_of r total os.2 else 0) l).
Proof.
  induction l as [|[o s] l IH]; intros rw Hnd Hlt; cbn [fold_left map Nsum fst snd] in *.
  { split; [lia|]. intros op. lia. }
  cbn in Hnd. apply NoDup_cons in Hnd as [_ Hnd].
  set (rw' := pay_operator r total rw (o, s)).
  assert (Hm : msum rw' = msum rw + share_of r total s).
  { unfold rw', pay_operator. cbn [fst snd]. fold (share_of r total s).
    destruct (N.ltb_spec 0 (share_of r total s)); [|lia]. apply msum_entry_add. lia. }
  assert (Hl : ∀ op, default 0 (rw' !! op)
                     = default 0 (rw !! op) + if o =? op then share_of r total s else 0).
  { intros op. unfold rw', pay_operator. cbn [fst snd]. fold (share_of r total s).
    destruct (N.eqb_spec o op) as [->|Hne], (N.ltb_spec 0 (share_of r total s)); try lia.
    - rewrite entry_add_lookup. cbn. apply wadd_small.
      pose proof (msum_lookup_le rw op). lia.
    - rewrite entry_add_lookup_ne by done. lia. }
  destruct (IH rw' Hnd) as [H1 H2]; [lia|]. split; [lia|].
  intros op. rewrite H2, Hl. lia.
Qed.

(** In a list with distinct keys, the sum over the entries at [op] is that of its entry. *)
Lemma Nsum_pick (f : N → N) (op : N) (l : list (N * N)) : NoDup l.*1 →
  (∀ s, (op, s) ∈ l → Nsum (map (λ os, if os.1 =? op then f os.2 else 0) l) = f s)
  ∧ ((∀ s, (op, s) ∉ l) → Nsum (map (λ os, if os.1 =? op then f os.2 else 0) l) = 0).
Proof.
  induction l as [|[o s] l IH]; intros Hnd; cbn [map Nsum fst snd].
  { split; [intros s Hs; by apply elem_of_nil in Hs|done]. }
  cbn in Hnd. apply NoDup_cons in Hnd as [Ho Hnd]. destruct (IH Hnd) as [I1 I2].
  assert (Hno : ∀ s', o = op → (op, s') ∉ l).
  { intros s' -> Hin. apply Ho, list_elem_of_fmap. by exists (op, s'). }
  split.
  - intros s' [[= <- <-]|Hin]%elem_of_cons.
    + rewrite N.eqb_refl, I2 by (intros; by apply Hno). lia.
    + destruct (N.eqb_spec o op) as [->|]; [by apply Hno in Hin|]. rewrite (I1 s' Hin). lia.
  - intros Hn. destruct (N.eqb_spec o op) as [->|]; [exfalso; apply (Hn s); by left|].
    rewrite I2; [lia|]. intros s' Hin. apply (Hn s'). by right.
Qed.

Section theorems.
Context {HO : HashOrder}.

(** Everything an operator's account or pool can be paid. *)
Definition pool_total (p : RewardPool) : N := msum (rewards p) + msum (lp_rewards p).

(** The stakes that take part, as an exact sum. *)
Definition eligible_stake (t : StakeTable) : N := Nsum (map snd (staked_operators t)).

Lemma staked_NoDup t : NoDup (staked_operators t).*1.
Proof.
  unfold staked_operators. rewrite <- list_fmap_compose.
  change (fst ∘ (λ ke : N * OperatorEntry, (ke.1, stake ke.2))) with (@fst N OperatorEntry).
  pose proof (hm_keys_NoDup (operators t)) as H. unfold hm_keys in H. revert H.
  generalize (hm_iter (operators t)). intros l. induction l as [|[k e] l IH]; [done|].
  cbn. intros [Hk Hnd]%NoDup_cons. destruct (is_staked_inner t e); [|by apply IH].
  cbn. apply NoDup_cons. split; [|by apply IH].
  intros Hin. apply Hk. apply list_elem_of_fmap in Hin as (ke & -> & Hin).
  apply list_elem_of_fmap. exists ke. split; [done|].
  apply list_elem_of_In. by apply list_elem_of_In, filter_In in Hin as [? _].
Qed.

Lemma elem_of_staked t op s :
  (op, s) ∈ staked_operators t ↔ is_staked t op = true ∧ s = get_stake t op.
Proof.
  unfold staked_operators. rewrite list_elem_of_fmap. unfold is_staked, get_stake.
  setoid_rewrite list_elem_of_In. setoid_rewrite filter_In. setoid_rewrite <- list_elem_of_In.
  split.
  - intros ([k e] & [= -> ->] & [Hk%elem_of_hm_iter Hs]). by rewrite Hk.
  - destruct (operators t !! op) as [e|] eqn:Ho; [|by intros [? _]]. intros [Hs ->].
    exists (op, e). split; [done|]. split; [by apply elem_of_hm_iter|done].
Qed.

Lemma half_amount burned : sat_mul 128 burned 5000 / 10000 ≤ burned / 2.
Proof.
  transitivity (burned * 5000 / 10000).
  - apply N.Div0.div_le_mono, sat_mul_le.
  - replace (burned * 5000) with (5000 * burned) by lia. change 10000 with (5000 * 2).
    rewrite N.Div0.div_mul_cancel_l by done. lia.
Qed.

Lemma distribute_bound p burned t :
  eligible_stake t < 2 ^ 128 → pool_total p + burned < 2 ^ 128 →
  pool_total (distribute p burned t) ≤ pool_total p + burned.
Proof.
  intros He Hlt. unfold distribute. destruct (N.eqb_spec burned 0) as [->|Hb]; [lia|].
  pose proof (half_amount burned) as Hhalf. unfold LP_REWARD_BASIS_POINTS, OPERATOR_REWARD_BASIS_POINTS.
  set (r := sat_mul 128 burned 5000 / 10000) in *. assert (2 * (burned / 2) ≤ burned) by apply N.Div0.mul_div_le.
  unfold pool_total in *.
  assert (Hlp : msum (if 0 <? r then entry_add DEFAULT_DEX_DOMAIN r (lp_rewards p) else lp_rewards p)
                = msum (lp_rewards p) + r).
  { destruct (N.ltb_spec 0 r); [|lia]. apply msum_entry_add. lia. }
  destruct (N.eqb_spec r 0); [cbn [rewards lp_rewards]; lia|].
  fold (eligible_stake t) in *. rewrite wsum_exact by done.
  destruct (N.eqb_spec (Nsum (map snd (staked_operators t))) 0); cbn [rewards lp_rewards]; [lia|].
  pose proof (shares_le r _ (staked_operators t) ltac:(eassumption) ltac:(reflexivity)).
  destruct (pay_all_spec r (Nsum (map snd (staked_operators t))) (staked_operators t) (rewards p))
    as [H1 _]; [apply staked_NoDup|lia|]. lia.
Qed.

(** What [distribute] pays. The liquidity pool receives half of the burn; every
    eligible operator receives exactly [floor(half * stake / total eligible stake)] (with
    the saturated product), operators that are not eligible receive nothing, and the
    payouts together never exceed the burn. *)
Theorem distribute_spec p burned t op :
  0 < eligible_stake t < 2 ^ 128 → pool_total p + burned < 2 ^ 128 →
  let half := sat_mul 128 burned 5000 / 10000 in
  let p' := distribute p burned t in
  lp_reward_balance p' DEFAULT_DEX_DOMAIN = lp_reward_balance p DEFAULT_DEX_DOMAIN + half
  ∧ balance p' op = balance p op
      + (if is_staked t op then share_of half (eligible_stake t) (get_stake t op) else 0)
  ∧ pool_total p' ≤ pool_total p + burned.
Proof.
  intros [He0 He] Hlt half p'. split_and!; [| |by apply distribute_bound].
  - unfold p', distribute, lp_reward_balance, LP_REWARD_BASIS_POINTS. fold half.
    assert (Hz : burned = 0 → half = 0) by (intros ->; done).
    pose proof (half_amount burned) as Hh. fold half in Hh.
    assert (burned / 2 ≤ burned) by (apply N.Div0.div_le_upper_bound; lia).
    pose proof (msum_lookup_le (lp_rewards p) DEFAULT_DEX_DOMAIN). unfold pool_total in Hlt.
    destruct (N.eqb_spec burned 0) as [Hb|Hb]; [rewrite (Hz Hb); lia|].
    assert (E : default 0 ((if 0 <? half then entry_add DEFAULT_DEX_DOMAIN half (lp_rewards p)
                 else lp_rewards p) !! DEFAULT_DEX_DOMAIN)
              = default 0 (lp_rewards p !! DEFAULT_DEX_DOMAIN) + half).
    { destruct (N.ltb_spec 0 half); [|lia]. apply entry_add_default. lia. }
    destruct (_ =? 0); [done|]. destruct (_ =? 0); done.
  - unfold p', distribute, balance, OPERATOR_REWARD_BASIS_POINTS. fold half.
    assert (Hsh : ∀ r tot, r = 0 → share_of r tot (get_stake t op) = 0).
    { intros r tot ->. unfold share_of. by destruct tot. }
    destruct (N.eqb_spec burned 0) as [Hb|Hb].
    { rewrite Hsh by (unfold half; by rewrite Hb). destruct (is_staked t op); lia. }
    destruct (N.eqb_spec half 0) as [Hz|Hz]; cbn [rewards].
    { rewrite Hsh by done. destruct (is_staked t op); lia. }
    rewrite wsum_exact by done. fold (eligible_stake t).
    destruct (N.eqb_spec (eligible_stake t) 0); [lia|]. cbn [rewards].
    pose proof (shares_le half (eligible_stake t) (staked_operators t) ltac:(done) (N.le_refl _)).
    pose proof (half_amount burned) as Hh. fold half in Hh.
    assert (burned / 2 ≤ burned) by (apply N.Div0.div_le_upper_bound; lia). unfold pool_total in Hlt.
    destruct (pay_all_spec half (eligible_stake t) (staked_operators t) (rewards p)) as [_ ->];
      [apply staked_NoDup|lia|]. f_equal.
    destruct (Nsum_pick (share_of half (eligible_stake t)) op (staked_operators t))
      as [G1 G2]; [apply staked_NoDup|].
    destruct (is_staked t op) eqn:Hst.
    + by apply G1, elem_of_staked.
    + apply G2. intros s [? _]%elem_of_staked. congruence.
Qed.

(** Any history of the pool: distributions under the stake table of the moment, claims by
    operators and by liquidity pools. *)
Inductive pool_op := Distribute (burned : N) (t : StakeTable) | Claim (op : N) | ClaimLp (pool_id : N).

Definition pool_step (p : RewardPool) (o : pool_op) : RewardPool * N :=
  match o with
  | Distribute b t => (distribute p b t, 0)
  | Claim op => claim p op
  | ClaimLp id => claim_lp_reward p id
  end.

Fixpoint pool_run (p : RewardPool) (ops : list pool_op) : RewardPool * N :=
  match ops with
  | [] => (p, 0)
  | o :: ops => let '(p, paid) := pool_step p o in let '(p, rest) := pool_run p ops in (p, paid + rest)
  end.

Definition burned_by (o : pool_op) : N := match o with Distribute b _ => b | _ => 0 end.
Definition pool_op_ok (o : pool_op) : Prop :=
  match o with Distribute _ t => eligible_stake t < 2 ^ 128 | _ => True end.

Lemma msum_delete_default (m : gmap N N) k : msum m = default 0 (m !! k) + msum (delete k m).
Proof.
  destruct (m !! k) as [v|] eqn:E; cbn; [by apply msum_delete|]. by rewrite delete_id.
Qed.

Lemma pool_step_bound p o : pool_op_ok o → pool_total p + burned_by o < 2 ^ 128 →
  pool_total (pool_step p o).1 + (pool_step p o).2 ≤ pool_total p + burned_by o.
Proof.
  intros Ho Hlt. destruct o as [b t|op|id]; cbn [pool_step burned_by fst snd] in *.
  - pose proof (distribute_bound p b t Ho Hlt). lia.
  - unfold claim, pool_total, balance; cbn. pose proof (msum_delete_default (rewards p) op). lia.
  - unfold claim_lp_reward, pool_total, lp_reward_balance; cbn.
    pose proof (msum_delete_default (lp_rewards p) id). lia.
Qed.

(** C10: solvency: over any history, what has been claimed plus what can still be claimed is
    at most what was burned into the pool, and a claim pays the recorded balance and
    leaves zero. *)
Theorem reward_pool_solvent (ops : list pool_op) :
  Forall pool_op_ok ops → Nsum (map burned_by ops) < 2 ^ 128 →
  let '(p, claimed) := pool_run pool_new ops in
  claimed + pool_total p ≤ Nsum (map burned_by ops)
  ∧ ∀ op, (claim p op).2 = balance p op ∧ balance (claim p op).1 op = 0
          ∧ ∀ op', op' ≠ op → balance (claim p op).1 op' = balance p op'.
Proof.
  intros Hok Hlt.
  assert (G : ∀ ops p, Forall pool_op_ok ops → pool_total p + Nsum (map burned_by ops) < 2 ^ 128 →
    (pool_run p ops).2 + pool_total (pool_run p ops).1 ≤ pool_total p + Nsum (map burned_by ops)).
  { clear. induction ops as [|o ops IH]; intros p Hok Hlt; cbn [pool_run map Nsum fst snd] in *; [lia|].
    apply Forall_cons in Hok as [Ho Hok]. pose proof (pool_step_bound p o Ho ltac:(lia)) as Hs.
    destruct (pool_step p o) as [p1 paid]. cbn [fst snd] in Hs.
    specialize (IH p1 Hok ltac:(lia)). destruct (pool_run p1 ops) as [p2 rest]. cbn [fst snd] in *. lia. }
  specialize (G ops pool_new Hok). 
  assert (E : pool_total pool_new = 0) by (unfold pool_total, pool_new; cbn [rewards lp_rewards]; by rewrite !(msum_empty (K:=N))).
  rewrite E in G. specialize (G Hlt). destruct (pool_run pool_new ops) as [p claimed]. cbn [fst snd] in G.
  split; [lia|]. intros op. unfold claim, balance; cbn. split_and!; [done|by rewrite lookup_delete_eq|].
  intros op' Hne. by rewrite lookup_delete_ne.
Qed.
End theorems.

Lemma distribute_spec_witness :
  let half := sat_mul 128 1001 5000 / 10000 in
  let p' := @distribute map_order pool_new 1001 sample_table in
  lp_reward_balance p' DEFAULT_DEX_DOMAIN = lp_reward_balance pool_new DEFAULT_DEX_DOMAIN + half
  ∧ balance p' 1 = balance pool_new 1
      + (if is_staked sample_table 1
         then share_of half (@eligible_stake map_order sample_table) (get_stake sample_table 1) else 0)
  ∧ pool_total p' ≤ pool_total pool_new + 1001.
Proof.
  apply (@distribute_spec map_order pool_new 1001 sample_table 1); vm_compute; done.
Defined.

Lemma reward_pool_solvent_witness :
  let ops := [Distribute 1000 sample_table; Claim 1; Distribute 77 sample_table; ClaimLp DEFAULT_DEX_DOMAIN] in
  let '(p, claimed) := @pool_run map_order pool_new ops in
  claimed + pool_total p ≤ Nsum (map burned_by ops)
  ∧ ∀ op, (claim p op).2 = balance p op ∧ balance (claim p op).1 op = 0
          ∧ ∀ op', op' ≠ op → balance (claim p op).1 op' = balance p op'.
Proof.
  intros ops. apply (@reward_pool_solvent map_order ops).
  - repeat constructor; vm_compute; done.
  - vm_compute. reflexivity.
Defined.
