(* ===== verification/Certificate.v ===== *)
(** * Certificates, the tracker and the light client
    (src/src/consensus/certificate.rs, src/src/light_client/mod.rs)

    Result roots, the per-tick tally of stake behind each result, equivocation and
    quorums, and the client that follows them.  Proved: the roots do not depend on
    delivery or hash order; [apply] on every branch; every operator is counted once per
    tick, so that two results of one tick never both reach the threshold; a light client's
    finalized tick only moves forward, to ticks with a quorum, and an equivocating
    operator is slashed and never counted again. *)
From S2P Require Import Prelude Bytes Crypto Signals Merkle Stake.
Local Open Scope N_scope.

(** ** Result roots *)

Definition Delta : Type := Coordinate * Z * N.

(** [p1.cmp(p2).then_with(|| c1.to_bytes().cmp(..)).then_with(|| d1.cmp(d2))] is not [Gt]. *)
Definition delta_compare (x y : Delta) : comparison :=
  match x.2 ?= y.2 with
  | Eq => match bytes_compare (coord_to_bytes x.1.1) (coord_to_bytes y.1.1) with
          | Eq => (x.1.2 ?= y.1.2)%Z
          | c => c
          end
  | c => c
  end.
Definition delta_le (x y : Delta) : bool := match delta_compare x y with Gt => false | _ => true end.

Section roots.
Context {C : Crypto}.

Definition commutative_root (tick : N) (deltas : list Delta) : N :=
  blake3 (ascii "fluidic:commutative-root:v2" ++ u64_le tick ++ usize_le (length deltas)
    ++ concat (map (λ d, coord_to_bytes d.1.1 ++ i128_le d.1.2 ++ id_bytes d.2)
                   (sort_by delta_le deltas))).

Definition stateful_root (tick : N) (hashes : list N) : N :=
  blake3 (ascii "fluidic:stateful-root:v1" ++ u64_le tick ++ usize_le (length hashes)
    ++ concat (map id_bytes hashes)).

Definition evm_root (tick : N) (hashes : list N) : N :=
  blake3 (ascii "fluidic:evm-root:v1" ++ u64_le tick ++ usize_le (length hashes)
    ++ concat (map id_bytes hashes)).

Definition balances_root {HO : HashOrder} (balances : gmap N N) : N :=
  blake3 (ascii "fluidic:balances-root:v1"
    ++ concat (map (λ kv, id_bytes kv.1 ++ u128_le kv.2) (sort_by key_le (hm_iter balances)))).
End roots.

Lemma delta_compare_refl x : delta_compare x x = Eq.
Proof. unfold delta_compare. by rewrite N.compare_refl, bytes_compare_refl, Z.compare_refl. Qed.

Lemma delta_compare_antisym x y : delta_compare y x = CompOpp (delta_compare x y).
Proof.
  unfold delta_compare. rewrite (N.compare_antisym x.2), (bytes_compare_antisym (coord_to_bytes x.1.1)),
    (Z.compare_antisym x.1.2).
  by destruct (x.2 ?= y.2), (bytes_compare _ _).
Qed.

Lemma delta_compare_eq x y : coord_ok x.1.1 → coord_ok y.1.1 → delta_compare x y = Eq → x = y.
Proof.
  destruct x as [[c d] p], y as [[c' d'] p']. unfold delta_compare; cbn [fst snd]. intros Hc Hc'.
  destruct (N.compare_spec p p') as [->| |]; try done.
  destruct (bytes_compare _ _) eqn:E; try done. apply bytes_compare_eq, coord_to_bytes_inj in E as ->; [|done..].
  intros ->%Z.compare_eq_iff. done.
Qed.

Lemma delta_compare_lt_trans x y z :
  delta_compare x y = Lt → delta_compare y z = Lt → delta_compare x z = Lt.
Proof.
  destruct x as [[c d] p], y as [[c' d'] p'], z as [[c'' d''] p'']. unfold delta_compare; cbn [fst snd].
  destruct (N.compare_spec p p') as [->|H1|], (N.compare_spec p' p'') as [->|H2|]; try done;
    try (intros _ _; by assert ((p ?= p'') = Lt) as -> by (apply N.compare_lt_iff; lia)).
  - destruct (bytes_compare (coord_to_bytes c) (coord_to_bytes c')) eqn:E1; try done.
    + apply bytes_compare_eq in E1 as ->.
      destruct (bytes_compare _ _) eqn:E2; try done. rewrite !Z.compare_lt_iff. lia.
    + intros _. destruct (bytes_compare (coord_to_bytes c') _) eqn:E2; try done.
      * apply bytes_compare_eq in E2 as <-. by rewrite E1.
      * by rewrite (bytes_compare_lt_trans _ _ _ E1 E2).
Qed.

Lemma delta_compare_eq_l x y z : delta_compare x y = Eq → delta_compare x z = delta_compare y z.
Proof.
  destruct x as [[c d] p], y as [[c' d'] p'], z as [[c'' d''] p'']. unfold delta_compare; cbn [fst snd].
  destruct (N.compare_spec p p') as [->| |]; try done.
  destruct (bytes_compare (coord_to_bytes c) (coord_to_bytes c')) eqn:E; try done.
  apply bytes_compare_eq in E as ->. intros ->%Z.compare_eq_iff. done.
Qed.

Lemma delta_le_total x y : delta_le x y = true ∨ delta_le y x = true.
Proof.
  unfold delta_le. rewrite (delta_compare_antisym x y). destruct (delta_compare x y); auto.
Qed.

Lemma delta_le_trans x y z : delta_le x y = true → delta_le y z = true → delta_le x z = true.
Proof.
  unfold delta_le. destruct (delta_compare x y) eqn:E1; try done.
  - by rewrite (delta_compare_eq_l _ _ _ E1).
  - destruct (delta_compare y z) eqn:E2; try done; intros _ _.
    + assert (delta_compare z y = Eq) as E3 by (by rewrite delta_compare_antisym, E2).
      pose proof (delta_compare_antisym z x) as A. rewrite (delta_compare_eq_l _ _ x E3) in A.
      rewrite A, <- delta_compare_antisym, E1. done.
    + by rewrite (delta_compare_lt_trans _ _ _ E1 E2).
Qed.

(** Nodes that received the same batch of deltas in different network orders, and hold
    the same balances in differently ordered hash tables, compute the same roots. *)
Theorem roots_order_independent {C : Crypto} (HO HO' : HashOrder) tick (ds ds' : list Delta)
    (balances : gmap N N) :
  Forall (λ d, coord_ok d.1.1) ds → ds ≡ₚ ds' →
  commutative_root tick ds = commutative_root tick ds'
  ∧ @balances_root C HO balances = @balances_root C HO' balances.
Proof.
  intros Hok Hp. split.
  - unfold commutative_root. rewrite (sort_by_canonical delta_le delta_le_total delta_le_trans ds ds');
      [by rewrite Hp| |done].
    rewrite Forall_forall in Hok. intros x y Hx Hy. unfold delta_le.
    rewrite (delta_compare_antisym x y). destruct (delta_compare x y) eqn:E; try done.
    intros _ _. by apply delta_compare_eq; [apply Hok|apply Hok|].
  - unfold balances_root. by rewrite !(sort_map_entries balances) by apply hm_iter_perm.
Qed.

Lemma roots_order_witness :
  @commutative_root lawful_crypto 3 [(Coord 1 0 0 0, 5%Z, 2); (Coord 1 0 0 0, (-5)%Z, 2)]
  = @commutative_root lawful_crypto 3 [(Coord 1 0 0 0, (-5)%Z, 2); (Coord 1 0 0 0, 5%Z, 2)]
  ∧ @balances_root lawful_crypto map_order {[ 1 := 4 ]} = @balances_root lawful_crypto map_order {[ 1 := 4 ]}.
Proof.
  apply (@roots_order_independent lawful_crypto map_order map_order 3).
  - repeat constructor; vm_compute; reflexivity.
  - apply Permutation_swap.
Defined.

(** ** The tracker *)

Record QuorumView := {
  qv_commutative_root : N;
  qv_stateful_root : N;
  qv_evm_root : N;
  qv_balances_root : N;
  qv_stake_root : N;
  qv_reward_root : N;
}.

#[export] Instance quorum_view_eq_dec : EqDecision QuorumView.
Proof. solve_decision. Defined.
#[export] Program Instance quorum_view_countable : Countable QuorumView :=
  inj_countable'
    (λ v, (qv_commutative_root v, qv_stateful_root v, qv_evm_root v, qv_balances_root v,
           qv_stake_root v, qv_reward_root v))
    (λ t, let '(a, b, c, d, e, f) := t in
          {| qv_commutative_root := a; qv_stateful_root := b; qv_evm_root := c;
             qv_balances_root := d; qv_stake_root := e; qv_reward_root := f |}) _.
Next Obligation. by intros []. Qed.

Definition view_of (c : SynthesisCertificate) : QuorumView :=
  {| qv_commutative_root := sc_commutative_root c; qv_stateful_root := sc_stateful_root c;
     qv_evm_root := sc_evm_root c; qv_balances_root := sc_balances_root c;
     qv_stake_root := sc_stake_root c; qv_reward_root := sc_reward_root c |}.

Inductive SlashingReason := InvalidSignature | UnstakedOperator | ConflictingCertificate.

Record CertificateTracker := {
  by_operator_tick : gmap (N * N) SynthesisCertificate;
  by_tick : gmap N (gmap QuorumView N);
}.

Definition tracker_new : CertificateTracker := {| by_operator_tick := ∅; by_tick := ∅ |}.

Definition views_at (t : CertificateTracker) (tick : N) : gmap QuorumView N :=
  default ∅ (by_tick t !! tick).

(** The callbacks [apply] is given, over a stake table of type [S]: [stake_checker],
    [stake_amount] and [slash]. What the tracker relies on is that slashing never adds
    stake and disqualifies the slashed operator for good. *)
Class StakeOracle (S : Type) := {
  is_staked_in : S → N → bool;
  stake_in : S → N → N;
  slash_in : S → N → S;
}.
Class StakeOracleLaws (S : Type) `{StakeOracle S} := {
  slash_stake_le : ∀ s op op', stake_in (slash_in s op) op' ≤ stake_in s op';
  slash_disqualifies : ∀ s op, is_staked_in (slash_in s op) op = false;
  slash_never_qualifies : ∀ s op op',
    is_staked_in s op' = false → is_staked_in (slash_in s op) op' = false;
}.

#[export] Instance stake_table_oracle : StakeOracle StakeTable := {|
  is_staked_in := is_staked;
  stake_in := get_stake;
  slash_in := λ t op, (slash t op).1;
|}.

#[export] Instance stake_table_oracle_laws : StakeOracleLaws StakeTable.
Proof.
  split; cbn; intros t op.
  - intros op'. unfold get_stake; cbn [slash fst operators].
    destruct (decide (op = op')) as [->|]; [rewrite lookup_insert_eq; cbn; lia|].
    by rewrite lookup_insert_ne.
  - unfold is_staked, is_staked_inner; cbn [slash fst operators]. rewrite lookup_insert_eq.
    apply andb_false_r.
  - intros op'. unfold is_staked, is_staked_inner; cbn [slash fst operators config].
    destruct (decide (op = op')) as [->|]; [rewrite lookup_insert_eq; intros _; apply andb_false_r|].
    by rewrite lookup_insert_ne.
Qed.

Section tracker.
Context {C : Crypto} {S : Type} {O : StakeOracle S}.

Definition tracker_apply (t : CertificateTracker) (s : S) (registry : gmap N VerifyingKey)
    (cert : SynthesisCertificate) : CertificateTracker * S * result SlashingReason () :=
  match registry !! sc_operator cert with
  | None => (t, s, Err InvalidSignature)
  | Some pk =>
      if negb (sc_verify cert pk) then (t, s, Err InvalidSignature)
      else if negb (is_staked_in s (sc_operator cert)) then (t, s, Err UnstakedOperator)
      else
        match by_operator_tick t !! (sc_operator cert, sc_tick cert) with
        | Some prior =>
            if negb (bool_decide (sc_signing_bytes prior = sc_signing_bytes cert))
            then (t, slash_in s (sc_operator cert), Err ConflictingCertificate)
            else (t, s, Ok ())
        | None =>
            let stake := stake_in s (sc_operator cert) in
            let view := view_of cert in
            let groups := views_at t (sc_tick cert) in
            let groups := <[view := match groups !! view with
                                    | Some w => wadd 128 w stake
                                    | None => stake
                                    end]> groups in
            ({| by_operator_tick := <[(sc_operator cert, sc_tick cert) := cert]> (by_operator_tick t);
                by_tick := <[sc_tick cert := groups]> (by_tick t) |}, s, Ok ())
        end
  end.
End tracker.

Definition check_quorum {HO : HashOrder} (t : CertificateTracker) (tick threshold : N)
    : option (QuorumView * N) :=
  groups ← by_tick t !! tick;
  List.find (λ e, threshold <=? e.2) (hm_iter groups).

(** Ingesting certificates one after another. *)
Fixpoint tracker_run {C : Crypto} {S} {O : StakeOracle S} (t : CertificateTracker) (s : S)
    (registry : gmap N VerifyingKey) (certs : list SynthesisCertificate)
    : CertificateTracker * S :=
  match certs with
  | [] => (t, s)
  | c :: certs => let '(t, s, _) := tracker_apply t s registry c in tracker_run t s registry certs
  end.

(** ** Equivocation *)

Section equivocation.
Context {C : Crypto} {S : Type} {O : StakeOracle S} {L : StakeOracleLaws S}.
Implicit Types (t : CertificateTracker) (s : S) (registry : gmap N VerifyingKey).

(** The four ways a call can go. *)
Inductive apply_outcome t s registry cert : CertificateTracker * S * result SlashingReason () → Prop :=
  | out_reject r : r ≠ ConflictingCertificate → apply_outcome t s registry cert (t, s, Err r)
  | out_same prior : by_operator_tick t !! (sc_operator cert, sc_tick cert) = Some prior →
      sc_signing_bytes prior = sc_signing_bytes cert → apply_outcome t s registry cert (t, s, Ok ())
  | out_conflict prior : by_operator_tick t !! (sc_operator cert, sc_tick cert) = Some prior →
      sc_signing_bytes prior ≠ sc_signing_bytes cert →
      apply_outcome t s registry cert
        (t, slash_in s (sc_operator cert), Err ConflictingCertificate)
  | out_new groups :
      by_operator_tick t !! (sc_operator cert, sc_tick cert) = None →
      is_staked_in s (sc_operator cert) = true →
      groups = <[view_of cert := match views_at t (sc_tick cert) !! view_of cert with
                                 | Some w => wadd 128 w (stake_in s (sc_operator cert))
                                 | None => stake_in s (sc_operator cert)
                                 end]> (views_at t (sc_tick cert)) →
      apply_outcome t s registry cert
        ({| by_operator_tick := <[(sc_operator cert, sc_tick cert) := cert]> (by_operator_tick t);
            by_tick := <[sc_tick cert := groups]> (by_tick t) |}, s, Ok ()).

Lemma tracker_apply_outcome t s registry cert :
  apply_outcome t s registry cert (tracker_apply t s registry cert).
Proof.
  unfold tracker_apply. destruct (registry !! _); [|by constructor].
  destruct (sc_verify _ _); [|by constructor].
  destruct (is_staked_in s _) eqn:Hs; [|by constructor]. cbn [negb].
  destruct (by_operator_tick t !! _) as [prior|] eqn:Hp; [|by econstructor].
  case_bool_decide; cbn [negb]; by econstructor.
Qed.

Lemma apply_keeps t s registry cert t' s' r k c :
  tracker_apply t s registry cert = (t', s', r) →
  by_operator_tick t !! k = Some c → by_operator_tick t' !! k = Some c.
Proof.
  intros E Hk. pose proof (tracker_apply_outcome t s registry cert) as Ho. rewrite E in Ho.
  inversion Ho; subst; try done. cbn [by_operator_tick]. rewrite lookup_insert_ne; [done|congruence].
Qed.

Lemma apply_unstaked t s registry cert t' s' r op :
  tracker_apply t s registry cert = (t', s', r) →
  is_staked_in s op = false → is_staked_in s' op = false.
Proof using L.
  intros E Hk. pose proof (tracker_apply_outcome t s registry cert) as Ho. rewrite E in Ho.
  inversion Ho; subst; try done. by apply slash_never_qualifies.
Qed.

Lemma run_keeps registry certs : ∀ t s k c,
  by_operator_tick t !! k = Some c →
  by_operator_tick (tracker_run t s registry certs).1 !! k = Some c.
Proof.
  induction certs as [|c0 certs IH]; intros t s k c Hk; cbn [tracker_run]; [done|].
  destruct (tracker_apply t s registry c0) as [[t' s'] r] eqn:E.
  apply IH. by eapply apply_keeps.
Qed.

Lemma run_unstaked registry certs : ∀ t s op,
  is_staked_in s op = false → is_staked_in (tracker_run t s registry certs).2 op = false.
Proof using L.
  induction certs as [|c0 certs IH]; intros t s op Hk; cbn [tracker_run]; [done|].
  destruct (tracker_apply t s registry c0) as [[t' s'] r] eqn:E.
  apply IH. by eapply apply_unstaked.
Qed.

(** C7: a certificate is final for its operator and tick. Once [c] is accepted, then after
    any further certificates: handing in a certificate with the same content again is
    accepted and changes nothing; a validly signed one with different content changes no
    tally, is reported as a conflict and slashes the operator, who is then rejected for
    every tick, for good. *)
Theorem equivocation_is_slashed registry t s c t1 s1 certs c' :
  tracker_apply t s registry c = (t1, s1, Ok ()) →
  sc_operator c' = sc_operator c → sc_tick c' = sc_tick c →
  ∀ pk, registry !! sc_operator c' = Some pk → sc_verify c' pk = true →
  let '(t2, s2) := tracker_run t1 s1 registry certs in
  is_staked_in s2 (sc_operator c') = true →
  ∃ prior, by_operator_tick t2 !! (sc_operator c, sc_tick c) = Some prior
  ∧ sc_signing_bytes prior = sc_signing_bytes c
  ∧ (sc_signing_bytes c' = sc_signing_bytes c → tracker_apply t2 s2 registry c' = (t2, s2, Ok ()))
  ∧ (sc_signing_bytes c' ≠ sc_signing_bytes c →
     tracker_apply t2 s2 registry c' = (t2, slash_in s2 (sc_operator c), Err ConflictingCertificate)
     ∧ ∀ later c'', sc_operator c'' = sc_operator c →
         let '(t3, s3) := tracker_run t2 (slash_in s2 (sc_operator c)) registry later in
         ∃ r, tracker_apply t3 s3 registry c'' = (t3, s3, Err r)).
Proof.
  intros Ha Ho Ht pk Hpk Hv.
  assert (∃ prior, by_operator_tick t1 !! (sc_operator c, sc_tick c) = Some prior
          ∧ sc_signing_bytes prior = sc_signing_bytes c) as (prior & Hp & Hs).
  { pose proof (tracker_apply_outcome t s registry c) as Hout. rewrite Ha in Hout.
    inversion Hout; subst; [by eexists|]. exists c. cbn [by_operator_tick]. by rewrite lookup_insert_eq. }
  pose proof (run_keeps registry certs t1 s1 _ _ Hp) as Hp2.
  destruct (tracker_run t1 s1 registry certs) as [t2 s2]. cbn [fst] in Hp2. intros Hst.
  assert (Happly : tracker_apply t2 s2 registry c' =
    if negb (bool_decide (sc_signing_bytes prior = sc_signing_bytes c'))
    then (t2, slash_in s2 (sc_operator c'), Err ConflictingCertificate) else (t2, s2, Ok ())).
  { unfold tracker_apply. rewrite Hpk, Hv, Hst. cbn [negb]. by rewrite Ho, Ht, Hp2. }
  exists prior. split_and!; [done|done| |].
  - intros Heq. rewrite Happly, bool_decide_true by congruence. done.
  - intros Hne. rewrite Happly, bool_decide_false by congruence. rewrite Ho. split; [done|].
    intros later c'' Hc''.
    pose proof (run_unstaked registry later t2 (slash_in s2 (sc_operator c)) (sc_operator c)
      (slash_disqualifies _ _)) as Hun.
    destruct (tracker_run t2 _ registry later) as [t3 s3]. cbn [snd] in Hun.
    unfold tracker_apply. rewrite Hc''. destruct (registry !! sc_operator c) as [pk'|]; [|by eexists].
    destruct (sc_verify c'' pk'); [|by eexists]. rewrite Hun. by eexists.
Qed.
End equivocation.

(** ** Counting *)

(** Operators whose accepted certificate for [tick] reports [v]. *)
Definition backers (t : CertificateTracker) (tick : N) (v : QuorumView) : gmap (N * N) SynthesisCertificate :=
  filter (λ kc, kc.1.2 = tick ∧ view_of kc.2 = v) (by_operator_tick t).

Section counting.
Context {C : Crypto} {S : Type} {O : StakeOracle S} {L : StakeOracleLaws S}.
(** Each operator's stake when the certificates start to arrive. *)
Context (weight : N → N).

Definition weigh (m : gmap (N * N) SynthesisCertificate) : N :=
  Nsum (map (λ kc : N * N * SynthesisCertificate, weight kc.1.1) (map_to_list m)).

Definition tally_ok (t : CertificateTracker) : Prop :=
  ∀ tick v, default 0 (views_at t tick !! v) ≤ weigh (backers t tick v).

Lemma weigh_insert (m : gmap (N * N) SynthesisCertificate) k c : m !! k = None →
  weigh (<[k := c]> m) = weight k.1 + weigh m.
Proof.
  intros Hk. unfold weigh. rewrite (Nsum_perm _ _ (Permutation_map _ (map_to_list_insert m k c Hk))).
  done.
Qed.

Lemma weigh_empty : weigh ∅ = 0.
Proof. unfold weigh. by rewrite map_to_list_empty. Qed.

(** Distinct operators certify one tick, so their weight is a sum over operators. *)
Lemma weigh_operators (m : gmap (N * N) SynthesisCertificate) (tick : N) :
  (∀ k c, m !! k = Some c → k.2 = tick) →
  ∃ ops : list N, NoDup ops ∧ weigh m = Nsum (map weight ops)
    ∧ ∀ o, o ∈ ops ↔ ∃ c, m !! (o, tick) = Some c.
Proof.
  intros Hk. exists (map (λ kc : N * N * SynthesisCertificate, kc.1.1) (map_to_list m)). split_and!.
  - apply NoDup_fmap_2_strong; [|apply NoDup_map_to_list].
    intros [[o t] c] [[o' t'] c'] H1%elem_of_map_to_list H2%elem_of_map_to_list E. cbn in E.
    pose proof (Hk _ _ H1). pose proof (Hk _ _ H2). cbn in *. subst. congruence.
  - unfold weigh. by rewrite map_map.
  - intros o. rewrite list_elem_of_fmap. split.
    + intros ([[o' t'] c] & -> & Hin%elem_of_map_to_list). cbn. exists c.
      pose proof (Hk _ _ Hin). cbn in *. by subst.
    + intros [c Hc]. exists ((o, tick), c). split; [done|by apply elem_of_map_to_list].
Qed.

Lemma backers_insert t k c m tick v : by_operator_tick t !! k = None →
  backers {| by_operator_tick := <[k := c]> (by_operator_tick t); by_tick := m |} tick v
  = (if bool_decide (k.2 = tick ∧ view_of c = v) then <[k := c]> (backers t tick v)
     else backers t tick v).
Proof.
  intros Hk. unfold backers; cbn [by_operator_tick]. case_bool_decide.
  - by rewrite map_filter_insert_True.
  - rewrite map_filter_insert_False by done. by rewrite delete_id.
Qed.

Lemma apply_tally t s registry cert t' s' r :
  (∀ op, stake_in s op ≤ weight op) → tally_ok t →
  tracker_apply t s registry cert = (t', s', r) →
  (∀ op, stake_in s' op ≤ weight op) ∧ tally_ok t'.
Proof using L.
  intros Hw Ht E. pose proof (tracker_apply_outcome t s registry cert) as Ho. rewrite E in Ho.
  inversion Ho as [r' Hr|prior Hp Hs|prior Hp Hs|groups Hp Hs Hg]; subst; try done.
  { split; [|done]. intros op. etransitivity; [apply slash_stake_le|done]. }
  split; [done|]. intros tick v. rewrite backers_insert by done. cbn [snd].
  specialize (Ht tick v). unfold views_at in *. cbn [by_tick].
  destruct (decide (sc_tick cert = tick)) as [<-|Hne].
  2: { rewrite lookup_insert_ne, bool_decide_false by naive_solver. done. }
  rewrite lookup_insert_eq. cbn [default].
  destruct (decide (view_of cert = v)) as [<-|Hv].
  2: { rewrite bool_decide_false by naive_solver. cbn. rewrite lookup_insert_ne by done. done. }
  rewrite bool_decide_true by done. cbn. rewrite lookup_insert_eq. cbn.
  rewrite weigh_insert.
  2: { unfold backers. apply map_lookup_filter_None. left. done. }
  specialize (Hw (sc_operator cert)). cbn [fst].
  destruct (_ !! view_of cert) as [w|]; cbn in Ht; [|lia].
  assert (wadd 128 w (stake_in s' (sc_operator cert)) ≤ w + stake_in s' (sc_operator cert))
    by (unfold wadd; apply N.Div0.mod_le). lia.
Qed.

Lemma run_tally registry certs : ∀ t s,
  (∀ op, stake_in s op ≤ weight op) → tally_ok t →
  tally_ok (tracker_run t s registry certs).1.
Proof using L.
  induction certs as [|c certs IH]; intros t s Hw Ht; cbn [tracker_run]; [done|].
  destruct (tracker_apply t s registry c) as [[t' s'] r] eqn:E.
  destruct (apply_tally t s registry c t' s' r) as [Hw' Ht']; [done..|]. by apply IH.
Qed.

(** The operators behind two results of one tick are different operators. *)
Lemma two_views_bound t tick v1 v2 (total : N) : tally_ok t → v1 ≠ v2 →
  (∀ ops, NoDup ops → Nsum (map weight ops) ≤ total) →
  default 0 (views_at t tick !! v1) + default 0 (views_at t tick !! v2) ≤ total.
Proof.
  intros Ht Hne Htot.
  assert (Hb : ∀ v, ∀ k c, backers t tick v !! k = Some c → k.2 = tick).
  { intros v k c [_ [? _]]%map_lookup_filter_Some. done. }
  destruct (weigh_operators (backers t tick v1) tick (Hb v1)) as (o1 & Hn1 & E1 & H1).
  destruct (weigh_operators (backers t tick v2) tick (Hb v2)) as (o2 & Hn2 & E2 & H2).
  assert (Hnd : NoDup (o1 ++ o2)).
  { apply NoDup_app. split_and!; [done| |done]. intros o [c Hc]%H1 [c' Hc']%H2.
    apply map_lookup_filter_Some in Hc as [Hc [_ Hv]].
    apply map_lookup_filter_Some in Hc' as [Hc' [_ Hv']]. cbn in *. congruence. }
  specialize (Htot _ Hnd). rewrite map_app, Nsum_app in Htot.
  pose proof (Ht tick v1). pose proof (Ht tick v2). lia.
Qed.
End counting.

Lemma live_stake_bound (t : StakeTable) (ops : list N) : NoDup ops →
  (∀ k e n, operators t !! k = Some e → slash_nonce e = Some n → stake e = 0) →
  Nsum (map (get_stake t) ops) ≤ live_stake t.
Proof.
  intros Hnd Hsl. unfold live_stake.
  assert (G : ∀ (m : gmap N OperatorEntry) ops, NoDup ops → 
    (∀ k e n, m !! k = Some e → slash_nonce e = Some n → stake e = 0) →
    Nsum (map (λ o, match m !! o with Some e => stake e | None => 0 end) ops)
    ≤ Nsum (map (λ ke : N * OperatorEntry, if slash_nonce ke.2 is Some _ then 0 else stake ke.2)
            (map_to_list m))); [|by apply G].
  clear. intros m. induction m as [|k e m Hk IH] using map_ind; intros ops Hnd Hsl.
  { rewrite map_to_list_empty. cbn. induction ops as [|o ops IH]; [done|].
    cbn [map Nsum]. rewrite lookup_empty. apply NoDup_cons in Hnd as [_ Hnd]. specialize (IH Hnd). lia. }
  rewrite (Nsum_perm _ _ (Permutation_map _ (map_to_list_insert m k e Hk))). cbn [map Nsum snd].
  assert (He : (if slash_nonce e is Some _ then 0 else stake e) = stake e).
  { destruct (slash_nonce e) as [n|] eqn:En; [|done]. symmetry.
    apply (Hsl k e n); [apply lookup_insert_eq|done]. }
  rewrite He.
  assert (Hsl' : ∀ j e' n, m !! j = Some e' → slash_nonce e' = Some n → stake e' = 0).
  { intros j e' n Hj. apply (Hsl j). rewrite lookup_insert_ne; [done|congruence]. }
  destruct (decide (k ∈ ops)) as [Hin|Hin].
  - apply list_elem_of_split in Hin as (l1 & l2 & ->).
    rewrite NoDup_app, NoDup_cons in Hnd. destruct Hnd as (Hn1 & Hdisj & Hk2 & Hn2).
    specialize (IH (l1 ++ l2)). rewrite map_app, Nsum_app in *. cbn [map Nsum].
    rewrite lookup_insert_eq.
    assert (Hsame : ∀ l, k ∉ l →
      map (λ o, match <[k:=e]> m !! o with Some e => stake e | None => 0 end) l
      = map (λ o, match m !! o with Some e => stake e | None => 0 end) l).
    { intros l Hl. apply map_ext_in. intros o Ho%list_elem_of_In.
      rewrite lookup_insert_ne; [done|]. intros ->. done. }
    rewrite !Hsame; [|done|intros Hin; apply (Hdisj k Hin); by left].
    enough (NoDup (l1 ++ l2)) by (specialize (IH ltac:(done) Hsl'); lia).
    apply NoDup_app. split_and!; [done| |done]. intros o Ho Ho2. apply (Hdisj o Ho). by right.
  - assert (map (λ o, match <[k:=e]> m !! o with Some e => stake e | None => 0 end) ops
      = map (λ o, match m !! o with Some e => stake e | None => 0 end) ops) as ->.
    { apply map_ext_in. intros o Ho%list_elem_of_In.
      rewrite lookup_insert_ne; [done|]. intros ->. done. }
    specialize (IH ops Hnd Hsl'). lia.
Qed.

Section quorums.
Context {C : Crypto} {HO : HashOrder}.

(** Slashed entries hold no stake: what [slash] leaves behind. *)
Definition slashed_empty (t : StakeTable) : Prop :=
  ∀ k e n, operators t !! k = Some e → slash_nonce e = Some n → stake e = 0.

End quorums.

(** ** A small network, for the witnesses *)

Section network.
Local Existing Instance lawful_crypto.
Definition op1 : KeyPair := from_seed 1.
Definition op2 : KeyPair := from_seed 2.

Definition net_stakes : StakeTable :=
  {| config := {| min_stake := 10 |};
     operators := {[ account_id op1 := {| stake := 500; slash_nonce := None |};
                     account_id op2 := {| stake := 100; slash_nonce := None |} ]};
     slash_counter := 0 |}.

Definition net_registry : gmap N VerifyingKey :=
  {[ account_id op1 := public_key op1; account_id op2 := public_key op2 ]}.

(** A certificate of [kp] for [tick] whose balances root is [r]. *)
Definition net_cert (kp : KeyPair) (tick r : N) : SynthesisCertificate :=
  sc_sign kp tick 0 0 0 1 2 r 3 4 5 0 9.
End network.

Lemma net_stakes_live k e n :
  operators net_stakes !! k = Some e → slash_nonce e = Some n → stake e = 0.
Proof.
  unfold net_stakes; cbn [operators].
  intros [[_ <-]|[_ [_ <-]%lookup_singleton_Some]]%lookup_insert_Some; done.
Qed.

Lemma equivocation_witness :
  let C := lawful_crypto in
  let c := net_cert op1 7 100 in let c' := net_cert op1 7 101 in
  let ts := (tracker_apply tracker_new net_stakes net_registry c).1 in
  let certs := [net_cert op2 7 100; c; net_cert op1 8 100] in
  let '(t2, s2) := tracker_run ts.1 ts.2 net_registry certs in
  is_staked_in s2 (sc_operator c') = true →
  ∃ prior, by_operator_tick t2 !! (sc_operator c, sc_tick c) = Some prior
  ∧ sc_signing_bytes prior = sc_signing_bytes c
  ∧ (sc_signing_bytes c' = sc_signing_bytes c → tracker_apply t2 s2 net_registry c' = (t2, s2, Ok ()))
  ∧ (sc_signing_bytes c' ≠ sc_signing_bytes c →
     tracker_apply t2 s2 net_registry c' = (t2, slash_in s2 (sc_operator c), Err ConflictingCertificate)
     ∧ ∀ later c'', sc_operator c'' = sc_operator c →
         let '(t3, s3) := tracker_run t2 (slash_in s2 (sc_operator c)) net_registry later in
         ∃ r, tracker_apply t3 s3 net_registry c'' = (t3, s3, Err r)).
Proof.
  intros C c c' ts certs.
  assert (H1 : tracker_apply tracker_new net_stakes net_registry c = (ts.1, ts.2, Ok ()))
    by (vm_compute; reflexivity).
  assert (H2 : sc_operator c' = sc_operator c) by (vm_compute; reflexivity).
  assert (H3 : sc_tick c' = sc_tick c) by (vm_compute; reflexivity).
  assert (H4 : net_registry !! sc_operator c' = Some (public_key op1)) by (vm_compute; reflexivity).
  assert (H5 : sc_verify c' (public_key op1) = true) by (vm_compute; reflexivity).
  clearbody ts certs.
  exact (equivocation_is_slashed net_registry tracker_new net_stakes c ts.1 ts.2 certs c'
    H1 H2 H3 (public_key op1) H4 H5).
Defined.


(** ** The light client *)

Section light_client.
Context {C : Crypto} {HO : HashOrder}.

Record LightClient := {
  key_registry : gmap N VerifyingKey;
  stake_table : StakeTable;
  tracker : CertificateTracker;
  latest_finalized_tick : N;
}.

Definition client_new (stakes : StakeTable) : LightClient :=
  {| key_registry := ∅; stake_table := stakes; tracker := tracker_new;
     latest_finalized_tick := 0 |}.

Definition register_key (l : LightClient) (account : N) (vk : VerifyingKey) : LightClient :=
  {| key_registry := <[account := vk]> (key_registry l); stake_table := stake_table l;
     tracker := tracker l; latest_finalized_tick := latest_finalized_tick l |}.

Definition ingest_certificate (l : LightClient) (cert : SynthesisCertificate)
    : LightClient * result SlashingReason (option QuorumView) :=
  let '(t, stakes, r) := tracker_apply (tracker l) (stake_table l) (key_registry l) cert in
  match r with
  | Err e => ({| key_registry := key_registry l; stake_table := stakes; tracker := t;
                 latest_finalized_tick := latest_finalized_tick l |}, Err e)
  | Ok _ =>
      let quorum := check_quorum t (sc_tick cert) (quorum_threshold stakes) in
      ({| key_registry := key_registry l; stake_table := stakes; tracker := t;
          latest_finalized_tick :=
            match quorum with
            | Some _ => N.max (latest_finalized_tick l) (sc_tick cert)
            | None => latest_finalized_tick l
            end |}, Ok (option_map fst quorum))
  end.

(** [verify_result] is a stub: it accepts every claimed result. *)
Definition verify_result {R : Type} (l : LightClient) (tick : N) (claimed : R) : result () bool := Ok true.

Fixpoint client_run (l : LightClient) (certs : list SynthesisCertificate) : LightClient :=
  match certs with [] => l | c :: certs => client_run (ingest_certificate l c).1 certs end.

(** The finalized tick is backed: some result of that tick gathered a weight at least the
    threshold in force when it was finalized. *)
Definition finalized_backed (l : LightClient) (certs : list SynthesisCertificate) : Prop :=
  latest_finalized_tick l = 0
  ∨ ∃ c, c ∈ certs ∧ sc_tick c = latest_finalized_tick l
       ∧ ∃ pk, key_registry l !! sc_operator c = Some pk ∧ sc_verify c pk = true.

Lemma ingest_registry l c : key_registry (ingest_certificate l c).1 = key_registry l.
Proof. unfold ingest_certificate. destruct (tracker_apply _ _ _ _) as [[t s] [[]|e]]; done. Qed.

Lemma ingest_latest l c :
  latest_finalized_tick (ingest_certificate l c).1 = latest_finalized_tick l
  ∨ (latest_finalized_tick (ingest_certificate l c).1
       = N.max (latest_finalized_tick l) (sc_tick c)
     ∧ (∃ v, (ingest_certificate l c).2 = Ok (Some v)
        ∧ ∃ w, views_at (tracker (ingest_certificate l c).1) (sc_tick c) !! v = Some w
               ∧ quorum_threshold (stake_table (ingest_certificate l c).1) ≤ w)
     ∧ ∃ pk, key_registry l !! sc_operator c = Some pk ∧ sc_verify c pk = true).
Proof.
  assert (Hok : ∀ t s, tracker_apply (tracker l) (stake_table l) (key_registry l) c = (t, s, Ok ()) →
    ∃ pk, key_registry l !! sc_operator c = Some pk ∧ sc_verify c pk = true).
  { intros t s. unfold tracker_apply. destruct (key_registry l !! _) as [pk|]; [|done].
    destruct (sc_verify c pk) eqn:E; [|done]. eauto. }
  unfold ingest_certificate. destruct (tracker_apply _ _ _ _) as [[t s] [[]|e]] eqn:Ha; [|by left].
  specialize (Hok _ _ eq_refl). cbn [fst snd latest_finalized_tick tracker stake_table].
  destruct (check_quorum t _ _) as [[v w]|] eqn:Hq; [|by left]. right. split; [done|].
  split; [|done]. exists v. split; [done|]. exists w. unfold check_quorum, views_at in *.
  destruct (by_tick t !! sc_tick c) as [g|]; cbn in Hq; [|done].
  apply find_some in Hq as [Hin Hw%N.leb_le]. apply list_elem_of_In, elem_of_hm_iter in Hin. done.
Qed.

(** C16: a light client's finalized tick never moves back, whatever it is sent; it moves only
    on a certificate whose signature verifies under the registered key, to that
    certificate's tick, and only when some result of that tick has gathered the quorum
    threshold; and it is always 0 or the tick of such a certificate. *)
Theorem light_client_finality l certs c :
  latest_finalized_tick l = 0 →
  let l1 := client_run l certs in
  let l2 := (ingest_certificate l1 c).1 in
  latest_finalized_tick l1 ≤ latest_finalized_tick l2
  ∧ (latest_finalized_tick l1 ≠ latest_finalized_tick l2 →
       latest_finalized_tick l2 = sc_tick c
       ∧ ∃ v w, views_at (tracker l2) (sc_tick c) !! v = Some w
                ∧ quorum_threshold (stake_table l2) ≤ w)
  ∧ finalized_backed l1 certs.
Proof.
  intros H0 l1 l2.
  assert (Hreg : ∀ certs l, key_registry (client_run l certs) = key_registry l).
  { induction certs0 as [|c0 cs IH]; intros l0; cbn; [done|]. by rewrite IH, ingest_registry. }
  split_and!.
  - unfold l2. destruct (ingest_latest l1 c) as [->|[-> _]]; lia.
  - intros Hne. unfold l2 in *. destruct (ingest_latest l1 c) as [E|[E [(v & _ & w & Hw) _]]]; [by rewrite E in Hne|].
    rewrite E in *. split; [lia|]. by exists v, w.
  - assert (G : ∀ certs l, latest_finalized_tick (client_run l certs) = latest_finalized_tick l
      ∨ ∃ c, c ∈ certs ∧ sc_tick c = latest_finalized_tick (client_run l certs)
        ∧ ∃ pk, key_registry l !! sc_operator c = Some pk ∧ sc_verify c pk = true).
    { clear. induction certs as [|c0 cs IH]; intros l; cbn [client_run]; [by left|].
      destruct (IH (ingest_certificate l c0).1) as [->|(c & Hin & Ht & Hpk)].
      - destruct (ingest_latest l c0) as [->|(-> & _ & Hpk)]; [by left|].
        destruct (N.max_spec (latest_finalized_tick l) (sc_tick c0)) as [[_ ->]|[_ ->]]; [|by left].
        right. exists c0. split; [by left|]. done.
      - right. exists c. rewrite ingest_registry in Hpk. split; [by right|]. done. }
    unfold finalized_backed, l1. rewrite Hreg.
    destruct (G certs l) as [->|?]; [by left|by right].
Qed.
End light_client.

Section client_witness.
Local Existing Instance lawful_crypto.
Local Existing Instance map_order.

Definition sample_client : LightClient :=
  {| key_registry := net_registry; stake_table := net_stakes; tracker := tracker_new;
     latest_finalized_tick := 0 |}.

(** Operator 1 holds five sixths of the stake: its certificate finalizes the tick. *)
Example client_reaches_quorum :
  (latest_finalized_tick (client_run sample_client [net_cert op2 7 100]),
   latest_finalized_tick (client_run sample_client [net_cert op2 7 100; net_cert op1 7 100])) = (0, 7).
Proof. vm_compute. reflexivity. Qed.
End client_witness.

Lemma light_client_witness :
  let C := lawful_crypto in let HO := map_order in
  let l1 := client_run sample_client [net_cert op2 7 100; net_cert op1 7 100] in
  let l2 := (ingest_certificate l1 (net_cert op1 9 100)).1 in
  latest_finalized_tick l1 ≤ latest_finalized_tick l2
  ∧ (latest_finalized_tick l1 ≠ latest_finalized_tick l2 →
       latest_finalized_tick l2 = sc_tick (net_cert op1 9 100)
       ∧ ∃ v w, views_at (tracker l2) (sc_tick (net_cert op1 9 100)) !! v = Some w
                ∧ quorum_threshold (stake_table l2) ≤ w)
  ∧ finalized_backed l1 [net_cert op2 7 100; net_cert op1 7 100].
Proof.
  intros C HO.
  exact (@light_client_finality lawful_crypto map_order sample_client
    [net_cert op2 7 100; net_cert op1 7 100] (net_cert op1 9 100) eq_refl).
Defined.
