(* ===== verification/WaveField.v ===== *)
(** * The wave field (src/src/field/wave_field.rs)

    Account and pool balances, the batch synthesis that sends every commutative batch
    through the number theoretic transform and back, and metabolic decay.  Proved: a batch
    never panics and succeeds exactly when every bin fits the prime field and no pool goes
    negative, with exact balances, whatever the order of the deltas and of the hash
    tables; decay conserves value and leaves exempt balances alone. *)
From S2P Require Import Prelude Bytes Value Crypto Signals ModArith Ntt Metabolic Certificate.
Local Open Scope N_scope.

Record Balance := {
  units : N;
  last_decay_tick : N;
  bal_domain : N;
  bal_rate_ppm : N;
  decays : bool;
  last_active_tick : N;
}.

#[export] Instance balance_eq_dec : EqDecision Balance.
Proof. solve_decision. Defined.

Definition balance_zero : Balance :=
  {| units := 0; last_decay_tick := 0; bal_domain := DEFAULT_DEX_DOMAIN;
     bal_rate_ppm := DEFAULT_DEX_LAMBDA_PPM; decays := true; last_active_tick := 0 |}.

Definition with_units (b : Balance) (u : N) : Balance :=
  {| units := u; last_decay_tick := last_decay_tick b; bal_domain := bal_domain b;
     bal_rate_ppm := bal_rate_ppm b; decays := decays b; last_active_tick := last_active_tick b |}.
Definition with_decay_tick (b : Balance) (t : N) : Balance :=
  {| units := units b; last_decay_tick := t; bal_domain := bal_domain b;
     bal_rate_ppm := bal_rate_ppm b; decays := decays b; last_active_tick := last_active_tick b |}.

Definition from_wave (wave : N) : Balance := with_units balance_zero (sat_mul 128 wave WAVE_PRECISION).
Definition balance_sub (b : Balance) (a : N) : Balance := with_units b (units b - a).
Definition balance_add (b : Balance) (a : N) : Balance := with_units b (sat_add 128 (units b) a).

Record AccountState := {
  acc_balance : Balance;
  frequency_vector : FrequencyVector;
}.

Definition account_default : AccountState :=
  {| acc_balance := balance_zero; frequency_vector := [0; 0; 0; 0] |}.

Record WaveField := {
  accounts : gmap N AccountState;
  pools : gmap N Balance;
  ntt_engine : NttEngine;
  spectrum : list Z;
}.

Definition field_new (ntt_size : nat) : option WaveField :=
  if is_power_of_two (N.of_nat ntt_size) && (2 <=? ntt_size)%nat then
    e ← Ntt.engine_new ntt_size;
    Some {| accounts := ∅; pools := ∅; ntt_engine := e; spectrum := replicate ntt_size 0%Z |}
  else None.

Definition with_accounts (f : WaveField) (a : gmap N AccountState) : WaveField :=
  {| accounts := a; pools := pools f; ntt_engine := ntt_engine f; spectrum := spectrum f |}.
Definition with_pools (f : WaveField) (p : gmap N Balance) : WaveField :=
  {| accounts := accounts f; pools := p; ntt_engine := ntt_engine f; spectrum := spectrum f |}.

(** The entry [ensure_account] leaves behind. *)
Definition account_or_default (f : WaveField) (id : N) : AccountState :=
  default account_default (accounts f !! id).

Definition ensure_account (f : WaveField) (id : N) : WaveField :=
  with_accounts f (<[id := account_or_default f id]> (accounts f)).

Definition update_balance (f : WaveField) (id : N) (g : Balance → Balance) : WaveField :=
  let a := account_or_default f id in
  with_accounts f (<[id := {| acc_balance := g (acc_balance a);
                              frequency_vector := frequency_vector a |}]> (accounts f)).

Definition set_non_decaying (f : WaveField) (id : N) : WaveField :=
  update_balance f id (λ b, {| units := units b; last_decay_tick := last_decay_tick b;
    bal_domain := bal_domain b; bal_rate_ppm := bal_rate_ppm b; decays := false;
    last_active_tick := last_active_tick b |}).

Definition mark_active (f : WaveField) (id tick : N) : WaveField :=
  update_balance f id (λ b, {| units := units b; last_decay_tick := last_decay_tick b;
    bal_domain := bal_domain b; bal_rate_ppm := bal_rate_ppm b; decays := decays b;
    last_active_tick := tick |}).

Definition credit_account (f : WaveField) (id amount : N) : WaveField :=
  update_balance f id (λ b, balance_add b amount).

Definition debit_account (f : WaveField) (id amount : N) : WaveField * bool :=
  if units (acc_balance (account_or_default f id)) <? amount
  then (ensure_account f id, false)
  else (update_balance f id (λ b, balance_sub b amount), true).

Definition account_balance (f : WaveField) (id : N) : Balance :=
  match accounts f !! id with Some a => acc_balance a | None => balance_zero end.
Definition pool_balance (f : WaveField) (id : N) : Balance := default balance_zero (pools f !! id).

(** ** Batch synthesis *)

(** [x % p], with the sign of [x], moved up when negative. *)
Definition signed_to_field (x : Z) : Z :=
  let r := Z.rem x NTT_MODULUS in if (r <? 0)%Z then (r + NTT_MODULUS)%Z else r.
Definition field_to_signed (x : Z) : Z :=
  let half := (NTT_MODULUS / 2)%Z in if (half <? x)%Z then (x - NTT_MODULUS)%Z else x.

Inductive batch_error :=
  | RoundTripMismatch (bin : nat) (expected actual : Z)
  | PoolNegative (pool : N) (by_units : N).

(** The loop over the deltas: bins saturate, pool aggregates are plain additions. *)
Definition aggregate_delta (size : nat) (acc : list Z * gmap N Z) (d : Delta)
    : option (list Z * gmap N Z) :=
  let '(time_domain, aggs) := acc in
  let '(coord, delta, pool_id) := d in
  let idx := to_ntt_index coord size in
  v ← time_domain !! idx;
  Some (<[idx := i128_sat (v + delta)]> time_domain,
        <[pool_id := i128_wrap (default 0%Z (aggs !! pool_id) + delta)]> aggs).

(** [for (i, &expected) in time_domain.iter().enumerate()]; [recovered[i]] may panic. *)
Fixpoint verify_bins (i : nat) (time_domain recovered : list Z) : option (result batch_error ()) :=
  match time_domain with
  | [] => Some (Ok ())
  | expected :: rest =>
      match recovered with
      | [] => None
      | r :: recovered =>
          let actual := field_to_signed r in
          if (expected =? actual)%Z then verify_bins (S i) rest recovered
          else Some (Err (RoundTripMismatch i expected actual))
      end
  end.

(** Apply one signed amount to a pool; [entry(..).or_insert(zero)] happens first. *)
Definition apply_commutative_delta (f : WaveField) (pool_id : N) (delta : Z)
    : WaveField * result batch_error () :=
  let b := pool_balance f pool_id in
  if (0 <=? delta)%Z then
    (with_pools f (<[pool_id := balance_add b (Z.to_N delta)]> (pools f)), Ok ())
  else
    let abs := Z.to_N (Z.abs delta) in
    if units b <? abs then (with_pools f (<[pool_id := b]> (pools f)), Err (PoolNegative pool_id abs))
    else (with_pools f (<[pool_id := balance_sub b abs]> (pools f)), Ok ()).

(** [for (pool_id, aggregate) in pool_aggregates], stopping at the first error. *)
Fixpoint apply_aggregates (f : WaveField) (aggs : list (N * Z)) : WaveField * result batch_error () :=
  match aggs with
  | [] => (f, Ok ())
  | (id, agg) :: aggs =>
      match apply_commutative_delta f id agg with
      | (f', Ok _) => apply_aggregates f' aggs
      | (f', Err e) => (f', Err e)
      end
  end.

Section batch.
Context {HO : HashOrder}.

Definition synthesize_commutative_batch (f : WaveField) (deltas : list Delta)
    : option (WaveField * result batch_error ()) :=
  let size := ntt_size (ntt_engine f) in
  acc ← fold_opt (aggregate_delta size) deltas (replicate size 0%Z, ∅);
  let '(time_domain, aggs) := acc in
  ntt_input ← ntt (ntt_engine f) (map signed_to_field time_domain);
  recovered ← intt (ntt_engine f) ntt_input;
  checked ← verify_bins 0 time_domain recovered;
  match checked with
  | Err e => Some (f, Err e)
  | Ok _ =>
      let f := {| accounts := accounts f; pools := pools f; ntt_engine := ntt_engine f;
                  spectrum := ntt_input |} in
      Some (apply_aggregates f (hm_iter aggs))
  end.
End batch.

(** ** Metabolic decay *)

Definition decay_balance_in_place (b : Balance) (tick rate_ppm : N) : Balance * N :=
  if negb (decays b) then (with_decay_tick b tick, 0)
  else if negb (last_active_tick b =? 0)
          && (tick - last_active_tick b <=? METABOLIC_IDLE_GRACE_TICKS)
  then (with_decay_tick b tick, 0)
  else
    let elapsed := tick - last_decay_tick b in
    if (elapsed =? 0) || (units b =? 0) then (with_decay_tick b tick, 0)
    else
      let remaining := decayed_balance (units b) rate_ppm elapsed in
      (with_decay_tick (with_units b remaining) tick, units b - remaining).

Section decay.
Context {HO : HashOrder}.

(** One account of the first loop: immune accounts only have their clock moved. *)
Definition decay_account (tick rate_ppm : N) (immune : gset N) (id : N) (a : AccountState)
    : AccountState * N :=
  let '(b, burned) :=
    if bool_decide (id ∈ immune) then (with_decay_tick (acc_balance a) tick, 0)
    else decay_balance_in_place (acc_balance a) tick rate_ppm in
  ({| acc_balance := b; frequency_vector := frequency_vector a |}, burned).

Definition apply_metabolic_decay (f : WaveField) (tick rate_ppm : N) (immune : gset N)
    : WaveField * N :=
  let burned_accounts := map (λ ka, (decay_account tick rate_ppm immune ka.1 ka.2).2) (hm_iter (accounts f)) in
  let burned_pools := map (λ kb, (decay_balance_in_place kb.2 tick rate_ppm).2) (hm_iter (pools f)) in
  ({| accounts := map_imap (λ id a, Some (decay_account tick rate_ppm immune id a).1) (accounts f);
      pools := (λ b, (decay_balance_in_place b tick rate_ppm).1) <$> pools f;
      ntt_engine := ntt_engine f; spectrum := spectrum f |},
   fold_left (sat_add 128) (burned_accounts ++ burned_pools) 0).
End decay.

(** ** The batch: bins and aggregates *)

Definition bin_sum (size : nat) (ds : list Delta) (i : nat) : Z :=
  Zsum (map (λ d : Delta, if (to_ntt_index d.1.1 size =? i)%nat then d.1.2 else 0%Z) ds).
Definition pool_sum (ds : list Delta) (p : N) : Z :=
  Zsum (map (λ d : Delta, if (d.2 =? p)%N then d.1.2 else 0%Z) ds).
Definition volume (ds : list Delta) : Z := Zsum (map (λ d : Delta, Z.abs d.1.2) ds).

Lemma volume_nonneg ds : (0 ≤ volume ds)%Z.
Proof. unfold volume. induction ds as [|d ds IH]; cbn [map Zsum]; lia. Qed.

Lemma filtered_sum_bound (c : Delta → bool) ds :
  (Z.abs (Zsum (map (λ d : Delta, if c d then d.1.2 else 0%Z) ds)) ≤ volume ds)%Z.
Proof.
  unfold volume. induction ds as [|d ds IH]; cbn [map Zsum]; [lia|]. destruct (c d); lia.
Qed.

Lemma bin_sum_bound size ds i : (Z.abs (bin_sum size ds i) ≤ volume ds)%Z.
Proof. exact (filtered_sum_bound (λ d : Delta, (to_ntt_index d.1.1 size =? i)%nat) ds). Qed.
Lemma pool_sum_bound ds p : (Z.abs (pool_sum ds p) ≤ volume ds)%Z.
Proof. exact (filtered_sum_bound (λ d : Delta, (d.2 =? p)%N) ds). Qed.

Lemma aggregate_spec size ds : (0 < size)%nat → (volume ds < 2 ^ 127)%Z →
  ∃ td aggs, fold_opt (aggregate_delta size) ds (replicate size 0%Z, ∅) = Some (td, aggs)
    ∧ length td = size
    ∧ (∀ i, (i < size)%nat → td !! i = Some (bin_sum size ds i))
    ∧ (∀ p, default 0%Z (aggs !! p) = pool_sum ds p)
    ∧ (∀ p, is_Some (aggs !! p) ↔ ∃ d, d ∈ ds ∧ d.2 = p).
Proof.
  intros Hs. induction ds as [|d ds IH] using rev_ind; intros Hv.
  - exists (replicate size 0%Z), ∅. split_and!; [done|by rewrite length_replicate| | |].
    + intros i Hi. by rewrite lookup_replicate_2.
    + intros p. by rewrite lookup_empty.
    + intros p. rewrite lookup_empty. split; [by intros []|]. intros (d & Hd & _). by apply elem_of_nil in Hd.
  - assert (Ev : volume (ds ++ [d]) = (volume ds + Z.abs d.1.2)%Z).
    { unfold volume. rewrite map_app, Zsum_app. cbn [map Zsum]. lia. }
    pose proof (volume_nonneg ds).
    destruct IH as (td & aggs & E & Hl & Hb & Hp & Hk); [lia|].
    destruct d as [[c dl] p0]. cbn [fst snd] in *.
    pose proof (to_ntt_index_lt c size Hs) as Hidx.
    assert (Hbin : ∀ i, bin_sum size (ds ++ [(c, dl, p0)]) i
      = (bin_sum size ds i + if (to_ntt_index c size =? i)%nat then dl else 0)%Z).
    { intros i. unfold bin_sum. rewrite map_app, Zsum_app. cbn [map Zsum fst snd]. lia. }
    assert (Hpool : ∀ p, pool_sum (ds ++ [(c, dl, p0)]) p
      = (pool_sum ds p + if (p0 =? p)%N then dl else 0)%Z).
    { intros p. unfold pool_sum. rewrite map_app, Zsum_app. cbn [map Zsum fst snd]. lia. }
    rewrite fold_opt_app, E. cbn [mbind option_bind fold_opt aggregate_delta].
    rewrite (Hb _ Hidx). cbn [mbind option_bind].
    eexists _, _. split; [done|]. split_and!.
    + by rewrite length_insert.
    + intros i Hi. rewrite Hbin. destruct (Nat.eqb_spec (to_ntt_index c size) i) as [<-|Hne].
      * rewrite list_lookup_insert_eq by lia. f_equal. apply i128_sat_small.
        pose proof (bin_sum_bound size ds (to_ntt_index c size)). lia.
      * rewrite list_lookup_insert_ne, Z.add_0_r by done. by apply Hb.
    + intros p. rewrite Hpool. destruct (N.eqb_spec p0 p) as [<-|Hne].
      * rewrite lookup_insert_eq. cbn [default]. rewrite Hp. apply i128_wrap_small.
        pose proof (pool_sum_bound ds p0). lia.
      * rewrite lookup_insert_ne, Z.add_0_r by done. by apply Hp.
    + intros p. rewrite lookup_insert_is_Some, Hk. split.
      * intros [<-|[_ (d & Hd & <-)]]; [exists (c, dl, p0)|exists d]; (split; [|done]); set_solver.
      * intros (d & [Hd|Hd]%elem_of_app & <-).
        -- destruct (decide (p0 = d.2)); [by left|right]. split; [done|by exists d].
        -- apply list_elem_of_singleton in Hd as ->. by left.
Qed.

(** ** The batch: the round trip through the field *)

Lemma signed_to_field_canonical x : canonical (signed_to_field x).
Proof.
  unfold canonical, signed_to_field. rewrite P_val.
  pose proof (Z.rem_bound_abs x 998244353 ltac:(done)).
  destruct (Z.ltb_spec (Z.rem x 998244353) 0); lia.
Qed.

Definition fits (x : Z) : Prop := (Z.abs x ≤ 499122176)%Z.
#[export] Instance fits_dec x : Decision (fits x).
Proof. unfold fits. apply _. Defined.

Lemma field_roundtrip x : field_to_signed (signed_to_field x) = x ↔ fits x.
Proof.
  pose proof (signed_to_field_canonical x) as Hc. unfold canonical in Hc.
  unfold field_to_signed, fits. change (NTT_MODULUS / 2)%Z with 499122176%Z. rewrite P_val in *.
  assert (E : ∃ k, signed_to_field x = (x + k * 998244353)%Z).
  { unfold signed_to_field. rewrite P_val. pose proof (Z.quot_rem x 998244353 ltac:(done)).
    destruct (Z.rem x 998244353 <? 0)%Z; [exists (1 - Z.quot x 998244353)%Z|exists (- Z.quot x 998244353)%Z]; lia. }
  destruct E as [k E]. rewrite E in *. destruct (Z.ltb_spec 499122176 (x + k * 998244353)); lia.
Qed.

Lemma verify_bins_spec td : ∀ i,
  (Forall fits td → verify_bins i td (map signed_to_field td) = Some (Ok ()))
  ∧ (¬ Forall fits td → ∃ j e a, verify_bins i td (map signed_to_field td)
                                 = Some (Err (RoundTripMismatch j e a))).
Proof.
  induction td as [|x td IH]; intros i; cbn [map verify_bins].
  { split; [done|]. intros Hn. exfalso. by apply Hn. }
  destruct (Z.eqb_spec x (field_to_signed (signed_to_field x))) as [E|E].
  - symmetry in E. apply field_roundtrip in E. destruct (IH (S i)) as [H1 H2]. split.
    + intros [_ Hf]%Forall_cons. by apply H1.
    + intros Hn. apply H2. intros Hf. apply Hn. by constructor.
  - split; [|intros _; by eexists _, _, _].
    intros [Hf _]%Forall_cons. apply field_roundtrip in Hf. congruence.
Qed.

(** ** The batch: pools *)

Abbreviation pool_units f p := (units (pool_balance f p)).

Lemma pool_insert_eq f id b : pool_balance (with_pools f (<[id := b]> (pools f))) id = b.
Proof. unfold pool_balance. cbn [pools with_pools]. by rewrite lookup_insert_eq. Qed.
Lemma pool_insert_ne f id b p : p ≠ id →
  pool_balance (with_pools f (<[id := b]> (pools f))) p = pool_balance f p.
Proof. intros Hp. unfold pool_balance. cbn [pools with_pools]. by rewrite lookup_insert_ne. Qed.

Lemma apply_delta_spec f id d : pool_units f id < 2 ^ 128 →
  let '(f', r) := apply_commutative_delta f id d in
  accounts f' = accounts f ∧ (∀ p, p ≠ id → pool_balance f' p = pool_balance f p)
  ∧ ((0 ≤ Z.of_N (pool_units f id) + d)%Z → r = Ok ()
     ∧ Z.of_N (pool_units f' id) = Z.min (Z.of_N (pool_units f id) + d) (2 ^ 128 - 1))
  ∧ ((Z.of_N (pool_units f id) + d < 0)%Z →
     r = Err (PoolNegative id (Z.to_N (Z.abs d))) ∧ pool_balance f' id = pool_balance f id).
Proof.
  intros Hu. unfold apply_commutative_delta.
  destruct (Z.leb_spec 0 d); [|destruct (N.ltb_spec (pool_units f id) (Z.to_N (Z.abs d)))];
    (split_and!; [done|intros p; apply pool_insert_ne|intros Hs|intros Hs]);
    try lia; rewrite pool_insert_eq; (split; [done|]); try done;
    cbn [units with_units balance_add balance_sub]; unfold sat_add, umax; lia.
Qed.

Lemma apply_aggregates_spec aggs : ∀ f, NoDup aggs.*1 → (∀ p, pool_units f p < 2 ^ 128) →
  let '(f', r) := apply_aggregates f aggs in
  accounts f' = accounts f
  ∧ (∀ p, p ∉ aggs.*1 → pool_balance f' p = pool_balance f p)
  ∧ match r with
    | Ok _ => ∀ p d, (p, d) ∈ aggs → (0 ≤ Z.of_N (pool_units f p) + d)%Z
        ∧ Z.of_N (pool_units f' p) = Z.min (Z.of_N (pool_units f p) + d) (2 ^ 128 - 1)
    | Err e => ∃ p d, (p, d) ∈ aggs ∧ e = PoolNegative p (Z.to_N (Z.abs d))
        ∧ (Z.of_N (pool_units f p) + d < 0)%Z
    end.
Proof.
  induction aggs as [|[id d] aggs IH]; intros f Hnd Hu; cbn [apply_aggregates].
  { split_and!; try done. intros p d Hin. by apply elem_of_nil in Hin. }
  cbn in Hnd. apply NoDup_cons in Hnd as [Hid Hnd].
  pose proof (apply_delta_spec f id d (Hu id)) as Hd.
  destruct (apply_commutative_delta f id d) as [f1 r1]. destruct Hd as (Hacc & Hoth & Hok & Herr).
  destruct (Z.lt_ge_cases (Z.of_N (pool_units f id) + d) 0) as [Hneg|Hpos].
  - destruct (Herr Hneg) as [-> Hsame]. split_and!; [done| |].
    + intros p Hp. apply Hoth. intros ->. apply Hp. by left.
    + exists id, d. split_and!; [by left|done|done].
  - destruct (Hok Hpos) as [-> Hid1]. specialize (IH f1 Hnd).
    destruct (apply_aggregates f1 aggs) as [f' r]. destruct IH as (Hacc' & Hoth' & Hr).
    { intros p. destruct (decide (p = id)) as [->|Hp]; [lia|]. by rewrite Hoth. }
    assert (Hin1 : ∀ p e, (p, e) ∈ aggs → p ≠ id ∧ pool_balance f1 p = pool_balance f p).
    { intros p e Hin. assert (p ≠ id).
      { intros ->. apply Hid, list_elem_of_fmap. by exists (id, e). }
      split; [done|by apply Hoth]. }
    split_and!; [congruence| |].
    + cbn. intros p [Hp1 Hp2]%not_elem_of_cons. rewrite Hoth', Hoth; done.
    + destruct r as [u|e].
      * intros p e [[= -> ->]|Hin]%elem_of_cons.
        -- split; [lia|]. by rewrite Hoth'.
        -- destruct (Hin1 p e Hin) as [_ <-]. by apply Hr.
      * destruct Hr as (p & e' & Hin & -> & Hlt). exists p, e'. split_and!; [by right|done|].
        destruct (Hin1 p e' Hin) as [_ <-]. done.
Qed.

(** The outcome the batch promises, in terms of sums of the deltas. *)
Definition batch_outcome (f f' : WaveField) (size : nat) (ds : list Delta)
    (r : result batch_error ()) : Prop :=
  match r with
  | Ok _ => (∀ i, (i < size)%nat → fits (bin_sum size ds i))
      ∧ (∀ p, (0 ≤ Z.of_N (pool_units f p) + pool_sum ds p)%Z)
      ∧ (∀ p, Z.of_N (pool_units f' p) = Z.min (Z.of_N (pool_units f p) + pool_sum ds p) (2 ^ 128 - 1))
  | Err (RoundTripMismatch _ _ _) => f' = f ∧ ∃ i, (i < size)%nat ∧ ¬ fits (bin_sum size ds i)
  | Err (PoolNegative p _) => (∀ i, (i < size)%nat → fits (bin_sum size ds i))
      ∧ (Z.of_N (pool_units f p) + pool_sum ds p < 0)%Z
  end.

Lemma bins_decide size ds (td : list Z) : length td = size →
  (∀ i, (i < size)%nat → td !! i = Some (bin_sum size ds i)) →
  (Forall fits td ∧ ∀ i, (i < size)%nat → fits (bin_sum size ds i))
  ∨ (¬ Forall fits td ∧ ∃ i, (i < size)%nat ∧ ¬ fits (bin_sum size ds i)).
Proof.
  intros Hl Hb. destruct (decide (Forall fits td)) as [Hf|Hf]; [left|right]; (split; [done|]).
  - intros i Hi. eapply Forall_lookup_1; [done|by apply Hb].
  - apply not_Forall_Exists, Exists_exists in Hf as (x & Hin & Hx); [|apply _].
    apply list_elem_of_lookup in Hin as [i Hi]. exists i.
    assert (i < size)%nat by (rewrite <- Hl; by eapply lookup_lt_Some).
    split; [done|]. rewrite Hb in Hi by done. by injection Hi as ->.
Qed.

(** The pool loop, against the sums. [f] and [g] have the same pools. *)
Lemma pools_outcome {HO : HashOrder} f g size ds aggs :
  pools g = pools f → (∀ p, pool_units f p < 2 ^ 128) →
  (∀ i, (i < size)%nat → fits (bin_sum size ds i)) →
  (∀ p, default 0%Z (aggs !! p) = pool_sum ds p) →
  let '(f', r) := apply_aggregates g (hm_iter aggs) in
  accounts f' = accounts g ∧ batch_outcome f f' size ds r
  ∧ (r = Ok () ↔ ∀ p, (0 ≤ Z.of_N (pool_units f p) + pool_sum ds p)%Z).
Proof.
  intros Hg Hu Hf Hp.
  assert (Hb : ∀ p, pool_balance g p = pool_balance f p) by (intros p; unfold pool_balance; by rewrite Hg).
  pose proof (apply_aggregates_spec (hm_iter aggs) g (hm_keys_NoDup aggs)) as Ha.
  destruct (apply_aggregates g (hm_iter aggs)) as [f' r].
  destruct Ha as (Hacc & Hoth & Hr); [intros p; by rewrite Hb|]. split; [done|].
  assert (Hsum : ∀ p d, (p, d) ∈ hm_iter aggs → d = pool_sum ds p).
  { intros p d Hin%elem_of_hm_iter. rewrite <- Hp, Hin. done. }
  destruct r as [[]|e]; cbn [batch_outcome].
  - assert (Hall : ∀ p, (0 ≤ Z.of_N (pool_units f p) + pool_sum ds p)%Z
      ∧ Z.of_N (pool_units f' p) = Z.min (Z.of_N (pool_units f p) + pool_sum ds p) (2 ^ 128 - 1)).
    { intros p. specialize (Hu p). destruct (aggs !! p) as [d|] eqn:Ed.
      - apply elem_of_hm_iter in Ed. rewrite <- (Hsum p d Ed), <- Hb. by apply Hr.
      - rewrite Hoth, Hb, <- Hp, Ed by (intros Hin%elem_of_hm_keys; rewrite Ed in Hin; by destruct Hin).
        cbn [default]. lia. }
    split_and!; try done; try (intros p; apply Hall). split; [intros _ p; apply Hall|done].
  - destruct Hr as (p & d & Hin & -> & Hlt). rewrite Hb, (Hsum p d Hin) in Hlt.
    split; [done|]. split; [done|]. intros Hall. specialize (Hall p). lia.
Qed.


(** Whatever the deltas and however large: a batch never panics and keeps the engine. *)
Lemma aggregate_total size ds : (0 < size)%nat → ∀ td aggs, length td = size →
  ∃ td' aggs', fold_opt (aggregate_delta size) ds (td, aggs) = Some (td', aggs') ∧ length td' = size.
Proof.
  intros Hs. induction ds as [|[[c dl] p] ds IH]; intros td aggs Hl; cbn [fold_opt]; [eauto|].
  pose proof (to_ntt_index_lt c size Hs) as Hidx. unfold aggregate_delta at 2.
  destruct (td !! to_ntt_index c size) as [v|] eqn:Hv.
  2: { apply lookup_ge_None_1 in Hv. lia. }
  cbn [mbind option_bind]. apply IH. by rewrite length_insert.
Qed.

Lemma apply_aggregates_engine aggs : ∀ f, ntt_engine (apply_aggregates f aggs).1 = ntt_engine f.
Proof.
  induction aggs as [|[id agg] aggs IH]; intros f; cbn [apply_aggregates]; [done|].
  assert (He : ntt_engine (apply_commutative_delta f id agg).1 = ntt_engine f)
    by (unfold apply_commutative_delta; destruct (0 <=? agg)%Z; [done|]; by destruct (_ <? _)).
  destruct (apply_commutative_delta f id agg) as [f' [[]|e]]; [by rewrite IH|done].
Qed.

Lemma batch_total {HO : HashOrder} f size ds : Ntt.engine_new size = Some (ntt_engine f) →
  ∃ f' r, synthesize_commutative_batch f ds = Some (f', r) ∧ ntt_engine f' = ntt_engine f.
Proof.
  intros He. destruct (engine_new_inv _ _ He) as (m & W & V & Hm & Hsize & Hok).
  assert (Hsz : ntt_size (ntt_engine f) = size) by (rewrite (eo_size _ _ _ _ Hok); done).
  assert (Hs0 : (0 < size)%nat) by (rewrite Hsize; apply Nat.neq_0_lt_0, Nat.pow_nonzero; lia).
  destruct (aggregate_total size ds Hs0 (replicate size 0%Z) ∅) as (td & aggs & E & Hl);
    [by rewrite length_replicate|].
  destruct (ntt_then_intt size (ntt_engine f) (map signed_to_field td) He) as (y & Hy & _ & _ & Hi).
  { by rewrite length_map. }
  { apply Forall_forall. intros z (x & -> & _)%list_elem_of_fmap. apply signed_to_field_canonical. }
  unfold synthesize_commutative_batch. rewrite Hsz, E. cbn [mbind option_bind].
  rewrite Hy. cbn [mbind option_bind]. rewrite Hi. cbn [mbind option_bind].
  destruct (verify_bins_spec td 0) as [Hyes Hno]. destruct (decide (Forall fits td)) as [Hf|Hf].
  - rewrite (Hyes Hf). cbn [mbind option_bind].
    set (g := {| accounts := _ |}). pose proof (apply_aggregates_engine (hm_iter aggs) g) as Hg.
    destruct (apply_aggregates g (hm_iter aggs)) as [f' r]. eauto.
  - destruct (Hno Hf) as (j & e & a & ->). cbn [mbind option_bind]. eauto.
Qed.

(** ** Decay *)

Definition acc_units (a : AccountState) : N := units (acc_balance a).

(** All value in the field. *)
Definition field_total (f : WaveField) : N :=
  Nsum (map (λ ka : N * AccountState, acc_units ka.2) (map_to_list (accounts f)))
  + Nsum (map (λ kb : N * Balance, units kb.2) (map_to_list (pools f))).

Lemma Nsum_imap {A} (g : A → N) (h : N → A → A) (m : gmap N A) :
  Nsum (map (λ ka, g ka.2) (map_to_list (map_imap (λ k a, Some (h k a)) m)))
  = Nsum (map (λ ka, g (h ka.1 ka.2)) (map_to_list m)).
Proof.
  induction m as [|k a m Hk IH] using map_ind; [by rewrite map_imap_empty, map_to_list_empty|].
  assert (Hk' : map_imap (λ k a, Some (h k a)) m !! k = None) by (by rewrite map_lookup_imap, Hk).
  rewrite (map_imap_insert_Some (λ k a, Some (h k a)) k a m (h k a)) by done.
  rewrite (Nsum_perm _ _ (Permutation_map _ (map_to_list_insert _ k (h k a) Hk'))).
  rewrite (Nsum_perm _ _ (Permutation_map _ (map_to_list_insert m k a Hk))).
  cbn [map Nsum fst snd]. by rewrite IH.
Qed.

Lemma sat_sum (l : list N) : Nsum l < 2 ^ 128 → fold_left (sat_add 128) l 0 = Nsum l.
Proof.
  assert (G : ∀ l a, a + Nsum l < 2 ^ 128 → fold_left (sat_add 128) l a = a + Nsum l).
  { clear. induction l as [|x l IH]; intros a Hlt; cbn [fold_left Nsum] in *; [lia|].
    rewrite sat_add_exact by lia. rewrite IH by lia. lia. }
  intros Hlt. rewrite G by done. lia.
Qed.

Lemma decay_in_place_spec b tick rate :
  let '(b', burned) := decay_balance_in_place b tick rate in
  units b' + burned = units b ∧ last_decay_tick b' = tick
  ∧ decays b' = decays b ∧ last_active_tick b' = last_active_tick b ∧ bal_domain b' = bal_domain b.
Proof.
  unfold decay_balance_in_place. destruct (decays b) eqn:Hd; cbn [negb]; [|split_and!; cbn; lia || done].
  destruct (_ && _); [split_and!; cbn; lia || done|].
  destruct (_ || _); [split_and!; cbn; lia || done|].
  cbn [with_units with_decay_tick units last_decay_tick decays last_active_tick bal_domain].
  pose proof (decayed_balance_upper (units b) rate (tick - last_decay_tick b)).
  split_and!; try done. lia.
Qed.

(** When a balance is left alone. *)
Definition exempt (b : Balance) (tick : N) : Prop :=
  decays b = false
  ∨ (last_active_tick b ≠ 0 ∧ tick - last_active_tick b ≤ METABOLIC_IDLE_GRACE_TICKS)
  ∨ tick ≤ last_decay_tick b.

Lemma decay_exempt b tick rate : exempt b tick → units (decay_balance_in_place b tick rate).1 = units b.
Proof.
  unfold exempt, decay_balance_in_place. intros [->|[[H1 H2]|Hle]]; [done| |].
  - destruct (decays b); [|done]. cbn [negb].
    destruct (N.eqb_spec (last_active_tick b) 0); [done|].
    destruct (N.leb_spec (tick - last_active_tick b) METABOLIC_IDLE_GRACE_TICKS); [done|lia].
  - destruct (decays b); [|done]. cbn [negb]. destruct (_ && _); [done|].
    replace (tick - last_decay_tick b) with 0 by lia. done.
Qed.

Section decay_theorems.
Context {HO : HashOrder}.

Lemma decay_account_spec tick rate immune id a :
  acc_units (decay_account tick rate immune id a).1 + (decay_account tick rate immune id a).2 = acc_units a
  ∧ last_decay_tick (acc_balance (decay_account tick rate immune id a).1) = tick
  ∧ (id ∈ immune ∨ exempt (acc_balance a) tick →
     acc_units (decay_account tick rate immune id a).1 = acc_units a).
Proof.
  unfold decay_account. case_bool_decide as Him.
  - cbn. unfold acc_units; cbn. split_and!; lia || done.
  - pose proof (decay_in_place_spec (acc_balance a) tick rate) as Hd.
    pose proof (decay_exempt (acc_balance a) tick rate) as He.
    destruct (decay_balance_in_place _ _ _) as [b burned]. cbn [fst snd] in *.
    unfold acc_units; cbn [acc_balance]. destruct Hd as (? & ? & _). split_and!; try done.
    intros [?|?]; [done|by apply He].
Qed.

Lemma accounts_decay_sum f tick rate immune :
  Nsum (map (λ ka : N * AccountState, acc_units ka.2)
     (map_to_list (map_imap (λ id a, Some (decay_account tick rate immune id a).1) (accounts f))))
  + Nsum (map (λ ka, (decay_account tick rate immune ka.1 ka.2).2) (hm_iter (accounts f)))
  = Nsum (map (λ ka : N * AccountState, acc_units ka.2) (map_to_list (accounts f))).
Proof.
  rewrite (Nsum_imap acc_units).
  rewrite (Nsum_perm _ _ (Permutation_map _ (hm_iter_perm (accounts f)))).
  induction (map_to_list (accounts f)) as [|[k a] l IH]; cbn [map Nsum fst snd]; [lia|].
  destruct (decay_account_spec tick rate immune k a) as [E _]. lia.
Qed.

Lemma pools_decay_sum f tick rate :
  Nsum (map (λ kb : N * Balance, units kb.2)
     (map_to_list ((λ b, (decay_balance_in_place b tick rate).1) <$> pools f)))
  + Nsum (map (λ kb, (decay_balance_in_place kb.2 tick rate).2) (hm_iter (pools f)))
  = Nsum (map (λ kb : N * Balance, units kb.2) (map_to_list (pools f))).
Proof.
  rewrite map_to_list_fmap, map_map.
  rewrite (Nsum_perm _ _ (Permutation_map _ (hm_iter_perm (pools f)))).
  induction (map_to_list (pools f)) as [|[k b] l IH]; cbn [map Nsum fst snd prod_map]; [lia|].
  pose proof (decay_in_place_spec b tick rate) as Hd.
  destruct (decay_balance_in_place b tick rate). cbn [fst snd]. lia.
Qed.

(** C22: a decay pass conserves value: what all balances lose is exactly what the pass
    reports as burned. No balance grows; immune operators, exempt assets, accounts inside
    the activity grace window and balances already at this tick keep all their units;
    and every clock is moved, so that a second pass at the same tick burns nothing. *)
Theorem decay_conserves f tick rate immune : field_total f < 2 ^ 128 →
  let '(f', burned) := apply_metabolic_decay f tick rate immune in
  field_total f' + burned = field_total f
  ∧ (∀ id a, accounts f !! id = Some a → ∃ a', accounts f' !! id = Some a'
       ∧ acc_units a' ≤ acc_units a
       ∧ (id ∈ immune ∨ exempt (acc_balance a) tick → acc_units a' = acc_units a)
       ∧ frequency_vector a' = frequency_vector a)
  ∧ (∀ p, pool_units f' p ≤ pool_units f p)
  ∧ (apply_metabolic_decay f' tick rate immune).2 = 0.
Proof.
  intros Hlt. unfold apply_metabolic_decay.
  set (f' := {| accounts := _; pools := _ |}).
  assert (Hacc : ∀ id, accounts f' !! id = (λ a, (decay_account tick rate immune id a).1) <$> accounts f !! id).
  { intros id. unfold f'; cbn [accounts]. rewrite map_lookup_imap. by destruct (accounts f !! id). }
  assert (Hpool : ∀ p, pools f' !! p = (λ b, (decay_balance_in_place b tick rate).1) <$> pools f !! p).
  { intros p. unfold f'; cbn [pools]. apply lookup_fmap. }
  pose proof (accounts_decay_sum f tick rate immune) as Ea.
  pose proof (pools_decay_sum f tick rate) as Ep.
  change (map_imap _ (accounts f)) with (accounts f') in Ea.
  change (_ <$> pools f) with (pools f') in Ep.
  unfold field_total in *. split_and!.
  - rewrite sat_sum by (rewrite Nsum_app; lia). rewrite Nsum_app. lia.
  - intros id a Ha. rewrite Hacc, Ha. eexists. split; [done|].
    destruct (decay_account_spec tick rate immune id a) as (E & _ & Hex). split_and!; [lia|done|].
    unfold decay_account. case_bool_decide; [done|]. by destruct (decay_balance_in_place _ _ _).
  - intros p. unfold pool_balance. rewrite Hpool. destruct (pools f !! p) as [b|]; cbn; [|lia].
    pose proof (decay_in_place_spec b tick rate) as Hd. destruct (decay_balance_in_place b tick rate).
    cbn. lia.
  - cbn [snd]. set (l := _ ++ _). enough (Hz : Nsum l = 0) by (rewrite sat_sum; lia).
    apply Nsum_zero. unfold l. intros x [Hx|Hx]%elem_of_app.
    + apply list_elem_of_fmap in Hx as ([k a'] & -> & Hin%elem_of_hm_iter). cbn [fst snd].
      rewrite Hacc in Hin. apply fmap_Some in Hin as (a & _ & ->).
      destruct (decay_account_spec tick rate immune k a) as (_ & Ht & _).
      pose proof (decay_account_spec tick rate immune k (decay_account tick rate immune k a).1) as (E & _ & Hex).
      rewrite Hex in E; [lia|]. right. right. right. lia.
    + apply list_elem_of_fmap in Hx as ([k b'] & -> & Hin%elem_of_hm_iter). cbn [fst snd].
      rewrite Hpool in Hin. apply fmap_Some in Hin as (b & _ & ->).
      pose proof (decay_in_place_spec b tick rate) as Hd.
      destruct (decay_balance_in_place b tick rate) as [b' bu]. destruct Hd as (_ & Ht & _). cbn [fst].
      pose proof (decay_in_place_spec b' tick rate) as Hd.
      pose proof (decay_exempt b' tick rate ltac:(right; right; lia)) as He.
      destruct (decay_balance_in_place b' tick rate) as [b'' bu']. cbn [fst snd] in *. lia.
Qed.
End decay_theorems.

(** ** Witnesses *)

Definition empty_engine : NttEngine :=
  {| ntt_size := 0; ntt_roots := []; ntt_inv_roots := []; ntt_inv_size := 0 |}.

(** A field of 16 bins with two pools and two accounts. *)
Definition sample_field : WaveField :=
  {| accounts := {[ 1 := {| acc_balance := with_units balance_zero 1000; frequency_vector := [] |};
                    2 := {| acc_balance := with_units balance_zero 2000; frequency_vector := [] |} ]};
     pools := {[ 7 := with_units balance_zero 50 ]};
     ntt_engine := default empty_engine (Ntt.engine_new 16);
     spectrum := [] |}.

Definition sample_deltas : list Delta :=
  [(Coord 1 2 3 4, (-20)%Z, 7); (Coord 5 0 0 0, 499122176%Z, 8); (Coord 1 2 3 4, 5%Z, 7)].

Lemma sample_field_pools p : units (pool_balance sample_field p) < 2 ^ 128.
Proof.
  unfold pool_balance, sample_field; cbn [pools].
  destruct (decide (p = 7)) as [->|Hp]; [rewrite lookup_singleton_eq|rewrite lookup_singleton_ne by done];
    vm_compute; done.
Qed.


Lemma decay_conserves_witness :
  let HO := map_order in
  let '(f', burned) := apply_metabolic_decay sample_field 3 20 {[ 2 ]} in
  field_total f' + burned = field_total sample_field
  ∧ (∀ id a, accounts sample_field !! id = Some a → ∃ a', accounts f' !! id = Some a'
       ∧ acc_units a' ≤ acc_units a
       ∧ (id ∈ ({[ 2 ]} : gset N) ∨ exempt (acc_balance a) 3 → acc_units a' = acc_units a)
       ∧ frequency_vector a' = frequency_vector a)
  ∧ (∀ p, pool_units f' p ≤ pool_units sample_field p)
  ∧ (apply_metabolic_decay f' 3 20 {[ 2 ]}).2 = 0.
Proof.
  intros HO. apply (decay_conserves sample_field 3 20 {[ 2 ]}). vm_compute. reflexivity.
Defined.

(** A failing batch is not undone: pool 7 keeps its credit although the batch reports an
    error, so submitting the batch again credits it twice. *)
Example failed_batch_is_partially_applied :
  let HO := map_order in
  let deltas := [(coord_zero, 5%Z, 7); (coord_zero, (-51)%Z, 3)] in
  match synthesize_commutative_batch sample_field deltas with
  | Some (f', Err (PoolNegative 3 51)) =>
      match synthesize_commutative_batch f' deltas with
      | Some (f'', Err (PoolNegative 3 51)) =>
          (pool_units sample_field 7, pool_units f' 7, pool_units f'' 7) = (50, 55, 60)
      | _ => False
      end
  | _ => False
  end.
Proof. vm_compute. reflexivity. Qed.
