(* ===== verification/Domain.v ===== *)
(** * Concurrency domains (src/src/consensus/domain.rs)

    Policies and their registry.  Proved: the constructor accepts exactly the policies
    with a decay rate below the denominator and a positive finalization depth; the
    registry always knows the DEX domain and lists its policies in a fixed order. *)
From S2P Require Import Prelude Bytes Value Signals Metabolic.
Local Open Scope N_scope.

Definition DOMAIN_RESERVATION_FEE_WAVE : N := 100.
Definition domain_reservation_fee_units : N := wrap 128 (DOMAIN_RESERVATION_FEE_WAVE * WAVE_PRECISION).

Inductive OrderingMode := Causal | Commutative | Strict.
Inductive FeePolicy := Flat (units : N) | Percentage (basis_points : N) | MetabolicOnly.

Record DomainPolicy := {
  policy_domain : N;
  policy_commutative : bool;
  policy_stateful : bool;
  policy_ordering : OrderingMode;
  finalization_depth : N;
  metabolic_lambda_ppm : N;
  fee_policy : FeePolicy;
}.

Inductive policy_error := LambdaOutOfRange (ppm : N) | ZeroDepth.

Definition dex_default : DomainPolicy :=
  {| policy_domain := DEFAULT_DEX_DOMAIN; policy_commutative := true; policy_stateful := true;
     policy_ordering := Causal; finalization_depth := 3;
     metabolic_lambda_ppm := DEFAULT_DEX_LAMBDA_PPM; fee_policy := MetabolicOnly |}.

Definition policy_new (domain : N) (commutative stateful : bool) (ordering : OrderingMode)
    (depth lambda : N) (fees : FeePolicy) : result policy_error DomainPolicy :=
  if DECAY_DENOMINATOR <=? lambda then Err (LambdaOutOfRange lambda)
  else if depth =? 0 then Err ZeroDepth
  else Ok {| policy_domain := domain; policy_commutative := commutative;
             policy_stateful := stateful; policy_ordering := ordering;
             finalization_depth := depth; metabolic_lambda_ppm := lambda; fee_policy := fees |}.

Definition with_metabolic_lambda (p : DomainPolicy) (rate_ppm : N) : DomainPolicy :=
  {| policy_domain := policy_domain p; policy_commutative := policy_commutative p;
     policy_stateful := policy_stateful p; policy_ordering := policy_ordering p;
     finalization_depth := finalization_depth p; metabolic_lambda_ppm := rate_ppm;
     fee_policy := fee_policy p |}.

Abbreviation DomainRegistry := (gmap N DomainPolicy).

Definition register (r : DomainRegistry) (p : DomainPolicy) : DomainRegistry :=
  <[policy_domain p := p]> r.
Definition registry_new : DomainRegistry := register ∅ dex_default.
Definition registry_get (r : DomainRegistry) (d : N) : option DomainPolicy := r !! d.
Definition registry_contains (r : DomainRegistry) (d : N) : bool := bool_decide (is_Some (r !! d)).

Definition policy_le (a b : DomainPolicy) : bool := policy_domain a <=? policy_domain b.
Definition registry_all {HO : HashOrder} (r : DomainRegistry) : list DomainPolicy :=
  sort_by policy_le (hm_values r).

Lemma policy_new_spec d c s o depth lambda fees :
  is_ok (policy_new d c s o depth lambda fees) = true ↔ lambda < DECAY_DENOMINATOR ∧ depth ≠ 0.
Proof.
  unfold policy_new. destruct (N.leb_spec DECAY_DENOMINATOR lambda); cbn; [split; [done|lia]|].
  destruct (N.eqb_spec depth 0); cbn; [split; [done|lia]|]. split; [lia|done].
Qed.

(** Registries built by [register] from [registry_new]. *)
Definition registry_ok (r : DomainRegistry) : Prop :=
  is_Some (r !! DEFAULT_DEX_DOMAIN) ∧ ∀ k p, r !! k = Some p → policy_domain p = k.

Lemma registry_new_ok : registry_ok registry_new.
Proof.
  unfold registry_new, register. split; [rewrite lookup_insert_eq; by eexists|].
  intros k p [[<- <-]|[_ Hk]]%lookup_insert_Some; [done|by rewrite lookup_empty in Hk].
Qed.

Lemma register_ok r p : registry_ok r → registry_ok (register r p).
Proof.
  intros [Hd Hk]. unfold register. split.
  - rewrite lookup_insert_is_Some. destruct (decide (policy_domain p = DEFAULT_DEX_DOMAIN)); auto.
  - intros k q [[<- <-]|[_ Hq]]%lookup_insert_Some; [done|by apply Hk].
Qed.

(** The listing is the same on every node. *)
Lemma registry_all_stable (O1 O2 : HashOrder) r : registry_ok r →
  @registry_all O1 r = @registry_all O2 r.
Proof.
  intros [_ Hk]. unfold registry_all. apply sort_by_canonical.
  - intros x y. unfold policy_le. rewrite !N.leb_le. lia.
  - intros x y z. unfold policy_le. rewrite !N.leb_le. lia.
  - intros x y [k Hx]%elem_of_hm_values [j Hy]%elem_of_hm_values. unfold policy_le.
    rewrite !N.leb_le. intros H1 H2. pose proof (Hk k x Hx). pose proof (Hk j y Hy).
    assert (k = j) as -> by lia. congruence.
  - unfold hm_values. by rewrite !hm_iter_perm.
Qed.
