(* ===== verification/Dag.v ===== *)
(** * The causal DAG (src/src/consensus/dag.rs)

    Insertion, finalization, clock validation, topological ordering, application and
    double-spend detection: the definitions.  What they guarantee is proved in DagOrder. *)
From S2P Require Import Prelude F64 Bytes Crypto Signals.
Local Open Scope N_scope.

Inductive DagError :=
  | MissingPredecessor (h : N)
  | InvalidSignature (h : N)
  | InsufficientBalance (h : N)
  | DoubleSpend (h : N)
  | CausalCycle (h : N).

Inductive ShiftStatus := Accepted | Rejected (e : DagError) | Finalized.

#[export] Instance dag_error_eq_dec : EqDecision DagError.
Proof. solve_decision. Defined.
#[export] Instance shift_status_eq_dec : EqDecision ShiftStatus.
Proof. solve_decision. Defined.

Record DagNode := {
  node_hash : N;
  node_shift : StatefulShift;
  children : gset N;
  inserted_at_tick : N;
  status : ShiftStatus;
  node_depth : N;
  node_first_seen : N;
  finalized_at_tick : option N;
  applied : bool;
}.

Record VectorClockDag := {
  nodes : gmap N DagNode;
  roots : gset N;
  tips : gmap N N;
  dag_balances : gmap N N;
  rejected : gmap N DagError;
  max_clock : VectorClock.t;
  account_tips : gmap N VectorClock.t;
}.

Definition dag_new : VectorClockDag :=
  {| nodes := ∅; roots := ∅; tips := ∅; dag_balances := ∅; rejected := ∅;
     max_clock := VectorClock.new; account_tips := ∅ |}.

Definition with_nodes (d : VectorClockDag) (ns : gmap N DagNode) : VectorClockDag :=
  {| nodes := ns; roots := roots d; tips := tips d; dag_balances := dag_balances d;
     rejected := rejected d; max_clock := max_clock d; account_tips := account_tips d |}.
Definition with_dag_balances (d : VectorClockDag) (b : gmap N N) : VectorClockDag :=
  {| nodes := nodes d; roots := roots d; tips := tips d; dag_balances := b;
     rejected := rejected d; max_clock := max_clock d; account_tips := account_tips d |}.
Definition reject (d : VectorClockDag) (h : N) (e : DagError) : VectorClockDag :=
  {| nodes := nodes d; roots := roots d; tips := tips d; dag_balances := dag_balances d;
     rejected := <[h := e]> (rejected d); max_clock := max_clock d; account_tips := account_tips d |}.

Definition with_children (n : DagNode) (c : gset N) : DagNode :=
  {| node_hash := node_hash n; node_shift := node_shift n; children := c;
     inserted_at_tick := inserted_at_tick n; status := status n; node_depth := node_depth n;
     node_first_seen := node_first_seen n; finalized_at_tick := finalized_at_tick n;
     applied := applied n |}.

Definition with_status (n : DagNode) (st : ShiftStatus) : DagNode :=
  {| node_hash := node_hash n; node_shift := node_shift n; children := children n;
     inserted_at_tick := inserted_at_tick n; status := st; node_depth := node_depth n;
     node_first_seen := node_first_seen n; finalized_at_tick := finalized_at_tick n;
     applied := applied n |}.
Definition with_applied (n : DagNode) : DagNode :=
  {| node_hash := node_hash n; node_shift := node_shift n; children := children n;
     inserted_at_tick := inserted_at_tick n; status := status n; node_depth := node_depth n;
     node_first_seen := node_first_seen n; finalized_at_tick := finalized_at_tick n;
     applied := true |}.

(** Updates of one node that the oscillator makes: [if let Some(node) = nodes.get_mut(h)]. *)
Definition set_status (d : VectorClockDag) (h : N) (st : ShiftStatus) : VectorClockDag :=
  with_nodes d (alter (λ n, with_status n st) h (nodes d)).
Definition mark_applied (d : VectorClockDag) (h : N) : VectorClockDag :=
  with_nodes d (alter with_applied h (nodes d)).

Definition seed_balance (d : VectorClockDag) (account amount : N) : VectorClockDag :=
  with_dag_balances d (entry_add account amount (dag_balances d)).

Definition FINALIZATION_DEPTH : N := 3.

(** [self.nodes.get_mut(pred).expect(..).children.insert(hash)] *)
Definition add_child (hash : N) (ns : gmap N DagNode) (pred : N) : option (gmap N DagNode) :=
  n ← ns !! pred; Some (<[pred := with_children n ({[ hash ]} ∪ children n)]> ns).

Section dag_ops.
Context {C : Crypto}.

(** Registering a validated shift; [None] is the [expect] on a predecessor. *)
Definition insert_node (d : VectorClockDag) (hash : N) (s : StatefulShift) (tick depth : N)
    : option VectorClockDag :=
  let node := {| node_hash := hash; node_shift := s; children := ∅; inserted_at_tick := tick;
                 status := Accepted; node_depth := depth;
                 node_first_seen := ss_first_seen_at_ns s; finalized_at_tick := None;
                 applied := false |} in
  let tip := match account_tips d !! ss_from s with
             | Some vc => VectorClock.merge vc (ss_vector_clock s)
             | None => ss_vector_clock s
             end in
  ns ← (if bool_decide (ss_predecessors s = []) then Some (nodes d)
        else fold_opt (add_child hash) (ss_predecessors s) (nodes d));
  let ns := <[hash := node]> ns in
  let sender_tip := default hash (tips d !! ss_from s) in
  let new_tip :=
    match ns !! sender_tip with
    | Some existing =>
        if VectorClock.happened_before (ss_vector_clock (node_shift existing)) (ss_vector_clock s)
        then hash else sender_tip
    | None => hash
    end in
  Some {| nodes := ns;
          roots := if bool_decide (ss_predecessors s = []) then {[ hash ]} ∪ roots d else roots d;
          tips := <[ss_from s := new_tip]> (tips d);
          dag_balances := dag_balances d; rejected := rejected d;
          max_clock := VectorClock.merge (max_clock d) (ss_vector_clock s);
          account_tips := <[ss_from s := tip]> (account_tips d) |}.

(** The first declared predecessor that is not in the DAG. *)
Definition missing_predecessor (d : VectorClockDag) (s : StatefulShift) : option N :=
  List.find (λ p, negb (bool_decide (is_Some (nodes d !! p)))) (ss_predecessors s).

Definition dag_insert (d : VectorClockDag) (s : StatefulShift) (vk : VerifyingKey)
    (tick depth : N) : option (VectorClockDag * result DagError N) :=
  let hash := ss_hash s in
  if negb (ss_verify_signature s vk) then
    Some (reject d hash (InvalidSignature hash), Err (InvalidSignature hash))
  else if bool_decide (is_Some (nodes d !! hash)) then Some (d, Ok hash)
  else
    match missing_predecessor d s with
    | Some p => Some (reject d hash (MissingPredecessor p), Err (MissingPredecessor p))
    | None => d' ← insert_node d hash s tick depth; Some (d', Ok hash)
    end.
End dag_ops.

(** One node of the loop of [promote_to_finalized]. *)
Definition promotable (current_tick : N) (n : DagNode) : bool :=
  bool_decide (status n = Accepted) && (node_depth n <=? current_tick - inserted_at_tick n).

Definition promote_node (current_tick : N) (n : DagNode) : DagNode :=
  if promotable current_tick n then
    {| node_hash := node_hash n; node_shift := node_shift n; children := children n;
       inserted_at_tick := inserted_at_tick n; status := Finalized; node_depth := node_depth n;
       node_first_seen := node_first_seen n; finalized_at_tick := Some current_tick;
       applied := applied n |}
  else n.

(** The count and the total latency of the nodes promoted so far. *)
Definition promote_tally (current_tick finalized_at : N) (acc : nat * f64) (hn : N * DagNode) : nat * f64 :=
  if promotable current_tick hn.2 then
    (S acc.1, if node_first_seen hn.2 <? finalized_at
              then f64_add acc.2 (f64_div (f64_of_N (finalized_at - node_first_seen hn.2)) (f64_of_N 1000000))
              else acc.2)
  else acc.

(** The DAG the loop leaves, whatever the order it visits the nodes in. *)
Definition promote_all (d : VectorClockDag) (current_tick : N) : VectorClockDag :=
  with_nodes d (promote_node current_tick <$> nodes d).

Definition promote_to_finalized {HO : HashOrder} (d : VectorClockDag) (current_tick finalized_at : N)
    : VectorClockDag * (nat * f64) :=
  (promote_all d current_tick,
   fold_left (promote_tally current_tick finalized_at) (hm_iter (nodes d)) (0%nat, f64_zero)).

Definition shift_status (d : VectorClockDag) (h : N) : option ShiftStatus :=
  match nodes d !! h with
  | Some n => Some (status n)
  | None => Rejected <$> rejected d !! h
  end.

Definition account_tip (d : VectorClockDag) (account : N) : VectorClock.t :=
  default VectorClock.new (account_tips d !! account).

Inductive clock_error :=
  | InvalidOwnTime (expected got : N)
  | UnseenNode (node time : N)
  | MissingOwnEntry.

(** The loop over a provided clock. *)
Fixpoint check_clock (d : VectorClockDag) (sender expected_own : N) (entries : list (N * N))
    : result clock_error () :=
  match entries with
  | [] => Ok ()
  | (node, time) :: entries =>
      if node =? sender then
        if negb (time =? expected_own) then Err (InvalidOwnTime expected_own time)
        else check_clock d sender expected_own entries
      else if VectorClock.get (max_clock d) node <? time then Err (UnseenNode node time)
      else check_clock d sender expected_own entries
  end.

Definition validate_or_derive (d : VectorClockDag) (sender : N) (provided : option VectorClock.t)
    : result clock_error VectorClock.t :=
  let own_tip := VectorClock.get (account_tip d sender) sender in
  let expected_own := wadd 64 own_tip 1 in
  match provided with
  | Some vc =>
      _ ← check_clock d sender expected_own (bt_iter vc);
      if negb (bool_decide (is_Some (vc !! sender))) then Err MissingOwnEntry else Ok vc
  | None => Ok (VectorClock.tick (account_tip d sender) sender).1
  end.

Definition validate_vector_clock (d : VectorClockDag) (sender : N) (vc : VectorClock.t)
    : result clock_error () :=
  _ ← validate_or_derive d sender (Some vc); Ok ().

Section ordering.
Context {HO : HashOrder}.

Definition finalized_shifts_since (d : VectorClockDag) (from : N) : list DagNode :=
  List.filter (λ n, bool_decide (status n = Finalized)
                    && match finalized_at_tick n with Some t => from <=? t | None => false end)
              (hm_values (nodes d)).

(** [*in_degree.entry(child).or_insert(0) += 1] *)
Definition bump (deg : gmap N nat) (h : N) : gmap N nat := <[h := S (default 0%nat (deg !! h))]> deg.

Definition count_edges (deg : gmap N nat) (hn : N * DagNode) : gmap N nat :=
  let deg := <[hn.1 := default 0%nat (deg !! hn.1)]> deg in
  fold_left bump (hs_iter (children hn.2)) deg.

Definition in_degrees (d : VectorClockDag) : gmap N nat :=
  fold_left count_edges (hm_iter (nodes d)) ∅.

(** One comparison of the selection loop: best index, best hash, best clock. *)
Definition pick_step (d : VectorClockDag) (best : nat * N * VectorClock.t) (ih : nat * N)
    : option (nat * N * VectorClock.t) :=
  let '(best_idx, best_hash, best_vc) := best in
  let '(i, h) := ih in
  n ← nodes d !! h;
  let vc := ss_vector_clock (node_shift n) in
  if VectorClock.happened_before vc best_vc then Some (i, h, vc)
  else if VectorClock.concurrent_with vc best_vc then
    if h <? best_hash then Some (i, h, vc) else Some best
  else Some best.

Definition pick_minimal_ready (d : VectorClockDag) (ready : list N) : option nat :=
  match ready with
  | [] => None
  | h :: rest =>
      n ← nodes d !! h;
      best ← fold_opt (pick_step d) (combine (seq 1 (length rest)) rest)
               (0%nat, h, ss_vector_clock (node_shift n));
      Some best.1.1
  end.

(** [Vec::swap_remove]: the last element takes the place of the removed one. *)
Definition swap_remove (l : list N) (i : nat) : option (N * list N) :=
  h ← l !! i;
  x ← last l;
  Some (h, take (length l - 1) (<[i := x]> l)).

(** One child of the removed node: [None] is the [expect] on its in-degree, or the
    decrement of a zero (which a release build would wrap around; never reached). *)
Definition release (acc : gmap N nat * list N) (child : N) : option (gmap N nat * list N) :=
  deg ← acc.1 !! child;
  match deg with
  | O => None
  | S deg =>
      let degs := <[child := deg]> acc.1 in
      Some (degs, if (deg =? 0)%nat then acc.2 ++ [child] else acc.2)
  end.

(** [while !ready.is_empty()]; one unit of fuel per node ordered. *)
Fixpoint order_loop (fuel : nat) (d : VectorClockDag) (degs : gmap N nat) (ready order : list N)
    : option (list N) :=
  match ready with
  | [] => Some order
  | _ =>
      match fuel with
      | O => None
      | S fuel =>
          idx ← pick_minimal_ready d ready;
          hr ← swap_remove ready idx;
          let '(h, ready) := hr in
          let order := order ++ [h] in
          match nodes d !! h with
          | Some n =>
              dr ← fold_opt release (hs_iter (children n)) (degs, ready);
              order_loop fuel d dr.1 dr.2 order
          | None => order_loop fuel d degs ready order
          end
      end
  end.

Definition initial_ready (d : VectorClockDag) (degs : gmap N nat) : list N :=
  List.filter (λ h, (default 0%nat (degs !! h) =? 0)%nat) (hs_iter (roots d)).

(** [None] is a panic; every node is ordered at most once, so [size] turns are enough. *)
Definition topological_order (d : VectorClockDag) : option (result DagError (list N)) :=
  let degs := in_degrees d in
  order ← order_loop (size (nodes d)) d degs (initial_ready d degs) [];
  Some (if negb (length order =? size (nodes d))%nat then Err (CausalCycle 0) else Ok order).

(** One shift of [apply_ordered]. *)
Definition apply_shift (d : VectorClockDag) (acc : gmap N N * list DagError) (h : N)
    : option (gmap N N * list DagError) :=
  let '(simulated, errors) := acc in
  n ← nodes d !! h;
  let s := node_shift n in
  let sender_balance := default 0 (simulated !! ss_from s) in
  if sender_balance <? ss_amount s then Some (simulated, errors ++ [InsufficientBalance h])
  else
    b ← simulated !! ss_from s;
    let simulated := <[ss_from s := wsub 128 b (ss_amount s)]> simulated in
    Some (entry_add (ss_to s) (ss_amount s) simulated, errors).

Definition apply_ordered (d : VectorClockDag) : option (result (list DagError) (gmap N N)) :=
  order ← topological_order d;
  match order with
  | Err e => Some (Err [e])
  | Ok order =>
      acc ← fold_opt (apply_shift d) order (dag_balances d, []);
      Some (if bool_decide (acc.2 = []) then Ok acc.1 else Err acc.2)
  end.

(** Hashes of each sender, in table order. *)
Definition by_sender (d : VectorClockDag) : gmap N (list N) :=
  fold_left (λ m hn, <[ss_from (node_shift hn.2) :=
                         default [] (m !! ss_from (node_shift hn.2)) ++ [hn.1]]> m)
            (hm_iter (nodes d)) ∅.

Definition insertion_le (d : VectorClockDag) (a b : N) : bool :=
  let ta := match nodes d !! a with Some n => inserted_at_tick n | None => 0 end in
  let tb := match nodes d !! b with Some n => inserted_at_tick n | None => 0 end in
  (ta <? tb) || ((ta =? tb) && (a <=? b)).

(** The inner loop: what [h1] and the later concurrent shifts spend together. *)
Fixpoint conflicts_with (d : VectorClockDag) (balance : N) (n1 : DagNode) (spent : N) (later : list N)
    : option (list DagError) :=
  match later with
  | [] => Some []
  | h2 :: later =>
      n2 ← nodes d !! h2;
      if VectorClock.concurrent_with (ss_vector_clock (node_shift n1)) (ss_vector_clock (node_shift n2))
      then
        let total := wadd 128 spent (ss_amount (node_shift n2)) in
        rest ← conflicts_with d balance n1 total later;
        Some (if balance <? total then DoubleSpend h2 :: rest else rest)
      else conflicts_with d balance n1 spent later
  end.

Fixpoint pairwise_conflicts (d : VectorClockDag) (balance : N) (hashes : list N)
    : option (list DagError) :=
  match hashes with
  | [] => Some []
  | h1 :: later =>
      n1 ← nodes d !! h1;
      v ← conflicts_with d balance n1 (ss_amount (node_shift n1)) later;
      rest ← pairwise_conflicts d balance later;
      Some (v ++ rest)
  end.

Definition detect_double_spends (d : VectorClockDag) : option (list DagError) :=
  fold_opt (λ acc ah,
      v ← pairwise_conflicts d (default 0 (dag_balances d !! ah.1)) (sort_by (insertion_le d) ah.2);
      Some (acc ++ v))
    (hm_iter (by_sender d)) [].
End ordering.
