(* ===== verification/DagOrder.v ===== *)
(** * Well-formed DAGs and their topological order (src/src/consensus/dag.rs)

    The invariant [dag_inv] of every DAG the node builds, its preservation by every
    operation that changes nodes, and the correctness of [topological_order] on it. *)
From S2P Require Import Prelude Bytes Crypto Signals Dag.
Local Open Scope N_scope.

Definition preds (n : DagNode) : gset N := list_to_set (ss_predecessors (node_shift n)).

(** Children are exactly the nodes that declare the node as a predecessor, roots are the
    nodes that declare none, and some rank grows along every edge. *)
Record dag_inv (d : VectorClockDag) : Prop := {
  di_children : ∀ h n c, nodes d !! h = Some n →
    c ∈ children n ↔ ∃ m, nodes d !! c = Some m ∧ h ∈ preds m;
  di_closed : ∀ c m p, nodes d !! c = Some m → p ∈ preds m → is_Some (nodes d !! p);
  di_roots : ∀ h, h ∈ roots d ↔ ∃ n, nodes d !! h = Some n ∧ preds n = ∅;
  di_rank : ∃ rank : N → nat, ∀ c m p,
    nodes d !! c = Some m → p ∈ preds m → (rank p < rank c)%nat;
}.

Lemma preds_nil n : preds n = ∅ ↔ ss_predecessors (node_shift n) = [].
Proof.
  unfold preds. split; [|by intros ->].
  destruct (ss_predecessors (node_shift n)) as [|p l]; [done|]. intros E. exfalso.
  assert (p ∈ (list_to_set (p :: l) : gset N)) as Hp by set_solver. rewrite E in Hp. set_solver.
Qed.

Lemma dag_new_inv : dag_inv dag_new.
Proof.
  split; unfold dag_new; cbn [nodes roots]; intros *; try (by rewrite lookup_empty).
  - split; [set_solver|]. intros (n & Hn & _). by rewrite lookup_empty in Hn.
  - exists (λ _, 0%nat). intros *. by rewrite lookup_empty.
Qed.

(** Operations that keep every node's shift and children keep the invariant. *)
Lemma dag_inv_same d d' :
  roots d' = roots d →
  (∀ h, (λ n, (node_shift n, children n)) <$> nodes d' !! h
        = (λ n, (node_shift n, children n)) <$> nodes d !! h) →
  dag_inv d → dag_inv d'.
Proof.
  intros Hr Hn [H1 H2 H3 H4].
  assert (Hback : ∀ h n', nodes d' !! h = Some n' →
    ∃ n, nodes d !! h = Some n ∧ preds n = preds n' ∧ children n = children n').
  { intros h n' Hh. specialize (Hn h). rewrite Hh in Hn. cbn in Hn. symmetry in Hn.
    apply fmap_Some in Hn as (n & Hd & [= Es Ec]). exists n. unfold preds. by rewrite Es. }
  assert (Hforth : ∀ h n, nodes d !! h = Some n →
    ∃ n', nodes d' !! h = Some n' ∧ preds n = preds n' ∧ children n = children n').
  { intros h n Hh. specialize (Hn h). rewrite Hh in Hn. cbn in Hn.
    apply fmap_Some in Hn as (n' & Hd & [= Es Ec]). exists n'. unfold preds. by rewrite Es. }
  split.
  - intros h n' c (n & Hd & _ & <-)%Hback. rewrite (H1 h n c Hd). split.
    + intros (m & Hm & Hp). destruct (Hforth c m Hm) as (m' & ? & E & _). exists m'. by rewrite <- E.
    + intros (m & Hm & Hp). destruct (Hback c m Hm) as (m' & ? & E & _). exists m'. by rewrite E.
  - intros c m' p Hm Hp. destruct (Hback c m' Hm) as (m & Hd & E & _). rewrite <- E in Hp.
    destruct (H2 c m p Hd Hp) as [n Hh]. destruct (Hforth p n Hh) as (n' & -> & _). by eexists.
  - intros h. rewrite Hr, H3. split.
    + intros (n & Hm & Hp). destruct (Hforth h n Hm) as (m' & ? & E & _). exists m'. by rewrite <- E.
    + intros (n & Hm & Hp). destruct (Hback h n Hm) as (m' & ? & E & _). exists m'. by rewrite E.
  - destruct H4 as [rank Hk]. exists rank. intros c m' p Hm Hp.
    destruct (Hback c m' Hm) as (m & Hd & E & _). rewrite <- E in Hp. by eapply Hk.
Qed.

Lemma promote_inv d t : dag_inv d → dag_inv (promote_all d t).
Proof.
  apply dag_inv_same; [done|]. intros h. cbn [promote_all nodes with_nodes].
  rewrite lookup_fmap. destruct (nodes d !! h) as [n|]; [|done]. cbn. unfold promote_node.
  by destruct (promotable t n).
Qed.

Lemma alter_inv d h (f : DagNode → DagNode) :
  (∀ n, node_shift (f n) = node_shift n ∧ children (f n) = children n) →
  dag_inv d → dag_inv (with_nodes d (alter f h (nodes d))).
Proof.
  intros Hf. apply dag_inv_same; [done|]. intros k. cbn [nodes with_nodes].
  destruct (decide (h = k)) as [<-|]; [|by rewrite lookup_alter_ne].
  rewrite lookup_alter_eq. destruct (nodes d !! h) as [n|]; [|done]. cbn.
  destruct (Hf n) as [-> ->]. done.
Qed.
Lemma set_status_inv d h st : dag_inv d → dag_inv (set_status d h st).
Proof. by apply alter_inv. Qed.
Lemma mark_applied_inv d h : dag_inv d → dag_inv (mark_applied d h).
Proof. by apply alter_inv. Qed.

Lemma reject_inv d h e : dag_inv d → dag_inv (reject d h e).
Proof. by apply dag_inv_same. Qed.
Lemma balances_inv d b : dag_inv d → dag_inv (with_dag_balances d b).
Proof. by apply dag_inv_same. Qed.

(** ** Insertion *)

Lemma add_children_spec hash ps : ∀ ns, (∀ p, p ∈ ps → is_Some (ns !! p)) →
  ∃ ns', fold_opt (add_child hash) ps ns = Some ns' ∧
    ∀ k, ns' !! k = (λ n, if decide (k ∈ ps) then with_children n ({[ hash ]} ∪ children n) else n)
                    <$> ns !! k.
Proof.
  induction ps as [|p ps IH]; intros ns Hp; cbn [fold_opt].
  { exists ns. split; [done|]. intros k. destruct (ns !! k); cbn; [|done].
    rewrite decide_False; [done|apply not_elem_of_nil]. }
  destruct (Hp p) as [n Hn]; [by left|].
  set (ns1 := <[p := with_children n ({[ hash ]} ∪ children n)]> ns).
  assert (add_child hash ns p = Some ns1) as -> by (unfold add_child; by rewrite Hn).
  cbn [mbind option_bind].
  destruct (IH ns1) as (ns' & E & Hall).
  { intros q Hq. unfold ns1. rewrite lookup_insert_is_Some.
    destruct (decide (p = q)); [by left|right; split; [done|apply Hp; by right]]. }
  exists ns'. split; [done|]. intros k. rewrite Hall. unfold ns1.
  destruct (decide (p = k)) as [<-|Hne].
  - rewrite lookup_insert_eq, Hn. cbn. f_equal. rewrite (decide_True (P := p ∈ p :: ps)) by by left.
    destruct (decide (p ∈ ps)); [|done]. unfold with_children; cbn. f_equal. set_solver.
  - rewrite lookup_insert_ne by done. destruct (ns !! k); cbn; [|done]. f_equal.
    destruct (decide (k ∈ ps)), (decide (k ∈ p :: ps)); set_solver.
Qed.

(** What one insertion does to the node table. *)
Section grow.
Context (d d' : VectorClockDag) (hash : N) (s : StatefulShift) (node : DagNode).
Context (Hinv : dag_inv d) (Hfresh : nodes d !! hash = None).
Context (Hps : ∀ p, p ∈ ss_predecessors s → is_Some (nodes d !! p)).
Context (Hnode : node_shift node = s ∧ children node = ∅).
Context (Hnodes : ∀ k, nodes d' !! k =
  if decide (k = hash) then Some node
  else (λ n, if decide (k ∈ ss_predecessors s) then with_children n ({[ hash ]} ∪ children n) else n)
       <$> nodes d !! k).
Context (Hroots : roots d' = if bool_decide (ss_predecessors s = []) then {[ hash ]} ∪ roots d else roots d).

Lemma grow_new : nodes d' !! hash = Some node.
Proof using Hnodes. by rewrite Hnodes, decide_True. Qed.

Lemma preds_shift n n' : node_shift n' = node_shift n → preds n' = preds n.
Proof. unfold preds. by intros ->. Qed.

Lemma grow_preds p : p ∈ preds node ↔ p ∈ ss_predecessors s.
Proof using Hnode. destruct Hnode as [E _]. unfold preds. rewrite E. apply elem_of_list_to_set. Qed.

Lemma grow_old h n : nodes d !! h = Some n → ∃ n', nodes d' !! h = Some n' ∧ preds n' = preds n
  ∧ n' = with_children n (children n')
  ∧ ∀ c, c ∈ children n' ↔ c ∈ children n ∨ (c = hash ∧ h ∈ ss_predecessors s).
Proof using Hfresh Hnodes.
  clear Hinv Hps Hnode Hroots.
  intros Hh. rewrite Hnodes, decide_False by congruence. rewrite Hh. cbn. eexists. split; [done|].
  destruct (decide (h ∈ ss_predecessors s)); split_and!; try done; [| |]; try (by destruct n).
  - intros c. cbn. set_solver.
  - intros c. naive_solver.
Qed.

(** A node of the new table is the new one or comes from the old table. *)
Lemma grow_back h n' : nodes d' !! h = Some n' →
  (h = hash ∧ n' = node)
  ∨ ∃ n, nodes d !! h = Some n ∧ preds n' = preds n
      ∧ ∀ c, c ∈ children n' ↔ c ∈ children n ∨ (c = hash ∧ h ∈ ss_predecessors s).
Proof using Hfresh Hnodes.
  intros Hh. destruct (decide (h = hash)) as [->|Hne].
  - left. rewrite grow_new in Hh. by injection Hh as <-.
  - right. pose proof (Hnodes h) as E. rewrite decide_False, Hh in E by done. symmetry in E.
    apply fmap_Some in E as (n & Hd & _). destruct (grow_old h n Hd) as (n'' & Hh' & Es & _ & Ec).
    rewrite Hh in Hh'. injection Hh' as <-. eauto.
Qed.

Lemma grow_children h n c : nodes d' !! h = Some n →
  c ∈ children n ↔ ∃ m, nodes d' !! c = Some m ∧ h ∈ preds m.
Proof using Hinv Hfresh Hps Hnode Hnodes.
  destruct Hinv as [H1 H2 _ _]. intros [[-> ->]|(n0 & Hd & _ & Hc)]%grow_back.
  - destruct Hnode as [_ ->]. split; [by intros ?%elem_of_empty|].
    intros (m & [[-> ->]|(m0 & Hd & Es & _)]%grow_back & Hp).
    + apply grow_preds, Hps in Hp as [? ?]. congruence.
    + rewrite Es in Hp. destruct (H2 c m0 hash Hd Hp). congruence.
  - rewrite Hc, (H1 h n0 c Hd). split.
    + intros [(m & Hm & Hp)|[-> Hp]].
      * destruct (grow_old c m Hm) as (m' & Hm' & Es & _). exists m'. by rewrite Es.
      * exists node. rewrite grow_new. split; [done|by apply grow_preds].
    + intros (m & [[-> ->]|(m0 & Hd' & Es & _)]%grow_back & Hp).
      * right. split; [done|by apply grow_preds].
      * left. exists m0. by rewrite <- Es.
Qed.

Lemma grow_closed c m p : nodes d' !! c = Some m → p ∈ preds m → is_Some (nodes d' !! p).
Proof using Hinv Hfresh Hps Hnode Hnodes.
  destruct Hinv as [_ H2 _ _]. intros Hm Hp.
  assert (Hd : is_Some (nodes d !! p)).
  { apply grow_back in Hm as [[-> ->]|(m0 & Hd & Es & _)]; [by apply grow_preds, Hps in Hp|].
    rewrite Es in Hp. by eapply H2. }
  destruct Hd as [n Hn]. destruct (grow_old p n Hn) as (? & -> & _). by eexists.
Qed.

Lemma grow_roots h : h ∈ roots d' ↔ ∃ n, nodes d' !! h = Some n ∧ preds n = ∅.
Proof using Hinv Hfresh Hnode Hnodes Hroots.
  clear Hps. assert (Hcase : (∃ n, nodes d' !! h = Some n ∧ preds n = ∅) ↔
     (h = hash ∧ ss_predecessors s = []) ∨ (∃ n, nodes d !! h = Some n ∧ preds n = ∅)).
  { destruct Hnode as [Es0 _]. split.
    - intros (n & [[-> ->]|(n0 & Hd & Es & _)]%grow_back & Hp).
      + left. split; [done|]. apply preds_nil in Hp. by rewrite Es0 in Hp.
      + right. exists n0. by rewrite <- Es.
    - intros [[-> Hp]|(n & Hd & Hp)].
      + exists node. rewrite grow_new. split; [done|]. apply preds_nil. by rewrite Es0.
      + destruct (grow_old h n Hd) as (n' & Hn' & Es & _). exists n'. by rewrite Es. }
  rewrite Hcase, <- (di_roots d Hinv), Hroots. case_bool_decide; set_solver.
Qed.

Lemma grow_rank : ∃ rank : N → nat, ∀ c m p,
  nodes d' !! c = Some m → p ∈ preds m → (rank p < rank c)%nat.
Proof using Hinv Hfresh Hps Hnode Hnodes.
  destruct Hinv as [_ H2 _ [rank H4]].
  exists (λ h, if decide (h = hash) then S (list_max (rank <$> ss_predecessors s)) else rank h).
  intros c m p [[-> ->]|(m0 & Hd & Es & _)]%grow_back Hp.
  - apply grow_preds in Hp. destruct (Hps p Hp). rewrite decide_False by congruence.
    rewrite decide_True by done. apply Nat.lt_succ_r.
    pose proof (proj1 (list_max_le (rank <$> ss_predecessors s) _) (Nat.le_refl _)) as Hmx.
    rewrite List.Forall_forall in Hmx. apply Hmx, list_elem_of_In, list_elem_of_fmap. by exists p.
  - rewrite Es in Hp. destruct (H2 c m0 p Hd Hp). rewrite !decide_False by congruence. by eapply H4.
Qed.

Lemma grow_inv : dag_inv d'.
Proof using Hinv Hfresh Hps Hnode Hnodes Hroots.
  split; [apply grow_children|apply grow_closed|apply grow_roots|apply grow_rank].
Qed.
End grow.

Lemma insert_node_inv d hash s tick depth : dag_inv d → nodes d !! hash = None →
  (∀ p, p ∈ ss_predecessors s → is_Some (nodes d !! p)) →
  ∃ d', insert_node d hash s tick depth = Some d' ∧ dag_inv d'
    ∧ (∃ n, nodes d' !! hash = Some n ∧ node_shift n = s ∧ status n = Accepted
            ∧ inserted_at_tick n = tick ∧ node_depth n = depth ∧ applied n = false
            ∧ node_hash n = hash)
    ∧ (∀ h n, nodes d !! h = Some n → ∃ n', nodes d' !! h = Some n' ∧
         n' = with_children n (children n'))
    ∧ dom (nodes d') = {[ hash ]} ∪ dom (nodes d).
Proof.
  intros Hinv Hfresh Hps. unfold insert_node. set (node := {| node_hash := hash |}).
  assert (∃ ns, (if bool_decide (ss_predecessors s = []) then Some (nodes d)
                 else fold_opt (add_child hash) (ss_predecessors s) (nodes d)) = Some ns ∧
    ∀ k, ns !! k = (λ n, if decide (k ∈ ss_predecessors s) then with_children n ({[ hash ]} ∪ children n) else n)
                    <$> nodes d !! k) as (ns & -> & Hns).
  { case_bool_decide as E; [|by apply add_children_spec]. exists (nodes d). split; [done|].
    intros k. rewrite E. destruct (nodes d !! k); cbn; [|done].
    rewrite decide_False; [done|apply not_elem_of_nil]. }
  cbn [mbind option_bind]. eexists. split; [done|]. cbn zeta. set (d' := {| nodes := _ |}).
  assert (Hnodes : ∀ k, nodes d' !! k = if decide (k = hash) then Some node
    else (λ n, if decide (k ∈ ss_predecessors s) then with_children n ({[ hash ]} ∪ children n) else n)
         <$> nodes d !! k).
  { intros k. unfold d'; cbn [nodes]. destruct (decide (k = hash)) as [->|]; [by rewrite lookup_insert_eq|].
    by rewrite lookup_insert_ne, Hns. }
  split_and!.
  - by apply (grow_inv d d' hash s node).
  - exists node. by rewrite (grow_new d d' hash s node).
  - intros h n Hh. destruct (grow_old d d' hash s node Hfresh Hnodes h n Hh) as (n' & ? & _ & ? & _). eauto.
  - unfold d'; cbn [nodes]. rewrite dom_insert_L. f_equal. apply set_eq.
    intros k. rewrite !elem_of_dom, Hns. by rewrite fmap_is_Some.
Qed.

(** ** In-degrees *)

Section order.
Context {HO : HashOrder}.

Lemma bump_spec l : ∀ deg, NoDup l →
  (∀ c, default 0%nat (fold_left bump l deg !! c)
        = (default 0%nat (deg !! c) + if decide (c ∈ l) then 1 else 0)%nat)
  ∧ (∀ c, is_Some (fold_left bump l deg !! c) ↔ is_Some (deg !! c) ∨ c ∈ l).
Proof.
  induction l as [|h l IH]; intros deg Hnd; cbn [fold_left].
  { split; intros c; [rewrite decide_False; [lia|apply not_elem_of_nil]|].
    rewrite elem_of_nil. naive_solver. }
  apply NoDup_cons in Hnd as [Hh Hnd]. destruct (IH (bump deg h) Hnd) as [H1 H2]. split; intros c.
  - rewrite H1. unfold bump. destruct (decide (h = c)) as [->|Hne].
    + rewrite lookup_insert_eq. cbn [default from_option id]. rewrite decide_False by done.
      rewrite (decide_True (P := c ∈ c :: l)) by by left. lia.
    + rewrite lookup_insert_ne by done.
      destruct (decide (c ∈ l)), (decide (c ∈ h :: l)) as [Hc|Hc]; try lia; exfalso; set_solver.
  - rewrite H2. unfold bump. rewrite lookup_insert_is_Some, elem_of_cons.
    destruct (decide (h = c)) as [->|]; naive_solver.
Qed.

(** Entries of [l] that have [c] among their children. *)
Definition parents_in (l : list (N * DagNode)) (c : N) : nat :=
  length (List.filter (λ hn : N * DagNode, bool_decide (c ∈ children hn.2)) l).

Lemma count_edges_spec l : ∀ deg,
  (∀ c, default 0%nat (fold_left count_edges l deg !! c)
        = (default 0%nat (deg !! c) + parents_in l c)%nat)
  ∧ (∀ c, is_Some (fold_left count_edges l deg !! c) ↔
       is_Some (deg !! c) ∨ c ∈ l.*1 ∨ ∃ hn, hn ∈ l ∧ c ∈ children hn.2).
Proof.
  induction l as [|[h n] l IH]; intros deg; cbn [fold_left].
  { split; intros c; [unfold parents_in; cbn; lia|]. split; [by left|].
    intros [?|[?%elem_of_nil|(? & ?%elem_of_nil & _)]]; done. }
  destruct (IH (count_edges deg (h, n))) as [H1 H2].
  destruct (bump_spec (hs_iter (children n)) (<[h := default 0%nat (deg !! h)]> deg)
    (hs_iter_NoDup _)) as [B1 B2].
  split; intros c.
  - rewrite H1. unfold count_edges at 1. cbn [fst snd]. rewrite B1. unfold parents_in; cbn [List.filter snd].
    assert (default 0%nat (<[h := default 0%nat (deg !! h)]> deg !! c) = default 0%nat (deg !! c)) as ->.
    { destruct (decide (h = c)) as [->|]; [by rewrite lookup_insert_eq|by rewrite lookup_insert_ne]. }
    case_bool_decide as E; cbn [length].
    + rewrite decide_True by (by apply elem_of_hs_iter). lia.
    + rewrite decide_False by (by rewrite elem_of_hs_iter). lia.
  - rewrite H2. unfold count_edges at 1. cbn [fst snd]. rewrite B2, lookup_insert_is_Some, elem_of_hs_iter.
    cbn [fmap list_fmap fst]. rewrite elem_of_cons. split.
    + intros [[[->|[_ ?]]|Hc]|[?|(hn & ? & ?)]]; [right; left; by left|by left| | |].
      * right. right. exists (h, n). split; [by left|done].
      * right. left. by right.
      * right. right. exists hn. split; [by right|done].
    + intros [Hc|[[->|?]|(hn & [->|?]%elem_of_cons & ?)]].
      * left. left. destruct (decide (h = c)); auto.
      * left. left. by left.
      * by right; left.
      * by left; right.
      * right. right. eauto.
Qed.

Lemma parents_in_size d c m : dag_inv d → nodes d !! c = Some m →
  parents_in (hm_iter (nodes d)) c = size (preds m).
Proof.
  intros Hi Hc. unfold parents_in.
  rewrite <- (length_fmap fst). rewrite <- (size_list_to_set (C := gset N)).
  - f_equal. apply set_eq. intros p. rewrite elem_of_list_to_set, list_elem_of_fmap. split.
    + intros ([h n] & -> & Hin). cbn. apply list_elem_of_In, filter_In in Hin as [Hin Hp%bool_decide_eq_true].
      apply list_elem_of_In, elem_of_hm_iter in Hin. apply (di_children d Hi h n c Hin) in Hp as (m' & Hm & Hp).
      congruence.
    + intros Hp. destruct (di_closed d Hi c m p Hc Hp) as [n Hn]. exists (p, n). split; [done|].
      apply list_elem_of_In, filter_In. split; [by apply list_elem_of_In, elem_of_hm_iter|].
      apply bool_decide_eq_true. apply (di_children d Hi p n c Hn). eauto.
  - pose proof (hm_keys_NoDup (nodes d)) as Hnd. unfold hm_keys in Hnd. revert Hnd.
    generalize (hm_iter (nodes d)). intros l. induction l as [|[h n] l IH]; [done|].
    cbn. intros [Hh Hnd]%NoDup_cons. case_bool_decide; [|by apply IH].
    cbn. apply NoDup_cons. split; [|by apply IH]. intros Hin. apply Hh.
    apply list_elem_of_fmap in Hin as (x & -> & Hin). apply list_elem_of_fmap. exists x. split; [done|].
    apply list_elem_of_In. by apply list_elem_of_In, filter_In in Hin as [? _].
Qed.

Lemma in_degrees_spec d c : dag_inv d →
  in_degrees d !! c = (λ m, size (preds m)) <$> nodes d !! c.
Proof.
  intros Hi. unfold in_degrees. destruct (count_edges_spec (hm_iter (nodes d)) ∅) as [H1 H2].
  destruct (nodes d !! c) as [m|] eqn:Hc; cbn.
  - assert (is_Some (fold_left count_edges (hm_iter (nodes d)) ∅ !! c)) as [k Hk].
    { apply H2. right. left. apply elem_of_hm_keys. by rewrite Hc. }
    rewrite Hk. f_equal. specialize (H1 c). rewrite Hk, lookup_empty in H1. cbn in H1.
    rewrite H1. by apply parents_in_size.
  - destruct (fold_left count_edges (hm_iter (nodes d)) ∅ !! c) as [k|] eqn:E; [|done]. exfalso.
    assert (is_Some (fold_left count_edges (hm_iter (nodes d)) ∅ !! c)) as Hs by by rewrite E.
    apply H2 in Hs as [Hs|[Hs|([h n] & Hin%elem_of_hm_iter & Hch)]].
    + rewrite lookup_empty in Hs. by destruct Hs.
    + apply elem_of_hm_keys in Hs. rewrite Hc in Hs. by destruct Hs.
    + apply (di_children d Hi h n c Hin) in Hch as (m & Hm & _). congruence.
Qed.

(** ** Picking and removing *)

Lemma pick_spec d ready : ready ≠ [] → (∀ h, h ∈ ready → is_Some (nodes d !! h)) →
  ∃ i, pick_minimal_ready d ready = Some i ∧ (i < length ready)%nat.
Proof.
  destruct ready as [|h rest]; [done|]. intros _ Hin. unfold pick_minimal_ready.
  destruct (Hin h) as [n Hn]; [by left|]. rewrite Hn. cbn [mbind option_bind].
  enough (∀ l best, (∀ ih, ih ∈ l → (ih.1 < length (h :: rest))%nat ∧ is_Some (nodes d !! ih.2)) →
    (best.1.1 < length (h :: rest))%nat →
    ∃ best', fold_opt (pick_step d) l best = Some best' ∧ (best'.1.1 < length (h :: rest))%nat) as G.
  { destruct (G (combine (seq 1 (length rest)) rest) (0%nat, h, ss_vector_clock (node_shift n)))
      as (best' & -> & Hb).
    - intros [i k] Hik%list_elem_of_In. split.
      + apply in_combine_l, in_seq in Hik. cbn in *. lia.
      + apply in_combine_r, list_elem_of_In in Hik. apply Hin. by right.
    - cbn. lia.
    - cbn. by exists best'.1.1. }
  clear. induction l as [|[i k] l IH]; intros best Hl Hb; cbn [fold_opt]; [by exists best|].
  destruct (Hl (i, k)) as [Hi [m Hm]]; [by left|]. cbn [fst snd] in *.
  assert (∃ b1, pick_step d best (i, k) = Some b1 ∧ (b1.1.1 < length (h :: rest))%nat) as (b1 & -> & Hb1).
  { destruct best as [[bi bh] bvc]. unfold pick_step. rewrite Hm. cbn [mbind option_bind].
    destruct (VectorClock.happened_before _ _); [by eexists|].
    destruct (VectorClock.concurrent_with _ _); [|by eexists]. destruct (k <? bh); by eexists. }
  cbn [mbind option_bind]. apply IH; [|done]. intros ih Hih. apply Hl. by right.
Qed.

Lemma swap_remove_spec (l : list N) i : (i < length l)%nat →
  ∃ h l', swap_remove l i = Some (h, l') ∧ l ≡ₚ h :: l'.
Proof.
  intros Hi. unfold swap_remove.
  destruct (lookup_lt_is_Some_2 l i Hi) as [h Hh]. rewrite Hh. cbn [mbind option_bind].
  destruct (last l) as [x|] eqn:Hx; [|apply last_None in Hx; subst; cbn in Hi; lia].
  cbn [mbind option_bind]. eexists _, _. split; [done|].
  apply last_Some in Hx as [l0 ->]. rewrite length_app in *. cbn [length] in *.
  replace (length l0 + 1 - 1)%nat with (length l0) by lia.
  destruct (decide (i = length l0)) as [->|Hne].
  - rewrite list_lookup_middle in Hh by done. injection Hh as ->.
    rewrite insert_app_r_alt, Nat.sub_diag by lia. cbn. rewrite take_app_length.
    by rewrite Permutation_app_comm.
  - rewrite insert_app_l, take_app_le by (rewrite ?length_insert; lia).
    rewrite firstn_all2 by (rewrite length_insert; lia).
    rewrite lookup_app_l in Hh by lia. rewrite <- (take_drop_middle l0 i h) by done.
    assert (Hins : <[i:=x]> (take i l0 ++ h :: drop (S i) l0) = take i l0 ++ x :: drop (S i) l0).
    { rewrite insert_app_r_alt by (rewrite length_take; lia). f_equal.
      rewrite length_take_le by lia. by rewrite Nat.sub_diag. }
    rewrite Hins, <- app_assoc. cbn [app].
    rewrite (Permutation_app_comm (drop (S i) l0) [x]). cbn [app].
    by rewrite <- Permutation_middle.
Qed.

(** Releasing the children of a node. *)
Lemma release_spec cs : ∀ degs ready, NoDup cs → (∀ c, c ∈ cs → ∃ k, degs !! c = Some (S k)) →
  ∃ degs' fresh, fold_opt release cs (degs, ready) = Some (degs', ready ++ fresh)
    ∧ (∀ c, degs' !! c = (λ k, if decide (c ∈ cs) then pred k else k) <$> degs !! c)
    ∧ NoDup fresh ∧ (∀ c, c ∈ fresh ↔ c ∈ cs ∧ degs !! c = Some 1%nat).
Proof.
  induction cs as [|c cs IH]; intros degs ready Hnd Hpos; cbn [fold_opt].
  { exists degs, []. rewrite app_nil_r. split_and!; [done| |constructor|set_solver].
    intros c. destruct (degs !! c); cbn; [|done]. rewrite decide_False; [done|apply not_elem_of_nil]. }
  apply NoDup_cons in Hnd as [Hc Hnd]. destruct (Hpos c) as [k Hk]; [by left|].
  assert (E : release (degs, ready) c =
    Some (<[c := k]> degs, if (k =? 0)%nat then ready ++ [c] else ready)).
  { unfold release; cbn [fst snd]. by rewrite Hk. }
  rewrite E. cbn [mbind option_bind].
  destruct (IH (<[c := k]> degs) (if (k =? 0)%nat then ready ++ [c] else ready) Hnd)
    as (degs' & fresh & -> & H1 & H2 & H3).
  { intros x Hx. rewrite lookup_insert_ne by set_solver. apply Hpos. by right. }
  exists degs', ((if (k =? 0)%nat then [c] else []) ++ fresh). split_and!.
  - destruct (k =? 0)%nat; cbn; by rewrite <- ?app_assoc.
  - intros x. rewrite H1. destruct (decide (c = x)) as [<-|Hne].
    + rewrite lookup_insert_eq, Hk. cbn. rewrite decide_False by done.
      rewrite decide_True by by left. done.
    + rewrite lookup_insert_ne by done. destruct (degs !! x); cbn; [|done]. f_equal.
      destruct (decide (x ∈ cs)), (decide (x ∈ c :: cs)); set_solver.
  - apply NoDup_app. split_and!; [destruct (k =? 0)%nat; repeat constructor; set_solver| |done].
    intros x Hx Hf. apply H3 in Hf as [Hf _]. destruct (k =? 0)%nat; set_solver.
  - intros x. rewrite elem_of_app, H3. destruct (decide (x = c)) as [->|Hne].
    + rewrite Hk. destruct (Nat.eqb_spec k 0) as [->|].
      * split; [intros _; split; [by left|done]|]. intros _. left. by left.
      * split; [intros [?%elem_of_nil|[? _]]; done|]. intros [_ [= ->]]. done.
    + rewrite lookup_insert_ne by done. destruct (k =? 0)%nat; set_solver.
Qed.

(** ** The loop *)

(** Progress of Kahn's algorithm: [order] is done, [ready] has all its predecessors done,
    and the in-degrees count the predecessors that are not. *)
Record loop_inv (d : VectorClockDag) (degs : gmap N nat) (ready order : list N) : Prop := {
  li_NoDup : NoDup (order ++ ready);
  li_nodes : ∀ h, h ∈ order ++ ready → is_Some (nodes d !! h);
  li_degs : ∀ c m, nodes d !! c = Some m →
    degs !! c = Some (size (preds m ∖ list_to_set order));
  li_ready : ∀ c m, nodes d !! c = Some m →
    c ∈ order ++ ready ↔ preds m ⊆ list_to_set order;
  li_first : ∀ i c m p, order !! i = Some c → nodes d !! c = Some m → p ∈ preds m → p ∈ take i order;
}.

Lemma size_minus_one (X O : gset N) (h : N) : h ∈ X → h ∉ O →
  size (X ∖ O) = S (size (X ∖ ({[ h ]} ∪ O))).
Proof.
  intros HX HO'. assert (X ∖ O = {[ h ]} ∪ X ∖ ({[ h ]} ∪ O)) as ->.
  { apply set_eq. intros x. destruct (decide (x = h)) as [->|]; set_solver. }
  rewrite size_union by set_solver. rewrite size_singleton. done.
Qed.

Lemma subset_step (X O : gset N) (h : N) :
  X ⊆ O ∨ (h ∈ X ∧ X ⊆ {[ h ]} ∪ O) ↔ X ⊆ {[ h ]} ∪ O.
Proof.
  split; [intros [Hs|[_ Hs]]; set_solver|]. intros Hs.
  destruct (decide (h ∈ X)) as [Hh|Hh]; [by right|left].
  intros x Hx. specialize (Hs x Hx). apply elem_of_union in Hs as [->%elem_of_singleton|]; done.
Qed.

(** What putting [h] in order leaves undone of a set. *)
Lemma undone_step (X : gset N) order h : h ∉ order →
  (h ∈ X → size (X ∖ list_to_set order) = S (size (X ∖ list_to_set (order ++ [h]))))
  ∧ (h ∉ X → X ∖ list_to_set (order ++ [h]) = X ∖ list_to_set order)
  ∧ (list_to_set (order ++ [h]) : gset N) = {[ h ]} ∪ list_to_set order.
Proof.
  intros Hh. assert (EO : (list_to_set (order ++ [h]) : gset N) = {[ h ]} ∪ list_to_set order) by set_solver.
  rewrite EO. split_and!; [|set_solver|done].
  intros HX. apply size_minus_one; [done|by rewrite elem_of_list_to_set].
Qed.

Lemma first_step d degs ready order h : loop_inv d degs ready order → h ∈ ready →
  ∀ i c m p, (order ++ [h]) !! i = Some c → nodes d !! c = Some m → p ∈ preds m → p ∈ take i (order ++ [h]).
Proof.
  intros [_ _ _ L4 L5] Hh i c m p Hc Hm Hpm. apply lookup_app_Some in Hc as [Hc|[Hlen Hc]].
  - rewrite take_app_le by (apply lookup_lt_Some in Hc; lia). by eapply L5.
  - assert (i = length order) as -> by (apply lookup_lt_Some in Hc; cbn in Hc; lia).
    rewrite Nat.sub_diag in Hc. injection Hc as <-. rewrite take_app_length.
    assert (Hsub : preds m ⊆ list_to_set order) by (apply (L4 h m Hm), elem_of_app; by right).
    by apply Hsub, elem_of_list_to_set in Hpm.
Qed.

Lemma loop_step d degs ready ready' order h n : dag_inv d → loop_inv d degs ready order →
  ready ≡ₚ h :: ready' → nodes d !! h = Some n →
  ∃ degs' fresh, fold_opt release (hs_iter (children n)) (degs, ready') = Some (degs', ready' ++ fresh)
    ∧ loop_inv d degs' (ready' ++ fresh) (order ++ [h]).
Proof.
  intros Hi Hinv Hp Hn. pose proof Hinv as [L1 L2 L3 L4 _].
  assert (Hh : h ∉ order).
  { rewrite Hp in L1. apply NoDup_app in L1 as (_ & Hd & _). intros Hin. apply (Hd h Hin). by left. }
  assert (Hchild : ∀ c, c ∈ children n ↔ ∃ m, nodes d !! c = Some m ∧ h ∈ preds m)
    by (intros c; by apply (di_children d Hi)).
  pose proof (λ m, undone_step (preds m) order h Hh) as Hundone.
  assert (Hminus : ∀ m, h ∈ preds m → _) by (intros m; apply (Hundone m)).
  assert (Hsame : ∀ m, h ∉ preds m → _) by (intros m; apply (Hundone m)).
  destruct (Hundone n) as (_ & _ & EO).
  destruct (release_spec (hs_iter (children n)) degs ready' (hs_iter_NoDup _))
    as (degs' & fresh & Hr & R1 & R2 & R3).
  { intros c (m & Hm & Hhm)%elem_of_hs_iter%Hchild. rewrite (L3 c m Hm), (Hminus m Hhm). by eexists. }
  assert (Hfresh : ∀ c m, nodes d !! c = Some m →
    c ∈ fresh ↔ h ∈ preds m ∧ preds m ⊆ list_to_set (order ++ [h])).
  { intros c m Hm. rewrite R3, elem_of_hs_iter, Hchild, (L3 c m Hm). split.
    - intros [(m' & Hm' & Hhm) [= Hs]]. assert (m' = m) as -> by congruence. split; [done|].
      rewrite Hminus in Hs by done. injection Hs as Hs%size_empty_inv. by apply empty_difference_subseteq.
    - intros [Hhm Hsub]. split; [by exists m|]. f_equal. rewrite Hminus by done. f_equal.
      apply size_empty_iff. by apply subseteq_empty_difference. }
  assert (Hfresh_new : ∀ c, c ∈ fresh → c ∉ order ++ ready).
  { intros c Hc Hin. destruct (L2 c Hin) as [m Hm]. apply (Hfresh c m Hm) in Hc as [Hhm _].
    apply (L4 c m Hm) in Hin. apply Hh. specialize (Hin h Hhm). by apply elem_of_list_to_set in Hin. }
  assert (Hperm : (order ++ [h]) ++ ready' ++ fresh ≡ₚ (order ++ ready) ++ fresh).
  { rewrite Hp, <- !app_assoc. cbn. done. }
  exists degs', fresh. split; [done|]. split.
  - rewrite Hperm. apply NoDup_app. split_and!; [done| |done]. intros c Hc Hf. by apply (Hfresh_new c).
  - intros c. rewrite Hperm, elem_of_app. intros [Hc|Hc]; [by apply L2|].
    apply R3 in Hc as [Hc%elem_of_hs_iter%Hchild _]. destruct Hc as (m & -> & _). by eexists.
  - intros c m Hm. rewrite R1, (L3 c m Hm). cbn. f_equal.
    destruct (decide (h ∈ preds m)) as [Hhm|Hhm].
    + rewrite decide_True by (apply elem_of_hs_iter, Hchild; eauto). by rewrite Hminus.
    + rewrite decide_False; [by rewrite Hsame|].
      intros (m' & Hm' & Hx)%elem_of_hs_iter%Hchild. congruence.
  - intros c m Hm. rewrite Hperm, elem_of_app, (L4 c m Hm), (Hfresh c m Hm), EO.
    apply subset_step.
  - apply (first_step d degs ready); [done|]. rewrite Hp. by left.
Qed.

Lemma loop_bounded d degs ready order : loop_inv d degs ready order →
  (length order + length ready ≤ size (nodes d))%nat.
Proof.
  intros [L1 L2 _ _ _]. rewrite <- length_app, <- (size_list_to_set (C := gset N)) by done.
  rewrite <- size_dom. apply subseteq_size. intros h Hh%elem_of_list_to_set%L2. by apply elem_of_dom.
Qed.

(** When nothing is ready any more, everything has been ordered: the rank excludes the
    cycle that would be needed to get stuck. *)
Lemma loop_complete d degs order : dag_inv d → loop_inv d degs [] order →
  ∀ c m, nodes d !! c = Some m → c ∈ order.
Proof.
  intros Hi [_ _ _ L4 _]. destruct (di_rank d Hi) as [rank Hrank].
  setoid_rewrite app_nil_r in L4.
  assert (G : ∀ r c m, (rank c < r)%nat → nodes d !! c = Some m → c ∈ order).
  { induction r as [|r IH]; intros c m Hr Hc; [lia|]. apply (L4 c m Hc). intros p Hp.
    apply elem_of_list_to_set. destruct (di_closed d Hi c m p Hc Hp) as [n Hn].
    apply (IH p n); [|done]. pose proof (Hrank c m p Hc Hp). lia. }
  intros c m Hc. apply (G (S (rank c)) c m); [lia|done].
Qed.

Lemma order_loop_spec d fuel : dag_inv d → ∀ degs ready order,
  loop_inv d degs ready order → (size (nodes d) ≤ fuel + length order)%nat →
  ∃ degs' order', order_loop fuel d degs ready order = Some order' ∧ loop_inv d degs' [] order'.
Proof.
  intros Hi. induction fuel as [|fuel IH]; intros degs ready order Hl Hf.
  - pose proof (loop_bounded _ _ _ _ Hl). destruct ready as [|h r]; [|cbn in *; lia].
    cbn. by exists degs, order.
  - destruct (decide (ready = [])) as [->|Hne]; [cbn; by exists degs, order|].
    destruct (pick_spec d ready Hne) as (i & Hpick & Hidx).
    { intros h Hh. apply (li_nodes _ _ _ _ Hl). set_solver. }
    destruct (swap_remove_spec ready i Hidx) as (h & ready' & Hsw & Hp).
    destruct (li_nodes _ _ _ _ Hl h) as [n Hn]; [rewrite Hp; set_solver|].
    destruct (loop_step d degs ready ready' order h n Hi Hl Hp Hn) as (degs' & fresh & Hrel & Hl').
    destruct (IH degs' (ready' ++ fresh) (order ++ [h]) Hl') as (degs'' & order' & Ho & Hl'').
    { rewrite length_app. cbn. lia. }
    exists degs'', order'. split; [|done]. cbn [order_loop]. destruct ready as [|x r]; [done|].
    rewrite Hpick. cbn [mbind option_bind]. rewrite Hsw. cbn [mbind option_bind].
    rewrite Hn, Hrel. cbn [mbind option_bind fst snd]. done.
Qed.

Lemma initial_inv d : dag_inv d → loop_inv d (in_degrees d) (initial_ready d (in_degrees d)) [].
Proof.
  intros Hi. assert (Hin : ∀ h, h ∈ initial_ready d (in_degrees d) ↔
    ∃ n, nodes d !! h = Some n ∧ preds n = ∅).
  { intros h. unfold initial_ready. rewrite list_elem_of_In, filter_In, <- list_elem_of_In, elem_of_hs_iter.
    rewrite (di_roots d Hi), in_degrees_spec by done. split; [by intros [? _]|].
    intros (n & Hn & He). split; [by exists n|]. rewrite Hn. cbn. rewrite He, size_empty. done. }
  split; cbn [app].
  - unfold initial_ready. apply NoDup_ListNoDup, List.NoDup_filter, NoDup_ListNoDup, hs_iter_NoDup.
  - intros h (n & -> & _)%Hin. by eexists.
  - intros c m Hm. rewrite in_degrees_spec, Hm by done. cbn. do 2 f_equal. set_solver.
  - intros c m Hm. rewrite Hin. split.
    + intros (n & Hn & He). assert (n = m) as -> by congruence. rewrite He. set_solver.
    + intros Hs. exists m. split; [done|]. set_solver.
  - intros i c m p Hc. by rewrite lookup_nil in Hc.
Qed.

Lemma topological_order_spec d : dag_inv d →
  ∃ order, topological_order d = Some (Ok order) ∧ NoDup order
    ∧ (∀ h, h ∈ order ↔ is_Some (nodes d !! h))
    ∧ (∀ i c m p, order !! i = Some c → nodes d !! c = Some m → p ∈ preds m → p ∈ take i order).
Proof.
  intros Hi. pose proof (initial_inv d Hi) as H0.
  destruct (order_loop_spec d (size (nodes d)) Hi _ _ _ H0) as (degs & order & Ho & Hl); [lia|].
  exists order. unfold topological_order. rewrite Ho. cbn [mbind option_bind].
  pose proof (loop_complete d degs order Hi Hl) as Hall. destruct Hl as [L1 L2 _ _ L5].
  rewrite app_nil_r in *.
  assert (Hlen : length order = size (nodes d)).
  { rewrite <- (size_list_to_set (C := gset N)) by done. rewrite <- size_dom. f_equal.
    apply set_eq. intros h. rewrite elem_of_list_to_set, elem_of_dom. split; [apply L2|].
    intros [m Hm]. by eapply Hall. }
  rewrite Hlen, Nat.eqb_refl. cbn [negb]. split_and!; try done.
  intros h. split; [apply L2|]. intros [m Hm]. by eapply Hall.
Qed.
End order.

(** ** Double-spend detection never panics *)

Section detection.
Context {HO : HashOrder}.

Lemma by_sender_known d a hs h : by_sender d !! a = Some hs → h ∈ hs → is_Some (nodes d !! h).
Proof.
  unfold by_sender.
  assert (G : ∀ (l : list (N * DagNode)) (m : gmap N (list N)),
    (∀ a hs h, m !! a = Some hs → h ∈ hs → is_Some (nodes d !! h)) →
    (∀ h n, (h, n) ∈ l → is_Some (nodes d !! h)) →
    ∀ a hs h, fold_left (λ m hn, <[ss_from (node_shift hn.2) :=
                  default [] (m !! ss_from (node_shift hn.2)) ++ [hn.1]]> m) l m !! a = Some hs →
      h ∈ hs → is_Some (nodes d !! h)).
  { induction l as [|[h0 n0] l IH]; intros m Hm Hl; cbn [fold_left]; [done|].
    apply IH; [|intros h' n' Hin; apply (Hl h' n'); by right]. cbn [fst snd].
    intros a' hs' h' [[<- <-]|[_ Hm']]%lookup_insert_Some; [|by eapply Hm].
    intros [Hin| ->%list_elem_of_singleton]%elem_of_app; [|apply (Hl h0 n0); by left].
    destruct (m !! ss_from (node_shift n0)) as [hs0|] eqn:E; [by eapply Hm|by apply elem_of_nil in Hin]. }
  intros Ha Hh. eapply (G (hm_iter (nodes d)) ∅); [| |exact Ha|exact Hh].
  - intros *. by rewrite lookup_empty.
  - intros h' n' Hn%elem_of_hm_iter. by eexists.
Qed.

Lemma conflicts_total d b n1 later : (∀ h, h ∈ later → is_Some (nodes d !! h)) →
  ∀ spent, is_Some (conflicts_with d b n1 spent later).
Proof.
  induction later as [|h later IH]; intros Hk spent; cbn [conflicts_with]; [by eexists|].
  destruct (Hk h ltac:(by left)) as [n2 ->]. cbn [mbind option_bind].
  assert (Hk' : ∀ h, h ∈ later → is_Some (nodes d !! h)) by (intros h' Hh; apply Hk; by right).
  destruct (VectorClock.concurrent_with _ _); [|by apply IH].
  destruct (IH Hk' (wadd 128 spent (ss_amount (node_shift n2)))) as [r ->]. by eexists.
Qed.

Lemma pairwise_total d b hs : (∀ h, h ∈ hs → is_Some (nodes d !! h)) →
  is_Some (pairwise_conflicts d b hs).
Proof.
  induction hs as [|h hs IH]; intros Hk; cbn [pairwise_conflicts]; [by eexists|].
  destruct (Hk h ltac:(by left)) as [n1 ->]. cbn [mbind option_bind].
  assert (Hk' : ∀ h, h ∈ hs → is_Some (nodes d !! h)) by (intros h' Hh; apply Hk; by right).
  destruct (conflicts_total d b n1 hs Hk' (ss_amount (node_shift n1))) as [v ->].
  destruct (IH Hk') as [r ->]. by eexists.
Qed.

Lemma detect_total d : is_Some (detect_double_spends d).
Proof.
  unfold detect_double_spends.
  assert (G : ∀ (l : list (N * list N)) acc, (∀ a hs h, (a, hs) ∈ l → h ∈ hs → is_Some (nodes d !! h)) →
    is_Some (fold_opt (λ acc ah,
      v ← pairwise_conflicts d (default 0 (dag_balances d !! ah.1)) (sort_by (insertion_le d) ah.2);
      Some (acc ++ v)) l acc)).
  { induction l as [|[a hs] l IH]; intros acc Hk; cbn [fold_opt]; [by eexists|]. cbn [fst snd].
    destruct (pairwise_total d (default 0 (dag_balances d !! a)) (sort_by (insertion_le d) hs)) as [v ->].
    { intros h Hh. rewrite sort_by_perm in Hh. apply (Hk a hs); [by left|done]. }
    cbn [mbind option_bind]. apply IH. intros a' hs' h Hin. apply (Hk a' hs'). by right. }
  apply G. intros a hs h Hin%elem_of_hm_iter. by eapply by_sender_known.
Qed.
End detection.

(** ** The DAGs the node builds *)

(** Clocks of senders never run ahead of the largest clock seen. *)
Definition tips_ok (d : VectorClockDag) : Prop :=
  ∀ a c, account_tips d !! a = Some c → VectorClock.clock_le c (max_clock d).

(** Nodes are stored under the hash they carry. *)
Definition hashes_ok (d : VectorClockDag) : Prop :=
  ∀ h n, nodes d !! h = Some n → node_hash n = h.

(** A DAG as it comes back from disk: the same nodes and edges, roots that are the nodes
    without predecessors, and no clocks. *)
Record restored (d d' : VectorClockDag) : Prop := {
  re_roots : roots d' = roots d;
  re_nodes : ∀ h, (λ n, (node_shift n, children n)) <$> nodes d' !! h
                  = (λ n, (node_shift n, children n)) <$> nodes d !! h;
  re_hashes : hashes_ok d';
  re_clocks : account_tips d' = ∅;
}.

Section reachable.
Context {C : Crypto}.

Inductive dag_reachable : VectorClockDag → Prop :=
  | dr_new : dag_reachable dag_new
  | dr_insert d s vk tick depth d' r :
      dag_reachable d → dag_insert d s vk tick depth = Some (d', r) → dag_reachable d'
  | dr_promote d t : dag_reachable d → dag_reachable (promote_all d t)
  | dr_status d h st : dag_reachable d → dag_reachable (set_status d h st)
  | dr_applied d h : dag_reachable d → dag_reachable (mark_applied d h)
  | dr_balances d b : dag_reachable d → dag_reachable (with_dag_balances d b)
  | dr_restored d d' : dag_reachable d → restored d d' → dag_reachable d'.

Lemma missing_predecessor_none d s : missing_predecessor d s = None →
  ∀ p, p ∈ ss_predecessors s → is_Some (nodes d !! p).
Proof.
  intros Hm p Hp. apply list_elem_of_In in Hp. pose proof (find_none _ _ Hm p Hp) as E.
  cbn in E. apply negb_false_iff, bool_decide_eq_true in E. done.
Qed.

Lemma insert_tips_ok d hash s tick depth d' :
  tips_ok d → insert_node d hash s tick depth = Some d' → tips_ok d'.
Proof.
  intros Ht E. unfold insert_node in E.
  apply bind_Some in E as (ns & _ & E). injection E as <-. intros a c. cbn [account_tips max_clock].
  intros [[<- <-]|[_ Hc]]%lookup_insert_Some n; rewrite VectorClock.get_merge.
  - destruct (account_tips d !! ss_from s) as [vc|] eqn:Hv; [|lia].
    rewrite VectorClock.get_merge. pose proof (Ht _ _ Hv n). lia.
  - pose proof (Ht _ _ Hc n). lia.
Qed.

Lemma restored_inv d d' : restored d d' → dag_inv d → dag_inv d' ∧ tips_ok d'.
Proof.
  intros [H1 H2 _ H3] Hi. split; [by apply (dag_inv_same d d')|].
  intros a c. by rewrite H3, lookup_empty.
Qed.

Lemma dag_reachable_inv d : dag_reachable d → dag_inv d ∧ tips_ok d.
Proof.
  induction 1 as [|d s vk tick depth d' r _ [Hi Ht] E|d t _ [Hi Ht]
    |d h st _ [Hi Ht]|d h _ [Hi Ht]|d b _ [Hi Ht]|d d' _ [Hi _] Hre].
  - split; [apply dag_new_inv|]. intros a c. unfold dag_new; cbn. by rewrite lookup_empty.
  - unfold dag_insert in E. destruct (ss_verify_signature s vk); cbn [negb] in E.
    2: { injection E as <- _. split; [by apply reject_inv|done]. }
    case_bool_decide as Hex; [injection E as <- _; done|].
    destruct (missing_predecessor d s) as [p|] eqn:Hm.
    { injection E as <- _. split; [by apply reject_inv|done]. }
    apply eq_None_not_Some in Hex.
    destruct (insert_node_inv d (ss_hash s) s tick depth Hi Hex (missing_predecessor_none d s Hm))
      as (d1 & E1 & Hi1 & _). rewrite E1 in E. injection E as <- _.
    split; [done|by eapply insert_tips_ok].
  - split; [by apply promote_inv|done].
  - split; [by apply set_status_inv|done].
  - split; [by apply mark_applied_inv|done].
  - split; [by apply balances_inv|done].
  - by apply (restored_inv d).
Qed.

(** An operation that maps nodes and keeps their hashes. *)
Lemma hashes_ok_map d d' :
  (∀ h n', nodes d' !! h = Some n' → ∃ n, nodes d !! h = Some n ∧ node_hash n' = node_hash n) →
  hashes_ok d → hashes_ok d'.
Proof. intros Hb Hok h n' (n & Hn & ->)%Hb. by apply Hok. Qed.

Lemma dag_reachable_hashes d : dag_reachable d → hashes_ok d.
Proof.
  induction 1 as [|d s vk tick depth d' r Hr IH E|d t _ IH|d h st _ IH|d h _ IH|d b _ IH|d d' _ _ Hre].
  - intros h n. unfold dag_new; cbn. by rewrite lookup_empty.
  - pose proof Hr as [Hi _]%dag_reachable_inv.
    unfold dag_insert in E. destruct (ss_verify_signature s vk); cbn [negb] in E; [|by injection E as <- _].
    case_bool_decide as Hex; [by injection E as <- _|].
    destruct (missing_predecessor d s) as [p|] eqn:Hm; [by injection E as <- _|].
    apply eq_None_not_Some in Hex.
    destruct (insert_node_inv d (ss_hash s) s tick depth Hi Hex (missing_predecessor_none d s Hm))
      as (d1 & E1 & _ & (nn & Hnn & _ & _ & _ & _ & _ & Hh) & Hold & Hdom). rewrite E1 in E. injection E as <- _.
    intros h n Hn. destruct (decide (h = ss_hash s)) as [->|Hne]; [congruence|].
    assert (Hd : h ∈ dom (nodes d)).
    { apply (elem_of_dom_2 (D := gset N)) in Hn. rewrite Hdom in Hn. set_solver. }
    apply elem_of_dom in Hd as [n0 Hn0]. destruct (Hold h n0 Hn0) as (n' & Hn' & E').
    rewrite Hn in Hn'. injection Hn' as <-. rewrite E'. exact (IH h n0 Hn0).
  - revert IH. apply hashes_ok_map. cbn. intros h n. rewrite lookup_fmap, fmap_Some.
    intros (m & Hm & ->). exists m. split; [done|]. unfold promote_node. by destruct (promotable t m).
  - revert IH. apply hashes_ok_map. cbn. intros g n.
    rewrite lookup_alter_Some. intros [(<- & m & Hm & ->)|[_ Hm]]; eauto.
  - revert IH. apply hashes_ok_map. cbn. intros g n.
    rewrite lookup_alter_Some. intros [(<- & m & Hm & ->)|[_ Hm]]; eauto.
  - exact IH.
  - exact (re_hashes _ _ Hre).
Qed.

(** C23: the causal order: on every DAG built by insertions, promotions, status marks, balance updates and reloads,
    [topological_order] terminates without panicking or reporting a cycle, and returns
    every node exactly once, after all of its declared predecessors. This holds for every
    iteration order of the hash tables involved and whatever ready node the tie-break
    selects. *)
Theorem topological_order_correct {HO : HashOrder} d : dag_reachable d →
  ∃ order, topological_order d = Some (Ok order)
    ∧ NoDup order
    ∧ (∀ h, h ∈ order ↔ is_Some (nodes d !! h))
    ∧ (∀ i h n p, order !! i = Some h → nodes d !! h = Some n →
         p ∈ ss_predecessors (node_shift n) → p ∈ take i order).
Proof.
  intros [Hi _]%dag_reachable_inv.
  destruct (topological_order_spec d Hi) as (order & E & Hnd & Hin & Hfirst).
  exists order. split_and!; [done|done|done|]. intros i h n p Hh Hn Hp.
  apply (Hfirst i h n p Hh Hn). by apply elem_of_list_to_set.
Qed.

(** Insertion never panics, and on every branch: a bad signature or an unknown
    predecessor is rejected, recorded as such and adds no node; a known shift is accepted
    without any change; a new one is added as an unapplied, accepted node, every older
    node keeping everything but its children. *)
Theorem dag_insert_spec d s vk tick depth : dag_reachable d →
  ∃ d' r, dag_insert d s vk tick depth = Some (d', r) ∧
  match r with
  | Err e =>
      (e = InvalidSignature (ss_hash s) ∧ ss_verify_signature s vk = false
       ∨ ∃ p, e = MissingPredecessor p ∧ p ∈ ss_predecessors s ∧ nodes d !! p = None)
      ∧ nodes d' = nodes d ∧ rejected d' = <[ss_hash s := e]> (rejected d)
  | Ok h =>
      h = ss_hash s ∧ ss_verify_signature s vk = true
      ∧ ((is_Some (nodes d !! h) ∧ d' = d)
         ∨ (nodes d !! h = None ∧ dom (nodes d') = {[ h ]} ∪ dom (nodes d)
            ∧ (∃ n, nodes d' !! h = Some n ∧ node_shift n = s ∧ status n = Accepted
                    ∧ inserted_at_tick n = tick ∧ node_depth n = depth ∧ applied n = false)
            ∧ ∀ g n, nodes d !! g = Some n →
                ∃ n', nodes d' !! g = Some n' ∧ n' = with_children n (children n')))
  end.
Proof.
  intros [Hi _]%dag_reachable_inv. unfold dag_insert.
  destruct (ss_verify_signature s vk) eqn:Hv; cbn [negb].
  2: { eexists _, _. split; [done|]. cbn. naive_solver. }
  case_bool_decide as Hex; [eexists _, _; split; [done|]; cbn; naive_solver|].
  apply eq_None_not_Some in Hex. destruct (missing_predecessor d s) as [p|] eqn:Hm.
  - eexists _, _. split; [done|]. cbn. split; [|done]. right. exists p. split; [done|].
    apply find_some in Hm as [Hp%list_elem_of_In Hn%negb_true_iff%bool_decide_eq_false].
    split; [done|]. by apply eq_None_not_Some.
  - destruct (insert_node_inv d (ss_hash s) s tick depth Hi Hex (missing_predecessor_none d s Hm))
      as (d1 & -> & _ & (nn & ? & ? & ? & ? & ? & ? & _) & Hold & Hdom). cbn [mbind option_bind].
    eexists _, _. split; [done|]. cbn. split_and!; [done|done|]. right. split_and!; [done|done| |done].
    by exists nn.
Qed.

(** C24: a clock the DAG derives for a sender is one it accepts from that sender, one step
    ahead in the sender's own entry and nowhere ahead of what has been seen; and a
    submitted clock is accepted exactly under those two conditions. *)
Theorem derived_clock_validates d sender vc : dag_reachable d →
  VectorClock.get (account_tip d sender) sender < 2 ^ 64 - 1 →
  (validate_or_derive d sender (Some vc) = Ok vc ↔
     (vc !! sender = Some (VectorClock.get (account_tip d sender) sender + 1)
      ∧ ∀ n t, vc !! n = Some t → n ≠ sender → t ≤ VectorClock.get (max_clock d) n))
  ∧ (∃ vc', validate_or_derive d sender None = Ok vc'
       ∧ validate_or_derive d sender (Some vc') = Ok vc'
       ∧ VectorClock.happened_before (account_tip d sender) vc' = true).
Proof.
  intros [_ Ht]%dag_reachable_inv Hlt.
  set (own := VectorClock.get (account_tip d sender) sender) in *.
  assert (Hcheck : ∀ l, check_clock d sender (own + 1) l = Ok () ↔
    ∀ n t, (n, t) ∈ l → if n =? sender then t = own + 1 else t ≤ VectorClock.get (max_clock d) n).
  { induction l as [|[n t] l IH]; cbn [check_clock].
    { split; [|done]. intros _ n t Hin. by apply elem_of_nil in Hin. }
    setoid_rewrite elem_of_cons. destruct (N.eqb_spec n sender) as [->|Hn].
    - destruct (N.eqb_spec t (own + 1)) as [->|Hne]; cbn [negb].
      + rewrite IH. split; [|naive_solver]. intros Hl n t [[= -> ->]|Hin]; [by rewrite N.eqb_refl|by apply Hl].
      + split; [done|]. intros Hl. specialize (Hl sender t (or_introl eq_refl)).
        by rewrite N.eqb_refl in Hl.
    - destruct (N.ltb_spec (VectorClock.get (max_clock d) n) t).
      + split; [done|]. intros Hl. specialize (Hl n t (or_introl eq_refl)).
        rewrite (proj2 (N.eqb_neq _ _) Hn) in Hl. lia.
      + rewrite IH. split; [|naive_solver]. intros Hl n' t' [[= -> ->]|Hin]; [|by apply Hl].
        by rewrite (proj2 (N.eqb_neq _ _) Hn). }
  assert (Hval : ∀ vc, validate_or_derive d sender (Some vc) = Ok vc ↔
     (vc !! sender = Some (own + 1)
      ∧ ∀ n t, vc !! n = Some t → n ≠ sender → t ≤ VectorClock.get (max_clock d) n)).
  { clear vc. intros vc. unfold validate_or_derive. fold own. rewrite wadd_small by lia.
    pose proof (Hcheck (bt_iter vc)) as Hc. setoid_rewrite elem_of_bt_iter in Hc.
    destruct (check_clock d sender (own + 1) (bt_iter vc)) as [[]|e]; cbn [mbind result_bind].
    - pose proof (proj1 Hc eq_refl) as Hall. case_bool_decide as Hs; cbn [negb].
      + split; [|done]. intros _. destruct Hs as [t Hts]. split.
        * pose proof (Hall sender t Hts) as E. rewrite N.eqb_refl in E. congruence.
        * intros n t' Hn Hne. pose proof (Hall n t' Hn) as E. by rewrite (proj2 (N.eqb_neq _ _) Hne) in E.
      + split; [done|]. intros [E _]. exfalso. apply Hs. by eexists.
    - split; [done|]. intros [E Hn]. assert (Hbad : @Err clock_error () e = Ok ()); [|done].
      apply Hc. intros n t Hin. destruct (N.eqb_spec n sender) as [->|]; [congruence|by apply Hn]. }
  split; [apply Hval|]. eexists. split; [done|].
  destruct (VectorClock.tick_spec (account_tip d sender) sender Hlt) as (Hb & Hoth & Hown).
  split; [|done]. apply Hval. split; [done|].
  intros n t Hn Hne. rewrite Hoth in Hn by done.
  unfold account_tip in Hn. destruct (account_tips d !! sender) as [c|] eqn:Hc; cbn in Hn.
  - pose proof (Ht sender c Hc n) as Hle. unfold VectorClock.get in Hle. rewrite Hn in Hle. exact Hle.
  - unfold VectorClock.new in Hn. by rewrite lookup_empty in Hn.
Qed.
End reachable.

(** ** Applying in order *)

Section apply.
Context {C : Crypto} {HO : HashOrder}.

Lemma apply_shift_spec d sim errs h n : nodes d !! h = Some n → msum sim < 2 ^ 128 →
  (ss_amount (node_shift n) ≠ 0 ∨ is_Some (sim !! ss_from (node_shift n))) →
  ∃ sim' errs', apply_shift d (sim, errs) h = Some (sim', errs')
    ∧ msum sim' = msum sim ∧ (∀ a, is_Some (sim !! a) → is_Some (sim' !! a))
    ∧ (errs' = errs ∨ errs' = errs ++ [InsufficientBalance h]).
Proof.
  intros Hn Hsum Hz. unfold apply_shift. rewrite Hn. cbn [mbind option_bind].
  set (s := node_shift n) in *.
  destruct (N.ltb_spec (default 0 (sim !! ss_from s)) (ss_amount s)) as [Hlt|Hge].
  { eexists _, _. split; [done|]. split_and!; auto. }
  destruct (sim !! ss_from s) as [b|] eqn:Hb; cbn in Hge.
  2: { destruct Hz as [Hz|[? Hz]]; [lia|done]. }
  cbn [mbind option_bind]. eexists _, _. split; [done|].
  pose proof (msum_lookup_le sim (ss_from s)) as Hle. rewrite Hb in Hle. cbn in Hle.
  rewrite wsub_small by lia.
  pose proof (msum_insert sim (ss_from s) (b - ss_amount s)) as E. rewrite Hb in E. cbn in E.
  split_and!; [rewrite msum_entry_add; lia| |by left].
  intros a Ha. unfold entry_add. rewrite !lookup_insert_is_Some.
  destruct (decide (ss_to s = a)), (decide (ss_from s = a)); auto.
Qed.

(** Replaying a reachable DAG onto its balances creates and destroys nothing: when
    every shift can be funded the balances that result have the same total, and otherwise
    the overdrafts are reported one by one. It does not panic as long as every shift of
    amount zero comes from an account with a balance entry. *)
Theorem apply_ordered_conserves d : dag_reachable d → msum (dag_balances d) < 2 ^ 128 →
  (∀ h n, nodes d !! h = Some n →
     ss_amount (node_shift n) ≠ 0 ∨ is_Some (dag_balances d !! ss_from (node_shift n))) →
  ∃ r, apply_ordered d = Some r ∧
  match r with
  | Ok balances => msum balances = msum (dag_balances d)
  | Err errs => errs ≠ [] ∧ Forall (λ e, ∃ h, e = InsufficientBalance h ∧ is_Some (nodes d !! h)) errs
  end.
Proof.
  intros [Hi _]%dag_reachable_inv Hsum Hz. unfold apply_ordered.
  destruct (topological_order_spec d Hi) as (order & -> & _ & Hin & _). cbn [mbind option_bind].
  assert (G : ∀ l sim errs, (∀ h, h ∈ l → is_Some (nodes d !! h)) →
    msum sim = msum (dag_balances d) → (∀ a, is_Some (dag_balances d !! a) → is_Some (sim !! a)) →
    Forall (λ e, ∃ h, e = InsufficientBalance h ∧ is_Some (nodes d !! h)) errs →
    ∃ sim' errs', fold_opt (apply_shift d) l (sim, errs) = Some (sim', errs')
      ∧ msum sim' = msum (dag_balances d)
      ∧ Forall (λ e, ∃ h, e = InsufficientBalance h ∧ is_Some (nodes d !! h)) errs').
  { induction l as [|h l IH]; intros sim errs Hl Hs Hk He; cbn [fold_opt]; [by exists sim, errs|].
    destruct (Hl h ltac:(by left)) as [n Hn].
    destruct (apply_shift_spec d sim errs h n Hn) as (sim1 & errs1 & -> & E1 & K1 & R1); [lia| |].
    { destruct (Hz h n Hn) as [?|?]; [by left|right; by apply Hk]. }
    cbn [mbind option_bind]. apply IH; [intros g Hg; apply Hl; by right|congruence|auto|].
    destruct R1 as [->| ->]; [done|]. apply Forall_app. split; [done|].
    constructor; [|constructor]. exists h. split; [done|by eexists]. }
  destruct (G order (dag_balances d) []) as (sim & errs & -> & E & Herr);
    [intros h; apply Hin|done|done|constructor|].
  cbn [mbind option_bind fst snd]. eexists. split; [done|]. case_bool_decide; done.
Qed.
End apply.

(** ** A small DAG, for the witnesses *)

Section sample.
Local Existing Instance lawful_crypto.
Local Existing Instance map_order.

Definition alice : KeyPair := from_seed 1.
Definition bob : KeyPair := from_seed 2.

Definition shift1 : StatefulShift :=
  ss_new alice DEFAULT_DEX_DOMAIN (account_id bob) 40 {[ account_id alice := 1 ]} [] 1 10.
Definition shift2 : StatefulShift :=
  ss_new bob DEFAULT_DEX_DOMAIN (account_id alice) 5 {[ account_id bob := 1 ]} [] 1 11.
Definition shift3 : StatefulShift :=
  ss_new alice DEFAULT_DEX_DOMAIN (account_id bob) 7 {[ account_id alice := 2; account_id bob := 1 ]}
    [ss_hash shift1; ss_hash shift2] 2 12.

Definition after (d : VectorClockDag) (s : StatefulShift) (kp : KeyPair) : VectorClockDag :=
  match dag_insert d s (public_key kp) 0 3 with Some (d', _) => d' | None => d end.

Definition sample_dag : VectorClockDag :=
  after (after (after (seed_balance (seed_balance dag_new (account_id alice) 100) (account_id bob) 10)
                      shift1 alice) shift2 bob) shift3 alice.

Lemma after_reachable d s kp : dag_reachable d → dag_reachable (after d s kp).
Proof.
  intros Hd. unfold after. destruct (dag_insert d s (public_key kp) 0 3) as [[d' r]|] eqn:E; [|done].
  by eapply dr_insert.
Qed.

Lemma sample_dag_reachable : dag_reachable sample_dag.
Proof. unfold sample_dag. do 3 apply after_reachable. do 2 apply dr_balances. apply dr_new. Qed.

(** The child comes last, the two parents (concurrent) by hash. *)
Example sample_order :
  option_map (λ r, match r with Ok o => length o | Err _ => 0%nat end) (topological_order sample_dag)
  = Some 3%nat
  ∧ option_map (λ r, match r with Ok o => last o | Err _ => None end) (topological_order sample_dag)
    = Some (Some (ss_hash shift3)).
Proof. vm_compute. done. Qed.

(** A zero-amount shift from an account without a balance entry panics the replay. *)
Definition zero_shift : StatefulShift :=
  ss_new alice DEFAULT_DEX_DOMAIN (account_id bob) 0 {[ account_id alice := 1 ]} [] 1 10.

Lemma apply_ordered_panics : apply_ordered (after dag_new zero_shift alice) = None.
Proof. vm_compute. reflexivity. Qed.
End sample.

Lemma topological_order_witness :
  let C := lawful_crypto in let HO := map_order in
  ∃ order, topological_order sample_dag = Some (Ok order)
    ∧ NoDup order
    ∧ (∀ h, h ∈ order ↔ is_Some (nodes sample_dag !! h))
    ∧ (∀ i h n p, order !! i = Some h → nodes sample_dag !! h = Some n →
         p ∈ ss_predecessors (node_shift n) → p ∈ take i order).
Proof. intros C HO. exact (topological_order_correct sample_dag sample_dag_reachable). Defined.

Lemma dag_insert_witness :
  let C := lawful_crypto in
  ∃ d' r, dag_insert sample_dag zero_shift (public_key alice) 4 3 = Some (d', r) ∧
  match r with
  | Err e =>
      (e = InvalidSignature (ss_hash zero_shift) ∧ ss_verify_signature zero_shift (public_key alice) = false
       ∨ ∃ p, e = MissingPredecessor p ∧ p ∈ ss_predecessors zero_shift ∧ nodes sample_dag !! p = None)
      ∧ nodes d' = nodes sample_dag ∧ rejected d' = <[ss_hash zero_shift := e]> (rejected sample_dag)
  | Ok h =>
      h = ss_hash zero_shift ∧ ss_verify_signature zero_shift (public_key alice) = true
      ∧ ((is_Some (nodes sample_dag !! h) ∧ d' = sample_dag)
         ∨ (nodes sample_dag !! h = None ∧ dom (nodes d') = {[ h ]} ∪ dom (nodes sample_dag)
            ∧ (∃ n, nodes d' !! h = Some n ∧ node_shift n = zero_shift ∧ status n = Accepted
                    ∧ inserted_at_tick n = 4 ∧ node_depth n = 3 ∧ applied n = false)
            ∧ ∀ g n, nodes sample_dag !! g = Some n →
                ∃ n', nodes d' !! g = Some n' ∧ n' = with_children n (children n')))
  end.
Proof.
  intros C. exact (dag_insert_spec sample_dag zero_shift (public_key alice) 4 3 sample_dag_reachable).
Defined.

Lemma derived_clock_witness :
  let C := lawful_crypto in
  (validate_or_derive sample_dag 5 (Some {[ 5 := 1 ]}) = Ok {[ 5 := 1 ]} ↔
     (({[ 5 := 1 ]} : VectorClock.t) !! 5 = Some (VectorClock.get (account_tip sample_dag 5) 5 + 1)
      ∧ ∀ n t, ({[ 5 := 1 ]} : VectorClock.t) !! n = Some t → n ≠ 5 →
               t ≤ VectorClock.get (max_clock sample_dag) n))
  ∧ (∃ vc', validate_or_derive sample_dag 5 None = Ok vc'
       ∧ validate_or_derive sample_dag 5 (Some vc') = Ok vc'
       ∧ VectorClock.happened_before (account_tip sample_dag 5) vc' = true).
Proof.
  intros C. apply (derived_clock_validates sample_dag 5 {[ 5 := 1 ]} sample_dag_reachable).
  vm_compute. reflexivity.
Defined.

Lemma apply_ordered_witness :
  let C := lawful_crypto in let HO := map_order in
  ∃ r, apply_ordered sample_dag = Some r ∧
  match r with
  | Ok balances => msum balances = msum (dag_balances sample_dag)
  | Err errs => errs ≠ [] ∧ Forall (λ e, ∃ h, e = InsufficientBalance h ∧ is_Some (nodes sample_dag !! h)) errs
  end.
Proof.
  intros C HO. apply (apply_ordered_conserves sample_dag sample_dag_reachable).
  - vm_compute. reflexivity.
  - assert (H : map_Forall (λ _ n, ss_amount (node_shift n) ≠ 0) (nodes sample_dag)) by by_decision.
    intros h n Hn. left. exact (H h n Hn).
Defined.
