(* ===== verification/Evm.v ===== *)
(** * The EVM pool and executor (src/src/evm/mod.rs, src/src/evm/executor.rs)

    Ethereum transactions are queued in a pool and run, in sender-nonce order, once per
    synthesis tick.  The interpreter and its database (crate [revm]) and the transaction
    codec (crate [ethers]) are parameters.  Proved: every transaction takes effect at most
    once and each sender's successful transactions carry the nonces 0, 1, 2, ...; which
    transactions of a batch succeed does not depend on the order of submission; balances
    of uninvolved accounts do not move.  The latencies
    it sums are in Live. *)
From S2P Require Import Prelude F64 Bytes Crypto.
Local Open Scope N_scope.

(** [0xF1D1C] *)
Definition FLUIDIC_EVM_CHAIN_ID : N := 990492.

Record EvmLog := { log_address : N; log_topics : list N; log_data : bytes }.

Inductive EvmTxStatus :=
  | Pending
  | Success
  | FailedNonce (expected : N)
  | FailedRevert (output : bytes)
  | FailedHalt (reason : bytes)
  | FailedError (e : bytes).

#[export] Instance evm_tx_status_eq_dec : EqDecision EvmTxStatus.
Proof. solve_decision. Defined.

Record EvmTransaction := {
  tx_hash : N;
  tx_from : N;
  tx_to : option N;
  tx_value : N;
  tx_gas_price : N;
  tx_gas_limit : N;
  tx_data : bytes;
  tx_nonce : N;
  tx_raw : bytes;
  tx_first_seen_at_ns : N;
}.

Record EvmReceipt := {
  transaction_hash : N;
  transaction_index : N;
  block_number : N;
  block_hash : N;
  rc_from : N;
  rc_to : option N;
  contract_address : option N;
  gas_used : N;
  cumulative_gas_used : N;
  effective_gas_price : N;
  rc_status : N;
  rc_logs : list EvmLog;
}.

(** A transaction as [ethers] decodes it. *)
Record RawTx := {
  raw_chain_id : option N;
  raw_to : option N;
  raw_value : N;
  raw_gas_price : option N;
  raw_gas : N;
  raw_input : bytes;
  raw_nonce : N;
}.

(** The parts of [ethers] in use; [as_u64] panics ([None]) on values that do not fit. *)
Class Ethers := {
  DecoderError : Type;
  SignatureError : Type;
  rlp_decode : bytes → result DecoderError RawTx;
  recover_from : RawTx → result SignatureError N;
  raw_hash : RawTx → N;
  as_u64 : N → option N;
  get_contract_address : N → N → N;
}.

(** The environment the executor hands to [revm]. *)
Record TxEnv := {
  env_caller : N;
  env_gas_limit : N;
  env_gas_price : N;
  env_transact_to : option N;
  env_value : N;
  env_data : bytes;
  env_nonce : option N;
}.

(** [revm]'s result; output, halt reason and error are rendered as text by the pool. *)
Inductive ExecutionResult :=
  | ExSuccess (gas : N) (logs : list EvmLog) (output : bytes)
  | ExRevert (gas : N) (output : bytes)
  | ExHalt (gas : N) (reason : bytes).

Definition result_gas (r : ExecutionResult) : N :=
  match r with ExSuccess g _ _ | ExRevert g _ | ExHalt g _ => g end.

(** [revm]'s in-memory database and interpreter.  Reads go through a cache, so they return
    the database too. *)
Class Revm := {
  DB : Type;
  db_default : DB;
  (** [db.accounts.get(addr)] is known *)
  db_known : DB → N → bool;
  (** set balance and nonce of a known account, keeping code and storage *)
  db_update_info : DB → N → N → N → DB;
  (** [insert_account_info] with a balance, a nonce and no code *)
  db_insert_info : DB → N → N → N → DB;
  (** [db.basic(addr).ok().flatten()], the balance of the account *)
  db_basic : DB → N → DB * option N;
  (** code hash of a known account, and the contract table *)
  db_code_hash : DB → N → option N;
  db_contract : DB → N → option bytes;
  (** [transact_commit] and [transact] under the chain id *)
  transact_commit : DB → N → TxEnv → DB * result bytes ExecutionResult;
  transact : DB → N → TxEnv → DB * result bytes ExecutionResult;
}.

(** What the executor relies on: reading does not change balances, and writing an account
    sets its balance alone. *)
Class RevmLaws (V : Revm) := {
  db_basic_pure : ∀ db a b, (db_basic (db_basic db a).1 b).2 = (db_basic db b).2;
  db_update_spec : ∀ db a bal n b, db_known db a = true →
    (db_basic (db_update_info db a bal n) b).2 = if a =? b then Some bal else (db_basic db b).2;
  db_insert_spec : ∀ db a bal n b,
    (db_basic (db_insert_info db a bal n) b).2 = if a =? b then Some bal else (db_basic db b).2;
}.

(** ** Decoding *)

Inductive decode_error {E : Ethers} :=
  | InvalidRlp (e : DecoderError)
  | WrongChainId (got : N)
  | NoSender (e : SignatureError).
Arguments decode_error : clear implicits.

Section decoding.
Context {E : Ethers}.

(** [EvmTransaction::decode_raw]; [None] is a panic of [as_u64]. *)
Definition decode_raw (raw : bytes) : option (result (decode_error E) EvmTransaction) :=
  match rlp_decode raw with
  | Err e => Some (Err (InvalidRlp e))
  | Ok tx =>
      chain_id ← match raw_chain_id tx with Some c => as_u64 c | None => Some 0 end;
      if negb (chain_id =? 0) && negb (chain_id =? FLUIDIC_EVM_CHAIN_ID)
      then Some (Err (WrongChainId chain_id))
      else
        match recover_from tx with
        | Err e => Some (Err (NoSender e))
        | Ok from =>
            gas ← (if raw_gas tx =? 0 then Some 1000000 else as_u64 (raw_gas tx));
            nonce ← as_u64 (raw_nonce tx);
            Some (Ok {| tx_hash := raw_hash tx; tx_from := from; tx_to := raw_to tx;
                        tx_value := raw_value tx;
                        tx_gas_price := default 0 (raw_gas_price tx);
                        tx_gas_limit := gas; tx_data := raw_input tx; tx_nonce := nonce;
                        tx_raw := raw; tx_first_seen_at_ns := 0 |})
        end
  end.
End decoding.

Section accounts.
Context {C : Crypto}.

Definition evm_address_to_fluidic (addr : N) : N :=
  blake3 (ascii "fluidic:evm-account:v1" ++ be_bytes 20 addr).

Definition fluidic_sender (tx : EvmTransaction) : N := evm_address_to_fluidic (tx_from tx).
Definition fluidic_recipient (tx : EvmTransaction) : option N :=
  evm_address_to_fluidic <$> tx_to tx.

Definition block_hash_for (tick : N) : N := blake3 (ascii "fluidic:block:" ++ u64_le tick).
End accounts.

(** ** The executor *)

Section executor.
Context {C : Crypto} {V : Revm}.

Record EvmExecutor := { exec_db : DB; touched : gset N }.

Definition executor_new : EvmExecutor := {| exec_db := db_default; touched := ∅ |}.
Definition with_db (db : DB) : EvmExecutor := {| exec_db := db; touched := ∅ |}.

Definition seed_balance_nonce (x : EvmExecutor) (addr bal nonce : N) : EvmExecutor :=
  {| exec_db := if db_known (exec_db x) addr then db_update_info (exec_db x) addr bal nonce
                else db_insert_info (exec_db x) addr bal nonce;
     touched := {[ addr ]} ∪ touched x |}.

Definition seed_account (x : EvmExecutor) (addr bal nonce : N) : EvmExecutor :=
  {| exec_db := db_insert_info (exec_db x) addr bal nonce; touched := {[ addr ]} ∪ touched x |}.

(** The addresses of [[Some(tx.from), tx.to].into_iter().flatten()]. *)
Definition tx_addresses (tx : EvmTransaction) : list N :=
  tx_from tx :: match tx_to tx with Some a => [a] | None => [] end.

Definition prepare (x : EvmExecutor) (txs : list EvmTransaction) (balances nonces : gmap N N)
    : EvmExecutor :=
  fold_left (λ x addr, seed_balance_nonce x addr
               (default 0 (balances !! evm_address_to_fluidic addr))
               (default 0 (nonces !! addr)))
    (flat_map tx_addresses txs) x.

Definition touch (x : EvmExecutor) (caller : N) (to : option N) : gset N :=
  let t := {[ caller ]} ∪ touched x in
  match to with Some a => {[ a ]} ∪ t | None => t end.

(** The transaction's own gas limit is not passed on: every run gets a million. *)
Definition execute (x : EvmExecutor) (tx : EvmTransaction) : EvmExecutor * result bytes ExecutionResult :=
  let env := {| env_caller := tx_from tx; env_gas_limit := 1000000;
                env_gas_price := tx_gas_price tx; env_transact_to := tx_to tx;
                env_value := tx_value tx; env_data := tx_data tx;
                env_nonce := Some (tx_nonce tx) |} in
  let '(db, r) := transact_commit (exec_db x) FLUIDIC_EVM_CHAIN_ID env in
  ({| exec_db := db; touched := touch x (tx_from tx) (tx_to tx) |}, r).

Definition exec_call (x : EvmExecutor) (caller : N) (to : option N) (value : N) (data : bytes)
    : EvmExecutor * result bytes ExecutionResult :=
  let env := {| env_caller := caller; env_gas_limit := 1000000; env_gas_price := 0;
                env_transact_to := to; env_value := value; env_data := data;
                env_nonce := None |} in
  let '(db, r) := transact (exec_db x) FLUIDIC_EVM_CHAIN_ID env in
  ({| exec_db := db; touched := touch x caller to |}, r).

Definition code_at (x : EvmExecutor) (addr : N) : option bytes :=
  h ← db_code_hash (exec_db x) addr; db_contract (exec_db x) h.

(** One address of [sync_balances_back]; a balance beyond [u128] panics. *)
Definition sync_one (acc : DB * gmap N N) (addr : N) : option (DB * gmap N N) :=
  let '(db, o) := db_basic acc.1 addr in
  let b := default 0 o in
  if 2 ^ 128 <=? b then None else Some (db, <[evm_address_to_fluidic addr := b]> acc.2).

Definition sync_balances_back {HO : HashOrder} (x : EvmExecutor) (balances : gmap N N)
    : option (EvmExecutor * gmap N N) :=
  acc ← fold_opt sync_one (hs_iter (touched x)) (exec_db x, balances);
  Some ({| exec_db := acc.1; touched := touched x |}, acc.2).
End executor.

(** ** The pool *)

Section pool.
Context {C : Crypto} {E : Ethers} {V : Revm}.

Record EvmPool := {
  pending : list EvmTransaction;
  statuses : gmap N EvmTxStatus;
  nonces : gmap N N;
  pool_db : DB;
  receipts : gmap N EvmReceipt;
  transactions : gmap N EvmTransaction;
}.

Definition evm_pool_new : EvmPool :=
  {| pending := []; statuses := ∅; nonces := ∅; pool_db := db_default; receipts := ∅;
     transactions := ∅ |}.

Definition stamped (tx : EvmTransaction) (now_ns : N) : EvmTransaction :=
  if tx_first_seen_at_ns tx =? 0 then
    {| tx_hash := tx_hash tx; tx_from := tx_from tx; tx_to := tx_to tx; tx_value := tx_value tx;
       tx_gas_price := tx_gas_price tx; tx_gas_limit := tx_gas_limit tx; tx_data := tx_data tx;
       tx_nonce := tx_nonce tx; tx_raw := tx_raw tx; tx_first_seen_at_ns := now_ns |}
  else tx.

Definition submit (p : EvmPool) (tx : EvmTransaction) (now_ns : N) : EvmPool :=
  if bool_decide (is_Some (statuses p !! tx_hash tx)) then p
  else
    let tx := stamped tx now_ns in
    {| pending := pending p ++ [tx];
       statuses := <[tx_hash tx := Pending]> (statuses p);
       nonces := nonces p; pool_db := pool_db p; receipts := receipts p;
       transactions := <[tx_hash tx := tx]> (transactions p) |}.

(** [a.from.cmp(&b.from).then(a.nonce.cmp(&b.nonce))] is not greater. *)
Definition tx_le (a b : EvmTransaction) : bool :=
  (tx_from a <? tx_from b) || ((tx_from a =? tx_from b) && (tx_nonce a <=? tx_nonce b)).

(** What the drain loop of [synthesize] carries. *)
Record EvmLoop := {
  lp_exec : EvmExecutor;
  lp_statuses : gmap N EvmTxStatus;
  lp_nonces : gmap N N;
  lp_receipts : gmap N EvmReceipt;
  lp_gas : N;
  lp_applied : list N;
  lp_latency_ms : f64;
}.

(** The receipt of a transaction that reached the interpreter. *)
Definition receipt_of (tick : N) (idx : nat) (tx : EvmTransaction) (gas cumulative : N)
    (logs : option (list EvmLog)) : EvmReceipt :=
  {| transaction_hash := tx_hash tx; transaction_index := N.of_nat idx; block_number := tick;
     block_hash := block_hash_for tick; rc_from := tx_from tx; rc_to := tx_to tx;
     contract_address := match logs, tx_to tx with
                         | Some _, None => Some (get_contract_address (tx_from tx) (tx_nonce tx))
                         | _, _ => None
                         end;
     gas_used := gas; cumulative_gas_used := cumulative; effective_gas_price := tx_gas_price tx;
     rc_status := match logs with Some _ => 1 | None => 0 end;
     rc_logs := default [] logs |}.

(** The status a run leaves, its gas, and its logs when it succeeded. *)
Definition outcome (r : result bytes ExecutionResult) : EvmTxStatus * N * option (list EvmLog) :=
  match r with
  | Ok (ExSuccess g logs _) => (Success, g, Some logs)
  | Ok (ExRevert g out) => (FailedRevert out, g, None)
  | Ok (ExHalt g reason) => (FailedHalt reason, g, None)
  | Err e => (FailedError e, 0, None)
  end.

Definition expected_nonce (l : EvmLoop) (addr : N) : N := default 0 (lp_nonces l !! addr).

(** [latency_ms] *)
Definition latency_ms (finalized_at first_seen : N) : f64 :=
  if first_seen <? finalized_at then f64_div (f64_of_N (finalized_at - first_seen)) (f64_of_N 1000000)
  else f64_zero.

(** One turn of [for (idx, tx) in self.pending.drain(..).enumerate()]. *)
Definition evm_step (finalized_at tick : N) (l : EvmLoop) (it : nat * EvmTransaction) : EvmLoop :=
  let '(idx, tx) := it in
  let expected := expected_nonce l (tx_from tx) in
  if negb (tx_nonce tx =? expected) then
    {| lp_exec := lp_exec l;
       lp_statuses := <[tx_hash tx := FailedNonce expected]> (lp_statuses l);
       lp_nonces := lp_nonces l; lp_receipts := lp_receipts l; lp_gas := lp_gas l;
       lp_applied := lp_applied l; lp_latency_ms := lp_latency_ms l |}
  else
    let '(x, r) := execute (lp_exec l) tx in
    let '(st, gas, logs) := outcome r in
    let cumulative := wadd 64 (lp_gas l) gas in
    {| lp_exec := x;
       lp_statuses := <[tx_hash tx := st]> (lp_statuses l);
       lp_nonces := if logs is Some _ then <[tx_from tx := wadd 64 expected 1]> (lp_nonces l)
                    else lp_nonces l;
       lp_receipts := <[tx_hash tx := receipt_of tick idx tx gas cumulative logs]> (lp_receipts l);
       lp_gas := cumulative;
       lp_applied := if logs is Some _ then lp_applied l ++ [tx_hash tx] else lp_applied l;
       lp_latency_ms := if logs is Some _
                        then f64_add (lp_latency_ms l) (latency_ms finalized_at (tx_first_seen_at_ns tx))
                        else lp_latency_ms l |}.

Definition evm_loop (finalized_at tick : N) (txs : list EvmTransaction) (l : EvmLoop) : EvmLoop :=
  fold_left (evm_step finalized_at tick) (combine (seq 0 (length txs)) txs) l.

(** [EvmPool::synthesize]: the new pool and balances, the number applied with the total of
    their latencies, their hashes. *)
Definition pool_synthesize {HO : HashOrder} (p : EvmPool) (balances : gmap N N) (finalized_at tick : N)
    : option (EvmPool * gmap N N * (nat * f64) * list N) :=
  let txs := sort_by tx_le (pending p) in
  let x := prepare (with_db (pool_db p)) txs balances (nonces p) in
  let l := evm_loop finalized_at tick txs
             {| lp_exec := x; lp_statuses := statuses p; lp_nonces := nonces p;
                lp_receipts := receipts p; lp_gas := 0; lp_applied := []; lp_latency_ms := f64_zero |} in
  xb ← sync_balances_back (lp_exec l) balances;
  Some ({| pending := []; statuses := lp_statuses l; nonces := lp_nonces l;
           pool_db := exec_db xb.1; receipts := lp_receipts l; transactions := transactions p |},
        xb.2, (length (lp_applied l), lp_latency_ms l), lp_applied l).

Definition pool_status (p : EvmPool) (h : N) : option EvmTxStatus := statuses p !! h.
Definition pool_receipt (p : EvmPool) (h : N) : option EvmReceipt := receipts p !! h.
Definition pool_transaction (p : EvmPool) (h : N) : option EvmTransaction := transactions p !! h.
Definition pool_nonce (p : EvmPool) (addr : N) : N := default 0 (nonces p !! addr).

(** Whether a log passes the filter of [logs]. *)
Fixpoint topics_match (filter : list (option N)) (topics : list N) : bool :=
  match filter with
  | [] => true
  | f :: filter =>
      match f with Some x => bool_decide (head topics = Some x) | None => true end
      && topics_match filter (tail topics)
  end.

Definition log_matches (address : option N) (filter : list (option N)) (log : EvmLog) : bool :=
  match address with Some a => log_address log =? a | None => true end
  && topics_match filter (log_topics log).

Definition pool_logs {HO : HashOrder} (p : EvmPool) (address : option N) (filter : list (option N))
    : list EvmLog :=
  List.filter (log_matches address filter) (flat_map rc_logs (hm_values (receipts p))).
End pool.

(** ** Exactly-once execution *)

Section exactly_once.
Context {C : Crypto} {E : Ethers} {V : Revm}.

(** Nonces of the sender's transactions among the given hashes, in order. *)
Definition nonces_of (txs : gmap N EvmTransaction) (a : N) (hs : list N) : list N :=
  omap (λ h, tx ← txs !! h; if tx_from tx =? a then Some (tx_nonce tx) else None) hs.

(** [0, 1, 2, ...] as [u64]. *)
Definition u64_seq (n : nat) : list N := map (λ i, N.of_nat i mod 2 ^ 64) (seq 0 n).

(** The pool's bookkeeping: transactions still to run, and hashes already applied. *)
Record bookkeeping (txs : gmap N EvmTransaction) (sts : gmap N EvmTxStatus) (ns : gmap N N)
    (remaining : list EvmTransaction) (applied : list N) : Prop := {
  bk_nodup : NoDup (map tx_hash remaining);
  bk_remaining : ∀ tx, tx ∈ remaining →
    txs !! tx_hash tx = Some tx ∧ sts !! tx_hash tx = Some Pending;
  bk_pending : ∀ h, sts !! h = Some Pending → h ∈ map tx_hash remaining;
  bk_known : ∀ h, is_Some (sts !! h) ↔ is_Some (txs !! h);
  bk_hash : ∀ h tx, txs !! h = Some tx → tx_hash tx = h;
  bk_applied_nodup : NoDup applied;
  bk_applied : ∀ h, h ∈ applied ↔ sts !! h = Some Success;
  bk_nonces : ∀ a, ∃ n, nonces_of txs a applied = u64_seq n
                        ∧ default 0 (ns !! a) = N.of_nat n mod 2 ^ 64;
}.

Lemma u64_seq_S n : u64_seq (S n) = u64_seq n ++ [N.of_nat n mod 2 ^ 64].
Proof. unfold u64_seq. rewrite seq_S, map_app. done. Qed.

Lemma wadd_mod n : wadd 64 (N.of_nat n mod 2 ^ 64) 1 = N.of_nat (S n) mod 2 ^ 64.
Proof. unfold wadd. rewrite N.Div0.add_mod_idemp_l. f_equal. lia. Qed.

Lemma nonces_of_app txs a hs ks : nonces_of txs a (hs ++ ks) = nonces_of txs a hs ++ nonces_of txs a ks.
Proof. apply omap_app. Qed.

Lemma bookkeeping_perm txs sts ns l k hs : l ≡ₚ k →
  bookkeeping txs sts ns l hs → bookkeeping txs sts ns k hs.
Proof.
  intros Hp []. split; try done.
  - by rewrite <- Hp.
  - intros tx. rewrite <- Hp. auto.
  - intros h Hh. rewrite <- Hp. auto.
Qed.

(** Running the next transaction to a final status other than success. *)
Lemma bookkeeping_fail txs sts ns tx l hs st : st ≠ Pending → st ≠ Success →
  bookkeeping txs sts ns (tx :: l) hs →
  bookkeeping txs (<[tx_hash tx := st]> sts) ns l hs.
Proof.
  intros Hp Hs [H1 H2 H3 H4 H5 H6 H7 H8]. cbn in H1. apply NoDup_cons in H1 as [Hnew H1].
  destruct (H2 tx) as [Htx Hst]; [by left|]. split; try done.
  - intros tx' Hin. destruct (H2 tx') as [? ?]; [by right|]. split; [done|].
    rewrite lookup_insert_ne; [done|]. intros E'. apply Hnew. rewrite E'. by apply list_elem_of_fmap_2.
  - intros h [[_ ?]|[Hne Hh]]%lookup_insert_Some; [done|]. apply H3 in Hh.
    cbn in Hh. apply elem_of_cons in Hh as [->|]; [done|done].
  - intros h. rewrite lookup_insert_is_Some, <- H4. destruct (decide (tx_hash tx = h)) as [<-|]; naive_solver.
  - intros h. rewrite H7, lookup_insert_Some. split.
    + intros Hh. right. split; [|done]. intros <-. congruence.
    + naive_solver.
Qed.

(** Running it successfully, at its sender's next nonce. *)
Lemma bookkeeping_apply txs sts ns tx l hs : tx_nonce tx = default 0 (ns !! tx_from tx) →
  bookkeeping txs sts ns (tx :: l) hs →
  bookkeeping txs (<[tx_hash tx := Success]> sts)
    (<[tx_from tx := wadd 64 (tx_nonce tx) 1]> ns) l (hs ++ [tx_hash tx]).
Proof.
  intros Hn [H1 H2 H3 H4 H5 H6 H7 H8]. cbn in H1. apply NoDup_cons in H1 as [Hnew H1].
  destruct (H2 tx) as [Htx Hst]; [by left|]. split; try done.
  - intros tx' Hin. destruct (H2 tx') as [? ?]; [by right|]. split; [done|].
    rewrite lookup_insert_ne; [done|]. intros E'. apply Hnew. rewrite E'. by apply list_elem_of_fmap_2.
  - intros h [[_ ?]|[Hne Hh]]%lookup_insert_Some; [done|]. apply H3 in Hh.
    cbn in Hh. apply elem_of_cons in Hh as [->|]; [done|done].
  - intros h. rewrite lookup_insert_is_Some, <- H4. destruct (decide (tx_hash tx = h)) as [<-|]; naive_solver.
  - apply NoDup_app. split; [done|]. split; [|apply NoDup_singleton].
    intros h Hh ->%list_elem_of_singleton. apply H7 in Hh. congruence.
  - intros h. rewrite elem_of_app, list_elem_of_singleton, H7, lookup_insert_Some.
    destruct (decide (tx_hash tx = h)) as [<-|]; naive_solver.
  - intros a. destruct (H8 a) as (n & En & Eb). rewrite nonces_of_app.
    assert (nonces_of txs a [tx_hash tx] = if tx_from tx =? a then [tx_nonce tx] else []) as ->.
    { unfold nonces_of. cbn. rewrite Htx. cbn. by destruct (tx_from tx =? a). }
    destruct (N.eqb_spec (tx_from tx) a) as [<-|Hne].
    + exists (S n). rewrite u64_seq_S, En, lookup_insert_eq. cbn.
      rewrite Hn, Eb. split; [done|apply wadd_mod].
    + exists n. rewrite app_nil_r, lookup_insert_ne by done. done.
Qed.

Lemma outcome_cases r : let '(st, gas, logs) := outcome r in
  (logs ≠ None ∧ st = Success) ∨ (logs = None ∧ st ≠ Pending ∧ st ≠ Success).
Proof. destruct r as [[]|]; cbn; auto. Qed.

Lemma evm_step_bookkeeping txs fin tick l i tx rest hs :
  bookkeeping txs (lp_statuses l) (lp_nonces l) (tx :: rest) (hs ++ lp_applied l) →
  let l' := evm_step fin tick l (i, tx) in
  bookkeeping txs (lp_statuses l') (lp_nonces l') rest (hs ++ lp_applied l').
Proof.
  intros Hb. unfold evm_step. destruct (N.eqb_spec (tx_nonce tx) (expected_nonce l (tx_from tx))) as [He|He];
    cbn [negb].
  2: { by apply bookkeeping_fail. }
  destruct (execute (lp_exec l) tx) as [x r]. pose proof (outcome_cases r) as Ho.
  destruct (outcome r) as [[st gas] logs]. cbn. destruct Ho as [[Hl ->]|(-> & Hp & Hs)].
  - destruct logs; [|done]. rewrite app_assoc, <- He. by apply bookkeeping_apply.
  - by apply bookkeeping_fail.
Qed.

Lemma evm_loop_bookkeeping txs fin tick rest : ∀ i l hs,
  bookkeeping txs (lp_statuses l) (lp_nonces l) rest (hs ++ lp_applied l) →
  let l' := fold_left (evm_step fin tick) (combine (seq i (length rest)) rest) l in
  bookkeeping txs (lp_statuses l') (lp_nonces l') [] (hs ++ lp_applied l').
Proof.
  induction rest as [|tx rest IH]; intros i l hs Hb; cbn; [done|].
  by apply IH, evm_step_bookkeeping.
Qed.

(** Every history of a pool, with the hashes applied so far. *)
Inductive evm_run {HO : HashOrder} : EvmPool → list N → Prop :=
  | run_new : evm_run evm_pool_new []
  | run_submit p hs tx now : evm_run p hs → evm_run (submit p tx now) hs
  | run_synthesize p hs balances fin tick p' balances' n applied : evm_run p hs →
      pool_synthesize p balances fin tick = Some (p', balances', n, applied) →
      evm_run p' (hs ++ applied).

Definition pool_books (p : EvmPool) (hs : list N) : Prop :=
  bookkeeping (transactions p) (statuses p) (nonces p) (pending p) hs.

Lemma pool_new_books : pool_books evm_pool_new [].
Proof.
  split; cbn.
  - constructor.
  - by intros tx Hin%elem_of_nil.
  - intros h. by rewrite lookup_empty.
  - intros h. rewrite !lookup_empty. split; by intros [].
  - intros h tx. by rewrite lookup_empty.
  - constructor.
  - intros h. rewrite lookup_empty. split; [by intros ?%elem_of_nil|done].
  - intros a. exists 0%nat. done.
Qed.

Lemma tx_hash_stamped tx now : tx_hash (stamped tx now) = tx_hash tx.
Proof. unfold stamped. by destruct (_ =? _). Qed.

Lemma submit_books p hs tx now : pool_books p hs → pool_books (submit p tx now) hs.
Proof.
  intros Hb. unfold submit. case_bool_decide as Hk; [done|].
  apply eq_None_not_Some in Hk. destruct Hb as [H1 H2 H3 H4 H5 H6 H7 H8].
  assert (Ht : transactions p !! tx_hash tx = None).
  { apply eq_None_not_Some. rewrite <- H4, Hk. by intros []. }
  set (tx' := stamped tx now). assert (Eh : tx_hash tx' = tx_hash tx) by apply tx_hash_stamped.
  unfold pool_books. cbn. rewrite <- Eh in *.
  assert (Hno : ∀ h, h ∈ map tx_hash (pending p) → h ≠ tx_hash tx').
  { intros h (t & -> & Hin)%list_elem_of_fmap E'. destruct (H2 t Hin) as [Hs _]. congruence. }
  assert (Hap : ∀ h, h ∈ hs → h ≠ tx_hash tx') by (intros h Hh%H7; congruence).
  split; try done.
  - rewrite map_app. apply NoDup_app. split; [done|]. split; [|apply NoDup_singleton].
    intros h Hh ->%list_elem_of_singleton. by apply (Hno _ Hh).
  - intros t [Hin| ->%list_elem_of_singleton]%elem_of_app; [|by rewrite !lookup_insert_eq].
    assert (tx_hash t ≠ tx_hash tx') by (by apply Hno, list_elem_of_fmap_2).
    rewrite !lookup_insert_ne by done. by apply H2.
  - intros h [[<- _]|[_ Hh%H3]]%lookup_insert_Some; rewrite map_app, elem_of_app; [right; by left|by left].
  - intros h. rewrite !lookup_insert_is_Some, H4. done.
  - intros h t [[<- <-]|[_ Ht']]%lookup_insert_Some; [done|by apply H5].
  - intros h. rewrite lookup_insert_Some, H7. naive_solver.
  - intros a. destruct (H8 a) as (n & En & Eb). exists n. split; [|done].
    rewrite <- En. unfold nonces_of. apply list_omap_ext. apply Forall_Forall2_diag, Forall_forall.
    intros h Hh. rewrite lookup_insert_ne; [done|]. intros <-. by apply (Hap _ Hh).
Qed.

Lemma synthesize_books {HO : HashOrder} p hs bal fin tick p' bal' n applied : pool_books p hs →
  pool_synthesize p bal fin tick = Some (p', bal', n, applied) →
  pool_books p' (hs ++ applied) ∧ pending p' = [].
Proof.
  intros Hb. unfold pool_synthesize. set (l0 := {| lp_exec := _ |}).
  destruct (sync_balances_back _ bal) as [[x b]|]; cbn; [|done]. intros [= <- <- <- <-].
  split; [|done]. unfold pool_books, evm_loop. cbn.
  apply (evm_loop_bookkeeping (transactions p) fin tick _ 0 l0 hs). cbn. rewrite app_nil_r.
  eapply bookkeeping_perm; [symmetry; apply sort_by_perm|]. exact Hb.
Qed.

Lemma evm_run_books {HO : HashOrder} p hs : evm_run p hs → pool_books p hs.
Proof.
  induction 1 as [|p hs tx now _ IH|p hs bal fin tick p' bal' n applied _ IH Hs].
  - apply pool_new_books.
  - by apply submit_books.
  - by eapply synthesize_books.
Qed.

(** C25: exactly-once execution of Ethereum transactions. In every history of submissions
    and synthesis ticks, whatever the interpreter does: no transaction is applied twice,
    the transactions applied are those the pool reports as successful, the ones reported
    as pending are exactly those in the queue, and the nonces of any sender's applied
    transactions are 0, 1, 2, ... without gap or repetition, up to the nonce the pool
    expects next (as [u64]s). *)
Theorem evm_exactly_once {HO : HashOrder} p hs : evm_run p hs →
  NoDup hs
  ∧ (∀ h, h ∈ hs ↔ pool_status p h = Some Success)
  ∧ (∀ h, pool_status p h = Some Pending ↔ ∃ tx, tx ∈ pending p ∧ tx_hash tx = h)
  ∧ (∀ a, ∃ n, nonces_of (transactions p) a hs = u64_seq n
               ∧ pool_nonce p a = N.of_nat n mod 2 ^ 64).
Proof.
  intros [H1 H2 H3 H4 H5 H6 H7 H8]%evm_run_books. split_and!; [done|done| |done].
  intros h. split.
  - intros (tx & -> & Hin)%H3%list_elem_of_fmap. by exists tx.
  - intros (tx & Hin & <-). by apply H2.
Qed.
End exactly_once.

(** ** Order of submission *)

Section batch_order.
Context {C : Crypto} {E : Ethers} {V : Revm} {HO : HashOrder}.

Lemma tx_le_total a b : tx_le a b = true ∨ tx_le b a = true.
Proof. unfold tx_le. rewrite !orb_true_iff, !andb_true_iff, !N.ltb_lt, !N.eqb_eq, !N.leb_le. lia. Qed.

Lemma tx_le_trans a b c : tx_le a b = true → tx_le b c = true → tx_le a c = true.
Proof. unfold tx_le. rewrite !orb_true_iff, !andb_true_iff, !N.ltb_lt, !N.eqb_eq, !N.leb_le. lia. Qed.

(** The nonces of one sender's transactions, in the order of the list. *)
Definition sender_nonces (a : N) (txs : list EvmTransaction) : list N :=
  map tx_nonce (List.filter (λ tx, tx_from tx =? a) txs).

Definition nonces_from (c : N) (k : nat) : list N := map (λ i, c + N.of_nat i) (seq 0 k).

Lemma nonces_from_S c k : nonces_from c (S k) = c :: nonces_from (c + 1) k.
Proof.
  unfold nonces_from. cbn [seq map]. f_equal; [lia|]. rewrite <- seq_shift, map_map.
  apply map_ext. lia.
Qed.

Lemma nonces_from_sorted k : ∀ c, StronglySorted N.le (nonces_from c k).
Proof.
  induction k as [|k IH]; intros c; [constructor|]. rewrite nonces_from_S. constructor; [done|].
  apply Forall_forall. intros x (i & -> & _)%list_elem_of_fmap. lia.
Qed.

Lemma sender_nonces_sorted a l : StronglySorted (λ x y, tx_le x y = true) l →
  StronglySorted N.le (sender_nonces a l).
Proof.
  unfold sender_nonces. induction 1 as [|tx l _ IH Hall]; cbn; [constructor|].
  destruct (N.eqb_spec (tx_from tx) a) as [Ha|]; [|done]. cbn. constructor; [done|].
  apply Forall_forall. intros n (t & -> & Hin)%list_elem_of_fmap.
  apply list_elem_of_In, filter_In in Hin as [Hin Hf%N.eqb_eq]. apply list_elem_of_In in Hin.
  pose proof (proj1 (Forall_forall _ _) Hall t Hin) as Hle. cbn in Hle. unfold tx_le in Hle.
  rewrite orb_true_iff, andb_true_iff, N.ltb_lt, N.leb_le in Hle. lia.
Qed.

#[export] Instance sender_nonces_perm a : Proper ((≡ₚ) ==> (≡ₚ)) (sender_nonces a).
Proof.
  intros l k Hp. unfold sender_nonces. apply Permutation_map.
  induction Hp; cbn; repeat case_match; try done; try (by econstructor; eauto); by etransitivity.
Qed.

(** Sorting the queue lines a sender's consecutive nonces up. *)
Lemma sorted_sender_nonces a l c k : sender_nonces a l ≡ₚ nonces_from c k →
  sender_nonces a (sort_by tx_le l) = nonces_from c k.
Proof.
  intros Hp. apply (StronglySorted_unique N.le).
  - apply sender_nonces_sorted, sort_by_sorted; [apply tx_le_total|apply tx_le_trans].
  - apply nonces_from_sorted.
  - by rewrite sort_by_perm.
Qed.

Lemma evm_step_applied fin tick l it h : h ∈ lp_applied l → h ∈ lp_applied (evm_step fin tick l it).
Proof.
  intros Hh. destruct it as [i tx]. unfold evm_step. destruct (negb _); [done|].
  destruct (execute (lp_exec l) tx) as [x r]. destruct (outcome r) as [[st g] [logs|]]; cbn; [|done].
  apply elem_of_app. by left.
Qed.

Lemma evm_loop_applied fin tick its : ∀ l h, h ∈ lp_applied l → h ∈ lp_applied (fold_left (evm_step fin tick) its l).
Proof. induction its as [|it its IH]; intros l h Hh; cbn; [done|]. by apply IH, evm_step_applied. Qed.

(** The interpreter accepts a transaction from every state. *)
Definition always_succeeds (tx : EvmTransaction) : Prop :=
  ∀ x, ∃ g logs out, (execute x tx).2 = Ok (ExSuccess g logs out).

(** Another sender's transaction does not move the expected nonce. *)
Lemma evm_step_other fin tick l i tx a : tx_from tx ≠ a →
  expected_nonce (evm_step fin tick l (i, tx)) a = expected_nonce l a.
Proof.
  intros Hne. unfold evm_step. destruct (negb _); [done|]. destruct (execute (lp_exec l) tx) as [x r].
  destruct (outcome r) as [[st g] [logs|]]; [|done]. unfold expected_nonce. cbn.
  by rewrite lookup_insert_ne.
Qed.

Lemma evm_loop_complete fin tick a txs : ∀ i l k,
  sender_nonces a txs = nonces_from (expected_nonce l a) k →
  expected_nonce l a + N.of_nat k ≤ 2 ^ 64 →
  (∀ tx, tx ∈ txs → tx_from tx = a → always_succeeds tx) →
  ∀ tx, tx ∈ txs → tx_from tx = a →
    tx_hash tx ∈ lp_applied (fold_left (evm_step fin tick) (combine (seq i (length txs)) txs) l).
Proof.
  induction txs as [|t txs IH]; intros i l k Hs Hk Hok tx Hin Ha; [by apply elem_of_nil in Hin|].
  cbn [length seq combine fold_left]. unfold sender_nonces in Hs. cbn in Hs.
  destruct (N.eqb_spec (tx_from t) a) as [Ht|Ht].
  - destruct k as [|k]; [done|]. rewrite nonces_from_S in Hs. cbn in Hs. injection Hs as Hn Hs.
    assert (Hstep : ∃ x g logs, evm_step fin tick l (i, t) =
      {| lp_exec := x; lp_statuses := <[tx_hash t := Success]> (lp_statuses l);
         lp_nonces := <[a := wadd 64 (expected_nonce l a) 1]> (lp_nonces l);
         lp_receipts := <[tx_hash t := receipt_of tick i t g (wadd 64 (lp_gas l) g) (Some logs)]> (lp_receipts l);
         lp_gas := wadd 64 (lp_gas l) g; lp_applied := lp_applied l ++ [tx_hash t];
         lp_latency_ms := f64_add (lp_latency_ms l) (latency_ms fin (tx_first_seen_at_ns t)) |}).
    { destruct (Hok t ltac:(by left) Ht (lp_exec l)) as (g & logs & out & Hx). unfold evm_step.
      rewrite Ht, Hn, N.eqb_refl. cbn [negb]. destruct (execute (lp_exec l) t) as [x r]. cbn in Hx. subst r.
      by exists x, g, logs. }
    destruct Hstep as (x & g & logs & ->).
    apply elem_of_cons in Hin as [->|Hin].
    + apply evm_loop_applied. cbn. apply elem_of_app. right. by left.
    + destruct k as [|k].
      { exfalso. apply map_eq_nil in Hs. assert (Hf : In tx (List.filter (λ tx, tx_from tx =? a) txs)).
        { apply filter_In. split; [by apply list_elem_of_In|by apply N.eqb_eq]. }
        by rewrite Hs in Hf. }
      assert (Ee : ∀ y, lp_nonces y = <[a := wadd 64 (expected_nonce l a) 1]> (lp_nonces l) →
                        expected_nonce y a = expected_nonce l a + 1).
      { intros y Ey. unfold expected_nonce at 1. rewrite Ey, lookup_insert_eq. cbn. apply wadd_small. lia. }
      apply (IH (S i) _ (S k)); [by rewrite Ee|rewrite Ee by done; lia| |done|done].
      intros tx' Hin'. apply Hok. by right.
  - apply elem_of_cons in Hin as [->|Hin]; [done|].
    apply (IH (S i) _ k); [|by rewrite evm_step_other| |done|done].
    + by rewrite evm_step_other.
    + intros tx' Hin'. apply Hok. by right.
Qed.

End batch_order.

(** ** Balances in and out of the interpreter *)

Section balances.
Context {C : Crypto} {E : Ethers} {V : Revm} {VL : RevmLaws V} {HO : HashOrder}.

(** Addresses that occur in a queue. *)
Definition involved (txs : list EvmTransaction) : gset N := list_to_set (flat_map tx_addresses txs).

(** The balance the interpreter sees. *)
Definition evm_balance (db : DB) (addr : N) : N := default 0 (db_basic db addr).2.

Lemma seed_spec x addr bal n b :
  (db_basic (exec_db (seed_balance_nonce x addr bal n)) b).2
  = if addr =? b then Some bal else (db_basic (exec_db x) b).2.
Proof.
  unfold seed_balance_nonce. cbn. destruct (db_known (exec_db x) addr) eqn:Hk;
    [by apply db_update_spec|by apply db_insert_spec].
Qed.

Lemma seed_all_spec (f g : N → N) addrs : ∀ x,
  let x' := fold_left (λ x addr, seed_balance_nonce x addr (f addr) (g addr)) addrs x in
  touched x' = list_to_set addrs ∪ touched x
  ∧ ∀ b, (db_basic (exec_db x') b).2 = if decide (b ∈ addrs) then Some (f b) else (db_basic (exec_db x) b).2.
Proof.
  induction addrs as [|a addrs IH]; intros x; cbn [fold_left].
  { split; [set_solver|]. intros b. rewrite decide_False; [done|apply not_elem_of_nil]. }
  destruct (IH (seed_balance_nonce x a (f a) (g a))) as [Ht Hb]. split.
  - rewrite Ht. cbn. set_solver.
  - intros b. rewrite Hb, seed_spec. destruct (N.eqb_spec a b) as [->|Hne].
    + rewrite (decide_True (P := b ∈ b :: addrs)) by by left. by destruct (decide (b ∈ addrs)).
    + destruct (decide (b ∈ addrs)) as [Hin|Hin]; [by rewrite decide_True by by right|].
      rewrite decide_False; [done|]. intros [->|?]%elem_of_cons; done.
Qed.

Lemma elem_of_involved txs a : a ∈ involved txs ↔ ∃ tx, tx ∈ txs ∧ a ∈ tx_addresses tx.
Proof.
  unfold involved. rewrite elem_of_list_to_set, list_elem_of_In, in_flat_map.
  by setoid_rewrite <- list_elem_of_In.
Qed.

Lemma involved_perm txs txs' : txs ≡ₚ txs' → involved txs = involved txs'.
Proof. intros Hp. apply set_eq. intros a. rewrite !elem_of_involved. by setoid_rewrite Hp. Qed.

Lemma touch_involved x tx (S : gset N) : touched x = S → (∀ a, a ∈ tx_addresses tx → a ∈ S) →
  touch x (tx_from tx) (tx_to tx) = S.
Proof.
  unfold touch, tx_addresses. intros ->. destruct (tx_to tx) as [to|]; intros Hs.
  - assert (tx_from tx ∈ S ∧ to ∈ S) by (split; apply Hs; set_solver). set_solver.
  - assert (tx_from tx ∈ S) by (apply Hs; set_solver). set_solver.
Qed.

Lemma evm_step_touched fin tick l i tx S : touched (lp_exec l) = S → (∀ a, a ∈ tx_addresses tx → a ∈ S) →
  touched (lp_exec (evm_step fin tick l (i, tx))) = S.
Proof.
  intros Ht Hs. unfold evm_step. destruct (negb _); [done|].
  assert (Hx : touched (execute (lp_exec l) tx).1 = S).
  { unfold execute. destruct (transact_commit _ _ _). by apply touch_involved. }
  destruct (execute (lp_exec l) tx) as [x r]. by destruct (outcome r) as [[st g] logs].
Qed.

Lemma evm_loop_touched fin tick S txs : ∀ i l, touched (lp_exec l) = S →
  (∀ tx a, tx ∈ txs → a ∈ tx_addresses tx → a ∈ S) →
  touched (lp_exec (fold_left (evm_step fin tick) (combine (seq i (length txs)) txs) l)) = S.
Proof.
  induction txs as [|tx txs IH]; intros i l Ht Hs; [done|].
  cbn [length seq combine fold_left]. apply IH.
  - apply evm_step_touched; [done|]. intros a. apply Hs. by left.
  - intros tx' a Hin. apply Hs. by right.
Qed.

Lemma sync_all_spec addrs : ∀ acc acc', fold_opt sync_one addrs acc = Some acc' →
  (∀ b, (db_basic acc'.1 b).2 = (db_basic acc.1 b).2)
  ∧ (∀ id, (∀ a, a ∈ addrs → evm_address_to_fluidic a ≠ id) → acc'.2 !! id = acc.2 !! id)
  ∧ (∀ a, a ∈ addrs → (∀ b, b ∈ addrs → evm_address_to_fluidic b = evm_address_to_fluidic a → b = a) →
       acc'.2 !! evm_address_to_fluidic a = Some (evm_balance acc.1 a)).
Proof.
  induction addrs as [|a addrs IH]; intros acc acc'; cbn [fold_opt].
  { intros [= ->]. split_and!; [done|done|]. intros a Hin. by apply elem_of_nil in Hin. }
  unfold sync_one at 2. pose proof (db_basic_pure acc.1 a) as Hpure.
  destruct (db_basic acc.1 a) as [db o] eqn:Hdb. cbn in Hpure.
  destruct (2 ^ 128 <=? default 0 o); [done|]. cbn [mbind option_bind]. intros H.
  destruct (IH _ _ H) as (H1 & H2 & H3). cbn [fst snd] in *. split_and!.
  - intros b. by rewrite H1, Hpure.
  - intros id Hid. rewrite H2 by (intros b Hb; apply Hid; by right).
    apply lookup_insert_ne. apply Hid. by left.
  - intros b Hb Hinj. assert (Ev : evm_balance acc.1 b = evm_balance db b)
      by (unfold evm_balance; by rewrite Hpure).
    destruct (decide (b ∈ addrs)) as [Hin|Hin].
    + rewrite H3; [by rewrite Ev|done|]. intros c Hc. apply Hinj. by right.
    + apply elem_of_cons in Hb as [->|Hb]; [|done]. rewrite H2.
      * rewrite lookup_insert_eq. unfold evm_balance. by rewrite Hdb.
      * intros c Hc E'. apply Hin. rewrite <- (Hinj c); [done|by right|done].
Qed.

(** What a tick does to balances. The interpreter starts from the shared balance of
    every address a queued transaction names; when the tick is done, the shared balance
    of each of those addresses is the one in the interpreter's database, provided their
    account identifiers do not collide; every other account keeps its balance. *)
Theorem evm_balances_sync p bal fin tick p' bal' n hs :
  pool_synthesize p bal fin tick = Some (p', bal', n, hs) →
  (∀ a, a ∈ involved (pending p) →
     evm_balance (exec_db (prepare (with_db (pool_db p)) (sort_by tx_le (pending p)) bal (nonces p))) a
     = default 0 (bal !! evm_address_to_fluidic a))
  ∧ (∀ id, (∀ a, a ∈ involved (pending p) → evm_address_to_fluidic a ≠ id) → bal' !! id = bal !! id)
  ∧ ((∀ a b, a ∈ involved (pending p) → b ∈ involved (pending p) →
        evm_address_to_fluidic a = evm_address_to_fluidic b → a = b) →
     ∀ a, a ∈ involved (pending p) →
       bal' !! evm_address_to_fluidic a = Some (evm_balance (pool_db p') a)).
Proof.
  set (txs := sort_by tx_le (pending p)).
  assert (Ei : involved txs = involved (pending p)) by (apply involved_perm, sort_by_perm).
  set (x0 := prepare (with_db (pool_db p)) txs bal (nonces p)).
  pose proof (seed_all_spec (λ a, default 0 (bal !! evm_address_to_fluidic a))
    (λ a, default 0 (nonces p !! a)) (flat_map tx_addresses txs) (with_db (pool_db p))) as [Ht0 Hb0].
  change (fold_left _ _ _) with x0 in Ht0, Hb0.
  assert (Ht : touched x0 = involved (pending p)).
  { rewrite Ht0, <- Ei. cbn. unfold involved. set_solver. }
  unfold pool_synthesize. fold txs x0. set (l0 := {| lp_exec := x0 |}).
  pose proof (evm_loop_touched fin tick (involved (pending p)) txs 0 l0 Ht) as Hl.
  unfold evm_loop, sync_balances_back. set (l := fold_left _ _ l0) in *. rewrite Hl.
  2: { intros tx a Hin Ha. rewrite <- Ei. apply elem_of_involved. eauto. }
  destruct (fold_opt sync_one _ _) as [acc'|] eqn:Hs; [|done]. cbn. intros [= <- <- _ _].
  destruct (sync_all_spec _ _ _ Hs) as (H1 & H2 & H3). cbn [fst snd] in *.
  setoid_rewrite elem_of_hs_iter in H2. setoid_rewrite elem_of_hs_iter in H3.
  split_and!; [| |].
  - intros a Ha. unfold evm_balance. rewrite Hb0, decide_True; [done|].
    rewrite <- Ei in Ha. by apply elem_of_list_to_set in Ha.
  - done.
  - intros Hinj a Ha. rewrite H3; [|done|by intros b Hb; apply Hinj].
    f_equal. unfold evm_balance. cbn. by rewrite H1.
Qed.
End balances.

(** A tick without transactions always succeeds. *)
Lemma idle_pool_total {C : Crypto} {E : Ethers} {V : Revm} {HO : HashOrder} p bal fin tick :
  pending p = [] → is_Some (pool_synthesize p bal fin tick).
Proof.
  intros Hp. assert (Hn : hs_iter (∅ : gset N) = []).
  { apply elem_of_nil_inv. intros x Hx%elem_of_hs_iter. by apply elem_of_empty in Hx. }
  unfold pool_synthesize, sync_balances_back. rewrite Hp. cbn [sort_by evm_loop prepare flat_map
    fold_left combine seq length lp_exec with_db touched]. rewrite Hn. by eexists.
Qed.

(** ** A concrete interpreter: plain transfers, no code *)

(** Balance and nonce per address. *)
Definition transfer_exec (db : gmap N (N * N)) (env : TxEnv)
    : gmap N (N * N) * result bytes ExecutionResult :=
  let '(bal, nonce) := default (0, 0) (db !! env_caller env) in
  if negb (default nonce (env_nonce env) =? nonce) then (db, Err (ascii "nonce"))
  else if bal <? env_value env then (db, Err (ascii "funds"))
  else
    let db := <[env_caller env := (bal - env_value env, nonce + 1)]> db in
    let to := default 0 (env_transact_to env) in
    let '(tb, tn) := default (0, 0) (db !! to) in
    (<[to := (tb + env_value env, tn)]> db, Ok (ExSuccess 21000 [] [])).

Definition transfer_vm : Revm := {|
  DB := gmap N (N * N);
  db_default := ∅;
  db_known := λ db a, bool_decide (is_Some (db !! a));
  db_update_info := λ db a bal n, <[a := (bal, n)]> db;
  db_insert_info := λ db a bal n, <[a := (bal, n)]> db;
  db_basic := λ db a, (db, fst <$> db !! a);
  db_code_hash := λ _ _, None;
  db_contract := λ _ _, None;
  transact_commit := λ db _ env, transfer_exec db env;
  transact := λ db _ env, (db, (transfer_exec db env).2);
|}.

#[export] Instance transfer_vm_laws : RevmLaws transfer_vm.
Proof.
  split; cbn; [done| |]; intros db a bal n b; [intros _|];
    destruct (N.eqb_spec a b) as [->|Hne]; by rewrite ?lookup_insert_eq, ?lookup_insert_ne.
Qed.

(** An interpreter that accepts everything and changes nothing. *)
Definition accepting_vm : Revm := {|
  DB := gmap N (N * N);
  db_default := ∅;
  db_known := λ db a, bool_decide (is_Some (db !! a));
  db_update_info := λ db a bal n, <[a := (bal, n)]> db;
  db_insert_info := λ db a bal n, <[a := (bal, n)]> db;
  db_basic := λ db a, (db, fst <$> db !! a);
  db_code_hash := λ _ _, None;
  db_contract := λ _ _, None;
  transact_commit := λ db _ _, (db, Ok (ExSuccess 21000 [] []));
  transact := λ db _ _, (db, Ok (ExSuccess 21000 [] []));
|}.

Definition plain_ethers : Ethers := {|
  DecoderError := (); SignatureError := ();
  rlp_decode := λ _, Err ();
  recover_from := λ _, Err ();
  raw_hash := λ tx, raw_nonce tx;
  as_u64 := λ x, if x <? 2 ^ 64 then Some x else None;
  get_contract_address := λ a n, a + n;
|}.

Section samples.
Local Existing Instance lawful_crypto.
Local Existing Instance plain_ethers.
Local Existing Instance map_order.

Definition sample_tx (h from to value nonce : N) : EvmTransaction :=
  {| tx_hash := h; tx_from := from; tx_to := Some to; tx_value := value; tx_gas_price := 0;
     tx_gas_limit := 21000; tx_data := []; tx_nonce := nonce; tx_raw := [];
     tx_first_seen_at_ns := 1 |}.

Definition sample_queue : list EvmTransaction :=
  [sample_tx 101 7 8 30 1; sample_tx 102 7 9 20 0; sample_tx 103 9 7 5 3].

Definition sample_pool {V : Revm} : EvmPool :=
  fold_left (λ p tx, submit p tx 1) sample_queue evm_pool_new.

Definition sample_balances : gmap N N := {[ evm_address_to_fluidic 7 := 100 ]}.

(** Submitted out of order, run in nonce order; the transaction out of turn is dropped. *)
Example sample_tick :
  (λ '(p, b, n, hs), (hs, pool_status p 103, pool_nonce p 7,
     b !! evm_address_to_fluidic 7, b !! evm_address_to_fluidic 8, b !! evm_address_to_fluidic 9))
    <$> @pool_synthesize _ _ transfer_vm _ (sample_pool (V := transfer_vm)) sample_balances 9 4
  = Some ([102; 101], Some (FailedNonce 0), 2, Some 50, Some 30, Some 20).
Proof. vm_compute. reflexivity. Qed.

Definition sample_run (V : Revm) : EvmPool * list N :=
  match pool_synthesize (sample_pool (V := V)) sample_balances 9 4 with
  | Some (p, _, _, hs) => (p, hs)
  | None => (sample_pool, [])
  end.

Lemma evm_exactly_once_witness :
  evm_run (V := transfer_vm) (sample_run transfer_vm).1 (sample_run transfer_vm).2
  ∧ NoDup (sample_run transfer_vm).2.
Proof.
  assert (H : evm_run (V := transfer_vm) (sample_run transfer_vm).1 (sample_run transfer_vm).2).
  { assert (H0 : evm_run (V := transfer_vm) sample_pool []) by (repeat constructor).
    pose proof (run_synthesize (V := transfer_vm) sample_pool [] sample_balances 9 4) as Hr.
    unfold sample_run. destruct (@pool_synthesize _ _ transfer_vm _ sample_pool sample_balances 9 4)
      as [[[[p b] n] hs]|]; [by eapply Hr|exact H0]. }
  split; [exact H|]. exact (proj1 (evm_exactly_once (V := transfer_vm) _ _ H)).
Defined.

(** The same queue, submitted in the opposite order. *)
Definition reversed_queue {V : Revm} (p : EvmPool) : EvmPool :=
  {| pending := rev (pending p); statuses := statuses p; nonces := nonces p; pool_db := pool_db p;
     receipts := receipts p; transactions := transactions p |}.
Definition shuffled_pool : EvmPool (V := accepting_vm) := reversed_queue sample_pool.


Lemma evm_balances_sync_witness :
  ∃ p' bal' n hs, pool_synthesize (sample_pool (V := transfer_vm)) sample_balances 9 4 = Some (p', bal', n, hs)
  ∧ bal' !! evm_address_to_fluidic 8 = Some 30.
Proof.
  assert (Hrun : ∃ p' bal' n hs, pool_synthesize (sample_pool (V := transfer_vm)) sample_balances 9 4
    = Some (p', bal', n, hs) ∧ evm_balance (V := transfer_vm) (pool_db p') 8 = 30).
  { eexists _, _, _, _. split; [vm_compute; reflexivity|vm_compute; reflexivity]. }
  destruct Hrun as (p' & bal' & n & hs & Hrun & Hb). exists p', bal', n, hs. split; [exact Hrun|].
  destruct (evm_balances_sync (V := transfer_vm) sample_pool sample_balances 9 4 p' bal' n hs Hrun)
    as (_ & _ & Hsync).
  assert (Hin : 8 ∈ involved (pending (sample_pool (V := transfer_vm)))) by by_decision.
  assert (Hinj : NoDup (map evm_address_to_fluidic (elements (involved (pending (sample_pool (V := transfer_vm)))))))
    by by_decision.
  rewrite Hsync; [by rewrite Hb| |exact Hin].
  intros a b Ha Hb' E'. apply (NoDup_map_inj _ _ a b Hinj); [| |exact E'];
    by apply elem_of_elements.
Defined.
End samples.
