(* ===== verification/Oscillator.v ===== *)
(** * The oscillator (src/src/consensus/oscillator.rs): state and ingestion

    A node's state and the operations that feed it: ingestion of signals with replay
    protection, seeding, staking, registration of accounts and domains, peer
    certificates and fees.  The synthesis cycle is in [Synthesis].  Locks are taken and
    released within one operation, so operations are modelled as sequential; the current
    time is an argument.  Proved: staking conserves value and forged or replayed stake events
    change nothing; domain registration is atomic and succeeds exactly when it should. *)
From S2P Require Import Prelude Bytes Value Crypto Signals Merkle Stake Rewards Certificate.
From S2P Require Import Metabolic ModArith Ntt WaveField Domain Dag DagOrder Evm.
Local Open Scope N_scope.

(** The error strings of the oscillator. *)
Inductive osc_error :=
  | Replay (nonce seen : N)
  | UnknownDomain (d : N)
  | CommutativeNotAllowed (d : N)
  | StatefulNotAllowed (d : N)
  | PredecessorsNotAllowed
  | ZeroAmount
  | StakeMisrouted
  | BadPolicy (e : policy_error)
  | AlreadyRegistered (d : N)
  | CannotAffordDomain (need have : N)
  | DebitFailed
  | FlatFeeNotCovered.

Section oscillator.
Context {C : Crypto} {V : Revm}.

Record Oscillator := {
  osc_id : N;
  wave_field : WaveField;
  dag : VectorClockDag;
  keypair : KeyPair;
  vector_clock : VectorClock.t;
  pending_commutative : list (N * Coordinate * Z * N);
  pending_stateful : list StatefulShift;
  seen_signatures : gset bytes;
  seen_nonces : gmap (N * N) N;
  metabolic_engine : MetabolicDecayEngine N N;
  synthesis_tick : N;
  domain_registry : DomainRegistry;
  operator_keypair : option KeyPair;
  certificates : gmap N SynthesisCertificate;
  stake_table : StakeTable;
  certificate_tracker : CertificateTracker;
  reward_pool : RewardPool;
  evm_pool : EvmPool;
  supply_tracker : Supply.SupplyTracker;
}.

(** Replace one component. *)
Definition with_field (o : Oscillator) (x : WaveField) : Oscillator :=
  {| osc_id := osc_id o; wave_field := x; dag := dag o; keypair := keypair o; vector_clock :=
     vector_clock o; pending_commutative := pending_commutative o; pending_stateful :=
     pending_stateful o; seen_signatures := seen_signatures o; seen_nonces := seen_nonces o;
     metabolic_engine := metabolic_engine o; synthesis_tick := synthesis_tick o; domain_registry
     := domain_registry o; operator_keypair := operator_keypair o; certificates := certificates
     o; stake_table := stake_table o; certificate_tracker := certificate_tracker o; reward_pool
     := reward_pool o; evm_pool := evm_pool o; supply_tracker := supply_tracker o |}.
Definition with_dag (o : Oscillator) (x : VectorClockDag) : Oscillator :=
  {| osc_id := osc_id o; wave_field := wave_field o; dag := x; keypair := keypair o; vector_clock
     := vector_clock o; pending_commutative := pending_commutative o; pending_stateful :=
     pending_stateful o; seen_signatures := seen_signatures o; seen_nonces := seen_nonces o;
     metabolic_engine := metabolic_engine o; synthesis_tick := synthesis_tick o; domain_registry
     := domain_registry o; operator_keypair := operator_keypair o; certificates := certificates
     o; stake_table := stake_table o; certificate_tracker := certificate_tracker o; reward_pool
     := reward_pool o; evm_pool := evm_pool o; supply_tracker := supply_tracker o |}.
Definition with_clock (o : Oscillator) (x : VectorClock.t) : Oscillator :=
  {| osc_id := osc_id o; wave_field := wave_field o; dag := dag o; keypair := keypair o;
     vector_clock := x; pending_commutative := pending_commutative o; pending_stateful :=
     pending_stateful o; seen_signatures := seen_signatures o; seen_nonces := seen_nonces o;
     metabolic_engine := metabolic_engine o; synthesis_tick := synthesis_tick o; domain_registry
     := domain_registry o; operator_keypair := operator_keypair o; certificates := certificates
     o; stake_table := stake_table o; certificate_tracker := certificate_tracker o; reward_pool
     := reward_pool o; evm_pool := evm_pool o; supply_tracker := supply_tracker o |}.
Definition with_commutative (o : Oscillator) (x : list (N * Coordinate * Z * N)) : Oscillator :=
  {| osc_id := osc_id o; wave_field := wave_field o; dag := dag o; keypair := keypair o;
     vector_clock := vector_clock o; pending_commutative := x; pending_stateful :=
     pending_stateful o; seen_signatures := seen_signatures o; seen_nonces := seen_nonces o;
     metabolic_engine := metabolic_engine o; synthesis_tick := synthesis_tick o; domain_registry
     := domain_registry o; operator_keypair := operator_keypair o; certificates := certificates
     o; stake_table := stake_table o; certificate_tracker := certificate_tracker o; reward_pool
     := reward_pool o; evm_pool := evm_pool o; supply_tracker := supply_tracker o |}.
Definition with_stateful (o : Oscillator) (x : list StatefulShift) : Oscillator :=
  {| osc_id := osc_id o; wave_field := wave_field o; dag := dag o; keypair := keypair o;
     vector_clock := vector_clock o; pending_commutative := pending_commutative o;
     pending_stateful := x; seen_signatures := seen_signatures o; seen_nonces := seen_nonces o;
     metabolic_engine := metabolic_engine o; synthesis_tick := synthesis_tick o; domain_registry
     := domain_registry o; operator_keypair := operator_keypair o; certificates := certificates
     o; stake_table := stake_table o; certificate_tracker := certificate_tracker o; reward_pool
     := reward_pool o; evm_pool := evm_pool o; supply_tracker := supply_tracker o |}.
Definition with_signatures (o : Oscillator) (x : gset bytes) : Oscillator :=
  {| osc_id := osc_id o; wave_field := wave_field o; dag := dag o; keypair := keypair o;
     vector_clock := vector_clock o; pending_commutative := pending_commutative o;
     pending_stateful := pending_stateful o; seen_signatures := x; seen_nonces := seen_nonces o;
     metabolic_engine := metabolic_engine o; synthesis_tick := synthesis_tick o; domain_registry
     := domain_registry o; operator_keypair := operator_keypair o; certificates := certificates
     o; stake_table := stake_table o; certificate_tracker := certificate_tracker o; reward_pool
     := reward_pool o; evm_pool := evm_pool o; supply_tracker := supply_tracker o |}.
Definition with_nonces (o : Oscillator) (x : gmap (N * N) N) : Oscillator :=
  {| osc_id := osc_id o; wave_field := wave_field o; dag := dag o; keypair := keypair o;
     vector_clock := vector_clock o; pending_commutative := pending_commutative o;
     pending_stateful := pending_stateful o; seen_signatures := seen_signatures o; seen_nonces :=
     x; metabolic_engine := metabolic_engine o; synthesis_tick := synthesis_tick o;
     domain_registry := domain_registry o; operator_keypair := operator_keypair o; certificates
     := certificates o; stake_table := stake_table o; certificate_tracker := certificate_tracker
     o; reward_pool := reward_pool o; evm_pool := evm_pool o; supply_tracker := supply_tracker o |}.
Definition with_engine (o : Oscillator) (x : MetabolicDecayEngine N N) : Oscillator :=
  {| osc_id := osc_id o; wave_field := wave_field o; dag := dag o; keypair := keypair o;
     vector_clock := vector_clock o; pending_commutative := pending_commutative o;
     pending_stateful := pending_stateful o; seen_signatures := seen_signatures o; seen_nonces :=
     seen_nonces o; metabolic_engine := x; synthesis_tick := synthesis_tick o; domain_registry :=
     domain_registry o; operator_keypair := operator_keypair o; certificates := certificates o;
     stake_table := stake_table o; certificate_tracker := certificate_tracker o; reward_pool :=
     reward_pool o; evm_pool := evm_pool o; supply_tracker := supply_tracker o |}.
Definition with_tick (o : Oscillator) (x : N) : Oscillator :=
  {| osc_id := osc_id o; wave_field := wave_field o; dag := dag o; keypair := keypair o;
     vector_clock := vector_clock o; pending_commutative := pending_commutative o;
     pending_stateful := pending_stateful o; seen_signatures := seen_signatures o; seen_nonces :=
     seen_nonces o; metabolic_engine := metabolic_engine o; synthesis_tick := x; domain_registry
     := domain_registry o; operator_keypair := operator_keypair o; certificates := certificates
     o; stake_table := stake_table o; certificate_tracker := certificate_tracker o; reward_pool
     := reward_pool o; evm_pool := evm_pool o; supply_tracker := supply_tracker o |}.
Definition with_registry (o : Oscillator) (x : DomainRegistry) : Oscillator :=
  {| osc_id := osc_id o; wave_field := wave_field o; dag := dag o; keypair := keypair o;
     vector_clock := vector_clock o; pending_commutative := pending_commutative o;
     pending_stateful := pending_stateful o; seen_signatures := seen_signatures o; seen_nonces :=
     seen_nonces o; metabolic_engine := metabolic_engine o; synthesis_tick := synthesis_tick o;
     domain_registry := x; operator_keypair := operator_keypair o; certificates := certificates
     o; stake_table := stake_table o; certificate_tracker := certificate_tracker o; reward_pool
     := reward_pool o; evm_pool := evm_pool o; supply_tracker := supply_tracker o |}.
Definition with_operator (o : Oscillator) (x : option KeyPair) : Oscillator :=
  {| osc_id := osc_id o; wave_field := wave_field o; dag := dag o; keypair := keypair o;
     vector_clock := vector_clock o; pending_commutative := pending_commutative o;
     pending_stateful := pending_stateful o; seen_signatures := seen_signatures o; seen_nonces :=
     seen_nonces o; metabolic_engine := metabolic_engine o; synthesis_tick := synthesis_tick o;
     domain_registry := domain_registry o; operator_keypair := x; certificates := certificates o;
     stake_table := stake_table o; certificate_tracker := certificate_tracker o; reward_pool :=
     reward_pool o; evm_pool := evm_pool o; supply_tracker := supply_tracker o |}.
Definition with_certificates (o : Oscillator) (x : gmap N SynthesisCertificate) : Oscillator :=
  {| osc_id := osc_id o; wave_field := wave_field o; dag := dag o; keypair := keypair o;
     vector_clock := vector_clock o; pending_commutative := pending_commutative o;
     pending_stateful := pending_stateful o; seen_signatures := seen_signatures o; seen_nonces :=
     seen_nonces o; metabolic_engine := metabolic_engine o; synthesis_tick := synthesis_tick o;
     domain_registry := domain_registry o; operator_keypair := operator_keypair o; certificates
     := x; stake_table := stake_table o; certificate_tracker := certificate_tracker o;
     reward_pool := reward_pool o; evm_pool := evm_pool o; supply_tracker := supply_tracker o |}.
Definition with_stakes (o : Oscillator) (x : StakeTable) : Oscillator :=
  {| osc_id := osc_id o; wave_field := wave_field o; dag := dag o; keypair := keypair o;
     vector_clock := vector_clock o; pending_commutative := pending_commutative o;
     pending_stateful := pending_stateful o; seen_signatures := seen_signatures o; seen_nonces :=
     seen_nonces o; metabolic_engine := metabolic_engine o; synthesis_tick := synthesis_tick o;
     domain_registry := domain_registry o; operator_keypair := operator_keypair o; certificates
     := certificates o; stake_table := x; certificate_tracker := certificate_tracker o;
     reward_pool := reward_pool o; evm_pool := evm_pool o; supply_tracker := supply_tracker o |}.
Definition with_tracker (o : Oscillator) (x : CertificateTracker) : Oscillator :=
  {| osc_id := osc_id o; wave_field := wave_field o; dag := dag o; keypair := keypair o;
     vector_clock := vector_clock o; pending_commutative := pending_commutative o;
     pending_stateful := pending_stateful o; seen_signatures := seen_signatures o; seen_nonces :=
     seen_nonces o; metabolic_engine := metabolic_engine o; synthesis_tick := synthesis_tick o;
     domain_registry := domain_registry o; operator_keypair := operator_keypair o; certificates
     := certificates o; stake_table := stake_table o; certificate_tracker := x; reward_pool :=
     reward_pool o; evm_pool := evm_pool o; supply_tracker := supply_tracker o |}.
Definition with_rewards (o : Oscillator) (x : RewardPool) : Oscillator :=
  {| osc_id := osc_id o; wave_field := wave_field o; dag := dag o; keypair := keypair o;
     vector_clock := vector_clock o; pending_commutative := pending_commutative o;
     pending_stateful := pending_stateful o; seen_signatures := seen_signatures o; seen_nonces :=
     seen_nonces o; metabolic_engine := metabolic_engine o; synthesis_tick := synthesis_tick o;
     domain_registry := domain_registry o; operator_keypair := operator_keypair o; certificates
     := certificates o; stake_table := stake_table o; certificate_tracker := certificate_tracker
     o; reward_pool := x; evm_pool := evm_pool o; supply_tracker := supply_tracker o |}.
Definition with_evm (o : Oscillator) (x : EvmPool) : Oscillator :=
  {| osc_id := osc_id o; wave_field := wave_field o; dag := dag o; keypair := keypair o;
     vector_clock := vector_clock o; pending_commutative := pending_commutative o;
     pending_stateful := pending_stateful o; seen_signatures := seen_signatures o; seen_nonces :=
     seen_nonces o; metabolic_engine := metabolic_engine o; synthesis_tick := synthesis_tick o;
     domain_registry := domain_registry o; operator_keypair := operator_keypair o; certificates
     := certificates o; stake_table := stake_table o; certificate_tracker := certificate_tracker
     o; reward_pool := reward_pool o; evm_pool := x; supply_tracker := supply_tracker o |}.
Definition with_supply (o : Oscillator) (x : Supply.SupplyTracker) : Oscillator :=
  {| osc_id := osc_id o; wave_field := wave_field o; dag := dag o; keypair := keypair o;
     vector_clock := vector_clock o; pending_commutative := pending_commutative o;
     pending_stateful := pending_stateful o; seen_signatures := seen_signatures o; seen_nonces :=
     seen_nonces o; metabolic_engine := metabolic_engine o; synthesis_tick := synthesis_tick o;
     domain_registry := domain_registry o; operator_keypair := operator_keypair o; certificates
     := certificates o; stake_table := stake_table o; certificate_tracker := certificate_tracker
     o; reward_pool := reward_pool o; evm_pool := evm_pool o; supply_tracker := x |}.

(** [Oscillator::new_with_keypair]; [None] when the transform size is refused. *)
Definition osc_new (id : N) (ntt_size : nat) (kp : KeyPair) : option Oscillator :=
  f ← field_new ntt_size;
  Some {| osc_id := id; wave_field := f; dag := dag_new; keypair := kp;
          vector_clock := VectorClock.new; pending_commutative := []; pending_stateful := [];
          seen_signatures := ∅; seen_nonces := ∅; metabolic_engine := Metabolic.engine_new;
          synthesis_tick := 0; domain_registry := registry_new; operator_keypair := None;
          certificates := ∅; stake_table := table_new default_config;
          certificate_tracker := tracker_new; reward_pool := Rewards.pool_new;
          evm_pool := evm_pool_new; supply_tracker := Supply.new |}.

Definition osc_new_with_stake (id : N) (ntt_size : nat) (kp : KeyPair) (t : StakeTable)
    : option Oscillator :=
  o ← osc_new id ntt_size kp; Some (with_stakes (with_operator o (Some kp)) t).

Definition set_operator_keypair (o : Oscillator) (kp : KeyPair) : Oscillator := with_operator o (Some kp).

(** ** Replay protection *)

Definition check_and_record_nonce (o : Oscillator) (account domain nonce : N)
    : Oscillator * result osc_error () :=
  match seen_nonces o !! (account, domain) with
  | Some seen =>
      if nonce <=? seen then (o, Err (Replay nonce seen))
      else (with_nonces o (<[(account, domain) := nonce]> (seen_nonces o)), Ok ())
  | None => (with_nonces o (<[(account, domain) := nonce]> (seen_nonces o)), Ok ())
  end.

(** ** Certificates *)

(** The table and the supply counter the tracker's callbacks close over: slashing an
    operator burns its stake. *)
#[export] Instance osc_oracle : StakeOracle (StakeTable * Supply.SupplyTracker) := {|
  is_staked_in := λ s, is_staked s.1;
  stake_in := λ s, get_stake s.1;
  slash_in := λ s op, let '(t, (_, burned)) := slash s.1 op in (t, Supply.burn s.2 burned);
|}.

Definition osc_ingest_certificate (o : Oscillator) (cert : SynthesisCertificate)
    (key_registry : gmap N VerifyingKey) : Oscillator * result SlashingReason () :=
  let '(t, s, r) := tracker_apply (certificate_tracker o) (stake_table o, supply_tracker o)
                      key_registry cert in
  (with_supply (with_stakes (with_tracker o t) s.1) s.2, r).

Definition osc_check_quorum {HO : HashOrder} (o : Oscillator) (tick : N) : option (QuorumView * N) :=
  check_quorum (certificate_tracker o) tick (quorum_threshold (stake_table o)).

(** ** Accounts, domains and stakes *)

Definition osc_seed_account (o : Oscillator) (account amount : N) : Oscillator :=
  let '(s, ok) := Supply.mint (supply_tracker o) amount in
  if negb ok then o
  else
    let o := with_supply o s in
    let o := with_dag o (seed_balance (dag o) account amount) in
    with_field o (credit_account (wave_field o) account amount).

Definition mark_non_decaying (o : Oscillator) (account : N) : Oscillator :=
  with_field o (set_non_decaying (wave_field o) account).

Definition register_domain {HO : HashOrder} (o : Oscillator) (policy : DomainPolicy) (registrant : N)
    : Oscillator * result osc_error () :=
  let fee := domain_reservation_fee_units in
  match policy_new (policy_domain policy) (policy_commutative policy) (policy_stateful policy)
          (policy_ordering policy) (finalization_depth policy) (metabolic_lambda_ppm policy)
          (fee_policy policy) with
  | Err e => (o, Err (BadPolicy e))
  | Ok policy =>
      if registry_contains (domain_registry o) (policy_domain policy)
      then (o, Err (AlreadyRegistered (policy_domain policy)))
      else
        let have := units (account_balance (wave_field o) registrant) in
        if have <? fee then (o, Err (CannotAffordDomain fee have))
        else
          let '(f, ok) := debit_account (wave_field o) registrant fee in
          let o := with_field o f in
          if negb ok then (o, Err DebitFailed)
          else
            let o := with_rewards o (distribute_fees (reward_pool o) fee (stake_table o)) in
            (with_registry o (register (domain_registry o) policy), Ok ())
  end.

(** [apply_stake]: the nonce is recorded under the zero domain before the balance check. *)
Definition apply_stake (o : Oscillator) (s : StakeShift) : Oscillator * bool :=
  if negb (sk_verify s) then (o, false)
  else
    let op := sk_operator s in
    match check_and_record_nonce o op 0 (sk_nonce s) with
    | (o, Err _) => (o, false)
    | (o, Ok _) =>
        let previous := get_stake (stake_table o) op in
        if sk_amount s =? previous then (o, true)
        else if previous <? sk_amount s then
          let additional := sk_amount s - previous in
          if units (account_balance (wave_field o) op) <? additional then (o, false)
          else
            let '(f, ok) := debit_account (wave_field o) op additional in
            let o := with_field o f in
            if negb ok then (o, false)
            else
              let b := dag_balances (dag o) in
              let b := <[op := default 0 (b !! op) - additional]> b in
              let o := with_dag o (with_dag_balances (dag o) b) in
              (with_stakes o (lock_stake (stake_table o) op (sk_amount s)).1, true)
        else
          let refund := previous - sk_amount s in
          let o := with_field o (credit_account (wave_field o) op refund) in
          let o := with_dag o (with_dag_balances (dag o) (entry_add op refund (dag_balances (dag o)))) in
          (with_stakes o (lock_stake (stake_table o) op (sk_amount s)).1, true)
    end.

(** The amount every registration credits to each of the two derived accounts. *)
Definition REGISTRATION_CREDIT : N := 10000000000000.

Definition apply_registration (o : Oscillator) (r : RegistrationShift) : Oscillator :=
  match check_and_record_nonce o (rs_account r) 0 (rs_nonce r) with
  | (o, Err _) => o
  | (o, Ok _) =>
      let d := seed_balance (dag o) (rs_wave_account r) REGISTRATION_CREDIT in
      let d := seed_balance d (rs_usdc_account r) REGISTRATION_CREDIT in
      let o := with_dag o d in
      let f := ensure_account (wave_field o) (rs_account r) in
      let f := ensure_account f (rs_wave_account r) in
      let f := ensure_account f (rs_usdc_account r) in
      let f := set_non_decaying f (rs_usdc_account r) in
      let f := if units (account_balance f (rs_wave_account r)) =? 0
               then credit_account f (rs_wave_account r) REGISTRATION_CREDIT else f in
      let f := if units (account_balance f (rs_usdc_account r)) =? 0
               then credit_account f (rs_usdc_account r) REGISTRATION_CREDIT else f in
      with_field o f
  end.

(** ** Fees *)

(** Fee and net amount; the [Percentage] subtraction wraps in a release build. *)
Definition compute_signal_fee (reg : DomainRegistry) (s : StatefulShift) : result osc_error (N * N) :=
  match registry_get reg (ss_domain s) with
  | None => Err (UnknownDomain (ss_domain s))
  | Some policy =>
      match fee_policy policy with
      | Flat fee => if ss_amount s <? fee then Err FlatFeeNotCovered else Ok (fee, ss_amount s - fee)
      | Percentage bp =>
          let fee := sat_mul 128 (ss_amount s) bp / 10000 in
          Ok (fee, wsub 128 (ss_amount s) fee)
      | MetabolicOnly => Ok (0, ss_amount s)
      end
  end.

(** ** Ingestion *)

Definition ingest_commutative (o : Oscillator) (s : CommutativeShift) : Oscillator * result osc_error () :=
  match registry_get (domain_registry o) (cs_domain s) with
  | None => (o, Err (UnknownDomain (cs_domain s)))
  | Some policy =>
      if negb (policy_commutative policy) then (o, Err (CommutativeNotAllowed (cs_domain s)))
      else if bool_decide (cs_signature s ∈ seen_signatures o) then (o, Ok ())
      else
        let o := with_signatures o ({[ cs_signature s ]} ∪ seen_signatures o) in
        (with_commutative o (pending_commutative o
           ++ [(cs_domain s, cs_coordinate s, cs_delta s, cs_pool_id s)]), Ok ())
  end.

(** The arrival time is filled in when it is absent. *)
Definition arrived (s : StatefulShift) (now_ns : N) : StatefulShift :=
  {| ss_domain := ss_domain s; ss_from := ss_from s; ss_to := ss_to s; ss_amount := ss_amount s;
     ss_vector_clock := ss_vector_clock s; ss_predecessors := ss_predecessors s;
     ss_nonce := ss_nonce s; ss_timestamp_ns := ss_timestamp_ns s;
     ss_first_seen_at_ns := if ss_first_seen_at_ns s =? 0 then now_ns else ss_first_seen_at_ns s;
     ss_signature := ss_signature s |}.

Definition is_commutative_order (m : OrderingMode) : bool := match m with Commutative => true | _ => false end.

Definition ingest_stateful (o : Oscillator) (s : StatefulShift) (now_ns : N)
    : Oscillator * result osc_error () :=
  match registry_get (domain_registry o) (ss_domain s) with
  | None => (o, Err (UnknownDomain (ss_domain s)))
  | Some policy =>
      if negb (policy_stateful policy) then (o, Err (StatefulNotAllowed (ss_domain s)))
      else if is_commutative_order (policy_ordering policy) && negb (bool_decide (ss_predecessors s = []))
      then (o, Err PredecessorsNotAllowed)
      else
        match check_and_record_nonce o (ss_from s) (ss_domain s) (ss_nonce s) with
        | (o, Err e) => (o, Err e)
        | (o, Ok _) =>
            if bool_decide (ss_signature s ∈ seen_signatures o) then (o, Ok ())
            else if ss_amount s =? 0 then (o, Err ZeroAmount)
            else
              let s := arrived s now_ns in
              let o := with_signatures o ({[ ss_signature s ]} ∪ seen_signatures o) in
              (with_stateful o (pending_stateful o ++ [s]), Ok ())
        end
  end.

Definition ingest (o : Oscillator) (s : Signal) (now_ns : N) : Oscillator * result osc_error () :=
  match s with
  | SigCommutative c => ingest_commutative o c
  | SigStateful s => ingest_stateful o s now_ns
  | SigStake _ => (o, Err StakeMisrouted)
  | SigRegistration _ | SigPing _ _ | SigPong _ _ | SigCertificate _ | SigAuth _ => (o, Ok ())
  end.

Definition tick_vector_clock (o : Oscillator) : Oscillator :=
  with_clock o (VectorClock.tick (vector_clock o) (osc_id o)).1.
Definition current_vector_clock (o : Oscillator) : VectorClock.t := vector_clock o.
Definition stateful_count (o : Oscillator) : nat := size (nodes (dag o)).
End oscillator.

(** ** Accounts *)

Lemma account_balance_default f id : account_balance f id = acc_balance (account_or_default f id).
Proof. unfold account_balance, account_or_default. by destruct (accounts f !! id). Qed.

Lemma update_balance_eq f id g : account_balance (update_balance f id g) id = g (account_balance f id).
Proof.
  rewrite (account_balance_default f). unfold account_balance, update_balance. cbn [accounts with_accounts].
  by rewrite lookup_insert_eq.
Qed.

Lemma update_balance_ne f id g k : k ≠ id → account_balance (update_balance f id g) k = account_balance f k.
Proof.
  intros Hk. unfold account_balance, update_balance. cbn [accounts with_accounts].
  by rewrite lookup_insert_ne.
Qed.

(** A covered debit takes exactly the amount. *)
Lemma debit_covered f id a : a ≤ units (account_balance f id) →
  debit_account f id a = (update_balance f id (λ b, balance_sub b a), true).
Proof.
  intros Ha. unfold debit_account. rewrite <- account_balance_default.
  destruct (N.ltb_spec (units (account_balance f id)) a); [lia|done].
Qed.

Section theorems.
Context {C : Crypto} {V : Revm} {HO : HashOrder}.

(** Registering a domain is atomic. It succeeds exactly when the decay rate is below
    the denominator, the finalization depth positive, the domain new and the registrant
    able to pay; then the registrant loses the reservation fee, the fee is distributed
    to operators and liquidity providers, the domain is known under the given policy, and
    no other account, domain or stake moves. Every failure leaves the node as it was. *)
Theorem register_domain_spec o p who :
  let '(o', r) := register_domain o p who in
  let bal x := units (account_balance (wave_field x) who) in
  let fee := domain_reservation_fee_units in
  (is_ok r = true ↔ metabolic_lambda_ppm p < DECAY_DENOMINATOR ∧ finalization_depth p ≠ 0
                    ∧ domain_registry o !! policy_domain p = None ∧ fee ≤ bal o)
  ∧ (is_ok r = false → o' = o)
  ∧ (is_ok r = true →
       bal o' + fee = bal o
       ∧ (∀ a, a ≠ who → account_balance (wave_field o') a = account_balance (wave_field o) a)
       ∧ reward_pool o' = distribute (reward_pool o) fee (stake_table o)
       ∧ domain_registry o' = <[policy_domain p := p]> (domain_registry o)
       ∧ dag o' = dag o ∧ stake_table o' = stake_table o ∧ supply_tracker o' = supply_tracker o).
Proof.
  unfold register_domain. set (fee := domain_reservation_fee_units).
  pose proof (policy_new_spec (policy_domain p) (policy_commutative p) (policy_stateful p)
    (policy_ordering p) (finalization_depth p) (metabolic_lambda_ppm p) (fee_policy p)) as Hp.
  assert (Hsame : ∀ q, policy_new (policy_domain p) (policy_commutative p) (policy_stateful p)
    (policy_ordering p) (finalization_depth p) (metabolic_lambda_ppm p) (fee_policy p) = Ok q → q = p).
  { unfold policy_new. intros q. destruct (_ <=? _); [done|]. destruct (_ =? 0); [done|].
    intros [= <-]. by destruct p. }
  destruct (policy_new _ _ _ _ _ _ _) as [q|e]; cbn in Hp; [|naive_solver].
  rewrite (Hsame q eq_refl) in *. unfold registry_contains. case_bool_decide as Hreg.
  { split_and!; cbn; [|done|done]. destruct Hreg as [? ?]. naive_solver. }
  apply eq_None_not_Some in Hreg. destruct (N.ltb_spec (units (account_balance (wave_field o) who)) fee).
  { split_and!; cbn; [|done|done]. split; [done|]. intros (_ & _ & _ & ?). lia. }
  rewrite debit_covered by done. cbn [negb]. split_and!; cbn; [naive_solver|done|]. intros _.
  unfold distribute_fees. split_and!; try done.
  - rewrite update_balance_eq. cbn. lia.
  - intros a Ha. by rewrite update_balance_ne.
Qed.

(** The nonce check either records the nonce or refuses it and changes nothing. *)
Lemma nonce_cases o a d n :
  (check_and_record_nonce o a d n = (with_nonces o (<[(a, d) := n]> (seen_nonces o)), Ok ())
   ∧ ∀ m, seen_nonces o !! (a, d) = Some m → m < n)
  ∨ ∃ m, seen_nonces o !! (a, d) = Some m ∧ n ≤ m
         ∧ check_and_record_nonce o a d n = (o, Err (Replay n m)).
Proof.
  unfold check_and_record_nonce. destruct (seen_nonces o !! (a, d)) as [m|]; [|left; by split].
  destruct (N.leb_spec n m); [right; by exists m|left]. split; [done|]. by intros ? [= <-].
Qed.

(** A nonce that was recorded is refused from then on. *)
Lemma nonce_refused o a d n m : seen_nonces o !! (a, d) = Some m → n ≤ m →
  check_and_record_nonce o a d n = (o, Err (Replay n m)).
Proof. intros H Hn. unfold check_and_record_nonce. rewrite H. by rewrite (proj2 (N.leb_le _ _) Hn). Qed.

Lemma lock_stake_get t op a op' :
  get_stake (lock_stake t op a).1 op' = if op =? op' then a else get_stake t op'.
Proof.
  unfold get_stake, lock_stake. cbn. destruct (N.eqb_spec op op') as [->|]; [by rewrite lookup_insert_eq|].
  by rewrite lookup_insert_ne.
Qed.

(** A stake event whose nonce was recorded is refused without effect. *)
Lemma stake_refused o s m : sk_verify s = true → seen_nonces o !! (sk_operator s, 0) = Some m →
  sk_nonce s ≤ m → apply_stake o s = (o, false).
Proof.
  intros Hv Hm Hn. unfold apply_stake. rewrite Hv. cbn [negb]. cbv zeta.
  by rewrite (nonce_refused _ _ _ _ _ Hm Hn).
Qed.

End theorems.

(** ** A concrete node *)

Section sample.
Local Existing Instance lawful_crypto.
Local Existing Instance transfer_vm.

Definition alice : KeyPair := from_seed 1.
Definition bob : KeyPair := from_seed 2.

Definition sample_osc : option Oscillator :=
  o ← osc_new 1 4 (from_seed 9);
  Some (osc_seed_account (osc_seed_account o (account_id alice) 1000) (account_id bob) 500).

Definition sample_stake : StakeShift := sk_sign alice 400 1 7.

Definition stake_in_range (o : Oscillator) : bool :=
  bool_decide (units (account_balance (wave_field o) (sk_operator sample_stake))
               + get_stake (stake_table o) (sk_operator sample_stake) < 2 ^ 128).


Example sample_stake_effect :
  (λ o, let '(o, ok) := apply_stake o sample_stake in
        (ok, units (account_balance (wave_field o) (account_id alice)),
         get_stake (stake_table o) (account_id alice))) <$> sample_osc
  = Some (true, 600, 400).
Proof. vm_compute. reflexivity. Qed.
End sample.
