(* ===== verification/Synthesis.v ===== *)
(** * The synthesis cycle (src/src/consensus/oscillator.rs 454-837)

    [Oscillator::synthesize], one definition per numbered step of the source: metabolic
    decay and its split, DAG insertion with double-spend marking and finalization,
    commutative batches per domain, settlement of stateful shifts in topological order,
    the EVM pool, fee accounting, write-back, the operator's certificate.  The metrics are in Live.
    The readings of the clock and all hash-table orders are parameters. *)
From S2P Require Import Prelude F64 Bytes Value Crypto Signals Merkle Stake Rewards Certificate.
From S2P Require Import Metabolic ModArith Ntt WaveField Domain Dag DagOrder Evm Oscillator.
Local Open Scope N_scope.

Record SynthesisResult := {
  commutative_applied : nat;
  stateful_applied : nat;
  evm_applied : nat;
  stateful_rejected : list DagError;
  final_balances : gmap N N;
  metabolic_burned : N;
  avg_latency_ms : f64;
  throughput_per_sec : f64;
  elapsed_ms : f64;
}.

(** What a cycle reads of the clocks: the time when it starts, at which shifts are
    finalized; the time of the certificate; and how long it took, in nanoseconds. *)
Record CycleClock := { finalized_at : N; certified_at : N; elapsed_ns : N }.

(** A clock that stands still. *)
Definition still (now : N) : CycleClock := {| finalized_at := now; certified_at := now; elapsed_ns := 0 |}.
Coercion still : N >-> CycleClock.

Section synthesis.
Context {C : Crypto} {E : Ethers} {V : Revm} {HO : HashOrder}.

(** ** 0. Decay *)

Definition immune_accounts (o : Oscillator) : gset N :=
  list_to_set (map fst (staked_operators (stake_table o))).

Definition dex_lambda (o : Oscillator) : N :=
  match registry_get (domain_registry o) DEFAULT_DEX_DOMAIN with
  | Some p => metabolic_lambda_ppm p
  | None => DEFAULT_DEX_LAMBDA_PPM
  end.

Definition burn_share_of (decayed : N) : N :=
  sat_mul 128 decayed METABOLIC_BURN_BP / BASIS_POINTS_DENOMINATOR.

Definition decay_stage (o : Oscillator) (tick : N) : Oscillator * N :=
  let '(f, decayed) := apply_metabolic_decay (wave_field o) tick (dex_lambda o) (immune_accounts o) in
  let o := with_field o f in
  let o := with_engine o (record_burn (metabolic_engine o) decayed) in
  let burn_share := burn_share_of decayed in
  let reward_share := decayed - burn_share in
  let o := if 0 <? burn_share then with_supply o (Supply.burn (supply_tracker o) burn_share) else o in
  let o := if 0 <? reward_share
           then with_rewards o (distribute (reward_pool o) reward_share (stake_table o)) else o in
  (o, decayed).

(** 0b. [dag.balances.insert(id, units)] for every account of the field. *)
Definition sync_dag (o : Oscillator) : Oscillator :=
  let b := fold_left (λ b ka, <[ka.1 := units (acc_balance ka.2)]> b)
             (hm_iter (accounts (wave_field o))) (dag_balances (dag o)) in
  with_dag o (with_dag_balances (dag o) b).

(** ** 1. Insertion *)

Definition depth_of (reg : DomainRegistry) (domain : N) : N :=
  match registry_get reg domain with Some p => finalization_depth p | None => FINALIZATION_DEPTH end.

Definition insert_pending (reg : DomainRegistry) (keys : gmap N VerifyingKey) (tick : N)
    (acc : VectorClockDag * list DagError) (s : StatefulShift) : option (VectorClockDag * list DagError) :=
  let '(d, rejects) := acc in
  match keys !! ss_from s with
  | None => Some (d, rejects ++ [Dag.InvalidSignature (ss_hash s)])
  | Some pk =>
      dr ← dag_insert d s pk tick (depth_of reg (ss_domain s));
      Some (dr.1, match dr.2 with Ok _ => rejects | Err e => rejects ++ [e] end)
  end.

(** Mark one detected double spend. *)
Definition mark_double_spend (d : VectorClockDag) (e : DagError) : VectorClockDag :=
  match e with
  | DoubleSpend h => set_status d h (Rejected (DoubleSpend h))
  | _ => d
  end.

(** The rejections, and the count and total latency of the shifts finalized. *)
Definition insert_stage (o : Oscillator) (keys : gmap N VerifyingKey) (tick finalized_at : N)
    : option (Oscillator * (list DagError * (nat * f64))) :=
  acc ← fold_opt (insert_pending (domain_registry o) keys tick) (pending_stateful o) (dag o, []);
  let '(d, rejects) := acc in
  double_spends ← detect_double_spends d;
  let d := fold_left mark_double_spend double_spends d in
  let '(d, promoted) := promote_to_finalized d tick finalized_at in
  Some (with_dag (with_stateful o []) d, (rejects ++ double_spends, promoted)).

(** ** 2. Commutative batches *)

Definition route_delta (reg : DomainRegistry) (m : gmap N (list Delta)) (e : N * Coordinate * Z * N)
    : gmap N (list Delta) :=
  let '(domain, coord, delta, pool) := e in
  match registry_get reg domain with
  | Some p => if policy_commutative p
              then <[domain := default [] (m !! domain) ++ [(coord, delta, pool)]]> m else m
  | None => m
  end.

(** What the loop over domains carries: field, re-queued deltas, root, deltas applied. *)
Definition batch_stage (tick : N) (acc : WaveField * list (N * Coordinate * Z * N) * N * nat)
    (dd : N * list Delta) : option (WaveField * list (N * Coordinate * Z * N) * N * nat) :=
  let '(f, requeued, root, total) := acc in
  let '(domain, deltas) := dd in
  if bool_decide (deltas = []) then Some acc
  else
    fr ← synthesize_commutative_batch f deltas;
    match fr with
    | (f, Err _) =>
        Some (f, requeued ++ map (λ d : Delta, (domain, d.1.1, d.1.2, d.2)) deltas, 0, total)
    | (f, Ok _) => Some (f, requeued, commutative_root tick deltas, (total + length deltas)%nat)
    end.

Definition commutative_stage (o : Oscillator) (tick : N) : option (Oscillator * N * nat) :=
  if bool_decide (pending_commutative o = []) then Some (o, 0, 0%nat)
  else
    let by_domain := fold_left (route_delta (domain_registry o)) (pending_commutative o) ∅ in
    acc ← fold_opt (batch_stage tick) (hm_iter by_domain) (wave_field o, [], 0, 0%nat);
    let '(f, requeued, root, total) := acc in
    Some (with_field (with_commutative o requeued) f, root, total).

(** ** 3. Settlement *)

Record Settlement := {
  simulated : gmap N N;
  settled : list N;
  active : gset N;
  total_fees : N;
  rejects : list DagError;
}.

Definition refuse (s : Settlement) (e : DagError) : Settlement :=
  {| simulated := simulated s; settled := settled s; active := active s;
     total_fees := total_fees s; rejects := rejects s ++ [e] |}.

Definition is_rejected (st : ShiftStatus) : bool := match st with Rejected _ => true | _ => false end.

(** The transfer of one shift; [None] is the [unwrap] on the sender's entry. *)
Definition transfer (s : Settlement) (h : N) (shift : StatefulShift) (fee net : N) : option Settlement :=
  b ← simulated s !! ss_from shift;
  let sim := <[ss_from shift := wsub 128 b (ss_amount shift)]> (simulated s) in
  let sim := entry_add (ss_to shift) net sim in
  Some {| simulated := sim; settled := settled s ++ [h];
          active := if ss_from shift =? ss_to shift then active s
                    else {[ ss_to shift ]} ∪ ({[ ss_from shift ]} ∪ active s);
          total_fees := sat_add 128 (total_fees s) fee; rejects := rejects s |}.

(** One shift of the settlement loop. *)
Definition settle_shift (o : Oscillator) (keys : gmap N VerifyingKey) (s : Settlement) (h : N)
    : option Settlement :=
  node ← nodes (dag o) !! h;
  if is_rejected (status node) || applied node then Some s
  else
    let shift := node_shift node in
    match keys !! ss_from shift with
    | None => Some (refuse s (Dag.InvalidSignature h))
    | Some pk =>
        if negb (ss_verify_signature shift pk) then Some (refuse s (Dag.InvalidSignature h))
        else
          match registry_get (domain_registry o) (ss_domain shift) with
          | None => Some s
          | Some policy =>
              if match policy_ordering policy with Strict => true | _ => false end
                 && negb (bool_decide (is_Some (osc_check_quorum o (inserted_at_tick node))))
              then Some s
              else
                match compute_signal_fee (domain_registry o) shift with
                | Err _ => Some (refuse s (InsufficientBalance h))
                | Ok (fee, net) =>
                    if default 0 (simulated s !! ss_from shift) <? ss_amount shift
                    then Some (refuse s (InsufficientBalance h))
                    else transfer s h shift fee net
                end
          end
    end.

Definition settle (o : Oscillator) (keys : gmap N VerifyingKey) (order : list N) : option Settlement :=
  fold_opt (settle_shift o keys) order
    {| simulated := dag_balances (dag o); settled := []; active := ∅; total_fees := 0; rejects := [] |}.

(** ** Fees and write-back *)

Definition add_debt (o : Oscillator) (m : gmap N N) (h : N) : gmap N N :=
  match nodes (dag o) !! h with
  | None => m
  | Some node =>
      let fee := match compute_signal_fee (domain_registry o) (node_shift node) with
                 | Ok (fee, _) => fee
                 | Err _ => 0
                 end in
      entry_add (ss_from (node_shift node)) fee m
  end.

Definition fee_stage (o : Oscillator) (s : Settlement) : Oscillator :=
  if total_fees s =? 0 then o
  else
    let debt := fold_left (add_debt o) (settled s) ∅ in
    let f := fold_left (λ f af, (debit_account f af.1 (N.min af.2 (units (account_balance f af.1)))).1)
               (hm_iter debt) (wave_field o) in
    let o := with_field o f in
    with_rewards o (distribute_fees (reward_pool o) (total_fees s) (stake_table o)).

Definition commit_dag (o : Oscillator) (settled : list N) (balances : gmap N N) : Oscillator :=
  with_dag o (with_dag_balances (fold_left mark_applied settled (dag o)) balances).

(** One account of the write-back loop. *)
Definition write_back (tick : N) (active : gset N) (f : WaveField) (ab : N * N) : WaveField :=
  update_balance f ab.1 (λ b,
    {| units := ab.2; last_decay_tick := last_decay_tick b; bal_domain := bal_domain b;
       bal_rate_ppm := bal_rate_ppm b; decays := decays b;
       last_active_tick := if bool_decide (ab.1 ∈ active) then tick else last_active_tick b |}).

Definition sync_field (o : Oscillator) (tick : N) (active : gset N) (balances : gmap N N) : Oscillator :=
  with_field o (fold_left (write_back tick active) (hm_iter balances) (wave_field o)).

(** ** 4. Certificate *)

Definition certify (o : Oscillator) (keys : gmap N VerifyingKey) (tick : N) (r : SynthesisResult)
    (comm_root : N) (settled evm_hashes : list N) (timestamp_ns : N) : option Oscillator :=
  match operator_keypair o with
  | None => Some o
  | Some kp =>
      if negb (is_staked (stake_table o) (account_id kp)) then Some o
      else
        stake_root ← table_root (stake_table o);
        reward_root ← pool_root (reward_pool o);
        let cert := sc_sign kp tick (commutative_applied r) (stateful_applied r) (evm_applied r)
                      comm_root (stateful_root tick settled) (balances_root (final_balances r))
                      stake_root reward_root (evm_root tick evm_hashes) (metabolic_burned r)
                      timestamp_ns in
        let o := (osc_ingest_certificate o cert keys).1 in
        Some (with_certificates o (<[tick := cert]> (certificates o)))
  end.

(** ** The whole cycle *)

(** What happens before settlement: the tick is taken, balances decay and are copied to
    the DAG, pending shifts enter it, commutative batches run. *)
Record Prepared := {
  pr_osc : Oscillator;
  pr_decayed : N;
  pr_rejects : list DagError;
  pr_finalized : nat * f64;
  pr_comm_root : N;
  pr_total : nat;
}.

Definition prepare_cycle (o : Oscillator) (keys : gmap N VerifyingKey) (finalized_at : N) : option Prepared :=
  let tick := synthesis_tick o in
  let o := with_tick o (wadd 64 tick 1) in
  let '(o, decayed) := decay_stage o tick in
  let o := sync_dag o in
  or ← insert_stage o keys tick finalized_at;
  oc ← commutative_stage or.1 tick;
  let '(o, comm_root, total) := oc in
  Some {| pr_osc := o; pr_decayed := decayed; pr_rejects := or.2.1;
          pr_finalized := or.2.2; pr_comm_root := comm_root;
          pr_total := total |}.

(** The metrics at the end of the cycle: shifts finalized before and transactions of the EVM
    applied, with their latencies. *)
Definition measured (r : SynthesisResult) (finalized evm : nat * f64) (elapsed_ns : N) : SynthesisResult :=
  let elapsed := f64_div (f64_of_N elapsed_ns) (f64_of_N 1000000) in
  let total := (commutative_applied r + stateful_applied r + evm_applied r)%nat in
  let count := (finalized.1 + evm.1)%nat in
  let latency := f64_add (f64_add f64_zero finalized.2) evm.2 in
  {| commutative_applied := commutative_applied r; stateful_applied := stateful_applied r;
     evm_applied := evm_applied r; stateful_rejected := stateful_rejected r;
     final_balances := final_balances r; metabolic_burned := metabolic_burned r;
     avg_latency_ms := if (0 <? count)%nat then f64_div latency (f64_of_N (N.of_nat count)) else avg_latency_ms r;
     throughput_per_sec := if f64_lt f64_zero elapsed
                           then f64_div (f64_of_N (N.of_nat total)) (f64_div elapsed (f64_of_N 1000))
                           else throughput_per_sec r;
     elapsed_ms := elapsed |}.

(** The early [return result] of an operator that is not staked skips the metrics. *)
Definition returns_early (o : Oscillator) : bool :=
  match operator_keypair o with
  | Some kp => negb (is_staked (stake_table o) (account_id kp))
  | None => false
  end.

(** Settlement, EVM, fees, write-back, certificate and metrics, along the given order. *)
Definition finish_cycle (p : Prepared) (keys : gmap N VerifyingKey) (tick : N) (ck : CycleClock)
    (order : list N) : option (Oscillator * SynthesisResult * list N) :=
  let o := pr_osc p in
  s ← settle o keys order;
  pb ← pool_synthesize (evm_pool o) (simulated s) (finalized_at ck) tick;
  let '(pool, balances, evm, evm_hashes) := pb in
  let o := with_evm o pool in
  let o := fee_stage o s in
  let o := commit_dag o (settled s) balances in
  let o := sync_field o tick (active s) balances in
  let r := {| commutative_applied := pr_total p; stateful_applied := length (settled s);
              evm_applied := evm.1; stateful_rejected := pr_rejects p ++ rejects s;
              final_balances := balances; metabolic_burned := pr_decayed p;
              avg_latency_ms := f64_zero; throughput_per_sec := f64_zero; elapsed_ms := f64_zero |} in
  o' ← certify o keys tick r (pr_comm_root p) (settled s) evm_hashes (certified_at ck);
  let r := if returns_early o then r else measured r (pr_finalized p) evm (elapsed_ns ck) in
  Some (o', r, settled s).

(** The result of a cycle whose DAG cannot be ordered. *)
Definition unordered (p : Prepared) (e : DagError) : SynthesisResult :=
  {| commutative_applied := pr_total p; stateful_applied := 0; evm_applied := 0;
     stateful_rejected := pr_rejects p ++ [e]; final_balances := ∅; metabolic_burned := pr_decayed p;
     avg_latency_ms := f64_zero; throughput_per_sec := f64_zero; elapsed_ms := f64_zero |}.

(** The cycle, with the hashes of the shifts it settled; [None] is a panic. *)
Definition synthesize_trace (o : Oscillator) (keys : gmap N VerifyingKey) (ck : CycleClock)
    : option (Oscillator * SynthesisResult * list N) :=
  p ← prepare_cycle o keys (finalized_at ck);
  order ← topological_order (dag (pr_osc p));
  match order with
  | Err e =>
      Some (pr_osc p, unordered p e, [])
  | Ok order => finish_cycle p keys (synthesis_tick o) ck order
  end.

Definition synthesize (o : Oscillator) (keys : gmap N VerifyingKey) (ck : CycleClock)
    : option (Oscillator * SynthesisResult) :=
  ors ← synthesize_trace o keys ck; Some ors.1.
End synthesis.
