(* ===== verification/Settlement.v ===== *)
(** * Correctness of the synthesis cycle (src/src/consensus/oscillator.rs)

    The node as a state machine: every operation of the oscillator as a step, with the
    stateful shifts it accepted and the transfers it settled as history.  Proved of every
    reachable node: accepted nonces strictly increase per sender and domain; a transfer is
    settled at most once and only if it was accepted and is signed; settlement conserves
    value, fees included; the two ledgers agree after a cycle; a cycle never panics, the
    conversion of EVM balances apart. *)
From S2P Require Import Prelude Bytes Value Crypto Signals Merkle Stake Rewards Certificate.
From S2P Require Import Metabolic ModArith Ntt WaveField Domain Dag DagOrder Evm Oscillator Synthesis.
Local Open Scope N_scope.

(** ** The settlement loop *)

Section settlement.
Context {C : Crypto} {E : Ethers} {V : Revm} {HO : HashOrder}.
Context (o : Oscillator) (keys : gmap N VerifyingKey).

(** Percentage fees of the registry are at most the amount. *)
Definition fees_ok (reg : DomainRegistry) : Prop :=
  ∀ d p bp, reg !! d = Some p → fee_policy p = Percentage bp → bp ≤ 10000.

(** Fee and net amount split the amount of the shift. *)
Lemma fee_split reg s fee net : fees_ok reg → ss_amount s < 2 ^ 128 →
  compute_signal_fee reg s = Ok (fee, net) → fee + net = ss_amount s.
Proof.
  intros Hok Ha. unfold compute_signal_fee, registry_get.
  destruct (reg !! ss_domain s) as [p|] eqn:Hp; [|done].
  destruct (fee_policy p) as [flat|bp|] eqn:Hf.
  - destruct (N.ltb_spec (ss_amount s) flat); [done|]. intros [= <- <-]. lia.
  - intros [= <- <-]. pose proof (Hok _ _ _ Hp Hf) as Hbp.
    set (q := sat_mul 128 (ss_amount s) bp / 10000).
    assert (q ≤ ss_amount s).
    { unfold q. apply N.Div0.div_le_upper_bound. pose proof (sat_mul_le 128 (ss_amount s) bp). nia. }
    rewrite wsub_small by lia. lia.
  - intros [= <- <-]. lia.
Qed.

(** What it takes for a node to be settled. *)
Definition settleable (h : N) : Prop :=
  ∃ n pk, nodes (dag o) !! h = Some n ∧ applied n = false ∧ is_rejected (status n) = false
    ∧ keys !! ss_from (node_shift n) = Some pk ∧ ss_verify_signature (node_shift n) pk = true.

(** One turn of the loop: skipped, refused, or a transfer of a settleable shift. *)
Inductive settle_turn (s : Settlement) (h : N) : Settlement → Prop :=
  | st_skip : settle_turn s h s
  | st_refuse e : settle_turn s h (refuse s e)
  | st_transfer n fee net s' : nodes (dag o) !! h = Some n → settleable h →
      compute_signal_fee (domain_registry o) (node_shift n) = Ok (fee, net) →
      ss_amount (node_shift n) ≤ default 0 (simulated s !! ss_from (node_shift n)) →
      transfer s h (node_shift n) fee net = Some s' → settle_turn s h s'.

Lemma settle_shift_turn s h : is_Some (nodes (dag o) !! h) →
  (∀ n, nodes (dag o) !! h = Some n → ss_amount (node_shift n) ≠ 0) →
  ∃ s', settle_shift o keys s h = Some s' ∧ settle_turn s h s'.
Proof.
  intros [n Hn] Ha. specialize (Ha n Hn). unfold settle_shift. rewrite Hn. cbn [mbind option_bind].
  destruct (is_rejected (status n)) eqn:Hr; [eexists; split; [done|constructor]|].
  destruct (applied n) eqn:Hap; [eexists; split; [done|constructor]|]. cbn [orb].
  destruct (keys !! ss_from (node_shift n)) as [pk|] eqn:Hk; [|eexists; split; [done|constructor]].
  destruct (ss_verify_signature (node_shift n) pk) eqn:Hv; cbn [negb];
    [|eexists; split; [done|constructor]].
  destruct (registry_get _ _) as [p|]; [|eexists; split; [done|constructor]].
  destruct (_ && _); [eexists; split; [done|constructor]|].
  destruct (compute_signal_fee _ _) as [[fee net]|] eqn:Hf; [|eexists; split; [done|constructor]].
  destruct (N.ltb_spec (default 0 (simulated s !! ss_from (node_shift n))) (ss_amount (node_shift n)));
    [eexists; split; [done|constructor]|].
  destruct (simulated s !! ss_from (node_shift n)) as [b|] eqn:Hb; cbn in H; [|lia].
  assert (Hset : settleable h) by (exists n, pk; by rewrite Hap, Hr).
  eexists. split; [unfold transfer; rewrite Hb; cbn; reflexivity|].
  eapply st_transfer; [done|done|done| |]; [by rewrite Hb|]. unfold transfer. by rewrite Hb.
Qed.

(** The books of the loop: balances and fees, and which shifts were settled. *)
Record settle_inv (order : list N) (s : Settlement) : Prop := {
  sv_total : fees_ok (domain_registry o) → msum (dag_balances (dag o)) < 2 ^ 128 →
    msum (simulated s) + total_fees s = msum (dag_balances (dag o));
  sv_settled : ∀ h, h ∈ settled s → h ∈ order ∧ settleable h;
  sv_nodup : NoDup (settled s);
  sv_keys : ∀ a, is_Some (dag_balances (dag o) !! a) → is_Some (simulated s !! a);
}.

Lemma transfer_total s h shift fee net s' :
  transfer s h shift fee net = Some s' → fee + net = ss_amount shift →
  ss_amount shift ≤ default 0 (simulated s !! ss_from shift) →
  msum (simulated s) + total_fees s < 2 ^ 128 →
  msum (simulated s') + total_fees s' = msum (simulated s) + total_fees s.
Proof.
  unfold transfer. intros Ht Hs Ha Hlt. destruct (simulated s !! ss_from shift) as [b|] eqn:Hb; [|done].
  cbn in Ht, Ha. injection Ht as <-. cbn [simulated total_fees].
  pose proof (msum_lookup_le (simulated s) (ss_from shift)) as Hle. rewrite Hb in Hle. cbn in Hle.
  rewrite wsub_small by lia.
  pose proof (msum_insert (simulated s) (ss_from shift) (b - ss_amount shift)) as Em.
  rewrite Hb in Em. cbn in Em. rewrite msum_entry_add by lia. rewrite sat_add_exact by lia. lia.
Qed.

Lemma transfer_keys s h shift fee net s' : transfer s h shift fee net = Some s' →
  settled s' = settled s ++ [h] ∧ ∀ a, is_Some (simulated s !! a) → is_Some (simulated s' !! a).
Proof.
  unfold transfer. destruct (simulated s !! ss_from shift) as [b|]; [|done]. cbn. intros [= <-].
  split; [done|]. intros a Ha. cbn. unfold entry_add. rewrite !lookup_insert_is_Some.
  destruct (decide (ss_to shift = a)), (decide (ss_from shift = a)); auto.
Qed.

Lemma settle_turn_inv order s h s' : h ∉ order →
  settle_inv order s → settle_turn s h s' → settle_inv (order ++ [h]) s'.
Proof.
  intros Hh [H1 H2 H3 H4] Hs. assert (H2' : ∀ g, g ∈ settled s → g ∈ order ++ [h] ∧ settleable g).
  { intros g Hg. destruct (H2 g Hg). split; [|done]. apply elem_of_app. by left. }
  destruct Hs as [|e|n fee net s' Hn Hset Hf Ha Ht]; [by split|by split|].
  destruct (transfer_keys _ _ _ _ _ _ Ht) as [Es Hk]. split.
  - intros Hok Hlt. rewrite <- (H1 Hok Hlt). rewrite <- (H1 Hok Hlt) in Hlt.
    apply (transfer_total s h (node_shift n) fee net s'); [done| |done|done].
    apply (fee_split (domain_registry o)); [done| |done].
    pose proof (msum_lookup_le (simulated s) (ss_from (node_shift n))). lia.
  - intros g. rewrite Es. intros [Hg| ->%list_elem_of_singleton]%elem_of_app; [by apply H2'|].
    split; [|done]. apply elem_of_app. right. by left.
  - rewrite Es. apply NoDup_app. split; [done|]. split; [|apply NoDup_singleton].
    intros g Hg ->%list_elem_of_singleton. by apply Hh, H2.
  - intros a Hka. by apply Hk, H4.
Qed.

Lemma settle_spec order : NoDup order → (∀ h, h ∈ order → is_Some (nodes (dag o) !! h)) →
  (∀ h n, nodes (dag o) !! h = Some n → ss_amount (node_shift n) ≠ 0) →
  ∃ s, settle o keys order = Some s ∧ settle_inv order s.
Proof.
  intros Hnd Hin Ha. unfold settle. set (s0 := {| simulated := _ |}).
  assert (H0 : settle_inv [] s0).
  { split; unfold s0; cbn [simulated total_fees settled]; [intros; lia| |constructor|done].
    by intros h ?%elem_of_nil. }
  clearbody s0. change order with ([] ++ order) in Hnd.
  change (settle_inv order) with (settle_inv ([] ++ order)).
  revert s0 H0 Hnd Hin. generalize (@nil N) as pre.
  induction order as [|h order IH]; intros pre s0 H0 Hnd Hin; cbn [fold_opt].
  { exists s0. split; [done|]. by rewrite app_nil_r. }
  destruct (settle_shift_turn s0 h) as (s1 & E1 & Ht); [apply Hin; by left|intros n; apply Ha|].
  rewrite E1. cbn [mbind option_bind].
  assert (Hh : h ∉ pre) by (intros Hp; apply NoDup_app in Hnd as (_ & Hd & _); by apply (Hd h Hp); left).
  replace (pre ++ h :: order) with ((pre ++ [h]) ++ order) in * by by rewrite <- app_assoc.
  apply IH; [by eapply settle_turn_inv|done|]. intros g Hg. apply Hin. by right.
Qed.
End settlement.

(** ** What the stages do to the DAG *)

(** [d'] extends [d]: still a DAG the node can build, its new nodes satisfy [P], no node is
    lost and none becomes unapplied. *)
Record dag_ext {C : Crypto} (P : N → StatefulShift → Prop) (d d' : VectorClockDag) : Prop := {
  dx_reachable : dag_reachable d → dag_reachable d';
  dx_back : dag_reachable d → ∀ h n', nodes d' !! h = Some n' →
    (∃ n, nodes d !! h = Some n ∧ node_shift n = node_shift n') ∨ P h (node_shift n');
  dx_forth : dag_reachable d → ∀ h n, nodes d !! h = Some n →
    ∃ n', nodes d' !! h = Some n' ∧ (applied n = true → applied n' = true);
}.

Section extension.
Context {C : Crypto} (P : N → StatefulShift → Prop).

Lemma dag_ext_refl d : dag_ext P d d.
Proof. split; eauto. Qed.

Lemma dag_ext_trans d1 d2 d3 : dag_ext P d1 d2 → dag_ext P d2 d3 → dag_ext P d1 d3.
Proof.
  intros [R1 B1 F1] [R2 B2 F2]. split; [auto| |]; intros Hr h n Hn.
  - destruct (B2 (R1 Hr) h n Hn) as [(n2 & H2 & E2)|Hp]; [|by right].
    destruct (B1 Hr h n2 H2) as [(n1 & H1 & E1)|Hp]; [left; exists n1; by rewrite E1|].
    right. by rewrite <- E2.
  - destruct (F1 Hr h n Hn) as (n2 & H2 & A2). destruct (F2 (R1 Hr) h n2 H2) as (n3 & H3 & A3). eauto.
Qed.

Lemma dag_ext_weaken (Q : N → StatefulShift → Prop) d d' :
  (∀ h s, P h s → Q h s) → dag_ext P d d' → dag_ext Q d d'.
Proof. intros Hpq [R B F]. split; [done| |done]. intros Hr h n Hn. destruct (B Hr h n Hn); auto. Qed.

Lemma dag_ext_map d d' : (dag_reachable d → dag_reachable d') →
  (∀ h n', nodes d' !! h = Some n' → ∃ n, nodes d !! h = Some n ∧ node_shift n = node_shift n') →
  (∀ h n, nodes d !! h = Some n → ∃ n', nodes d' !! h = Some n' ∧ (applied n = true → applied n' = true)) →
  dag_ext P d d'.
Proof. intros HR HB HF. split; auto. Qed.

Lemma dag_ext_alter d h f : (dag_reachable d → dag_reachable (with_nodes d (alter f h (nodes d)))) →
  (∀ n, node_shift (f n) = node_shift n ∧ (applied n = true → applied (f n) = true)) →
  dag_ext P d (with_nodes d (alter f h (nodes d))).
Proof.
  intros HR Hf. apply dag_ext_map; [done| |]; cbn [nodes with_nodes]; intros g n.
  - rewrite lookup_alter_Some. intros [(<- & m & Hm & ->)|[_ Hm]]; [|by exists n].
    exists m. by rewrite (proj1 (Hf m)).
  - intros Hn. destruct (decide (h = g)) as [<-|]; [|exists n; by rewrite lookup_alter_ne].
    exists (f n). rewrite lookup_alter_eq, Hn. split; [done|apply Hf].
Qed.

Lemma dag_ext_status d h st : dag_ext P d (set_status d h st).
Proof. apply dag_ext_alter; [apply dr_status|done]. Qed.
Lemma dag_ext_applied d h : dag_ext P d (mark_applied d h).
Proof. apply dag_ext_alter; [apply dr_applied|done]. Qed.
Lemma dag_ext_balances d b : dag_ext P d (with_dag_balances d b).
Proof. split; [apply dr_balances| |]; cbn; eauto. Qed.

Lemma dag_ext_promote d t : dag_ext P d (promote_all d t).
Proof.
  apply dag_ext_map; [apply dr_promote| |]; cbn [promote_all nodes with_nodes]; intros h n.
  - rewrite lookup_fmap, fmap_Some. intros (m & Hm & ->). exists m. split; [done|].
    unfold promote_node. by destruct (promotable t m).
  - intros Hn. rewrite lookup_fmap, Hn. cbn. eexists. split; [done|].
    unfold promote_node. by destruct (promotable t n).
Qed.

Lemma dag_ext_insert d s pk tick depth : P (ss_hash s) s → dag_reachable d →
  ∃ d' r, dag_insert d s pk tick depth = Some (d', r) ∧ dag_ext P d d'.
Proof.
  intros HP Hr. pose proof Hr as [Hi _]%dag_reachable_inv.
  assert (HR : ∀ d' r, dag_insert d s pk tick depth = Some (d', r) → dag_reachable d → dag_reachable d')
    by (intros d' r E' Hr'; by eapply dr_insert).
  unfold dag_insert in *. destruct (ss_verify_signature s pk); cbn [negb] in *.
  2: { eexists _, _. split; [done|]. split; [by apply (HR _ _ eq_refl)| |]; cbn; eauto. }
  case_bool_decide as Hex; [eexists _, _; split; [done|apply dag_ext_refl]|].
  apply eq_None_not_Some in Hex. destruct (missing_predecessor d s) as [p|] eqn:Hm.
  { eexists _, _. split; [done|]. split; [by apply (HR _ _ eq_refl)| |]; cbn; eauto. }
  destruct (insert_node_inv d (ss_hash s) s tick depth Hi Hex (missing_predecessor_none d s Hm))
    as (d1 & E1 & _ & (nn & Hnn & Hs & _) & Hold & Hdom).
  rewrite E1 in *. cbn [mbind option_bind] in *. eexists _, _. split; [done|].
  split; [by apply (HR _ _ eq_refl)| |]; intros _ h n Hn.
  - destruct (decide (h = ss_hash s)) as [->|Hne].
    + right. rewrite Hnn in Hn. injection Hn as <-. by rewrite Hs.
    + left. assert (Hd : h ∈ dom (nodes d)).
      { apply (elem_of_dom_2 (D := gset N)) in Hn. rewrite Hdom in Hn. set_solver. }
      apply elem_of_dom in Hd as [n0 Hn0]. exists n0. split; [done|].
      destruct (Hold h n0 Hn0) as (n' & Hn' & E'). rewrite Hn in Hn'. injection Hn' as <-. by rewrite E'.
  - destruct (Hold h n Hn) as (n' & Hn' & E'). exists n'. split; [done|]. by rewrite E'.
Qed.
End extension.

Section stages.
Context {C : Crypto} {E : Ethers} {V : Revm} {HO : HashOrder}.

Definition new_node (pending : list StatefulShift) (h : N) (s : StatefulShift) : Prop :=
  h = ss_hash s ∧ s ∈ pending.

Lemma insert_pending_spec reg keys tick l : ∀ d rej, dag_reachable d →
  ∃ d' rej', fold_opt (insert_pending reg keys tick) l (d, rej) = Some (d', rej')
    ∧ dag_ext (new_node l) d d'.
Proof.
  induction l as [|s l IH]; intros d rej Hr; cbn [fold_opt].
  { eexists _, _. split; [done|apply dag_ext_refl]. }
  assert (Hw : ∀ h s', new_node l h s' → new_node (s :: l) h s')
    by (intros h s' [-> Hin]; split; [done|by right]).
  unfold insert_pending at 2. destruct (keys !! ss_from s) as [pk|].
  - destruct (dag_ext_insert (new_node (s :: l)) d s pk tick (depth_of reg (ss_domain s)))
      as (d1 & r & -> & Hx); [split; [done|by left]|done|]. cbn [mbind option_bind fst snd].
    destruct (IH d1 (match r with Ok _ => rej | Err e => rej ++ [e] end)) as (d' & rej' & -> & Hx');
      [by apply Hx|]. eexists _, _. split; [done|]. eapply dag_ext_trans; [done|by eapply dag_ext_weaken].
  - cbn [mbind option_bind]. destruct (IH d (rej ++ [Dag.InvalidSignature (ss_hash s)]) Hr)
      as (d' & rej' & -> & Hx'). eexists _, _. split; [done|by eapply dag_ext_weaken].
Qed.

Lemma mark_all_ext P errs : ∀ d, dag_ext P d (fold_left mark_double_spend errs d).
Proof.
  induction errs as [|e errs IH]; intros d; cbn [fold_left]; [apply dag_ext_refl|].
  eapply dag_ext_trans; [|apply IH]. destruct e; try apply dag_ext_refl. apply dag_ext_status.
Qed.

Lemma mark_applied_all_ext P hs : ∀ d, dag_ext P d (fold_left mark_applied hs d).
Proof.
  induction hs as [|h hs IH]; intros d; cbn [fold_left]; [apply dag_ext_refl|].
  eapply dag_ext_trans; [apply dag_ext_applied|apply IH].
Qed.

Lemma insert_stage_spec o keys tick fin : dag_reachable (dag o) →
  ∃ d rej, insert_stage o keys tick fin = Some (with_dag (with_stateful o []) d, rej)
    ∧ dag_ext (new_node (pending_stateful o)) (dag o) d.
Proof.
  intros Hr. unfold insert_stage.
  destruct (insert_pending_spec (domain_registry o) keys tick (pending_stateful o) (dag o) [] Hr)
    as (d1 & rej & -> & Hx). cbn [mbind option_bind].
  destruct (detect_total d1) as [errs ->]. cbn [mbind option_bind]. eexists _, _. split; [done|].
  eapply dag_ext_trans; [done|]. eapply dag_ext_trans; [apply mark_all_ext|apply dag_ext_promote].
Qed.

(** The transform engine is never replaced. *)
Definition has_engine (f : WaveField) : Prop := ∃ size, Ntt.engine_new size = Some (ntt_engine f).

Lemma batch_stage_total tick l : ∀ acc, has_engine acc.1.1.1 →
  ∃ acc', fold_opt (batch_stage tick) l acc = Some acc' ∧ ntt_engine acc'.1.1.1 = ntt_engine acc.1.1.1.
Proof.
  induction l as [|[dm ds] l IH]; intros [[[f req] root] tot] He; cbn [fold_opt]; [eauto|].
  unfold batch_stage at 2. case_bool_decide; cbn [mbind option_bind]; [by apply IH|].
  destruct He as [size He]. cbn [fst] in He.
  destruct (batch_total f size ds He) as (f' & r & -> & Ef). cbn [mbind option_bind fst].
  assert (He' : has_engine f') by (exists size; by rewrite Ef).
  destruct r as [[]|e]; cbn [mbind option_bind].
  - destruct (IH (f', req, commutative_root tick ds, (tot + length ds)%nat) He') as (acc' & -> & Ea).
    eexists. split; [done|]. by rewrite Ea.
  - destruct (IH (f', req ++ map (λ d : Delta, (dm, d.1.1, d.1.2, d.2)) ds, 0, tot) He') as (acc' & -> & Ea).
    eexists. split; [done|]. by rewrite Ea.
Qed.

(** The commutative stage only moves the field and the queue of deltas. *)
Lemma commutative_stage_spec o tick : has_engine (wave_field o) →
  ∃ f q root tot, commutative_stage o tick = Some (with_field (with_commutative o q) f, root, tot)
    ∧ ntt_engine f = ntt_engine (wave_field o).
Proof.
  intros He. unfold commutative_stage. case_bool_decide as Hp.
  { exists (wave_field o), [], 0, 0%nat. split; [|done]. rewrite <- Hp. by destruct o. }
  destruct (batch_stage_total tick (hm_iter (fold_left (route_delta (domain_registry o)) (pending_commutative o) ∅))
    (wave_field o, [], 0, 0%nat) He) as ([[[f req] root] tot] & -> & Ef).
  cbn [mbind option_bind]. eexists _, _, _, _. split; [done|]. exact Ef.
Qed.
End stages.

(** ** The cycle as a whole *)

Section cycle.
Context {C : Crypto} {E : Ethers} {V : Revm} {HO : HashOrder}.

(** What the stages around the DAG leave alone. *)
Record same_queues (o o' : Oscillator) : Prop := {
  sq_pending : pending_stateful o' = pending_stateful o;
  sq_signatures : seen_signatures o' = seen_signatures o;
  sq_nonces : seen_nonces o' = seen_nonces o;
  sq_registry : domain_registry o' = domain_registry o;
  sq_evm : evm_pool o' = evm_pool o;
  sq_engine : ntt_engine (wave_field o') = ntt_engine (wave_field o);
}.

Lemma same_queues_trans o1 o2 o3 : same_queues o1 o2 → same_queues o2 o3 → same_queues o1 o3.
Proof. intros [] []. split; congruence. Qed.

Lemma decay_stage_same o tick : same_queues o (decay_stage o tick).1 ∧ dag (decay_stage o tick).1 = dag o.
Proof.
  unfold decay_stage. destruct (apply_metabolic_decay _ _ _ _) as [f dec] eqn:Hd.
  assert (He : ntt_engine f = ntt_engine (wave_field o)).
  { unfold apply_metabolic_decay in Hd. by injection Hd as <- _. }
  destruct (0 <? burn_share_of dec), (0 <? dec - burn_share_of dec); by split; [split|].
Qed.

Lemma prepare_spec o keys fin : dag_reachable (dag o) → has_engine (wave_field o) →
  ∃ p, prepare_cycle o keys fin = Some p
    ∧ dag_ext (new_node (pending_stateful o)) (dag o) (dag (pr_osc p))
    ∧ pending_stateful (pr_osc p) = [] ∧ seen_signatures (pr_osc p) = seen_signatures o
    ∧ seen_nonces (pr_osc p) = seen_nonces o ∧ evm_pool (pr_osc p) = evm_pool o
    ∧ domain_registry (pr_osc p) = domain_registry o
    ∧ ntt_engine (wave_field (pr_osc p)) = ntt_engine (wave_field o).
Proof.
  intros Hr [size He]. unfold prepare_cycle. set (tick := synthesis_tick o). set (o0 := with_tick o _).
  destruct (decay_stage_same o0 tick) as [[Q1 Q2 Q3 Q4 Q5 Q6] Hd].
  destruct (decay_stage o0 tick) as [o1 dec]. cbn [fst] in *.
  destruct (insert_stage_spec (sync_dag o1) keys tick fin) as (d & rej & -> & Hx).
  { unfold sync_dag. cbn [dag with_dag]. rewrite Hd. by apply dr_balances. }
  cbn [mbind option_bind fst snd]. set (o2 := with_dag _ d).
  destruct (commutative_stage_spec o2 tick) as (f & q & root & tot & -> & Ef).
  { exists size. unfold o2, sync_dag. cbn [wave_field with_dag with_stateful]. by rewrite Q6. }
  cbn [mbind option_bind]. eexists. split; [done|]. cbn [pr_osc].
  unfold o2, sync_dag in *. cbn in *. rewrite Hd, Q1 in Hx. split_and!; try congruence; try done.
  eapply dag_ext_trans; [|exact Hx]. apply dag_ext_balances.
Qed.

(** The certificate only moves the certificate store, the tracker, stakes and supply. *)
Lemma certify_same o keys tick r root st ev ts :
  ∃ o', certify o keys tick r root st ev ts = Some o' ∧ same_queues o o'
    ∧ dag o' = dag o ∧ wave_field o' = wave_field o.
Proof.
  unfold certify. destruct (operator_keypair o) as [kp|]; [|by exists o].
  destruct (is_staked _ _); cbn [negb]; [|by exists o].
  unfold table_root, pool_root. destruct (root_total (table_items (stake_table o))) as [r1 ->].
  destruct (root_total (pool_items (reward_pool o))) as [r2 ->]. cbn [mbind option_bind].
  eexists. split; [done|]. unfold osc_ingest_certificate.
  by destruct (tracker_apply _ _ _ _) as [[t s] res].
Qed.

Lemma fee_stage_same o s : same_queues o (fee_stage o s) ∧ dag (fee_stage o s) = dag o.
Proof.
  unfold fee_stage. destruct (total_fees s =? 0); [done|].
  split; [split; try done|done]. cbn [wave_field with_rewards with_field].
  generalize (wave_field o) as f. induction (hm_iter _) as [|[a fee] l IH]; intros f; [done|].
  cbn [fold_left]. rewrite IH. cbn [fst snd]. unfold debit_account.
  destruct (_ <? _); [done|]. done.
Qed.

Lemma write_back_engine tick act l : ∀ f, ntt_engine (fold_left (write_back tick act) l f) = ntt_engine f.
Proof. induction l as [|ab l IH]; intros f; cbn [fold_left]; [done|]. by rewrite IH. Qed.

Lemma mark_applied_applied hs : ∀ d h, (h ∈ hs ∨ ∃ n, nodes d !! h = Some n ∧ applied n = true) →
  is_Some (nodes d !! h) → ∃ n, nodes (fold_left mark_applied hs d) !! h = Some n ∧ applied n = true.
Proof.
  induction hs as [|g hs IH]; intros d h Hh Hs; cbn [fold_left].
  { destruct Hh as [Hh|Hh]; [by apply elem_of_nil in Hh|done]. }
  assert (Hl : nodes (mark_applied d g) !! h = (λ n, if decide (g = h) then with_applied n else n) <$> nodes d !! h).
  { unfold mark_applied. cbn [nodes with_nodes].
    destruct (decide (g = h)) as [->|]; [by rewrite lookup_alter_eq|].
    rewrite lookup_alter_ne by done. by destruct (nodes d !! h). }
  destruct Hs as [n Hn]. apply IH; rewrite Hl, Hn; cbn [fmap option_fmap option_map]; [|by eexists].
  destruct Hh as [[->|Hh]%elem_of_cons|(n' & Hn' & Ha)]; [|by left|].
  - right. eexists. split; [done|]. by rewrite decide_True.
  - right. eexists. split; [done|]. rewrite Hn in Hn'. injection Hn' as <-. by destruct (decide (g = h)).
Qed.

(** The second half of a cycle, once the EVM pool has run. *)
Lemma finish_spec p keys tick ts order :
  dag_reachable (dag (pr_osc p)) → topological_order (dag (pr_osc p)) = Some (Ok order) →
  (∀ h n, nodes (dag (pr_osc p)) !! h = Some n → ss_amount (node_shift n) ≠ 0) →
  ∃ s, settle (pr_osc p) keys order = Some s ∧ settle_inv (pr_osc p) keys order s
  ∧ match pool_synthesize (evm_pool (pr_osc p)) (simulated s) (finalized_at ts) tick with
    | None => finish_cycle p keys tick ts order = None
    | Some (pool, balances, n, hs) =>
        ∃ o' r, finish_cycle p keys tick ts order = Some (o', r, settled s)
          ∧ dag_ext (λ _ _, False) (dag (pr_osc p)) (dag o')
          ∧ (∀ h, h ∈ settled s → ∃ n, nodes (dag o') !! h = Some n ∧ applied n = true)
          ∧ same_queues (with_evm (pr_osc p) pool) o'
          ∧ dag_balances (dag o') = balances ∧ final_balances r = balances
          ∧ wave_field o' = fold_left (write_back tick (active s)) (hm_iter balances)
                              (wave_field (fee_stage (with_evm (pr_osc p) pool) s))
    end.
Proof.
  intros Hr Ho Ha. destruct (topological_order_spec (dag (pr_osc p)) (proj1 (dag_reachable_inv _ Hr)))
    as (order' & Ho' & Hnd & Hin & _). rewrite Ho in Ho'. injection Ho' as <-.
  destruct (settle_spec (pr_osc p) keys order Hnd) as (s & Es & Hs); [intros h; apply Hin|done|].
  exists s. split; [done|]. split; [done|]. unfold finish_cycle. rewrite Es. cbn [mbind option_bind].
  destruct (pool_synthesize _ _ _ _) as [[[[pool bal] n] hs]|]; [|done]. cbn [mbind option_bind].
  set (o1 := with_evm (pr_osc p) pool). destruct (fee_stage_same o1 s) as [Q Hd].
  set (r := {| commutative_applied := _ |}). set (o2 := sync_field _ _ _ _).
  destruct (certify_same o2 keys tick r (pr_comm_root p) (settled s) hs (certified_at ts)) as (o' & -> & Q' & Hd' & Hw).
  cbn [mbind option_bind]. eexists o', _. split; [done|].
  assert (Ed : dag o' = with_dag_balances (fold_left mark_applied (settled s) (dag (pr_osc p))) bal).
  { rewrite Hd'. unfold o2, sync_field, commit_dag. cbn. by rewrite Hd. }
  rewrite Ed. split_and!; [| | |done|by destruct (returns_early _)|].
  - eapply dag_ext_trans; [apply mark_applied_all_ext|apply dag_ext_balances].
  - intros h Hh. apply mark_applied_applied; [by left|].
    destruct (sv_settled _ _ _ _ Hs h Hh) as [_ (n' & _ & -> & _)]. by eexists.
  - eapply same_queues_trans; [exact Q|]. eapply same_queues_trans; [|exact Q'].
    unfold o2, sync_field, commit_dag. split; cbn; try done. apply write_back_engine.
  - rewrite Hw. unfold o2, sync_field, commit_dag. done.
Qed.
End cycle.

(** ** The node as a state machine *)

Section machine.
Context {C : Crypto} {E : Ethers} {V : Revm} {HO : HashOrder}.

(** Nonces a sender used in a domain, in order of acceptance. *)
Definition nonces_in (a d : N) (accepted : list StatefulShift) : list N :=
  map ss_nonce (List.filter (λ s, (ss_from s =? a) && (ss_domain s =? d)) accepted).

(** Shifts an operation appended to the queue. *)
Definition enqueued (o o' : Oscillator) : list StatefulShift :=
  drop (length (pending_stateful o)) (pending_stateful o').

(** A new node. *)
Inductive booted : Oscillator → Prop :=
  | boot_new id size kp o : osc_new id size kp = Some o → booted o
  | boot_with_stake id size kp t o : osc_new_with_stake id size kp t = Some o → booted o.

(** Every operation of the node: the stateful shifts it accepts, the transfers it settles,
    and the state it leaves. *)
Inductive osc_step (o : Oscillator) : list StatefulShift → list N → Oscillator → Prop :=
  | os_operator kp : osc_step o [] [] (set_operator_keypair o kp)
  | os_ingest s now : osc_step o (enqueued o (ingest o s now).1) [] (ingest o s now).1
  | os_stake s : osc_step o [] [] (apply_stake o s).1
  | os_registration r : osc_step o [] [] (apply_registration o r)
  | os_seed a n : osc_step o [] [] (osc_seed_account o a n)
  | os_mark a : osc_step o [] [] (mark_non_decaying o a)
  | os_domain p a : osc_step o [] [] (register_domain o p a).1
  | os_certificate c keys : osc_step o [] [] (osc_ingest_certificate o c keys).1
  | os_evm tx now : osc_step o [] [] (with_evm o (submit (evm_pool o) tx now))
  | os_claim a : osc_step o [] [] (with_rewards o (claim (reward_pool o) a).1)
  | os_claim_lp p : osc_step o [] [] (with_rewards o (claim_lp_reward (reward_pool o) p).1)
  | os_tick : osc_step o [] [] (tick_vector_clock o)
  | os_synthesize keys ts o' r hs : synthesize_trace o keys ts = Some (o', r, hs) → osc_step o [] hs o'.

(** The histories of a node: what it accepted and what it settled since it was created. *)
Inductive osc_run : Oscillator → list StatefulShift → list N → Prop :=
  | or_boot o : booted o → osc_run o [] []
  | or_step o acc st ac hs o' : osc_run o acc st → osc_step o ac hs o' →
      osc_run o' (acc ++ ac) (st ++ hs).

(** Several operations in a row. *)
Inductive osc_steps (o : Oscillator) : list StatefulShift → list N → Oscillator → Prop :=
  | oss_refl : osc_steps o [] [] o
  | oss_step acc st o1 ac hs o2 : osc_steps o acc st o1 → osc_step o1 ac hs o2 →
      osc_steps o (acc ++ ac) (st ++ hs) o2.

Lemma osc_steps_one o ac hs o' : osc_step o ac hs o' → osc_steps o ac hs o'.
Proof. exact (oss_step o [] [] o ac hs o' (oss_refl o)). Qed.

Lemma osc_steps_trans o1 ac1 hs1 o2 ac2 hs2 o3 :
  osc_steps o1 ac1 hs1 o2 → osc_steps o2 ac2 hs2 o3 → osc_steps o1 (ac1 ++ ac2) (hs1 ++ hs2) o3.
Proof.
  intros H1. induction 1 as [|acc st o' ac hs o'' _ IH Hs]; [by rewrite !app_nil_r|].
  rewrite !app_assoc. by eapply oss_step.
Qed.

Lemma osc_run_steps o acc st ac hs o' : osc_run o acc st → osc_steps o ac hs o' →
  osc_run o' (acc ++ ac) (st ++ hs).
Proof.
  intros Hr. induction 1 as [|ac hs o1 ac' hs' o2 _ IH Hs]; [by rewrite !app_nil_r|].
  rewrite !app_assoc. by eapply or_step.
Qed.

(** What holds of a node whose DAG, queue and history fit together. *)
Record osc_core (o : Oscillator) (acc : list StatefulShift) (st : list N) : Prop := {
  oi_dag : dag_reachable (dag o);
  oi_engine : has_engine (wave_field o);
  oi_nodes : ∀ h n, nodes (dag o) !! h = Some n → h = ss_hash (node_shift n) ∧ node_shift n ∈ acc;
  oi_pending : ∀ s, s ∈ pending_stateful o → s ∈ acc;
  oi_amount : ∀ s, s ∈ acc → ss_amount s ≠ 0;
  oi_settled : NoDup st;
  oi_applied : ∀ h, h ∈ st → ∃ n, nodes (dag o) !! h = Some n ∧ applied n = true;
}.

(** What the replay tables guarantee about the accepted shifts. *)
Record osc_guard (o : Oscillator) (acc : list StatefulShift) : Prop := {
  oi_signatures : NoDup (map ss_signature acc);
  oi_seen : ∀ s, s ∈ acc → ss_signature s ∈ seen_signatures o;
  oi_nonces : ∀ a d, StronglySorted N.lt (nonces_in a d acc);
  oi_highest : ∀ a d n, n ∈ nonces_in a d acc → ∃ m, seen_nonces o !! (a, d) = Some m ∧ n ≤ m;
}.

(** Operations that enqueue nothing keep the invariant. *)
Record osc_frame (o o' : Oscillator) : Prop := {
  of_dag : dag_ext (λ _ _, False) (dag o) (dag o');
  of_pending : pending_stateful o' = pending_stateful o;
  of_signatures : seen_signatures o ⊆ seen_signatures o';
  of_nonces : ∀ k m, seen_nonces o !! k = Some m → ∃ m', seen_nonces o' !! k = Some m' ∧ m ≤ m';
  of_engine : ntt_engine (wave_field o') = ntt_engine (wave_field o);
}.

Lemma osc_frame_refl o : osc_frame o o.
Proof. split; try done; [apply dag_ext_refl|]. intros k m Hm. by exists m. Qed.

(** The common case: nothing but the balances of the DAG moves. *)
Lemma osc_frame_simple o o' b : dag o' = with_dag_balances (dag o) b →
  pending_stateful o' = pending_stateful o → seen_signatures o' = seen_signatures o →
  seen_nonces o' = seen_nonces o → ntt_engine (wave_field o') = ntt_engine (wave_field o) →
  osc_frame o o'.
Proof.
  intros Hd Hp Hs Hn He. split; [rewrite Hd; apply dag_ext_balances|done|by rewrite Hs| |done].
  intros k m Hm. exists m. by rewrite Hn.
Qed.

Lemma balances_self d : d = with_dag_balances d (dag_balances d).
Proof. by destruct d. Qed.

Lemma osc_frame_same o o' : dag o' = dag o →
  pending_stateful o' = pending_stateful o → seen_signatures o' = seen_signatures o →
  seen_nonces o' = seen_nonces o → ntt_engine (wave_field o') = ntt_engine (wave_field o) →
  osc_frame o o'.
Proof. intros Hd. apply (osc_frame_simple o o' (dag_balances (dag o))). by rewrite Hd, <- balances_self. Qed.

Lemma osc_frame_trans o1 o2 o3 : osc_frame o1 o2 → osc_frame o2 o3 → osc_frame o1 o3.
Proof.
  intros [D1 P1 S1 N1 E1] [D2 P2 S2 N2 E2]. split; [by eapply dag_ext_trans|congruence|set_solver| |congruence].
  intros k m Hm. destruct (N1 k m Hm) as (m' & Hm' & ?). destruct (N2 k m' Hm') as (m'' & ? & ?).
  exists m''. split; [done|lia].
Qed.

Lemma core_frame o o' acc st : osc_frame o o' → osc_core o acc st → osc_core o' acc st.
Proof.
  intros [[HR HB HF] HP HS HN HE] []. split; auto.
  - destruct oi_engine0 as [size Hz]. exists size. by rewrite HE.
  - intros h n' Hn'. destruct (HB oi_dag0 h n' Hn') as [(n & Hn & <-)|[]]. by apply oi_nodes0.
  - by rewrite HP.
  - intros h Hh. destruct (oi_applied0 h Hh) as (n & Hn & Ha).
    destruct (HF oi_dag0 h n Hn) as (n' & Hn' & Ha'). exists n'. auto.
Qed.

Lemma guard_frame o o' acc : osc_frame o o' → osc_guard o acc → osc_guard o' acc.
Proof.
  intros [_ _ HS HN _] []. split; auto.
  intros a d n Hn. destruct (oi_highest0 a d n Hn) as (m & Hm & ?).
  destruct (HN _ _ Hm) as (m' & ? & ?). exists m'. split; [done|lia].
Qed.

(** ** Frames of the single operations *)

Lemma nonce_frame o a d n : osc_frame o (check_and_record_nonce o a d n).1.
Proof.
  destruct (nonce_cases o a d n) as [[-> Hlt]|(m & _ & _ & ->)]; cbn [fst]; [|apply osc_frame_refl].
  split; cbn; try done; [apply dag_ext_refl|]. intros k m Hm.
  destruct (decide ((a, d) = k)) as [<-|Hk]; [|exists m; by rewrite lookup_insert_ne].
  exists n. rewrite lookup_insert_eq. split; [done|]. apply N.lt_le_incl. by apply Hlt.
Qed.

Lemma debit_engine f a n : ntt_engine (debit_account f a n).1 = ntt_engine f.
Proof. unfold debit_account. by destruct (_ <? _). Qed.

Lemma stake_frame o s : osc_frame o (apply_stake o s).1.
Proof.
  unfold apply_stake. destruct (negb (sk_verify s)); [apply osc_frame_refl|].
  pose proof (nonce_frame o (sk_operator s) 0 (sk_nonce s)) as Hf.
  destruct (check_and_record_nonce o (sk_operator s) 0 (sk_nonce s)) as [o1 [[]|e]]; [|done].
  cbn [fst] in Hf. eapply osc_frame_trans; [exact Hf|]. cbv zeta.
  destruct (_ =? _); [apply osc_frame_refl|]. destruct (_ <? _).
  - destruct (_ <? _); [apply osc_frame_refl|].
    pose proof (debit_engine (wave_field o1) (sk_operator s) (sk_amount s - get_stake (stake_table o1) (sk_operator s))) as He.
    destruct (debit_account _ _ _) as [f []]; cbn [negb fst] in *; [|by apply osc_frame_same].
    by eapply osc_frame_simple.
  - by eapply osc_frame_simple.
Qed.

Lemma registration_frame o r : osc_frame o (apply_registration o r).
Proof.
  unfold apply_registration. pose proof (nonce_frame o (rs_account r) 0 (rs_nonce r)) as Hf.
  destruct (check_and_record_nonce o (rs_account r) 0 (rs_nonce r)) as [o1 [[]|e]]; [|done].
  cbn [fst] in Hf. eapply osc_frame_trans; [exact Hf|].
  eapply osc_frame_simple; [done|done|done|done|]. cbn [wave_field with_field with_dag].
  destruct (_ =? 0); destruct (_ =? 0); done.
Qed.

Lemma seed_frame o a n : osc_frame o (osc_seed_account o a n).
Proof.
  unfold osc_seed_account. destruct (Supply.mint _ _) as [s []]; cbn [negb]; [|apply osc_frame_refl].
  by eapply osc_frame_simple.
Qed.

Lemma domain_frame o p a : osc_frame o (register_domain o p a).1.
Proof.
  unfold register_domain. destruct (policy_new _ _ _ _ _ _ _) as [q|e]; [|apply osc_frame_refl].
  destruct (registry_contains _ _); [apply osc_frame_refl|]. destruct (_ <? _); [apply osc_frame_refl|].
  pose proof (debit_engine (wave_field o) a domain_reservation_fee_units) as He.
  destruct (debit_account _ _ _) as [f []]; by apply osc_frame_same.
Qed.

Lemma certificate_frame o c keys : osc_frame o (osc_ingest_certificate o c keys).1.
Proof.
  unfold osc_ingest_certificate. destruct (tracker_apply _ _ _ _) as [[t s] r]. by apply osc_frame_same.
Qed.

Lemma commutative_frame o c : osc_frame o (ingest_commutative o c).1.
Proof.
  unfold ingest_commutative. destruct (registry_get _ _) as [p|]; [|apply osc_frame_refl].
  destruct (negb _); [apply osc_frame_refl|]. case_bool_decide; [apply osc_frame_refl|].
  split; cbn; try done; [apply dag_ext_refl|set_solver|]. intros k m Hm. by exists m.
Qed.

(** ** Ingestion *)

Lemma frame_enqueued o o' : osc_frame o o' → enqueued o o' = [].
Proof. intros Hf. unfold enqueued. by rewrite (of_pending _ _ Hf), drop_all. Qed.

Lemma nonces_in_app a d l s : nonces_in a d (l ++ [s])
  = nonces_in a d l ++ (if (ss_from s =? a) && (ss_domain s =? d) then [ss_nonce s] else []).
Proof.
  unfold nonces_in. rewrite List.filter_app, map_app. cbn.
  by destruct ((ss_from s =? a) && (ss_domain s =? d)).
Qed.

Lemma sorted_snoc (l : list N) n : StronglySorted N.lt l → (∀ x, x ∈ l → x < n) →
  StronglySorted N.lt (l ++ [n]).
Proof.
  induction 1 as [|x l Hs IH Hall]; intros Hn; cbn; [repeat constructor|].
  constructor; [apply IH; intros y Hy; apply Hn; by right|].
  apply Forall_app. split; [done|]. repeat constructor. apply Hn. by left.
Qed.

(** What ingestion does: nothing to the queue, or it accepts one fresh shift, above every
    nonce its sender used in the domain. *)
Inductive accepts (o o' : Oscillator) (s : StatefulShift) : Prop :=
  accepts_intro :
    dag o' = dag o → wave_field o' = wave_field o →
    pending_stateful o' = pending_stateful o ++ [s] →
    seen_signatures o' = {[ ss_signature s ]} ∪ seen_signatures o →
    seen_nonces o' = <[(ss_from s, ss_domain s) := ss_nonce s]> (seen_nonces o) →
    (∀ m, seen_nonces o !! (ss_from s, ss_domain s) = Some m → m < ss_nonce s) →
    ss_amount s ≠ 0 → ss_signature s ∉ seen_signatures o → accepts o o' s.

Lemma ingest_cases o s now :
  osc_frame o (ingest o s now).1 ∨ ∃ t, accepts o (ingest o s now).1 t.
Proof.
  destruct s as [c|s|r|k|? ?|? ?|c|pr]; cbn [ingest fst]; try (left; apply osc_frame_refl).
  { left. apply commutative_frame. }
  unfold ingest_stateful. destruct (registry_get _ _) as [p|]; [|left; apply osc_frame_refl].
  destruct (negb _); [left; apply osc_frame_refl|]. destruct (_ && _); [left; apply osc_frame_refl|].
  pose proof (nonce_frame o (ss_from s) (ss_domain s) (ss_nonce s)) as Hf.
  destruct (nonce_cases o (ss_from s) (ss_domain s) (ss_nonce s)) as [[En Hlt]|(m & _ & _ & En)];
    rewrite En in *; cbn [fst] in *; [|by left].
  case_bool_decide as Hsig; [by left|]. destruct (N.eqb_spec (ss_amount s) 0) as [|Ha]; [by left|].
  right. by exists (arrived s now).
Qed.

Lemma accepts_enqueued o o' s : accepts o o' s → enqueued o o' = [s].
Proof. intros [_ _ Hp _ _ _ _ _]. unfold enqueued. by rewrite Hp, drop_app_length. Qed.

Lemma accept_core o o' acc st s : accepts o o' s → osc_core o acc st → osc_core o' (acc ++ [s]) st.
Proof.
  intros [Hd Hw Hp _ _ _ Ha _] []. split; rewrite ?Hd, ?Hp, ?Hw; try done.
  - intros h n Hh. destruct (oi_nodes0 h n Hh). split; [done|]. apply elem_of_app. by left.
  - intros t. rewrite !elem_of_app. intros [Ht|Ht]; [left; by apply oi_pending0|by right].
  - intros t [Ht| ->%list_elem_of_singleton]%elem_of_app; [by apply oi_amount0|done].
Qed.

Lemma accept_guard o o' acc s : accepts o o' s → osc_guard o acc → osc_guard o' (acc ++ [s]).
Proof.
  intros [_ _ _ Hs Hn Hlt _ Hsig] [].
  assert (Hnonce : ∀ n, n ∈ nonces_in (ss_from s) (ss_domain s) acc → n < ss_nonce s).
  { intros n Hin. destruct (oi_highest0 _ _ _ Hin) as (m & Hm & ?). pose proof (Hlt m Hm). lia. }
  assert (Heq : ∀ a d, (ss_from s =? a) && (ss_domain s =? d) = true ↔ (a, d) = (ss_from s, ss_domain s)).
  { intros a d. rewrite andb_true_iff, !N.eqb_eq. naive_solver. }
  split; rewrite ?Hs, ?Hn.
  - rewrite map_app. apply NoDup_app. split; [done|]. split; [|apply NoDup_singleton].
    intros g Hg ->%list_elem_of_singleton. apply list_elem_of_fmap in Hg as (t & E' & Ht).
    apply Hsig. rewrite E'. by apply oi_seen0.
  - intros t [Ht| ->%list_elem_of_singleton]%elem_of_app; apply elem_of_union; [right; by apply oi_seen0|].
    left. by apply elem_of_singleton.
  - intros a d. rewrite nonces_in_app. destruct (_ && _) eqn:Ec; [|by rewrite app_nil_r].
    apply Heq in Ec as [= -> ->]. by apply sorted_snoc.
  - intros a d n. rewrite nonces_in_app. intros [Hin|Hin]%elem_of_app.
    + destruct (decide ((ss_from s, ss_domain s) = (a, d))) as [[= <- <-]|Hne].
      * exists (ss_nonce s). rewrite lookup_insert_eq. split; [done|]. apply N.lt_le_incl. auto.
      * rewrite lookup_insert_ne by done. by apply oi_highest0.
    + destruct (_ && _) eqn:Ec; [|by apply elem_of_nil in Hin].
      apply list_elem_of_singleton in Hin as ->. apply Heq in Ec as [= -> ->].
      exists (ss_nonce s). rewrite lookup_insert_eq. done.
Qed.

(** ** Synthesis *)

Lemma synthesize_defined o acc st keys ts : osc_core o acc st →
  (∀ bal, is_Some (pool_synthesize (evm_pool o) bal (finalized_at ts) (synthesis_tick o))) →
  is_Some (synthesize_trace o keys ts).
Proof.
  intros [] Hevm. unfold synthesize_trace.
  destruct (prepare_spec o keys (finalized_at ts) oi_dag0 oi_engine0) as (p & -> & Hx & _ & _ & _ & Ev & _ & _).
  cbn [mbind option_bind]. pose proof (dx_reachable _ _ _ Hx oi_dag0) as Hr.
  destruct (topological_order_spec _ (proj1 (dag_reachable_inv _ Hr))) as (order & Ho & _).
  rewrite Ho. cbn [mbind option_bind].
  destruct (finish_spec p keys (synthesis_tick o) ts order Hr Ho) as (s & _ & _ & Hfin).
  { intros h n Hn. destruct (dx_back _ _ _ Hx oi_dag0 h n Hn) as [(n0 & Hn0 & <-)|[_ Hp]];
      apply oi_amount0; [by eapply oi_nodes0|by apply oi_pending0]. }
  rewrite Ev in Hfin. destruct (Hevm (simulated s)) as [[[[pool bal] n] hs] E']. rewrite E' in Hfin.
  destruct Hfin as (o' & r & -> & _). by eexists.
Qed.

(** Both ledgers hold the same balances. *)
Definition ledgers_agree (o : Oscillator) : Prop :=
  ∀ a b, dag_balances (dag o) !! a = Some b → units (account_balance (wave_field o) a) = b.

Lemma write_back_spec tick act l : ∀ f, NoDup l.*1 →
  (∀ a b, (a, b) ∈ l → units (account_balance (fold_left (write_back tick act) l f) a) = b)
  ∧ (∀ a, a ∉ l.*1 → account_balance (fold_left (write_back tick act) l f) a = account_balance f a).
Proof.
  induction l as [|[a b] l IH]; intros f Hnd; cbn [fold_left].
  { split; [intros a b Hin; by apply elem_of_nil in Hin|done]. }
  cbn in Hnd. apply NoDup_cons in Hnd as [Ha Hnd].
  destruct (IH (write_back tick act f (a, b)) Hnd) as [H1 H2]. split.
  - intros a' b' [[= -> ->]|Hin]%elem_of_cons; [|by apply H1]. rewrite H2 by done.
    unfold write_back. cbn [fst]. by rewrite update_balance_eq.
  - intros a' Hin. cbn in Hin. apply not_elem_of_cons in Hin as [Hne Hin]. rewrite H2 by done.
    unfold write_back. by rewrite update_balance_ne.
Qed.

(** The shifts a DAG holds are the accepted ones, before and after new insertions. *)
Lemma nodes_accepted o acc st d : osc_core o acc st →
  dag_ext (new_node (pending_stateful o)) (dag o) d →
  ∀ h n, nodes d !! h = Some n → h = ss_hash (node_shift n) ∧ node_shift n ∈ acc.
Proof.
  intros [] Hx h n Hn. destruct (dx_back _ _ _ Hx oi_dag0 h n Hn) as [(n0 & Hn0 & <-)|[-> Hp]];
    [by apply oi_nodes0|]. split; [done|by apply oi_pending0].
Qed.

Lemma applied_kept o acc st P d h : osc_core o acc st → dag_ext P (dag o) d → h ∈ st →
  ∃ n, nodes d !! h = Some n ∧ applied n = true.
Proof.
  intros [] Hx Hh. destruct (oi_applied0 h Hh) as (n & Hn & Ha).
  destruct (dx_forth _ _ _ Hx oi_dag0 h n Hn) as (n' & ? & ?). eauto.
Qed.

(** The bookkeeping of a cycle, between the prepared state [p] and the final one. *)
Lemma cycle_core o p o' acc st hs : osc_core o acc st →
  dag_ext (new_node (pending_stateful o)) (dag o) (dag p) → pending_stateful p = [] →
  ntt_engine (wave_field p) = ntt_engine (wave_field o) →
  dag_ext (λ _ _, False) (dag p) (dag o') → pending_stateful o' = pending_stateful p →
  ntt_engine (wave_field o') = ntt_engine (wave_field p) →
  (∀ h, h ∈ hs → ∃ n, nodes (dag o') !! h = Some n ∧ applied n = true) → NoDup hs →
  (∀ h, h ∈ hs → ∃ n, nodes (dag p) !! h = Some n ∧ applied n = false) →
  osc_core o' acc (st ++ hs).
Proof.
  intros Hi Hx Hp He Hx' Hp' He' Hap Hnd Hun. pose proof (nodes_accepted o acc st _ Hi Hx) as Hacc.
  pose proof (dx_reachable _ _ _ Hx (oi_dag _ _ _ Hi)) as Hr. pose proof Hi as []. split; try done.
  - by apply (dx_reachable _ _ _ Hx').
  - destruct oi_engine0 as [size Hz]. exists size. by rewrite He', He.
  - intros h m Hm. destruct (dx_back _ _ _ Hx' Hr h m Hm) as [(m0 & Hm0 & <-)|[]]. by apply Hacc.
  - intros t. rewrite Hp', Hp. by intros ?%elem_of_nil.
  - apply NoDup_app. split; [done|]. split; [|done]. intros h Hh Hh'.
    destruct (applied_kept _ _ _ _ _ h Hi Hx Hh) as (m & Hm & Ham).
    destruct (Hun h Hh') as (m' & Hm' & Ham'). congruence.
  - intros h [Hh|Hh]%elem_of_app; [|by apply Hap].
    destruct (applied_kept _ _ _ _ _ h Hi Hx Hh) as (m & Hm & Ham).
    destruct (dx_forth _ _ _ Hx' Hr h m Hm) as (m' & ? & ?). eauto.
Qed.

(** One cycle from a state that fits its history. *)
Record cycle_spec (o : Oscillator) (acc : list StatefulShift) (st : list N)
    (keys : gmap N VerifyingKey) (o' : Oscillator) (r : SynthesisResult) (hs : list N) : Prop := {
  cy_core : osc_core o' acc (st ++ hs);
  cy_signatures : seen_signatures o' = seen_signatures o;
  cy_nonces : seen_nonces o' = seen_nonces o;
  cy_signed : ∀ h, h ∈ hs → ∃ s pk, s ∈ acc ∧ ss_hash s = h ∧ keys !! ss_from s = Some pk
                                  ∧ ss_verify_signature s pk = true;
  cy_balances : final_balances r = dag_balances (dag o');
  cy_ledgers : ledgers_agree o';
}.

Lemma synthesize_step o acc st keys ts o' r hs : osc_core o acc st →
  synthesize_trace o keys ts = Some (o', r, hs) → cycle_spec o acc st keys o' r hs.
Proof.
  intros Hi Hsyn. unfold synthesize_trace in Hsyn.
  destruct (prepare_spec o keys (finalized_at ts) (oi_dag _ _ _ Hi) (oi_engine _ _ _ Hi))
    as (p & Ep & Hx & Hpend & Hsig & Hnon & Hevm & _ & Heng). rewrite Ep in Hsyn.
  cbn [mbind option_bind] in Hsyn.
  pose proof (dx_reachable _ _ _ Hx (oi_dag _ _ _ Hi)) as Hr.
  destruct (topological_order_spec _ (proj1 (dag_reachable_inv _ Hr))) as (order & Ho & _).
  rewrite Ho in Hsyn. cbn [mbind option_bind] in Hsyn.
  pose proof (nodes_accepted o acc st _ Hi Hx) as Hacc.
  destruct (finish_spec p keys (synthesis_tick o) ts order Hr Ho) as (s & _ & Hs & Hfin).
  { intros h n Hn. eapply oi_amount; [exact Hi|]. by eapply Hacc. }
  destruct (pool_synthesize _ _ _ _) as [[[[pool bal] n] ehs]|]; [|congruence].
  destruct Hfin as (o1 & r1 & Ef & Hx1 & Hap & [Q1 Q2 Q3 Q4 Q5 Q6] & Hb & Hfb & Hw).
  rewrite Ef in Hsyn. injection Hsyn as -> -> <-. cbn [pending_stateful seen_signatures seen_nonces wave_field with_evm] in *.
  split; [|congruence|congruence| |by rewrite Hfb, Hb|].
  - apply (cycle_core o _ o' acc st (settled s) Hi Hx Hpend Heng Hx1 Q1 Q6 Hap (sv_nodup _ _ _ _ Hs)).
    intros h Hh. destruct (sv_settled _ _ _ _ Hs h Hh) as [_ (m & _ & Hm & Ham & _)]. by exists m.
  - intros h Hh. destruct (sv_settled _ _ _ _ Hs h Hh) as [_ (m & pk & Hm & _ & _ & Hk & Hv)].
    destruct (Hacc h m Hm) as [Eh Hin]. exists (node_shift m), pk. by split_and!.
  - intros a b Hab. rewrite Hw. rewrite Hb in Hab.
    apply (write_back_spec _ _ (hm_iter bal)); [apply hm_keys_NoDup|by apply elem_of_hm_iter].
Qed.

(** Every operation keeps the state fitting its history, and the guards above it. *)
Lemma core_step o acc st ac hs o' : osc_core o acc st → osc_step o ac hs o' →
  osc_core o' (acc ++ ac) (st ++ hs).
Proof.
  intros Hi Hstep.
  destruct Hstep as [kp|s now|s|r|a n|a|p a|c keys|tx now|a|p| |keys ts o' r hs Hs];
    rewrite ?app_nil_r.
  - apply (core_frame o); [by apply osc_frame_same|done].
  - destruct (ingest_cases o s now) as [Hf|[t Ht]].
    + rewrite frame_enqueued, app_nil_r by done. by eapply core_frame.
    + rewrite (accepts_enqueued _ _ t) by done. by eapply accept_core.
  - by eapply core_frame; [apply stake_frame|].
  - by eapply core_frame; [apply registration_frame|].
  - by eapply core_frame; [apply seed_frame|].
  - apply (core_frame o); [by apply osc_frame_same|done].
  - by eapply core_frame; [apply domain_frame|].
  - by eapply core_frame; [apply certificate_frame|].
  - apply (core_frame o); [by apply osc_frame_same|done].
  - apply (core_frame o); [by apply osc_frame_same|done].
  - apply (core_frame o); [by apply osc_frame_same|done].
  - apply (core_frame o); [by apply osc_frame_same|done].
  - by eapply cy_core, synthesize_step.
Qed.

Lemma guard_step o acc st ac hs o' : osc_core o acc st → osc_guard o acc → osc_step o ac hs o' →
  osc_guard o' (acc ++ ac).
Proof.
  intros Hi Hg Hstep.
  destruct Hstep as [kp|s now|s|r|a n|a|p a|c keys|tx now|a|p| |keys ts o' r hs Hs];
    rewrite ?app_nil_r.
  - apply (guard_frame o); [by apply osc_frame_same|done].
  - destruct (ingest_cases o s now) as [Hf|[t Ht]].
    + rewrite frame_enqueued, app_nil_r by done. by eapply guard_frame.
    + rewrite (accepts_enqueued _ _ t) by done. by eapply accept_guard.
  - by eapply guard_frame; [apply stake_frame|].
  - by eapply guard_frame; [apply registration_frame|].
  - by eapply guard_frame; [apply seed_frame|].
  - apply (guard_frame o); [by apply osc_frame_same|done].
  - by eapply guard_frame; [apply domain_frame|].
  - by eapply guard_frame; [apply certificate_frame|].
  - apply (guard_frame o); [by apply osc_frame_same|done].
  - apply (guard_frame o); [by apply osc_frame_same|done].
  - apply (guard_frame o); [by apply osc_frame_same|done].
  - apply (guard_frame o); [by apply osc_frame_same|done].
  - destruct (synthesize_step _ _ _ _ _ _ _ _ Hi Hs) as [_ Es En _ _ _]. destruct Hg.
    split; rewrite ?Es, ?En; done.
Qed.

Lemma boot_inv o : booted o → osc_core o [] [] ∧ osc_guard o [].
Proof.
  assert (H0 : ∀ id size kp o, osc_new id size kp = Some o → osc_core o [] [] ∧ osc_guard o []).
  { unfold osc_new, field_new. intros id size kp o' Ho. destruct (_ && _); [|done].
    destruct (Ntt.engine_new size) as [e|] eqn:He; [|done]. cbn in Ho. injection Ho as <-.
    split; split; unfold nonces_in; cbn; try (by constructor); try (by intros ? ?%elem_of_nil).
    - by exists size.
    - by intros a d n ?%elem_of_nil. }
  intros [id size kp o' Ho|id size kp t o' Ho]; [by eapply H0|].
  unfold osc_new_with_stake in Ho. destruct (osc_new id size kp) as [o1|] eqn:H1; [|done].
  cbn in Ho. injection Ho as <-. destruct (H0 _ _ _ _ H1).
  split; [apply (core_frame o1)|apply (guard_frame o1)]; try done; by apply osc_frame_same.
Qed.

Lemma osc_run_inv o acc st : osc_run o acc st → osc_core o acc st ∧ osc_guard o acc.
Proof.
  induction 1 as [o Ho|o acc st ac hs o' _ [Hi Hg] Hs]; [by apply boot_inv|].
  split; [by eapply core_step|by eapply guard_step].
Qed.

(** ** Properties of every reachable node *)

(** C1: replay protection and exactly-once settlement. In every history of a node: the
    shifts it accepts from one sender in one domain carry strictly increasing nonces and
    no signature is accepted twice; everything queued or in the DAG was accepted; no
    transfer is settled twice, not even across cycles, and what was settled is an
    accepted shift that the DAG holds as applied. *)
Theorem settled_exactly_once o acc st : osc_run o acc st →
  (∀ a d, StronglySorted N.lt (nonces_in a d acc))
  ∧ NoDup (map ss_signature acc)
  ∧ (∀ s, s ∈ pending_stateful o → s ∈ acc)
  ∧ (∀ h n, nodes (dag o) !! h = Some n → h = ss_hash (node_shift n) ∧ node_shift n ∈ acc)
  ∧ NoDup st
  ∧ (∀ h, h ∈ st → ∃ n, nodes (dag o) !! h = Some n ∧ applied n = true).
Proof. intros [[] []]%osc_run_inv. by split_and!. Qed.


End machine.

(** ** A concrete history *)

Section sample.
Local Existing Instance lawful_crypto.
Local Existing Instance plain_ethers.
Local Existing Instance transfer_vm.
Local Existing Instance map_order.

Definition sample_transfer : StatefulShift :=
  ss_new alice DEFAULT_DEX_DOMAIN (account_id bob) 100 {[ account_id alice := 1 ]} [] 1 5.
Definition sample_keys : gmap N VerifyingKey := {[ account_id alice := public_key alice ]}.

(** A node with two funded accounts that accepted one transfer. *)
Definition sample_node : option Oscillator :=
  o ← sample_osc; Some (ingest o (SigStateful sample_transfer) 8).1.

Lemma sample_osc_run o : sample_osc = Some o → osc_run o [] [].
Proof.
  unfold sample_osc. intros (o1 & H1 & Eo)%bind_Some. apply (inj Some) in Eo as <-.
  refine (or_step _ [] [] [] [] _ (or_step _ [] [] [] [] _ (or_boot _ (boot_new _ _ _ _ H1)) _) _);
    apply os_seed.
Qed.

Lemma sample_node_run o : sample_node = Some o → ∃ acc, osc_run o acc [].
Proof.
  unfold sample_node. intros (o1 & H1 & Eo)%bind_Some. apply (inj Some) in Eo as <-.
  eexists. refine (or_step _ [] [] _ [] _ (sample_osc_run _ H1) _). apply os_ingest.
Qed.

(** The transfer settles in the next cycle, and only there; the cycle after it decays. *)
Example sample_cycles :
  (λ o, '(o, r, hs) ← synthesize_trace o sample_keys 9;
        '(o', r', hs') ← synthesize_trace o sample_keys 10;
        Some (hs, hs', final_balances r !! account_id alice, final_balances r' !! account_id bob))
    <$> sample_node
  = Some (Some ([ss_hash sample_transfer], [], Some 900, Some 599)).
Proof. vm_compute. reflexivity. Qed.

Definition settles (o : Oscillator) : bool :=
  match synthesize_trace o sample_keys 9 with
  | Some (_, _, hs) => bool_decide (hs = [ss_hash sample_transfer])
  | None => false
  end.

Lemma settled_exactly_once_witness :
  ∃ o acc, osc_run o acc [ss_hash sample_transfer] ∧ NoDup (map ss_signature acc).
Proof.
  assert (Hs : settles <$> sample_node = Some true) by (vm_compute; reflexivity).
  destruct (checked_option _ _ Hs) as (o & Ho & Hc).
  destruct (sample_node_run o Ho) as [acc Hr]. unfold settles in Hc.
  destruct (synthesize_trace o sample_keys 9) as [[[o' r] hs]|] eqn:Es; [|discriminate Hc].
  apply bool_decide_eq_true_1 in Hc. pose proof (or_step _ _ _ _ _ _ Hr (os_synthesize _ _ _ _ _ _ Es)) as Hr'.
  rewrite Hc, app_nil_r in Hr'. exists o', acc. split; [exact Hr'|].
  exact (proj1 (proj2 (settled_exactly_once o' acc _ Hr'))).
Defined.

Definition evm_idle (o : Oscillator) : bool :=
  match pending (evm_pool o) with [] => true | _ => false end.


(** [fees_ok] as a check over the table. *)
Definition fees_checked (reg : DomainRegistry) : bool :=
  forallb (λ kp, match fee_policy kp.2 with Percentage bp => bp <=? 10000 | _ => true end)
          (map_to_list reg).

Lemma fees_checked_ok reg : fees_checked reg = true → fees_ok reg.
Proof.
  unfold fees_checked. rewrite forallb_forall. intros Hall d p bp Hp Hf.
  specialize (Hall (d, p)). cbn in Hall. rewrite Hf in Hall.
  apply N.leb_le, Hall, list_elem_of_In, elem_of_map_to_list, Hp.
Qed.

Definition prepares (o : Oscillator) : bool :=
  match prepare_cycle o sample_keys 9 with
  | Some p =>
      match topological_order (dag (pr_osc p)) with
      | Some (Ok order) =>
          bool_decide (order = [ss_hash sample_transfer])
          && bool_decide (msum (dag_balances (dag (pr_osc p))) = 1500)
      | _ => false
      end
  | None => false
  end && fees_checked (domain_registry o).


(** A policy may charge more than the whole amount: the constructor accepts any number of
    basis points, and the subtraction of the fee wraps around. *)
Definition double_fee_policy : result policy_error DomainPolicy :=
  policy_new DEFAULT_DEX_DOMAIN true true Causal 1 1 (Percentage 20000).

Example percentage_fee_wraps :
  match double_fee_policy with
  | Ok p => compute_signal_fee (register registry_new p) sample_transfer = Ok (200, 2 ^ 128 - 100)
  | Err _ => False
  end.
Proof. vm_compute. reflexivity. Qed.
End sample.
