(* ===== verification/Network.v ===== *)
(** * Network buffers and framing
    (src/src/network/buffer.rs, src/src/network/node.rs, src/src/network/tcp_gossip.rs)

    The ring buffer behind the in-process node, length-prefixed packets, and the readers
    and the fan-out of the TCP gossip.  The codec (crate [bincode]) is a parameter; a TCP
    stream is the list of chunks its reads return.  Proved: the ring buffer implements a
    bounded FIFO queue; a packet written to it is read back; what a gossip connection
    delivers depends on the bytes alone, not on how the stream was cut into reads, and is
    what the peer sent; nothing is delivered before authentication.  The tasks around
    the connections, and the in-process node, are in Gossip. *)
From S2P Require Import Prelude Bytes Crypto Signals.

(** ** buffer.rs *)

Record RingBuffer := {
  rb_buf : bytes;
  rb_capacity : nat;
  rb_head : nat;
  rb_tail : nat;
  rb_len : nat;
}.

Definition rb_new (capacity : nat) : RingBuffer :=
  {| rb_buf := []; rb_capacity := capacity; rb_head := 0; rb_tail := 0; rb_len := 0 |}.

Definition rb_is_empty (b : RingBuffer) : bool := (rb_len b =? 0)%nat.
Definition rb_is_full (b : RingBuffer) : bool := (rb_len b =? rb_capacity b)%nat.

(** [x % capacity], which panics on a buffer without capacity. *)
Definition checked_mod (x capacity : nat) : option nat :=
  if (capacity =? 0)%nat then None else Some (x mod capacity).

(** [Vec::resize(n, 0)] *)
Definition resized (n : nat) (l : bytes) : bytes := resize n x00 l.

(** One byte of the copy loop; [None] is an index out of range. *)
Definition put_byte (capacity tail : nat) (buf : bytes) (ib : nat * byte) : option bytes :=
  idx ← checked_mod (tail + ib.1) capacity;
  if (idx <? length buf)%nat then Some (<[idx := ib.2]> buf) else None.

Definition rb_write (b : RingBuffer) (data : bytes) : option (RingBuffer * nat) :=
  let to_write := Nat.min (length data) (rb_capacity b - rb_len b) in
  buf ← fold_opt (put_byte (rb_capacity b) (rb_tail b))
          (combine (seq 0 to_write) (take to_write data)) (resized (rb_capacity b) (rb_buf b));
  tail ← checked_mod (rb_tail b + to_write) (rb_capacity b);
  Some ({| rb_buf := buf; rb_capacity := rb_capacity b; rb_head := rb_head b; rb_tail := tail;
           rb_len := rb_len b + to_write |}, to_write).

Definition get_byte (b : RingBuffer) (i : nat) : option byte :=
  idx ← checked_mod (rb_head b + i) (rb_capacity b); rb_buf b !! idx.

Definition rb_peek (b : RingBuffer) (max : nat) : option bytes :=
  mapM (get_byte b) (seq 0 (Nat.min max (rb_len b))).

Definition rb_consume (b : RingBuffer) (n : nat) : option RingBuffer :=
  let consumed := Nat.min n (rb_len b) in
  head ← checked_mod (rb_head b + consumed) (rb_capacity b);
  Some {| rb_buf := rb_buf b; rb_capacity := rb_capacity b; rb_head := head; rb_tail := rb_tail b;
          rb_len := rb_len b - consumed |}.

Definition rb_read_chunk (b : RingBuffer) (max : nat) : option (RingBuffer * bytes) :=
  data ← rb_peek b max;
  b ← rb_consume b (length data);
  Some (b, data).

(** *** The bounded queue it implements *)

(** [q] is the content of [b]: the [len] bytes from the head on, around the end. *)
Record rb_holds (b : RingBuffer) (q : bytes) : Prop := {
  rh_cap : (0 < rb_capacity b)%nat;
  rh_len : length q = rb_len b;
  rh_bound : (rb_len b ≤ rb_capacity b)%nat;
  rh_head : (rb_head b < rb_capacity b)%nat;
  rh_tail : rb_tail b = (rb_head b + rb_len b) mod rb_capacity b;
  rh_buf : rb_len b = 0%nat ∨ length (rb_buf b) = rb_capacity b;
  rh_get : ∀ i, (i < rb_len b)%nat → rb_buf b !! ((rb_head b + i) mod rb_capacity b) = q !! i;
}.

Inductive rb_op := Write (data : bytes) | Peek (max : nat) | Consume (n : nat) | ReadChunk (max : nat).
Inductive rb_out := Wrote (n : nat) | Bytes (data : bytes) | Done.

Definition rb_step (b : RingBuffer) (o : rb_op) : option (RingBuffer * rb_out) :=
  match o with
  | Write data => bn ← rb_write b data; Some (bn.1, Wrote bn.2)
  | Peek max => data ← rb_peek b max; Some (b, Bytes data)
  | Consume n => b ← rb_consume b n; Some (b, Done)
  | ReadChunk max => bd ← rb_read_chunk b max; Some (bd.1, Bytes bd.2)
  end.

(** The specification: a queue that takes what fits. *)
Definition fifo_step (capacity : nat) (q : bytes) (o : rb_op) : bytes * rb_out :=
  match o with
  | Write data => (q ++ take (capacity - length q) data, Wrote (Nat.min (length data) (capacity - length q)))
  | Peek max => (q, Bytes (take max q))
  | Consume n => (drop n q, Done)
  | ReadChunk max => (drop max q, Bytes (take max q))
  end.

Fixpoint rb_run (b : RingBuffer) (ops : list rb_op) : option (RingBuffer * list rb_out) :=
  match ops with
  | [] => Some (b, [])
  | o :: ops =>
      bo ← rb_step b o;
      bos ← rb_run bo.1 ops;
      Some (bos.1, bo.2 :: bos.2)
  end.

Fixpoint fifo_run (capacity : nat) (q : bytes) (ops : list rb_op) : bytes * list rb_out :=
  match ops with
  | [] => (q, [])
  | o :: ops =>
      let '(q, out) := fifo_step capacity q o in
      let '(q, outs) := fifo_run capacity q ops in (q, out :: outs)
  end.

Lemma checked_mod_pos x c : (0 < c)%nat → checked_mod x c = Some (x mod c).
Proof. unfold checked_mod. destruct (Nat.eqb_spec c 0); [lia|done]. Qed.

(** Positions less than a capacity apart do not collide. *)
Lemma mod_apart c x i j : (i < c)%nat → (j < c)%nat → (x + i) mod c = (x + j) mod c → i = j.
Proof.
  intros Hi Hj E. pose proof (Nat.div_mod_eq (x + i) c). pose proof (Nat.div_mod_eq (x + j) c).
  assert (Hq : ((x + i) / c = (x + j) / c)%nat) by nia. nia.
Qed.

(** The copy loop writes [data] from [tail] on and keeps every other position. *)
Lemma put_bytes_spec c tail data : ∀ k buf, (0 < c)%nat → length buf = c → (k + length data ≤ c)%nat →
  ∃ buf', fold_opt (put_byte c tail) (combine (seq k (length data)) data) buf = Some buf'
    ∧ length buf' = c
    ∧ (∀ i, (i < length data)%nat → buf' !! ((tail + (k + i)) mod c) = data !! i)
    ∧ (∀ p, (∀ i, (i < length data)%nat → p ≠ (tail + (k + i)) mod c) → buf' !! p = buf !! p).
Proof.
  induction data as [|x data IH]; intros k buf Hc Hl Hk; cbn [length seq combine fold_opt].
  { exists buf. split_and!; [done|done| |done]. intros i Hi. cbn in Hi. lia. }
  cbn in Hk. unfold put_byte at 2. cbn [fst snd]. rewrite checked_mod_pos by done. cbn [mbind option_bind].
  pose proof (Nat.mod_upper_bound (tail + k) c ltac:(lia)) as Hm.
  destruct (Nat.ltb_spec ((tail + k) mod c) (length buf)); [|lia]. cbn [mbind option_bind].
  destruct (IH (S k) (<[(tail + k) mod c := x]> buf) Hc) as (buf' & -> & Hl' & Hin & Hout);
    [by rewrite length_insert|lia|].
  exists buf'. split_and!; [done|done| |].
  - intros [|i] Hi; cbn in Hi.
    + rewrite Nat.add_0_r, Hout; [by rewrite list_lookup_insert_eq by lia|].
      intros i Hi' E. apply mod_apart in E; lia.
    + replace (tail + (k + S i))%nat with (tail + (S k + i))%nat by lia. rewrite Hin by lia. done.
  - intros p Hp. rewrite Hout.
    + rewrite list_lookup_insert_ne; [done|]. intros E. apply (Hp 0%nat); [cbn; lia|].
      by rewrite Nat.add_0_r, E.
    + intros i Hi. replace (tail + (S k + i))%nat with (tail + (k + S i))%nat by lia. apply Hp. cbn. lia.
Qed.

Lemma rb_peek_spec b q max : rb_holds b q → rb_peek b max = Some (take max q).
Proof.
  intros [Hc Hl Hb Hh Ht Hbuf Hget]. unfold rb_peek. apply mapM_Some. apply Forall2_same_length_lookup_2.
  { rewrite length_seq, length_take. lia. }
  intros i x y Hx Hy. apply lookup_seq in Hx as [-> Hi]. cbn in *.
  rewrite lookup_take_Some in Hy. destruct Hy as [Hy _]. unfold get_byte.
  rewrite checked_mod_pos by done. cbn. rewrite <- Hy. apply Hget. lia.
Qed.

Lemma rb_consume_spec b q n : rb_holds b q →
  ∃ b', rb_consume b n = Some b' ∧ rb_holds b' (drop n q) ∧ rb_capacity b' = rb_capacity b.
Proof.
  intros [Hc Hl Hb Hh Ht Hbuf Hget]. unfold rb_consume. rewrite checked_mod_pos by done. cbn.
  eexists. split; [done|]. set (k := Nat.min n (rb_len b)). split; [|done].
  assert (Hadd : ∀ i, ((rb_head b + k) mod rb_capacity b + i) mod rb_capacity b
                      = (rb_head b + (k + i)) mod rb_capacity b).
  { intros i. rewrite Nat.Div0.add_mod_idemp_l. f_equal. lia. }
  split; cbn; [done|rewrite length_drop; lia|lia|apply Nat.mod_upper_bound; lia| |lia|].
  - rewrite Hadd, Ht. f_equal. lia.
  - intros i Hi. rewrite Hadd, lookup_drop. rewrite Hget by lia. f_equal. lia.
Qed.

Lemma rb_write_spec b q data : rb_holds b q →
  ∃ b', rb_write b data = Some (b', Nat.min (length data) (rb_capacity b - length q))
    ∧ rb_holds b' (q ++ take (rb_capacity b - length q) data) ∧ rb_capacity b' = rb_capacity b.
Proof.
  intros [Hc Hl Hb Hh Ht Hbuf Hget]. unfold rb_write. rewrite Hl.
  set (c := rb_capacity b) in *. set (w := Nat.min (length data) (c - rb_len b)).
  assert (Et : take w data = take (c - rb_len b) data).
  { unfold w. destruct (Nat.le_ge_cases (length data) (c - rb_len b)).
    - rewrite Nat.min_l, !take_ge by lia. done.
    - by rewrite Nat.min_r by lia. }
  assert (Hw : length (take w data) = w) by (rewrite length_take; lia).
  destruct (put_bytes_spec c (rb_tail b) (take w data) 0 (resized c (rb_buf b)) Hc)
    as (buf' & E & Hl' & Hin & Hout); [apply length_resize|lia|].
  rewrite Hw in E. rewrite E. cbn [mbind option_bind]. rewrite checked_mod_pos by done. cbn [mbind option_bind].
  eexists. split; [done|]. split; [|done]. rewrite <- Et. rewrite Hw in Hin, Hout.
  assert (Htail : ∀ i, (rb_tail b + i) mod c = (rb_head b + (rb_len b + i)) mod c).
  { intros i. rewrite Ht, Nat.Div0.add_mod_idemp_l. f_equal. lia. }
  split; cbn; fold c.
  - done.
  - rewrite length_app, Hw. lia.
  - lia.
  - done.
  - by rewrite Htail.
  - by right.
  - intros i Hi. destruct (Nat.lt_ge_cases i (rb_len b)) as [Hlt|Hge].
    + rewrite lookup_app_l by lia. rewrite Hout.
      * rewrite <- Hget by done. unfold resized. destruct Hbuf as [|Hbuf]; [lia|].
        rewrite resize_all_alt by lia. done.
      * intros j Hj. cbn. rewrite Htail. intros E'. apply mod_apart in E'; lia.
    + rewrite lookup_app_r by lia. rewrite Hl.
      pose proof (Hin (i - rb_len b)%nat ltac:(lia)) as Ei. rewrite Nat.add_0_l, Htail in Ei.
      by replace (rb_len b + (i - rb_len b))%nat with i in Ei by lia.
Qed.

Lemma rb_new_holds c : (0 < c)%nat → rb_holds (rb_new c) [].
Proof. intros Hc. split; cbn; try lia; try done. by rewrite Nat.Div0.mod_0_l. Qed.

(** Each operation simulates the queue's. *)
Lemma rb_step_refines b q o : rb_holds b q →
  ∃ b', rb_step b o = Some (b', (fifo_step (rb_capacity b) q o).2)
    ∧ rb_holds b' (fifo_step (rb_capacity b) q o).1 ∧ rb_capacity b' = rb_capacity b.
Proof.
  intros Hb. destruct o as [data|max|n|max]; cbn [rb_step fifo_step fst snd].
  - destruct (rb_write_spec b q data Hb) as (b' & -> & ? & ?). by eexists.
  - rewrite (rb_peek_spec b q max Hb). by eexists.
  - destruct (rb_consume_spec b q n Hb) as (b' & -> & ? & ?). by eexists.
  - unfold rb_read_chunk. rewrite (rb_peek_spec b q max Hb). cbn [mbind option_bind].
    destruct (rb_consume_spec b q (length (take max q)) Hb) as (b' & -> & Hb' & ?). cbn.
    eexists. split; [done|]. split; [|done]. rewrite length_take in Hb'.
    destruct (Nat.le_ge_cases max (length q)); [by rewrite Nat.min_l in Hb'|].
    rewrite Nat.min_r in Hb' by done. rewrite drop_ge in Hb' by done. by rewrite drop_ge.
Qed.

(** C31: the ring buffer refines a bounded FIFO queue. Whatever operations are performed on
    a new buffer of positive capacity, none panics, every result is the one the queue
    gives (a write takes exactly what fits), and the bytes it holds are the queue's. *)
Theorem ring_refines_fifo capacity ops : (0 < capacity)%nat →
  ∃ b, rb_run (rb_new capacity) ops = Some (b, (fifo_run capacity [] ops).2)
    ∧ rb_holds b (fifo_run capacity [] ops).1.
Proof.
  intros Hc. pose proof (rb_new_holds capacity Hc) as Hh. revert Hh.
  assert (Ecap : rb_capacity (rb_new capacity) = capacity) by done. revert Ecap.
  generalize (rb_new capacity) as b. generalize (@nil byte) as q.
  induction ops as [|o ops IH]; intros q b Ecap Hh; cbn [rb_run fifo_run]; [by exists b|].
  destruct (rb_step_refines b q o Hh) as (b1 & -> & Hh1 & Ec1). rewrite Ecap in *. cbn [mbind option_bind fst snd].
  destruct (fifo_step capacity q o) as [q1 out]. cbn [fst snd] in *.
  destruct (IH q1 b1 Ec1 Hh1) as (b2 & -> & Hh2). cbn [mbind option_bind fst snd].
  destruct (fifo_run capacity q1 ops) as [q2 outs]. by exists b2.
Qed.

(** ** node.rs *)

(** [bincode]: serialization of signals, and what framing relies on. *)
Class Codec := {
  CodecError : Type;
  serialize : Signal → result CodecError bytes;
  deserialize : bytes → result CodecError Signal;
}.
Class CodecLaws (K : Codec) :=
  deserialize_serialize : ∀ s bs, serialize s = Ok bs → deserialize bs = Ok s.

Section framing.
Context {K : Codec}.

Definition MAX_SHIFT_SIZE : nat := 8 * 1024.

Inductive node_error := SerializeError (e : CodecError) | PacketTooLarge | Oversized (len : nat)
  | DeserializeError (e : CodecError).

(** [u32::from_le_bytes] of the first four bytes. *)
Definition frame_len (header : bytes) : nat := N.to_nat (of_le (take 4 header)).

Definition frame (body : bytes) : bytes := u32_le (N.of_nat (length body)) ++ body.

(** [encode_packet]; the length is cut to 32 bits. *)
Definition encode_packet (s : Signal) : result node_error bytes :=
  match serialize s with
  | Err e => Err (SerializeError e)
  | Ok body => Ok (frame body)
  end.

(** What [broadcast] puts on the peers' channels: the body without a length prefix. *)
Definition broadcast_payload (s : Signal) : result node_error bytes :=
  match serialize s with
  | Err e => Err (SerializeError e)
  | Ok encoded => if (MAX_SHIFT_SIZE <? length encoded)%nat then Err PacketTooLarge else Ok encoded
  end.

(** [run]: incoming packets go to the ring buffer; what does not fit is lost. *)
Definition receive (b : RingBuffer) (packets : list bytes) : option RingBuffer :=
  fold_opt (λ b p, bn ← rb_write b p; Some bn.1) packets b.

Definition next_shift (b : RingBuffer) : option (RingBuffer * result node_error (option Signal)) :=
  if (rb_len b <? 4)%nat then Some (b, Ok None)
  else
    header ← rb_peek b 4;
    let len := frame_len header in
    if (MAX_SHIFT_SIZE <? len)%nat then Some (b, Err (Oversized len))
    else if (rb_len b <? 4 + len)%nat then Some (b, Ok None)
    else
      b ← rb_consume b 4;
      bp ← rb_read_chunk b len;
      Some (bp.1, match deserialize bp.2 with
                  | Err e => Err (DeserializeError e)
                  | Ok s => Ok (Some s)
                  end).

(** The queue-level reading of one packet. *)
Lemma next_shift_spec b q : rb_holds b q →
  ∃ b', next_shift b = Some (b',
    if (length q <? 4)%nat then Ok None
    else if (MAX_SHIFT_SIZE <? frame_len q)%nat then Err (Oversized (frame_len q))
    else if (length q <? 4 + frame_len q)%nat then Ok None
    else match deserialize (take (frame_len q) (drop 4 q)) with
         | Err e => Err (DeserializeError e)
         | Ok s => Ok (Some s)
         end)
  ∧ rb_holds b' (if (length q <? 4)%nat || (MAX_SHIFT_SIZE <? frame_len q)%nat
                    || (length q <? 4 + frame_len q)%nat then q
                 else drop (4 + frame_len q) q).
Proof.
  intros Hb. pose proof (rh_len _ _ Hb) as Hl. unfold next_shift. rewrite Hl.
  destruct (Nat.ltb_spec (rb_len b) 4); [by exists b|]. cbn [orb].
  rewrite (rb_peek_spec b q 4 Hb). cbn [mbind option_bind].
  assert (Ef : frame_len (take 4 q) = frame_len q) by (unfold frame_len; by rewrite take_take).
  rewrite Ef. destruct (MAX_SHIFT_SIZE <? frame_len q)%nat; [by exists b|]. cbn [orb].
  destruct (Nat.ltb_spec (rb_len b) (4 + frame_len q)); [by exists b|].
  destruct (rb_consume_spec b q 4 Hb) as (b1 & -> & Hb1 & _). cbn [mbind option_bind].
  unfold rb_read_chunk. rewrite (rb_peek_spec b1 _ _ Hb1). cbn [mbind option_bind].
  destruct (rb_consume_spec b1 _ (length (take (frame_len q) (drop 4 q))) Hb1) as (b2 & -> & Hb2 & _).
  cbn [mbind option_bind fst snd]. eexists. split; [done|].
  rewrite length_take, length_drop, Nat.min_l, drop_drop in Hb2 by lia. exact Hb2.
Qed.

Lemma frame_len_frame body rest : (N.of_nat (length body) < 2 ^ 32)%N → frame_len (frame body ++ rest) = length body.
Proof.
  intros Hb. unfold frame_len, frame. rewrite <- app_assoc, take_app_length' by by rewrite length_u32_le.
  unfold u32_le. rewrite of_le_le_bytes, N.mod_small; [lia|].
  change (256 ^ N.of_nat 4)%N with (2 ^ 32)%N. done.
Qed.

Lemma length_frame body : length (frame body) = (4 + length body)%nat.
Proof. unfold frame. by rewrite length_app, length_u32_le. Qed.

Lemma frame_body body rest : take (length body) (drop 4 (frame body ++ rest)) = body.
Proof.
  unfold frame. rewrite <- app_assoc, drop_app_length' by by rewrite length_u32_le.
  by rewrite take_app_length.
Qed.

(** C32: packets through the in-process node. A packet that [encode_packet] built for a
    signal of at most 8 KiB is, once it is at the front of the ingress buffer, returned by
    [next_shift] as that signal, whatever follows it, and exactly its bytes are consumed;
    an incomplete packet is left in place for later; and a packet whose length prefix is
    over the limit is reported and stays in the buffer, so that every further call reports
    it again. *)
Theorem next_shift_roundtrip {L : CodecLaws K} b q : rb_holds b q →
  (∀ s body rest, serialize s = Ok body → q = frame body ++ rest → (length body ≤ MAX_SHIFT_SIZE)%nat →
     encode_packet s = Ok (frame body)
     ∧ ∃ b', next_shift b = Some (b', Ok (Some s)) ∧ rb_holds b' rest)
  ∧ (∀ body, (length body ≤ MAX_SHIFT_SIZE)%nat → (length q < length (frame body))%nat →
     q = take (length q) (frame body) → next_shift b = Some (b, Ok None))
  ∧ ((4 ≤ length q)%nat → (MAX_SHIFT_SIZE < frame_len q)%nat →
     next_shift b = Some (b, Err (Oversized (frame_len q)))).
Proof.
  intros Hb. assert (Hmax : (N.of_nat MAX_SHIFT_SIZE < 2 ^ 32)%N) by done.
  pose proof (rh_len _ _ Hb) as Hl. split_and!.
  - intros s body rest Hs -> Hlen. unfold encode_packet. rewrite Hs. split; [done|].
    destruct (next_shift_spec b _ Hb) as (b' & -> & Hb'). exists b'.
    rewrite !frame_len_frame, !length_app, length_frame, frame_body in * by lia.
    destruct (Nat.ltb_spec (4 + length body + length rest) 4); [lia|].
    destruct (Nat.ltb_spec MAX_SHIFT_SIZE (length body)); [lia|].
    destruct (Nat.ltb_spec (4 + length body + length rest) (4 + length body)); [lia|]. cbn [orb] in Hb'.
    rewrite (deserialize_serialize _ _ Hs). split; [done|].
    by rewrite drop_app_length' in Hb' by by rewrite length_frame.
  - intros body Hlen Hlt Hq. unfold next_shift. rewrite <- Hl. destruct (Nat.ltb_spec (length q) 4); [done|].
    rewrite (rb_peek_spec b q 4 Hb). cbn [mbind option_bind].
    assert (Ef : frame_len (take 4 q) = length body).
    { rewrite Hq, take_take, Nat.min_l by lia. rewrite <- (frame_len_frame body []) by lia.
      rewrite app_nil_r. unfold frame_len. by rewrite take_take. }
    rewrite Ef. destruct (Nat.ltb_spec MAX_SHIFT_SIZE (length body)); [lia|].
    rewrite length_frame in Hlt. destruct (Nat.ltb_spec (length q) (4 + length body)); [done|lia].
  - intros H4 Hov. unfold next_shift. rewrite <- Hl. destruct (Nat.ltb_spec (length q) 4); [lia|].
    rewrite (rb_peek_spec b q 4 Hb). cbn [mbind option_bind].
    assert (frame_len (take 4 q) = frame_len q) as -> by (unfold frame_len; by rewrite take_take).
    destruct (Nat.ltb_spec MAX_SHIFT_SIZE (frame_len q)); [done|lia].
Qed.
End framing.

(** ** tcp_gossip.rs: reading a connection *)

Section gossip.
Context {C : Crypto} {K : Codec}.

Definition AUTH_CHALLENGE : bytes := ascii "fluidic:gossip:auth:v1".
Definition MAX_PACKET_SIZE : nat := 64 * 1024.

Definition auth_proof (psk : N) : N := blake3_keyed psk AUTH_CHALLENGE.

(** [while buf.len() < n { read_buf }]: a read of zero bytes, or a failed one, is the end of
    the connection. *)
Fixpoint fill (n : nat) (buf : bytes) (chunks : list bytes) : option (bytes * list bytes) :=
  if (length buf <? n)%nat then
    match chunks with
    | [] => None
    | c :: chunks => match c with [] => None | _ => fill n (buf ++ c) chunks end
    end
  else Some (buf, chunks).

Inductive packet_read :=
  | Disconnected
  | OversizedPacket (len : nat)
  | Payload (payload buf : bytes) (chunks : list bytes).

(** The common part of [read_one_signal] and of a turn of [read_loop]. *)
Definition read_packet (buf : bytes) (chunks : list bytes) : packet_read :=
  match fill 4 buf chunks with
  | None => Disconnected
  | Some (buf, chunks) =>
      let len := frame_len buf in
      let buf := drop 4 buf in
      if (MAX_PACKET_SIZE <? len)%nat then OversizedPacket len
      else
        match fill len buf chunks with
        | None => Disconnected
        | Some (buf, chunks) => Payload (take len buf) (drop len buf) chunks
        end
  end.

(** [read_one_signal]: the signal and the reads that are left; the bytes that were read
    beyond the packet are dropped with the function's buffer. *)
Definition read_one_signal (chunks : list bytes) : option (Signal * list bytes) :=
  match read_packet [] chunks with
  | Payload payload _ chunks =>
      match deserialize payload with Ok s => Some (s, chunks) | Err _ => None end
  | _ => None
  end.

Inductive stream_end := EndDisconnected | EndOversized (len : nat).

(** [read_loop]: the signals forwarded, and why the loop ended; the receiver is alive.
    [None] is the end of the fuel. *)
Fixpoint read_loop_fuel (fuel : nat) (buf : bytes) (chunks : list bytes)
    : option (list Signal * stream_end) :=
  match fuel with
  | O => None
  | S fuel =>
      match read_packet buf chunks with
      | Disconnected => Some ([], EndDisconnected)
      | OversizedPacket len => Some ([], EndOversized len)
      | Payload payload buf chunks =>
          r ← read_loop_fuel fuel buf chunks;
          Some (match deserialize payload with Ok s => (s :: r.1, r.2) | Err _ => r end)
      end
  end.

(** Every packet takes at least four bytes off the stream. *)
Definition read_loop (chunks : list bytes) : option (list Signal * stream_end) :=
  read_loop_fuel (S (length (concat chunks))) [] chunks.

(** [handshake_inbound]: whether the connection was registered for writing, and what it
    delivered. *)
Definition handshake_inbound (expected_proof : N) (chunks : list bytes)
    : option (bool * list Signal) :=
  match read_one_signal chunks with
  | Some (SigAuth proof, chunks) =>
      if negb (proof =? expected_proof)%N then Some (false, [])
      else r ← read_loop chunks; Some (true, r.1)
  | _ => Some (false, [])
  end.

(** An accepted connection. *)
Definition accept_inbound (psk : option N) (chunks : list bytes) : option (bool * list Signal) :=
  match psk with
  | Some key => handshake_inbound (auth_proof key) chunks
  | None => r ← read_loop chunks; Some (true, r.1)
  end.

(** *** The reference: packets of a byte sequence *)

Fixpoint parse_packets (fuel : nat) (q : bytes) : list Signal * stream_end :=
  match fuel with
  | O => ([], EndDisconnected)
  | S fuel =>
      if (length q <? 4)%nat then ([], EndDisconnected)
      else if (MAX_PACKET_SIZE <? frame_len q)%nat then ([], EndOversized (frame_len q))
      else if (length q <? 4 + frame_len q)%nat then ([], EndDisconnected)
      else
        let r := parse_packets fuel (drop (4 + frame_len q) q) in
        match deserialize (take (frame_len q) (drop 4 q)) with
        | Ok s => (s :: r.1, r.2)
        | Err _ => r
        end
  end.

Definition parse (q : bytes) : list Signal * stream_end := parse_packets (S (length q)) q.

(** Reads that return something. *)
Abbreviation live := (Forall (λ c : bytes, c ≠ [])).

Lemma fill_spec n chunks : ∀ buf, live chunks →
  (length (buf ++ concat chunks) < n ∧ fill n buf chunks = None)%nat
  ∨ ∃ buf' chunks', fill n buf chunks = Some (buf', chunks') ∧ live chunks'
      ∧ buf' ++ concat chunks' = buf ++ concat chunks ∧ (n ≤ length buf')%nat.
Proof.
  induction chunks as [|c chunks IH]; intros buf Hl; cbn [fill concat].
  - rewrite app_nil_r. destruct (Nat.ltb_spec (length buf) n); [by left|]. right.
    exists buf, []. cbn. by rewrite app_nil_r.
  - apply Forall_cons in Hl as [Hc Hl]. destruct (Nat.ltb_spec (length buf) n).
    + destruct c as [|x c]; [done|]. rewrite app_assoc. by apply IH.
    + right. exists buf, (c :: chunks). split_and!; try done. by constructor.
Qed.

Lemma frame_len_app q r : (4 ≤ length q)%nat → frame_len (q ++ r) = frame_len q.
Proof. intros H. unfold frame_len. by rewrite take_app_le. Qed.

(** One packet, read from whatever chunks, is the one at the front of the bytes. *)
Lemma read_packet_spec buf chunks : live chunks →
  let q := buf ++ concat chunks in
  match read_packet buf chunks with
  | Disconnected => (length q < 4)%nat
      ∨ (4 ≤ length q ∧ frame_len q ≤ MAX_PACKET_SIZE ∧ length q < 4 + frame_len q)%nat
  | OversizedPacket len => (4 ≤ length q ∧ len = frame_len q ∧ MAX_PACKET_SIZE < len)%nat
  | Payload p buf' chunks' =>
      (frame_len q ≤ MAX_PACKET_SIZE)%nat ∧ (4 + frame_len q ≤ length q)%nat ∧ live chunks'
      ∧ p = take (frame_len q) (drop 4 q) ∧ buf' ++ concat chunks' = drop (4 + frame_len q) q
  end.
Proof.
  intros Hl q. unfold read_packet.
  destruct (fill_spec 4 chunks buf Hl) as [[Hs ->]|(b1 & c1 & -> & Hl1 & E1 & H4)]; [by left|].
  fold q in E1. assert (Ef : frame_len b1 = frame_len q) by (by rewrite <- E1, frame_len_app).
  rewrite Ef. assert (Hq : length q = (length b1 + length (concat c1))%nat) by (by rewrite <- E1, length_app).
  destruct (Nat.ltb_spec MAX_PACKET_SIZE (frame_len q)); [split_and!; [lia|done|done]|].
  assert (Ed : drop 4 b1 ++ concat c1 = drop 4 q) by (rewrite <- E1; by rewrite drop_app_le).
  destruct (fill_spec (frame_len q) c1 (drop 4 b1) Hl1) as [[Hs ->]|(b2 & c2 & -> & Hl2 & E2 & Hn)].
  - right. rewrite length_app, length_drop in Hs. lia.
  - rewrite Ed in E2. assert (Hd : length (drop 4 q) = (length b2 + length (concat c2))%nat)
      by (by rewrite <- E2, length_app).
    rewrite length_drop in Hd. split_and!; [done|lia|done| |].
    + by rewrite <- E2, take_app_le.
    + by rewrite <- drop_drop, <- E2, drop_app_le.
Qed.

Lemma read_loop_parse fuel : ∀ buf chunks, live chunks → (length (buf ++ concat chunks) < fuel)%nat →
  read_loop_fuel fuel buf chunks = Some (parse_packets fuel (buf ++ concat chunks)).
Proof.
  induction fuel as [|fuel IH]; intros buf chunks Hl Hf; [lia|]. cbn [read_loop_fuel parse_packets].
  pose proof (read_packet_spec buf chunks Hl) as Hp. set (q := buf ++ concat chunks) in *.
  destruct (read_packet buf chunks) as [|len|p b c]; cbn zeta in Hp.
  - destruct (Nat.ltb_spec (length q) 4); [done|]. destruct Hp as [|(_ & H2 & H3)]; [lia|].
    destruct (Nat.ltb_spec MAX_PACKET_SIZE (frame_len q)); [lia|].
    destruct (Nat.ltb_spec (length q) (4 + frame_len q)); [done|lia].
  - destruct Hp as (H1 & -> & H2). destruct (Nat.ltb_spec (length q) 4); [lia|].
    destruct (Nat.ltb_spec MAX_PACKET_SIZE (frame_len q)); [done|lia].
  - destruct Hp as (H1 & H2 & Hl' & -> & E'). destruct (Nat.ltb_spec (length q) 4); [lia|].
    destruct (Nat.ltb_spec MAX_PACKET_SIZE (frame_len q)); [lia|].
    destruct (Nat.ltb_spec (length q) (4 + frame_len q)); [lia|].
    rewrite IH; [|done|rewrite E', length_drop; lia]. rewrite E'. cbn [mbind option_bind].
    by destruct (deserialize _).
Qed.

(** More fuel than bytes changes nothing. *)
Lemma parse_fuel fuel : ∀ fuel' q, (length q < fuel)%nat → (length q < fuel')%nat →
  parse_packets fuel q = parse_packets fuel' q.
Proof.
  induction fuel as [|fuel IH]; intros [|fuel'] q H1 H2; try lia. cbn [parse_packets].
  destruct (Nat.ltb_spec (length q) 4); [done|]. destruct (_ <? _)%nat; [done|].
  destruct (Nat.ltb_spec (length q) (4 + frame_len q)); [done|].
  by rewrite (IH fuel') by (rewrite length_drop; lia).
Qed.

Lemma max_packet_u32 : (N.of_nat MAX_PACKET_SIZE < 2 ^ 32)%N.
Proof. unfold MAX_PACKET_SIZE. rewrite Nat2N.inj_mul. done. Qed.

Lemma parse_packets_S fuel q : parse_packets (S fuel) q =
  if (length q <? 4)%nat then ([], EndDisconnected)
  else if (MAX_PACKET_SIZE <? frame_len q)%nat then ([], EndOversized (frame_len q))
  else if (length q <? 4 + frame_len q)%nat then ([], EndDisconnected)
  else
    let r := parse_packets fuel (drop (4 + frame_len q) q) in
    match deserialize (take (frame_len q) (drop 4 q)) with Ok s => (s :: r.1, r.2) | Err _ => r end.
Proof. done. Qed.

(** A frame in front of the rest is one packet. *)
Lemma parse_frame {L : CodecLaws K} s body q : serialize s = Ok body → (length body ≤ MAX_PACKET_SIZE)%nat →
  parse (frame body ++ q) = (s :: (parse q).1, (parse q).2).
Proof.
  intros Hs Hlen. pose proof max_packet_u32 as Hmax. unfold parse at 1.
  rewrite parse_packets_S, !length_app, length_frame, frame_len_frame, frame_body by lia.
  rewrite !(proj2 (Nat.ltb_ge _ _)) by lia.
  rewrite (deserialize_serialize _ _ Hs), drop_app_length' by by rewrite length_frame.
  by rewrite (parse_fuel _ (S (length q))) by lia.
Qed.

(** The packets of a sequence of frames. *)
Lemma parse_frames {L : CodecLaws K} sent : ∀ rest,
  Forall (λ sb, serialize sb.1 = Ok sb.2 ∧ (length sb.2 ≤ MAX_PACKET_SIZE)%nat) sent →
  parse (concat (map (λ sb, frame sb.2) sent) ++ rest)
  = (map fst sent ++ (parse rest).1, (parse rest).2).
Proof.
  induction sent as [|[s body] sent IH]; intros rest Hs; cbn [map concat app fst snd].
  { by destruct (parse rest). }
  apply Forall_cons in Hs as [[Hs Hlen] Hall]. cbn [fst snd] in *. rewrite <- app_assoc.
  by rewrite (parse_frame s body _ Hs Hlen), IH.
Qed.

(** C33: what a gossip connection delivers. The read loop always ends; the signals it
    forwards are a function of the bytes of the stream, however they were cut into reads;
    and when the peer sent encoded signals of at most 64 KiB and closed, exactly those
    signals are forwarded, in order. *)
Theorem gossip_delivers {L : CodecLaws K} chunks sent : live chunks →
  (read_loop chunks = Some (parse (concat chunks)))
  ∧ (Forall (λ sb, serialize sb.1 = Ok sb.2 ∧ (length sb.2 ≤ MAX_PACKET_SIZE)%nat) sent →
     concat chunks = concat (map (λ sb, frame sb.2) sent) →
     read_loop chunks = Some (map fst sent, EndDisconnected)).
Proof.
  intros Hl. assert (E : read_loop chunks = Some (parse (concat chunks))).
  { unfold read_loop. rewrite read_loop_parse; [done|done|]. cbn [app]. lia. }
  split; [done|]. intros Hs Hc. rewrite E, Hc, <- (app_nil_r (concat (map _ sent))), parse_frames by done.
  cbn. by rewrite app_nil_r.
Qed.

(** With a pre-shared key, a connection delivers signals or is registered for sending only when
    its first packet carries the keyed hash of the challenge under that key; every other
    connection is dropped without effect. *)
Lemma accepted_proof psk chunks registered delivered :
  accept_inbound (Some psk) chunks = Some (registered, delivered) →
  registered = true ∨ delivered ≠ [] →
  ∃ payload buf rest, read_packet [] chunks = Payload payload buf rest
    ∧ deserialize payload = Ok (SigAuth (auth_proof psk)).
Proof.
  cbn [accept_inbound]. unfold handshake_inbound, read_one_signal.
  destruct (read_packet [] chunks) as [|len|p b rest]; [intros [= <- <-]; by intros []..|].
  destruct (deserialize p) as [s|e] eqn:Hd; [|intros [= <- <-]; by intros []].
  destruct s as [| | | | | | |proof]; try (intros [= <- <-]; by intros []).
  destruct (N.eqb_spec proof (auth_proof psk)) as [->|]; cbn [negb]; [|intros [= <- <-]; by intros []].
  intros _ _. by exists p, b, rest.
Qed.
End gossip.

(** ** tcp_gossip.rs: sending *)

Section fan_out.
(** A writer, and what [write_all] and [flush] do to it. *)
Context {W : Type} (write_all : W → bytes → W * bool) (flush : W → W * bool).

Definition send_to (w : W) (packet : bytes) : W * bool :=
  let '(w, ok) := write_all w packet in if ok then flush w else (w, false).

(** The loop over the writers: the writers after it, and the positions that failed. *)
Fixpoint send_all (i : nat) (packet : bytes) (writers : list W) : list W * list nat :=
  match writers with
  | [] => ([], [])
  | w :: writers =>
      let '(w, ok) := send_to w packet in
      let '(ws, disconnected) := send_all (S i) packet writers in
      (w :: ws, if ok then disconnected else i :: disconnected)
  end.

(** One outbound signal: failed writers are removed from the last position on. *)
Definition fan_out (packet : bytes) (writers : list W) : list W :=
  let '(ws, disconnected) := send_all 0 packet writers in
  fold_left (λ ws i, delete i ws) (rev disconnected) ws.

(** Exactly the writers that failed are gone, and the others keep their order. *)
Lemma fan_out_spec packet writers :
  fan_out packet writers
  = map fst (List.filter snd (map (λ w, send_to w packet) writers)).
Proof.
  unfold fan_out.
  assert (G : ∀ ws pre, let '(out, bad) := send_all (length pre) packet ws in
    fold_left (λ ws i, delete i ws) (rev bad) (pre ++ out)
    = pre ++ map fst (List.filter snd (map (λ w, send_to w packet) ws))).
  { induction ws as [|w ws IH]; intros pre; cbn [send_all map List.filter]; [done|].
    destruct (send_to w packet) as [w' ok]. specialize (IH (pre ++ [w'])).
    rewrite length_app, Nat.add_1_r in IH. destruct (send_all (S (length pre)) packet ws) as [out bad].
    rewrite <- !app_assoc in IH. cbn [app] in IH. destruct ok; cbn [rev snd]; [by rewrite IH|].
    rewrite fold_left_app, IH. cbn. rewrite delete_middle. done. }
  specialize (G writers []). cbn [length app] in G. by destruct (send_all 0 packet writers).
Qed.
End fan_out.

(** The dialled and the connected peers. *)
Record Dialer := { dial_peers : gset N; active_peers : gset N }.

(** [try_connect]: [reachable] is whether the connection, and with a key the sending of the
    proof, succeeded. *)
Definition try_connect (reachable : N → bool) (d : Dialer) (peer : N) : Dialer :=
  if bool_decide (peer ∈ active_peers d) then d
  else if reachable peer then {| dial_peers := dial_peers d; active_peers := {[ peer ]} ∪ active_peers d |}
  else d.

Definition dial_request (reachable : N → bool) (d : Dialer) (peer : N) : Dialer :=
  try_connect reachable {| dial_peers := {[ peer ]} ∪ dial_peers d; active_peers := active_peers d |} peer.

(** The retry tick: every dialled peer that is not connected. *)
Definition dial_tick {HO : HashOrder} (reachable : N → bool) (d : Dialer) : Dialer :=
  fold_left (try_connect reachable) (hs_iter (dial_peers d ∖ active_peers d)) d.

(** The end of a connection's read loop. *)
Definition dial_lost (d : Dialer) (peer : N) : Dialer :=
  {| dial_peers := dial_peers d; active_peers := active_peers d ∖ {[ peer ]} |}.

Lemma try_all_spec reachable l : ∀ d,
  dial_peers (fold_left (try_connect reachable) l d) = dial_peers d
  ∧ ∀ p, p ∈ active_peers (fold_left (try_connect reachable) l d)
         ↔ p ∈ active_peers d ∨ (p ∈ l ∧ reachable p = true).
Proof.
  induction l as [|q l IH]; intros d; cbn [fold_left]; [set_solver|].
  destruct (IH (try_connect reachable d q)) as [-> Ha]. split.
  - unfold try_connect. case_bool_decide; [done|]. by destruct (reachable q).
  - intros p. rewrite Ha, elem_of_cons. clear IH Ha. unfold try_connect. case_bool_decide as Hq.
    + split; [tauto|]. intros [H|[[->|H] H']]; tauto.
    + destruct (reachable q) eqn:Hr; cbn [active_peers]; [rewrite elem_of_union, elem_of_singleton|].
      * split; [|intuition congruence]. intros [[->|H]|H]; tauto.
      * split; [tauto|]. intros [H|[[->|H] H']]; [tauto|congruence|tauto].
Qed.

(** After a tick, a dialled peer is connected unless it was lost and is unreachable. *)
Lemma dial_tick_spec {HO : HashOrder} reachable d p : p ∈ dial_peers d →
  p ∈ active_peers (dial_tick reachable d) ↔ p ∈ active_peers d ∨ reachable p = true.
Proof.
  intros Hp. unfold dial_tick. rewrite (proj2 (try_all_spec reachable _ d) p), elem_of_hs_iter.
  rewrite elem_of_difference. destruct (decide (p ∈ active_peers d)); tauto.
Qed.

(** ** Concrete instances *)

(** The [bincode] layout of two signals, a 32-bit variant number and the fields; the other
    signals are not encoded. *)
Definition plain_serialize (s : Signal) : result unit bytes :=
  match s with
  | SigPing t n => if (t <? 2 ^ 64)%N && (n <? 2 ^ 64)%N then Ok (u32_le 4 ++ u64_le t ++ u64_le n) else Err tt
  | SigAuth p => if (p <? 2 ^ 256)%N then Ok (u32_le 7 ++ id_bytes p) else Err tt
  | _ => Err tt
  end.

Definition plain_deserialize (bs : bytes) : result unit Signal :=
  let body := drop 4 bs in
  if (of_le (take 4 bs) =? 4)%N then Ok (SigPing (of_le (take 8 body)) (of_le (drop 8 body)))
  else if (of_le (take 4 bs) =? 7)%N then Ok (SigAuth (of_be body))
  else Err tt.

#[export] Instance plain_codec : Codec :=
  {| CodecError := unit; serialize := plain_serialize; deserialize := plain_deserialize |}.

Lemma ok_inj {E A} (x y : A) : Ok (E := E) x = Ok y → x = y.
Proof. congruence. Qed.

Lemma of_le_u64 x : (x < 2 ^ 64)%N → of_le (u64_le x) = x.
Proof. intros H. unfold u64_le. rewrite of_le_le_bytes. by apply N.mod_small. Qed.

#[export] Instance plain_codec_laws : CodecLaws plain_codec.
Proof.
  intros s bs. cbn. destruct s as [| | | |t n| | |p]; cbn [plain_serialize]; try done.
  - destruct (N.ltb_spec t (2 ^ 64)); [|done]. destruct (N.ltb_spec n (2 ^ 64)); [|done].
    intros E. apply ok_inj in E as <-. unfold plain_deserialize.
    rewrite take_app_length', drop_app_length' by done.
    change (of_le (u32_le 4) =? 4)%N with true. cbv iota zeta.
    rewrite take_app_length', drop_app_length' by done. by rewrite !of_le_u64.
  - destruct (N.ltb_spec p (2 ^ 256)); [|done]. intros E. apply ok_inj in E as <-. unfold plain_deserialize.
    rewrite take_app_length', drop_app_length' by done.
    change (of_le (u32_le 7) =? 4)%N with false. change (of_le (u32_le 7) =? 7)%N with true. cbv iota zeta.
    by rewrite of_be_id_bytes.
Qed.

Definition sample_signals : list Signal := [SigPing 5 1; SigPing 300 2].
Definition sample_body (s : Signal) : bytes := match plain_serialize s with Ok b => b | Err _ => [] end.
Definition sample_stream : bytes := concat (map (λ s, frame (sample_body s)) sample_signals).

(** The ring buffer around its end. *)
Example ring_wraps :
  option_map snd (rb_run (rb_new 4) [Write (u32_le 1); Consume 3; Write [x07; x08; x09; x0a]; Peek 9; Write [x0b]])
  = Some [Wrote 4; Done; Wrote 3; Bytes [x00; x07; x08; x09]; Wrote 0].
Proof. vm_compute. reflexivity. Qed.

Lemma ring_refines_fifo_witness : ∃ b,
  rb_run (rb_new 4) [Write [x01; x02; x03]; ReadChunk 2; Write [x04; x05; x06; x07]; Peek 9]
  = Some (b, [Wrote 3; Bytes [x01; x02]; Wrote 3; Bytes [x03; x04; x05; x06]])
  ∧ rb_holds b [x03; x04; x05; x06].
Proof.
  exact (ring_refines_fifo 4 [Write [x01; x02; x03]; ReadChunk 2; Write [x04; x05; x06; x07]; Peek 9]
           ltac:(lia)).
Defined.

(** A buffer that holds the two sample packets. *)
Definition sample_ring : RingBuffer :=
  match rb_write (rb_new 64) sample_stream with Some (b, _) => b | None => rb_new 64 end.

Lemma sample_ring_holds : rb_holds sample_ring sample_stream.
Proof.
  destruct (rb_write_spec (rb_new 64) [] sample_stream (rb_new_holds 64 ltac:(lia))) as (b & E & Hb & _).
  unfold sample_ring. rewrite E. exact Hb.
Qed.

Lemma next_shift_roundtrip_witness : ∃ b',
  next_shift sample_ring = Some (b', Ok (Some (SigPing 5 1)))
  ∧ rb_holds b' (frame (sample_body (SigPing 300 2))).
Proof.
  exact (proj2 (proj1 (next_shift_roundtrip sample_ring sample_stream sample_ring_holds)
    (SigPing 5 1) (sample_body (SigPing 5 1)) (frame (sample_body (SigPing 300 2))) eq_refl eq_refl
    ltac:(apply Nat.leb_le; vm_compute; reflexivity))).
Defined.

(** [broadcast] sends what [next_shift] does not read: without the length prefix, the first
    four bytes of the body, here the variant number, are taken for the length. *)
Example broadcast_is_not_read :
  match broadcast_payload (SigPing 5 1) with
  | Ok payload =>
      match b ← receive (rb_new 64) [payload]; next_shift b with
      | Some (_, Err (DeserializeError _)) => true
      | _ => false
      end
  | Err _ => false
  end = true.
Proof. vm_compute. reflexivity. Qed.

Lemma sample_sent_ok :
  Forall (λ sb, serialize sb.1 = Ok sb.2 ∧ (length sb.2 ≤ MAX_PACKET_SIZE)%nat)
    (map (λ s, (s, sample_body s)) sample_signals).
Proof.
  apply Forall_cons_2; [|apply Forall_cons_2; [|apply Forall_nil_2]];
    (split; [vm_compute; reflexivity|apply Nat.leb_le; vm_compute; reflexivity]).
Qed.

(** The same stream in one read, and cut at every byte. *)
Lemma gossip_delivers_witness :
  read_loop [sample_stream] = Some (sample_signals, EndDisconnected)
  ∧ read_loop (map (λ b, [b]) sample_stream) = Some (sample_signals, EndDisconnected).
Proof.
  split.
  - exact (proj2 (gossip_delivers [sample_stream] (map (λ s, (s, sample_body s)) sample_signals)
             ltac:(by repeat constructor)) sample_sent_ok ltac:(by vm_compute)).
  - exact (proj2 (gossip_delivers (map (λ b, [b]) sample_stream)
             (map (λ s, (s, sample_body s)) sample_signals)
             ltac:(vm_compute; by repeat constructor)) sample_sent_ok ltac:(by vm_compute)).
Defined.

(** A peer that authenticates and sends a signal in a second read. *)
Definition sample_auth (psk : N) : bytes :=
  frame (sample_body (SigAuth (auth_proof (C := lawful_crypto) psk))).

(** With the wrong key nothing is delivered; and what a peer sends in the same read as its
    proof is lost, because the bytes read beyond the proof are dropped with the buffer of
    [read_one_signal]. *)
Example wrong_key_dropped :
  accept_inbound (C := lawful_crypto) (Some 8%N) [sample_auth 7; frame (sample_body (SigPing 5 1))]
  = Some (false, []).
Proof. vm_compute. reflexivity. Qed.

Example pipelined_signal_lost :
  accept_inbound (C := lawful_crypto) (Some 7%N)
    [sample_auth 7 ++ frame (sample_body (SigPing 5 1)); frame (sample_body (SigPing 6 2))]
  = Some (true, [SigPing 6 2]).
Proof. vm_compute. reflexivity. Qed.
