(* ===== verification/Gossip.v ===== *)
(** * The gossip node (src/src/network/tcp_gossip.rs, src/src/network/node.rs)

    The tasks of a TCP node around the connections of Network: accepting, dialling and
    retrying, delivering what connections carry, sending to all writers; as one state
    machine whose steps interleave in any order.  Proved: whatever the interleaving, what
    reaches the channel from each connection is a prefix of what its stream decodes to, in
    order and once, all of it when the connection has ended; a peer is marked active
    exactly while it has a connection, never two; and with a key, nothing comes from an
    accepted connection that did not prove it.  Also the in-process node: its channels and
    peers.  Sockets, the channels' capacities and the timing of tasks are not modelled. *)
From S2P Require Import Prelude Bytes Value Crypto Signals Network.

(** ** tcp_gossip.rs *)

Section gossip_node.
Context {C : Crypto} {K : Codec} {HO : HashOrder}.
Context {W : Type} (write_all : W → bytes → W * bool) (flush : W → W * bool) (psk : option N).

(** A connection: the dialled peer, if it was not accepted; its reads; the signals they
    decode to, how many of them were forwarded, and whether its task still runs. *)
Record Connection := {
  c_peer : option N;
  c_chunks : list bytes;
  c_stream : list Signal;
  c_forwarded : nat;
  c_open : bool;
}.

(** The node: dialled and active peers, writers, every connection there has been, all that was
    sent to the inbound channel, with its connection, and how much of it was received. *)
Record Gossip := {
  g_dialer : Dialer;
  g_writers : list W;
  g_conns : list Connection;
  g_log : list (nat * Signal);
  g_received : nat;
}.

Definition gossip_new : Gossip :=
  {| g_dialer := {| dial_peers := ∅; active_peers := ∅ |}; g_writers := []; g_conns := []; g_log := [];
     g_received := 0 |}.

Definition opened (g : Gossip) (d : Dialer) (ws : list W) (c : Connection) : Gossip :=
  {| g_dialer := d; g_writers := g_writers g ++ ws; g_conns := g_conns g ++ [c]; g_log := g_log g;
     g_received := g_received g |}.
Definition with_conns (g : Gossip) (d : Dialer) (cs : list Connection) (log : list (nat * Signal)) : Gossip :=
  {| g_dialer := d; g_writers := g_writers g; g_conns := cs; g_log := log; g_received := g_received g |}.

(** A turn of the accept loop: the writer of the stream [w], its reads to come. *)
Definition on_accept (g : Gossip) (w : W) (chunks : list bytes) : option Gossip :=
  '(registered, stream) ← accept_inbound psk chunks;
  Some (opened g (g_dialer g) (if registered : bool then [w] else [])
          {| c_peer := None; c_chunks := chunks; c_stream := stream; c_forwarded := 0; c_open := true |}).

(** [send_auth] *)
Definition send_auth (w : W) (proof : N) : W * bool :=
  match encode_packet (SigAuth proof) with
  | Ok packet => send_to write_all flush w packet
  | Err _ => (w, false)
  end.

(** [try_connect]; [connect] is what [TcpStream::connect] gives, and the reads to come. *)
Definition on_connect (connect : N → option (W * list bytes)) (g : Gossip) (peer : N) : option Gossip :=
  let d := g_dialer g in
  if bool_decide (peer ∈ active_peers d) then Some g
  else
    match connect peer with
    | None => Some g
    | Some (w, chunks) =>
        let '(w, ok) := match psk with Some key => send_auth w (auth_proof key) | None => (w, true) end in
        if (ok : bool) then
          r ← read_loop chunks;
          Some (opened g {| dial_peers := dial_peers d; active_peers := {[ peer ]} ∪ active_peers d |} [w]
                  {| c_peer := Some peer; c_chunks := chunks; c_stream := r.1; c_forwarded := 0; c_open := true |})
        else Some g
    end.

(** A peer requested through [add_peer]. *)
Definition on_add_peer (connect : N → option (W * list bytes)) (g : Gossip) (peer : N) : option Gossip :=
  let d := {| dial_peers := {[ peer ]} ∪ dial_peers (g_dialer g); active_peers := active_peers (g_dialer g) |} in
  on_connect connect (with_conns g d (g_conns g) (g_log g)) peer.

(** The retry tick. *)
Definition on_tick (connect : N → option (W * list bytes)) (g : Gossip) : option Gossip :=
  fold_opt (on_connect connect) (hs_iter (dial_peers (g_dialer g) ∖ active_peers (g_dialer g))) g.

(** A read loop sends its next signal, or ends; then a dialled peer is no longer active. *)
Definition on_forward (g : Gossip) (i : nat) : option Gossip :=
  c ← g_conns g !! i;
  if c_open c then
    match c_stream c !! c_forwarded c with
    | Some s =>
        let c' := {| c_peer := c_peer c; c_chunks := c_chunks c; c_stream := c_stream c;
                     c_forwarded := S (c_forwarded c); c_open := true |} in
        Some (with_conns g (g_dialer g) (<[i := c']> (g_conns g)) (g_log g ++ [(i, s)]))
    | None =>
        let c' := {| c_peer := c_peer c; c_chunks := c_chunks c; c_stream := c_stream c;
                     c_forwarded := c_forwarded c; c_open := false |} in
        let d := match c_peer c with Some p => dial_lost (g_dialer g) p | None => g_dialer g end in
        Some (with_conns g d (<[i := c']> (g_conns g)) (g_log g))
    end
  else None.

(** The fan-out of one outbound signal; what cannot be encoded is dropped. *)
Definition on_send (g : Gossip) (s : Signal) : Gossip :=
  match encode_packet s with
  | Ok packet => {| g_dialer := g_dialer g; g_writers := fan_out write_all flush packet (g_writers g);
                    g_conns := g_conns g; g_log := g_log g; g_received := g_received g |}
  | Err _ => g
  end.

(** The owner of the node receives the next signal. *)
Definition on_receive (g : Gossip) : option Gossip :=
  _ ← g_log g !! g_received g;
  Some {| g_dialer := g_dialer g; g_writers := g_writers g; g_conns := g_conns g; g_log := g_log g;
          g_received := S (g_received g) |}.

Inductive gossip_event :=
  | GAccept (w : W) (chunks : list bytes)
  | GAddPeer (peer : N) (connect : N → option (W * list bytes))
  | GTick (connect : N → option (W * list bytes))
  | GForward (i : nat)
  | GSend (s : Signal)
  | GReceive.

Definition gossip_step (g : Gossip) (ev : gossip_event) : option Gossip :=
  match ev with
  | GAccept w chunks => on_accept g w chunks
  | GAddPeer peer connect => on_add_peer connect g peer
  | GTick connect => on_tick connect g
  | GForward i => on_forward g i
  | GSend s => Some (on_send g s)
  | GReceive => on_receive g
  end.

Inductive gossip_reachable : Gossip → Prop :=
  | gr_new : gossip_reachable gossip_new
  | gr_step g ev g' : gossip_reachable g → gossip_step g ev = Some g' → gossip_reachable g'.

(** ** The invariant *)

(** What a stream decodes to, by how the connection was made. *)
Definition decoded (c : Connection) : Prop :=
  match c_peer c with
  | None => ∃ registered, accept_inbound psk (c_chunks c) = Some (registered, c_stream c)
  | Some _ => ∃ e, read_loop (c_chunks c) = Some (c_stream c, e)
  end.

Definition forwarded (log : list (nat * Signal)) (i : nat) : list Signal :=
  map snd (List.filter (λ p, (p.1 =? i)%nat) log).

Record conn_ok (log : list (nat * Signal)) (i : nat) (c : Connection) : Prop := {
  ck_decoded : decoded c;
  ck_order : forwarded log i = take (c_forwarded c) (c_stream c);
  ck_count : (c_forwarded c ≤ length (c_stream c))%nat;
  ck_closed : c_open c = false → c_forwarded c = length (c_stream c);
}.

(** A live connection of a dialled peer. *)
Definition live_to (g : Gossip) (p : N) (i : nat) : Prop :=
  ∃ c, g_conns g !! i = Some c ∧ c_peer c = Some p ∧ c_open c = true.

Record gossip_ok (g : Gossip) : Prop := {
  go_conns : ∀ i c, g_conns g !! i = Some c → conn_ok (g_log g) i c;
  go_log : Forall (λ p : nat * Signal, (p.1 < length (g_conns g))%nat) (g_log g);
  go_dialled : active_peers (g_dialer g) ⊆ dial_peers (g_dialer g);
  go_active : ∀ p, p ∈ active_peers (g_dialer g) ↔ ∃ i, live_to g p i;
  go_single : ∀ p i j, live_to g p i → live_to g p j → i = j;
  go_received : (g_received g ≤ length (g_log g))%nat;
}.

Lemma gossip_new_ok : gossip_ok gossip_new.
Proof using.
  split; cbn; try done.
  - intros p. split; [done|]. intros (i & c & Hc & _). by destruct i.
  - intros p i j (c & Hc & _). by destruct i.
Qed.

Lemma forwarded_snoc log i j s :
  forwarded (log ++ [(j, s)]) i = forwarded log i ++ (if (j =? i)%nat then [s] else []).
Proof using.
  unfold forwarded. rewrite List.filter_app, map_app. cbn [List.filter fst]. by destruct (j =? i)%nat.
Qed.

Lemma forwarded_fresh log i : Forall (λ p : nat * Signal, (p.1 < i)%nat) log → forwarded log i = [].
Proof using.
  unfold forwarded. induction 1 as [|p log Hp _ IH]; [done|]. cbn [List.filter].
  rewrite (proj2 (Nat.eqb_neq p.1 i)) by lia. done.
Qed.

(** Connections are only added at the end. *)
Lemma live_opened g d ws c p i : live_to (opened g d ws c) p i ↔
  live_to g p i ∨ (i = length (g_conns g) ∧ c_peer c = Some p ∧ c_open c = true).
Proof using.
  unfold live_to. cbn [opened g_conns]. setoid_rewrite lookup_snoc_Some. split.
  - intros (c' & [[Hl Hc]|[-> ->]] & Hp & Ho); [left; by exists c'|by right].
  - intros [(c' & Hc & Hp & Ho)|(-> & Hp & Ho)]; [exists c'|exists c]; split; auto.
    left. split; [by eapply lookup_lt_Some|done].
Qed.

Lemma opened_ok g d ws c : gossip_ok g → decoded c → c_forwarded c = 0%nat → c_open c = true →
  dial_peers d = dial_peers (g_dialer g) →
  match c_peer c with
  | None => active_peers d = active_peers (g_dialer g)
  | Some p => active_peers d = {[ p ]} ∪ active_peers (g_dialer g)
              ∧ p ∈ dial_peers (g_dialer g) ∧ p ∉ active_peers (g_dialer g)
  end → gossip_ok (opened g d ws c).
Proof using.
  intros [Hc Hl Hd Ha Hs Hr] Hdec Hf Ho Edial Hp. split.
  - cbn [opened g_conns g_log]. intros i c' [[Hi Hc']|[-> ->]]%lookup_snoc_Some; [by apply Hc|].
    split; [done| |rewrite Hf; lia|congruence]. rewrite Hf. cbn. by apply forwarded_fresh.
  - cbn [opened g_conns g_log]. eapply Forall_impl; [exact Hl|]. intros q Hq. cbn in Hq. rewrite length_app. cbn [length]. lia.
  - cbn [opened g_dialer]. rewrite Edial. destruct (c_peer c) as [p|]; [|by rewrite Hp].
    destruct Hp as (-> & Hin & _). set_solver.
  - intros p. setoid_rewrite live_opened. cbn [opened g_dialer]. destruct (c_peer c) as [q|].
    + destruct Hp as (-> & _ & _). rewrite elem_of_union, elem_of_singleton, Ha. split.
      * intros [->|[i Hi]]; [by exists (length (g_conns g)); right|by exists i; left].
      * intros (i & [Hi|(_ & [= ->] & _)]); [by right; exists i|by left].
    + rewrite Hp, Ha. split; intros [i Hi]; exists i; [by left|]. by destruct Hi as [Hi|(_ & ? & _)].
  - intros p i j. rewrite !live_opened. destruct (c_peer c) as [q|] eqn:Eq.
    + destruct Hp as (_ & _ & Hn). intros [Hi|(-> & [= ->] & _)] [Hj|(-> & E & _)]; try done.
      * by apply (Hs p).
      * injection E as ->. exfalso. apply Hn, Ha. by exists i.
      * exfalso. apply Hn, Ha. by exists j.
    + intros [Hi|(_ & ? & _)] [Hj|(_ & ? & _)]; try done. by apply (Hs p).
  - done.
Qed.

Lemma on_connect_ok connect g p g' : gossip_ok g → p ∈ dial_peers (g_dialer g) → on_connect connect g p = Some g' →
  gossip_ok g' ∧ dial_peers (g_dialer g') = dial_peers (g_dialer g).
Proof using.
  intros Hg Hp. unfold on_connect. case_bool_decide as Hin; [by intros [= <-]|].
  destruct (connect p) as [[w chunks]|]; [|by intros [= <-]].
  destruct (match psk with Some key => _ | None => _ end) as [w' ok]. destruct ok; [|by intros [= <-]].
  intros ([stream e] & Hr & [= <-])%bind_Some. split; [|done]. apply opened_ok; try done. by exists e.
Qed.

Lemma on_tick_ok connect l : ∀ g g', gossip_ok g → (∀ p, p ∈ l → p ∈ dial_peers (g_dialer g)) →
  fold_opt (on_connect connect) l g = Some g' → gossip_ok g'.
Proof using.
  induction l as [|p l IH]; intros g g' Hg Hl; cbn [fold_opt]; [by intros [= <-]|].
  intros (g1 & H1 & H2)%bind_Some.
  destruct (on_connect_ok connect g p g1 Hg (Hl p ltac:(by left)) H1) as [Hg1 Ed].
  apply (IH g1 g' Hg1); [|done]. intros q Hq. rewrite Ed. apply Hl. by right.
Qed.
Lemma live_insert g d cs log p i j c : g_conns g !! j = Some c → 
  cs = <[j := {| c_peer := c_peer c; c_chunks := c_chunks c; c_stream := c_stream c;
                 c_forwarded := S (c_forwarded c); c_open := true |}]> (g_conns g) → c_open c = true →
  live_to (with_conns g d cs log) p i ↔ live_to g p i.
Proof using.
  intros Hj -> Ho. unfold live_to. cbn [with_conns g_conns]. pose proof (lookup_lt_Some _ _ _ Hj) as Hlt.
  destruct (decide (i = j)) as [->|Hne].
  - setoid_rewrite list_lookup_insert_eq; [|done]. rewrite Hj. split; intros (c' & [= <-] & Hp & _); eauto.
  - by setoid_rewrite list_lookup_insert_ne; [|congruence].
Qed.

Lemma on_forward_ok g i g' : gossip_ok g → on_forward g i = Some g' → gossip_ok g'.
Proof using.
  intros [Hc Hl Hd Ha Hs Hr] (c & Hi & Hstep)%bind_Some. destruct (c_open c) eqn:Ho; [|done].
  pose proof (Hc i c Hi) as Hci. pose proof (lookup_lt_Some _ _ _ Hi) as Hlt.
  destruct (c_stream c !! c_forwarded c) as [s|] eqn:Es; injection Hstep as <-.
  - set (c' := {| c_peer := c_peer c |}).
    assert (Hlive : ∀ d log p j, live_to (with_conns g d (<[i := c']> (g_conns g)) log) p j ↔ live_to g p j)
      by (intros; by apply (live_insert g _ _ _ _ _ i c)).
    split.
    + cbn [with_conns g_conns g_log]. intros j cj Hj. rewrite list_lookup_insert_Some in Hj.
      destruct Hj as [(<- & <- & _)|(Hne & Hj)].
      * destruct Hci as [H1 H2 H3 H4]. pose proof (lookup_lt_Some _ _ _ Es). split; [done| |cbn; lia|done].
        rewrite forwarded_snoc, Nat.eqb_refl, H2. cbn [c_forwarded c_stream c']. by rewrite (take_S_r _ _ _ Es).
      * destruct (Hc j cj Hj) as [H1 H2 H3 H4]. split; [done| |done|done].
        rewrite forwarded_snoc, (proj2 (Nat.eqb_neq i j)) by congruence. by rewrite app_nil_r.
    + cbn [with_conns g_conns g_log]. rewrite length_insert. apply Forall_app. split; [done|by constructor].
    + done.
    + intros p. cbn [with_conns g_dialer]. rewrite Ha. by setoid_rewrite Hlive.
    + intros p j k. rewrite !Hlive. apply Hs.
    + cbn [with_conns g_log g_received]. rewrite length_app. lia.
  - set (c' := {| c_peer := c_peer c |}). apply lookup_ge_None in Es.
    assert (Hlive : ∀ d p j, live_to (with_conns g d (<[i := c']> (g_conns g)) (g_log g)) p j ↔ live_to g p j ∧ j ≠ i).
    { intros d p j. unfold live_to. cbn [with_conns g_conns]. destruct (decide (j = i)) as [->|Hne].
      - setoid_rewrite list_lookup_insert_eq; [|done]. split; [by intros (? & [= <-] & _ & ?)|by intros [_ ?]].
      - setoid_rewrite list_lookup_insert_ne; [|congruence]. tauto. }
    split.
    + cbn [with_conns g_conns g_log]. intros j cj Hj. rewrite list_lookup_insert_Some in Hj.
      destruct Hj as [(<- & <- & _)|(Hne & Hj)]; [|by apply Hc].
      destruct Hci as [H1 H2 H3 H4]. split; [done|done|done|]. cbn [c_forwarded c_stream c']. lia.
    + cbn [with_conns g_conns g_log]. by rewrite length_insert.
    + cbn [with_conns g_dialer]. destruct (c_peer c); [|done]. cbn [dial_lost active_peers dial_peers]. set_solver.
    + intros p. setoid_rewrite Hlive. cbn [with_conns g_dialer]. destruct (c_peer c) as [q|] eqn:Eq.
      * cbn [dial_lost active_peers]. rewrite elem_of_difference, elem_of_singleton, Ha. split.
        -- intros [[j Hj] Hpq]. exists j. split; [done|]. intros ->. destruct Hj as (c2 & Hc2 & Hp & _). congruence.
        -- intros (j & Hj & Hji). split; [by exists j|]. intros ->. apply Hji, (Hs q); [done|]. by exists c.
      * rewrite Ha. split; intros [j Hj]; exists j; [|by destruct Hj]. split; [done|]. intros ->.
        destruct Hj as (c2 & Hc2 & Hp & _). congruence.
    + intros p j k. rewrite !Hlive. intros [Hj _] [Hk _]. by apply (Hs p).
    + done.
Qed.

Lemma gossip_step_ok g ev g' : gossip_ok g → gossip_step g ev = Some g' → gossip_ok g'.
Proof using.
  intros Hg. destruct ev as [w chunks|peer connect|connect|i|s|]; cbn [gossip_step].
  - intros ([reg stream] & Hr & [= <-])%bind_Some. apply opened_ok; try done. by exists reg.
  - unfold on_add_peer. set (g1 := with_conns _ _ _ _). intros H.
    assert (Hg1 : gossip_ok g1).
    { destruct Hg as [Hc Hl Hd Ha Hs Hr]. split; try done. cbn [g1 with_conns g_dialer active_peers dial_peers]. set_solver. }
    apply (on_connect_ok connect g1 peer g' Hg1); [|done]. cbn. set_solver.
  - intros H. eapply on_tick_ok; [exact Hg| |exact H]. intros p. rewrite elem_of_hs_iter. set_solver.
  - by apply on_forward_ok.
  - intros [= <-]. unfold on_send. destruct (encode_packet s); [|done]. by destruct Hg.
  - intros (x & Hx & [= <-])%bind_Some. apply lookup_lt_Some in Hx. by destruct Hg.
Qed.

Lemma gossip_reachable_ok g : gossip_reachable g → gossip_ok g.
Proof using. induction 1; [apply gossip_new_ok|by eapply gossip_step_ok]. Qed.

Lemma take_in {A} (x : A) n l : x ∈ take n l → x ∈ l.
Proof using. rewrite <- (take_drop n l) at 2. rewrite elem_of_app. by left. Qed.

(** C34: the gossip node. However its tasks interleave, what it received is a prefix of what
    its connections sent it; each connection's share is, in order and without loss or
    repetition, a prefix of what its stream decodes to, and all of it once it has ended;
    a peer is active exactly while a connection to it lives, never more than one, and
    was asked for; and with a pre-shared key, an accepted connection that sent anything
    opened with the keyed hash of the challenge. *)
Theorem gossip_node g : gossip_reachable g →
  (∀ i c, g_conns g !! i = Some c →
     forwarded (g_log g) i = take (c_forwarded c) (c_stream c)
     ∧ (c_open c = false → forwarded (g_log g) i = c_stream c)
     ∧ decoded c
     ∧ (∀ key, psk = Some key → c_peer c = None → forwarded (g_log g) i ≠ [] →
        ∃ payload buf rest, read_packet [] (c_chunks c) = Payload payload buf rest
          ∧ deserialize payload = Ok (SigAuth (auth_proof key))))
  ∧ (∀ i s, (i, s) ∈ take (g_received g) (g_log g) → ∃ c, g_conns g !! i = Some c ∧ s ∈ c_stream c)
  ∧ (∀ p, p ∈ active_peers (g_dialer g) ↔ ∃ i, live_to g p i)
  ∧ (∀ p i j, live_to g p i → live_to g p j → i = j)
  ∧ active_peers (g_dialer g) ⊆ dial_peers (g_dialer g).
Proof using.
  intros [Hc Hl Hd Ha Hs Hr]%gossip_reachable_ok. split; [|split; [|done]].
  - intros i c Hi. destruct (Hc i c Hi) as [H1 H2 H3 H4]. split; [done|]. split; [|split; [done|]].
    + intros Ho. rewrite H2, (H4 Ho). by rewrite take_ge.
    + intros key Hk Hn Hf. unfold decoded in H1. rewrite Hn, Hk in H1. destruct H1 as [reg H1].
      apply (accepted_proof _ _ _ _ H1). right. intros Hz. apply Hf. by rewrite H2, Hz, take_nil.
  - intros i s Hin. assert (Hin' : (i, s) ∈ g_log g) by (eapply take_in, Hin).
    pose proof (proj1 (Forall_forall _ _) Hl _ Hin') as Hlt. cbn in Hlt.
    destruct (lookup_lt_is_Some_2 _ _ Hlt) as [c Hi]. exists c. split; [done|].
    destruct (Hc i c Hi) as [_ H2 _ _]. assert (Hf : s ∈ forwarded (g_log g) i).
    { unfold forwarded. apply list_elem_of_In, in_map_iff. exists (i, s). split; [done|]. apply filter_In.
      split; [by apply list_elem_of_In|]. apply Nat.eqb_refl. }
    rewrite H2 in Hf. by eapply take_in.
Qed.
End gossip_node.

(** ** node.rs: nodes in one process *)

(** Channels are numbers; a channel whose receiver is gone has no queue. *)
Inductive Transport := Udp (addr : N) | Channel (chan : N).
Record NetworkPacket := { from : N; payload : bytes }.
Record NetworkNode := { local_addr : N; rx : N; peers : gmap N Transport; ingress_buffer : RingBuffer }.
Abbreviation channels := (gmap N (list NetworkPacket)).

Section in_process.
Context {K : Codec} {HO : HashOrder}.

(** A node on the fresh channel [chan]; the channel's other end is returned to the caller. *)
Definition new_in_process (cs : channels) (chan local_addr : N) : channels * NetworkNode :=
  (<[chan := []]> cs,
   {| local_addr := local_addr; rx := chan; peers := ∅; ingress_buffer := rb_new (256 * 1024) |}).

Definition node_add_peer (n : NetworkNode) (addr : N) (t : Transport) : NetworkNode :=
  {| local_addr := local_addr n; rx := rx n; peers := <[addr := t]> (peers n); ingress_buffer := ingress_buffer n |}.

(** The packet to one peer; the UDP transport drops it, a closed channel is logged. *)
Definition send_packet (p : NetworkPacket) (cs : channels) (at_ : N * Transport) : channels :=
  match at_.2 with
  | Udp _ => cs
  | Channel c => match cs !! c with Some q => <[c := q ++ [p]]> cs | None => cs end
  end.

Definition node_broadcast (n : NetworkNode) (cs : channels) (s : Signal) : channels * result node_error () :=
  match broadcast_payload s with
  | Err e => (cs, Err e)
  | Ok encoded =>
      let packet := {| from := local_addr n; payload := encoded |} in
      (fold_left (send_packet packet) (hm_iter (peers n)) cs, Ok ())
  end.

(** A turn of [run]: the next packet of the channel goes to the ring buffer. *)
Definition node_run (n : NetworkNode) (cs : channels) : option (NetworkNode * channels) :=
  q ← cs !! rx n;
  match q with
  | [] => Some (n, cs)
  | p :: q =>
      b ← receive (ingress_buffer n) [payload p];
      Some ({| local_addr := local_addr n; rx := rx n; peers := peers n; ingress_buffer := b |}, <[rx n := q]> cs)
  end.

(** The peers that listen on a channel. *)
Definition listeners (n : NetworkNode) (c : N) : nat :=
  length (List.filter (λ at_ : N * Transport, match at_.2 with Channel d => (d =? c)%N | Udp _ => false end) (hm_iter (peers n))).

(** A broadcast reaches every open channel once for each peer that listens on it, and nothing
    else. *)
Lemma broadcast_reaches n cs s cs' : node_broadcast n cs s = (cs', Ok ()) →
  ∃ body, serialize s = Ok body ∧ (length body ≤ MAX_SHIFT_SIZE)%nat
    ∧ ∀ c, cs' !! c = (λ q, q ++ repeat {| from := local_addr n; payload := body |} (listeners n c)) <$> cs !! c.
Proof using.
  unfold node_broadcast, broadcast_payload, listeners. destruct (serialize s) as [body|e]; [|done].
  destruct (Nat.ltb_spec MAX_SHIFT_SIZE (length body)) as [|Hle]; [done|]. intros [= <-].
  exists body. split; [done|]. split; [done|]. set (p := {| from := _ |}). revert cs.
  induction (hm_iter (peers n)) as [|[a t] l IH]; intros cs c; cbn [fold_left List.filter].
  { cbn. destruct (cs !! c); cbn; [by rewrite app_nil_r|done]. }
  rewrite IH. unfold send_packet. cbn [snd]. destruct t as [u|d]; [done|].
  destruct (N.eqb_spec d c) as [->|Hne]; cbn [length repeat].
  - destruct (cs !! c) as [q|] eqn:Eq; [rewrite lookup_insert_eq; cbn; by rewrite <- app_assoc|by rewrite Eq].
  - destruct (cs !! d); [by rewrite lookup_insert_ne|done].
Qed.
End in_process.

(** ** Samples *)

Section sample.
Local Existing Instance lawful_crypto.
Local Existing Instance map_order.

(** Writers that record what they are given. *)
Definition note (w : bytes) (b : bytes) : bytes * bool := (w ++ b, true).
Definition settle_writer (w : bytes) : bytes * bool := (w, true).

(** A key, a dialled peer, and an accepted one that proves the key and sends two signals. *)
Definition sample_events : list (gossip_event (W := bytes)) :=
  [GAddPeer 9 (λ _, Some ([], [frame (sample_body (SigPing 1 2))]));
   GAccept [] [sample_auth 7; frame (sample_body (SigPing 5 1)); frame (sample_body (SigPing 6 1))];
   GForward 1; GForward 0; GForward 0; GSend (SigPing 8 8); GForward 1; GReceive; GReceive].
Abbreviation sample_gossip :=
  (fold_opt (gossip_step note settle_writer (Some 7%N)) sample_events gossip_new).

Lemma sample_gossip_reachable g : sample_gossip = Some g → gossip_reachable note settle_writer (Some 7%N) g.
Proof.
  assert (G : ∀ evs g0 g1, gossip_reachable note settle_writer (Some 7%N) g0 →
            fold_opt (gossip_step note settle_writer (Some 7%N)) evs g0 = Some g1 → gossip_reachable note settle_writer (Some 7%N) g1).
  { induction evs as [|e evs IH]; intros g0 g1 H0; cbn [fold_opt]; [by intros [= <-]|].
    intros (g2 & H2 & H1)%bind_Some. exact (IH g2 g1 (gr_step _ _ _ _ _ _ H0 H2) H1). }
  apply G. constructor.
Qed.

Lemma gossip_node_witness :
  ∃ g, sample_gossip = Some g ∧ g_log g = [(1%nat, SigPing 5 1); (0%nat, SigPing 1 2); (1%nat, SigPing 6 1)]
    ∧ active_peers (g_dialer g) ⊆ dial_peers (g_dialer g)
    ∧ ∃ c, g_conns g !! 1%nat = Some c ∧ decoded (Some 7%N) c
           ∧ ∃ payload buf rest, read_packet [] (c_chunks c) = Payload payload buf rest
               ∧ deserialize payload = Ok (SigAuth (auth_proof 7)).
Proof.
  assert (Hs : (λ g, bool_decide (length (g_log g) = 3%nat)) <$> sample_gossip = Some true) by (vm_compute; reflexivity).
  destruct (checked_option _ _ Hs) as (g & Hg & _).
  destruct (gossip_node note settle_writer (Some 7%N) g (sample_gossip_reachable g Hg)) as (Hc & _ & _ & _ & Hd).
  exists g. split; [exact Hg|]. vm_compute in Hg. apply (inj Some) in Hg. subst g.
  split; [reflexivity|]. split; [exact Hd|]. eexists. split; [reflexivity|].
  destruct (Hc 1%nat _ eq_refl) as (_ & _ & Hdec & Hp). split; [exact Hdec|].
  apply (Hp 7%N); [reflexivity|reflexivity|discriminate].
Defined.
End sample.
