(* ===== verification/Persistence.v ===== *)
(** * Snapshots (src/src/persistence/mod.rs)

    Saving a node to disk and loading it back.  The JSON codec, the parsing of EVM
    addresses, the hex crate and the file system's answers are parameters; a [String] is
    its bytes.  Proved: what a reloaded node has of the saved one, field by field; saving
    replaces the file completely or not at all, and is refused as soon as the DAG holds a
    shift with a clock entry, which JSON cannot have as an object key; across any number
    of restarts no transfer is settled twice, although the replay tables start empty. *)
From S2P Require Import Prelude Bytes Value Crypto Signals Merkle Stake Rewards Certificate.
From S2P Require Import Metabolic ModArith Ntt WaveField Domain Dag DagOrder Evm Oscillator Synthesis Settlement.
Local Open Scope N_scope.

(** ** The format *)

Record AccountStateSer := { ser_units : N; ser_decays : bool; ser_last_active_tick : N }.

Record DagNodeSer := {
  dn_hash : bytes;
  dn_shift : StatefulShift;
  dn_children : list bytes;
  dn_inserted_at_tick : N;
  dn_finalization_depth : N;
  dn_first_seen_at_ns : N;
  dn_finalized_at_tick : option N;
  dn_applied : bool;
  dn_status : bytes;
  dn_error : option bytes;
}.

Definition dag_error_code (e : DagError) : bytes :=
  match e with
  | MissingPredecessor _ => ascii "missing_predecessor"
  | Dag.InvalidSignature _ => ascii "invalid_signature"
  | InsufficientBalance _ => ascii "insufficient_balance"
  | DoubleSpend _ => ascii "double_spend"
  | CausalCycle _ => ascii "causal_cycle"
  end.

Definition parse_dag_error (code : bytes) : DagError :=
  if bool_decide (code = ascii "invalid_signature") then Dag.InvalidSignature 0
  else if bool_decide (code = ascii "insufficient_balance") then InsufficientBalance 0
  else if bool_decide (code = ascii "double_spend") then DoubleSpend 0
  else if bool_decide (code = ascii "causal_cycle") then CausalCycle 0
  else MissingPredecessor 0.

Definition status_text (st : ShiftStatus) : bytes :=
  match st with
  | Accepted => ascii "accepted"
  | Finalized => ascii "finalized"
  | Rejected e => ascii "rejected:" ++ dag_error_code e
  end.

Definition status_error (st : ShiftStatus) : option bytes :=
  match st with Rejected e => Some (dag_error_code e) | _ => None end.

(** [str::strip_prefix] *)
Fixpoint strip_prefix (p s : bytes) : option bytes :=
  match p, s with
  | [], _ => Some s
  | _ :: _, [] => None
  | x :: p, y :: s => if bool_decide (x = y) then strip_prefix p s else None
  end.

Definition parse_status (st : bytes) (error : option bytes) : ShiftStatus :=
  match error with
  | Some code => Rejected (parse_dag_error code)
  | None =>
      match strip_prefix (ascii "rejected:") st with
      | Some code => Rejected (parse_dag_error code)
      | None => if bool_decide (st = ascii "finalized") then Finalized else Accepted
      end
  end.

(** The text of an address: [H160::from_str]. *)
Class EvmText := parse_address : bytes → option N.

(** [str::trim_start_matches("0x")] *)
Fixpoint trim_0x (s : bytes) : bytes :=
  match s with
  | x :: (y :: s') as rest =>
      if bool_decide (x = x30) && bool_decide (y = x78) then trim_0x s' else x :: rest
  | _ => s
  end.

Section format.
Context {HX : Hex} {ET : EvmText}.

(** [account_to_hex], [pool_to_hex], [hash_to_hex], and their inverses. *)
Definition id_to_hex (a : N) : bytes := hex_encode (id_bytes a).
Definition id_from_hex (s : bytes) : option N :=
  bs ← hex_decode s;
  if negb (length bs =? 32)%nat then None else Some (of_be bs).

Definition address_text (a : N) : bytes := ascii "0x" ++ hex_encode (be_bytes 20 a).
Definition hash_text (h : N) : bytes := ascii "0x" ++ hex_encode (id_bytes h).
Definition hash_from_text (s : bytes) : option N := id_from_hex (trim_0x s).

(** One turn of a loading loop: an entry whose key does not parse is skipped. *)
Definition load_row {A B} (dec : bytes → option N) (f : N → A → B) (m : gmap N B)
    (e : bytes * A) : gmap N B :=
  match dec e.1 with Some k => <[k := f k e.2]> m | None => m end.

Definition load_table {A B} (dec : bytes → option N) (f : N → A → B) (l : list (bytes * A)) : gmap N B :=
  fold_left (load_row dec f) l ∅.
End format.

Record Snapshot {V : Revm} := {
  version : N;
  snap_accounts : list (bytes * AccountStateSer);
  snap_pools : list (bytes * N);
  snap_nodes : list DagNodeSer;
  snap_balances : list (bytes * N);
  snap_total_burned : N;
  snap_evm_db : option DB;
  snap_evm_nonces : list (bytes * N);
  snap_evm_statuses : list (bytes * EvmTxStatus);
  snap_stake_config : option StakingConfig;
  snap_stake_table : gmap bytes OperatorEntry;
}.
Arguments Snapshot : clear implicits.

(** [serde_json]: text of snapshots. *)
Class SnapshotJson (V : Revm) := {
  JsonText : Type;
  JsonError : Type;
  to_json : Snapshot V → result JsonError JsonText;
  from_json : JsonText → result JsonError (Snapshot V);
}.

(** A vector clock is an object whose keys are arrays of bytes. *)
Definition clocked {V : Revm} (s : Snapshot V) : bool :=
  existsb (λ n, negb (bool_decide (ss_vector_clock (dn_shift n) = ∅))) (snap_nodes s).

(** What is written is read back, and an object key that is not a string is an error. *)
Class JsonLaws {V : Revm} (J : SnapshotJson V) := {
  json_roundtrip : ∀ s t, to_json s = Ok t → from_json t = Ok s;
  json_string_keys : ∀ s, clocked s = true → ∃ e, to_json s = Err e;
}.

(** Documented behaviour of the parser of addresses and of the alphabet of [hex]. *)
Class TextLaws (HX : Hex) (ET : EvmText) := {
  address_roundtrip : ∀ a, a < 2 ^ 160 → parse_address (address_text a) = Some a;
  hex_no_prefix : ∀ bs, trim_0x (hex_encode bs) = hex_encode bs;
}.

Section persistence.
Context {C : Crypto} {E : Ethers} {V : Revm} {HO : HashOrder} {HX : Hex} {ET : EvmText} {J : SnapshotJson V}.

(** ** save *)

Definition account_ser (a : AccountState) : AccountStateSer :=
  {| ser_units := units (acc_balance a); ser_decays := decays (acc_balance a);
     ser_last_active_tick := last_active_tick (acc_balance a) |}.

Definition node_ser (n : DagNode) : DagNodeSer :=
  {| dn_hash := id_to_hex (node_hash n); dn_shift := node_shift n;
     dn_children := map id_to_hex (hs_iter (children n));
     dn_inserted_at_tick := inserted_at_tick n; dn_finalization_depth := node_depth n;
     dn_first_seen_at_ns := node_first_seen n; dn_finalized_at_tick := finalized_at_tick n;
     dn_applied := applied n; dn_status := status_text (status n);
     dn_error := status_error (status n) |}.

(** A table as a list of rows with textual keys. *)
Definition rows {A B} (enc : N → bytes) (g : A → B) (m : gmap N A) : list (bytes * B) :=
  map (λ ka, (enc ka.1, g ka.2)) (hm_iter m).

Definition snapshot_of (o : Oscillator) : Snapshot V :=
  {| version := 1;
     snap_accounts := rows id_to_hex account_ser (accounts (wave_field o));
     snap_pools := rows id_to_hex units (pools (wave_field o));
     snap_nodes := map node_ser (hm_values (nodes (dag o)));
     snap_balances := rows id_to_hex (λ u, u) (dag_balances (dag o));
     snap_total_burned := eng_total_burned (metabolic_engine o);
     snap_evm_db := Some (pool_db (evm_pool o));
     snap_evm_nonces := rows address_text (λ n, n) (nonces (evm_pool o));
     snap_evm_statuses := rows hash_text (λ st, st) (statuses (evm_pool o));
     snap_stake_config := Some (config (stake_table o));
     snap_stake_table := to_snapshot (stake_table o) |}.

(** The file system's answers during one save: creating the directory, writing the
    temporary file, renaming it. *)
Record SaveIo := { mkdir_ok : bool; write_ok : bool; rename_ok : bool }.

Inductive persist_error :=
  | IoError
  | JsonFailed (e : JsonError)
  | UnsupportedVersion (v : N).

(** [save]: the snapshot file afterwards, and the result.  A failed or partial write only
    touches the temporary file, which nothing reads. *)
Definition save (io : SaveIo) (o : Oscillator) (file : option JsonText)
    : option JsonText * result persist_error () :=
  if negb (mkdir_ok io) then (file, Err IoError)
  else
    match to_json (snapshot_of o) with
    | Err e => (file, Err (JsonFailed e))
    | Ok json =>
        if negb (write_ok io) then (file, Err IoError)
        else if negb (rename_ok io) then (file, Err IoError)
        else (Some json, Ok ())
    end.

(** ** load *)

Definition account_restored (_ : N) (s : AccountStateSer) : AccountState :=
  {| acc_balance :=
       {| units := ser_units s; last_decay_tick := last_decay_tick balance_zero;
          bal_domain := bal_domain balance_zero; bal_rate_ppm := bal_rate_ppm balance_zero;
          decays := ser_decays s; last_active_tick := ser_last_active_tick s |};
     frequency_vector := frequency_vector account_default |}.

Definition pool_restored (_ : N) (u : N) : Balance := with_units balance_zero u.

Definition node_restored (hash : N) (n : DagNodeSer) : DagNode :=
  {| node_hash := hash; node_shift := dn_shift n;
     children := list_to_set (omap id_from_hex (dn_children n));
     inserted_at_tick := dn_inserted_at_tick n; status := parse_status (dn_status n) (dn_error n);
     node_depth := dn_finalization_depth n; node_first_seen := dn_first_seen_at_ns n;
     finalized_at_tick := dn_finalized_at_tick n; applied := dn_applied n |}.

Definition load_field (f : WaveField) (s : Snapshot V) : WaveField :=
  {| accounts := load_table id_from_hex account_restored (snap_accounts s);
     pools := load_table id_from_hex pool_restored (snap_pools s);
     ntt_engine := ntt_engine f; spectrum := spectrum f |}.

Definition load_nodes (l : list DagNodeSer) : gmap N DagNode :=
  load_table id_from_hex node_restored (map (λ n, (dn_hash n, n)) l).

(** Roots are the nodes without predecessors. *)
Definition load_roots (ns : gmap N DagNode) : gset N :=
  list_to_set (List.filter (λ h, match ns !! h with
                                 | Some n => bool_decide (ss_predecessors (node_shift n) = [])
                                 | None => false
                                 end) (hm_keys ns)).

(** A sender's tip is its last node in the order of the file. *)
Definition load_tip (ns : gmap N DagNode) (tips : gmap N N) (n : DagNodeSer) : gmap N N :=
  match id_from_hex (dn_hash n) with
  | Some h => match ns !! h with Some m => <[ss_from (node_shift m) := h]> tips | None => tips end
  | None => tips
  end.

Definition load_dag (d : VectorClockDag) (s : Snapshot V) : VectorClockDag :=
  let ns := load_nodes (snap_nodes s) in
  {| nodes := ns; roots := load_roots ns; tips := fold_left (load_tip ns) (snap_nodes s) ∅;
     dag_balances := load_table id_from_hex (λ _ u, u) (snap_balances s);
     rejected := ∅; max_clock := max_clock d; account_tips := account_tips d |}.

Definition load_evm (p : EvmPool) (s : Snapshot V) : EvmPool :=
  {| pending := pending p;
     statuses := load_table hash_from_text (λ _ st, st) (snap_evm_statuses s);
     nonces := load_table parse_address (λ _ n, n) (snap_evm_nonces s);
     pool_db := default db_default (snap_evm_db s);
     receipts := receipts p; transactions := transactions p |}.

Definition load_snapshot (o : Oscillator) (s : Snapshot V) : Oscillator :=
  let o := with_field o (load_field (wave_field o) s) in
  let o := with_dag o (load_dag (dag o) s) in
  let o := with_engine o {| eng_streams := eng_streams (metabolic_engine o);
                            eng_total_burned := snap_total_burned s |} in
  let o := with_evm o (load_evm (evm_pool o) s) in
  with_stakes o (from_snapshot (default default_config (snap_stake_config s)) (snap_stake_table s)).

(** [load]; [read_ok] is whether an existing file can be read. *)
Definition load (read_ok : bool) (o : Oscillator) (file : option JsonText)
    : Oscillator * result persist_error () :=
  match file with
  | None => (o, Ok ())
  | Some json =>
      if negb read_ok then (o, Err IoError)
      else
        match from_json json with
        | Err e => (o, Err (JsonFailed e))
        | Ok s => if negb (version s =? 1) then (o, Err (UnsupportedVersion (version s)))
                  else (load_snapshot o s, Ok ())
        end
  end.

(** ** Round trips of the parts *)

Lemma id_hex_roundtrip {HL : HexLaws HX} a : a < 2 ^ 256 → id_from_hex (id_to_hex a) = Some a.
Proof using.
  intros Ha. unfold id_from_hex, id_to_hex. rewrite hex_roundtrip. cbn [mbind option_bind].
  rewrite length_id_bytes, of_be_id_bytes by done. done.
Qed.

Lemma hash_text_roundtrip {HL : HexLaws HX} {TL : TextLaws HX ET} h : h < 2 ^ 256 →
  hash_from_text (hash_text h) = Some h.
Proof using.
  intros Hh. unfold hash_from_text, hash_text.
  change (trim_0x (ascii "0x" ++ hex_encode (id_bytes h))) with (trim_0x (hex_encode (id_bytes h))).
  rewrite hex_no_prefix. by apply id_hex_roundtrip.
Qed.

(** Loading a table that was written row by row. *)
Lemma load_rows {A B} (enc : N → bytes) dec (f : N → A → B) l : ∀ m,
  NoDup l.*1 → (∀ k a, (k, a) ∈ l → dec (enc k) = Some k) →
  let r := fold_left (load_row dec f) (map (λ ka, (enc ka.1, ka.2)) l) m in
  (∀ k a, (k, a) ∈ l → r !! k = Some (f k a)) ∧ (∀ k, k ∉ l.*1 → r !! k = m !! k).
Proof using.
  clear. induction l as [|[k a] l IH]; intros m Hnd Hdec; cbn [map fold_left fst snd].
  { split; [by intros ? ? ?%elem_of_nil|done]. }
  cbn in Hnd. apply NoDup_cons in Hnd as [Hk Hnd]. unfold load_row at 2 4. cbn [fst snd].
  rewrite (Hdec k a) by by left. destruct (IH (<[k := f k a]> m) Hnd) as [H1 H2].
  { intros k' a' Hin. apply (Hdec k' a'). by right. }
  split.
  - intros k' a' [[= -> ->]|Hin]%elem_of_cons; [|by apply H1]. rewrite H2 by done. apply lookup_insert_eq.
  - intros k'. cbn. intros [Hne Hin]%not_elem_of_cons. rewrite H2 by done. by apply lookup_insert_ne.
Qed.

Lemma load_table_rows {A S B} (enc : N → bytes) dec (g : A → S) (f : N → S → B) (m : gmap N A) :
  (∀ k a, m !! k = Some a → dec (enc k) = Some k) →
  ∀ k, load_table dec f (rows enc g m) !! k = (λ a, f k (g a)) <$> m !! k.
Proof using.
  intros Hdec k. unfold load_table, rows.
  rewrite <- (map_map (λ ka : N * A, (ka.1, g ka.2)) (λ ka, (enc ka.1, ka.2))).
  set (l := map (λ ka : N * A, (ka.1, g ka.2)) (hm_iter m)).
  assert (Hin : ∀ k s, (k, s) ∈ l ↔ ∃ a, m !! k = Some a ∧ s = g a).
  { intros k' s. unfold l. rewrite list_elem_of_fmap. split.
    - intros ([k0 a] & [= -> ->] & Hk%elem_of_hm_iter). by exists a.
    - intros (a & Hk & ->). exists (k', a). split; [done|by apply elem_of_hm_iter]. }
  assert (Hkeys : l.*1 = (hm_iter m).*1) by (unfold l; by rewrite <- list_fmap_compose).
  destruct (load_rows enc dec f l ∅) as [H1 H2].
  { rewrite Hkeys. apply hm_keys_NoDup. }
  { intros k' s (a & Hk & _)%Hin. by eapply Hdec. }
  destruct (m !! k) as [a|] eqn:Hk; cbn.
  - apply H1, Hin. by exists a.
  - rewrite H2; [done|]. intros Hk'. apply list_elem_of_fmap in Hk' as ([k' s] & -> & (a & Hk' & _)%Hin).
    cbn in Hk. congruence.
Qed.

(** What survives of a rejection: its kind, not the hash it names. *)
Definition forget_hash (e : DagError) : DagError :=
  match e with
  | MissingPredecessor _ => MissingPredecessor 0
  | Dag.InvalidSignature _ => Dag.InvalidSignature 0
  | InsufficientBalance _ => InsufficientBalance 0
  | DoubleSpend _ => DoubleSpend 0
  | CausalCycle _ => CausalCycle 0
  end.
Definition forget (st : ShiftStatus) : ShiftStatus :=
  match st with Rejected e => Rejected (forget_hash e) | st => st end.

Lemma parse_status_text st : parse_status (status_text st) (status_error st) = forget st.
Proof using. by destruct st as [|[]|]. Qed.

(** The status text alone is enough: the error field is redundant. *)
Lemma parse_status_text_only st : parse_status (status_text st) None = forget st.
Proof using. by destruct st as [|[]|]. Qed.

Lemma children_roundtrip {HL : HexLaws HX} (c : gset N) : (∀ x, x ∈ c → x < 2 ^ 256) →
  list_to_set (omap id_from_hex (map id_to_hex (hs_iter c))) = c.
Proof using.
  intros Hc. apply set_eq. intros x. rewrite elem_of_list_to_set, list_elem_of_omap. split.
  - intros (s & Hs & Hx). apply list_elem_of_fmap in Hs as (y & -> & Hy%elem_of_hs_iter).
    rewrite id_hex_roundtrip in Hx by auto. by injection Hx as <-.
  - intros Hx. exists (id_to_hex x). split; [|by apply id_hex_roundtrip, Hc].
    apply list_elem_of_fmap. exists x. split; [done|by apply elem_of_hs_iter].
Qed.

(** Every node comes back, with its status forgetting the hash of an error. *)
Lemma load_nodes_spec {HL : HexLaws HX} d : dag_inv d → hashes_ok d →
  (∀ h, is_Some (nodes d !! h) → h < 2 ^ 256) →
  ∀ h, load_nodes (map node_ser (hm_values (nodes d))) !! h
       = (λ n, with_status n (forget (status n))) <$> nodes d !! h.
Proof using.
  intros Hi Hh Hb h.
  assert (Er : map (λ n, (dn_hash n, n)) (map node_ser (hm_values (nodes d)))
              = rows id_to_hex node_ser (nodes d)).
  { unfold rows, hm_values. rewrite !map_map. apply map_ext_in. intros [k n] Hin.
    apply list_elem_of_In, elem_of_hm_iter in Hin. cbn. by rewrite (Hh k n Hin). }
  unfold load_nodes. rewrite Er, load_table_rows; [|intros k n Hk; apply id_hex_roundtrip, Hb; by eexists].
  destruct (nodes d !! h) as [n|] eqn:Hn; [|done]. cbn. f_equal. unfold node_restored, with_status. cbn.
  rewrite children_roundtrip, parse_status_text, (Hh h n Hn); [done|].
  intros x Hx. apply (di_children d Hi h n x Hn) in Hx as (m & Hm & _). apply Hb. by eexists.
Qed.

Lemma load_roots_spec d ns : dag_inv d →
  (∀ h, node_shift <$> ns !! h = node_shift <$> nodes d !! h) → load_roots ns = roots d.
Proof using.
  clear. intros Hi Hn. apply set_eq. intros h. unfold load_roots.
  rewrite elem_of_list_to_set, list_elem_of_In, filter_In, <- list_elem_of_In, (di_roots d Hi).
  specialize (Hn h). unfold hm_keys. rewrite list_elem_of_fmap.
  destruct (ns !! h) as [n|] eqn:Hns; destruct (nodes d !! h) as [m|] eqn:Hnd; try done; cbn in Hn.
  - rewrite bool_decide_eq_true, <- preds_nil. injection Hn as Hn. split.
    + intros [_ Hp]. exists m. split; [done|]. by rewrite <- (preds_shift m n Hn).
    + intros (m' & [= <-] & Hp). rewrite (preds_shift m n Hn). split; [|done].
      exists (h, n). split; [done|by apply elem_of_hm_iter].
  - split; [by intros []|]. by intros (? & ? & _).
Qed.

(** ** A node and its reload *)

(** Identifiers have their width: true by their types in the source. *)
Record ids_ok (o : Oscillator) : Prop := {
  io_accounts : ∀ a, is_Some (accounts (wave_field o) !! a) → a < 2 ^ 256;
  io_pools : ∀ p, is_Some (pools (wave_field o) !! p) → p < 2 ^ 256;
  io_nodes : ∀ h, is_Some (nodes (dag o) !! h) → h < 2 ^ 256;
  io_balances : ∀ a, is_Some (dag_balances (dag o) !! a) → a < 2 ^ 256;
  io_nonces : ∀ a, is_Some (nonces (evm_pool o) !! a) → a < 2 ^ 160;
  io_statuses : ∀ h, is_Some (statuses (evm_pool o) !! h) → h < 2 ^ 256;
  io_stakes : keys_ok (stake_table o);
}.

(** What the reloaded node [o'] has of the saved node [o]. *)
Record reloaded (o o' : Oscillator) : Prop := {
  rl_accounts : ∀ a, accounts (wave_field o') !! a
    = (λ x, {| acc_balance := {| units := units (acc_balance x); last_decay_tick := 0;
                                 bal_domain := DEFAULT_DEX_DOMAIN; bal_rate_ppm := DEFAULT_DEX_LAMBDA_PPM;
                                 decays := decays (acc_balance x);
                                 last_active_tick := last_active_tick (acc_balance x) |};
               frequency_vector := [0; 0; 0; 0] |}) <$> accounts (wave_field o) !! a;
  rl_pools : ∀ p, pools (wave_field o') !! p = (λ b, with_units balance_zero (units b)) <$> pools (wave_field o) !! p;
  rl_nodes : ∀ h, nodes (dag o') !! h = (λ n, with_status n (forget (status n))) <$> nodes (dag o) !! h;
  rl_roots : roots (dag o') = roots (dag o);
  rl_balances : dag_balances (dag o') = dag_balances (dag o);
  rl_burned : eng_total_burned (metabolic_engine o') = eng_total_burned (metabolic_engine o);
  rl_db : pool_db (evm_pool o') = pool_db (evm_pool o);
  rl_nonces : nonces (evm_pool o') = nonces (evm_pool o);
  rl_statuses : statuses (evm_pool o') = statuses (evm_pool o);
  rl_operators : operators (stake_table o') = operators (stake_table o);
  rl_config : config (stake_table o') = config (stake_table o);
}.

(** What it does not have: everything here starts again as in a new node. *)
Record started_over (o' : Oscillator) : Prop := {
  so_pending : pending_commutative o' = [] ∧ pending_stateful o' = [] ∧ pending (evm_pool o') = [];
  so_replay : seen_signatures o' = ∅ ∧ seen_nonces o' = ∅;
  so_clocks : max_clock (dag o') = VectorClock.new ∧ account_tips (dag o') = ∅;
  so_rejected : rejected (dag o') = ∅;
  so_tick : synthesis_tick o' = 0;
  so_certificates : certificates o' = ∅ ∧ certificate_tracker o' = tracker_new;
  so_rewards : reward_pool o' = Rewards.pool_new;
  so_supply : supply_tracker o' = Supply.new;
  so_domains : domain_registry o' = registry_new;
  so_receipts : receipts (evm_pool o') = ∅ ∧ transactions (evm_pool o') = ∅;
}.

Lemma load_reloaded {HL : HexLaws HX} {TL : TextLaws HX ET} o fresh :
  dag_reachable (dag o) → ids_ok o → reloaded o (load_snapshot fresh (snapshot_of o)).
Proof using.
  intros Hr [I1 I2 I3 I4 I5 I6 I7]. pose proof Hr as [Hi _]%dag_reachable_inv.
  pose proof (dag_reachable_hashes _ Hr) as Hh. pose proof (load_nodes_spec (dag o) Hi Hh I3) as Hn.
  split; cbn [load_snapshot with_field with_dag with_engine with_evm with_stakes wave_field dag
    metabolic_engine evm_pool stake_table load_field load_dag load_evm snapshot_of eng_total_burned
    accounts pools nodes roots dag_balances pool_db nonces statuses snap_accounts snap_pools snap_nodes
    snap_balances snap_total_burned snap_evm_db snap_evm_nonces snap_evm_statuses snap_stake_config
    snap_stake_table default].
  - intros a. by rewrite load_table_rows by (intros k x Hk; apply id_hex_roundtrip, I1; by eexists).
  - intros p. by rewrite load_table_rows by (intros k x Hk; apply id_hex_roundtrip, I2; by eexists).
  - exact Hn.
  - apply (load_roots_spec (dag o)); [done|]. intros h. rewrite Hn. by destruct (nodes (dag o) !! h).
  - apply map_eq. intros a.
    rewrite load_table_rows by (intros k x Hk; apply id_hex_roundtrip, I4; by eexists).
    by destruct (dag_balances (dag o) !! a).
  - done.
  - done.
  - apply map_eq. intros a.
    rewrite load_table_rows by (intros k x Hk; apply address_roundtrip, I5; by eexists).
    by destruct (nonces (evm_pool o) !! a).
  - apply map_eq. intros h.
    rewrite load_table_rows by (intros k x Hk; apply hash_text_roundtrip, I6; by eexists).
    by destruct (statuses (evm_pool o) !! h).
  - by apply restart_operators.
  - unfold from_snapshot. by destruct (fold_left _ _ _).
Qed.

Lemma booted_fresh o : booted o → ∃ kp size e, Ntt.engine_new size = Some e
  ∧ ntt_engine (wave_field o) = e ∧ dag o = dag_new ∧ pending_stateful o = [] ∧ started_over o
  ∧ keypair o = kp.
Proof using.
  assert (H0 : ∀ id size kp o, osc_new id size kp = Some o → ∃ kp size e, Ntt.engine_new size = Some e
    ∧ ntt_engine (wave_field o) = e ∧ dag o = dag_new ∧ pending_stateful o = [] ∧ started_over o
    ∧ keypair o = kp).
  { unfold osc_new, field_new. intros id size kp o' Ho. destruct (_ && _); [|done].
    destruct (Ntt.engine_new size) as [e|] eqn:He; [|done]. cbn in Ho. injection Ho as <-.
    exists kp, size, e. by split_and!. }
  intros [id size kp o' Ho|id size kp t o' Ho]; [by eapply H0|].
  unfold osc_new_with_stake in Ho. destruct (osc_new id size kp) as [o1|] eqn:H1; [|done].
  cbn in Ho. injection Ho as <-. destruct (H0 _ _ _ _ H1) as (kp' & sz & e & ? & ? & ? & ? & [] & ?).
  exists kp', sz, e. by split_and!.
Qed.

Lemma load_started_over fresh s : booted fresh → started_over (load_snapshot fresh s).
Proof using.
  intros (_ & _ & _ & _ & _ & _ & _ & [] & _)%booted_fresh. by split.
Qed.

Lemma load_saved {HL : HexLaws HX} {TL : TextLaws HX ET} {JL : JsonLaws J} io o file file' fresh :
  save io o file = (file', Ok ()) → load true fresh file' = (load_snapshot fresh (snapshot_of o), Ok ()).
Proof using.
  unfold save. destruct (negb (mkdir_ok io)); [done|].
  destruct (to_json (snapshot_of o)) as [t|e] eqn:Ht; [|done].
  destruct (negb (write_ok io)); [done|]. destruct (negb (rename_ok io)); [done|].
  intros [= <-]. unfold load. cbn [negb]. by rewrite (json_roundtrip _ _ Ht).
Qed.

(** A reloaded node still fits the history of the saved one. *)
Lemma restart_core {HL : HexLaws HX} {TL : TextLaws HX ET} o acc st fresh :
  osc_core o acc st → ids_ok o → booted fresh → osc_core (load_snapshot fresh (snapshot_of o)) acc st.
Proof using.
  intros [Hdag Heng Hnodes Hpend Ham Hnd Hap] Hids Hb. pose proof (load_reloaded o fresh Hdag Hids) as Hr.
  pose proof (load_started_over fresh (snapshot_of o) Hb) as Hs.
  destruct (booted_fresh fresh Hb) as (_ & size & e & He & Hen & _). split; [|..| |].
  - apply (dr_restored (dag o)); [done|]. split; [apply (rl_roots _ _ Hr)| | |apply (so_clocks _ Hs)].
    + intros h. rewrite (rl_nodes _ _ Hr). by destruct (nodes (dag o) !! h).
    + intros h n. rewrite (rl_nodes _ _ Hr), fmap_Some. intros (m & Hm & ->).
      exact (dag_reachable_hashes _ Hdag h m Hm).
  - exists size. cbn. by rewrite Hen.
  - intros h n. rewrite (rl_nodes _ _ Hr), fmap_Some. intros (m & Hm & ->). exact (Hnodes h m Hm).
  - intros s. rewrite (proj1 (proj2 (so_pending _ Hs))). by intros ?%elem_of_nil.
  - done.
  - done.
  - intros h Hh. destruct (Hap h Hh) as (n & Hn & Ha).
    exists (with_status n (forget (status n))). split; [by rewrite (rl_nodes _ _ Hr), Hn|exact Ha].
Qed.

(** The life of a node's state through restarts from snapshots; after a crash, what was
    settled since the snapshot is undone with the rest of the state. *)
Inductive life : Oscillator → list N → Prop :=
  | life_boot o : booted o → life o []
  | life_step o st ac hs o' : life o st → osc_step o ac hs o' → life o' (st ++ hs)
  | life_restart o st io file file' fresh o' : life o st → ids_ok o →
      save io o file = (file', Ok ()) → booted fresh → load true fresh file' = (o', Ok ()) → life o' st.

Lemma life_core {HL : HexLaws HX} {TL : TextLaws HX ET} {JL : JsonLaws J} o st :
  life o st → ∃ acc, osc_core o acc st.
Proof using.
  induction 1 as [o Ho|o st ac hs o' _ [acc IH] Hs|o st io file file' fresh o' _ [acc IH] Hids Hsave Hb Hload].
  - exists []. by apply boot_inv.
  - exists (acc ++ ac). by eapply core_step.
  - exists acc. rewrite (load_saved _ _ _ _ _ Hsave) in Hload. injection Hload as <-. by apply restart_core.
Qed.

(** ** Properties *)

(** C36: what a snapshot keeps. When a node is saved and the file is loaded into a new node,
    the new node has every balance (units, decay flag, last activity), every pool, every
    DAG node with its children, tick, depth, applied flag and the kind of its status, the
    roots, the DAG balances, the burn total, the EVM database, nonces and statuses, and
    every operator's stake and slash state; queues, replay tables, clocks, domains,
    certificates, rewards, supply, receipts and the tick counter start over. *)
Theorem snapshot_restores {HL : HexLaws HX} {TL : TextLaws HX ET} {JL : JsonLaws J} io o file file' fresh :
  dag_reachable (dag o) → ids_ok o → booted fresh → save io o file = (file', Ok ()) →
  ∃ o', load true fresh file' = (o', Ok ()) ∧ reloaded o o' ∧ started_over o'.
Proof using.
  intros Hr Hids Hb Hs. eexists. split; [by apply (load_saved io o file)|].
  split; [by apply load_reloaded|by apply load_started_over].
Qed.

(** C37: saving and loading fail cleanly. A failed save leaves the snapshot file as it was,
    a successful one replaces it with the whole state; a failed load leaves the node as it
    was. And saving always fails, whatever the disk does, once the DAG holds a shift whose
    vector clock has an entry. *)
Theorem save_is_atomic {JL : JsonLaws J} o :
  (∀ io file, match save io o file with
              | (file', Ok _) => ∃ t, file' = Some t ∧ to_json (snapshot_of o) = Ok t
              | (file', Err _) => file' = file
              end)
  ∧ (∀ read_ok file e o', load read_ok o file = (o', Err e) → o' = o)
  ∧ (∀ h n, nodes (dag o) !! h = Some n → ss_vector_clock (node_shift n) ≠ ∅ →
     ∀ io file, ∃ e, save io o file = (file, Err e)).
Proof using.
  split_and!.
  - intros io file. unfold save. destruct (negb (mkdir_ok io)); [done|].
    destruct (to_json (snapshot_of o)) as [t|]; [|done].
    destruct (negb (write_ok io)); [done|]. destruct (negb (rename_ok io)); [done|]. by exists t.
  - intros read_ok file e o'. unfold load. destruct file as [json|]; [|done].
    destruct (negb read_ok); [congruence|]. destruct (from_json json) as [s|]; [|congruence].
    destruct (negb _); congruence.
  - intros h n Hn Hc io file. destruct (json_string_keys (snapshot_of o)) as [e He].
    { apply existsb_exists. exists (node_ser n). split; [|by apply negb_true_iff, bool_decide_eq_false].
      cbn. apply in_map, list_elem_of_In, elem_of_hm_values. by exists h. }
    unfold save. rewrite He. destruct (negb (mkdir_ok io)); by eexists.
Qed.

(** C35: exactly-once settlement across restarts. Along any life of a node, through any
    number of saves, crashes and reloads, no transfer is settled twice, although replay
    protection starts empty after each restart: the applied flag of the reloaded DAG
    stands in for it; and a cycle of a reloaded node still cannot panic. *)
Theorem settled_once_across_restarts {HL : HexLaws HX} {TL : TextLaws HX ET} {JL : JsonLaws J} o st :
  life o st →
  NoDup st ∧ (∀ h, h ∈ st → ∃ n, nodes (dag o) !! h = Some n ∧ applied n = true)
  ∧ (∀ keys ts, (∀ bal, is_Some (pool_synthesize (evm_pool o) bal (finalized_at ts) (synthesis_tick o))) →
       is_Some (synthesize_trace o keys ts)).
Proof using.
  intros [acc Hc]%life_core. split_and!; [apply Hc|apply Hc|].
  intros keys ts. by apply (synthesize_defined o acc st).
Qed.
End persistence.

(** ** Concrete codecs *)

Definition plain_text : EvmText := λ s,
  s ← strip_prefix (ascii "0x") s; bs ← parse_hex s;
  if (length bs =? 20)%nat then Some (of_be bs) else None.

Lemma of_be_be_bytes k x : x < 256 ^ N.of_nat k → of_be (be_bytes k x) = x.
Proof.
  intros Hx. unfold of_be, be_bytes. rewrite rev_involutive, of_le_le_bytes. by apply N.mod_small.
Qed.

#[export] Instance plain_text_laws : TextLaws plain_hex plain_text.
Proof.
  split.
  - intros a Ha. unfold parse_address, plain_text, address_text.
    change (strip_prefix (ascii "0x") (ascii "0x" ++ @hex_encode plain_hex (be_bytes 20 a)))
      with (Some (@hex_encode plain_hex (be_bytes 20 a))). cbn [mbind option_bind].
    change (parse_hex (@hex_encode plain_hex (be_bytes 20 a)))
      with (@hex_decode plain_hex (@hex_encode plain_hex (be_bytes 20 a))).
    rewrite (hex_roundtrip (H := plain_hex)). cbn [mbind option_bind].
    assert (length (be_bytes 20 a) = 20%nat) as -> by (unfold be_bytes; by rewrite length_rev, length_le_bytes).
    cbn [Nat.eqb]. by rewrite of_be_be_bytes.
  - intros [|b bs]; [done|]. by destruct b.
Qed.

(** A codec that keeps the value and refuses what JSON refuses. *)
Definition plain_json (V : Revm) : SnapshotJson V := {|
  JsonText := Snapshot V; JsonError := unit;
  to_json := λ s, if clocked s then Err tt else Ok s;
  from_json := λ s, Ok s;
|}.

#[export] Instance plain_json_laws V : JsonLaws (plain_json V).
Proof.
  split; cbn.
  - intros s t. destruct (clocked s); [done|]. by intros [= ->].
  - intros s ->. by exists tt.
Qed.

(** ** A restart *)

Section sample.
Local Existing Instance lawful_crypto.
Local Existing Instance plain_ethers.
Local Existing Instance transfer_vm.
Local Existing Instance map_order.
Local Existing Instance plain_hex.
Local Existing Instance plain_text.
Local Existing Instance plain_json.

Definition good_io : SaveIo := {| mkdir_ok := true; write_ok := true; rename_ok := true |}.

(** A transfer without clock entries, which a snapshot can hold. *)
Definition quiet_transfer : StatefulShift :=
  ss_new alice DEFAULT_DEX_DOMAIN (account_id bob) 100 ∅ [] 1 5.

Definition ingest_one (s : StatefulShift) (o : Oscillator) : Oscillator := (ingest o (SigStateful s) 8).1.

(** Two funded accounts, one transfer, one cycle. *)
Definition settled_node (s : StatefulShift) : option (Oscillator * list N) :=
  o ← sample_osc;
  '(o, _, hs) ← synthesize_trace (ingest_one s o) sample_keys 9;
  Some (o, hs).

Definition fresh_node : option Oscillator := osc_new 1 4 (from_seed 9).

Definition reload (o : Oscillator) : option Oscillator :=
  fresh ← fresh_node;
  match save good_io o None with
  | (file, Ok _) => Some (load true fresh file).1
  | _ => None
  end.

(** After the restart the same transfer is accepted and queued again, and not settled. *)
Example restart_forgets_nonces :
  ('(o, hs) ← settled_node quiet_transfer;
   o' ← reload o;
   let o'' := ingest_one quiet_transfer o' in
   '(o3, _, hs') ← synthesize_trace o'' sample_keys 9;
   Some (hs, length (pending_stateful o''), hs', dag_balances (dag o') !! account_id bob,
         seen_nonces o !! (account_id alice, DEFAULT_DEX_DOMAIN),
         seen_nonces o' !! (account_id alice, DEFAULT_DEX_DOMAIN)))
  = Some ([ss_hash quiet_transfer], 1%nat, [], Some 600, Some 1, None).
Proof. vm_compute. reflexivity. Qed.

(** The same history with a clock entry cannot be saved. *)
Example clocked_node_is_not_saved :
  ('(o, _) ← settled_node sample_transfer; Some (is_ok (save good_io o None).2)) = Some false.
Proof. vm_compute. reflexivity. Qed.

(** Widths of the identifiers of a concrete node. *)
Definition keys_below {A} (b : N) (m : gmap N A) : bool := forallb (λ ka, ka.1 <? b) (map_to_list m).

Lemma keys_below_ok {A} b (m : gmap N A) : keys_below b m = true → ∀ k, is_Some (m !! k) → k < b.
Proof.
  unfold keys_below. rewrite forallb_forall. intros H k [a Ha]. apply N.ltb_lt.
  exact (H (k, a) (proj1 (list_elem_of_In _ _) (proj2 (elem_of_map_to_list _ _ _) Ha))).
Qed.

Definition ids_checked (o : Oscillator) : bool :=
  keys_below (2 ^ 256) (accounts (wave_field o)) && keys_below (2 ^ 256) (pools (wave_field o))
  && keys_below (2 ^ 256) (nodes (dag o)) && keys_below (2 ^ 256) (dag_balances (dag o))
  && keys_below (2 ^ 160) (nonces (evm_pool o)) && keys_below (2 ^ 256) (statuses (evm_pool o))
  && keys_below (2 ^ 256) (operators (stake_table o)).

Lemma ids_checked_ok o : ids_checked o = true → ids_ok o.
Proof.
  unfold ids_checked. rewrite !andb_true_iff. intros [[[[[[H1 H2] H3] H4] H5] H6] H7].
  split; try (by apply keys_below_ok). intros k e Hk. apply (keys_below_ok _ _ H7). by exists e.
Qed.

Lemma settled_node_life s o hs : settled_node s = Some (o, hs) → life o hs ∧ dag_reachable (dag o).
Proof.
  unfold settled_node. intros (o1 & H1 & Hs)%bind_Some.
  apply bind_Some in Hs as ([[o2 r] hs'] & H2 & Eo). cbn in Eo. injection Eo as <- <-.
  unfold sample_osc in H1. apply bind_Some in H1 as (o0 & H0 & E1). apply (inj Some) in E1 as <-.
  assert (Hl : life o2 hs').
  { pose proof (life_boot _ (boot_new _ _ _ _ H0)) as L0.
    pose proof (life_step _ _ _ _ _ L0 (os_seed _ (account_id alice) 1000)) as L1.
    pose proof (life_step _ _ _ _ _ L1 (os_seed _ (account_id bob) 500)) as L2.
    pose proof (life_step _ _ _ _ _ L2 (os_ingest _ (SigStateful s) 8)) as L3.
    exact (life_step _ _ _ _ _ L3 (os_synthesize _ _ _ _ _ _ H2)). }
  split; [exact Hl|]. destruct (life_core _ _ Hl) as [acc []]. done.
Qed.

Definition restartable (on : Oscillator * list N) : bool :=
  ids_checked on.1 && is_ok (save good_io on.1 None).2
  && bool_decide (on.2 = [ss_hash quiet_transfer]).

Lemma snapshot_restores_witness :
  ∃ o file fresh o', save good_io o None = (file, Ok ()) ∧ load true fresh file = (o', Ok ())
    ∧ reloaded o o' ∧ started_over o'.
Proof.
  assert (Hs : restartable <$> settled_node quiet_transfer = Some true) by (vm_compute; reflexivity).
  destruct (checked_option _ _ Hs) as ([o hs] & Ho & Hc). unfold restartable in Hc. cbn [fst snd] in Hc.
  apply andb_true_iff in Hc as [[Hi%ids_checked_ok Hok]%andb_true_iff _].
  destruct (settled_node_life _ _ _ Ho) as [_ Hd].
  destruct (save good_io o None) as [file [[]|e]] eqn:Es; [|discriminate Hok].
  assert (Hf : (λ _ : Oscillator, true) <$> fresh_node = Some true) by (vm_compute; reflexivity).
  destruct (checked_option _ _ Hf) as (fresh & Hfr & _).
  destruct (snapshot_restores good_io o None file fresh Hd Hi (boot_new _ _ _ _ Hfr) Es) as (o' & Hl & Hr & Hso).
  exists o, file, fresh, o'. split_and!; done.
Defined.

Definition holds_clock (on : Oscillator * list N) : bool :=
  match nodes (dag on.1) !! ss_hash sample_transfer with
  | Some n => negb (bool_decide (ss_vector_clock (node_shift n) = ∅))
  | None => false
  end.

Lemma save_is_atomic_witness :
  ∃ o hs e, settled_node sample_transfer = Some (o, hs) ∧ save good_io o None = (None, Err e).
Proof.
  assert (Hs : holds_clock <$> settled_node sample_transfer = Some true) by (vm_compute; reflexivity).
  destruct (checked_option _ _ Hs) as ([o hs] & Ho & Hc). unfold holds_clock in Hc. cbn [fst] in Hc.
  destruct (nodes (dag o) !! ss_hash sample_transfer) as [n|] eqn:Hn; [|discriminate Hc].
  apply negb_true_iff, bool_decide_eq_false in Hc.
  destruct (proj2 (proj2 (save_is_atomic o)) _ n Hn Hc good_io None) as [e He].
  exists o, hs, e. split; [exact Ho|exact He].
Defined.

Lemma settled_once_across_restarts_witness :
  ∃ o', life o' [ss_hash quiet_transfer] ∧ NoDup [ss_hash quiet_transfer]
  ∧ ∃ n, nodes (dag o') !! ss_hash quiet_transfer = Some n ∧ applied n = true.
Proof.
  assert (Hs : restartable <$> settled_node quiet_transfer = Some true) by (vm_compute; reflexivity).
  destruct (checked_option _ _ Hs) as ([o hs] & Ho & Hc). unfold restartable in Hc. cbn [fst snd] in Hc.
  apply andb_true_iff in Hc as [[Hi%ids_checked_ok Hok]%andb_true_iff Hhs%bool_decide_eq_true_1]. subst hs.
  destruct (settled_node_life _ _ _ Ho) as [Hl _].
  destruct (save good_io o None) as [file [[]|e]] eqn:Es; [|discriminate Hok].
  assert (Hf : (λ _ : Oscillator, true) <$> fresh_node = Some true) by (vm_compute; reflexivity).
  destruct (checked_option _ _ Hf) as (fresh & Hfr & _).
  pose proof (life_restart _ _ _ _ _ _ _ Hl Hi Es (boot_new _ _ _ _ Hfr) (load_saved _ _ _ _ _ Es)) as Hl'.
  destruct (settled_once_across_restarts _ _ Hl') as (Hnd & Hap & _).
  eexists. split; [exact Hl'|]. split; [exact Hnd|]. apply Hap. by left.
Defined.
End sample.
