(* ===== verification/Typing.v ===== *)
(** * Widths: every value stays in its machine type

    Identifiers are 32 bytes, addresses 20, units 128 bits, ticks and nonces 64.  The model
    holds them as unbounded numbers; this file proves that every operation of the
    oscillator, from inputs in range, leaves a state in range, so that the model's numbers
    are always ones the program can hold.  Node lifts it to every run of the process. *)
From S2P Require Import Prelude Bytes Value Crypto Signals Merkle Stake Rewards Certificate.
From S2P Require Import Metabolic ModArith Ntt WaveField Domain Dag DagOrder Evm Oscillator Synthesis Settlement.
From S2P Require Import Persistence.
Local Open Scope N_scope.

(** An entry of a table of units. *)
Definition unit_entry (a u : N) : Prop := a < 2 ^ 256 ∧ u < 2 ^ 128.

Record field_typed (f : WaveField) : Prop := {
  ft_accounts : map_Forall (λ a x, unit_entry a (units (acc_balance x))) (accounts f);
  ft_pools : map_Forall (λ p b, unit_entry p (units b)) (pools f);
}.

Record shift_typed (s : StatefulShift) : Prop := {
  st_from : ss_from s < 2 ^ 256;
  st_to : ss_to s < 2 ^ 256;
  st_amount : ss_amount s < 2 ^ 128;
}.

Record dag_typed (d : VectorClockDag) : Prop := {
  dt_nodes : map_Forall (λ h n, h < 2 ^ 256 ∧ shift_typed (node_shift n)) (nodes d);
  dt_balances : map_Forall unit_entry (dag_balances d);
}.

Definition tx_typed (tx : EvmTransaction) : Prop := tx_hash tx < 2 ^ 256 ∧ tx_from tx < 2 ^ 160.

Record evm_typed {V : Revm} (p : EvmPool) : Prop := {
  et_pending : Forall tx_typed (pending p);
  et_statuses : map_Forall (λ h _, h < 2 ^ 256) (statuses p);
  et_nonces : map_Forall (λ a n, a < 2 ^ 160 ∧ n < 2 ^ 64) (nonces p);
}.

Definition stakes_typed (t : StakeTable) : Prop :=
  map_Forall (λ a e, unit_entry a (stake e)) (operators t).

Record osc_typed {C : Crypto} {V : Revm} (o : Oscillator) : Prop := {
  ot_field : field_typed (wave_field o);
  ot_dag : dag_typed (dag o);
  ot_evm : evm_typed (evm_pool o);
  ot_stakes : stakes_typed (stake_table o);
  ot_stateful : Forall shift_typed (pending_stateful o);
  ot_commutative : Forall (λ e, e.2 < 2 ^ 256) (pending_commutative o);
  ot_tick : synthesis_tick o < 2 ^ 64;
}.

Lemma typed_ids {C : Crypto} {V : Revm} o : osc_typed o → ids_ok o.
Proof.
  intros [[F1 F2] [D1 D2] [_ E1 E2] S _ _ _]. split.
  - intros a [x Hx]. apply (F1 a x Hx).
  - intros a [x Hx]. apply (F2 a x Hx).
  - intros a [x Hx]. apply (D1 a x Hx).
  - intros a [x Hx]. apply (D2 a x Hx).
  - intros a [x Hx]. apply (E2 a x Hx).
  - intros a [x Hx]. apply (E1 a x Hx).
  - intros a e Ha. apply (S a e Ha).
Qed.

(** ** Loops and tables *)

Lemma entry_add_typed a n m : a < 2 ^ 256 → map_Forall unit_entry m → map_Forall unit_entry (entry_add a n m).
Proof. intros Ha Hm. unfold entry_add. apply map_Forall_insert_2; [|done]. split; auto with fluidic. Qed.

(** A loop preserves what each of its turns preserves. *)
Lemma fold_left_ind {A B} (P : A → Prop) (Q : B → Prop) (f : A → B → A) l a :
  P a → Forall Q l → (∀ a b, P a → Q b → P (f a b)) → P (fold_left f l a).
Proof. intros Ha Hl Hf. revert a Ha. induction Hl as [|b l Hb _ IH]; intros a Ha; cbn; eauto. Qed.

Lemma fold_opt_ind {A B} (P : A → Prop) (Q : B → Prop) (f : A → B → option A) l a r :
  P a → Forall Q l → (∀ a b a', P a → Q b → f a b = Some a' → P a') → fold_opt f l a = Some r → P r.
Proof.
  intros Ha Hl Hf. revert a Ha. induction Hl as [|b l Hb _ IH]; intros a Ha; cbn; [congruence|].
  intros (a' & Ha' & Hr)%bind_Some. eauto.
Qed.

(** ** The wave field *)

Section field.

Lemma account_or_default_range f a : field_typed f → units (acc_balance (account_or_default f a)) < 2 ^ 128.
Proof.
  intros [Hf _]. unfold account_or_default. destruct (accounts f !! a) as [x|] eqn:Hx; [|done].
  apply (Hf a x Hx).
Qed.

(** Every change of one account goes through [update_balance]. *)
Lemma update_balance_typed f a g : field_typed f → a < 2 ^ 256 →
  (∀ b, units b < 2 ^ 128 → units (g b) < 2 ^ 128) → field_typed (update_balance f a g).
Proof.
  intros Hf Ha Hg. pose proof (account_or_default_range f a Hf). destruct Hf as [H1 H2]. split; [|done].
  apply map_Forall_insert_2; [|done]. split; [done|]. by apply Hg.
Qed.

Lemma ensure_account_typed f a : field_typed f → a < 2 ^ 256 → field_typed (ensure_account f a).
Proof.
  intros Hf Ha. pose proof (account_or_default_range f a Hf). destruct Hf as [H1 H2]. split; [|done].
  by apply map_Forall_insert_2.
Qed.

Lemma credit_typed f a n : field_typed f → a < 2 ^ 256 → field_typed (credit_account f a n).
Proof. intros Hf Ha. apply update_balance_typed; [done..|]. intros b _. cbn. auto with fluidic. Qed.

Lemma debit_typed f a n : field_typed f → a < 2 ^ 256 → field_typed (debit_account f a n).1.
Proof.
  intros Hf Ha. unfold debit_account. destruct (_ <? _); [by apply ensure_account_typed|].
  apply update_balance_typed; [done..|]. intros b Hb. cbn. lia.
Qed.

Lemma non_decaying_typed f a : field_typed f → a < 2 ^ 256 → field_typed (set_non_decaying f a).
Proof. intros Hf Ha. by apply update_balance_typed. Qed.

Lemma write_back_typed tick act f ab : field_typed f → unit_entry ab.1 ab.2 → field_typed (write_back tick act f ab).
Proof. intros Hf [Ha Hb]. by apply update_balance_typed. Qed.

Lemma decay_in_place_le b tick rate : units (decay_balance_in_place b tick rate).1 ≤ units b.
Proof.
  unfold decay_balance_in_place. destruct (negb (decays b)); [done|]. destruct (_ && _); [done|].
  destruct (_ || _); [done|]. cbn. apply decayed_balance_upper.
Qed.

Lemma decay_typed {HO : HashOrder} f tick rate immune : field_typed f →
  field_typed (apply_metabolic_decay f tick rate immune).1.
Proof.
  intros [H1 H2]. split; cbn.
  - intros a x Hx. rewrite map_lookup_imap in Hx. apply bind_Some in Hx as (y & Hy & [= <-]).
    destruct (H1 a y Hy) as [Ha Hu]. split; [done|]. unfold decay_account. case_bool_decide; [done|].
    pose proof (decay_in_place_le (acc_balance y) tick rate).
    destruct (decay_balance_in_place _ _ _) as [b n]. cbn in *. lia.
  - intros p x Hx. rewrite lookup_fmap in Hx. apply fmap_Some in Hx as (b & Hb & ->).
    destruct (H2 p b Hb) as [Hp Hu]. split; [done|]. pose proof (decay_in_place_le b tick rate). lia.
Qed.

Lemma pool_balance_range f p : field_typed f → units (pool_balance f p) < 2 ^ 128.
Proof.
  intros [_ Hf]. unfold pool_balance. destruct (pools f !! p) as [b|] eqn:Hb; [|done]. apply (Hf p b Hb).
Qed.

Lemma commutative_delta_typed f p z : field_typed f → p < 2 ^ 256 → field_typed (apply_commutative_delta f p z).1.
Proof.
  intros Hf Hp. pose proof (pool_balance_range f p Hf) as Hb. destruct Hf as [H1 H2].
  assert (Hw : ∀ b, units b < 2 ^ 128 → field_typed (with_pools f (<[p := b]> (pools f)))).
  { intros b Hu. split; [done|]. by apply map_Forall_insert_2. }
  unfold apply_commutative_delta. destruct (0 <=? z)%Z; [apply Hw; cbn; auto with fluidic|].
  destruct (_ <? _); apply Hw; [done|]. cbn. lia.
Qed.

Lemma aggregates_typed l : ∀ f, field_typed f → Forall (λ pz, pz.1 < 2 ^ 256) l → field_typed (apply_aggregates f l).1.
Proof.
  induction l as [|[p z] l IH]; intros f Hf Hl; cbn [apply_aggregates]; [done|].
  apply Forall_cons in Hl as [Hp Hl]. cbn in Hp. pose proof (commutative_delta_typed f p z Hf Hp) as Hd.
  destruct (apply_commutative_delta f p z) as [f' [[]|e]]; [|done]. by apply IH.
Qed.

Lemma aggregate_pools_typed size ds td aggs :
  Forall (λ d : Delta, d.2 < 2 ^ 256) ds →
  fold_opt (aggregate_delta size) ds (replicate size 0%Z, ∅) = Some (td, aggs) →
  map_Forall (λ p _, p < 2 ^ 256) aggs.
Proof.
  intros Hd Hf. apply (fold_opt_ind (λ acc : list Z * gmap N Z, map_Forall (λ p _, p < 2 ^ 256) acc.2)
    (λ d : Delta, d.2 < 2 ^ 256) (aggregate_delta size) ds (replicate size 0%Z, ∅) (td, aggs)); try done.
  intros [t m] [[c z] p] acc Hm Hp. cbn. intros (v & _ & [= <-])%bind_Some. by apply map_Forall_insert_2.
Qed.

Lemma batch_typed {HO : HashOrder} f ds f' r : field_typed f → Forall (λ d : Delta, d.2 < 2 ^ 256) ds →
  synthesize_commutative_batch f ds = Some (f', r) → field_typed f'.
Proof.
  intros Hf Hd. unfold synthesize_commutative_batch. intros ([td aggs] & Ha & Hr)%bind_Some.
  apply bind_Some in Hr as (inp & _ & Hr). apply bind_Some in Hr as (rec & _ & Hr).
  apply bind_Some in Hr as ([[]|e] & _ & Hr); [|by injection Hr as <- _].
  apply (inj Some) in Hr. set (f0 := {| accounts := accounts f; pools := pools f |}) in Hr.
  assert (H0 : field_typed f0) by (destruct Hf; by split).
  pose proof (aggregates_typed (hm_iter aggs) f0 H0) as Hg. rewrite Hr in Hg. apply Hg.
  apply Forall_forall. intros [p z] Hp%elem_of_hm_iter.
  apply (aggregate_pools_typed _ _ _ _ Hd Ha p z Hp).
Qed.
End field.

(** ** The DAG *)

Section dag.
Context {C : Crypto} {HO : HashOrder} {CL : CryptoLaws C}.

Lemma ss_hash_range s : ss_hash s < 2 ^ 256.
Proof using CL. apply blake3_256. Qed.

(** Updates of nodes that keep their shift. *)
Lemma dag_map_typed d d' : dag_typed d → dag_balances d' = dag_balances d →
  (∀ h, node_shift <$> nodes d' !! h = node_shift <$> nodes d !! h) → dag_typed d'.
Proof using.
  intros [H1 H2] Hb Hn. split; [|by rewrite Hb]. intros h n' Hh. specialize (Hn h). rewrite Hh in Hn.
  destruct (nodes d !! h) as [n|] eqn:Hd; [|done]. injection Hn as Hs. rewrite Hs. apply (H1 h n Hd).
Qed.

Lemma alter_typed d h f : dag_typed d → (∀ n, node_shift (f n) = node_shift n) →
  dag_typed (with_nodes d (alter f h (nodes d))).
Proof using.
  intros Hd Hf. apply (dag_map_typed d); [done..|]. intros k. cbn.
  destruct (decide (h = k)) as [<-|Hk]; [|by rewrite lookup_alter_ne].
  rewrite lookup_alter_eq. destruct (nodes d !! h); cbn; [by rewrite Hf|done].
Qed.

Lemma balances_typed d b : dag_typed d → map_Forall unit_entry b → dag_typed (with_dag_balances d b).
Proof using. intros [H1 _] Hb. by split. Qed.

Lemma seed_balance_typed d a n : dag_typed d → a < 2 ^ 256 → dag_typed (seed_balance d a n).
Proof using. intros Hd Ha. apply balances_typed; [done|]. apply entry_add_typed; [done|apply Hd]. Qed.

Lemma promote_typed d t : dag_typed d → dag_typed (promote_all d t).
Proof using.
  intros Hd. apply (dag_map_typed d); [done..|]. intros h. cbn. rewrite lookup_fmap.
  destruct (nodes d !! h); cbn; [|done]. f_equal. unfold promote_node. by destruct (promotable t d0).
Qed.

Lemma insert_node_typed d h s tick depth d' : dag_typed d → h < 2 ^ 256 → shift_typed s →
  insert_node d h s tick depth = Some d' → dag_typed d'.
Proof using.
  intros [H1 H2] Hh Hs. unfold insert_node. intros (ns & Hns & [= <-])%bind_Some. split; [|done]. cbn.
  apply map_Forall_insert_2; [by split|]. case_bool_decide; [by injection Hns as <-|].
  apply (fold_opt_ind (map_Forall (λ h n, h < 2 ^ 256 ∧ shift_typed (node_shift n))) (λ _ : N, True)
    (add_child h) (ss_predecessors s) (nodes d)); [done|by apply Forall_forall| |done].
  intros m p m' Hm _ (n & Hn & [= <-])%bind_Some. apply map_Forall_insert_2; [|done]. apply (Hm p n Hn).
Qed.

Lemma dag_insert_typed d s vk tick depth d' r : dag_typed d → shift_typed s →
  dag_insert d s vk tick depth = Some (d', r) → dag_typed d'.
Proof using CL.
  intros Hd Hs. unfold dag_insert. destruct (negb _); [intros [= <- _]; destruct Hd; by split|].
  case_bool_decide; [by intros [= <- _]|].
  destruct (missing_predecessor d s); [intros [= <- _]; destruct Hd; by split|].
  intros (d1 & H1 & [= <- _])%bind_Some. eapply insert_node_typed; [done|apply ss_hash_range|done..].
Qed.

Lemma mark_double_spends_typed l d : dag_typed d → dag_typed (fold_left mark_double_spend l d).
Proof using.
  intros Hd. apply (fold_left_ind dag_typed (λ _, True)); [done|by apply Forall_forall|].
  intros d1 e H1 _. destruct e; try done. by apply alter_typed.
Qed.

Lemma mark_applied_typed l d : dag_typed d → dag_typed (fold_left mark_applied l d).
Proof using.
  intros Hd. apply (fold_left_ind dag_typed (λ _, True)); [done|by apply Forall_forall|].
  intros d1 h H1 _. by apply alter_typed.
Qed.
End dag.

(** ** The EVM pool *)

Section evm.
Context {C : Crypto} {E : Ethers} {V : Revm} {HO : HashOrder} {CL : CryptoLaws C}.

Lemma submit_typed p tx now : evm_typed p → tx_typed tx → evm_typed (submit p tx now).
Proof using.
  intros [H1 H2 H3] Ht. unfold submit. case_bool_decide; [done|].
  assert (Hs : tx_typed (stamped tx now)) by (unfold stamped; destruct (_ =? 0); [apply Ht|done]).
  split; [|apply map_Forall_insert_2; [apply Hs|done]|done]. apply Forall_app. split; [done|].
  by apply Forall_singleton.
Qed.

(** What the drain loop keeps in range. *)
Definition loop_typed (l : EvmLoop) : Prop :=
  map_Forall (λ h _, h < 2 ^ 256) (lp_statuses l) ∧ map_Forall (λ a n, a < 2 ^ 160 ∧ n < 2 ^ 64) (lp_nonces l).

Lemma evm_step_typed fin tick l it : loop_typed l → tx_typed it.2 → loop_typed (evm_step fin tick l it).
Proof using.
  destruct it as [i tx]. intros [H1 H2] [Hh Hf]. cbn [snd] in *. unfold evm_step.
  destruct (negb _); [split; [by apply map_Forall_insert_2|done]|].
  destruct (execute (lp_exec l) tx) as [x r]. destruct (outcome r) as [[st g] logs].
  split; cbn; [by apply map_Forall_insert_2|].
  destruct logs; [|done]. apply map_Forall_insert_2; [|done]. split; [done|apply wadd_lt].
Qed.

Lemma sync_back_typed x b r : map_Forall unit_entry b → sync_balances_back x b = Some r →
  map_Forall unit_entry r.2.
Proof using CL.
  intros Hb. unfold sync_balances_back. intros ([db m] & Hf & [= <-])%bind_Some. cbn.
  apply (fold_opt_ind (λ a : DB * gmap N N, map_Forall unit_entry a.2) (λ _ : N, True)
    sync_one (hs_iter (touched x)) (exec_db x, b) (db, m)); [done|by apply Forall_forall| |done].
  intros [db1 m1] a acc H1 _. unfold sync_one. cbn [fst snd]. destruct (db_basic db1 a) as [db2 o].
  destruct (N.leb_spec (2 ^ 128) (default 0 o)) as [|Hlt]; [done|]. intros [= <-]. cbn.
  apply map_Forall_insert_2; [|done]. split; [apply blake3_256|done].
Qed.

Lemma pool_synthesize_typed p b fin tick p' b' n hs : evm_typed p → map_Forall unit_entry b →
  pool_synthesize p b fin tick = Some (p', b', n, hs) → evm_typed p' ∧ map_Forall unit_entry b'.
Proof using CL.
  intros [H1 H2 H3] Hb. unfold pool_synthesize. set (txs := sort_by tx_le (pending p)).
  set (l0 := {| lp_exec := _ |}).
  intros (xb & Hx & Hr)%bind_Some. injection Hr as <- <- _ _.
  split; [|by eapply sync_back_typed].
  assert (Hl : loop_typed (evm_loop fin tick txs l0)).
  { apply (fold_left_ind loop_typed (λ it : nat * EvmTransaction, tx_typed it.2)); [by split| |].
    - apply Forall_forall. intros [i tx] Hin%elem_of_zip_r. cbn. unfold txs in Hin.
      rewrite sort_by_perm in Hin. rewrite Forall_forall in H1. by apply H1.
    - intros l it Hl Hit. by apply evm_step_typed. }
  destruct Hl as [L1 L2]. by split.
Qed.
End evm.

(** ** The oscillator's operations *)

(** Inputs in range: what the byte arrays and integers of a decoded signal are. *)
Definition signal_typed (s : Signal) : Prop :=
  match s with
  | SigCommutative c => cs_pool_id c < 2 ^ 256
  | SigStateful s => shift_typed s
  | SigRegistration r => rs_account r < 2 ^ 256 ∧ rs_wave_account r < 2 ^ 256 ∧ rs_usdc_account r < 2 ^ 256
  | SigStake s => sk_operator s < 2 ^ 256 ∧ sk_amount s < 2 ^ 128
  | _ => True
  end.

Section oscillator.
Context {C : Crypto} {E : Ethers} {V : Revm} {HO : HashOrder} {CL : CryptoLaws C}.

(** Updates of parts whose ranges the invariant does not mention, or that stay in range. *)
Ltac typed_update := match goal with H : osc_typed _ |- _ => destruct H; split; done end.

Lemma with_field_typed o f : osc_typed o → field_typed f → osc_typed (with_field o f).
Proof using. intros Ho Hf. typed_update. Qed.
Lemma with_dag_typed o d : osc_typed o → dag_typed d → osc_typed (with_dag o d).
Proof using. intros Ho Hd. typed_update. Qed.
Lemma with_evm_typed o p : osc_typed o → evm_typed p → osc_typed (with_evm o p).
Proof using. intros Ho Hp. typed_update. Qed.
Lemma with_stakes_typed o t : osc_typed o → stakes_typed t → osc_typed (with_stakes o t).
Proof using. intros Ho Ht. typed_update. Qed.

(** Nothing the invariant mentions changes. *)
Record same_ranges (o o' : Oscillator) : Prop := {
  sr_field : wave_field o' = wave_field o;
  sr_dag : dag o' = dag o;
  sr_evm : evm_pool o' = evm_pool o;
  sr_stakes : stake_table o' = stake_table o;
  sr_stateful : pending_stateful o' = pending_stateful o;
  sr_commutative : pending_commutative o' = pending_commutative o;
  sr_tick : synthesis_tick o' = synthesis_tick o;
}.

Lemma same_typed o o' : same_ranges o o' → osc_typed o → osc_typed o'.
Proof using.
  intros [E1 E2 E3 E4 E5 E6 E7] []. split; by rewrite ?E1, ?E2, ?E3, ?E4, ?E5, ?E6, ?E7.
Qed.

Lemma nonce_same o a d n : same_ranges o (check_and_record_nonce o a d n).1.
Proof using. unfold check_and_record_nonce. destruct (seen_nonces o !! _); [destruct (_ <=? _)|]; by split. Qed.

Lemma ingest_typed o s now : osc_typed o → signal_typed s → osc_typed (ingest o s now).1.
Proof using.
  intros Ho Hs. destruct s as [c|s| | | | | |]; cbn [ingest]; try done.
  - unfold ingest_commutative. destruct (registry_get _ _) as [p|]; [|done].
    destruct (negb _); [done|]. case_bool_decide; [done|]. destruct Ho. split; try done.
    apply Forall_app. split; [done|]. by apply Forall_singleton.
  - unfold ingest_stateful. destruct (registry_get _ _) as [p|]; [|done].
    destruct (negb _); [done|]. destruct (_ && _); [done|].
    pose proof (same_typed _ _ (nonce_same o (ss_from s) (ss_domain s) (ss_nonce s)) Ho) as H1.
    destruct (check_and_record_nonce o _ _ _) as [o1 [[]|e]]; [|done]. cbn [fst] in *.
    case_bool_decide; [done|]. destruct (_ =? 0); [done|]. destruct H1. split; try done.
    apply Forall_app. split; [done|]. apply Forall_singleton. by destruct Hs.
Qed.

Lemma seed_typed o a n : osc_typed o → a < 2 ^ 256 → osc_typed (osc_seed_account o a n).
Proof using.
  intros Ho Ha. unfold osc_seed_account. destruct (Supply.mint _ _) as [s ok]. destruct (negb ok); [done|].
  apply with_field_typed; [apply with_dag_typed; [by apply (same_typed o)|]|].
  - apply seed_balance_typed; [apply Ho|done].
  - apply credit_typed; [apply Ho|done].
Qed.

Lemma mark_typed o a : osc_typed o → a < 2 ^ 256 → osc_typed (mark_non_decaying o a).
Proof using. intros Ho Ha. apply with_field_typed; [done|]. apply non_decaying_typed; [apply Ho|done]. Qed.

Lemma lock_stake_typed t op n : stakes_typed t → op < 2 ^ 256 → n < 2 ^ 128 → stakes_typed (lock_stake t op n).1.
Proof using. intros Ht Ho Hn. by apply map_Forall_insert_2. Qed.

Lemma stake_typed o s : osc_typed o → signal_typed (SigStake s) → osc_typed (apply_stake o s).1.
Proof using.
  intros Ho [Hop Ham]. unfold apply_stake. destruct (negb _); [done|].
  pose proof (same_typed _ _ (nonce_same o (sk_operator s) 0 (sk_nonce s)) Ho) as H1.
  destruct (check_and_record_nonce o _ _ _) as [o1 [[]|e]]; [|done]. cbn [fst] in H1. clear Ho o.
  destruct (_ =? _); [done|]. destruct (_ <? sk_amount s).
  - destruct (_ <? _); [done|].
    pose proof (debit_typed (wave_field o1) (sk_operator s)
      (sk_amount s - get_stake (stake_table o1) (sk_operator s)) (ot_field _ H1) Hop) as Hf.
    destruct (debit_account _ _ _) as [f ok]. cbn [fst] in Hf.
    pose proof (with_field_typed o1 f H1 Hf) as H2. destruct (negb ok); [done|].
    apply with_stakes_typed; [|by apply lock_stake_typed; [apply H2|..]].
    apply with_dag_typed; [done|]. apply balances_typed; [apply H2|].
    apply map_Forall_insert_2; [|apply H2]. split; [done|].
    pose proof (dt_balances _ (ot_dag _ H2)) as Hb.
    destruct (dag_balances _ !! sk_operator s) as [b|] eqn:Hl; cbn; [|done].
    specialize (Hb _ _ Hl). destruct Hb. lia.
  - apply with_stakes_typed; [|by apply lock_stake_typed; [apply H1|..]].
    apply with_dag_typed; [apply with_field_typed; [done|apply credit_typed; [apply H1|done]]|].
    apply balances_typed; [apply H1|]. apply entry_add_typed; [done|apply H1].
Qed.

Lemma registration_typed o r : osc_typed o → signal_typed (SigRegistration r) → osc_typed (apply_registration o r).
Proof using.
  intros Ho (Ha & Hw & Hu). unfold apply_registration.
  pose proof (same_typed _ _ (nonce_same o (rs_account r) 0 (rs_nonce r)) Ho) as H1.
  destruct (check_and_record_nonce o _ _ _) as [o1 [[]|e]]; [|done]. cbn [fst] in H1. clear Ho o.
  apply with_field_typed.
  - apply with_dag_typed; [done|]. apply seed_balance_typed; [|done]. apply seed_balance_typed; [apply H1|done].
  - cbn. set (f1 := set_non_decaying _ _). assert (Hf1 : field_typed f1).
    { apply non_decaying_typed; [|done]. do 3 (apply ensure_account_typed; [|done]). apply H1. }
    set (f2 := if _ =? 0 then _ else f1). assert (Hf2 : field_typed f2)
      by (unfold f2; destruct (_ =? 0); [by apply credit_typed|done]).
    clearbody f2. destruct (_ =? 0); [by apply credit_typed|done].
Qed.

Lemma domain_typed o p a : osc_typed o → a < 2 ^ 256 → osc_typed (register_domain o p a).1.
Proof using.
  intros Ho Ha. unfold register_domain. destruct (policy_new _ _ _ _ _ _ _) as [q|e]; [|done].
  destruct (registry_contains _ _); [done|]. destruct (_ <? _); [done|].
  pose proof (debit_typed (wave_field o) a domain_reservation_fee_units (ot_field _ Ho) Ha) as Hf.
  destruct (debit_account _ _ _) as [f ok]. cbn [fst] in Hf. pose proof (with_field_typed o f Ho Hf) as H1.
  destruct (negb ok); [done|]. cbn [fst]. by apply (same_typed (with_field o f)).
Qed.

Lemma slash_typed t op : stakes_typed t → is_Some (operators t !! op) → stakes_typed (slash t op).1.
Proof using.
  intros Ht [e He]. apply map_Forall_insert_2; [|done]. destruct (Ht op e He). by split.
Qed.

Lemma certificate_typed o c keys : osc_typed o → osc_typed (osc_ingest_certificate o c keys).1.
Proof using.
  intros Ho. unfold osc_ingest_certificate, tracker_apply.
  assert (H0 : ∀ t, osc_typed (with_supply (with_stakes (with_tracker o t) (stake_table o)) (supply_tracker o)))
    by (intros t; by apply (same_typed o)).
  destruct (keys !! sc_operator c) as [pk|]; [|apply H0]. destruct (negb _); [apply H0|].
  destruct (negb (is_staked_in _ _)) eqn:Hst; [apply H0|]. apply negb_false_iff in Hst. cbn in Hst.
  destruct (by_operator_tick _ !! _) as [prior|]; [|apply H0]. destruct (negb _); [|apply H0].
  cbn [slash_in osc_oracle]. assert (Hop : is_Some (operators (stake_table o) !! sc_operator c)).
  { unfold is_staked in Hst. destruct (operators (stake_table o) !! _); [by eexists|done]. }
  pose proof (slash_typed _ _ (ot_stakes _ Ho) Hop) as Hsl.
  cbn [fst snd] in *. destruct (slash (stake_table o) (sc_operator c)) as [t [n b]]. cbn [fst snd] in *.
  pose proof (with_stakes_typed o t Ho Hsl) as H1. by apply (same_typed (with_stakes o t)).
Qed.
End oscillator.

(** ** The synthesis cycle *)

Section synthesis.
Context {C : Crypto} {E : Ethers} {V : Revm} {HO : HashOrder} {CL : CryptoLaws C}.

Lemma decay_stage_typed o tick : osc_typed o → osc_typed (decay_stage o tick).1.
Proof using.
  intros Ho. unfold decay_stage.
  pose proof (decay_typed (wave_field o) tick (dex_lambda o) (immune_accounts o) (ot_field _ Ho)) as Hf.
  destruct (apply_metabolic_decay _ _ _ _) as [f n]. cbn [fst] in *.
  apply (same_typed (with_field o f)); [|by apply with_field_typed].
  destruct (0 <? burn_share_of n), (0 <? n - burn_share_of n); by split.
Qed.

Lemma sync_dag_typed o : osc_typed o → osc_typed (sync_dag o).
Proof using.
  intros Ho. apply with_dag_typed; [done|]. apply balances_typed; [apply Ho|].
  apply (fold_left_ind (map_Forall unit_entry) (λ ka, unit_entry ka.1 (units (acc_balance ka.2)))); [apply Ho| |].
  - apply Forall_forall. intros [a x] Hx%elem_of_hm_iter. apply (ft_accounts _ (ot_field _ Ho) a x Hx).
  - intros b [a x] Hb Hx. by apply map_Forall_insert_2.
Qed.

Lemma insert_stage_typed o keys tick fin r : osc_typed o → insert_stage o keys tick fin = Some r → osc_typed r.1.
Proof using CL.
  intros Ho. unfold insert_stage. intros ([d rej] & Hf & Hr)%bind_Some.
  apply bind_Some in Hr as (ds & _ & Hr). injection Hr as <-. cbn [fst].
  assert (Hd : dag_typed d).
  { apply (fold_opt_ind (λ acc : VectorClockDag * list DagError, dag_typed acc.1) shift_typed
      (insert_pending (domain_registry o) keys tick) (pending_stateful o) (dag o, []) (d, rej));
      [apply Ho|apply Ho| |done].
    intros [d1 l] s acc H1 Hs. unfold insert_pending. destruct (keys !! ss_from s); [|by intros [= <-]].
    intros ([d2 r] & H2 & [= <-])%bind_Some. cbn. by eapply dag_insert_typed. }
  apply with_dag_typed; [destruct Ho; by split|]. by apply promote_typed, mark_double_spends_typed.
Qed.

Lemma route_typed reg l : Forall (λ e : N * Coordinate * Z * N, e.2 < 2 ^ 256) l →
  map_Forall (λ _ ds, Forall (λ d : Delta, d.2 < 2 ^ 256) ds) (fold_left (route_delta reg) l ∅).
Proof using.
  intros Hl. apply (fold_left_ind (map_Forall (λ _ ds, Forall (λ d : Delta, d.2 < 2 ^ 256) ds))
    (λ e : N * Coordinate * Z * N, e.2 < 2 ^ 256)); [by intros k ds; rewrite lookup_empty|done|].
  intros m [[[dom c] z] p] Hm Hp. unfold route_delta. destruct (registry_get reg dom) as [q|]; [|done].
  destruct (policy_commutative q); [|done]. apply map_Forall_insert_2; [|done]. apply Forall_app.
  split; [|by apply Forall_singleton]. destruct (m !! dom) as [ds|] eqn:Hd; cbn; [apply (Hm dom ds Hd)|done].
Qed.

Lemma commutative_stage_typed o tick r : osc_typed o → commutative_stage o tick = Some r → osc_typed r.1.1.
Proof using.
  intros Ho. unfold commutative_stage. case_bool_decide; [by intros [= <-]|].
  intros ([[[f req] root] tot] & Hf & [= <-])%bind_Some. cbn [fst].
  assert (Ha : field_typed f ∧ Forall (λ e : N * Coordinate * Z * N, e.2 < 2 ^ 256) req).
  { apply (fold_opt_ind (λ acc : WaveField * list (N * Coordinate * Z * N) * N * nat,
        field_typed acc.1.1.1 ∧ Forall (λ e : N * Coordinate * Z * N, e.2 < 2 ^ 256) acc.1.1.2)
      (λ dd : N * list Delta, Forall (λ d : Delta, d.2 < 2 ^ 256) dd.2) (batch_stage tick)
      (hm_iter (fold_left (route_delta (domain_registry o)) (pending_commutative o) ∅))
      (wave_field o, [], 0, 0%nat) (f, req, root, tot)); [split; [apply Ho|done]| | |done].
    - apply Forall_forall. intros [dom ds] Hd%elem_of_hm_iter.
      apply (route_typed (domain_registry o) _ (ot_commutative _ Ho) dom ds Hd).
    - intros [[[f1 r1] n1] t1] [dom ds] acc [H1 H2] Hds. unfold batch_stage. cbn [fst snd] in *.
      case_bool_decide; [by intros [= <-]|]. intros ([f2 res] & Hb & Hacc)%bind_Some.
      pose proof (batch_typed _ _ _ _ H1 Hds Hb) as Hf2.
      destruct res; injection Hacc as <-; cbn; split; try done.
      apply Forall_app. split; [done|]. apply Forall_forall. intros y Hin.
      apply list_elem_of_In, in_map_iff in Hin as (d & Hd & Hin). rewrite <- Hd.
      rewrite Forall_forall in Hds. by apply Hds, list_elem_of_In. }
  destruct Ha as [H1 H2]. apply with_field_typed; [|done]. destruct Ho. by split.
Qed.

Lemma prepare_typed o keys fin p : osc_typed o → prepare_cycle o keys fin = Some p → osc_typed (pr_osc p).
Proof using CL.
  intros Ho. unfold prepare_cycle.
  assert (H0 : osc_typed (with_tick o (wadd 64 (synthesis_tick o) 1))).
  { destruct Ho. split; try done. cbn. apply wadd_lt. }
  pose proof (decay_stage_typed _ (synthesis_tick o) H0) as H1.
  destruct (decay_stage _ _) as [o1 n]. cbn [fst] in H1. apply sync_dag_typed in H1.
  intros ([o2 rej] & H2 & Hp)%bind_Some. apply bind_Some in Hp as ([[o3 root] tot] & H3 & [= <-]). cbn.
  exact (commutative_stage_typed _ _ _ (insert_stage_typed _ _ _ _ _ H1 H2) H3).
Qed.

Lemma settle_typed o keys order s : osc_typed o → settle o keys order = Some s →
  map_Forall unit_entry (simulated s).
Proof using.
  intros Ho Hs. apply (fold_opt_ind (λ s, map_Forall unit_entry (simulated s)) (λ _ : N, True)
    (settle_shift o keys) order _ s) in Hs; [done|apply Ho|by apply Forall_forall|].
  intros s1 h s2 H1 _. unfold settle_shift. intros (n & Hn & Hr)%bind_Some.
  destruct (dt_nodes _ (ot_dag _ Ho) h n Hn) as [_ [Hf Ht _]].
  destruct (_ || _); [by injection Hr as <-|]. destruct (keys !! _); [|by injection Hr as <-].
  destruct (negb _); [by injection Hr as <-|]. destruct (registry_get _ _); [|by injection Hr as <-].
  destruct (_ && _); [by injection Hr as <-|].
  destruct (compute_signal_fee _ _) as [[fee net]|e]; [|by injection Hr as <-].
  destruct (_ <? _); [by injection Hr as <-|]. unfold transfer in Hr.
  apply bind_Some in Hr as (b & _ & [= <-]). cbn. apply entry_add_typed; [done|].
  apply map_Forall_insert_2; [|done]. split; [done|apply wsub_lt].
Qed.

Lemma fee_stage_typed o s : osc_typed o → (∀ h n, nodes (dag o) !! h = Some n → ss_from (node_shift n) < 2 ^ 256) →
  osc_typed (fee_stage o s).
Proof using.
  intros Ho Hn. unfold fee_stage. destruct (_ =? 0); [done|].
  set (f := fold_left _ _ (wave_field o)). assert (Hf : field_typed f).
  { apply (fold_left_ind field_typed (λ af : N * N, af.1 < 2 ^ 256)); [apply Ho| |].
    - apply Forall_forall. intros [a n] Ha%elem_of_hm_iter.
      assert (Hd : map_Forall (λ a (_ : N), a < 2 ^ 256) (fold_left (add_debt o) (settled s) ∅)).
      { apply (fold_left_ind (map_Forall (λ a (_ : N), a < 2 ^ 256)) (λ _ : N, True));
          [by intros k x; rewrite lookup_empty|by apply Forall_forall|].
        intros m h Hm _. unfold add_debt. destruct (nodes (dag o) !! h) as [nd|] eqn:Hh; [|done].
        apply map_Forall_insert_2; [by apply (Hn h)|done]. }
      apply (Hd a n Ha).
    - intros f1 [a n] H1 Ha. by apply debit_typed. }
  apply (same_typed (with_field o f)); [by split|]. by apply with_field_typed.
Qed.

Lemma certify_typed o keys tick r root st evm ts o' : osc_typed o →
  certify o keys tick r root st evm ts = Some o' → osc_typed o'.
Proof using.
  intros Ho. unfold certify. destruct (operator_keypair o) as [kp|]; [|by intros [= <-]].
  destruct (negb _); [by intros [= <-]|]. intros (sr & _ & Hr)%bind_Some.
  apply bind_Some in Hr as (rr & _ & [= <-]). set (cert := sc_sign _ _ _ _ _ _ _ _ _ _ _ _ _).
  apply (same_typed (osc_ingest_certificate o cert keys).1); [by split|]. by apply certificate_typed.
Qed.

Lemma synthesize_typed o keys ts o' r hs : osc_typed o → synthesize_trace o keys ts = Some (o', r, hs) →
  osc_typed o'.
Proof using CL.
  intros Ho. unfold synthesize_trace. intros (p & Hp & Hr)%bind_Some.
  pose proof (prepare_typed _ _ _ _ Ho Hp) as H1. apply bind_Some in Hr as ([order|e] & _ & Hr); [|by injection Hr as <- _ _].
  unfold finish_cycle in Hr. apply bind_Some in Hr as (s & Hs & Hr).
  pose proof (settle_typed _ _ _ _ H1 Hs) as Hsim. apply bind_Some in Hr as ([[[pool b] n] eh] & Hpool & Hr).
  destruct (pool_synthesize_typed _ _ _ _ _ _ _ _ (ot_evm _ H1) Hsim Hpool) as [Hp1 Hb].
  apply bind_Some in Hr as (o2 & Hc & [= <- _ _]). eapply certify_typed; [|exact Hc].
  assert (H2 : osc_typed (fee_stage (with_evm (pr_osc p) pool) s)).
  { apply fee_stage_typed; [by apply with_evm_typed|]. intros h nd Hh. apply (dt_nodes _ (ot_dag _ H1) h nd Hh). }
  set (o3 := commit_dag _ _ _). assert (H3 : osc_typed o3).
  { apply with_dag_typed; [done|]. apply balances_typed; [|done]. apply mark_applied_typed, H2. }
  apply with_field_typed; [done|]. apply (fold_left_ind field_typed (λ ab : N * N, unit_entry ab.1 ab.2)); [apply H3| |].
  - apply Forall_forall. intros [a u] Ha%elem_of_hm_iter. apply (Hb a u Ha).
  - intros f ab Hf Hab. by apply write_back_typed.
Qed.
End synthesis.

(** ** Booting and restarting *)

Section restart.
Context {C : Crypto} {E : Ethers} {V : Revm} {HO : HashOrder} {HX : Hex} {ET : EvmText}.

Lemma new_typed id size kp o : osc_new id size kp = Some o → osc_typed o.
Proof using.
  unfold osc_new, field_new. intros (f & Hf & [= <-])%bind_Some. destruct (_ && _); [|done].
  apply bind_Some in Hf as (e & _ & [= <-]).
  split; [split|split|split|..]; try done; intros k x Hk; by rewrite lookup_empty in Hk.
Qed.

(** The state a restart reads back from what a node in range wrote is in range. *)
Lemma reloaded_typed o o' : osc_typed o → reloaded o o' → started_over o' → osc_typed o'.
Proof using.
  intros Ho Hr Hs. pose proof (ot_evm _ Ho) as [_ He1 He2]. pose proof (ot_stakes _ Ho) as Hst.
  pose proof (ot_field _ Ho) as [Hf1 Hf2]. pose proof (ot_dag _ Ho) as [Hd1 Hd2]. split; [split|split|split|..].
  - intros a x. rewrite (rl_accounts _ _ Hr), fmap_Some. intros (y & Hy & ->). exact (Hf1 a y Hy).
  - intros p b. rewrite (rl_pools _ _ Hr), fmap_Some. intros (c & Hc & ->). exact (Hf2 p c Hc).
  - intros h n. rewrite (rl_nodes _ _ Hr), fmap_Some. intros (m & Hm & ->). exact (Hd1 h m Hm).
  - by rewrite (rl_balances _ _ Hr).
  - by rewrite (proj2 (proj2 (so_pending _ Hs))).
  - by rewrite (rl_statuses _ _ Hr).
  - by rewrite (rl_nonces _ _ Hr).
  - unfold stakes_typed. by rewrite (rl_operators _ _ Hr).
  - by rewrite (proj1 (proj2 (so_pending _ Hs))).
  - by rewrite (proj1 (so_pending _ Hs)).
  - by rewrite (so_tick _ Hs).
Qed.

Lemma restart_typed {HL : HexLaws HX} {TL : TextLaws HX ET} o fresh : osc_typed o → dag_reachable (dag o) →
  booted fresh → osc_typed (load_snapshot fresh (snapshot_of o)).
Proof using.
  intros Ho Hd Hb. apply (reloaded_typed o); [done|apply load_reloaded; [done|by apply typed_ids]|].
  by apply load_started_over.
Qed.
End restart.
