(* ===== verification/Simulation.v ===== *)
(** * The stress simulation (src/src/consensus/simulation.rs)

    Parallel workers add alternating deltas to one spectrum bin, and the bin goes through
    the transform and back.  Proved: the result does not depend on the number of workers
    or on the order in which they finish, and the bin is recovered exactly if and only if
    its total fits the signed half of the prime field.  The signed shifts the workers
    build are dropped by the code and not modelled; [rayon] is an arbitrary order. *)
From S2P Require Import Prelude Bytes Crypto Signals ModArith Ntt Metabolic Certificate WaveField.
Local Open Scope Z_scope.

Record TuningForkMeshSimulation := {
  sim_engine : NttEngine;
  sim_pool_id : N;
  target_coordinate : Coordinate;
}.

(** [new]: the assertion, and the engine's own checks. *)
Definition sim_new (ntt_size : nat) : option TuningForkMeshSimulation :=
  if is_power_of_two (N.of_nat ntt_size) then
    e ← Ntt.engine_new ntt_size;
    Some {| sim_engine := e; sim_pool_id := (2 ^ 256 - 1)%N; target_coordinate := coord_from_scalar 0 |}
  else None.

(** Addition of [i64] in a release build. *)
Definition i64_wrap (z : Z) : Z := (z + 2 ^ 63) mod 2 ^ 64 - 2 ^ 63.
Definition i64_add (a b : Z) : Z := i64_wrap (a + b).

(** The delta of the update with global number [i]. *)
Definition delta_at (i : nat) : Z := if (i mod 2 =? 0)%nat then 17 else -7.

(** What worker [t] adds to the bin. *)
Definition worker_total (count threads t : nat) : Z :=
  let per_thread := (count / threads)%nat in
  let start := (t * per_thread)%nat in
  let extra := if (t =? threads - 1)%nat then (count mod threads)%nat else 0%nat in
  fold_left (λ local i, i64_add local (delta_at (start + i))) (seq 0 (per_thread + extra)) 0.

(** [stress_bin], with the workers finishing in the given order; [None] is a panic. *)
Definition stress_bin (sim : TuningForkMeshSimulation) (count threads : nat) (order : list nat)
    : option (Z * Z) :=
  if (threads =? 0)%nat then None
  else
    let size := ntt_size (sim_engine sim) in
    let bin := to_ntt_index (target_coordinate sim) size in
    let totals := replicate size 0 in
    totals ← fold_opt (λ ts t, x ← ts !! bin; Some (<[bin := i64_add x (worker_total count threads t)]> ts))
               order totals;
    algebraic_total ← totals !! bin;
    signal ← ntt (sim_engine sim) (map signed_to_field totals);
    recovered ← intt (sim_engine sim) signal;
    r ← recovered !! bin;
    Some (algebraic_total, field_to_signed r).

(** The sum all workers compute together. *)
Fixpoint delta_sum (start len : nat) : Z :=
  match len with O => 0 | S len => delta_at start + delta_sum (S start) len end.

(** ** Sums of deltas *)

Lemma delta_at_even k : delta_at (2 * k) = 17.
Proof. unfold delta_at. by rewrite Nat.mul_comm, Nat.Div0.mod_mul. Qed.
Lemma delta_at_odd k : delta_at (S (2 * k)) = -7.
Proof.
  unfold delta_at. replace (S (2 * k)) with (1 + k * 2)%nat by lia.
  by rewrite Nat.Div0.mod_add.
Qed.

Lemma delta_sum_app start a b : delta_sum start (a + b) = delta_sum start a + delta_sum (start + a) b.
Proof.
  revert start. induction a as [|a IH]; intros start; cbn; [by rewrite Nat.add_0_r|].
  rewrite IH. replace (start + S a)%nat with (S start + a)%nat by lia. lia.
Qed.

(** Ten for every pair, and seventeen for an odd one out. *)
Lemma delta_sum_closed n : delta_sum 0 n = 10 * Z.of_nat (n / 2) + 17 * Z.of_nat (n mod 2).
Proof.
  assert (H : ∀ k, delta_sum 0 (2 * k) = 10 * Z.of_nat k).
  { induction k as [|k IH]; [done|]. replace (2 * S k)%nat with (2 * k + 2)%nat by lia.
    rewrite delta_sum_app, IH. cbn [delta_sum Nat.add]. rewrite delta_at_even, delta_at_odd. lia. }
  pose proof (Nat.div_mod_eq n 2) as E. pose proof (Nat.mod_upper_bound n 2 ltac:(lia)).
  rewrite E at 1. rewrite delta_sum_app, H. destruct (n mod 2)%nat as [|[|?]]; [cbn; lia| |lia].
  cbn [delta_sum Nat.add]. rewrite delta_at_even. lia.
Qed.

Lemma delta_sum_abs start n : Z.abs (delta_sum start n) ≤ 17 * Z.of_nat n.
Proof.
  revert start. induction n as [|n IH]; intros start; cbn [delta_sum]; [done|].
  pose proof (IH (S start)). unfold delta_at. destruct (_ =? _)%nat; lia.
Qed.

Lemma i64_add_small a b : Z.abs (a + b) < 2 ^ 63 → i64_add a b = a + b.
Proof. intros H. unfold i64_add, i64_wrap. rewrite Z.mod_small by lia. lia. Qed.

Lemma worker_fold start len k acc : Z.abs acc + 17 * Z.of_nat len < 2 ^ 63 →
  fold_left (λ local i, i64_add local (delta_at (start + i))) (seq k len) acc
  = acc + delta_sum (start + k) len.
Proof.
  revert k acc. induction len as [|len IH]; intros k acc H; cbn [seq fold_left delta_sum]; [lia|].
  assert (Hd : Z.abs (delta_at (start + k)) ≤ 17) by (unfold delta_at; by destruct (_ =? _)%nat).
  rewrite i64_add_small by lia. rewrite IH by lia.
  replace (start + S k)%nat with (S (start + k)) by lia. lia.
Qed.

(** The workers' ranges are consecutive: together they are all the updates. *)
Definition worker_sum (count threads t : nat) : Z :=
  let per := (count / threads)%nat in
  delta_sum (t * per) (per + if (t =? threads - 1)%nat then (count mod threads)%nat else 0%nat).

Lemma worker_len count threads t : (0 < threads)%nat →
  (count / threads + (if (t =? threads - 1)%nat then count mod threads else 0) ≤ count)%nat.
Proof.
  intros H. pose proof (Nat.div_mod_eq count threads) as E.
  pose proof (Nat.mul_le_mono_r 1 threads (count / threads) ltac:(lia)) as Hm.
  destruct (_ =? _)%nat; lia.
Qed.

Lemma worker_total_sum count threads t : (0 < threads)%nat → 17 * Z.of_nat count < 2 ^ 63 →
  worker_total count threads t = worker_sum count threads t.
Proof.
  intros Ht Hc. pose proof (worker_len count threads t Ht). unfold worker_total, worker_sum.
  rewrite worker_fold by lia. by rewrite Nat.add_0_r.
Qed.

Fixpoint zsum_list (l : list Z) : Z := match l with [] => 0 | x :: l => x + zsum_list l end.

#[export] Instance zsum_list_perm : Proper ((≡ₚ) ==> (=)) zsum_list.
Proof. induction 1 as [|x l k _ IH|x y l|l1 l2 l3 _ IH1 _ IH2]; cbn in *; lia. Qed.

Lemma zsum_list_app l k : zsum_list (l ++ k) = zsum_list l + zsum_list k.
Proof. induction l as [|x l IH]; cbn; [done|]. rewrite IH. lia. Qed.

Lemma workers_before count threads k : (k < threads)%nat →
  zsum_list (map (worker_sum count threads) (seq 0 k)) = delta_sum 0 (k * (count / threads)).
Proof.
  induction k as [|k IH]; intros Hk; [done|]. rewrite seq_S, map_app, zsum_list_app, IH by lia.
  cbn [map zsum_list Nat.add]. unfold worker_sum.
  destruct (Nat.eqb_spec k (threads - 1)); [lia|].
  rewrite Nat.add_0_r.
  replace (S k * (count / threads))%nat with (k * (count / threads) + (count / threads))%nat by lia.
  rewrite delta_sum_app. cbn [Nat.add]. lia.
Qed.

Lemma workers_all count threads order : (0 < threads)%nat → order ≡ₚ seq 0 threads →
  zsum_list (map (worker_sum count threads) order) = delta_sum 0 count.
Proof.
  intros Ht ->. destruct threads as [|k]; [lia|]. rewrite seq_S, map_app, zsum_list_app, workers_before by lia.
  cbn [map zsum_list Nat.add]. unfold worker_sum. rewrite Nat.sub_1_r. cbn [Nat.pred].
  rewrite Nat.eqb_refl. rewrite Z.add_0_r, <- (Nat.add_0_l (k * _)) at 1.
  pose proof (Nat.div_mod_eq count (S k)) as E.
  replace (delta_sum 0 count) with (delta_sum 0 (k * (count / S k) + (count / S k + count mod S k))).
  { rewrite (delta_sum_app 0 (k * (count / S k))). done. }
  f_equal. lia.
Qed.

Lemma i64_add_wrap a b : i64_add (i64_wrap a) b = i64_wrap (a + b).
Proof.
  unfold i64_add, i64_wrap. f_equal.
  replace ((a + 2 ^ 63) mod 2 ^ 64 - 2 ^ 63 + b + 2 ^ 63) with ((a + 2 ^ 63) mod 2 ^ 64 + b) by lia.
  rewrite Z.add_mod_idemp_l by lia. f_equal. lia.
Qed.

(** The atomic additions of the workers to one bin, in any order. *)
Lemma bin_fold (f : nat → Z) (bin : nat) order : ∀ (ts : list Z) a, ts !! bin = Some (i64_wrap a) →
  ∃ ts', fold_opt (λ (ts : list Z) t, x ← ts !! bin; Some (<[bin := i64_add x (f t)]> ts)) order ts = Some ts'
    ∧ ts' = <[bin := i64_wrap (a + zsum_list (map f order))]> ts.
Proof.
  induction order as [|t order IH]; intros ts a Ha; cbn [fold_opt map zsum_list].
  { exists ts. split; [done|]. by rewrite Z.add_0_r, list_insert_id. }
  rewrite Ha. cbn [mbind option_bind]. rewrite i64_add_wrap.
  pose proof (lookup_lt_Some _ _ _ Ha) as Hlt.
  destruct (IH (<[bin := i64_wrap (a + f t)]> ts) (a + f t)) as (ts' & -> & ->).
  { by apply list_lookup_insert_eq. }
  eexists. split; [done|]. rewrite list_insert_insert_eq. f_equal. f_equal. lia.
Qed.

(** What a simulation computes, before asking whether the total fits. *)
Lemma stress_bin_total sim size count threads order :
  sim_new size = Some sim → (0 < threads)%nat → order ≡ₚ seq 0 threads → 17 * Z.of_nat count < 2 ^ 63 →
  stress_bin sim count threads order
  = Some (delta_sum 0 count, field_to_signed (signed_to_field (delta_sum 0 count))).
Proof.
  intros Hs Ht Hord Hc. unfold sim_new in Hs. destruct (is_power_of_two _); [|done].
  destruct (Ntt.engine_new size) as [e|] eqn:He; [|done]. cbn in Hs. injection Hs as <-.
  unfold stress_bin. destruct (Nat.eqb_spec threads 0); [lia|]. cbn [sim_engine target_coordinate].
  destruct (engine_new_inv _ _ He) as (m & W & V & Hm & Hsize & Hok).
  assert (Hsz : ntt_size e = size) by (rewrite (eo_size _ _ _ _ Hok); done).
  assert (Hs0 : (0 < size)%nat) by (rewrite Hsize; apply Nat.neq_0_lt_0, Nat.pow_nonzero; lia).
  rewrite Hsz. set (bin := to_ntt_index _ size).
  assert (Hbin : (bin < size)%nat) by by apply to_ntt_index_lt.
  destruct (bin_fold (worker_total count threads) bin order (replicate size 0) 0) as (ts & -> & Ets).
  { by apply lookup_replicate_2. }
  cbn [mbind option_bind]. assert (Esum : zsum_list (map (worker_total count threads) order) = delta_sum 0 count).
  { rewrite <- (workers_all count threads order Ht Hord). f_equal. apply map_ext. intros t.
    by apply worker_total_sum. }
  rewrite Esum, Z.add_0_l in Ets. pose proof (delta_sum_abs 0 count) as Habs.
  assert (Ew : i64_wrap (delta_sum 0 count) = delta_sum 0 count).
  { unfold i64_wrap. rewrite Z.mod_small by lia. lia. }
  rewrite Ew in Ets. assert (Hts : ts !! bin = Some (delta_sum 0 count)).
  { rewrite Ets. apply list_lookup_insert_eq. by rewrite length_replicate. }
  rewrite Hts. cbn [mbind option_bind].
  destruct (ntt_then_intt size e (map signed_to_field ts) He) as (y & Hy & _ & _ & Hi).
  { rewrite length_map, Ets, length_insert. apply length_replicate. }
  { apply Forall_forall. intros z (x & -> & _)%list_elem_of_fmap. apply signed_to_field_canonical. }
  rewrite Hy. cbn [mbind option_bind]. rewrite Hi. cbn [mbind option_bind].
  rewrite list_lookup_fmap, Hts. done.
Qed.

(** The stress simulation. With any positive number of workers finishing in any order,
    it returns (no index or division panics); the total it reports is ten per pair of
    updates and seventeen for an odd one; and the bin recovered from the transform equals
    that total exactly if and only if the total is at most 499122176, half the modulus:
    beyond some 99.8 million updates the equality the simulation is for fails. *)
Theorem stress_bin_exact sim size count threads order :
  sim_new size = Some sim → (0 < threads)%nat → order ≡ₚ seq 0 threads → 17 * Z.of_nat count < 2 ^ 63 →
  ∃ total recovered, stress_bin sim count threads order = Some (total, recovered)
    ∧ total = 10 * Z.of_nat (count / 2) + 17 * Z.of_nat (count mod 2)
    ∧ (total = recovered ↔ total ≤ 499122176).
Proof.
  intros Hs Ht Hord Hc. eexists _, _. split; [by eapply stress_bin_total|]. split; [apply delta_sum_closed|].
  transitivity (fits (delta_sum 0 count)); [rewrite <- field_roundtrip; done|].
  unfold fits. rewrite delta_sum_closed. lia.
Qed.

Lemma stress_bin_exact_witness : ∃ sim, sim_new 4 = Some sim ∧
  ∃ total recovered, stress_bin sim 11 3 [2; 0; 1]%nat = Some (total, recovered)
    ∧ total = 67 ∧ (total = recovered ↔ total ≤ 499122176).
Proof.
  destruct (sim_new 4) as [sim|] eqn:E; [|vm_compute in E; discriminate E]. exists sim. split; [reflexivity|].
  apply (stress_bin_exact sim 4 11 3 [2; 0; 1]%nat E); [lia| |lia].
  cbn [seq]. apply (Permutation_cons_app [0; 1]%nat []). reflexivity.
Defined.
