(* ===== verification/Bridge.v ===== *)
(** * Bridges (src/src/bridge/mod.rs)

    The adapter interface with its default methods, the stub adapter, the registry that
    polls every adapter, the policy of bridge domains and the signal that brings value in.
    Proved: polling loses no event and no error and keeps their order, and calls every
    adapter once, whatever the others answer; the policy preset is one the constructor
    accepts; the inbound signal is not accepted by [dag_insert] as it is built. *)
From S2P Require Import Prelude Bytes Value Crypto Signals Metabolic Domain Dag.
Local Open Scope N_scope.

Inductive ExternalChain := Ethereum | Solana.

Record BridgeInboundEvent := {
  be_chain : ExternalChain;
  be_external_ref : bytes;
  be_recipient : N;
  be_token_account : N;
  be_amount : N;
}.

Record BridgeOutboundRequest := {
  bo_chain : ExternalChain;
  bo_sender : N;
  bo_token_account : N;
  bo_amount : N;
  bo_external_recipient : bytes;
}.

(** The trait; its methods may change the adapter. *)
Class BridgeAdapter (A : Type) := {
  adapter_name : A → bytes;
  poll_inbound : A → option bytes → A * result bytes (list BridgeInboundEvent);
  submit_outbound : A → BridgeOutboundRequest → A * result bytes bytes;
}.

(** The default methods of the trait. *)
Definition default_poll {A} (a : A) (since : option bytes) : A * result bytes (list BridgeInboundEvent) :=
  (a, Ok []).
Definition default_submit {A} (a : A) (r : BridgeOutboundRequest) : A * result bytes bytes :=
  (a, Err (ascii "bridge adapter is a stub; no external chain connected")).

Record EthereumBridgeAdapter := { eth_name : bytes }.

#[export] Instance ethereum_adapter : BridgeAdapter EthereumBridgeAdapter := {|
  adapter_name := eth_name; poll_inbound := default_poll; submit_outbound := default_submit;
|}.

(** [Box<dyn BridgeAdapter>] *)
Inductive DynAdapter :=
  | Boxed {A : Type} `{BridgeAdapter A} (a : A).

Definition dyn_name (d : DynAdapter) : bytes := match d with @Boxed _ _ a => adapter_name a end.
Definition dyn_poll (d : DynAdapter) (since : option bytes)
    : DynAdapter * result bytes (list BridgeInboundEvent) :=
  match d with @Boxed _ _ a => let '(a, r) := poll_inbound a since in (Boxed a, r) end.

Definition BridgeRegistry : Type := list DynAdapter.
Definition bridges_new : BridgeRegistry := [].
Definition bridges_register (b : BridgeRegistry) (a : DynAdapter) : BridgeRegistry := b ++ [a].

(** [poll_all]: the registry afterwards, the events and the errors. *)
Fixpoint poll_all (b : BridgeRegistry)
    : BridgeRegistry * list BridgeInboundEvent * list (bytes * bytes) :=
  match b with
  | [] => ([], [], [])
  | a :: b =>
      let '(a', r) := dyn_poll a None in
      let '(b, events, errors) := poll_all b in
      match r with
      | Ok e => (a' :: b, e ++ events, errors)
      | Err err => (a' :: b, events, (dyn_name a', err) :: errors)
      end
  end.

(** [None] is the [expect]. *)
Definition bridge_domain_policy (domain : N) : option DomainPolicy :=
  match policy_new domain false true Strict 10 0 (Flat WAVE_PRECISION) with
  | Ok p => Some p
  | Err _ => None
  end.

Definition build_mint_signal (e : BridgeInboundEvent) (domain sender : N) (vc : VectorClock.t)
    (nonce : N) : Signal :=
  SigStateful {| ss_domain := domain; ss_from := sender; ss_to := be_token_account e;
                 ss_amount := be_amount e; ss_vector_clock := vc; ss_predecessors := [];
                 ss_nonce := nonce; ss_timestamp_ns := 0; ss_first_seen_at_ns := 0;
                 ss_signature := [] |}.

(** ** Polling *)

Definition ok_events (r : result bytes (list BridgeInboundEvent)) : list BridgeInboundEvent :=
  match r with Ok e => e | Err _ => [] end.
Definition poll_error (d : DynAdapter * result bytes (list BridgeInboundEvent)) : list (bytes * bytes) :=
  match d with (a, Err e) => [(dyn_name a, e)] | _ => [] end.

(** Every adapter is polled once; events and errors come in the order of registration. *)
Lemma poll_all_spec b :
  poll_all b = (map (λ a, (dyn_poll a None).1) b,
                concat (map (λ a, ok_events (dyn_poll a None).2) b),
                concat (map (λ a, poll_error (dyn_poll a None)) b)).
Proof.
  induction b as [|a b IH]; [done|]. cbn [poll_all map concat]. rewrite IH.
  destruct (dyn_poll a None) as [a' [e|e]]; done.
Qed.

Lemma bridge_policy_total domain : ∃ p, bridge_domain_policy domain = Some p
  ∧ policy_domain p = domain ∧ policy_ordering p = Strict ∧ policy_commutative p = false
  ∧ policy_stateful p = true ∧ metabolic_lambda_ppm p = 0.
Proof. by eexists. Qed.

(** A signal that was not signed after it was built is rejected and recorded as such. *)
Lemma unsigned_mint_rejected {C : Crypto} e domain sender vc nonce d vk tick depth s :
  sig_from_slice [] = None → build_mint_signal e domain sender vc nonce = SigStateful s →
  dag_insert d s vk tick depth
  = Some (reject d (ss_hash s) (Dag.InvalidSignature (ss_hash s)), Err (Dag.InvalidSignature (ss_hash s))).
Proof.
  intros Hs [= <-]. unfold dag_insert, ss_verify_signature, verify_bytes. cbn [ss_signature]. by rewrite Hs.
Qed.

Example stub_is_silent :
  poll_all (bridges_register bridges_new (Boxed {| eth_name := ascii "eth-stub" |}))
  = ([Boxed {| eth_name := ascii "eth-stub" |}], [], []).
Proof. reflexivity. Qed.
