(* ===== verification/Api.v ===== *)
(** * The HTTP interface (src/src/api/state.rs, src/src/api/routes.rs)

    The state the handlers share and the handlers: registration, faucet, stateful and
    commutative submissions with the pool's payouts, staking, reward claims and domain
    registration.  The read-only views are in Views.  A request is its decoded JSON, its strings
    still unparsed; a response is the data that is rendered, without the rendering; the
    node's clock is an argument.  Proved: what a submission needs before it can change
    anything; the payout arithmetic of the pool; that a payout does not depend on the
    payment; the nonces a swap blocks; what the signature of a domain registration
    covers; the recent-shift buffer; that every handler acts on the oscillator through
    its operations alone.  The live state and the wait for a tick are in Live, the rate
    limit in Server; HTTP itself is not modelled. *)
From S2P Require Import Prelude F64 Bytes Value Crypto Signals Merkle Stake Rewards Certificate.
From S2P Require Import Metabolic ModArith Ntt WaveField Domain Dag DagOrder Evm Oscillator Synthesis Settlement.
From S2P Require Import Persistence.
Local Open Scope N_scope.

(** ** Decimal numbers: [u128::from_str], [i128::from_str] *)

Definition digit (b : byte) : option N :=
  let c := Byte.to_N b in if (48 <=? c) && (c <=? 57) then Some (c - 48) else None.

Definition parse_digits (s : bytes) : option N :=
  match s with
  | [] => None
  | _ => fold_opt (λ acc b, d ← digit b; Some (10 * acc + d)) s 0
  end.

Definition parse_u128 (s : bytes) : option N :=
  let s := match s with x2b :: rest => rest | _ => s end in
  n ← parse_digits s;
  if n <? 2 ^ 128 then Some n else None.

(** [str::parse::<u64>] *)
Definition parse_u64 (s : bytes) : option N :=
  let s := match s with x2b :: rest => rest | _ => s end in
  n ← parse_digits s;
  if n <? 2 ^ 64 then Some n else None.

Definition parse_i128 (s : bytes) : option Z :=
  match s with
  | x2d :: rest => n ← parse_digits rest; if n <=? 2 ^ 127 then Some (- Z.of_N n)%Z else None
  | x2b :: rest => n ← parse_digits rest; if n <? 2 ^ 127 then Some (Z.of_N n) else None
  | _ => n ← parse_digits s; if n <? 2 ^ 127 then Some (Z.of_N n) else None
  end.

(** ** Responses *)

Inductive status_code := BAD_REQUEST | UNAUTHORIZED | SERVICE_UNAVAILABLE | NOT_FOUND.

Inductive api_message :=
  | InvalidFrom | InvalidTo | InvalidAmount | InvalidSignatureHex | MissingClock | InvalidClockNode
  | InvalidPredecessor | UnknownSender | InvalidSignatureBytes | BadSignature
  | ClockRefused (e : clock_error) | DerivedNotRegistered | ZeroSwapOutput
  | PayoutIngestFailed (e : osc_error) | ShiftIngestFailed (e : osc_error)
  | InvalidDomain | InvalidRegistrant | UnknownOrdering | FeeAmountMissing | InvalidFeeAmount
  | UnknownFeePolicy | PolicyRefused (e : policy_error) | UnknownRegistrant | DomainRefused (e : osc_error).

Definition http_error : Type := status_code * api_message.

(** ** state.rs *)

Inductive shift_kind := KindStateful | KindCommutative | KindEvm.
Inductive token := TokenWave | TokenUsdc | TokenUnits | TokenEth.

(** A sender or recipient: an account, rendered in 64 hex digits, or an EVM address,
    rendered in 40 after [0x]. *)
Inductive party := PartyAccount (a : N) | PartyAddress (a : N).

(** Identifiers and amounts before they are rendered; the status is always "accepted". *)
Record RecentShift := {
  rs_hash : N;
  rs_kind : shift_kind;
  rs_domain : option N;
  rs_from : option party;
  rs_to : option party;
  rs_amount : option Z;
  rs_token : option token;
  rs_time : N;
}.

Record SynthesisStats := {
  st_commutative : nat;
  st_stateful : nat;
  st_evm : nat;
  st_latency_ms : f64;
  st_throughput : f64;
  st_network_ms : f64;
}.

Section state.
Context {C : Crypto} {V : Revm}.

(** [gossip]: what was sent on the channel, once there is one. *)
Record ApiState := {
  osc : Oscillator;
  registry : gmap N VerifyingKey;
  derived_to_main : gmap N N;
  pool_keypair : KeyPair;
  pool_wave_account : N;
  pool_usdc_account : N;
  stats : SynthesisStats;
  gossip : option (list Signal);
  api_operator_keypair : option KeyPair;
  recent_shifts : list RecentShift;
}.

Definition with_osc (a : ApiState) (o : Oscillator) : ApiState :=
  {| osc := o; registry := registry a; derived_to_main := derived_to_main a;
     pool_keypair := pool_keypair a; pool_wave_account := pool_wave_account a;
     pool_usdc_account := pool_usdc_account a; stats := stats a; gossip := gossip a;
     api_operator_keypair := api_operator_keypair a; recent_shifts := recent_shifts a |}.
Definition with_keys (a : ApiState) (k : gmap N VerifyingKey) : ApiState :=
  {| osc := osc a; registry := k; derived_to_main := derived_to_main a;
     pool_keypair := pool_keypair a; pool_wave_account := pool_wave_account a;
     pool_usdc_account := pool_usdc_account a; stats := stats a; gossip := gossip a;
     api_operator_keypair := api_operator_keypair a; recent_shifts := recent_shifts a |}.
Definition with_derived (a : ApiState) (m : gmap N N) : ApiState :=
  {| osc := osc a; registry := registry a; derived_to_main := m;
     pool_keypair := pool_keypair a; pool_wave_account := pool_wave_account a;
     pool_usdc_account := pool_usdc_account a; stats := stats a; gossip := gossip a;
     api_operator_keypair := api_operator_keypair a; recent_shifts := recent_shifts a |}.
Definition with_stats (a : ApiState) (s : SynthesisStats) : ApiState :=
  {| osc := osc a; registry := registry a; derived_to_main := derived_to_main a;
     pool_keypair := pool_keypair a; pool_wave_account := pool_wave_account a;
     pool_usdc_account := pool_usdc_account a; stats := s; gossip := gossip a;
     api_operator_keypair := api_operator_keypair a; recent_shifts := recent_shifts a |}.
Definition with_gossip (a : ApiState) (g : option (list Signal)) : ApiState :=
  {| osc := osc a; registry := registry a; derived_to_main := derived_to_main a;
     pool_keypair := pool_keypair a; pool_wave_account := pool_wave_account a;
     pool_usdc_account := pool_usdc_account a; stats := stats a; gossip := g;
     api_operator_keypair := api_operator_keypair a; recent_shifts := recent_shifts a |}.
Definition with_recent (a : ApiState) (l : list RecentShift) : ApiState :=
  {| osc := osc a; registry := registry a; derived_to_main := derived_to_main a;
     pool_keypair := pool_keypair a; pool_wave_account := pool_wave_account a;
     pool_usdc_account := pool_usdc_account a; stats := stats a; gossip := gossip a;
     api_operator_keypair := api_operator_keypair a; recent_shifts := l |}.

Definition derive_account (base : N) (salt : bytes) : N :=
  blake3 (ascii "fluidic:derived-account:v1" ++ id_bytes base ++ salt).

Definition token_accounts (user : N) : N * N :=
  (derive_account user (ascii "WAVE"), derive_account user (ascii "USDC")).

Definition register_key (a : ApiState) (account : N) (k : VerifyingKey) : ApiState :=
  with_keys a (<[account := k]> (registry a)).
Definition register_derived (a : ApiState) (derived main : N) : ApiState :=
  with_derived a (<[derived := main]> (derived_to_main a)).
Definition main_account (a : ApiState) (derived : N) : option N := derived_to_main a !! derived.

(** Seeding through the shared oscillator. *)
Definition seed (a : ApiState) (account amount : N) : ApiState :=
  with_osc a (osc_seed_account (osc a) account amount).

Definition POOL_SEED : N := 100000000000000000.

(** [ApiState::new]; the key of the pool is derived from the zero seed. *)
Definition api_new (o : Oscillator) : ApiState :=
  let kp := from_seed 0 in
  let wave := derive_account (account_id kp) (ascii "WAVE") in
  let usdc := derive_account (account_id kp) (ascii "USDC") in
  let a := {| osc := o; registry := ∅; derived_to_main := ∅; pool_keypair := kp;
              pool_wave_account := wave; pool_usdc_account := usdc;
              stats := {| st_commutative := 0; st_stateful := 0; st_evm := 0; st_latency_ms := f64_zero;
                          st_throughput := f64_zero; st_network_ms := f64_zero |};
              gossip := None; api_operator_keypair := None; recent_shifts := [] |} in
  let a := seed (seed a wave POOL_SEED) usdc POOL_SEED in
  let a := with_osc a (mark_non_decaying (osc a) usdc) in
  register_key (register_key a wave (public_key kp)) usdc (public_key kp).

Definition set_gossip (a : ApiState) : ApiState := with_gossip a (Some []).
Definition set_api_operator (a : ApiState) (kp : KeyPair) : ApiState :=
  {| osc := osc a; registry := registry a; derived_to_main := derived_to_main a;
     pool_keypair := pool_keypair a; pool_wave_account := pool_wave_account a;
     pool_usdc_account := pool_usdc_account a; stats := stats a; gossip := gossip a;
     api_operator_keypair := Some kp; recent_shifts := recent_shifts a |}.

(** [broadcast_stake] and [broadcast_registration] *)
Definition broadcast (a : ApiState) (s : Signal) : ApiState :=
  match gossip a with Some sent => with_gossip a (Some (sent ++ [s])) | None => a end.

Definition record_synthesis (a : ApiState) (r : SynthesisResult) : ApiState :=
  with_stats a {| st_commutative := st_commutative (stats a) + commutative_applied r;
                  st_stateful := st_stateful (stats a) + stateful_applied r;
                  st_evm := st_evm (stats a) + evm_applied r;
                  st_latency_ms := avg_latency_ms r; st_throughput := throughput_per_sec r;
                  st_network_ms := st_network_ms (stats a) |}.

(** A moving average of the round trips; the first one stands for itself. *)
Definition record_network_latency_ms (a : ApiState) (ms : f64) : ApiState :=
  let s := stats a in
  with_stats a {| st_commutative := st_commutative s; st_stateful := st_stateful s; st_evm := st_evm s;
                  st_latency_ms := st_latency_ms s; st_throughput := st_throughput s;
                  st_network_ms := if f64_eq (st_network_ms s) f64_zero then ms
                                   else f64_add (f64_mul (st_network_ms s) f64_0_8) (f64_mul ms f64_0_2) |}.

Definition record_shift (a : ApiState) (s : RecentShift) : ApiState :=
  let buf := s :: recent_shifts a in
  with_recent a (if (200 <? length buf)%nat then take 200 buf else buf).

Definition wave_reserve (a : ApiState) : N := units (account_balance (wave_field (osc a)) (pool_wave_account a)).
Definition usdc_reserve (a : ApiState) : N := units (account_balance (wave_field (osc a)) (pool_usdc_account a)).

(** [pool_price], for display. *)
Definition pool_price (a : ApiState) : f64 :=
  if wave_reserve a =? 0 then f64_zero else f64_div (f64_of_N (usdc_reserve a)) (f64_of_N (wave_reserve a)).

Definition wave_to_usdc_out (a : ApiState) (wave_in : N) : N :=
  if wave_reserve a =? 0 then 0 else sat_mul 128 wave_in (usdc_reserve a) / wave_reserve a.
Definition usdc_to_wave_out (a : ApiState) (usdc_in : N) : N :=
  if usdc_reserve a =? 0 then 0 else sat_mul 128 usdc_in (wave_reserve a) / usdc_reserve a.

Definition api_shift_status (a : ApiState) (h : N) : option ShiftStatus := shift_status (dag (osc a)) h.

Definition build_pool_payout_shift (kp : KeyPair) (from to amount nonce : N) (tip : VectorClock.t)
    : StatefulShift :=
  let shift sig := {| ss_domain := DEFAULT_DEX_DOMAIN; ss_from := from; ss_to := to;
    ss_amount := amount; ss_vector_clock := (VectorClock.tick tip from).1; ss_predecessors := [];
    ss_nonce := nonce; ss_timestamp_ns := 0; ss_first_seen_at_ns := 0; ss_signature := sig |} in
  shift (sign kp (ss_signing_bytes (shift []))).
End state.

(** ** routes.rs: requests *)

Record StatefulShiftRequest := {
  rq_from : bytes;
  rq_to : bytes;
  rq_amount : bytes;
  rq_domain : option N;
  rq_vector_clock : option (gmap bytes N);
  rq_predecessors : list bytes;
  rq_nonce : N;
  rq_timestamp_ns : N;
  rq_signature : bytes;
}.

Record CommutativeShiftRequest := {
  cq_domain : option bytes;
  cq_components : list N;
  cq_delta : bytes;
  cq_pool_id : bytes;
  cq_nonce : N;
  cq_timestamp_ns : N;
  cq_signature : bytes;
}.

Record RegisterDomainRequest := {
  dq_domain : bytes;
  dq_commutative : bool;
  dq_stateful : bool;
  dq_ordering : bytes;
  dq_finalization_depth : N;
  dq_metabolic_lambda_ppm : N;
  dq_fee_policy : bytes;
  dq_fee_amount : option bytes;
  dq_registrant : bytes;
  dq_signature : bytes;
}.

(** [map_err]: the error of an option. *)
Definition or_err {E A} (e : E) (o : option A) : result E A :=
  match o with Some x => Ok x | None => Err e end.

Section handlers.
Context {C : Crypto} {E : Ethers} {V : Revm} {HO : HashOrder} {HX : Hex}.

(** [parse_account], [parse_domain], [parse_hash] *)
Definition parse_id (s : bytes) : option N := id_from_hex s.

(** One entry of the submitted clock. *)
Definition clock_entry (vc : VectorClock.t) (e : bytes * N) : result http_error VectorClock.t :=
  match parse_id e.1 with
  | Some node => Ok (<[node := e.2]> vc)
  | None => Err (BAD_REQUEST, InvalidClockNode)
  end.

Fixpoint fold_res {E A B} (f : A → B → result E A) (l : list B) (a : A) : result E A :=
  match l with [] => Ok a | x :: l => a ← f a x; fold_res f l a end.

Definition parse_predecessor (ps : list N) (h : bytes) : result http_error (list N) :=
  p ← or_err (BAD_REQUEST, InvalidPredecessor) (parse_id h); Ok (ps ++ [p]).

Definition parse_stateful_shift (rq : StatefulShiftRequest) : result http_error StatefulShift :=
  from ← or_err (BAD_REQUEST, InvalidFrom) (parse_id (rq_from rq));
  to ← or_err (BAD_REQUEST, InvalidTo) (parse_id (rq_to rq));
  amount ← or_err (BAD_REQUEST, InvalidAmount) (parse_u128 (rq_amount rq));
  signature ← or_err (BAD_REQUEST, InvalidSignatureHex) (hex_decode (rq_signature rq));
  entries ← or_err (BAD_REQUEST, MissingClock) (rq_vector_clock rq);
  vc ← fold_res clock_entry (hm_iter entries) VectorClock.new;
  predecessors ← fold_res parse_predecessor (rq_predecessors rq) [];
  Ok {| ss_domain := default DEFAULT_DEX_DOMAIN (rq_domain rq); ss_from := from; ss_to := to;
        ss_amount := amount; ss_vector_clock := vc; ss_predecessors := predecessors;
        ss_nonce := rq_nonce rq; ss_timestamp_ns := rq_timestamp_ns rq;
        ss_first_seen_at_ns := 0; ss_signature := signature |}.

(** ** Submitting shifts *)

(** Signature and vector clock. *)
Definition check_shift (a : ApiState) (s : StatefulShift) : result http_error () :=
  pk ← or_err (UNAUTHORIZED, UnknownSender) (registry a !! ss_from s);
  sig ← or_err (BAD_REQUEST, InvalidSignatureBytes) (sig_from_slice (ss_signature s));
  if negb (ed25519_verify pk (ss_signing_bytes s) sig) then Err (UNAUTHORIZED, BadSignature)
  else
    match validate_vector_clock (dag (osc a)) (ss_from s) (ss_vector_clock s) with
    | Err e => Err (BAD_REQUEST, ClockRefused e)
    | Ok _ => Ok ()
    end.

Definition shift_token (a : ApiState) (s : StatefulShift) : token :=
  if (ss_to s =? pool_wave_account a) || (ss_from s =? pool_wave_account a) then TokenWave
  else if (ss_to s =? pool_usdc_account a) || (ss_from s =? pool_usdc_account a) then TokenUsdc
  else TokenUnits.

(** Sender, recipient and amount of the payout of a shift to the pool. *)
Definition payout_of (a : ApiState) (s : StatefulShift) : result http_error (N * N * N) :=
  main ← or_err (BAD_REQUEST, DerivedNotRegistered) (main_account a (ss_from s));
  let '(wave_user, usdc_user) := token_accounts main in
  let wave_in := ss_to s =? pool_wave_account a in
  let out := if wave_in then wave_to_usdc_out a (ss_amount s) else usdc_to_wave_out a (ss_amount s) in
  if out =? 0 then Err (SERVICE_UNAVAILABLE, ZeroSwapOutput)
  else Ok (if wave_in then (pool_usdc_account a, usdc_user, out) else (pool_wave_account a, wave_user, out)).

Definition is_swap (a : ApiState) (s : StatefulShift) : bool :=
  (ss_to s =? pool_wave_account a) || (ss_to s =? pool_usdc_account a).

(** The shift the pool signs; its nonce is the user's. *)
Definition payout_shift (a : ApiState) (s : StatefulShift) (p : N * N * N) : StatefulShift :=
  build_pool_payout_shift (pool_keypair a) p.1.1 p.1.2 p.2 (ss_nonce s) (account_tip (dag (osc a)) p.1.1).

(** The payout is built, signed and ingested before the user's shift. *)
Definition pay_out (a : ApiState) (s : StatefulShift) (now : N) : ApiState * result http_error () :=
  if negb (is_swap a s) then (a, Ok ())
  else
    match payout_of a s with
    | Err e => (a, Err e)
    | Ok p =>
        let '(o, r) := ingest (osc a) (SigStateful (payout_shift a s p)) now in
        (with_osc a o, match r with Ok _ => Ok () | Err e => Err (BAD_REQUEST, PayoutIngestFailed e) end)
    end.

Definition recent_stateful (a : ApiState) (s : StatefulShift) : RecentShift :=
  {| rs_hash := ss_hash s; rs_kind := KindStateful; rs_domain := Some (ss_domain s);
     rs_from := Some (PartyAccount (ss_from s)); rs_to := Some (PartyAccount (ss_to s));
     rs_amount := Some (Z.of_N (ss_amount s));
     rs_token := Some (shift_token a s); rs_time := ss_timestamp_ns s |}.

Definition submit_stateful (a : ApiState) (rq : StatefulShiftRequest) (now : N)
    : ApiState * result http_error N :=
  match s ← parse_stateful_shift rq; _ ← check_shift a s; Ok s with
  | Err e => (a, Err e)
  | Ok s =>
      match pay_out a s now with
      | (a, Err e) => (a, Err e)
      | (a, Ok _) =>
          let a := record_shift a (recent_stateful a s) in
          let '(o, r) := ingest (osc a) (SigStateful s) now in
          (with_osc a o, match r with
                         | Ok _ => Ok (ss_hash s)
                         | Err e => Err (BAD_REQUEST, ShiftIngestFailed e)
                         end)
      end
  end.

Definition parse_commutative (cq : CommutativeShiftRequest) : option CommutativeShift :=
  domain ← match cq_domain cq with Some h => parse_id h | None => Some DEFAULT_DEX_DOMAIN end;
  coordinate ← match cq_components cq with [x; y; z; w] => Some (Coord x y z w) | _ => None end;
  delta ← parse_i128 (cq_delta cq);
  pool_id ← parse_id (cq_pool_id cq);
  signature ← hex_decode (cq_signature cq);
  Some {| cs_domain := domain; cs_coordinate := coordinate; cs_delta := delta; cs_pool_id := pool_id;
          cs_nonce := cq_nonce cq; cs_timestamp_ns := cq_timestamp_ns cq; cs_first_seen_at_ns := 0;
          cs_signature := signature |}.

Definition recent_commutative (c : CommutativeShift) : RecentShift :=
  {| rs_hash := cs_hash c; rs_kind := KindCommutative; rs_domain := Some (cs_domain c);
     rs_from := None; rs_to := None; rs_amount := Some (cs_delta c); rs_token := Some TokenUnits;
     rs_time := cs_timestamp_ns c |}.

Definition submit_commutative (a : ApiState) (cq : CommutativeShiftRequest) (now : N)
    : ApiState * result status_code N :=
  match parse_commutative cq with
  | None => (a, Err BAD_REQUEST)
  | Some c =>
      let a := record_shift a (recent_commutative c) in
      let '(o, r) := ingest (osc a) (SigCommutative c) now in
      (with_osc a o, match r with Ok _ => Ok (cs_hash c) | Err _ => Err BAD_REQUEST end)
  end.

(** ** Registration and faucet *)

Definition FAUCET_UNITS : N := 1000000000000000.

(** The public key of the request; its hex text must be 32 bytes of a valid key. *)
Definition parse_key (h : bytes) : option VerifyingKey :=
  bs ← hex_decode h;
  if negb (length bs =? 32)%nat then None else vk_from_bytes (of_be bs).

Definition register_account (a : ApiState) (public_key_hex : bytes)
    : ApiState * result status_code (N * N * N) :=
  match parse_key public_key_hex with
  | None => (a, Err BAD_REQUEST)
  | Some vk =>
      let account := account_from_public_key vk in
      let a := register_key a account vk in
      let '(wave, usdc) := token_accounts account in
      let a := seed (seed a wave FAUCET_UNITS) usdc FAUCET_UNITS in
      let a := with_osc a (mark_non_decaying (osc a) usdc) in
      let a := register_key (register_key a wave vk) usdc vk in
      let a := register_derived (register_derived a wave account) usdc account in
      let a := broadcast a (SigRegistration
        {| rs_account := account; rs_public_key := vk_to_bytes vk; rs_wave_account := wave;
           rs_usdc_account := usdc; rs_nonce := 0; rs_timestamp_ns := 0 |}) in
      (a, Ok (account, wave, usdc))
  end.

Definition evm_faucet (a : ApiState) (address : bytes) : ApiState * result status_code N :=
  match hex_decode (trim_0x address) with
  | None => (a, Err BAD_REQUEST)
  | Some bs =>
      if negb (length bs =? 20)%nat then (a, Err BAD_REQUEST)
      else
        let account := evm_address_to_fluidic (of_be bs) in
        (seed a account FAUCET_UNITS, Ok account)
  end.

(** ** Operators and rewards *)

Definition submit_operator_stake (a : ApiState) (amount : bytes) (now : N)
    : ApiState * result status_code bool :=
  match parse_u128 amount with
  | None => (a, Err BAD_REQUEST)
  | Some amount =>
      match api_operator_keypair a with
      | None => (a, Err SERVICE_UNAVAILABLE)
      | Some kp =>
          let stake := sk_sign kp amount 0 now in
          let '(o, ok) := apply_stake (osc a) stake in
          let a := with_osc a o in
          if negb ok then (a, Err BAD_REQUEST)
          else (broadcast a (SigStake stake), Ok (is_staked (stake_table (osc a)) (account_id kp)))
      end
  end.

(** Claimed units are minted to the account. *)
Definition claim_operator_rewards (a : ApiState) : ApiState * result status_code N :=
  match api_operator_keypair a with
  | None => (a, Err SERVICE_UNAVAILABLE)
  | Some kp =>
      let account := account_id kp in
      let '(pool, claimed) := claim (reward_pool (osc a)) account in
      let a := with_osc a (with_rewards (osc a) pool) in
      (if 0 <? claimed then seed a account claimed else a, Ok claimed)
  end.

Definition claim_lp_rewards (a : ApiState) (pool_id : bytes) : ApiState * result status_code N :=
  match parse_id pool_id with
  | None => (a, Err BAD_REQUEST)
  | Some pool_id =>
      let '(pool, claimed) := claim_lp_reward (reward_pool (osc a)) pool_id in
      let a := with_osc a (with_rewards (osc a) pool) in
      let half := claimed / 2 in
      (if 0 <? claimed
       then seed (seed a (pool_wave_account a) half) (pool_usdc_account a) (claimed - half) else a,
       Ok claimed)
  end.

(** ** Domains *)

Definition domain_registration_signing_bytes (p : DomainPolicy) (fee : N) : bytes :=
  ascii "FLUIDIC:REGISTER_DOMAIN:v1" ++ id_bytes (policy_domain p)
  ++ [if policy_commutative p then x01 else x00] ++ [if policy_stateful p then x01 else x00]
  ++ [match policy_ordering p with Causal => x00 | Commutative => x01 | Strict => x02 end]
  ++ u64_le (finalization_depth p) ++ u64_le (metabolic_lambda_ppm p) ++ u128_le fee.

Definition parse_ordering (s : bytes) : result http_error OrderingMode :=
  if bool_decide (s = ascii "causal") then Ok Causal
  else if bool_decide (s = ascii "commutative") then Ok Commutative
  else if bool_decide (s = ascii "strict") then Ok Strict
  else Err (BAD_REQUEST, UnknownOrdering).

Definition parse_fee_policy (kind : bytes) (amount : option bytes) : result http_error FeePolicy :=
  if bool_decide (kind = ascii "metabolic_only") then Ok MetabolicOnly
  else if bool_decide (kind = ascii "flat") then
    s ← or_err (BAD_REQUEST, FeeAmountMissing) amount;
    n ← or_err (BAD_REQUEST, InvalidFeeAmount) (parse_u128 s); Ok (Flat n)
  else if bool_decide (kind = ascii "percentage") then
    s ← or_err (BAD_REQUEST, FeeAmountMissing) amount;
    n ← or_err (BAD_REQUEST, InvalidFeeAmount) (parse_u64 s); Ok (Percentage n)
  else Err (BAD_REQUEST, UnknownFeePolicy).

(** The policy and the registrant of a request whose signature is valid. *)
Definition check_domain_request (a : ApiState) (dq : RegisterDomainRequest)
    : result http_error (DomainPolicy * N) :=
  domain ← or_err (BAD_REQUEST, InvalidDomain) (parse_id (dq_domain dq));
  registrant ← or_err (BAD_REQUEST, InvalidRegistrant) (parse_id (dq_registrant dq));
  signature ← or_err (BAD_REQUEST, InvalidSignatureHex) (hex_decode (dq_signature dq));
  ordering ← parse_ordering (dq_ordering dq);
  fees ← parse_fee_policy (dq_fee_policy dq) (dq_fee_amount dq);
  policy ← match policy_new domain (dq_commutative dq) (dq_stateful dq) ordering
                   (dq_finalization_depth dq) (dq_metabolic_lambda_ppm dq) fees with
           | Ok p => Ok p
           | Err e => Err (BAD_REQUEST, PolicyRefused e)
           end;
  let signing_bytes := domain_registration_signing_bytes policy domain_reservation_fee_units in
  pk ← or_err (UNAUTHORIZED, UnknownRegistrant) (registry a !! registrant);
  sig ← or_err (BAD_REQUEST, InvalidSignatureBytes) (sig_from_slice signature);
  if negb (ed25519_verify pk signing_bytes sig) then Err (UNAUTHORIZED, BadSignature)
  else Ok (policy, registrant).

Definition register_domain_route (a : ApiState) (dq : RegisterDomainRequest)
    : ApiState * result http_error () :=
  match check_domain_request a dq with
  | Err e => (a, Err e)
  | Ok (policy, registrant) =>
      let '(o, r) := register_domain (osc a) policy registrant in
      (with_osc a o, match r with Ok _ => Ok () | Err e => Err (BAD_REQUEST, DomainRefused e) end)
  end.

(** ** What a submission needs *)

Lemma check_shift_ok a s : check_shift a s = Ok () →
  ∃ pk, registry a !! ss_from s = Some pk ∧ ss_verify_signature s pk = true
        ∧ validate_vector_clock (dag (osc a)) (ss_from s) (ss_vector_clock s) = Ok ().
Proof using.
  unfold check_shift. destruct (registry a !! ss_from s) as [pk|]; [|done]. cbn [or_err mbind result_bind].
  unfold ss_verify_signature, verify_bytes. destruct (sig_from_slice (ss_signature s)) as [sig|]; [|done].
  cbn [or_err mbind result_bind]. destruct (ed25519_verify _ _ _) eqn:Hv; cbn [negb]; [|done].
  destruct (validate_vector_clock _ _ _) as [[]|e] eqn:Hc; [|done]. intros _. by exists pk.
Qed.

Lemma check_domain_ok a dq policy registrant : check_domain_request a dq = Ok (policy, registrant) →
  ∃ pk sig, registry a !! registrant = Some pk ∧ hex_decode (dq_signature dq) = Some sig
    ∧ verify_bytes pk (domain_registration_signing_bytes policy domain_reservation_fee_units) sig = true.
Proof using.
  unfold check_domain_request, verify_bytes.
  destruct (parse_id (dq_domain dq)); [|done]. destruct (parse_id (dq_registrant dq)); [|done].
  destruct (hex_decode (dq_signature dq)) as [sig|]; [|done]. cbn [or_err mbind result_bind].
  destruct (parse_ordering _); [|done]. cbn [mbind result_bind].
  destruct (parse_fee_policy _ _); [|done]. cbn [mbind result_bind].
  destruct (policy_new _ _ _ _ _ _ _); [|done]. cbn [mbind result_bind].
  destruct (registry a !! _) as [pk|] eqn:Hr; [|done]. cbn [or_err mbind result_bind].
  destruct (sig_from_slice sig) as [s|] eqn:Hs; [|done]. cbn [or_err mbind result_bind].
  destruct (ed25519_verify _ _ _) eqn:Hv; cbn [negb]; [|done]. intros [= <- <-]. exists pk, sig.
  split; [done|]. split; [done|]. by rewrite Hs.
Qed.


(** ** The pool's arithmetic *)

Lemma sat_div_le x y d : sat_mul 128 x y / d ≤ x * y / d.
Proof using. destruct (N.eq_dec d 0) as [->|]; [by rewrite !N.div_0_r|]. apply N.Div0.div_le_mono, sat_mul_le. Qed.


(** ** What a domain registration signs *)

(** The bytes a registrant signs determine the domain, the two flags, the ordering, the
    finalization depth, the decay rate and the reservation fee, and nothing else: two
    policies have the same bytes exactly when they agree on those, whatever their fee
    policies, so a signed registration can be submitted with any other fee policy. *)
Theorem registration_bytes_cover p q fee fee' :
  policy_domain p < 2 ^ 256 → policy_domain q < 2 ^ 256 →
  finalization_depth p < 2 ^ 64 → finalization_depth q < 2 ^ 64 →
  metabolic_lambda_ppm p < 2 ^ 64 → metabolic_lambda_ppm q < 2 ^ 64 →
  fee < 2 ^ 128 → fee' < 2 ^ 128 →
  domain_registration_signing_bytes p fee = domain_registration_signing_bytes q fee'
  ↔ policy_domain p = policy_domain q ∧ policy_commutative p = policy_commutative q
    ∧ policy_stateful p = policy_stateful q ∧ policy_ordering p = policy_ordering q
    ∧ finalization_depth p = finalization_depth q
    ∧ metabolic_lambda_ppm p = metabolic_lambda_ppm q ∧ fee = fee'.
Proof using.
  intros. split.
  - unfold domain_registration_signing_bytes. intros Heq.
    apply app_inv_head in Heq. split_fields Heq.
    apply id_bytes_inj in Hf; [|done..]. apply u64_le_inj in Hf3; [|done..]. apply u64_le_inj in Hf4; [|done..].
    apply u128_le_inj in Heq; [|done..]. split_and!; try done.
    + by destruct (policy_commutative p), (policy_commutative q).
    + by destruct (policy_stateful p), (policy_stateful q).
    + by destruct (policy_ordering p), (policy_ordering q).
  - intros (E1 & E2 & E3 & E4 & E5 & E6 & E7). unfold domain_registration_signing_bytes.
    by rewrite E1, E2, E3, E4, E5, E6, E7.
Qed.

(** ** Handlers act through the oscillator's operations *)

(** [a'] is [a] after operations that settle nothing. *)
Definition acts (a a' : ApiState) : Prop := ∃ ac, osc_steps (osc a) ac [] (osc a').

Lemma acts_refl a : acts a a.
Proof using. eexists. apply oss_refl. Qed.

(** Anything that leaves the oscillator alone. *)
Lemma acts_same a a' : osc a' = osc a → acts a a'.
Proof using. intros E'. unfold acts. rewrite E'. eexists. apply oss_refl. Qed.

Lemma acts_trans a1 a2 a3 : acts a1 a2 → acts a2 a3 → acts a1 a3.
Proof using. intros [x Hx] [y Hy]. exists (x ++ y). exact (osc_steps_trans _ _ _ _ _ _ _ Hx Hy). Qed.

Lemma acts_step a a' ac : osc_step (osc a) ac [] (osc a') → acts a a'.
Proof using. intros Hs. exists ac. by apply osc_steps_one. Qed.

Lemma acts_ingest a s now : acts a (with_osc a (ingest (osc a) s now).1).
Proof using. eapply acts_step. apply os_ingest. Qed.
Lemma acts_seed a x n : acts a (seed a x n).
Proof using. eapply acts_step. apply os_seed. Qed.
Lemma acts_mark a x : acts a (with_osc a (mark_non_decaying (osc a) x)).
Proof using. eapply acts_step. apply os_mark. Qed.

Lemma acts_pay_out a s now : acts a (pay_out a s now).1.
Proof using.
  unfold pay_out. destruct (negb (is_swap a s)); [apply acts_refl|].
  destruct (payout_of a s) as [p|e]; [|apply acts_refl].
  pose proof (acts_ingest a (SigStateful (payout_shift a s p)) now) as Ha.
  by destruct (ingest (osc a) (SigStateful (payout_shift a s p)) now) as [o r].
Qed.

Lemma acts_submit_stateful a rq now : acts a (submit_stateful a rq now).1.
Proof using.
  unfold submit_stateful. destruct (s ← parse_stateful_shift rq; _ ← check_shift a s; Ok s) as [s|e];
    [|apply acts_refl].
  pose proof (acts_pay_out a s now) as Hp. destruct (pay_out a s now) as [a1 [[]|e]]; [|done]. cbn [fst] in Hp.
  set (a2 := record_shift a1 (recent_stateful a1 s)).
  pose proof (acts_ingest a2 (SigStateful s) now) as Hi.
  destruct (ingest (osc a2) (SigStateful s) now) as [o r]. cbn [fst] in *.
  eapply acts_trans; [exact Hp|]. eapply acts_trans; [|exact Hi]. by apply acts_same.
Qed.

Lemma acts_submit_commutative a cq now : acts a (submit_commutative a cq now).1.
Proof using.
  unfold submit_commutative. destruct (parse_commutative cq) as [c|]; [|apply acts_refl].
  set (a2 := record_shift a (recent_commutative c)). pose proof (acts_ingest a2 (SigCommutative c) now) as Hi.
  destruct (ingest (osc a2) (SigCommutative c) now) as [o r]. cbn [fst] in *.
  eapply acts_trans; [|exact Hi]. by apply acts_same.
Qed.

Lemma osc_broadcast a s : osc (broadcast a s) = osc a.
Proof using. unfold broadcast. by destruct (gossip a). Qed.

Lemma acts_register a h : acts a (register_account a h).1.
Proof using.
  unfold register_account. destruct (parse_key h) as [vk|]; [|apply acts_refl]. cbn [token_accounts fst].
  set (acct := account_from_public_key vk).
  set (wave := derive_account acct (ascii "WAVE")). set (usdc := derive_account acct (ascii "USDC")).
  set (a1 := register_key a acct vk). eapply acts_trans; [apply (acts_same a a1); done|].
  eapply acts_trans; [apply (acts_seed a1 wave FAUCET_UNITS)|].
  eapply acts_trans; [apply (acts_seed _ usdc FAUCET_UNITS)|].
  eapply acts_trans; [apply (acts_mark _ usdc)|]. apply acts_same. by rewrite osc_broadcast.
Qed.

Lemma acts_faucet a h : acts a (evm_faucet a h).1.
Proof using.
  unfold evm_faucet. destruct (hex_decode (trim_0x h)) as [bs|]; [|apply acts_refl].
  destruct (negb _); [apply acts_refl|apply acts_seed].
Qed.

Lemma acts_operator_stake a amount now : acts a (submit_operator_stake a amount now).1.
Proof using.
  unfold submit_operator_stake. destruct (parse_u128 amount) as [n|]; [|apply acts_refl].
  destruct (api_operator_keypair a) as [kp|]; [|apply acts_refl].
  pose proof (acts_step a (with_osc a (apply_stake (osc a) (sk_sign kp n 0 now)).1) [] (os_stake _ _)) as Hs.
  destruct (apply_stake (osc a) (sk_sign kp n 0 now)) as [o ok]. cbn [fst] in Hs.
  destruct (negb ok); [exact Hs|]. eapply acts_trans; [exact Hs|]. apply acts_same. apply osc_broadcast.
Qed.

Lemma acts_claim a : acts a (claim_operator_rewards a).1.
Proof using.
  unfold claim_operator_rewards. destruct (api_operator_keypair a) as [kp|]; [|apply acts_refl].
  cbn [claim fst]. set (a1 := with_osc a _).
  assert (H1 : acts a a1) by (eapply acts_step, os_claim).
  destruct (_ <? _); [|exact H1]. eapply acts_trans; [exact H1|apply acts_seed].
Qed.

Lemma acts_claim_lp a h : acts a (claim_lp_rewards a h).1.
Proof using.
  unfold claim_lp_rewards. destruct (parse_id h) as [pool|]; [|apply acts_refl].
  cbn [claim_lp_reward fst]. set (a1 := with_osc a _).
  assert (H1 : acts a a1) by (eapply acts_step, os_claim_lp).
  destruct (_ <? _); [|exact H1]. eapply acts_trans; [exact H1|]. eapply acts_trans; apply acts_seed.
Qed.

Lemma acts_domain a dq : acts a (register_domain_route a dq).1.
Proof using.
  unfold register_domain_route. destruct (check_domain_request a dq) as [[p r]|e]; [|apply acts_refl].
  pose proof (acts_step a (with_osc a (register_domain (osc a) p r).1) [] (os_domain _ _ _)) as Hs.
  by destruct (register_domain (osc a) p r) as [o res].
Qed.

Lemma acts_new o : ∃ ac, osc_steps o ac [] (osc (api_new o)).
Proof using.
  unfold api_new. set (a0 := {| osc := o |}).
  set (wave := derive_account _ _). set (usdc := derive_account _ (ascii "USDC")).
  change o with (osc a0). eapply acts_trans; [apply (acts_seed a0 wave POOL_SEED)|].
  eapply acts_trans; [apply (acts_seed _ usdc POOL_SEED)|].
  eapply acts_trans; [apply (acts_mark _ usdc)|]. by apply acts_same.
Qed.
End handlers.

(** ** The recent-shift buffer *)

(** However many shifts are recorded, the buffer holds the last two hundred, newest first. *)
Lemma recent_window {C : Crypto} {V : Revm} (a : ApiState) l : (length (recent_shifts a) ≤ 200)%nat →
  recent_shifts (fold_left record_shift l a) = take 200 (rev l ++ recent_shifts a).
Proof.
  revert a. induction l as [|s l IH]; intros a Hl; cbn [fold_left rev].
  { by rewrite take_ge. }
  assert (E1 : recent_shifts (record_shift a s) = take 200 (s :: recent_shifts a)).
  { unfold record_shift. cbn [recent_shifts with_recent].
    destruct (Nat.ltb_spec 200 (length (s :: recent_shifts a))); [done|]. by rewrite take_ge. }
  rewrite IH, E1; [|rewrite E1, length_take; lia].
  rewrite <- app_assoc. cbn [app]. rewrite !take_app. f_equal. rewrite take_take. f_equal. lia.
Qed.

(** ** Concrete requests *)

Section sample.
Local Existing Instance lawful_crypto.
Local Existing Instance plain_ethers.
Local Existing Instance transfer_vm.
Local Existing Instance map_order.
Local Existing Instance plain_hex.

Definition key_hex (kp : KeyPair) : bytes := hex_encode (id_bytes (vk_to_bytes (public_key kp))).
Definition wave_of (kp : KeyPair) : N := (token_accounts (account_id kp)).1.
Definition usdc_of (kp : KeyPair) : N := (token_accounts (account_id kp)).2.

(** A node with a pool and two registered users. *)
Definition sample_api : option ApiState :=
  o ← osc_new 1 4 (from_seed 9);
  Some (register_account (register_account (api_new o) (key_hex alice)).1 (key_hex bob)).1.

(** A request that moves WAVE of a user, signed by its key. *)
Definition wave_shift (kp : KeyPair) (to amount nonce : N) : StatefulShift :=
  let s sig := {| ss_domain := DEFAULT_DEX_DOMAIN; ss_from := wave_of kp; ss_to := to;
    ss_amount := amount; ss_vector_clock := {[ wave_of kp := 1 ]}; ss_predecessors := [];
    ss_nonce := nonce; ss_timestamp_ns := 5; ss_first_seen_at_ns := 0; ss_signature := sig |} in
  s (sign kp (ss_signing_bytes (s []))).

Definition request_of (s : StatefulShift) (amount : bytes) : StatefulShiftRequest :=
  {| rq_from := id_to_hex (ss_from s); rq_to := id_to_hex (ss_to s); rq_amount := amount;
     rq_domain := None;
     rq_vector_clock := Some (list_to_map (map (λ kv, (id_to_hex kv.1, kv.2)) (map_to_list (ss_vector_clock s))));
     rq_predecessors := map id_to_hex (ss_predecessors s); rq_nonce := ss_nonce s;
     rq_timestamp_ns := ss_timestamp_ns s; rq_signature := hex_encode (ss_signature s) |}.

Definition pool_swap (kp : KeyPair) (nonce : N) (a : ApiState) : StatefulShift :=
  wave_shift kp (pool_wave_account a) 5000000000000000 nonce.
Definition swap_request (kp : KeyPair) (nonce : N) (a : ApiState) : StatefulShiftRequest :=
  request_of (pool_swap kp nonce a) (ascii "5000000000000000").

Definition units_of (o : Oscillator) (x : N) : N := units (account_balance (wave_field o) x).

(** A user swaps five times the WAVE it owns: the request is accepted, the payment is refused
    at settlement for want of funds, and the pool pays the proceeds all the same. *)
Example swap_without_payment :
  (a ← sample_api;
   let '(a', r) := submit_stateful a (swap_request alice 1 a) 8 in
   '(o, res) ← synthesize (osc a') (registry a') 9;
   Some (is_ok r, stateful_applied res,
         (units_of (osc a) (wave_of alice), units_of (osc a) (usdc_of alice)),
         (dag_balances (dag o) !! wave_of alice, dag_balances (dag o) !! usdc_of alice)))
  = Some (true, 1%nat, (1000000000000000, 1000000000000000),
          (Some 1000000000000000, Some 6000000000000000)).
Proof. vm_compute. reflexivity. Qed.

(** The key of the pool is derived from a constant: anyone can sign for the pool. *)
Definition pool_theft (a : ApiState) : StatefulShift :=
  let thief := from_seed 0 in
  let s sig := {| ss_domain := DEFAULT_DEX_DOMAIN; ss_from := pool_wave_account a; ss_to := wave_of bob;
    ss_amount := 70000000000000000; ss_vector_clock := {[ pool_wave_account a := 1 ]};
    ss_predecessors := []; ss_nonce := 1; ss_timestamp_ns := 5; ss_first_seen_at_ns := 0;
    ss_signature := sig |} in
  s (sign thief (ss_signing_bytes (s []))).

Example pool_can_be_emptied :
  (a ← sample_api;
   let '(a', r) := submit_stateful a (request_of (pool_theft a) (ascii "70000000000000000")) 8 in
   '(o, res) ← synthesize (osc a') (registry a') 9;
   Some (is_ok r, stateful_applied res, dag_balances (dag o) !! wave_of bob))
  = Some (true, 1%nat, Some 71000000000000000).
Proof. vm_compute. reflexivity. Qed.

(** A swap uses its nonce up for every user: the pool's payouts share one nonce sequence. *)
Example swap_nonce_blocks_others :
  (a ← sample_api;
   let '(a', r) := submit_stateful a (swap_request alice (2 ^ 64 - 1) a) 8 in
   let '(a'', r') := submit_stateful a' (swap_request bob 7 a') 8 in
   Some (is_ok r, match r' with
                  | Err (BAD_REQUEST, PayoutIngestFailed (Replay 7 seen)) => seen
                  | _ => 0
                  end))
  = Some (true, 2 ^ 64 - 1).
Proof. vm_compute. reflexivity. Qed.

Definition flat_policy (fees : FeePolicy) : DomainPolicy :=
  {| policy_domain := 77; policy_commutative := true; policy_stateful := true;
     policy_ordering := Causal; finalization_depth := 3; metabolic_lambda_ppm := 10; fee_policy := fees |}.

Lemma registration_bytes_witness :
  domain_registration_signing_bytes (flat_policy MetabolicOnly) 5
  = domain_registration_signing_bytes (flat_policy (Percentage 9999)) 5.
Proof.
  apply (registration_bytes_cover (flat_policy MetabolicOnly) (flat_policy (Percentage 9999)) 5 5);
    try (vm_compute; reflexivity). repeat split.
Defined.
End sample.
