(* ===== verification/EvmRpc.v ===== *)
(** * The Ethereum JSON-RPC interface (src/src/api/evm_rpc.rs)

    The methods wallets call, over JSON values: hexadecimal quantities and hashes, blocks,
    transactions, receipts, logs, balances, calls and gas estimates, the submission of raw
    transactions, and the dispatch.  The hex crate, the parsers of addresses and 256-bit
    numbers and the EVM are parameters; the clock is an argument; the wait for a tick
    before a read is the one of Live.  Proved: quantities are read back exactly; 256-bit numbers are not, from
    ten up; blocks found by hash are the blocks found by number; a transaction accepted is
    a transaction found; only [eth_sendRawTransaction] changes the node. *)
From S2P Require Import Prelude Bytes Value Crypto Signals Merkle Stake Rewards Certificate.
From S2P Require Import Metabolic ModArith Ntt WaveField Domain Dag DagOrder Evm Oscillator Synthesis Settlement.
From S2P Require Import Persistence Api.
Local Open Scope N_scope.

(** ** JSON *)

(** [serde_json::Value]; a number is its text, the fields of an object have distinct names. *)
Inductive json :=
  | JNull
  | JBool (b : bool)
  | JNum (text : bytes)
  | JStr (s : bytes)
  | JArr (l : list json)
  | JObj (fields : list (bytes * json)).

Definition as_str (v : json) : option bytes := match v with JStr s => Some s | _ => None end.
Definition as_object (v : json) : option (list (bytes * json)) :=
  match v with JObj o => Some o | _ => None end.
Definition as_array (v : json) : option (list json) := match v with JArr l => Some l | _ => None end.

Fixpoint get_field (k : bytes) (fields : list (bytes * json)) : option json :=
  match fields with
  | [] => None
  | (k', v) :: fields => if bool_decide (k = k') then Some v else get_field k fields
  end.

Definition str_field (k : bytes) (fields : list (bytes * json)) : option bytes :=
  v ← get_field k fields; as_str v.

(** ** Numbers as text *)

Section radix.
Context (base : N) (char : N → byte).

(** Digits of [n], most significant first. *)
Fixpoint digits (fuel : nat) (n : N) : bytes :=
  match fuel with
  | O => []
  | S fuel => (if n <? base then [] else digits fuel (n / base)) ++ [char (n mod base)]
  end.
Definition render (n : N) : bytes := digits (S (N.to_nat (N.size n))) n.
End radix.

Definition byte_of (c : N) : byte := default x00 (Byte.of_N c).
Definition hex_char (d : N) : byte := if d <? 10 then byte_of (48 + d) else byte_of (87 + d).
Definition dec_char (d : N) : byte := byte_of (48 + d).

(** [format!("{:x}", n)] and [n.to_string()] *)
Definition lower_hex : N → bytes := render 16 hex_char.
Definition decimal : N → bytes := render 10 dec_char.

(** [format!("0x{:x}", n)] *)
Definition quantity (n : N) : bytes := ascii "0x" ++ lower_hex n.

(** [char::to_digit(16)] *)
Definition hex_digit (b : byte) : option N :=
  let c := Byte.to_N b in
  if (48 <=? c) && (c <=? 57) then Some (c - 48)
  else if (97 <=? c) && (c <=? 102) then Some (c - 87)
  else if (65 <=? c) && (c <=? 70) then Some (c - 55)
  else None.

Definition hex_value (s : bytes) : option N :=
  match s with
  | [] => None
  | _ => fold_opt (λ acc b, d ← hex_digit b; Some (16 * acc + d)) s 0
  end.

(** [u64::from_str_radix(s, 16)] *)
Definition parse_hex_u64 (s : bytes) : option N :=
  let s := match s with x2b :: rest => rest | _ => s end in
  n ← hex_value s;
  if n <? 2 ^ 64 then Some n else None.

(** ** Errors *)

Inductive rpc_message {E : Ethers} :=
  | MissingParameter
  | InvalidHex
  | WrongLength
  | InvalidBlockNumber
  | TransactionRejected (e : decode_error E)
  | ExecutionReverted (output : bytes)
  | ExecutionHalted (reason : bytes)
  | ExecutionFailed (e : bytes)
  | MethodNotFound (method : bytes).
Arguments rpc_message : clear implicits.

(** Code and message. *)
Definition rpc_error (E : Ethers) : Type := Z * rpc_message E.

(** The text of a 256-bit number: [U256::from_str]. *)
Class U256Text := parse_u256 : bytes → option N.

Section rpc.
Context {C : Crypto} {E : Ethers} {V : Revm} {HO : HashOrder} {HX : Hex} {ET : EvmText} {UT : U256Text}.

Definition rpc_result : Type := result (rpc_error E) json.

Definition invalid (m : rpc_message E) : rpc_error E := ((-32602)%Z, m).
Definition failed (m : rpc_message E) : rpc_error E := ((-32000)%Z, m).

(** [params.first().and_then(|v| v.as_str())] *)
Definition str_param (params : list json) : option bytes := v ← head params; as_str v.
Definition object_param (params : list json) : option (list (bytes * json)) := v ← head params; as_object v.

Definition parse_hex_hash (s : bytes) : result (rpc_error E) N :=
  bs ← or_err (invalid InvalidHex) (hex_decode (trim_0x s));
  if negb (length bs =? 32)%nat then Err (invalid WrongLength) else Ok (of_be bs).
Definition parse_hex_address (s : bytes) : result (rpc_error E) N :=
  bs ← or_err (invalid InvalidHex) (hex_decode (trim_0x s));
  if negb (length bs =? 20)%nat then Err (invalid WrongLength) else Ok (of_be bs).

Definition h256_to_hex (h : N) : bytes := ascii "0x" ++ hex_encode (id_bytes h).
Definition address_to_hex (a : N) : bytes := ascii "0x" ++ hex_encode (be_bytes 20 a).
Definition data_to_hex (d : bytes) : bytes := ascii "0x" ++ hex_encode d.

(** [u.to_string()] is decimal. *)
Definition u256_to_hex (u : N) : bytes := ascii "0x" ++ trim_0x (decimal u).

Definition str (s : String.string) : json := JStr (ascii s).
Arguments str s%_string_scope.
Definition zeros (k : nat) : bytes := ascii "0x" ++ repeat x30 k.
Definition opt_json {A} (f : A → bytes) (o : option A) : json :=
  match o with Some x => JStr (f x) | None => JNull end.

(** ** Blocks *)

Definition block_json (requested : N) (txs : list N) (gas now : N) : json :=
  let parent := if requested =? 0 then 0 else block_hash_for (requested - 1) in
  JObj [(ascii "number", JStr (quantity requested));
        (ascii "hash", JStr (h256_to_hex (block_hash_for requested)));
        (ascii "parentHash", JStr (h256_to_hex parent));
        (ascii "sha3Uncles", JStr (zeros 64));
        (ascii "miner", JStr (zeros 40));
        (ascii "stateRoot", JStr (zeros 64));
        (ascii "transactionsRoot", JStr (zeros 64));
        (ascii "receiptsRoot", JStr (zeros 64));
        (ascii "logsBloom", JStr (zeros 512));
        (ascii "difficulty", str "0x0");
        (ascii "totalDifficulty", str "0x0");
        (ascii "extraData", str "0x");
        (ascii "size", str "0x0");
        (ascii "gasLimit", str "0x1c9c380");
        (ascii "gasUsed", JStr (quantity gas));
        (ascii "timestamp", JStr (quantity now));
        (ascii "mixHash", JStr (zeros 64));
        (ascii "nonce", str "0x0000000000000000");
        (ascii "transactions", JArr (map (λ h, JStr (h256_to_hex h)) txs))].

Definition block_receipts (p : EvmPool) (requested : N) : list EvmReceipt :=
  List.filter (λ r, block_number r =? requested) (hm_values (receipts p)).

(** The body both block methods end with. *)
Definition block_at (a : ApiState) (requested now : N) : json :=
  let rs := block_receipts (evm_pool (osc a)) requested in
  block_json requested (map transaction_hash rs) (foldl (wadd 64) 0 (map gas_used rs)) now.

Definition is_tag (s : bytes) : bool :=
  existsb (λ t, bool_decide (s = t)) [ascii "latest"; ascii "pending"; ascii "safe"; ascii "finalized"].

Definition get_block_by_number (a : ApiState) (params : list json) (now : N) : rpc_result :=
  tag ← or_err (invalid MissingParameter) (str_param params);
  requested ← (if is_tag tag then Ok (synthesis_tick (osc a))
               else or_err (invalid InvalidBlockNumber) (parse_hex_u64 (trim_0x tag)));
  if synthesis_tick (osc a) <? requested then Ok JNull else Ok (block_at a requested now).

(** [(0..=tick).rev()], the first tick whose block hash matches. *)
Fixpoint find_block (h : N) (tick : nat) : option N :=
  if block_hash_for (N.of_nat tick) =? h then Some (N.of_nat tick)
  else match tick with O => None | S tick => find_block h tick end.

Definition get_block_by_hash (a : ApiState) (params : list json) (now : N) : rpc_result :=
  hash_hex ← or_err (invalid MissingParameter) (str_param params);
  h ← parse_hex_hash hash_hex;
  Ok (match find_block h (N.to_nat (synthesis_tick (osc a))) with
      | Some requested => block_at a requested now
      | None => JNull
      end).

Definition rpc_block_number (a : ApiState) : json := JStr (quantity (synthesis_tick (osc a))).
Definition chain_id : json := JStr (quantity FLUIDIC_EVM_CHAIN_ID).

(** ** Accounts *)

Definition rpc_get_balance (a : ApiState) (params : list json) : rpc_result :=
  address ← or_err (invalid MissingParameter) (str_param params);
  addr ← parse_hex_address address;
  Ok (JStr (quantity (units (account_balance (wave_field (osc a)) (evm_address_to_fluidic addr))))).

Definition get_transaction_count (a : ApiState) (params : list json) : rpc_result :=
  address ← or_err (invalid MissingParameter) (str_param params);
  addr ← parse_hex_address address;
  Ok (JStr (quantity (pool_nonce (evm_pool (osc a)) addr))).

Definition get_code (a : ApiState) (params : list json) : rpc_result :=
  address ← or_err (invalid MissingParameter) (str_param params);
  addr ← parse_hex_address address;
  Ok (JStr (data_to_hex (default [] (code_at (with_db (pool_db (evm_pool (osc a)))) addr)))).

(** ** Transactions and receipts *)

(** A raw transaction is decoded, queued and listed; [None] is a panic of the decoder. *)
Definition send_raw_transaction (a : ApiState) (params : list json) (now : N)
    : option (ApiState * rpc_result) :=
  match raw_hex ← or_err (invalid MissingParameter) (str_param params);
        or_err (invalid InvalidHex) (hex_decode (trim_0x raw_hex)) with
  | Err e => Some (a, Err e)
  | Ok raw =>
      decoded ← decode_raw raw;
      match decoded with
      | Err e => Some (a, Err (failed (TransactionRejected e)))
      | Ok tx =>
          let a := with_osc a (with_evm (osc a) (submit (evm_pool (osc a)) tx now)) in
          let a := record_shift a
            {| rs_hash := tx_hash tx; rs_kind := KindEvm; rs_domain := None;
               rs_from := Some (PartyAddress (tx_from tx)); rs_to := PartyAddress <$> tx_to tx;
               rs_amount := Some (Z.of_N (tx_value tx)); rs_token := Some TokenEth; rs_time := 0 |} in
          Some (a, Ok (JStr (h256_to_hex (tx_hash tx))))
      end
  end.

Definition transaction_to_json (tx : EvmTransaction) (block : option N) : json :=
  JObj [(ascii "hash", JStr (h256_to_hex (tx_hash tx)));
        (ascii "from", JStr (address_to_hex (tx_from tx)));
        (ascii "to", opt_json address_to_hex (tx_to tx));
        (ascii "value", JStr (u256_to_hex (tx_value tx)));
        (ascii "gas", JStr (quantity (tx_gas_limit tx)));
        (ascii "gasPrice", JStr (u256_to_hex (tx_gas_price tx)));
        (ascii "nonce", JStr (quantity (tx_nonce tx)));
        (ascii "input", JStr (data_to_hex (tx_data tx)));
        (ascii "v", str "0x0"); (ascii "r", str "0x0"); (ascii "s", str "0x0");
        (ascii "chainId", chain_id);
        (ascii "blockNumber", opt_json quantity block);
        (ascii "blockHash", opt_json h256_to_hex (block_hash_for <$> block));
        (ascii "transactionIndex", str "0x0")].

Definition get_transaction_by_hash (a : ApiState) (params : list json) : rpc_result :=
  hash_hex ← or_err (invalid MissingParameter) (str_param params);
  h ← parse_hex_hash hash_hex;
  Ok (match pool_transaction (evm_pool (osc a)) h with
      | Some tx => transaction_to_json tx (block_number <$> pool_receipt (evm_pool (osc a)) h)
      | None => JNull
      end).

Definition topics_json (log : EvmLog) : json := JArr (map (λ t, JStr (h256_to_hex t)) (log_topics log)).

Definition receipt_log_json (r : EvmReceipt) (it : nat * EvmLog) : json :=
  JObj [(ascii "logIndex", JStr (quantity (N.of_nat it.1)));
        (ascii "transactionIndex", JStr (quantity (transaction_index r)));
        (ascii "transactionHash", JStr (h256_to_hex (transaction_hash r)));
        (ascii "blockHash", JStr (h256_to_hex (block_hash r)));
        (ascii "blockNumber", JStr (quantity (block_number r)));
        (ascii "address", JStr (address_to_hex (log_address it.2)));
        (ascii "topics", topics_json it.2);
        (ascii "data", JStr (data_to_hex (log_data it.2)));
        (ascii "removed", JBool false)].

Definition receipt_to_json (r : EvmReceipt) : json :=
  JObj [(ascii "transactionHash", JStr (h256_to_hex (transaction_hash r)));
        (ascii "transactionIndex", JStr (quantity (transaction_index r)));
        (ascii "blockHash", JStr (h256_to_hex (block_hash r)));
        (ascii "blockNumber", JStr (quantity (block_number r)));
        (ascii "from", JStr (address_to_hex (rc_from r)));
        (ascii "to", opt_json address_to_hex (rc_to r));
        (ascii "contractAddress", opt_json address_to_hex (contract_address r));
        (ascii "cumulativeGasUsed", JStr (quantity (cumulative_gas_used r)));
        (ascii "gasUsed", JStr (quantity (gas_used r)));
        (ascii "effectiveGasPrice", JStr (u256_to_hex (effective_gas_price r)));
        (ascii "status", JStr (quantity (rc_status r)));
        (ascii "logs", JArr (imap (λ i log, receipt_log_json r (i, log)) (rc_logs r)));
        (ascii "logsBloom", JStr (zeros 512))].

(** The reason a failed status carries. *)
Definition failure_text (st : EvmTxStatus) : option bytes :=
  match st with
  | Pending | Success => None
  | FailedNonce expected => Some (ascii "invalid nonce: expected " ++ decimal expected)
  | FailedRevert output => Some (ascii "evm execution reverted: 0x" ++ hex_encode output)
  | FailedHalt reason => Some (ascii "evm execution halted: " ++ reason)
  | FailedError e => Some e
  end.

Definition get_transaction_receipt (a : ApiState) (params : list json) : rpc_result :=
  hash_hex ← or_err (invalid MissingParameter) (str_param params);
  h ← parse_hex_hash hash_hex;
  Ok (match pool_receipt (evm_pool (osc a)) h with
      | Some r => receipt_to_json r
      | None =>
          match st ← pool_status (evm_pool (osc a)) h; failure_text st with
          | Some reason =>
              JObj [(ascii "transactionHash", JStr hash_hex); (ascii "status", str "0x0");
                    (ascii "gasUsed", str "0x0"); (ascii "revertReason", JStr reason)]
          | None => JNull
          end
      end).

(** ** Calls *)

Record CallRequest := { call_from : N; call_to : option N; call_data : bytes; call_value : N }.

(** Fields that are missing or do not parse get a default. *)
Definition parse_call (call : list (bytes * json)) : CallRequest :=
  {| call_from := default 0 (s ← str_field (ascii "from") call; parse_address s);
     call_to := s ← str_field (ascii "to") call; parse_address s;
     call_data := default [] (s ← str_field (ascii "data") call; hex_decode (trim_0x s));
     call_value := default 0 (s ← str_field (ascii "value") call; parse_u256 s) |}.

(** The database with the balances and nonces of caller and target seeded. *)
Definition call_executor (a : ApiState) (c : CallRequest) : EvmExecutor :=
  fold_left (λ x addr, seed_balance_nonce x addr
               (units (account_balance (wave_field (osc a)) (evm_address_to_fluidic addr)))
               (default 0 (nonces (evm_pool (osc a)) !! addr)))
    (call_from c :: match call_to c with Some t => [t] | None => [] end)
    (with_db (pool_db (evm_pool (osc a)))).

Definition run_call (a : ApiState) (c : CallRequest) : result bytes ExecutionResult :=
  (exec_call (call_executor a c) (call_from c) (call_to c) (call_value c) (call_data c)).2.

Definition eth_call (a : ApiState) (params : list json) : rpc_result :=
  call ← or_err (invalid MissingParameter) (object_param params);
  match run_call a (parse_call call) with
  | Ok (ExSuccess _ _ output) => Ok (JStr (data_to_hex output))
  | Ok (ExRevert _ output) => Err (failed (ExecutionReverted output))
  | Ok (ExHalt _ reason) => Err (failed (ExecutionHalted reason))
  | Err e => Err (failed (ExecutionFailed e))
  end.

Definition estimate_gas (a : ApiState) (params : list json) : rpc_result :=
  call ← or_err (invalid MissingParameter) (object_param params);
  match run_call a (parse_call call) with
  | Ok r => Ok (JStr (quantity (result_gas r)))
  | Err e => Err (failed (ExecutionFailed e))
  end.

(** ** Logs and fees *)

(** One turn of the loop over the filter's topics: values that are neither null nor a string
    are skipped. *)
Definition parse_topic (topics : list (option N)) (t : json) : result (rpc_error E) (list (option N)) :=
  match t with
  | JNull => Ok (topics ++ [None])
  | JStr s => h ← parse_hex_hash s; Ok (topics ++ [Some h])
  | _ => Ok topics
  end.

Definition parse_filter (fields : list (bytes * json)) : result (rpc_error E) (option N * list (option N)) :=
  address ← match str_field (ascii "address") fields with
            | Some s => x ← parse_hex_address s; Ok (Some x)
            | None => Ok None
            end;
  topics ← fold_res parse_topic (default [] (v ← get_field (ascii "topics") fields; as_array v)) [];
  Ok (address, topics).

Definition log_json (log : EvmLog) : json :=
  JObj [(ascii "address", JStr (address_to_hex (log_address log))); (ascii "topics", topics_json log);
        (ascii "data", JStr (data_to_hex (log_data log)))].

Definition get_logs (a : ApiState) (params : list json) : rpc_result :=
  fields ← or_err (invalid MissingParameter) (object_param params);
  f ← parse_filter fields;
  Ok (JArr (map log_json (pool_logs (evm_pool (osc a)) f.1 f.2))).

Definition fee_history (params : list json) : json :=
  let block_count := N.to_nat (default 1 (s ← str_param params; parse_hex_u64 (trim_0x s))) in
  JObj [(ascii "oldestBlock", str "0x0");
        (ascii "baseFeePerGas", JArr (repeat (str "0x0") (S block_count)));
        (ascii "gasUsedRatio", JArr (repeat (JNum (ascii "0.0")) block_count));
        (ascii "reward", JArr (repeat (JArr [str "0x0"]) block_count))].

(** ** Dispatch *)

(** The methods that answer without changing the node. *)
Definition query (a : ApiState) (method : bytes) (params : list json) (now : N) : rpc_result :=
  let named m := bool_decide (method = m) in
  if named (ascii "eth_blockNumber") then Ok (rpc_block_number a)
  else if named (ascii "eth_getBlockByNumber") then get_block_by_number a params now
  else if named (ascii "eth_getBlockByHash") then get_block_by_hash a params now
  else if named (ascii "eth_chainId") || named (ascii "net_version") then Ok chain_id
  else if named (ascii "eth_gasPrice") || named (ascii "eth_maxPriorityFeePerGas") then Ok (str "0x0")
  else if named (ascii "eth_getBalance") then rpc_get_balance a params
  else if named (ascii "eth_getCode") then get_code a params
  else if named (ascii "eth_call") then eth_call a params
  else if named (ascii "eth_getTransactionByHash") then get_transaction_by_hash a params
  else if named (ascii "eth_getTransactionReceipt") then get_transaction_receipt a params
  else if named (ascii "eth_getTransactionCount") then get_transaction_count a params
  else if named (ascii "eth_estimateGas") then estimate_gas a params
  else if named (ascii "eth_getLogs") then get_logs a params
  else if named (ascii "eth_feeHistory") then Ok (fee_history params)
  else if named (ascii "eth_syncing") || named (ascii "eth_mining") then Ok (JBool false)
  else if named (ascii "net_listening") then Ok (JBool true)
  else if named (ascii "web3_clientVersion") then Ok (str "fluidic/0.1.0")
  else Err ((-32601)%Z, MethodNotFound method).

(** [now_ns] stamps submissions, [now_s] blocks. *)
Definition dispatch (a : ApiState) (method : bytes) (params : list json) (now_ns now_s : N)
    : option (ApiState * rpc_result) :=
  if bool_decide (method = ascii "eth_sendRawTransaction") then send_raw_transaction a params now_ns
  else Some (a, query a method params now_s).

Record RpcRequest := { method : bytes; params : list json; rq_id : json }.
Record RpcResponse := {
  http_ok : bool;
  rp_result : option json;
  rp_error : option (rpc_error E);
  rp_id : json;
}.

(** An unknown method is answered 404, everything else 200. *)
Definition rpc_handler (a : ApiState) (rq : RpcRequest) (now_ns now_s : N)
    : option (ApiState * RpcResponse) :=
  '(a, r) ← dispatch a (method rq) (params rq) now_ns now_s;
  Some (a, match r with
           | Ok v => {| http_ok := true; rp_result := Some v; rp_error := None; rp_id := rq_id rq |}
           | Err e => {| http_ok := negb (e.1 =? -32601)%Z; rp_result := None; rp_error := Some e;
                         rp_id := rq_id rq |}
           end).

(** ** Numbers are read back *)

Lemma hex_digit_char d : d < 16 → hex_digit (hex_char d) = Some d.
Proof using. intros Hd. destruct d as [|p]; [done|]. do 4 (destruct p as [p|p|]; try done); lia. Qed.
Lemma hex_digit_dec d : d < 10 → hex_digit (dec_char d) = Some d.
Proof using. intros Hd. destruct d as [|p]; [done|]. do 4 (destruct p as [p|p|]; try done); lia. Qed.

(** Digits of one base read in another, at least as large: the number itself when the bases
    agree, a larger one otherwise as soon as there are two digits. *)
Lemma digits_value base big char read fuel n : 2 ≤ base ≤ big →
  (∀ d, d < base → read (char d) = Some d) → n < 2 ^ N.of_nat fuel →
  ∃ v, fold_opt (λ acc b, d ← read b; Some (big * acc + d)) (digits base char fuel n) 0 = Some v
       ∧ (base = big → v = n) ∧ (n < base → v = n) ∧ (base < big → base ≤ n → n < v) ∧ n ≤ v.
Proof using.
  intros Hb Hc. revert n. induction fuel as [|fuel IH]; intros n Hn; cbn [digits].
  { cbn in Hn. exists 0. cbn. split_and!; try done; lia. }
  rewrite fold_opt_app. pose proof (N.mod_lt n base ltac:(lia)) as Hm.
  pose proof (N.div_mod n base ltac:(lia)) as Hdm.
  destruct (N.ltb_spec n base) as [Hlt|Hge].
  - cbn. rewrite Hc by done. cbn. rewrite N.mod_small, N.mul_0_r by done. exists n. split_and!; try done; lia.
  - destruct (IH (n / base)) as (v & -> & Heq & Hs & Hl & Hle).
    { replace (N.of_nat (S fuel)) with (N.succ (N.of_nat fuel)) in Hn by lia.
      rewrite N.pow_succ_r' in Hn. apply N.Div0.div_lt_upper_bound. nia. }
    cbn. rewrite Hc by done. cbn. eexists. split; [done|].
    assert (1 ≤ n / base) by (apply N.div_le_lower_bound; lia).
    split_and!; [intros ->; rewrite Heq by done; by symmetry|lia| |]; nia.
Qed.

Lemma render_read base big char read n : 2 ≤ base ≤ big →
  (∀ d, d < base → read (char d) = Some d) →
  render base char n ≠ [] ∧
  ∃ v, fold_opt (λ acc b, d ← read b; Some (big * acc + d)) (render base char n) 0 = Some v
       ∧ (base = big → v = n) ∧ (n < base → v = n) ∧ (base < big → base ≤ n → n < v) ∧ n ≤ v.
Proof using.
  intros Hb Hc. split.
  { unfold render. cbn [digits]. intros Hd. by apply app_nil in Hd as [_ [=]]. }
  apply digits_value; [done..|].
  rewrite Nat2N.inj_succ, N2Nat.id, N.pow_succ_r'. pose proof (N.size_gt n). lia.
Qed.

Lemma render_value base char n : 2 ≤ base ≤ 16 →
  (∀ d, d < base → hex_digit (char d) = Some d) →
  ∃ v, hex_value (render base char n) = Some v
       ∧ (base = 16 → v = n) ∧ (n < base → v = n) ∧ (base < 16 → base ≤ n → n < v) ∧ n ≤ v.
Proof using.
  intros Hb Hc. destruct (render_read base 16 char hex_digit n Hb Hc) as [Hd (v & Hv & H)].
  exists v. split; [|done]. unfold hex_value. rewrite Hv. by destruct (render base char n).
Qed.

Lemma trim_hex s n : hex_value s = Some n → trim_0x s = s.
Proof using.
  destruct s as [|x [|y s]]; [done..|]. cbn [trim_0x]. intros Hv.
  case_bool_decide as Hx; [|done]. case_bool_decide as Hy; [|done]. subst x y. by cbn in Hv.
Qed.

Lemma parse_hex_value s n : hex_value s = Some n → n < 2 ^ 64 → parse_hex_u64 s = Some n.
Proof using.
  intros Hv Hn. unfold parse_hex_u64.
  assert (Hs : (match s with x2b :: rest => rest | _ => s end) = s).
  { destruct s as [|x s]; [done|]. destruct (decide (x = x2b)) as [->|Hx]; [by cbn in Hv|]. by destruct x. }
  rewrite Hs, Hv. cbn. by destruct (N.ltb_spec n (2 ^ 64)); [|lia].
Qed.

(** A quantity the server writes is the quantity it reads. *)
Lemma quantity_roundtrip n : n < 2 ^ 64 → parse_hex_u64 (trim_0x (quantity n)) = Some n.
Proof using.
  intros Hn. destruct (render_value 16 hex_char n ltac:(lia) hex_digit_char) as (v & Hv & H16 & _).
  specialize (H16 eq_refl). subst v. unfold quantity.
  change (trim_0x (ascii "0x" ++ lower_hex n)) with (trim_0x (render 16 hex_char n)).
  rewrite (trim_hex _ n Hv). by apply parse_hex_value.
Qed.

(** Block numbers, nonces, gas and balances are written as hexadecimal quantities that
    read back as the number they stand for; but the values and gas prices of transactions
    and receipts are written in decimal digits after the prefix of hexadecimal: read as the
    quantity they are declared to be they give the right number exactly below ten, and a
    larger one from there on. *)
Theorem quantities n :
  (n < 2 ^ 64 → parse_hex_u64 (trim_0x (quantity n)) = Some n)
  ∧ (∃ v, hex_value (trim_0x (u256_to_hex n)) = Some v ∧ (v = n ↔ n < 10) ∧ (10 ≤ n → n < v)).
Proof using.
  split; [apply quantity_roundtrip|].
  destruct (render_value 10 dec_char n ltac:(lia) hex_digit_dec) as (v & Hv & _ & Hs & Hl & _).
  exists v. unfold u256_to_hex, decimal. rewrite (trim_hex _ v Hv).
  change (trim_0x (ascii "0x" ++ ?s)) with (trim_0x s). rewrite (trim_hex _ v Hv).
  split_and!; [exact Hv|split|].
  - intros ->. destruct (N.lt_ge_cases n 10); [done|]. specialize (Hl ltac:(lia) ltac:(done)). lia.
  - exact Hs.
  - intros Hn. by apply Hl.
Qed.

Context {CL : CryptoLaws C} {HL : HexLaws HX} {TL : TextLaws HX ET}.

Lemma parse_h256 h : h < 2 ^ 256 → parse_hex_hash (h256_to_hex h) = Ok h.
Proof using HL TL.
  intros Hh. unfold parse_hex_hash, h256_to_hex.
  change (trim_0x (ascii "0x" ++ hex_encode (id_bytes h))) with (trim_0x (hex_encode (id_bytes h))).
  rewrite hex_no_prefix, hex_roundtrip. cbn [or_err mbind result_bind].
  by rewrite length_id_bytes, of_be_id_bytes.
Qed.

(** ** Blocks *)

Lemma find_block_spec h t n : (n ≤ t)%nat → block_hash_for (N.of_nat n) = h →
  ∃ m, find_block h t = Some m ∧ N.of_nat n ≤ m ≤ N.of_nat t ∧ block_hash_for m = h.
Proof using.
  intros Hn Hh. induction t as [|t IH]; cbn [find_block].
  - replace n with O in Hh by lia. rewrite Hh, N.eqb_refl. eexists. split; [done|]. split; [lia|done].
  - destruct (N.eqb_spec (block_hash_for (N.of_nat (S t))) h) as [Heq|Hne].
    + eexists. split; [done|]. split; [lia|done].
    + destruct (decide (n = S t)) as [->|]; [done|]. destruct IH as (m & Hf & Hm & Hb); [lia|].
      exists m. split; [done|]. split; [lia|done].
Qed.

(** Asking for a block by the hash of any block up to the current tick returns the block
    of that number, or exhibits two ticks with the same block hash; and asking by number
    returns the block exactly up to the current tick, [null] beyond. *)
Theorem blocks_by_hash a n now : n ≤ synthesis_tick (osc a) → synthesis_tick (osc a) < 2 ^ 64 →
  get_block_by_number a [JStr (quantity n)] now = Ok (block_at a n now)
  ∧ (get_block_by_hash a [JStr (h256_to_hex (block_hash_for n))] now
       = get_block_by_number a [JStr (quantity n)] now
     ∨ ∃ m, n < m ≤ synthesis_tick (osc a) ∧ block_hash_for m = block_hash_for n)
  ∧ (∀ k, synthesis_tick (osc a) < k → k < 2 ^ 64 → get_block_by_number a [JStr (quantity k)] now = Ok JNull).
Proof using CL HL TL.
  intros Hn Ht.
  assert (Hnum : ∀ k, k < 2 ^ 64 → get_block_by_number a [JStr (quantity k)] now
            = if synthesis_tick (osc a) <? k then Ok JNull else Ok (block_at a k now)).
  { intros k Hk. unfold get_block_by_number, str_param. cbn [head mbind option_bind as_str or_err result_bind].
    assert (is_tag (quantity k) = false) as -> by done.
    by rewrite (quantity_roundtrip k Hk). }
  rewrite (Hnum n) by lia. destruct (N.ltb_spec (synthesis_tick (osc a)) n); [lia|].
  split_and!; [done| |].
  - destruct (find_block_spec (block_hash_for n) (N.to_nat (synthesis_tick (osc a))) (N.to_nat n))
      as (m & Hf & Hm & Hb); [lia|by rewrite N2Nat.id|].
    destruct (decide (m = n)) as [->|Hne]; [left|right; exists m; split; [lia|done]].
    unfold get_block_by_hash, str_param. cbn [head mbind option_bind as_str or_err result_bind].
    rewrite parse_h256 by apply blake3_256. cbn [mbind result_bind]. by rewrite Hf.
  - intros k Hk Hlt. rewrite (Hnum k Hlt). by destruct (N.ltb_spec (synthesis_tick (osc a)) k); [|lia].
Qed.

(** ** Submission *)

Lemma send_raw_accepts a raw_hex raw tx now :
  hex_decode (trim_0x raw_hex) = Some raw → decode_raw raw = Some (Ok tx) →
  ∃ a', send_raw_transaction a [JStr raw_hex] now = Some (a', Ok (JStr (h256_to_hex (tx_hash tx))))
        ∧ osc a' = with_evm (osc a) (submit (evm_pool (osc a)) tx now).
Proof using.
  intros Hraw Hdec. unfold send_raw_transaction, str_param. cbn [head mbind option_bind as_str or_err result_bind].
  rewrite Hraw. cbn [or_err]. rewrite Hdec. cbn [mbind option_bind]. by eexists.
Qed.

(** C40: a raw transaction that decodes and is new is accepted under its hash, queued exactly
    once however often it is sent, found under that hash with no block and without a
    receipt, and leaves everything else of the node alone; no other method changes the
    node at all. *)
Theorem raw_transaction_found a raw_hex raw tx now t :
  hex_decode (trim_0x raw_hex) = Some raw → decode_raw raw = Some (Ok tx) → tx_hash tx < 2 ^ 256 →
  statuses (evm_pool (osc a)) !! tx_hash tx = None → receipts (evm_pool (osc a)) !! tx_hash tx = None →
  let answer := JStr (h256_to_hex (tx_hash tx)) in
  ∃ a', dispatch a (ascii "eth_sendRawTransaction") [JStr raw_hex] now t = Some (a', Ok answer)
    ∧ osc a' = with_evm (osc a) (evm_pool (osc a'))
    ∧ pending (evm_pool (osc a')) = pending (evm_pool (osc a)) ++ [stamped tx now]
    ∧ get_transaction_by_hash a' [answer] = Ok (transaction_to_json (stamped tx now) None)
    ∧ get_transaction_receipt a' [answer] = Ok JNull
    ∧ (∃ a'', dispatch a' (ascii "eth_sendRawTransaction") [JStr raw_hex] now t = Some (a'', Ok answer)
              ∧ evm_pool (osc a'') = evm_pool (osc a'))
    ∧ (∀ m ps, m ≠ ascii "eth_sendRawTransaction" → ∃ r, dispatch a m ps now t = Some (a, r)).
Proof using HL TL.
  intros Hraw Hdec Hh Hst Hrc answer.
  destruct (send_raw_accepts a raw_hex raw tx now Hraw Hdec) as (a' & Hs & Ho).
  set (p := evm_pool (osc a)) in *.
  assert (Hsub : submit p tx now =
    {| pending := pending p ++ [stamped tx now]; statuses := <[tx_hash tx := Pending]> (statuses p);
       nonces := nonces p; pool_db := pool_db p; receipts := receipts p;
       transactions := <[tx_hash tx := stamped tx now]> (transactions p) |}).
  { unfold submit. rewrite Hst. unfold stamped. by destruct (tx_first_seen_at_ns tx =? 0). }
  exists a'. split_and!.
  - exact Hs.
  - by rewrite Ho.
  - by rewrite Ho, Hsub.
  - unfold get_transaction_by_hash, answer, str_param. cbn [head mbind option_bind as_str or_err result_bind].
    rewrite parse_h256 by done. cbn [mbind result_bind]. rewrite Ho, Hsub. cbn.
    unfold pool_transaction, pool_receipt. cbn. by rewrite lookup_insert_eq, Hrc.
  - unfold get_transaction_receipt, answer, str_param. cbn [head mbind option_bind as_str or_err result_bind].
    rewrite parse_h256 by done. cbn [mbind result_bind]. rewrite Ho, Hsub. cbn.
    unfold pool_receipt, pool_status. cbn. by rewrite Hrc, lookup_insert_eq.
  - destruct (send_raw_accepts a' raw_hex raw tx now Hraw Hdec) as (a'' & Hs2 & Ho2).
    exists a''. split; [exact Hs2|]. rewrite Ho2. cbn. unfold submit at 1. rewrite bool_decide_eq_true_2; [done|].
    rewrite Ho, Hsub. cbn. by rewrite lookup_insert_eq.
  - intros m ps Hm. unfold dispatch. rewrite bool_decide_eq_false_2 by done. by eexists.
Qed.

(** The methods act on the oscillator through its operations. *)
Lemma acts_dispatch a m ps now t a' r : dispatch a m ps now t = Some (a', r) → acts a a'.
Proof using.
  unfold dispatch. case_bool_decide; [|intros [= <- _]; apply acts_refl].
  unfold send_raw_transaction. destruct (raw_hex ← _; _) as [raw|e]; [|intros [= <- _]; apply acts_refl].
  intros (d & Hd & Hr)%bind_Some. destruct d as [tx|e]; injection Hr as <- <-; [|apply acts_refl].
  eapply acts_trans; [eapply (acts_step a (with_osc a _)), os_evm|]. by apply acts_same.
Qed.
End rpc.

(** ** A concrete codec *)

(** Transactions of four bytes: sender, recipient, value, nonce. *)
Definition wire_ethers : Ethers := {|
  DecoderError := (); SignatureError := ();
  rlp_decode := λ raw,
    match raw with
    | [from; to; value; nonce] =>
        Ok {| raw_chain_id := None; raw_to := Some (Byte.to_N to); raw_value := Byte.to_N value;
              raw_gas_price := None; raw_gas := 0; raw_input := [from]; raw_nonce := Byte.to_N nonce |}
    | _ => Err ()
    end;
  recover_from := λ tx, Ok (of_be (raw_input tx) mod 2 ^ 160);
  raw_hash := λ tx, (65536 * of_be (raw_input tx) + 256 * raw_value tx + raw_nonce tx) mod 2 ^ 256;
  as_u64 := λ x, if x <? 2 ^ 64 then Some x else None;
  get_contract_address := λ a n, a + n;
|}.

Definition plain_u256 : U256Text := λ s, hex_value (trim_0x s).

Section sample.
Local Existing Instance lawful_crypto.
Local Existing Instance wire_ethers.
Local Existing Instance transfer_vm.
Local Existing Instance map_order.
Local Existing Instance plain_hex.
Local Existing Instance plain_text.
Local Existing Instance plain_u256.

(** Ten wei are shown as sixteen. *)
Example ten_is_read_as_sixteen :
  u256_to_hex 10 = ascii "0x10" ∧ quantity 10 = ascii "0xa" ∧ hex_value (ascii "10") = Some 16.
Proof. vm_compute. repeat split. Qed.

(** An alternative of topics, a nested array, is dropped, and the topic after it takes its place. *)
Example nested_topics_shift :
  match parse_filter [(ascii "topics", JArr [JArr [JStr (h256_to_hex 5)]; JStr (h256_to_hex 7)])] with
  | Ok (None, [Some h]) => h
  | _ => 0
  end = 7.
Proof. vm_compute. reflexivity. Qed.

(** A count of blocks is not limited: the answer has as many entries as asked for. *)
Example fee_history_length :
  match fee_history [JStr (ascii "0x400")] with
  | JObj [_; (_, JArr fees); _; (_, JArr rewards)] => (length fees, length rewards)
  | _ => (0, 0)%nat
  end = (1025, 1024)%nat.
Proof. vm_compute. reflexivity. Qed.

(** A node three ticks old. *)
Definition rpc_api : option ApiState :=
  o ← osc_new 1 4 (from_seed 9);
  '(o, _) ← synthesize o ∅ 5; '(o, _) ← synthesize o ∅ 6; '(o, _) ← synthesize o ∅ 7;
  Some (api_new o).

Definition rpc_ready (a : ApiState) : bool :=
  (synthesis_tick (osc a) =? 3)
  && bool_decide (statuses (evm_pool (osc a)) = ∅) && bool_decide (dom (receipts (evm_pool (osc a))) = ∅).

Lemma rpc_api_ready : rpc_ready <$> rpc_api = Some true.
Proof. vm_compute. reflexivity. Qed.

Lemma blocks_by_hash_witness :
  ∃ a, rpc_api = Some a ∧ get_block_by_number a [JStr (quantity 2)] 77 = Ok (block_at a 2 77).
Proof.
  destruct (checked_option _ _ rpc_api_ready) as (a & Ha & Hc). exists a. split; [exact Ha|].
  apply andb_prop in Hc as [[Ht _]%andb_prop _]. apply N.eqb_eq in Ht.
  apply (blocks_by_hash a 2 77); rewrite Ht; [discriminate|reflexivity].
Defined.

Definition wire_tx : EvmTransaction :=
  {| tx_hash := 65536 * 7 + 256 * 30; tx_from := 7; tx_to := Some 8; tx_value := 30;
     tx_gas_price := 0; tx_gas_limit := 1000000; tx_data := [x07]; tx_nonce := 0;
     tx_raw := [x07; x08; x1e; x00]; tx_first_seen_at_ns := 0 |}.

Lemma raw_transaction_witness :
  ∃ a, rpc_api = Some a ∧
    ∃ a', dispatch a (ascii "eth_sendRawTransaction") [JStr (ascii "0x07081e00")] 11 12
          = Some (a', Ok (JStr (h256_to_hex 466432)))
          ∧ get_transaction_by_hash a' [JStr (h256_to_hex 466432)]
            = Ok (transaction_to_json (stamped wire_tx 11) None).
Proof.
  destruct (checked_option _ _ rpc_api_ready) as (a & Ha & Hc). exists a. split; [exact Ha|].
  apply andb_prop in Hc as [[_ Hs%bool_decide_eq_true]%andb_prop Hr%bool_decide_eq_true].
  destruct (raw_transaction_found a (ascii "0x07081e00") [x07; x08; x1e; x00] wire_tx 11 12)
    as (a' & Hd & _ & _ & Hq & _).
  - reflexivity.
  - reflexivity.
  - reflexivity.
  - by rewrite Hs.
  - apply not_elem_of_dom. by rewrite Hr.
  - exists a'. split; [exact Hd|exact Hq].
Defined.
End sample.
