(* ===== verification/Views.v ===== *)
(** * The read-only routes (src/src/api/routes.rs)

    The explorer's and the peers' views of a node, rendered to JSON: balances, accounts,
    operators, quorums, supply, domains, shifts, ticks and the two synchronisation
    endpoints.  The wait for a tick is in Live; the text of an f64 is a
    parameter.  Proved: amounts are rendered as the decimal text requests are parsed from; recent ticks are the newest certificates in
    descending order; what a page of finalized shifts holds and when it is complete; the
    name a domain is shown under is not its identity. *)
From S2P Require Import Prelude F64 Bytes Value Crypto Signals Merkle Stake Rewards Certificate.
From S2P Require Import Metabolic ModArith Ntt WaveField Domain Dag DagOrder Evm Oscillator Synthesis Settlement.
From S2P Require Import Persistence Api EvmRpc.
Local Open Scope N_scope.

(** Text of a finite f64; what is not finite is rendered as null. *)
Class FloatText := float_text : f64 → bytes.

Section views.
Context {C : Crypto} {E : Ethers} {V : Revm} {HO : HashOrder} {HX : Hex} {FT : FloatText}.

Definition jfloat (x : f64) : json := if is_finite x then JNum (float_text x) else JNull.
Definition num (n : N) : json := JNum (decimal n).
Definition dec (n : N) : json := JStr (decimal n).
Definition hex_id (h : N) : json := JStr (id_to_hex h).
Definition text (s : String.string) : json := JStr (ascii s).
Arguments text s%_string_scope.
Definition or_null {A} (f : A → json) (o : option A) : json :=
  match o with Some x => f x | None => JNull end.

Definition account_param (s : bytes) : result status_code N := or_err BAD_REQUEST (parse_id s).

(** ** Recent shifts *)

(** [AccountId]'s [Display] writes the same digits as the hex crate. *)
Definition party_text (p : party) : bytes :=
  match p with PartyAccount a => id_to_hex a | PartyAddress a => address_to_hex a end.

Definition kind_text (k : shift_kind) : json :=
  match k with
  | KindStateful => text "stateful"
  | KindCommutative => text "commutative"
  | KindEvm => text "evm"
  end.
Definition token_text (t : token) : json :=
  match t with
  | TokenWave => text "WAVE" | TokenUsdc => text "USDC" | TokenUnits => text "units" | TokenEth => text "ETH"
  end.

Definition signed_text (z : Z) : bytes :=
  if (z <? 0)%Z then ascii "-" ++ decimal (Z.abs_N z) else decimal (Z.to_N z).

(** The serialized [RecentShift]; hashes of EVM transactions carry a prefix. *)
Definition recent_json (s : RecentShift) : json :=
  JObj [(ascii "hash", JStr (match rs_kind s with KindEvm => h256_to_hex (rs_hash s) | _ => id_to_hex (rs_hash s) end));
        (ascii "kind", kind_text (rs_kind s));
        (ascii "status", text "accepted");
        (ascii "domain", or_null hex_id (rs_domain s));
        (ascii "from", or_null (λ p, JStr (party_text p)) (rs_from s));
        (ascii "to", or_null (λ p, JStr (party_text p)) (rs_to s));
        (ascii "amount", or_null (λ z, JStr (signed_text z)) (rs_amount s));
        (ascii "token", or_null token_text (rs_token s));
        (ascii "timestamp_ns", num (rs_time s))].

(** The keys are compared as text; a missing sender or recipient is the empty text. *)
Definition touches (keys : list bytes) (s : RecentShift) : bool :=
  let from := default [] (party_text <$> rs_from s) in
  let to := default [] (party_text <$> rs_to s) in
  existsb (λ k, bool_decide (k = from) || bool_decide (k = to)) keys.

Definition shifts_of (a : ApiState) (user : N) : list RecentShift :=
  let '(wave, usdc) := token_accounts user in
  List.filter (touches [id_to_hex user; id_to_hex wave; id_to_hex usdc]) (recent_shifts a).

Definition get_recent_shifts (a : ApiState) : json :=
  JObj [(ascii "shifts", JArr (map recent_json (recent_shifts a)))].

(** ** Accounts *)

Definition field_units (a : ApiState) (x : N) : N := units (account_balance (wave_field (osc a)) x).

(** Balances of the two token accounts of the user. *)
Definition get_balance (a : ApiState) (id : bytes) : result status_code json :=
  user ← account_param id;
  let '(wave, usdc) := token_accounts user in
  Ok (JObj [(ascii "wave", dec (field_units a wave)); (ascii "usdc", dec (field_units a usdc))]).

Definition get_account_shifts (a : ApiState) (id : bytes) : result status_code json :=
  user ← account_param id;
  let '(wave, usdc) := token_accounts user in
  Ok (JObj [(ascii "account", JStr id); (ascii "wave_account", hex_id wave);
            (ascii "usdc_account", hex_id usdc);
            (ascii "shifts", JArr (map recent_json (shifts_of a user)))]).

Definition get_account_overview (a : ApiState) (id : bytes) : result status_code json :=
  user ← account_param id;
  let '(wave, usdc) := token_accounts user in
  let shifts := shifts_of a user in
  Ok (JObj [(ascii "account", JStr id);
            (ascii "registered", JBool (bool_decide (is_Some (registry a !! user))));
            (ascii "wave_account", hex_id wave);
            (ascii "usdc_account", hex_id usdc);
            (ascii "wave", dec (field_units a wave));
            (ascii "usdc", dec (field_units a usdc));
            (ascii "stake", dec (get_stake (stake_table (osc a)) user));
            (ascii "is_staked", JBool (is_staked (stake_table (osc a)) user));
            (ascii "rewards", dec (balance (reward_pool (osc a)) user));
            (ascii "shift_count", num (N.of_nat (length shifts)));
            (ascii "shifts", JArr (map recent_json shifts))]).

(** ** Operators *)

Definition get_operator_info (a : ApiState) : result status_code json :=
  match api_operator_keypair a with
  | None => Err SERVICE_UNAVAILABLE
  | Some kp =>
      let account := account_id kp in
      Ok (JObj [(ascii "account", hex_id account);
                (ascii "public_key", hex_id (vk_to_bytes (public_key kp)));
                (ascii "stake", dec (get_stake (stake_table (osc a)) account));
                (ascii "min_stake", dec (min_stake (config (stake_table (osc a)))));
                (ascii "is_staked", JBool (is_staked (stake_table (osc a)) account))])
  end.

Definition get_staked_operators (a : ApiState) : json :=
  JObj [(ascii "operators",
    JArr (map (λ os, JObj [(ascii "account", hex_id os.1); (ascii "stake", dec os.2)])
              (staked_operators (stake_table (osc a)))))].

Definition view_json (v : QuorumView) : json :=
  JObj [(ascii "commutative", hex_id (qv_commutative_root v)); (ascii "stateful", hex_id (qv_stateful_root v));
        (ascii "evm", hex_id (qv_evm_root v)); (ascii "balances", hex_id (qv_balances_root v));
        (ascii "stake", hex_id (qv_stake_root v)); (ascii "reward", hex_id (qv_reward_root v))].

Definition get_quorum_status (a : ApiState) (tick : N) : json :=
  let threshold := quorum_threshold (stake_table (osc a)) in
  let total := total_stake (stake_table (osc a)) in
  match osc_check_quorum (osc a) tick with
  | Some (view, stake) =>
      JObj [(ascii "tick", num tick); (ascii "finalized", JBool true); (ascii "stake", dec stake);
            (ascii "threshold", dec threshold); (ascii "total_stake", dec total);
            (ascii "roots", view_json view)]
  | None =>
      JObj [(ascii "tick", num tick); (ascii "finalized", JBool false);
            (ascii "threshold", dec threshold); (ascii "total_stake", dec total)]
  end.

Definition get_certificate (a : ApiState) (tick : N) : result status_code SynthesisCertificate :=
  or_err NOT_FOUND (certificates (osc a) !! tick).

Definition get_operator_rewards (a : ApiState) (id : bytes) : result status_code json :=
  account ← account_param id;
  Ok (JObj [(ascii "account", JStr id); (ascii "rewards", dec (balance (reward_pool (osc a)) account))]).

Definition get_supply (a : ApiState) : json :=
  let s := supply_tracker (osc a) in
  JObj [(ascii "total", dec TOTAL_WAVE_SUPPLY); (ascii "circulating", dec (Supply.circulating s));
        (ascii "burned", dec (Supply.burned s)); (ascii "remaining", dec (Supply.remaining s))].

(** ** Domains *)

(** [u8::is_ascii_graphic] or a blank *)
Definition printable (b : byte) : bool := let c := Byte.to_N b in (32 <=? c) && (c <=? 126).

Fixpoint take_while {A} (p : A → bool) (l : list A) : list A :=
  match l with x :: l => if p x then x :: take_while p l else [] | [] => [] end.

(** The bytes before the first zero, when they are printable. *)
Definition domain_display_name (d : N) : bytes :=
  let trimmed := take_while (λ b, negb (bool_decide (b = x00))) (id_bytes d) in
  if negb (bool_decide (trimmed = [])) && forallb printable trimmed then trimmed else id_to_hex d.

Definition fee_policy_json (p : FeePolicy) : json :=
  match p with
  | Flat fee => JObj [(ascii "type", text "flat"); (ascii "label", text "Flat fee"); (ascii "fee", dec fee)]
  | Percentage bp =>
      JObj [(ascii "type", text "percentage"); (ascii "label", text "Percentage fee");
            (ascii "basis_points", num bp); (ascii "percent", jfloat (f64_div (f64_of_N bp) (f64_of_N 100)))]
  | MetabolicOnly => JObj [(ascii "type", text "metabolic_only"); (ascii "label", text "Metabolic only")]
  end.

Definition domain_policy_fields (p : DomainPolicy) (shift_count : nat) : list (bytes * json) :=
  [(ascii "id", hex_id (policy_domain p)); (ascii "name", JStr (domain_display_name (policy_domain p)));
   (ascii "commutative", JBool (policy_commutative p)); (ascii "stateful", JBool (policy_stateful p));
   (ascii "ordering", match policy_ordering p with
                      | Causal => text "causal" | Commutative => text "commutative" | Strict => text "strict"
                      end);
   (ascii "finalization_depth", num (finalization_depth p));
   (ascii "metabolic_lambda_ppm", num (metabolic_lambda_ppm p));
   (ascii "fee_policy", fee_policy_json (fee_policy p));
   (ascii "shift_count", num (N.of_nat shift_count))].

(** Compared as hex text. *)
Definition in_domain (domain_hex : bytes) (s : RecentShift) : bool :=
  bool_decide (id_to_hex <$> rs_domain s = Some domain_hex).

Definition domain_shift_count (a : ApiState) (domain_hex : bytes) : nat :=
  length (List.filter (in_domain domain_hex) (recent_shifts a)).

Definition get_domains (a : ApiState) : json :=
  JObj [(ascii "domains",
    JArr (map (λ p, JObj (domain_policy_fields p (domain_shift_count a (id_to_hex (policy_domain p)))))
              (registry_all (domain_registry (osc a)))))].

(** The policy with the 25 most recent shifts of the domain. *)
Definition get_domain (a : ApiState) (id : bytes) : result status_code json :=
  domain ← account_param id;
  policy ← or_err NOT_FOUND (registry_get (domain_registry (osc a)) domain);
  let domain_hex := id_to_hex (policy_domain policy) in
  let recent := take 25 (List.filter (in_domain domain_hex) (recent_shifts a)) in
  Ok (JObj (domain_policy_fields policy (domain_shift_count a domain_hex)
            ++ [(ascii "recent_shifts", JArr (map recent_json recent))])).

(** ** The status of a shift *)

Definition status_json (hash : bytes) (st : bytes) (error : json) (tick confirmations : N) : json :=
  JObj [(ascii "hash", JStr hash); (ascii "status", JStr st); (ascii "error", error);
        (ascii "synthesis_tick", num tick); (ascii "confirmations", num confirmations)].

(** Ticks since the insertion. *)
Definition confirmations (a : ApiState) (h : N) : N :=
  default 0 ((λ n, synthesis_tick (osc a) - inserted_at_tick n) <$> nodes (dag (osc a)) !! h).

Definition shift_status_route (a : ApiState) (hash_hex : bytes) : result status_code json :=
  h ← account_param hash_hex;
  let tick := synthesis_tick (osc a) in
  Ok (match api_shift_status a h with
      | Some Accepted => status_json hash_hex (ascii "accepted") JNull tick (confirmations a h)
      | Some Finalized => status_json hash_hex (ascii "finalized") JNull tick FINALIZATION_DEPTH
      | Some (Rejected e) => status_json hash_hex (ascii "rejected") (JStr (dag_error_code e)) tick 0
      | None => status_json hash_hex (ascii "unknown") JNull tick 0
      end).

(** ** Ticks *)

Definition tick_roots (c : SynthesisCertificate) : json :=
  JObj [(ascii "commutative", hex_id (sc_commutative_root c)); (ascii "stateful", hex_id (sc_stateful_root c));
        (ascii "balances", hex_id (sc_balances_root c)); (ascii "stake", hex_id (sc_stake_root c));
        (ascii "reward", hex_id (sc_reward_root c))].

Definition tick_fields (tick : N) (c : SynthesisCertificate) : list (bytes * json) :=
  [(ascii "tick", num tick); (ascii "hash", hex_id (sc_hash c)); (ascii "operator", hex_id (sc_operator c));
   (ascii "commutative_applied", num (N.of_nat (sc_commutative_applied c)));
   (ascii "stateful_applied", num (N.of_nat (sc_stateful_applied c)));
   (ascii "evm_applied", num (N.of_nat (sc_evm_applied c)));
   (ascii "roots", tick_roots c)].

Definition finalized (a : ApiState) (tick : N) : bool :=
  bool_decide (is_Some (osc_check_quorum (osc a) tick)).

Definition tick_json (a : ApiState) (key : N) (c : SynthesisCertificate) : json :=
  JObj (tick_fields (sc_tick c) c ++ [(ascii "finalized", JBool (finalized a key))]).

(** [bt.cmp(&at)] is not greater. *)
Definition newer (x y : N * SynthesisCertificate) : bool := sc_tick y.2 <=? sc_tick x.2.

Definition recent_certificates (a : ApiState) (limit : option nat) : list (N * SynthesisCertificate) :=
  take (Nat.min (default 20%nat limit) 100) (sort_by newer (hm_iter (certificates (osc a)))).

Definition get_recent_ticks (a : ApiState) (limit : option nat) : json :=
  JObj [(ascii "ticks", JArr (map (λ kc, tick_json a kc.1 kc.2) (recent_certificates a limit)))].

Definition get_tick (a : ApiState) (tick : N) : status_code * json + json :=
  match certificates (osc a) !! tick with
  | Some c => inr (tick_json a tick c)
  | None => inl (NOT_FOUND, JObj [(ascii "error", text "tick not found")])
  end.

(** ** Synchronisation *)

Definition entry_json (e : OperatorEntry) : json :=
  JObj [(ascii "stake", num (stake e)); (ascii "slash_nonce", or_null num (slash_nonce e))].

Definition get_sync_state (a : ApiState) : json :=
  let tick := synthesis_tick (osc a) in
  JObj [(ascii "synthesis_tick", num tick);
        (ascii "block_hash", hex_id (block_hash_for tick));
        (ascii "balances", JObj (map (λ kv, (id_to_hex kv.1, dec (units (acc_balance kv.2))))
                                     (hm_iter (accounts (wave_field (osc a))))));
        (ascii "registry", JObj (map (λ kv, (id_to_hex kv.1, hex_id (vk_to_bytes kv.2)))
                                     (hm_iter (registry a))));
        (ascii "stake_table", JObj (map (λ kv, (kv.1, entry_json kv.2))
                                        (snapshot_iter (to_snapshot (stake_table (osc a))))));
        (ascii "certificates", JArr (map (λ kc, JObj (tick_fields kc.1 kc.2))
                                         (hm_iter (certificates (osc a)))))].

Definition sync_shift_json (n : DagNode) : json :=
  let s := node_shift n in
  JObj [(ascii "hash", hex_id (node_hash n)); (ascii "domain", hex_id (ss_domain s));
        (ascii "from", hex_id (ss_from s)); (ascii "to", hex_id (ss_to s));
        (ascii "amount", dec (ss_amount s)); (ascii "nonce", num (ss_nonce s));
        (ascii "inserted_at_tick", num (inserted_at_tick n));
        (ascii "finalized_at_tick", or_null num (finalized_at_tick n));
        (ascii "timestamp_ns", num (ss_timestamp_ns s));
        (ascii "predecessors", JArr (map hex_id (ss_predecessors s)));
        (ascii "signature", JStr (hex_encode (ss_signature s)))].

Definition hex_address (x : N) : json := JStr (hex_encode (be_bytes 20 x)).

Definition sync_receipt_json (r : EvmReceipt) : json :=
  JObj [(ascii "transactionHash", hex_id (transaction_hash r));
        (ascii "transactionIndex", num (transaction_index r));
        (ascii "blockNumber", num (block_number r)); (ascii "blockHash", hex_id (block_hash r));
        (ascii "from", hex_address (rc_from r)); (ascii "to", or_null hex_address (rc_to r));
        (ascii "contractAddress", or_null hex_address (contract_address r));
        (ascii "gasUsed", num (gas_used r)); (ascii "cumulativeGasUsed", num (cumulative_gas_used r));
        (ascii "status", num (rc_status r))].

Definition sync_limit (limit : option nat) : nat := Nat.min (default 1000%nat limit) 10000.

Definition sync_page (a : ApiState) (from_tick : N) (limit : option nat) : list DagNode :=
  take (sync_limit limit) (finalized_shifts_since (dag (osc a)) from_tick).
Definition sync_receipts (a : ApiState) (from_tick : N) (limit : option nat) : list EvmReceipt :=
  take (sync_limit limit)
    (List.filter (λ r, from_tick <=? block_number r) (hm_values (receipts (evm_pool (osc a))))).

Definition get_sync_shifts (a : ApiState) (from_tick : N) (limit : option nat) : json :=
  JObj [(ascii "from_tick", num from_tick);
        (ascii "shifts", JArr (map sync_shift_json (sync_page a from_tick limit)));
        (ascii "receipts", JArr (map sync_receipt_json (sync_receipts a from_tick limit)))].

(** ** Amounts *)

Lemma digit_dec d : d < 10 → digit (dec_char d) = Some d.
Proof using. intros Hd. destruct d as [|p]; [done|]. do 4 (destruct p as [p|p|]; try done); lia. Qed.

Lemma parse_digits_decimal n : parse_digits (decimal n) = Some n.
Proof using.
  destruct (render_read 10 10 dec_char digit n ltac:(lia) digit_dec) as [Hd (v & Hv & He & _)].
  unfold parse_digits, decimal. rewrite Hv, He by done. by destruct (render 10 dec_char n).
Qed.

Lemma decimal_head n : ∃ b rest d, decimal n = b :: rest ∧ digit b = Some d.
Proof using.
  pose proof (parse_digits_decimal n) as Hp. destruct (decimal n) as [|b rest]; [done|].
  unfold parse_digits in Hp. cbn [fold_opt] in Hp. apply bind_Some in Hp as (x & Hx & _).
  apply bind_Some in Hx as (d & Hd & _). by exists b, rest, d.
Qed.

Lemma parse_i128_decimal n : parse_i128 (decimal n) = if n <? 2 ^ 127 then Some (Z.of_N n) else None.
Proof using.
  pose proof (parse_digits_decimal n) as Hp. destruct (decimal_head n) as (b & rest & d & Hb & Hd).
  rewrite Hb in *. unfold parse_i128. destruct b; try discriminate Hd; by rewrite Hp.
Qed.

(** The amounts of every view parse back as the amounts of a request. *)
Lemma amounts_roundtrip n : n < 2 ^ 128 → parse_u128 (decimal n) = Some n.
Proof using.
  intros Hn. unfold parse_u128.
  assert (Hs : match decimal n with x2b :: rest => rest | _ => decimal n end = decimal n).
  { destruct (decimal_head n) as (b & rest & d & -> & Hd). destruct b; try done; by cbn in Hd. }
  rewrite Hs, parse_digits_decimal. cbn. by destruct (N.ltb_spec n (2 ^ 128)); [|lia].
Qed.

Lemma signed_roundtrip z : (- 2 ^ 127 ≤ z < 2 ^ 127)%Z → parse_i128 (signed_text z) = Some z.
Proof using.
  intros Hz. unfold signed_text. destruct (Z.ltb_spec z 0) as [Hneg|Hpos].
  - unfold parse_i128. change (ascii "-" ++ ?s) with (x2d :: s). cbv beta iota.
    rewrite parse_digits_decimal. cbn [mbind option_bind].
    destruct (N.leb_spec (Z.abs_N z) (2 ^ 127)); [f_equal; lia|lia].
  - rewrite parse_i128_decimal.
    destruct (N.ltb_spec (Z.to_N z) (2 ^ 127)); [f_equal; lia|lia].
Qed.

(** ** Ticks *)

(** Every certificate is stored under its own tick. *)
Definition certs_keyed (a : ApiState) : Prop :=
  ∀ k c, certificates (osc a) !! k = Some c → sc_tick c = k.

(** The ticks listed are certificates of the node, strictly newest first, as many as asked
    for up to a hundred, and none that is left out is newer than one listed. *)
Lemma recent_certificates_spec a limit : certs_keyed a →
  let l := recent_certificates a limit in
  StronglySorted (λ x y, sc_tick y.2 < sc_tick x.2) l
  ∧ length l = Nat.min (Nat.min (default 20%nat limit) 100) (size (certificates (osc a)))
  ∧ (∀ k c, (k, c) ∈ l → certificates (osc a) !! k = Some c)
  ∧ (∀ k c x, certificates (osc a) !! k = Some c → (k, c) ∉ l → x ∈ l → sc_tick c < sc_tick x.2).
Proof using.
  intros Hk. unfold recent_certificates. set (cs := hm_iter (certificates (osc a))).
  set (m := Nat.min _ 100). set (sorted := sort_by newer cs).
  assert (Hperm : sorted ≡ₚ cs) by apply sort_by_perm.
  assert (Hin : ∀ k c, (k, c) ∈ sorted ↔ certificates (osc a) !! k = Some c)
    by (intros k c; rewrite Hperm; apply elem_of_hm_iter).
  assert (Hss : StronglySorted (λ x y, sc_tick y.2 < sc_tick x.2) sorted).
  { assert (Hnd : NoDup sorted) by (rewrite Hperm; apply hm_iter_NoDup).
    assert (Hs : StronglySorted (λ x y, newer x y = true) sorted).
    { apply sort_by_sorted; unfold newer; [intros x y|intros x y z]; rewrite ?N.leb_le; lia. }
    assert (Hinj : ∀ x y, x ∈ sorted → y ∈ sorted → sc_tick x.2 = sc_tick y.2 → x = y).
    { intros [k c] [k' c'] Hx%Hin Hy%Hin Ht. cbn in Ht. rewrite (Hk _ _ Hx), (Hk _ _ Hy) in Ht. subst k'.
      congruence. }
    clear Hperm Hin. induction Hs as [|x l Hl IH Hall]; [constructor|].
    apply NoDup_cons in Hnd as [Hx Hnd]. constructor.
    - apply IH; [done|]. intros y z Hy Hz. apply Hinj; by right.
    - rewrite Forall_forall in Hall |- *. intros y Hy. specialize (Hall y Hy). apply N.leb_le in Hall.
      destruct (N.eq_dec (sc_tick y.2) (sc_tick x.2)) as [He|]; [|lia].
      apply Hinj in He; [|by right|by left]. by subst y. }
  split_and!.
  - rewrite <- (take_drop m sorted) in Hss. by apply StronglySorted_app_1_l in Hss.
  - rewrite length_take, Hperm. unfold cs. rewrite hm_iter_perm, length_map_to_list. lia.
  - intros k c Hc. apply Hin. rewrite <- (take_drop m sorted). apply elem_of_app. by left.
  - intros k c x Hc Hnot Hx. apply Hin in Hc. rewrite <- (take_drop m sorted) in Hss, Hc.
    apply elem_of_app in Hc as [Hc|Hc]; [done|].
    exact (StronglySorted_app_1_elem_of _ _ _ _ _ Hss Hx Hc).
Qed.

(** ** Pages of finalized shifts *)

Definition due (from_tick : N) (n : DagNode) : bool :=
  bool_decide (status n = Finalized)
  && match finalized_at_tick n with Some t => from_tick <=? t | None => false end.

Lemma sync_nodes_NoDup a : dag_reachable (dag (osc a)) → NoDup (hm_values (nodes (dag (osc a)))).
Proof using.
  intros Hr%dag_reachable_hashes. unfold hm_values. apply NoDup_fmap_2_strong; [|apply hm_iter_NoDup].
  intros [k n] [k' n'] Hx%elem_of_hm_iter Hy%elem_of_hm_iter Heq. cbn in Heq. subst n'.
  rewrite <- (Hr _ _ Hx), <- (Hr _ _ Hy). done.
Qed.

(** A page holds distinct finalized shifts of the node from that tick on, at most the limit
    and ten thousand; a page that does not reach its limit is complete. *)
Lemma sync_page_spec a from_tick limit : dag_reachable (dag (osc a)) →
  let l := sync_page a from_tick limit in
  NoDup l ∧ (length l ≤ Nat.min (default 1000%nat limit) 10000)%nat
  ∧ (∀ n, n ∈ l → (∃ h, nodes (dag (osc a)) !! h = Some n) ∧ due from_tick n = true)
  ∧ ((length l < sync_limit limit)%nat →
     ∀ h n, nodes (dag (osc a)) !! h = Some n → due from_tick n = true → n ∈ l).
Proof using.
  intros Hr l. subst l. unfold sync_page, finalized_shifts_since. fold (due from_tick).
  assert (Hin : ∀ n, n ∈ List.filter (due from_tick) (hm_values (nodes (dag (osc a))))
                     ↔ (∃ h, nodes (dag (osc a)) !! h = Some n) ∧ due from_tick n = true).
  { intros n. by rewrite list_elem_of_In, filter_In, <- list_elem_of_In, elem_of_hm_values. }
  assert (Hnd : NoDup (List.filter (due from_tick) (hm_values (nodes (dag (osc a))))))
    by (apply NoDup_ListNoDup, List.NoDup_filter, NoDup_ListNoDup, sync_nodes_NoDup, Hr).
  set (all := List.filter _ _) in *. split_and!.
  - rewrite <- (take_drop (sync_limit limit) all) in Hnd. by apply NoDup_app in Hnd as [Hnd _].
  - rewrite length_take. unfold sync_limit. lia.
  - intros n Hn. apply Hin. rewrite <- (take_drop (sync_limit limit) all). apply elem_of_app. by left.
  - rewrite length_take. intros Hl h n Hn Hd. rewrite take_ge by lia. apply Hin. eauto.
Qed.

(** Pages cannot be chained: a shift that comes after [limit] shifts finalized no earlier, in
    the table's order, is on no page of any starting tick. *)
Lemma sync_page_starves a limit t before n after : dag_reachable (dag (osc a)) →
  hm_values (nodes (dag (osc a))) = before ++ n :: after → finalized_at_tick n = Some t →
  (sync_limit limit ≤ length (List.filter (due t) before))%nat →
  ∀ from_tick, n ∉ sync_page a from_tick limit.
Proof using.
  intros Hr%sync_nodes_NoDup Hv Ht Hl from_tick Hn.
  unfold sync_page, finalized_shifts_since in Hn. fold (due from_tick) in Hn. rewrite Hv in Hr, Hn.
  rewrite List.filter_app in Hn.
  assert (Hdue : due from_tick n = true).
  { assert (Hin : n ∈ List.filter (due from_tick) before ++ List.filter (due from_tick) (n :: after)).
    { rewrite <- (take_drop (sync_limit limit) (_ ++ _)). apply elem_of_app. by left. }
    rewrite <- List.filter_app in Hin. by apply list_elem_of_In, filter_In in Hin as [_ Hin]. }
  assert (Hft : from_tick ≤ t).
  { unfold due in Hdue. rewrite Ht in Hdue. apply andb_prop in Hdue as [_ Hd]. by apply N.leb_le. }
  assert (Hlen : (length (List.filter (due t) before) ≤ length (List.filter (due from_tick) before))%nat).
  { clear -Hft. induction before as [|m l IH]; cbn; [done|].
    destruct (due t m) eqn:Hm; cbn.
    - assert (due from_tick m = true) as ->; [|cbn; lia]. unfold due in *.
      apply andb_prop in Hm as [-> Hm]. cbn. destruct (finalized_at_tick m); [|done].
      apply N.leb_le in Hm. apply N.leb_le. lia.
    - destruct (due from_tick m); cbn; lia. }
  rewrite take_app_le in Hn by lia.
  apply NoDup_app in Hr as (_ & Hr & _).
  apply (Hr n); [|by left]. apply list_elem_of_In.
  assert (Hin : n ∈ List.filter (due from_tick) before).
  { rewrite <- (take_drop (sync_limit limit) (List.filter _ _)). apply elem_of_app. by left. }
  by apply list_elem_of_In, filter_In in Hin as [Hin _].
Qed.

(** ** Names *)

(** The name a domain is shown under stops at the first zero byte: different domains share it. *)
Example display_name_is_not_unique :
  let id (tail : byte) := of_be (ascii "fluidic" ++ [x00; tail] ++ repeat x00 23) in
  domain_display_name (id x00) = ascii "fluidic" ∧ domain_display_name (id x07) = ascii "fluidic"
  ∧ id x00 ≠ id x07.
Proof using. split_and!; [reflexivity..|]. vm_compute. done. Qed.
End views.
