(* ===== verification/Live.v ===== *)
(** * The live state (src/src/api/state.rs, src/src/api/routes.rs, src/src/api/websocket.rs)

    The snapshot of reserves, price and rates that [/api/state] answers with and that the
    WebSocket task pushes when it changes; the metrics a cycle reports.  Proved: in binary64,
    roundings included, the price is a finite number within two parts in 2^52 of the ratio
    of the reserves; the metrics of a cycle are finite, not negative and never NaN; the
    WebSocket task is quiet when nothing changed, and what its clients last received has
    the reserves and the counters of its last look.  A look of the
    task is a step; the clients' tasks are in Sockets. *)
From S2P Require Import Prelude F64 Metrics Bytes Value Crypto Signals Merkle Stake Rewards Certificate.
From S2P Require Import Metabolic ModArith Ntt WaveField Domain Dag DagOrder Evm Oscillator Synthesis Settlement.
From S2P Require Import Persistence Typing Api EvmRpc Views.
Local Open Scope N_scope.

Record StateSnapshot := {
  sn_wave_reserve : N;
  sn_usdc_reserve : N;
  sn_price : f64;
  sn_throughput : f64;
  sn_latency_ms : f64;
  sn_network_ms : f64;
  sn_burned : N;
  sn_commutative : nat;
  sn_stateful : nat;
  sn_evm : nat;
}.

Section live.
Context {C : Crypto} {E : Ethers} {V : Revm} {HO : HashOrder} {HX : Hex} {FT : FloatText}.

(** [ApiState::snapshot]; its map of accounts is always empty. *)
Definition snapshot (a : ApiState) : StateSnapshot :=
  {| sn_wave_reserve := wave_reserve a; sn_usdc_reserve := usdc_reserve a;
     sn_price := if wave_reserve a =? 0 then f64_zero
                 else f64_div (f64_of_N (usdc_reserve a)) (f64_of_N (wave_reserve a));
     sn_throughput := st_throughput (stats a); sn_latency_ms := st_latency_ms (stats a);
     sn_network_ms := f64_zero; sn_burned := eng_total_burned (metabolic_engine (osc a));
     sn_commutative := st_commutative (stats a); sn_stateful := st_stateful (stats a);
     sn_evm := st_evm (stats a) |}.

Definition usize (n : nat) : json := num (N.of_nat n).

(** [get_state], after the wait. *)
Definition get_state (a : ApiState) : json :=
  let s := snapshot a in
  JObj [(ascii "wave_reserve", dec (sn_wave_reserve s)); (ascii "usdc_reserve", dec (sn_usdc_reserve s));
        (ascii "price", jfloat (sn_price s)); (ascii "throughput", jfloat (sn_throughput s));
        (ascii "latency_ms", jfloat (sn_latency_ms s)); (ascii "metabolic_burned", dec (sn_burned s));
        (ascii "commutative_applied", usize (sn_commutative s));
        (ascii "stateful_applied", usize (sn_stateful s)); (ascii "evm_applied", usize (sn_evm s));
        (ascii "pool_wave_account", hex_id (pool_wave_account a));
        (ascii "pool_usdc_account", hex_id (pool_usdc_account a))].

(** [snapshot_json_from_snap]: the frame of a snapshot. *)
Definition snapshot_json_from_snap (s : StateSnapshot) (a : ApiState) : json :=
  JObj [(ascii "wave_reserve", dec (sn_wave_reserve s)); (ascii "usdc_reserve", dec (sn_usdc_reserve s));
        (ascii "price", jfloat (sn_price s)); (ascii "throughput", jfloat (sn_throughput s));
        (ascii "latency_ms", jfloat (sn_latency_ms s)); (ascii "network_ms", jfloat (sn_network_ms s));
        (ascii "metabolic_burned", dec (sn_burned s));
        (ascii "commutative_applied", usize (sn_commutative s));
        (ascii "stateful_applied", usize (sn_stateful s)); (ascii "evm_applied", usize (sn_evm s));
        (ascii "pool_wave_account", hex_id (pool_wave_account a));
        (ascii "pool_usdc_account", hex_id (pool_usdc_account a))].
Definition snapshot_json (a : ApiState) : json := snapshot_json_from_snap (snapshot a) a.

(** [health] *)
Definition health : json := JObj [(ascii "status", JStr (ascii "ok"))].

(** [wait_for_min_tick]: each turn of its loop reads the tick and whether the five seconds are
    over; the turns it sleeps, [None] while it still waits. *)
Fixpoint wait_turns (min_tick : N) (turns : list (N * bool)) : option nat :=
  match turns with
  | [] => None
  | (tick, late) :: turns =>
      if tick <? min_tick then if late : bool then Some 0%nat else n ← wait_turns min_tick turns; Some (S n)
      else Some 0%nat
  end.
Definition wait_for_min_tick (min_tick : option N) (turns : list (N * bool)) : option nat :=
  match min_tick with None => Some 0%nat | Some t => wait_turns t turns end.

(** It answers at the first turn that has the tick or is late, and not before. *)
Lemma wait_spec t turns n : wait_for_min_tick (Some t) turns = Some n ↔
  (∃ tick late, turns !! n = Some (tick, late) ∧ (t ≤ tick ∨ late = true))
  ∧ (∀ i tick late, (i < n)%nat → turns !! i = Some (tick, late) → tick < t ∧ late = false).
Proof using.
  cbn [wait_for_min_tick]. revert n. induction turns as [|[tick late] turns IH]; intros n; cbn [wait_turns].
  { split; [done|]. intros [(tick & late & Hn & _) _]. by destruct n. }
  destruct (N.ltb_spec tick t) as [Hlt|Hge]; [destruct late|].
  - split; [intros [= <-]; split; [exists tick, true; auto|lia]|].
    intros [_ Hall]. destruct n as [|n]; [done|]. by destruct (Hall 0%nat tick true ltac:(lia) eq_refl).
  - destruct n as [|n].
    + split; [by intros (? & _ & ?)%bind_Some|]. intros [(tk & l & [= <- <-] & [?|?]) _]; [lia|done].
    + split.
      * intros (m & Hm & [= ->])%bind_Some. apply IH in Hm as [He Hall]. split; [exact He|].
        intros [|i] tk l Hi; [intros [= <- <-]; auto|]. apply Hall. lia.
      * intros [He Hall]. assert (Hm : wait_turns t turns = Some n).
        { apply IH. split; [exact He|]. intros i tk l Hi. apply (Hall (S i)). lia. }
        by rewrite Hm.
  - split; [intros [= <-]; split; [exists tick, late; auto|lia]|].
    intros [_ Hall]. destruct n as [|n]; [done|]. destruct (Hall 0%nat tick late ltac:(lia) eq_refl). lia.
Qed.

(** ** The WebSocket task *)

(** The condition of [start_broadcast_task]. *)
Definition worth_sending (snap last : StateSnapshot) : bool :=
  negb (f64_eq (sn_price snap) (sn_price last))
  || negb (sn_wave_reserve snap =? sn_wave_reserve last)
  || negb (sn_usdc_reserve snap =? sn_usdc_reserve last)
  || negb (sn_commutative snap =? sn_commutative last)%nat
  || negb (sn_stateful snap =? sn_stateful last)%nat
  || negb (sn_evm snap =? sn_evm last)%nat
  || f64_lt f64_epsilon (f64_abs (f64_sub (sn_throughput snap) (sn_throughput last)))
  || f64_lt f64_epsilon (f64_abs (f64_sub (sn_latency_ms snap) (sn_latency_ms last))).

(** One look of the task: the last snapshot sent, and what is sent now. *)
Definition look (last : StateSnapshot) (a : ApiState) : StateSnapshot * option StateSnapshot :=
  let snap := snapshot a in
  if worth_sending snap last then (snap, Some snap) else (last, None).

(** The looks of the task: its last snapshot, and what it sent in which state. *)
Fixpoint looks (last : StateSnapshot) (states : list ApiState) : StateSnapshot * list (StateSnapshot * ApiState) :=
  match states with
  | [] => (last, [])
  | a :: states =>
      let '(last, sent) := look last a in
      let '(last, later) := looks last states in
      (last, match sent with Some snap => (snap, a) :: later | None => later end)
  end.

(** [handle_socket]: the frames of a client that connects in state [a0] and stays while the
    task looks at the states [states]; each frame is rendered in the state of its look. *)
Definition socket_frames (a0 : ApiState) (last : StateSnapshot) (states : list ApiState) : list json :=
  snapshot_json a0 :: map (λ p, snapshot_json_from_snap p.1 p.2) (looks last states).2.
End live.

Local Open Scope Z_scope.
Local Abbreviation O := scale.

(** ** The sums of a cycle *)

(** Everything is first seen within [L] nanoseconds of [now]. *)
Definition within (L now first_seen : N) : Prop := (now - first_seen ≤ L)%N.

Section cycle.
Context {C : Crypto} {E : Ethers} {V : Revm} {HO : HashOrder}.

Lemma promote_tally_sum L now tick acc hn : Z.of_N L < 2 ^ 64 → within L now (node_first_seen hn.2) →
  Z.of_nat acc.1 < 2 ^ 40 → sum_ok (age_bound L) acc → sum_ok (age_bound L) (promote_tally tick now acc hn).
Proof using.
  intros HL Hw Hk Ha. pose proof (age_bound_range L HL) as HM. unfold promote_tally.
  destruct (promotable _ _); [|done]. destruct (_ <? _)%N; [|by apply sum_skip].
  destruct (age_bounded (now - node_first_seen hn.2) L Hw HL). by apply sum_step.
Qed.

Lemma promote_fold_sum L now tick hns : Z.of_N L < 2 ^ 64 →
  Forall (λ hn : N * DagNode, within L now (node_first_seen hn.2)) hns →
  ∀ acc, Z.of_nat (acc.1 + length hns) < 2 ^ 40 → sum_ok (age_bound L) acc →
  let r := fold_left (promote_tally tick now) hns acc in
  sum_ok (age_bound L) r ∧ (r.1 ≤ acc.1 + length hns)%nat.
Proof using.
  intros HL. induction 1 as [|hn hns Hw _ IH]; intros acc Hk Ha; cbn [fold_left length] in *; [split; [done|lia]|].
  assert (H1 : ((promote_tally tick now acc hn).1 ≤ S acc.1)%nat)
    by (unfold promote_tally; destruct (promotable _ _); cbn [fst]; lia).
  destruct (IH (promote_tally tick now acc hn)) as [H2 H3]; [lia| |split; [done|lia]].
  apply promote_tally_sum; [done|done|lia|done].
Qed.

(** The shifts promoted, and what they leave of the DAG. *)
Lemma promoted_sum L now tick d : Z.of_N L < 2 ^ 64 → Z.of_nat (size (nodes d)) < 2 ^ 40 →
  (∀ h n, nodes (promote_all d tick) !! h = Some n → within L now (node_first_seen n)) →
  sum_ok (age_bound L) (promote_to_finalized d tick now).2
  ∧ ((promote_to_finalized d tick now).2.1 ≤ size (nodes d))%nat.
Proof using.
  intros HL Hs Hw. cbn [promote_to_finalized snd].
  assert (Hl : length (hm_iter (nodes d)) = size (nodes d)) by (rewrite hm_iter_perm; apply length_map_to_list).
  rewrite <- Hl in *. apply (promote_fold_sum L now tick (hm_iter (nodes d)) HL) with (acc := (0%nat, f64_zero));
    [|done|by apply sum_zero].
  apply Forall_forall. intros [h n] Hin. rewrite hm_iter_perm in Hin. apply elem_of_map_to_list in Hin.
  specialize (Hw h (promote_node tick n)). cbn [promote_all nodes with_nodes] in Hw. rewrite lookup_fmap, Hin in Hw.
  specialize (Hw eq_refl). unfold promote_node in Hw. cbn [snd]. by destruct (promotable _ _).
Qed.

Definition loop_sum (l : EvmLoop) : nat * f64 := (length (lp_applied l), lp_latency_ms l).

Lemma evm_step_sum L now tick l it : Z.of_N L < 2 ^ 64 → within L now (tx_first_seen_at_ns it.2) →
  Z.of_nat (loop_sum l).1 < 2 ^ 40 → sum_ok (age_bound L) (loop_sum l) →
  sum_ok (age_bound L) (loop_sum (evm_step now tick l it))
  ∧ ((loop_sum (evm_step now tick l it)).1 ≤ S (loop_sum l).1)%nat.
Proof using.
  intros HL Hw Hk Ha. pose proof (age_bound_range L HL) as HM. unfold evm_step. destruct it as [idx tx].
  destruct (negb _); [by split; [|cbn; lia]|]. destruct (execute _ _) as [x r]. destruct (outcome r) as [[st gas] [logs|]].
  2: by split; [|cbn; lia]. unfold loop_sum in *. cbn [lp_applied lp_latency_ms fst].
  rewrite length_app. cbn [length]. rewrite Nat.add_1_r. split; [|lia].
  apply (sum_step _ HM (length (lp_applied l), lp_latency_ms l)); [done|done| |].
  all: unfold latency_ms; destruct (_ <? _)%N; [by apply (age_bounded (now - tx_first_seen_at_ns tx) L)|].
  - done.
  - change (fval f64_zero) with 0. destruct HM as [H _]. etransitivity; [|exact H]. done.
Qed.

Lemma evm_fold_sum L now tick its : Z.of_N L < 2 ^ 64 →
  Forall (λ it : nat * EvmTransaction, within L now (tx_first_seen_at_ns it.2)) its →
  ∀ l, Z.of_nat ((loop_sum l).1 + length its) < 2 ^ 40 → sum_ok (age_bound L) (loop_sum l) →
  let r := fold_left (evm_step now tick) its l in
  sum_ok (age_bound L) (loop_sum r) ∧ ((loop_sum r).1 ≤ (loop_sum l).1 + length its)%nat.
Proof using.
  intros HL. induction 1 as [|it its Hw _ IH]; intros l Hk Ha; cbn [fold_left length] in *; [split; [done|lia]|].
  destruct (evm_step_sum L now tick l it HL Hw ltac:(lia) Ha) as [H1 H2].
  destruct (IH (evm_step now tick l it)) as [H3 H4]; [lia|done|split; [done|lia]].
Qed.

(** The transactions the pool applied. *)
Lemma pool_sum L now tick p bal r : Z.of_N L < 2 ^ 64 → Z.of_nat (length (pending p)) < 2 ^ 40 →
  Forall (λ tx, within L now (tx_first_seen_at_ns tx)) (pending p) →
  pool_synthesize p bal now tick = Some r →
  sum_ok (age_bound L) r.1.2 ∧ (r.1.2.1 ≤ length (pending p))%nat.
Proof using.
  intros HL Hs Hw Hp. unfold pool_synthesize in Hp.
  apply bind_Some in Hp as ((x & b) & _ & [= <-]). cbn [fst snd]. unfold evm_loop.
  set (its := combine _ _). set (l0 := {| lp_exec := _ |}). 
  assert (Hl : length its = length (pending p)).
  { unfold its. rewrite length_combine, length_seq, Nat.min_id, (sort_by_perm tx_le). done. }
  rewrite <- Hl in *.
  apply (evm_fold_sum L now tick its HL) with (l := l0); [|done|apply sum_zero].
  apply Forall_forall. intros [i tx] Hin. unfold its in Hin.
  apply list_elem_of_In, in_combine_r, list_elem_of_In in Hin. rewrite (sort_by_perm tx_le) in Hin.
  by apply (proj1 (Forall_forall _ _) Hw).
Qed.
End cycle.

Section sums.
Context {C : Crypto} {E : Ethers} {V : Revm} {HO : HashOrder}.

(** The commutative stage leaves the DAG and the EVM pool alone. *)
Lemma commutative_stage_dag o tick r : commutative_stage o tick = Some r →
  dag r.1.1 = dag o ∧ evm_pool r.1.1 = evm_pool o.
Proof using.
  unfold commutative_stage. case_bool_decide; [by intros [= <-]|].
  intros ([[[f q] root] tot] & _ & [= <-])%bind_Some. done.
Qed.

(** The shifts finalized before a settlement, in the DAG it works on. *)
Lemma prepare_sum L o keys now p : prepare_cycle o keys now = Some p → Z.of_N L < 2 ^ 64 →
  Z.of_nat (size (nodes (dag (pr_osc p)))) < 2 ^ 40 →
  (∀ h n, nodes (dag (pr_osc p)) !! h = Some n → within L now (node_first_seen n)) →
  sum_ok (age_bound L) (pr_finalized p) ∧ ((pr_finalized p).1 ≤ size (nodes (dag (pr_osc p))))%nat.
Proof using.
  intros Hp HL. unfold prepare_cycle in Hp. destruct (decay_stage _ _) as [o1 dec].
  apply bind_Some in Hp as ((o2 & rej & fin) & H1 & Hp). apply bind_Some in Hp as ([[o3 root] tot] & H2 & [= <-]).
  cbn [pr_osc pr_finalized fst snd] in *. destruct (commutative_stage_dag _ _ _ H2) as [Hd _]. cbn [fst] in Hd. rewrite Hd. clear Hd H2.
  unfold insert_stage in H1. apply bind_Some in H1 as ((d1 & rj) & _ & H1). apply bind_Some in H1 as (ds & _ & H1).
  set (d := fold_left mark_double_spend ds d1) in *.
  pose proof (promoted_sum L now (synthesis_tick o) d HL) as Hs. cbn [promote_to_finalized snd] in Hs, H1.
  injection H1 as <- _ <-. cbn [dag with_dag with_stateful] in *.
  assert (He : size (nodes (promote_all d (synthesis_tick o))) = size (nodes d)) by (apply map_size_fmap).
  rewrite !He. intros Hsz Hw. by apply Hs.
Qed.
End sums.

(** ** The metrics of a cycle *)

Section metrics.
Context {C : Crypto} {E : Ethers} {V : Revm} {HO : HashOrder}.

(** The average of a result, by the age of the oldest thing it may count. *)
Definition latency_within (L : N) (r : SynthesisResult) : Prop :=
  f64_ok (avg_latency_ms r) ∧ fval (avg_latency_ms r) * 1000000 * 512 ≤ fx (Z.of_N (L + 1)) * 513.

(** The operations of a result. *)
Definition operations (r : SynthesisResult) : N :=
  N.of_nat (commutative_applied r + stateful_applied r + evm_applied r)%nat.

(** The rate of a result whose cycle took [ns]. *)
Definition rate_of (ns : N) (r : SynthesisResult) : Prop :=
  f64_ok (throughput_per_sec r)
  ∧ Z.abs (fval (throughput_per_sec r) * Z.of_N ns - fx (Z.of_N (operations r)) * 10 ^ 9) * 2 ^ 20
    ≤ fx (Z.of_N (operations r)) * 10 ^ 9 + O.

Definition unmeasured (r : SynthesisResult) : Prop :=
  avg_latency_ms r = f64_zero ∧ throughput_per_sec r = f64_zero ∧ elapsed_ms r = f64_zero.

Lemma elapsed_positive ns : (0 < ns)%N → Z.of_N ns < 2 ^ 64 →
  f64_lt f64_zero (f64_div (f64_of_N ns) (f64_of_N 1000000)) = true.
Proof using.
  intros H0 Hns. destruct (age_near ns Hns) as [Ho Hn]. cbn zeta in *. rewrite lt_ok by done.
  change (fval f64_zero) with 0. apply Z.ltb_lt.
  assert (1 * O ≤ Z.of_N ns * O) by (apply Z.mul_le_mono_nonneg_r; [done|lia]). unfold fx in Hn.
  clear -Hn H. generalize dependent (Z.of_N ns * O). assert (HO' : 0 < O) by done. generalize dependent O. intros. lia.
Qed.

Lemma measured_spec L r c d ns : Z.of_N L < 2 ^ 64 → sum_ok (age_bound L) c → sum_ok (age_bound L) d →
  Z.of_nat (c.1 + d.1) < 2 ^ 38 → Z.of_N ns < 2 ^ 64 → Z.of_N (operations r) < 2 ^ 66 → unmeasured r →
  latency_within L (measured r c d ns) ∧ (0 < ns → rate_of ns (measured r c d ns))%N
  ∧ elapsed_ms (measured r c d ns) = f64_div (f64_of_N ns) (f64_of_N 1000000)
  ∧ f64_ok (throughput_per_sec (measured r c d ns)).
Proof using.
  intros HL Hc Hd Hk Hns Hops (Ea & Et & _). unfold latency_within, rate_of.
  cbn [measured avg_latency_ms throughput_per_sec elapsed_ms]. split.
  { destruct (Nat.ltb_spec 0 (c.1 + d.1)) as [Hpos|_]; [by apply average_bounded|]. rewrite Ea. split; [done|].
    change (fval f64_zero) with 0. apply Z.mul_nonneg_nonneg; [|done]. unfold fx. apply Z.mul_nonneg_nonneg; [lia|done]. }
  destruct (N.eq_dec ns 0) as [->|Hz].
  { split; [lia|]. split; [done|]. change (f64_lt _ _) with false. cbn iota. by rewrite Et. }
  rewrite elapsed_positive by (done || lia).
  destruct (rate_near (operations r) ns ltac:(lia) Hns Hops) as [Ho Hn]. done.
Qed.

End metrics.

(** ** The price *)

Section price.
Context {C : Crypto} {E : Ethers} {V : Revm} {HO : HashOrder}.

Lemma account_balance_range f id : field_typed f → (units (account_balance f id) < 2 ^ 128)%N.
Proof using.
  intros Hf. unfold account_balance. destruct (accounts f !! id) as [a|] eqn:Ea; [|done].
  exact (proj2 (ft_accounts _ Hf id a Ea)).
Qed.

(** A ratio of amounts, for display. *)
Definition quote (wave usdc : N) : f64 :=
  if (wave =? 0)%N then f64_zero else f64_div (f64_of_N usdc) (f64_of_N wave).

Lemma pool_price_quote a : pool_price a = quote (wave_reserve a) (usdc_reserve a).
Proof using. done. Qed.

Lemma quote_ok wave usdc : (wave < 2 ^ 128)%N → (usdc < 2 ^ 128)%N →
  f64_ok (quote wave usdc)
  ∧ ((0 < wave)%N → Z.abs (fval (quote wave usdc) * Z.of_N wave - fx (Z.of_N usdc)) * 2 ^ 49 ≤ fx (Z.of_N usdc) + O).
Proof using.
  intros Hw Hu. assert (H200 : 2 ^ 128 < 2 ^ 200) by (by apply Z.pow_lt_mono_r). unfold quote.
  destruct (N.eqb_spec wave 0) as [->|Hz]; [split; [done|lia]|].
  destruct (ratio_ok usdc wave) as [Ho Hn]; [lia|lia|lia|]. done.
Qed.
End price.

(** ** What the sockets receive *)

(** Numbers the state may hold. *)
Record numbers_ok (s : StateSnapshot) : Prop := {
  no_price : f64_ok (sn_price s);
  no_throughput : f64_ok (sn_throughput s);
  no_latency : f64_ok (sn_latency_ms s);
}.

Lemma quiet s : numbers_ok s → worth_sending s s = false.
Proof.
  intros [Hp Ht Hl]. unfold worth_sending. rewrite eq_ok, Z.eqb_refl, !N.eqb_refl, !Nat.eqb_refl, !sub_self by done. done.
Qed.

Section sockets.
Context {C : Crypto} {E : Ethers} {V : Revm} {HO : HashOrder} {HX : Hex} {FT : FloatText}.

(** A snapshot that shows what the state holds: the displayed rates may be a part in 2^52 off,
    the burned units and the round trips are not compared. *)
Record shows (s : StateSnapshot) (a : ApiState) : Prop := {
  sh_wave : sn_wave_reserve s = wave_reserve a;
  sh_usdc : sn_usdc_reserve s = usdc_reserve a;
  sh_price : sn_price s = pool_price a;
  sh_commutative : sn_commutative s = st_commutative (stats a);
  sh_stateful : sn_stateful s = st_stateful (stats a);
  sh_evm : sn_evm s = st_evm (stats a);
  sh_throughput : f64_lt f64_epsilon (f64_abs (f64_sub (st_throughput (stats a)) (sn_throughput s))) = false;
  sh_latency : f64_lt f64_epsilon (f64_abs (f64_sub (st_latency_ms (stats a)) (sn_latency_ms s))) = false;
}.

(** A snapshot of some state prices its own reserves. *)
Definition priced (s : StateSnapshot) : Prop := sn_price s = quote (sn_wave_reserve s) (sn_usdc_reserve s).

Lemma snapshot_shows a : numbers_ok (snapshot a) → shows (snapshot a) a.
Proof using.
  intros [Hp Ht Hl]. cbn in Ht, Hl. split; try done; cbn [snapshot sn_throughput sn_latency_ms]; by rewrite sub_self.
Qed.

Lemma look_spec last a : numbers_ok (snapshot a) → priced last → 
  let '(last', sent) := look last a in
  shows last' a ∧ priced last' ∧ (sent = None ∧ last' = last ∨ sent = Some last' ∧ last' = snapshot a ∧ last' ≠ last).
Proof using.
  intros Hok Hl. unfold look. destruct (worth_sending (snapshot a) last) eqn:Ew.
  { split; [by apply snapshot_shows|]. split; [done|]. right. split; [done|]. split; [done|]. intros <-. by rewrite quiet in Ew. }
  unfold worth_sending in Ew. rewrite !orb_false_iff, !negb_false_iff in Ew.
  destruct Ew as (((((((Ep & Ew) & Eu) & Ec) & Es) & Ee) & Et) & El).
  apply N.eqb_eq in Ew, Eu. apply Nat.eqb_eq in Ec, Es, Ee. cbn [snapshot sn_wave_reserve sn_usdc_reserve
    sn_commutative sn_stateful sn_evm sn_throughput sn_latency_ms] in *.
  split; [|by split; [|left]]. split; try done. rewrite Hl, <- Ew, <- Eu. done.
Qed.

(** Each one another than the one before. *)
Fixpoint changes (last : StateSnapshot) (sent : list (StateSnapshot * ApiState)) : Prop :=
  match sent with [] => True | p :: sent => p.1 ≠ last ∧ changes p.1 sent end.

Lemma looks_spec states : ∀ last, priced last → Forall (λ a, numbers_ok (snapshot a)) states →
  let '(last', sent) := looks last states in
  changes last sent ∧ last' = List.last (map fst sent) last
  ∧ Forall (λ p, p.1 = snapshot p.2) sent ∧ (∀ a, list.last states = Some a → shows last' a).
Proof using.
  induction states as [|a states IH]; intros last Hl Hok; cbn [looks]; [done|].
  apply Forall_cons in Hok as [Ha Hok]. pose proof (look_spec last a Ha Hl) as Hs.
  destruct (look last a) as [last1 sent1]. destruct Hs as (Hsh & Hp & Hs).
  specialize (IH last1 Hp Hok). destruct (looks last1 states) as [last2 later] eqn:El.
  destruct IH as (Hc & He & Hf & Hlast).
  assert (Hl2 : ∀ b, list.last (a :: states) = Some b → shows last2 b).
  { intros b. destruct states as [|a2 states]; [|exact (Hlast b)]. intros [= <-]. injection El as <- <-. done. }
  destruct Hs as [[-> ->]|(-> & E1 & Hne)]; [done|]. split; [by cbn|]. split; [|split; [by constructor|done]].
  rewrite He. cbn [map fst]. clear. revert last1. induction (map fst later) as [|x l IH]; intros; [done|].
  cbn [List.last]. destruct l; [done|]. apply (IH last1).
Qed.

(** The numbers of a snapshot are numbers, and its price that of its reserves. *)
Lemma snapshot_numbers a : field_typed (wave_field (osc a)) → f64_ok (st_throughput (stats a)) →
  f64_ok (st_latency_ms (stats a)) → numbers_ok (snapshot a).
Proof using.
  intros Hf Ht Hl. split; [|done|done]. 
  apply (quote_ok (wave_reserve a) (usdc_reserve a)); by apply account_balance_range.
Qed.

(** The displayed state. With the rates of the last cycle in place, every number of the
    snapshot is finite and not negative, so that the state is never rendered with a null;
    and the price, in binary64 with its roundings, is zero for an empty pool and
    otherwise within two parts in 2^50 of the ratio of the reserves. *)
Theorem displayed_state a :
  field_typed (wave_field (osc a)) → f64_ok (st_throughput (stats a)) → f64_ok (st_latency_ms (stats a)) →
  let s := snapshot a in
  is_finite (sn_price s) && is_finite (sn_throughput s) && is_finite (sn_latency_ms s) && is_finite (sn_network_ms s) = true
  ∧ sn_price s = pool_price a
  ∧ (sn_wave_reserve s = 0%N → sn_price s = f64_zero)
  ∧ ((0 < sn_wave_reserve s)%N →
     Z.abs (fval (sn_price s) * Z.of_N (sn_wave_reserve s) - fx (Z.of_N (sn_usdc_reserve s))) * 2 ^ 49
     ≤ fx (Z.of_N (sn_usdc_reserve s)) + O).
Proof using.
  intros Hf Ht Hl. cbn zeta. pose proof (snapshot_numbers a Hf Ht Hl) as [Hp Hr Hm].
  rewrite !ok_finite by done. split; [done|]. split; [done|]. split.
  - intros Hz. change (quote (wave_reserve a) (usdc_reserve a) = f64_zero).
    change (wave_reserve a = 0%N) in Hz. unfold quote. by rewrite Hz.
  - apply (quote_ok (wave_reserve a) (usdc_reserve a)); by apply account_balance_range.
Qed.

(** The WebSocket task. Whatever states it looks at, it sends only snapshots that differ
    from the one it sent before, so nothing when nothing displayed changes, each taken in
    the state it is rendered in; and the last snapshot it sent, or its first one, shows
    the reserves, the price and the counters of its last look, with rates at most a part
    in 2^52 off. *)
Theorem websocket_updates a0 states :
  Forall (λ a, field_typed (wave_field (osc a)) ∧ f64_ok (st_throughput (stats a)) ∧ f64_ok (st_latency_ms (stats a)))
    (a0 :: states) →
  let '(seen, sent) := looks (snapshot a0) states in
  changes (snapshot a0) sent ∧ seen = List.last (map fst sent) (snapshot a0)
  ∧ Forall (λ p, p.1 = snapshot p.2) sent
  ∧ socket_frames a0 (snapshot a0) states = map snapshot_json (a0 :: map snd sent)
  ∧ shows seen (default a0 (list.last states)).
Proof using.
  intros Hok. apply Forall_cons in Hok as [(Hf & Ht & Hl) Hok].
  assert (Hn : Forall (λ a, numbers_ok (snapshot a)) states).
  { eapply Forall_impl; [exact Hok|]. intros a (H1 & H2 & H3). by apply snapshot_numbers. }
  pose proof (looks_spec states (snapshot a0) eq_refl Hn) as Hs.
  unfold socket_frames. destruct (looks (snapshot a0) states) as [seen sent] eqn:El.
  destruct Hs as (Hc & He & Hp & Hlast). split; [done|]. split; [done|]. split; [done|]. split.
  - cbn [map snd]. f_equal. rewrite map_map. apply map_ext_Forall. eapply Forall_impl; [exact Hp|].
    intros p Ep. unfold snapshot_json. by rewrite <- Ep.
  - destruct (list.last states) as [b|] eqn:Eb; [exact (Hlast b eq_refl)|].
    destruct states as [|x l]; [|by apply last_None in Eb]. injection El as <- <-.
    apply snapshot_shows, snapshot_numbers; done.
Qed.
End sockets.
Local Close Scope Z_scope.

(** ** Samples *)

Section sample.
Local Existing Instance lawful_crypto.
Local Existing Instance plain_ethers.
Local Existing Instance transfer_vm.
Local Existing Instance map_order.
Local Existing Instance plain_hex.

(** The cycle that finalizes the transfer of the sample node, seen at instant 8: it ends at
    instant 1,000,006 and takes two milliseconds. *)
Definition sample_clock : CycleClock :=
  {| finalized_at := 1000006; certified_at := 1000007; elapsed_ns := 2000000 |}.
Definition sample_deep : option Oscillator :=
  o ← sample_node; '(o, _, _) ← synthesize_trace o sample_keys 9;
  '(o, _, _) ← synthesize_trace o sample_keys 10; '(o, _, _) ← synthesize_trace o sample_keys 11; Some o.

(** The average is 0.999998 milliseconds, to the nearest float. *)
Example sample_latency :
  (λ o, (λ r, avg_latency_ms r.2) <$> synthesize o sample_keys sample_clock) <$> sample_deep
  = Some (Some (f64_div (f64_of_N 999998) (f64_of_N 1000000))).
Proof. vm_compute. reflexivity. Qed.

Definition deep_measures (o : Oscillator) : bool :=
  match prepare_cycle o sample_keys (finalized_at sample_clock), synthesize o sample_keys sample_clock with
  | Some p, Some (_, r) =>
      bool_decide (map_Forall (λ _ n, finalized_at sample_clock - node_first_seen n ≤ 1000000) (nodes (dag (pr_osc p))))
      && match pending (evm_pool (pr_osc p)) with [] => true | _ => false end
      && bool_decide (size (nodes (dag (pr_osc p))) = 1)%nat
      && bool_decide (operations r = 0) && f64_lt f64_zero (avg_latency_ms r) && f64_lt f64_zero (elapsed_ms r)
  | _, _ => false
  end.


(** A pool over the sample node, before and after a swap that moves its price. *)
Definition sample_state : option ApiState := api_new <$> sample_osc.
Definition swapped (a : ApiState) : ApiState := seed a (pool_usdc_account a) 50000000000000000.

Definition plain_floats : FloatText := λ _, ascii "1.0".
Local Existing Instance plain_floats.

Lemma sample_osc_typed o : sample_osc = Some o → osc_typed o.
Proof.
  unfold sample_osc. intros (o1 & H1 & [= <-])%bind_Some.
  apply seed_typed; [apply seed_typed; [exact (new_typed _ _ _ _ H1)|]|]; vm_compute; reflexivity.
Qed.

Lemma sample_state_field a : sample_state = Some a →
  field_typed (wave_field (osc a)) ∧ field_typed (wave_field (osc (swapped a))).
Proof.
  unfold sample_state. intros (o & Ho & ->)%fmap_Some. apply sample_osc_typed in Ho.
  assert (Hn : osc_typed (osc (api_new o))).
  { unfold api_new. cbn [osc seed with_osc register_key with_keys pool_wave_account pool_usdc_account].
    apply mark_typed; [apply seed_typed; [apply seed_typed; [exact Ho|]|]|]; vm_compute; reflexivity. }
  split; [apply Hn|]. unfold swapped. refine (ot_field _ (seed_typed _ _ _ Hn _)). vm_compute. reflexivity.
Qed.

Lemma displayed_state_witness :
  ∃ a, sample_state = Some a ∧ sn_price (snapshot (swapped a)) = pool_price (swapped a)
    ∧ (Z.abs (fval (sn_price (snapshot (swapped a))) * Z.of_N (wave_reserve (swapped a)) - fx (Z.of_N (usdc_reserve (swapped a)))) * 2 ^ 49
       ≤ fx (Z.of_N (usdc_reserve (swapped a))) + scale)%Z.
Proof.
  assert (Hs : (λ a, (0 <? wave_reserve (swapped a)) && f64_eq (st_throughput (stats a)) f64_zero) <$> sample_state = Some true)
    by (vm_compute; reflexivity).
  destruct (checked_option _ _ Hs) as (a & Ha & Hc). apply andb_true_iff in Hc as [Hc _]. apply N.ltb_lt in Hc.
  exists a. split; [exact Ha|]. destruct (sample_state_field a Ha) as [_ Hf].
  assert (Hst : st_throughput (stats (swapped a)) = f64_zero ∧ st_latency_ms (stats (swapped a)) = f64_zero).
  { unfold sample_state in Ha. apply fmap_Some in Ha as (o & _ & ->). split; reflexivity. }
  destruct Hst as [Ht Hl].
  destruct (displayed_state (swapped a) Hf) as (_ & Hp & _ & Hn); [rewrite Ht; reflexivity|rewrite Hl; reflexivity|].
  split; [exact Hp|]. exact (Hn Hc).
Defined.

(** Nothing is pushed for the state it connected in, one frame for the swap. *)
Lemma websocket_updates_witness :
  ∃ a s sent, sample_state = Some a ∧ looks (snapshot a) [a; swapped a] = (s, sent) ∧ length sent = 1%nat
    ∧ socket_frames a (snapshot a) [a; swapped a] = map snapshot_json (a :: map snd sent)
    ∧ shows s (swapped a).
Proof.
  assert (Hs : (λ a, match looks (snapshot a) [a; swapped a] with
                     | (_, [_]) => true | _ => false end)
               <$> sample_state = Some true) by (vm_compute; reflexivity).
  destruct (checked_option _ _ Hs) as (a & Ha & Hc).
  destruct (sample_state_field a Ha) as [Hf Hf'].
  assert (Hst : stats a = stats (swapped a) ∧ st_throughput (stats a) = f64_zero ∧ st_latency_ms (stats a) = f64_zero).
  { unfold sample_state in Ha. apply fmap_Some in Ha as (o & _ & ->). split_and!; reflexivity. }
  destruct Hst as (Hst & Ht & Hl).
  assert (Hok : Forall (λ b, field_typed (wave_field (osc b)) ∧ f64_ok (st_throughput (stats b)) ∧ f64_ok (st_latency_ms (stats b)))
                  [a; a; swapped a]).
  { repeat apply Forall_cons_2; [..|apply Forall_nil_2]; rewrite <- ?Hst, Ht, Hl; split_and!; (exact Hf || exact Hf' || reflexivity). }
  pose proof (websocket_updates a [a; swapped a] Hok) as Hw.
  destruct (looks (snapshot a) [a; swapped a]) as [s sent] eqn:El.
  destruct Hw as (_ & _ & _ & Hfr & Hsh). exists a, s, sent.
  split; [exact Ha|]. split; [exact El|]. split; [|split; [exact Hfr|exact Hsh]].
  destruct sent as [|? [|? ?]]; (discriminate Hc || reflexivity).
Defined.

(** A client that connects while the state differs from the last one pushed, and sees it come
    back, is left with what it first received. *)
Example late_client :
  (λ a, (length (socket_frames (swapped a) (snapshot a) [a]),
         bool_decide (sn_usdc_reserve (snapshot (swapped a)) = usdc_reserve a))) <$> sample_state
  = Some (1%nat, false).
Proof. vm_compute. reflexivity. Qed.
End sample.
