(* ===== verification/Sockets.v ===== *)
(** * WebSocket clients (src/src/api/websocket.rs)

    A client's task, [handle_socket], against the broadcast channel it subscribes to: it
    forwards what it receives, pings every thirty seconds, and is disconnected by the
    first frame that cannot be sent.  The channel (crate [tokio]) is a parameter: it keeps
    a bounded number of snapshots for every receiver and drops the oldest of a receiver
    that does not keep up.  Proved: what a client is sent is, in order, among what the
    broadcast task of Live pushed since it connected; and a client that stays connected is,
    after a ping and as many receptions as there are snapshots waiting, shown the last one
    pushed, whatever it missed before. *)
From S2P Require Import Prelude F64 Bytes Value Crypto Signals Merkle Stake Rewards Certificate.
From S2P Require Import Metabolic ModArith Ntt WaveField Domain Dag DagOrder Evm Oscillator Synthesis Settlement.
From S2P Require Import Persistence Typing Api EvmRpc Views Live.
Local Open Scope nat_scope.

(** ** The channel *)

(** What one receiver sees of the channel: the values pushed since it subscribed, those it
    lost excepted.  A reception finds nothing ([None]), a value, or that values were lost. *)
Class Broadcast := {
  Receiver : Type;
  rx_subscribe : nat → Receiver;
  rx_push : Receiver → StateSnapshot → Receiver;
  rx_recv : Receiver → Receiver * option (result unit StateSnapshot);
}.

(** A value is kept at least until the next one is pushed; losses are reported once, by the
    next reception, and the ones after it give the values still kept, in order. *)
Class BroadcastLaws (B : Broadcast) := {
  waiting : Receiver → list StateSnapshot;
  waiting_subscribe n : waiting (rx_subscribe n) = [];
  waiting_push r s : ∃ lost, waiting r ++ [s] = lost ++ waiting (rx_push r s) ∧ waiting (rx_push r s) ≠ [];
  waiting_none r r' : rx_recv r = (r', None) → waiting r = [] ∧ waiting r' = [];
  waiting_ok r r' s : rx_recv r = (r', Some (Ok s)) → waiting r = s :: waiting r';
  waiting_lagged r r' e : rx_recv r = (r', Some (Err e)) → waiting r' = waiting r;
  lagged_once r r' x : rx_recv r = (r', x) → ∀ r'' e, rx_recv r' ≠ (r'', Some (Err e));
}.

(** ** The client's task *)

Section sockets.
Context {C : Crypto} {E : Ethers} {V : Revm} {HO : HashOrder} {HX : Hex} {FT : FloatText} {B : Broadcast}.

(** [broadcast::channel(64)] *)
Definition WS_CAPACITY : nat := 64.

(** A frame, and the snapshot and the state a text is rendered from. *)
Inductive Frame := Text (s : StateSnapshot) (a : ApiState) | Ping.

Definition frame_json (f : Frame) : option json :=
  match f with Text s a => Some (snapshot_json_from_snap s a) | Ping => None end.

(** The receiver; whether this turn of the loop still waits for it, which it does not once
    a reception failed to match [Ok(snap)]; whether the loop still runs; the frames sent. *)
Record Client := {
  cl_rx : Receiver;
  cl_listening : bool;
  cl_open : bool;
  cl_frames : list Frame;
}.

(** The end of a turn: the frame is sent, or the loop is left. *)
Definition send_frame (c : Client) (rx : Receiver) (f : Frame) (ok : bool) : Client :=
  if ok then {| cl_rx := rx; cl_listening := true; cl_open := true; cl_frames := cl_frames c ++ [f] |}
  else {| cl_rx := rx; cl_listening := cl_listening c; cl_open := false; cl_frames := cl_frames c |}.

(** [handle_socket] up to its loop; the result of its first send is ignored. *)
Definition connect (a : ApiState) (ok : bool) : Client :=
  {| cl_rx := rx_subscribe WS_CAPACITY; cl_listening := true; cl_open := true;
     cl_frames := if ok then [Text (snapshot a) a] else [] |}.

(** What happens to the task: its receiver is polled, in a state, or thirty seconds of a turn
    are over; and whether the frame that may follow can be sent. *)
Inductive client_event := Poll (a : ApiState) (ok : bool) | PingDue (ok : bool).

Definition client_step (c : Client) (e : client_event) : Client :=
  if cl_open c then
    match e with
    | Poll a ok =>
        if cl_listening c then
          match rx_recv (cl_rx c) with
          | (rx, Some (Ok s)) => send_frame c rx (Text s a) ok
          | (rx, Some (Err _)) => {| cl_rx := rx; cl_listening := false; cl_open := true; cl_frames := cl_frames c |}
          | (rx, None) => {| cl_rx := rx; cl_listening := true; cl_open := true; cl_frames := cl_frames c |}
          end
        else c
    | PingDue ok => send_frame c (cl_rx c) Ping ok
    end
  else c.

(** The broadcast task and one client: looks of the task, turns of the client. *)
Inductive ws_event := Look (a : ApiState) | Turn (e : client_event).

Definition cl_push (c : Client) (s : StateSnapshot) : Client :=
  {| cl_rx := rx_push (cl_rx c) s; cl_listening := cl_listening c; cl_open := cl_open c; cl_frames := cl_frames c |}.

Definition ws_step (w : StateSnapshot * Client) (e : ws_event) : StateSnapshot * Client :=
  match e with
  | Look a =>
      let '(last, sent) := look w.1 a in
      (last, match sent with Some s => cl_push w.2 s | None => w.2 end)
  | Turn e => (w.1, client_step w.2 e)
  end.

Definition ws_run : list ws_event → StateSnapshot * Client → StateSnapshot * Client := fold_left ws_step.

(** ** What a client is shown *)

Definition shown (c : Client) : list StateSnapshot :=
  omap (λ f, match f with Text s _ => Some s | Ping => None end) (cl_frames c).
Definition looked (events : list ws_event) : list ApiState :=
  omap (λ e, match e with Look a => Some a | Turn _ => None end) events.
Definition first_shown (a : ApiState) (ok : bool) : list StateSnapshot := if ok then [snapshot a] else [].

(** Turns that bring a client up to date when its frames can be sent: a ping, a reception in
    case losses are to be reported, another ping, and the receptions. *)
Definition catch_up (n : nat) (a : ApiState) : list client_event :=
  [PingDue true; Poll a true; PingDue true] ++ replicate n (Poll a true).

Context {BL : BroadcastLaws B}.

(** Of what was pushed, [p] is behind the client and the rest waits; it was shown a part of
    [p], in order, and the end of it when nothing waits. *)
Definition follows (first pushed : list StateSnapshot) (c : Client) : Prop :=
  ∃ p l, pushed = p ++ waiting (cl_rx c) ∧ shown c = first ++ l ∧ l `sublist_of` p
    ∧ (cl_open c = true → waiting (cl_rx c) = [] → list.last l = list.last p).

Lemma follows_connect a ok : follows (first_shown a ok) [] (connect a ok).
Proof using.
  exists [], []. cbn [connect cl_rx cl_open]. rewrite waiting_subscribe. split_and!; [done| |done|done].
  by destruct ok.
Qed.

Lemma follows_push first pushed c s : follows first pushed c → follows first (pushed ++ [s]) (cl_push c s).
Proof using.
  intros (p & l & -> & Hs & Hl & _). destruct (waiting_push (cl_rx c) s) as (lost & Hw & Hne).
  exists (p ++ lost), l. cbn [cl_push cl_rx cl_open]. rewrite <- !app_assoc, Hw. split_and!; [done|done| |done].
  by apply sublist_inserts_r.
Qed.

Lemma shown_send c rx f ok : shown (send_frame c rx f ok) =
  shown c ++ match f with Text s _ => if ok then [s] else [] | Ping => [] end.
Proof using.
  unfold shown, send_frame. destruct ok; cbn [cl_frames]; [rewrite omap_app; by destruct f|].
  destruct f; by rewrite app_nil_r.
Qed.

Lemma follows_step first pushed c e : follows first pushed c → follows first pushed (client_step c e).
Proof using.
  intros (p & l & Hp & Hs & Hl & Hlast). unfold client_step. destruct (cl_open c) eqn:Ho; [|by exists p, l; rewrite Ho].
  destruct e as [a ok|ok].
  2:{ exists p, l. rewrite shown_send, app_nil_r. split_and!; [|done|exact Hl|].
    - destruct ok; exact Hp.
    - destruct ok; cbn; [intros _; by apply Hlast|done]. }
  destruct (cl_listening c); [|by exists p, l; rewrite Ho]. destruct (rx_recv (cl_rx c)) as [rx [[s|e]|]] eqn:Er.
  - apply waiting_ok in Er. exists (p ++ [s]), (l ++ if ok then [s] else []).
    rewrite shown_send, Hs, Hp, Er, <- !app_assoc. split_and!; [by destruct ok|by destruct ok| |].
    + apply sublist_app; [done|]. destruct ok; [done|apply sublist_nil_l].
    + destruct ok; [|done]. intros _ _. by rewrite !last_snoc.
  - apply waiting_lagged in Er. exists p, l. cbn [cl_rx cl_open]. rewrite Er. done.
  - apply waiting_none in Er as [E1 E2]. exists p, l. cbn [cl_rx cl_open]. rewrite E2. rewrite E1 in Hp, Hlast. done.
Qed.

Lemma follows_steps first pushed events : ∀ c, follows first pushed c → follows first pushed (fold_left client_step events c).
Proof using BL. induction events as [|e events IH]; intros c Hc; [done|]. by apply IH, follows_step. Qed.

Lemma follows_run first events : ∀ last c pushed, follows first pushed c →
  let '(seen, c') := ws_run events (last, c) in
  let '(seen', sent) := looks last (looked events) in
  seen = seen' ∧ follows first (pushed ++ map fst sent) c'.
Proof using BL.
  induction events as [|e events IH]; intros last c pushed Hc.
  { cbn. by rewrite app_nil_r. }
  unfold ws_run in *. cbn [fold_left]. destruct e as [a|e]; cbn [ws_step fst snd].
  - change (looked (Look a :: events)) with (a :: looked events). cbn [looks].
    destruct (look last a) as [last1 [s|]].
    + specialize (IH last1 _ _ (follows_push _ _ _ s Hc)). destruct (fold_left ws_step events _) as [seen c'].
      destruct (looks last1 (looked events)) as [seen' sent]. cbn [map fst]. by rewrite cons_middle, app_assoc.
    + specialize (IH last1 _ _ Hc). destruct (fold_left ws_step events _) as [seen c'].
      by destruct (looks last1 (looked events)).
  - change (looked (Turn e :: events)) with (looked events). apply IH. by apply follows_step.
Qed.

(** Frames are only added. *)
Lemma shown_grows events : ∀ c, ∃ more, shown (fold_left client_step events c) = shown c ++ more.
Proof using.
  induction events as [|e events IH]; intros c; [by exists []; rewrite app_nil_r|]. cbn [fold_left].
  destruct (IH (client_step c e)) as [more ->].
  enough (∃ x, shown (client_step c e) = shown c ++ x) as [x ->] by (exists (x ++ more); by rewrite app_assoc).
  unfold client_step. destruct (cl_open c); [|by exists []; rewrite app_nil_r].
  destruct e as [a ok|ok]; [|rewrite shown_send; eauto].
  destruct (cl_listening c); [|by exists []; rewrite app_nil_r].
  destruct (rx_recv (cl_rx c)) as [rx [[s|e]|]]; [rewrite shown_send; eauto|by exists []; rewrite app_nil_r..].
Qed.

Lemma poll_listening a c : cl_open c = true → cl_listening c = true →
  client_step c (Poll a true) = match rx_recv (cl_rx c) with
    | (rx, Some (Ok s)) => send_frame c rx (Text s a) true
    | (rx, Some (Err _)) => {| cl_rx := rx; cl_listening := false; cl_open := true; cl_frames := cl_frames c |}
    | (rx, None) => {| cl_rx := rx; cl_listening := true; cl_open := true; cl_frames := cl_frames c |}
    end.
Proof using. intros Ho Hl. unfold client_step. by rewrite Ho, Hl. Qed.

Lemma ping_open c : cl_open c = true → client_step c (PingDue true) = send_frame c (cl_rx c) Ping true.
Proof using. intros Ho. unfold client_step. by rewrite Ho. Qed.

(** A listening client that has nothing lost to be told empties its queue. *)
Lemma drain n a : ∀ c, cl_open c = true → cl_listening c = true →
  (∀ r e, rx_recv (cl_rx c) ≠ (r, Some (Err e))) → length (waiting (cl_rx c)) ≤ n →
  let c' := fold_left client_step (replicate n (Poll a true)) c in
  cl_open c' = true ∧ waiting (cl_rx c') = [].
Proof using BL.
  induction n as [|n IH]; intros c Ho Hl He Hn; cbn [replicate fold_left].
  { split; [done|]. apply nil_length_inv. lia. }
  rewrite poll_listening by done. destruct (rx_recv (cl_rx c)) as [rx [[s|e]|]] eqn:Er.
  - pose proof (waiting_ok _ _ _ Er) as Hw. apply IH; [done|done|by eapply lagged_once|].
    rewrite Hw in Hn. cbn in *. lia.
  - by destruct (He rx e).
  - destruct (waiting_none _ _ Er) as [_ Hw]. apply IH; [done|done|by eapply lagged_once|].
    cbn [cl_rx]. rewrite Hw. cbn. lia.
Qed.

Lemma catch_up_spec a c : cl_open c = true → ∃ n,
  let c' := fold_left client_step (catch_up n a) c in cl_open c' = true ∧ waiting (cl_rx c') = [].
Proof using BL.
  intros Ho. unfold catch_up. setoid_rewrite fold_left_app.
  set (c1 := fold_left client_step [PingDue true; Poll a true; PingDue true] c).
  exists (length (waiting (cl_rx c1))).
  assert (H1 : cl_open c1 = true ∧ cl_listening c1 = true ∧ ∀ r e, rx_recv (cl_rx c1) ≠ (r, Some (Err e))).
  { unfold c1. cbn [fold_left]. rewrite (ping_open c Ho), poll_listening by done. cbn [send_frame cl_rx].
    destruct (rx_recv (cl_rx c)) as [rx [[s|e]|]] eqn:Er; rewrite ping_open by done;
      (split; [done|split; [done|by eapply lagged_once]]). }
  destruct H1 as (Ho1 & Hl1 & He1). by apply drain.
Qed.

End sockets.

(** ** A channel *)

(** At most [capacity] values for each receiver, and whether it lost any since it last looked. *)
Definition plain_push (r : nat * list StateSnapshot * bool) (s : StateSnapshot) : nat * list StateSnapshot * bool :=
  let '(capacity, q, lost) := r in
  if length q <? capacity then (capacity, q ++ [s], lost) else (capacity, tl q ++ [s], true).
Definition plain_recv (r : nat * list StateSnapshot * bool) : (nat * list StateSnapshot * bool) * option (result unit StateSnapshot) :=
  let '(capacity, q, lost) := r in
  if lost then ((capacity, q, false), Some (Err ()))
  else match q with [] => (r, None) | s :: q => ((capacity, q, false), Some (Ok s)) end.

Definition plain_broadcast : Broadcast :=
  {| Receiver := nat * list StateSnapshot * bool; rx_subscribe := λ n, (n, [], false);
     rx_push := plain_push; rx_recv := plain_recv |}.

Lemma plain_broadcast_laws : BroadcastLaws plain_broadcast.
Proof.
  refine {| waiting := λ r : @Receiver plain_broadcast, (r : nat * list StateSnapshot * bool).1.2 |}; cbn.
  - done.
  - intros [[n q] lost] s. unfold plain_push. destruct (length q <? n); cbn.
    + exists []. split; [done|]. by destruct q.
    + exists (firstn 1 q). split; [|by destruct (tl q)]. by destruct q.
  - intros [[n q] lost] r'. unfold plain_recv. destruct lost, q; try done. by intros [= <-].
  - intros [[n q] lost] r' s. unfold plain_recv. destruct lost, q; try done. by intros [= <- <-].
  - intros [[n q] lost] r' e. unfold plain_recv. destruct lost, q; try done; by intros [= <- <-].
  - intros [[n q] lost] r' x. unfold plain_recv. destruct lost, q; intros [= <- <-] r'' e; cbn; try done.
    by destruct q.
Qed.

(** ** Samples *)

Section sample.
Local Existing Instance lawful_crypto.
Local Existing Instance plain_ethers.
Local Existing Instance transfer_vm.
Local Existing Instance map_order.
Local Existing Instance plain_hex.
Local Existing Instance plain_floats.
Local Existing Instance plain_broadcast.
Local Existing Instance plain_broadcast_laws.

Lemma sample_numbers a : sample_state = Some a → numbers_ok (snapshot a) ∧ numbers_ok (snapshot (swapped a)).
Proof.
  intros Ha. destruct (sample_state_field a Ha) as [Hf Hf'].
  assert (Hst : st_throughput (stats a) = f64_zero ∧ st_latency_ms (stats a) = f64_zero).
  { unfold sample_state in Ha. apply fmap_Some in Ha as (o & _ & ->). by split. }
  destruct Hst as [Ht Hl]. split; apply snapshot_numbers; try done; cbn [stats swapped seed with_osc]; rewrite ?Ht, ?Hl; done.
Qed.


(** A client that falls more than sixty-four snapshots behind: the report of the loss does
    not match, and it is shown nothing more, however often it is polled, until the ping of
    thirty seconds later. *)
Definition lagging (a : ApiState) (polls : nat) (after : list client_event) : nat :=
  length (shown (fold_left client_step (replicate polls (Poll a true) ++ after)
    (ws_run (concat (replicate 35 [Look (swapped a); Look a])) (snapshot a, connect a true)).2)).

Example lagging_client :
  (λ a, (lagging a 1 [], lagging a 100 [], lagging a 100 (PingDue true :: replicate 64 (Poll a true)))) <$> sample_state
  = Some (1, 1, 65).
Proof. vm_compute. reflexivity. Qed.
End sample.
