(* ===== verification/ApiTyping.v ===== *)
(** * Widths at the interfaces

    Every handler of the HTTP and JSON-RPC interfaces keeps the node's values in range,
    whatever the request: what a request parses to is in range, and so is what the node
    derives from it.  Node uses it for every run. *)
From S2P Require Import Prelude Bytes Value Crypto Signals Merkle Stake Rewards Certificate.
From S2P Require Import Metabolic ModArith Ntt WaveField Domain Dag DagOrder Evm Oscillator Synthesis Settlement.
From S2P Require Import Persistence Typing Api EvmRpc.
Local Open Scope N_scope.

(** What the decoding library returns are an address of 20 bytes and a hash of 32. *)
Class EthersLaws (E : Ethers) := {
  recovered_160 : ∀ tx from, recover_from tx = Ok from → from < 2 ^ 160;
  raw_hash_256 : ∀ tx, raw_hash tx < 2 ^ 256;
}.

(** ** Parsed values *)

Section parsing.
Context {HX : Hex}.

Lemma parse_id_range s a : parse_id s = Some a → a < 2 ^ 256.
Proof using.
  unfold parse_id, id_from_hex. intros (bs & _ & Hb)%bind_Some.
  destruct (Nat.eqb_spec (length bs) 32); cbn [negb] in Hb; [|done]. injection Hb as <-. by apply of_be_bound.
Qed.

Lemma parse_u128_range s n : parse_u128 s = Some n → n < 2 ^ 128.
Proof using.
  unfold parse_u128. intros (m & _ & Hm)%bind_Some.
  destruct (N.ltb_spec m (2 ^ 128)); [by injection Hm as <-|done].
Qed.

(** What a parse that succeeds has bound. *)
Lemma or_err_ok {E A} (e : E) (o : option A) x : or_err e o = Ok x → o = Some x.
Proof using. destruct o; cbn; congruence. Qed.

Lemma parse_stateful_typed {HO : HashOrder} rq s : parse_stateful_shift rq = Ok s → shift_typed s.
Proof using.
  unfold parse_stateful_shift.
  intros (from & Hf%or_err_ok & (to & Ht%or_err_ok & (n & Hn%or_err_ok & Hr)%bind_ok)%bind_ok)%bind_ok.
  apply bind_ok in Hr as (sig & _ & (es & _ & (vc & _ & (ps & _ & [= <-])%bind_ok)%bind_ok)%bind_ok).
  split; cbn; eauto using parse_id_range, parse_u128_range.
Qed.

Lemma parse_commutative_typed cq c : parse_commutative cq = Some c → cs_pool_id c < 2 ^ 256.
Proof using.
  unfold parse_commutative. intros (d & _ & (x & _ & (z & _ & (p & Hp & (sig & _ & [= <-])%bind_Some)%bind_Some)%bind_Some)%bind_Some)%bind_Some.
  by eapply parse_id_range.
Qed.
End parsing.

Section handlers.
Context {C : Crypto} {E : Ethers} {V : Revm} {HO : HashOrder} {HX : Hex} {CL : CryptoLaws C}.

(** The shared state in range: the oscillator, the accounts of the pool, and every signal
    the node has sent, so that what a peer running the same program receives is in range. *)
Record api_typed (a : ApiState) : Prop := {
  at_osc : osc_typed (osc a);
  at_wave : pool_wave_account a < 2 ^ 256;
  at_usdc : pool_usdc_account a < 2 ^ 256;
  at_sent : Forall signal_typed (default [] (gossip a));
}.

Lemma api_same_typed a a' : osc a' = osc a → pool_wave_account a' = pool_wave_account a →
  pool_usdc_account a' = pool_usdc_account a → gossip a' = gossip a → api_typed a → api_typed a'.
Proof using. intros E1 E2 E3 E4 [H1 H2 H3 H4]. split; by rewrite ?E1, ?E2, ?E3, ?E4. Qed.

Lemma with_osc_typed a o : api_typed a → osc_typed o → api_typed (with_osc a o).
Proof using. intros [H1 H2 H3 H4] Ho. by split. Qed.

Lemma broadcast_typed a s : api_typed a → signal_typed s → api_typed (broadcast a s).
Proof using.
  intros Ha Hs. unfold broadcast. destruct (gossip a) as [l|] eqn:Hg; [|done]. destruct Ha as [H1 H2 H3 H4].
  split; [done..|]. cbn. rewrite Hg in H4. apply Forall_app. split; [exact H4|by apply Forall_singleton].
Qed.

Lemma account_of_key_range vk : account_from_public_key vk < 2 ^ 256.
Proof using CL. apply blake3_256. Qed.
Lemma derived_range a salt : derive_account a salt < 2 ^ 256.
Proof using CL. apply blake3_256. Qed.

Lemma seed_api_typed a x n : api_typed a → x < 2 ^ 256 → api_typed (seed a x n).
Proof using. intros Ha Hx. apply with_osc_typed; [done|]. by apply seed_typed; [apply Ha|]. Qed.

Lemma mark_api_typed a x : api_typed a → x < 2 ^ 256 → api_typed (with_osc a (mark_non_decaying (osc a) x)).
Proof using. intros Ha Hx. apply with_osc_typed; [done|]. by apply mark_typed; [apply Ha|]. Qed.

Lemma ingest_api_typed a s now : api_typed a → signal_typed s → api_typed (with_osc a (ingest (osc a) s now).1).
Proof using CL. intros Ha Hs. apply with_osc_typed; [done|]. by apply ingest_typed; [apply Ha|]. Qed.

Lemma payout_range a s p : api_typed a → payout_of a s = Ok p →
  p.1.1 < 2 ^ 256 ∧ p.1.2 < 2 ^ 256 ∧ p.2 < 2 ^ 128.
Proof using CL.
  intros Ha. unfold payout_of. intros (main & _ & Hp)%bind_ok. cbn [token_accounts] in Hp.
  assert (Hout : ∀ x y q, sat_mul 128 x y / q < 2 ^ 128).
  { intros x y q. eapply N.le_lt_trans; [|apply (sat_mul_lt 128 x y)].
    destruct (N.eq_dec q 0) as [->|Hq]; [rewrite N.div_0_r; lia|]. apply N.Div0.div_le_upper_bound; nia. }
  assert (Hw : ∀ x, wave_to_usdc_out a x < 2 ^ 128 ∧ usdc_to_wave_out a x < 2 ^ 128).
  { intros x. unfold wave_to_usdc_out, usdc_to_wave_out.
    split; [destruct (wave_reserve a =? 0)|destruct (usdc_reserve a =? 0)]; (reflexivity || apply Hout). }
  destruct (_ =? 0); [done|]. destruct (_ =? _); injection Hp as <-; cbn;
    (split; [apply Ha|split; [apply derived_range|apply Hw]]).
Qed.

Lemma pay_out_typed a s now : api_typed a → api_typed (pay_out a s now).1.
Proof using CL.
  intros Ha. unfold pay_out. destruct (negb (is_swap a s)); [done|].
  destruct (payout_of a s) as [p|e] eqn:Hp; [|done]. apply payout_range in Hp as (H1 & H2 & H3); [|done].
  assert (Ht : signal_typed (SigStateful (payout_shift a s p))) by done.
  pose proof (ingest_api_typed a _ now Ha Ht) as Hi. by destruct (ingest _ _ _) as [o r].
Qed.

Lemma submit_stateful_typed a rq now : api_typed a → api_typed (submit_stateful a rq now).1.
Proof using CL.
  intros Ha. unfold submit_stateful. destruct (s ← parse_stateful_shift rq; _ ← check_shift a s; Ok s) as [s|e] eqn:Hs;
    [|done]. apply bind_ok in Hs as (s' & Hs%parse_stateful_typed & (u & _ & [= ->])%bind_ok).
  pose proof (pay_out_typed a s now Ha) as H1. destruct (pay_out a s now) as [a1 [[]|e]]; [|done]. cbn [fst] in H1.
  set (a2 := record_shift a1 (recent_stateful a1 s)).
  assert (H2 : api_typed a2) by by apply (api_same_typed a1).
  pose proof (ingest_api_typed a2 (SigStateful s) now H2 Hs) as H3. by destruct (ingest _ _ _) as [o r].
Qed.

Lemma submit_commutative_typed a cq now : api_typed a → api_typed (submit_commutative a cq now).1.
Proof using CL.
  intros Ha. unfold submit_commutative. destruct (parse_commutative cq) as [c|] eqn:Hc; [|done].
  apply parse_commutative_typed in Hc. set (a2 := record_shift a (recent_commutative c)).
  assert (H2 : api_typed a2) by by apply (api_same_typed a).
  pose proof (ingest_api_typed a2 (SigCommutative c) now H2 Hc) as H3. by destruct (ingest _ _ _) as [o r].
Qed.

Lemma register_typed a h : api_typed a → api_typed (register_account a h).1.
Proof using CL.
  intros Ha. unfold register_account. destruct (parse_key h) as [vk|]; [|done]. cbn [token_accounts fst].
  set (acct := account_from_public_key vk).
  set (wave := derive_account acct (ascii "WAVE")). set (usdc := derive_account acct (ascii "USDC")).
  set (a1 := register_key a acct vk). assert (H1 : api_typed a1) by by apply (api_same_typed a).
  pose proof (seed_api_typed a1 wave FAUCET_UNITS H1 (derived_range _ _)) as H2.
  pose proof (seed_api_typed _ usdc FAUCET_UNITS H2 (derived_range _ _)) as H3.
  pose proof (mark_api_typed _ usdc H3 (derived_range _ _)) as H4.
  apply broadcast_typed; [by eapply api_same_typed; [..|exact H4]|].
  split; [apply account_of_key_range|]. split; apply derived_range.
Qed.

Lemma faucet_typed a h : api_typed a → api_typed (evm_faucet a h).1.
Proof using CL.
  intros Ha. unfold evm_faucet. destruct (hex_decode (trim_0x h)) as [bs|]; [|done].
  destruct (negb _); [done|]. apply seed_api_typed; [done|apply blake3_256].
Qed.

Lemma own_stake_typed a kp n nonce now : api_typed a → n < 2 ^ 128 →
  osc_typed (apply_stake (osc a) (sk_sign kp n nonce now)).1.
Proof using CL. intros Ha Hn. apply stake_typed; [apply Ha|]. split; [apply blake3_256|done]. Qed.

Lemma operator_stake_typed a amount now : api_typed a → api_typed (submit_operator_stake a amount now).1.
Proof using CL.
  intros Ha. unfold submit_operator_stake. destruct (parse_u128 amount) as [n|] eqn:Hn; [|done].
  apply parse_u128_range in Hn. destruct (api_operator_keypair a) as [kp|]; [|done].
  pose proof (with_osc_typed a _ Ha (own_stake_typed a kp n 0 now Ha Hn)) as H1.
  destruct (apply_stake _ _) as [o ok]. destruct (negb ok); [done|].
  apply broadcast_typed; [done|]. split; [apply blake3_256|done].
Qed.

Lemma rewards_typed a p : api_typed a → api_typed (with_osc a (with_rewards (osc a) p)).
Proof using. intros Ha. apply with_osc_typed; [done|]. by apply (same_typed (osc a)); [|apply Ha]. Qed.

Lemma claim_typed a : api_typed a → api_typed (claim_operator_rewards a).1.
Proof using CL.
  intros Ha. unfold claim_operator_rewards. destruct (api_operator_keypair a) as [kp|]; [|done].
  destruct (claim _ _) as [p n]. destruct (_ <? _); [|by apply rewards_typed].
  apply seed_api_typed; [by apply rewards_typed|apply blake3_256].
Qed.

Lemma claim_lp_typed a h : api_typed a → api_typed (claim_lp_rewards a h).1.
Proof using.
  intros Ha. unfold claim_lp_rewards. destruct (parse_id h) as [pool|]; [|done].
  destruct (claim_lp_reward _ _) as [p n]. pose proof (rewards_typed a p Ha) as H1.
  destruct (_ <? _); [|done]. apply seed_api_typed; [apply seed_api_typed; [done|apply Ha]|apply Ha].
Qed.

Lemma domain_route_typed a dq : api_typed a → api_typed (register_domain_route a dq).1.
Proof using.
  intros Ha. unfold register_domain_route. destruct (check_domain_request a dq) as [[p r]|e] eqn:Hc; [|done].
  assert (Hr : r < 2 ^ 256).
  { unfold check_domain_request in Hc. apply bind_ok in Hc as (d & _ & (x & Hx%or_err_ok & Hc)%bind_ok).
    apply bind_ok in Hc as (sig & _ & (om & _ & (fp & _ & (q & _ & (pk & _ & (s & _ & Hc)%bind_ok)%bind_ok)%bind_ok)%bind_ok)%bind_ok).
    destruct (negb _); [done|]. injection Hc as _ <-. by eapply parse_id_range. }
  pose proof (domain_typed (osc a) p r (at_osc _ Ha) Hr) as H1.
  destruct (register_domain (osc a) p r) as [o res]. by apply with_osc_typed.
Qed.

Lemma api_new_typed o : osc_typed o → api_typed (api_new o).
Proof using CL.
  intros Ho. unfold api_new. set (a0 := {| osc := o |}).
  set (wave := derive_account _ _). set (usdc := derive_account _ (ascii "USDC")).
  assert (H0 : api_typed a0) by (split; [done|apply derived_range..|by apply Forall_nil]).
  pose proof (seed_api_typed a0 wave POOL_SEED H0 (derived_range _ _)) as H1.
  pose proof (seed_api_typed _ usdc POOL_SEED H1 (derived_range _ _)) as H2.
  pose proof (mark_api_typed _ usdc H2 (derived_range _ _)) as H3.
  by eapply api_same_typed; [..|exact H3].
Qed.

(** ** JSON-RPC *)

Context {EL : EthersLaws E}.

Lemma decoded_typed raw tx : decode_raw raw = Some (Ok tx) → tx_typed tx.
Proof using EL.
  unfold decode_raw. destruct (rlp_decode raw) as [r|e]; [|done]. intros (c & _ & Hd)%bind_Some.
  destruct (_ && _); [done|]. destruct (recover_from r) as [from|e] eqn:Hf; [|done].
  apply bind_Some in Hd as (g & _ & (k & _ & [= <-])%bind_Some).
  split; [apply raw_hash_256|by eapply recovered_160].
Qed.

Context {ET : EvmText} {UT : U256Text}.

Lemma dispatch_typed a m ps now t a' r : api_typed a → dispatch a m ps now t = Some (a', r) → api_typed a'.
Proof using CL EL.
  intros Ha. unfold dispatch. case_bool_decide; [|by intros [= <- _]].
  unfold send_raw_transaction. destruct (raw_hex ← _; _) as [raw|e]; [|by intros [= <- _]].
  intros (d & Hd & Hr)%bind_Some. destruct d as [tx|e]; injection Hr as <- <-; [|done].
  apply decoded_typed in Hd. set (o := with_evm (osc a) _).
  apply (api_same_typed (with_osc a o)); [done..|]. apply with_osc_typed; [done|].
  apply with_evm_typed; [apply Ha|]. apply submit_typed; [|done]. apply Ha.
Qed.
End handlers.

#[export] Instance wire_ethers_laws : EthersLaws wire_ethers.
Proof.
  split.
  - intros tx from [= <-]. by apply N.mod_lt.
  - intros tx. by apply N.mod_lt.
Qed.
