(* ===== verification/Node.v ===== *)
(** * The mesh node (src/src/bin/mesh_node.rs)

    The program itself: booting with the reload of the last snapshot, the genesis balance
    and the pool, the handling of gossiped signals, the generator, the announcements, the
    probes, the synthesis tick, saving, and the HTTP and JSON-RPC interfaces, as one state
    machine over the API's state, with restarts.  Its tasks and threads become the order
    of the events; outbound gossip is the list of what was sent; the clock, the answers of
    the file system and the file are part of the events and the state.  Proved: every run
    of the node refines the life of its oscillator, so no interface, no peer and no restart
    settles a transfer twice, and a tick does not panic; every value stays in its width.
    Shown by runs: restarts create value, a gossiped registration takes an account over.
    What the node reads as text is in Config, the metrics of its cycles in Live, the rate
    limit of its server in Server; sockets and logging are not modelled. *)
From S2P Require Import Prelude F64 Bytes Value Crypto Signals Merkle Stake Rewards Certificate.
From S2P Require Import Metabolic ModArith Ntt WaveField Domain Dag DagOrder Evm Oscillator Synthesis Settlement.
From S2P Require Import Persistence Typing Api EvmRpc ApiTyping.
Local Open Scope N_scope.

Definition NTT_SIZE : nat := 2048.
Definition GENESIS_BALANCE : N := 1000000000000000000.
Definition GENERATOR_DELTA : Z := 1000000.
Definition GENERATOR_POOL : N := of_be (repeat xab 32).

Section node.
Context {C : Crypto} {E : Ethers} {V : Revm} {HO : HashOrder} {HX : Hex} {ET : EvmText} {UT : U256Text}
  {J : SnapshotJson V}.

(** The node: what the tasks share, the stake announcement, the counters of the generator and
    of the probes, and the snapshot file. *)
Record Node := {
  n_api : ApiState;
  n_keypair : KeyPair;
  n_announcement : Signal;
  n_generator_nonce : N;
  n_ping_nonce : N;
  n_file : option JsonText;
}.

Definition with_api (n : Node) (a : ApiState) : Node :=
  {| n_api := a; n_keypair := n_keypair n; n_announcement := n_announcement n;
     n_generator_nonce := n_generator_nonce n; n_ping_nonce := n_ping_nonce n; n_file := n_file n |}.

(** [arr[0..8].copy_from_slice(&n.to_le_bytes())] *)
Definition node_id (n : N) : N := of_be (u64_le n ++ repeat x00 24).

(** The genesis balance is seeded when the balance is zero, and staked. *)
Definition seed_genesis (o : Oscillator) (kp : KeyPair) (now : N) : Oscillator :=
  let o := if units (account_balance (wave_field o) (account_id kp)) =? 0
           then osc_seed_account o (account_id kp) GENESIS_BALANCE else o in
  (apply_stake o (sk_sign kp GENESIS_BALANCE 0 now)).1.

(** The start of [main]: [random_kp] is the key [Oscillator::new] draws, [now1] and [now2] the
    times of the two stake signatures. *)
Definition boot (n : N) (random_kp : KeyPair) (read_ok : bool) (file : option JsonText) (now1 now2 : N)
    : option Node :=
  let kp := from_seed (node_id n) in
  o ← osc_new (node_id n) NTT_SIZE random_kp;
  let o := set_operator_keypair o kp in
  let o := (load read_ok o file).1 in
  let o := seed_genesis o kp now1 in
  let a := register_key (set_api_operator (api_new o) kp) (account_id kp) (public_key kp) in
  Some {| n_api := set_gossip a; n_keypair := kp;
          n_announcement := SigStake (sk_sign kp GENESIS_BALANCE 0 now2);
          n_generator_nonce := 0; n_ping_nonce := 0; n_file := file |}.

(** ** Gossip *)

(** The ingest loop; failures are logged and nothing more. *)
Definition handle_signal (a : ApiState) (s : Signal) (now : N) : ApiState :=
  match s with
  | SigRegistration reg =>
      match vk_from_bytes (rs_public_key reg) with
      | None => a
      | Some vk =>
          let a := register_key a (rs_account reg) vk in
          let a := register_key a (rs_wave_account reg) vk in
          let a := register_key a (rs_usdc_account reg) vk in
          let a := register_derived a (rs_wave_account reg) (rs_account reg) in
          let a := register_derived a (rs_usdc_account reg) (rs_account reg) in
          with_osc a (apply_registration (osc a) reg)
      end
  | SigStake stake =>
      let a := match vk_from_bytes (sk_public_key stake) with
               | Some vk => register_key a (sk_operator stake) vk
               | None => a
               end in
      with_osc a (apply_stake (osc a) stake).1
  | SigPing timestamp_ns nonce => broadcast a (SigPong timestamp_ns nonce)
  | SigPong timestamp_ns _ =>
      record_network_latency_ms a (f64_div (f64_of_N (now - timestamp_ns)) (f64_of_N 1000000))
  | SigCertificate cert => with_osc a (osc_ingest_certificate (osc a) cert (registry a)).1
  | SigAuth _ => a
  | other => with_osc a (ingest (osc a) other now).1
  end.

(** ** Timers *)

Definition recent_generated (s : CommutativeShift) : RecentShift :=
  {| rs_hash := cs_hash s; rs_kind := KindCommutative; rs_domain := Some (cs_domain s); rs_from := None;
     rs_to := None; rs_amount := Some (cs_delta s); rs_token := Some TokenWave;
     rs_time := cs_timestamp_ns s |}.

(** One turn of the generator. *)
Definition generate (n : Node) (now : N) : Node :=
  let nonce := n_generator_nonce n in
  let shift := cs_new (n_keypair n) DEFAULT_DEX_DOMAIN (coord_from_scalar nonce) GENERATOR_DELTA
                 GENERATOR_POOL nonce 0 in
  let '(o, r) := ingest (osc (n_api n)) (SigCommutative shift) now in
  let a := with_osc (n_api n) o in
  let a := match r with Ok _ => record_shift a (recent_generated shift) | Err _ => a end in
  {| n_api := broadcast a (SigCommutative shift); n_keypair := n_keypair n;
     n_announcement := n_announcement n; n_generator_nonce := wadd 64 nonce 1;
     n_ping_nonce := n_ping_nonce n; n_file := n_file n |}.

Definition ping (n : Node) (now : N) : Node :=
  {| n_api := broadcast (n_api n) (SigPing now (n_ping_nonce n)); n_keypair := n_keypair n;
     n_announcement := n_announcement n; n_generator_nonce := n_generator_nonce n;
     n_ping_nonce := wadd 64 (n_ping_nonce n) 1; n_file := n_file n |}.

Definition announce (n : Node) : Node := with_api n (broadcast (n_api n) (n_announcement n)).

(** A synthesis tick, with the hashes it settles: the cycle, the statistics, the gossip of the
    certificate of the tick that just ended. *)
Definition synth_tick (n : Node) (now : CycleClock) : option (Node * list N) :=
  '(o, r, hs) ← synthesize_trace (osc (n_api n)) (registry (n_api n)) now;
  let a := record_synthesis (with_osc (n_api n) o) r in
  let tick := synthesis_tick o - 1 in
  let a := match certificates o !! tick with
           | Some cert => broadcast a (SigCertificate cert)
           | None => a
           end in
  Some (with_api n a, hs).

Definition save_snapshot (n : Node) (io : SaveIo) : Node :=
  {| n_api := n_api n; n_keypair := n_keypair n; n_announcement := n_announcement n;
     n_generator_nonce := n_generator_nonce n; n_ping_nonce := n_ping_nonce n;
     n_file := (save io (osc (n_api n)) (n_file n)).1 |}.

(** ** Requests *)

(** The routes that change the node; the others only read it. *)
Inductive http_request :=
  | PostStateful (rq : StatefulShiftRequest)
  | PostCommutative (cq : CommutativeShiftRequest)
  | PostRegister (public_key_hex : bytes)
  | PostFaucet (address : bytes)
  | PostStake (amount : bytes)
  | PostClaim
  | PostClaimLp (pool_id : bytes)
  | PostDomain (dq : RegisterDomainRequest).

Definition handle_request (a : ApiState) (rq : http_request) (now : N) : ApiState :=
  match rq with
  | PostStateful rq => (submit_stateful a rq now).1
  | PostCommutative cq => (submit_commutative a cq now).1
  | PostRegister h => (register_account a h).1
  | PostFaucet h => (evm_faucet a h).1
  | PostStake amount => (submit_operator_stake a amount now).1
  | PostClaim => (claim_operator_rewards a).1
  | PostClaimLp p => (claim_lp_rewards a p).1
  | PostDomain dq => (register_domain_route a dq).1
  end.

(** ** The node as a state machine *)

Inductive event :=
  | EvSignal (s : Signal) (now : N)
  | EvRequest (rq : http_request) (now : N)
  | EvRpc (rq : RpcRequest) (now_ns now_s : N)
  | EvGenerate (now : N)
  | EvPing (now : N)
  | EvAnnounce
  | EvSave (io : SaveIo)
  | EvSynthesize (now : CycleClock).

(** The next state and the transfers settled on the way; [None] is a panic of the synthesis
    loop.  A panic of an RPC handler ends its connection only. *)
Definition node_step (n : Node) (e : event) : option (Node * list N) :=
  match e with
  | EvSignal s now => Some (with_api n (handle_signal (n_api n) s now), [])
  | EvRequest rq now => Some (with_api n (handle_request (n_api n) rq now), [])
  | EvRpc rq now_ns now_s =>
      Some (match rpc_handler (n_api n) rq now_ns now_s with
            | Some (a, _) => with_api n a
            | None => n
            end, [])
  | EvGenerate now => Some (generate n now, [])
  | EvPing now => Some (ping n now, [])
  | EvAnnounce => Some (announce n, [])
  | EvSave io => Some (save_snapshot n io, [])
  | EvSynthesize now => synth_tick n now
  end.

(** ** Every event acts through the oscillator's operations *)

Lemma acts_signal a s now : acts a (handle_signal a s now).
Proof using.
  destruct s as [c|s|r|s|ts k|ts k|c|p]; cbn [handle_signal].
  - apply acts_ingest.
  - apply acts_ingest.
  - destruct (vk_from_bytes (rs_public_key r)) as [vk|]; [|apply acts_refl].
    eapply acts_trans; [|eapply acts_step, os_registration]. by apply acts_same.
  - eapply acts_trans; [|eapply acts_step, os_stake].
    apply acts_same. by destruct (vk_from_bytes (sk_public_key s)).
  - apply acts_same, osc_broadcast.
  - by apply acts_same.
  - eapply acts_step, os_certificate.
  - apply acts_refl.
Qed.

Lemma acts_request a rq now : acts a (handle_request a rq now).
Proof using.
  destruct rq; cbn [handle_request]; [apply acts_submit_stateful|apply acts_submit_commutative|
    apply acts_register|apply acts_faucet|apply acts_operator_stake|apply acts_claim|
    apply acts_claim_lp|apply acts_domain].
Qed.

Lemma acts_generate n now : acts (n_api n) (n_api (generate n now)).
Proof using.
  unfold generate. set (s := cs_new _ _ _ _ _ _ _).
  pose proof (acts_ingest (n_api n) (SigCommutative s) now) as Hi.
  destruct (ingest (osc (n_api n)) (SigCommutative s) now) as [o r]. cbn [fst n_api] in *.
  eapply acts_trans; [exact Hi|]. apply acts_same. rewrite osc_broadcast. by destruct r.
Qed.

(** Every event but a tick settles nothing and runs the oscillator's operations. *)
Lemma node_step_acts n e n' hs : node_step n e = Some (n', hs) → (∀ now, e ≠ EvSynthesize now) →
  hs = [] ∧ acts (n_api n) (n_api n').
Proof using.
  intros Hs He. destruct e; cbn [node_step] in Hs; try (injection Hs as <- <-; split; [done|]).
  - apply acts_signal.
  - apply acts_request.
  - unfold rpc_handler. destruct (dispatch _ _ _ _ _) as [[a r]|] eqn:Hd; cbn [mbind option_bind].
    + exact (acts_dispatch _ _ _ _ _ _ _ Hd).
    + apply acts_refl.
  - apply acts_generate.
  - apply acts_same, osc_broadcast.
  - apply acts_same, osc_broadcast.
  - by apply acts_same.
  - by destruct (He now).
Qed.

(** A tick is one synthesis cycle. *)
Lemma synth_tick_step n now n' hs : synth_tick n now = Some (n', hs) →
  osc_step (osc (n_api n)) [] hs (osc (n_api n')).
Proof using.
  unfold synth_tick. intros ([[o r] hs'] & Hs & Hr)%bind_Some. cbn in Hr. injection Hr as <- <-.
  apply (os_synthesize _ (registry (n_api n)) now _ r). rewrite Hs. repeat f_equal.
  cbn [with_api n_api]. destruct (certificates o !! _); [|done]. by rewrite osc_broadcast.
Qed.

(** ** Booting *)

Lemma load_operator ok o kp file :
  (load ok (set_operator_keypair o kp) file).1 = set_operator_keypair (load ok o file).1 kp.
Proof using.
  unfold load. destruct file as [json|]; [|done]. destruct (negb ok); [done|].
  destruct (from_json json) as [s|]; [|done]. by destruct (negb _).
Qed.

Lemma seed_genesis_steps o kp now : osc_steps o [] [] (seed_genesis o kp now).
Proof using.
  unfold seed_genesis. set (o1 := if _ =? 0 then _ else o).
  apply (osc_steps_trans o [] [] o1 [] []).
  - unfold o1. destruct (_ =? 0); [|apply oss_refl]. apply osc_steps_one, os_seed.
  - apply osc_steps_one, os_stake.
Qed.

(** A boot is the reload of the file into a new oscillator, followed by operations that
    settle nothing. *)
Lemma boot_steps n rkp ok file now1 now2 nd : boot n rkp ok file now1 now2 = Some nd →
  n_file nd = file ∧ ∃ o, booted o ∧ ∃ ac, osc_steps (load ok o file).1 ac [] (osc (n_api nd)).
Proof using.
  unfold boot. intros (o & Ho & Hnd)%bind_Some. injection Hnd as <-. split; [done|].
  exists o. split; [by eapply boot_new|]. rewrite load_operator. set (kp := from_seed (node_id n)).
  set (o1 := seed_genesis _ _ _). destruct (acts_new o1) as [ac Hac].
  assert (H1 : osc_steps (load ok o file).1 [] [] (set_operator_keypair (load ok o file).1 kp))
    by apply osc_steps_one, os_operator.
  pose proof (osc_steps_trans _ _ _ _ _ _ _ H1 (seed_genesis_steps _ kp now1)) as H2.
  exact (ex_intro _ _ (osc_steps_trans _ _ _ _ _ _ _ H2 Hac)).
Qed.

(** ** Every event keeps the node in range *)

(** What arrives is in range: identifiers of a decoded signal are 32 bytes, amounts 128 bits.
    Requests are text and need nothing. *)
Definition event_typed (e : event) : Prop :=
  match e with EvSignal s _ => signal_typed s | _ => True end.

Record node_typed (n : Node) : Prop := {
  nt_api : api_typed (n_api n);
  nt_announcement : signal_typed (n_announcement n);
}.

Lemma with_api_typed n a : node_typed n → api_typed a → node_typed (with_api n a).
Proof using. intros [H1 H2] Ha. by split. Qed.

Lemma register_key_typed a x vk : api_typed a → api_typed (register_key a x vk).
Proof using. by apply api_same_typed. Qed.

Lemma handle_signal_typed {CL : CryptoLaws C} a s now : api_typed a → signal_typed s → api_typed (handle_signal a s now).
Proof using.
  intros Ha Hs. destruct s as [c|s|r|s|ts k|ts k|c|p]; cbn [handle_signal]; try done.
  - by apply ingest_api_typed.
  - by apply ingest_api_typed.
  - destruct (vk_from_bytes (rs_public_key r)) as [vk|]; [|done].
    apply with_osc_typed; [by apply (api_same_typed a)|]. by apply registration_typed; [apply Ha|].
  - set (a1 := match vk_from_bytes _ with Some _ => _ | None => a end).
    assert (H1 : api_typed a1) by (unfold a1; destruct (vk_from_bytes _); [by apply register_key_typed|done]).
    apply with_osc_typed; [done|]. by apply stake_typed; [apply H1|].
  - by apply broadcast_typed.
  - by apply (api_same_typed a).
  - apply with_osc_typed; [done|]. apply certificate_typed, Ha.
Qed.

Lemma handle_request_typed {CL : CryptoLaws C} a rq now : api_typed a → api_typed (handle_request a rq now).
Proof using.
  intros Ha. destruct rq; cbn [handle_request]; [by apply submit_stateful_typed|by apply submit_commutative_typed|
    by apply register_typed|by apply faucet_typed|by apply operator_stake_typed|by apply claim_typed|
    by apply claim_lp_typed|by apply domain_route_typed].
Qed.

Lemma generate_typed {CL : CryptoLaws C} n now : node_typed n → node_typed (generate n now).
Proof using.
  intros [Ha Hs]. unfold generate. set (s := cs_new _ _ _ _ _ _ _).
  assert (Ht : signal_typed (SigCommutative s)) by done.
  pose proof (ingest_api_typed _ _ now Ha Ht) as Hi. destruct (ingest _ _ _) as [o r]. cbn [fst] in Hi.
  split; [|done]. apply broadcast_typed; [|done]. destruct r; [|done]. by eapply api_same_typed; [..|exact Hi].
Qed.

Lemma synth_tick_typed {CL : CryptoLaws C} n now n' hs : node_typed n → synth_tick n now = Some (n', hs) → node_typed n'.
Proof using.
  intros Hn. unfold synth_tick. intros ([[o r] hs'] & Hs & [= <- _])%bind_Some. apply with_api_typed; [done|].
  set (a := record_synthesis _ _). assert (Ha : api_typed a).
  { apply (api_same_typed (with_osc (n_api n) o)); [done..|]. apply with_osc_typed; [apply Hn|].
    eapply synthesize_typed; [apply Hn|exact Hs]. }
  destruct (certificates o !! _); [by apply broadcast_typed|done].
Qed.

Lemma node_step_typed {CL : CryptoLaws C} {EL : EthersLaws E} n e n' hs :
  node_typed n → event_typed e → node_step n e = Some (n', hs) → node_typed n'.
Proof using.
  intros Hn He. pose proof (nt_api _ Hn) as Ha. destruct e; cbn [node_step]; try (intros [= <- _]).
  - apply with_api_typed; [done|]. by apply handle_signal_typed.
  - apply with_api_typed; [done|]. by apply handle_request_typed.
  - unfold rpc_handler. destruct (dispatch _ _ _ _ _) as [[a r]|] eqn:Hd; cbn [mbind option_bind]; [|done].
    apply with_api_typed; [done|]. by eapply dispatch_typed.
  - by apply generate_typed.
  - split; [|apply Hn]. by apply broadcast_typed.
  - apply with_api_typed; [done|]. by apply broadcast_typed; [|apply Hn].
  - by destruct Hn; split.
  - by apply synth_tick_typed.
Qed.

(** A boot from a state in range. *)
Lemma boot_typed {CL : CryptoLaws C} n rkp ok file now1 now2 nd :
  (∀ o, booted o → osc_typed o → osc_typed (load ok o file).1) →
  boot n rkp ok file now1 now2 = Some nd → node_typed nd.
Proof using.
  intros Hload. unfold boot. intros (o & Ho & [= <-])%bind_Some.
  assert (Hs : ∀ now, signal_typed (SigStake (sk_sign (from_seed (node_id n)) GENESIS_BALANCE 0 now)))
    by (intros now; split; [apply blake3_256|done]).
  split; [|apply Hs]. set (kp := from_seed (node_id n)) in *. set (o1 := seed_genesis _ _ _).
  assert (H1 : osc_typed o1).
  { assert (H0 : osc_typed (load ok (set_operator_keypair o kp) file).1).
    { rewrite load_operator. apply (same_typed (load ok o file).1); [by split|].
      apply Hload; [by eapply boot_new|by eapply new_typed]. }
    apply stake_typed; [|apply Hs]. destruct (_ =? 0); [apply seed_typed; [done|apply blake3_256]|done]. }
  destruct (api_new_typed _ H1) as [A1 A2 A3 _]. by split.
Qed.

(** ** The life of a node *)

(** [node_life n st saved]: [n] can be reached, [st] are the transfers settled on the state it
    has, [saved] those settled on the state of its file.  A restart reads the file, or, when
    it cannot be read, starts over. *)
Inductive node_life : Node → list N → list N → Prop :=
  | nl_boot k rkp ok now1 now2 n : boot k rkp ok None now1 now2 = Some n → node_life n [] []
  | nl_step n st saved e n' hs : node_life n st saved → event_typed e → (∀ io, e ≠ EvSave io) →
      node_step n e = Some (n', hs) → node_life n' (st ++ hs) saved
  | nl_save n st saved io : node_life n st saved →
      node_life (save_snapshot n io) st
        (if is_ok (save io (osc (n_api n)) (n_file n)).2 then st else saved)
  | nl_restart n st saved k rkp ok now1 now2 n' : node_life n st saved →
      boot k rkp ok (n_file n) now1 now2 = Some n' → node_life n' (if ok then saved else []) saved.

(** What the file holds was saved on a life that settled [saved]. *)
Definition file_life (file : option JsonText) (saved : list N) : Prop :=
  match file with
  | None => saved = []
  | Some _ => ∃ o io before, life o saved ∧ osc_typed o ∧ save io o before = (file, Ok ())
  end.

Context {HL : HexLaws HX} {TL : TextLaws HX ET} {JL : JsonLaws J} {CL : CryptoLaws C} {EL : EthersLaws E}.

Lemma life_steps o st ac hs o' : life o st → osc_steps o ac hs o' → life o' (st ++ hs).
Proof using.
  intros Hl. induction 1 as [|ac hs o1 ac' hs' o2 _ IH Hs]; [by rewrite app_nil_r|].
  rewrite app_assoc. by eapply life_step.
Qed.

Lemma boot_life n rkp ok file now1 now2 nd saved : file_life file saved →
  boot n rkp ok file now1 now2 = Some nd → life (osc (n_api nd)) (if ok then saved else []).
Proof using HL TL JL.
  intros Hf (_ & o & Ho & ac & Hs)%boot_steps. rewrite <- (app_nil_r (if ok then _ else _)).
  eapply life_steps; [|exact Hs]. destruct file as [json|].
  - destruct Hf as (o0 & io & before & Hl & Hi & Hsave). destruct ok.
    + pose proof (load_saved io o0 before _ o Hsave) as Hload.
      rewrite Hload. exact (life_restart _ _ _ _ _ _ _ Hl (typed_ids _ Hi) Hsave Ho Hload).
    + by apply life_boot.
  - rewrite Hf. replace (if ok then [] else []) with (@nil N) by (by destruct ok). by apply life_boot.
Qed.

Lemma save_cases io o file :
  (∃ json, save io o file = (Some json, Ok ())) ∨ ∃ e, save io o file = (file, Err e).
Proof using.
  unfold save. destruct (negb (mkdir_ok io)); [eauto|]. destruct (to_json _) as [json|]; [|eauto].
  destruct (negb (write_ok io)); [eauto|]. destruct (negb (rename_ok io)); eauto.
Qed.

Lemma node_step_file n e n' hs : node_step n e = Some (n', hs) → (∀ io, e ≠ EvSave io) → n_file n' = n_file n.
Proof using.
  intros Hs He. destruct e; cbn [node_step] in Hs; try (injection Hs as <- <-; try done).
  - by destruct (rpc_handler _ _ _ _) as [[a r]|].
  - unfold generate. by destruct (ingest _ _ _).
  - by destruct (He io).
  - unfold synth_tick in Hs. apply bind_Some in Hs as ([[o r] hs'] & _ & Hr). by injection Hr as <- <-.
Qed.

(** A boot reads back in range what a node in range saved. *)
Lemma boot_life_typed n rkp ok file now1 now2 nd saved : file_life file saved →
  boot n rkp ok file now1 now2 = Some nd → node_typed nd.
Proof using HL TL JL CL.
  intros Hf. apply boot_typed. intros o Ho Hot. destruct file as [json|]; [|done].
  destruct Hf as (o0 & io & before & [acc Hc]%life_core & Hi & Hsave). destruct ok; [|done].
  rewrite (load_saved io o0 before _ o Hsave). apply restart_typed; [done|apply Hc|done].
Qed.

Lemma node_life_inv n st saved : node_life n st saved →
  life (osc (n_api n)) st ∧ node_typed n ∧ file_life (n_file n) saved.
Proof using HL TL JL CL EL.
  induction 1 as [k rkp ok now1 now2 n Hb|n st saved e n' hs _ (IH & IHt & IHf) Het He Hs
                 |n st saved io _ (IH & IHt & IHf)|n st saved k rkp ok now1 now2 n' _ (IH & IHt & IHf) Hb].
  - pose proof (boot_life _ _ _ None _ _ _ [] eq_refl Hb) as Hl.
    pose proof (boot_life_typed _ _ _ None _ _ _ [] eq_refl Hb) as Ht.
    destruct (boot_steps _ _ _ _ _ _ _ Hb) as [-> _]. split; [by destruct ok|]. split; [exact Ht|done].
  - rewrite (node_step_file _ _ _ _ Hs He).
    split; [|split; [exact (node_step_typed _ _ _ _ IHt Het Hs)|exact IHf]].
    destruct e; try (eapply node_step_acts in Hs as [-> [ac Ha]]; [|done]; exact (life_steps _ _ _ _ _ IH Ha)).
    eapply life_step; [exact IH|]. by apply (synth_tick_step _ now).
  - split; [exact IH|]. split; [destruct IHt as [T1 T2]; split; [exact T1|exact T2]|]. cbn [n_file save_snapshot].
    destruct (save_cases io (osc (n_api n)) (n_file n)) as [[json Hs]|[e Hs]]; rewrite Hs; [|done].
    exists (osc (n_api n)), io, (n_file n). split; [exact IH|]. split; [apply IHt|exact Hs].
  - destruct (boot_steps _ _ _ _ _ _ _ Hb) as [-> _].
    split; [exact (boot_life _ _ _ _ _ _ _ _ IHf Hb)|].
    split; [exact (boot_life_typed _ _ _ _ _ _ _ _ IHf Hb)|exact IHf].
Qed.


End node.

(** ** Concrete runs *)

Section sample.
Local Existing Instance lawful_crypto.
Local Existing Instance wire_ethers.
Local Existing Instance transfer_vm.
Local Existing Instance map_order.
Local Existing Instance plain_hex.
Local Existing Instance plain_text.
Local Existing Instance plain_u256.
Local Existing Instance plain_json.

Abbreviation first_boot := (boot 3 (from_seed 9) true None 1 2).

(** Balance and stake of the operator, reserves of the pool, supply the tracker knows of. *)
Definition holdings (n : Node) : N * N * (N * N) * N :=
  (units_of (osc (n_api n)) (account_id (n_keypair n)),
   get_stake (stake_table (osc (n_api n))) (account_id (n_keypair n)),
   (wave_reserve (n_api n), usdc_reserve (n_api n)),
   Value.Supply.circulating (supply_tracker (osc (n_api n)))).

(** The first boot stakes the whole genesis balance and fills the pool; every restart from a
    snapshot fills the pool again, and gives the operator another genesis balance whenever
    it has spent or staked the last one; the supply tracker never notices. *)
Example restart_mints :
  (n ← first_boot;
   n' ← boot 3 (from_seed 9) true (n_file (save_snapshot n good_io)) 3 4;
   Some (holdings n, holdings n'))
  = Some ((0, GENESIS_BALANCE, (POOL_SEED, POOL_SEED), GENESIS_BALANCE + 2 * POOL_SEED),
          (GENESIS_BALANCE, GENESIS_BALANCE, (2 * POOL_SEED, 2 * POOL_SEED),
           GENESIS_BALANCE + 2 * POOL_SEED)).
Proof. vm_compute. reflexivity. Qed.

(** The node whose identifier is zero, the default, has the key of the pool. *)
Example default_node_is_the_pool :
  (n ← boot 0 (from_seed 9) true None 1 2;
   Some (account_id (n_keypair n) =? account_id (pool_keypair (n_api n)))) = Some true.
Proof. vm_compute. reflexivity. Qed.

(** A run: registrations over HTTP, and whatever events follow. *)
Fixpoint run (n : Node) (es : list event) : option (Node * list N) :=
  match es with
  | [] => Some (n, [])
  | e :: es => '(n, hs) ← node_step n e; '(n, hs') ← run n es; Some (n, hs ++ hs')
  end.

Definition registered : option Node :=
  n ← first_boot;
  '(n, _) ← run n [EvRequest (PostRegister (key_hex alice)) 3; EvRequest (PostRegister (key_hex bob)) 4];
  Some n.

(** A gossiped registration of somebody else's accounts under one's own key is taken over
    without a proof: the thief then signs for the victim. *)
Definition takeover : Signal :=
  SigRegistration {| rs_account := account_id alice; rs_public_key := vk_to_bytes (public_key bob);
    rs_wave_account := wave_of alice; rs_usdc_account := usdc_of alice; rs_nonce := 0; rs_timestamp_ns := 0 |}.

Definition stolen : StatefulShift :=
  let s sig := {| ss_domain := DEFAULT_DEX_DOMAIN; ss_from := wave_of alice; ss_to := wave_of bob;
    ss_amount := 1000000000000000; ss_vector_clock := {[ wave_of alice := 1 ]}; ss_predecessors := [];
    ss_nonce := 1; ss_timestamp_ns := 5; ss_first_seen_at_ns := 0; ss_signature := sig |} in
  s (sign bob (ss_signing_bytes (s []))).

Example registration_takeover :
  (n ← registered;
   let theft := PostStateful (request_of stolen (ascii "1000000000000000")) in
   '(n1, hs1) ← run n [EvRequest theft 7; EvSynthesize 8];
   '(n2, hs2) ← run n [EvSignal takeover 6; EvRequest theft 7; EvSynthesize 8];
   Some (hs1, hs2, units_of (osc (n_api n2)) (wave_of alice), units_of (osc (n_api n2)) (wave_of bob)))
  = Some ([], [ss_hash stolen], 0, 2000000000000000).
Proof. vm_compute. reflexivity. Qed.

Definition quiet_wave : StatefulShift :=
  let s sig := {| ss_domain := DEFAULT_DEX_DOMAIN; ss_from := wave_of alice; ss_to := wave_of bob;
    ss_amount := 70; ss_vector_clock := ∅; ss_predecessors := []; ss_nonce := 1; ss_timestamp_ns := 5;
    ss_first_seen_at_ns := 0; ss_signature := sig |} in
  s (sign alice (ss_signing_bytes (s []))).

Definition session : list event :=
  [EvRequest (PostRegister (key_hex alice)) 3; EvRequest (PostRegister (key_hex bob)) 4;
   EvSignal (SigStateful quiet_wave) 6; EvSynthesize 8].

Definition is_save (e : event) : bool := match e with EvSave _ => true | _ => false end.

Lemma run_life n st saved es n' hs : node_life n st saved → run n es = Some (n', hs) →
  Forall event_typed es → forallb (λ e, negb (is_save e)) es = true → node_life n' (st ++ hs) saved.
Proof.
  revert n st hs. induction es as [|e es IH]; intros n st hs Hl Hr Ht Hes; cbn [run] in Hr.
  { injection Hr as <- <-. by rewrite app_nil_r. }
  apply andb_prop in Hes as [He Hes]. apply bind_Some in Hr as ([n1 h1] & H1 & Hr).
  apply bind_Some in Hr as ([n2 h2] & H2 & Hr). injection Hr as <- <-. rewrite app_assoc.
  apply Forall_cons in Ht as [Ht1 Ht2]. apply (IH n1); [|done..].
  eapply nl_step; [exact Hl|done| |exact H1]. by intros io ->.
Qed.

Lemma session_typed : Forall event_typed session.
Proof. repeat constructor; apply (blake3_256 (C:=lawful_crypto)). Qed.

(** The run of the session from the first boot, its snapshot, and the node restarted from it. *)
Abbreviation restarted :=
  (n0 ← first_boot;
   nh ← run n0 session;
   n' ← boot 3 (from_seed 9) true (n_file (save_snapshot nh.1 good_io)) 9 10;
   Some (n0, nh, n')).

Definition restarted_ok (r : Node * (Node * list N) * Node) : bool :=
  bool_decide (r.1.2.2 = [ss_hash quiet_wave])
  && is_ok (save good_io (osc (n_api r.1.2.1)) (n_file r.1.2.1)).2.

(** The restarted node, with what its life settled. *)
Lemma restarted_life : ∃ n, node_life n [ss_hash quiet_wave] [ss_hash quiet_wave].
Proof.
  assert (Hs : restarted_ok <$> restarted = Some true) by (vm_compute; reflexivity).
  destruct (checked_option _ _ Hs) as ([[n0 [n1 hs]] n2] & Hr & Hc).
  apply andb_prop in Hc as [Hh%bool_decide_eq_true Hok]. cbn [fst snd] in *. subst hs.
  apply bind_Some in Hr as (m0 & Hb0 & Hr). apply bind_Some in Hr as (nh & Hrun & Hr).
  apply bind_Some in Hr as (m2 & Hb2 & Hr). apply (inj Some), pair_eq in Hr as [[-> ->]%pair_eq ->]. cbn [fst] in *.
  pose proof (nl_boot _ _ _ _ _ _ Hb0) as L0.
  pose proof (run_life _ _ _ _ _ _ L0 Hrun session_typed eq_refl) as L1.
  pose proof (nl_save _ _ _ good_io L1) as L2. rewrite Hok in L2.
  exists n2. exact (nl_restart _ _ _ _ _ _ _ _ _ L2 Hb2).
Qed.


End sample.
