(* ===== verification/Server.v ===== *)
(** * The API server (src/src/api/server.rs)

    The token bucket in front of every route, in binary64 as the source computes it, and
    the server as the node behind it.  Proved, roundings included: the bucket stays between
    nothing and its capacity; whatever the times of the requests, at most 600 of them plus
    300 a second are let through; a request that comes four milliseconds after the last one
    is let through; and a request that is refused reaches nothing behind the bucket.  CORS,
    the body limit, the timeout, binding and serving are the web framework's. *)
From S2P Require Import Prelude F64 Bytes Value Crypto Signals Merkle Stake Rewards Certificate.
From S2P Require Import Metabolic ModArith Ntt WaveField Domain Dag DagOrder Evm Oscillator Synthesis Settlement.
From S2P Require Import Persistence Typing Api EvmRpc ApiTyping Node.
Local Open Scope N_scope.

(** ** The bucket *)

Definition NANOS_PER_SEC : N := 1000000000.

(** [Duration::as_secs_f64], of a duration in nanoseconds. *)
Definition as_secs_f64 (ns : N) : f64 :=
  f64_add (f64_of_N (ns / NANOS_PER_SEC)) (f64_div (f64_of_N (ns mod NANOS_PER_SEC)) (f64_of_N NANOS_PER_SEC)).

(** Instants are nanoseconds of the monotonic clock. *)
Record TokenBucket := { tokens : f64; last_update : N; rate_per_sec : f64; capacity : f64 }.

Definition bucket_new (rate cap : f64) (now : N) : TokenBucket :=
  {| tokens := cap; last_update := now; rate_per_sec := rate; capacity := cap |}.

(** [duration_since] is zero when the instant is later, as the subtraction is. *)
Definition allow (b : TokenBucket) (now : N) : TokenBucket * bool :=
  let elapsed := as_secs_f64 (now - last_update b) in
  let t := f64_min (f64_add (tokens b) (f64_mul elapsed (rate_per_sec b))) (capacity b) in
  let with_tokens t := {| tokens := t; last_update := now; rate_per_sec := rate_per_sec b; capacity := capacity b |} in
  if f64_ge t f64_one then (with_tokens (f64_sub t f64_one), true) else (with_tokens t, false).

Inductive limited := TOO_MANY_REQUESTS.

(** [rate_limit_middleware]: what is behind the bucket runs on its state only when allowed. *)
Definition rate_limit_middleware {S R} (next : S → S * R) (b : TokenBucket) (s : S) (now : N)
    : TokenBucket * S * result limited R :=
  let '(b, allowed) := allow b now in
  if allowed then let '(s, r) := next s in (b, s, Ok r) else (b, s, Err TOO_MANY_REQUESTS).

(** The bucket [start_api_server] makes. *)
Definition api_bucket (now : N) : TokenBucket := bucket_new (f64_of_N 300) (f64_of_N 600) now.

(** ** Bounds *)

Local Open Scope Z_scope.
Local Abbreviation O := scale.

Record bucket_ok (b : TokenBucket) : Prop := {
  bo_tokens : f64_ok (tokens b);
  bo_range : fval (tokens b) ≤ fx 600;
  bo_rate : rate_per_sec b = f64_of_N 300;
  bo_capacity : capacity b = f64_of_N 600;
}.

Lemma integer_exact n : bool_decide (n = 1 ∨ n = 300 ∨ n = 600 ∨ n = 1000000000)%N = true →
  f64_ok (f64_of_N n) ∧ fval (f64_of_N n) = fx (Z.of_N n).
Proof. intros [->|[->|[->| ->]]]%bool_decide_eq_true; vm_compute; done. Qed.

Lemma fx_range a b : 0 ≤ a ≤ b → 0 ≤ fx a ≤ b * O.
Proof. intros Hab. split; [apply fx_nonneg|apply scaled_mono]; lia. Qed.

Lemma fx_big n : 0 ≤ n < 2 ^ 100 → fx n < fx (2 ^ 1000).
Proof. intros Hn. unfold fx. apply Z.mul_lt_mono_pos_r; [done|]. eapply Z.lt_le_trans; [apply Hn|]. by apply Z.pow_le_mono_r. Qed.

Lemma nanos_near n : (n < 1000000000)%N →
  f64_ok (f64_div (f64_of_N n) (f64_of_N 1000000000))
  ∧ Z.abs (1000000000 * fval (f64_div (f64_of_N n) (f64_of_N 1000000000)) - fx (Z.of_N n)) * 2 ^ 50 ≤ fx (Z.of_N n) + O.
Proof.
  intros Hn. destruct (integer_exact 1000000000 eq_refl) as [Og Eg].
  destruct (of_N_ok n) as [On Nn]; [eapply Z.lt_trans; [|by apply (Z.pow_lt_mono_r 2 40 1000)]; lia|].
  pose proof (fval_nonneg _ On) as Pn.
  destruct (div_ok _ _ On Og) as [Od Nd]; [by rewrite Eg| |].
  { rewrite Eg. unfold near, fx in *. change (Z.of_N 1000000000) with 1000000000.
    rewrite (Z.mul_assoc (2 ^ 1000 * O)). apply Z.mul_lt_mono_pos_r; [done|].
    assert (Hv : fval (f64_of_N n) < 2000000000 * O).
    { assert (Hw : Z.of_N n * O < 1000000000 * O) by (apply Z.mul_lt_mono_pos_r; [done|lia]).
      generalize dependent (Z.of_N n * O). intros w Nn Hw. clear -Nn Hw. scales. }
    assert (2 ≤ 2 ^ 1000) by (by apply (Z.pow_le_mono_r 2 1 1000)). pose proof scale_pos. nia. }
  split; [done|]. rewrite Eg in Nd. unfold fx in Nd at 1. rewrite Z.div_mul_cancel_r in Nd by done.
  unfold near, fx in *. change (Z.of_N 1000000000) with 1000000000 in Nd.
  set (d := fval (f64_div _ _)) in *. set (v := fval (f64_of_N n)) in *. clearbody d v. pose proof (Z.div_mod v 1000000000 ltac:(done)) as Hq.
  pose proof (Z.mod_pos_bound v 1000000000 ltac:(done)) as Hr.
  generalize dependent (Z.of_N n * O). intros w Nn. clear -Nd Nn Pn Hq Hr. scales.
Qed.

Lemma as_secs_near ns : (ns < 2 ^ 70)%N →
  f64_ok (as_secs_f64 ns)
  ∧ Z.abs (1000000000 * fval (as_secs_f64 ns) - fx (Z.of_N ns)) * 2 ^ 48 ≤ fx (Z.of_N ns) + O.
Proof.
  intros Hns. unfold as_secs_f64, NANOS_PER_SEC.
  pose proof (N.div_mod ns 1000000000 ltac:(done)) as Hdm.
  pose proof (N.mod_lt ns 1000000000 ltac:(done)) as Hm.
  set (s := (ns / 1000000000)%N) in *. set (n := (ns mod 1000000000)%N) in *.
  assert (Hz : Z.of_N ns = 1000000000 * Z.of_N s + Z.of_N n) by lia. rewrite Hz. clear Hz Hdm.
  assert (Hs : 0 ≤ Z.of_N s < 2 ^ 70) by (unfold s; pose proof (N.Div0.div_le_upper_bound ns 1000000000 ns); lia).
  destruct (of_N_ok s) as [Os Ns]; [eapply Z.lt_trans; [apply Hs|]; by apply Z.pow_lt_mono_r|].
  destruct (nanos_near n Hm) as [Od Nd]. pose proof (fval_nonneg _ Os). pose proof (fval_nonneg _ Od).
  assert (Hso : 0 ≤ fx (Z.of_N s) ≤ 2 ^ 70 * O) by (apply fx_range; lia).
  assert (Hno : 0 ≤ fx (Z.of_N n) ≤ 1000000000 * O) by (apply fx_range; lia).
  replace (fx (1000000000 * Z.of_N s + Z.of_N n)) with (1000000000 * fx (Z.of_N s) + fx (Z.of_N n))
    by (unfold fx; ring).
  unfold near in Ns. generalize dependent (fx (Z.of_N s)). generalize dependent (fx (Z.of_N n)).
  intros v Nd Hv w Ns Hw. destruct (add_ok _ _ Os Od) as [Oe Ne].
  { apply (Z.le_lt_trans _ (fx (2 ^ 90))).
    2: exact (fx_pow_big 90 ltac:(lia)). unfold fx.
    generalize dependent (fval (f64_of_N s)). generalize dependent (fval (f64_div (f64_of_N n) (f64_of_N 1000000000))).
    intros. scales. }
  split; [done|]. unfold near in Ne. scales.
Qed.

(** What a bucket holds once refilled, before the request takes its token. *)
Definition refilled (b : TokenBucket) (now : N) : f64 :=
  f64_min (f64_add (tokens b) (f64_mul (as_secs_f64 (now - last_update b)) (rate_per_sec b))) (capacity b).

(** A refill adds three hundred tokens a second, within a part in 2^40, up to six hundred. *)
Lemma refill_near b now : bucket_ok b → (now - last_update b < 2 ^ 70)%N →
  let ns := fx (Z.of_N (now - last_update b)) in
  f64_ok (refilled b now) ∧ fval (refilled b now) ≤ fx 600
  ∧ (1000000000 * (fval (refilled b now) - fval (tokens b)) - 300 * ns) * 2 ^ 40 ≤ ns + 1000000000 * O
  ∧ (fval (refilled b now) < fx 600 →
     - (ns + 1000000000 * O) ≤ (1000000000 * (fval (refilled b now) - fval (tokens b)) - 300 * ns) * 2 ^ 40).
Proof.
  intros [Ht Hr Hrate Hcap] Hns. cbn zeta. unfold refilled. rewrite Hrate, Hcap.
  destruct (integer_exact 300 eq_refl) as [O3 E3]. destruct (integer_exact 600 eq_refl) as [O6 E6].
  destruct (as_secs_near (now - last_update b) Hns) as [Oe Ne]. pose proof (fval_nonneg _ Oe) as Pe.
  pose proof (fval_nonneg _ Ht) as Pt. set (e := as_secs_f64 _) in *.
  assert (Hb : 0 ≤ fx (Z.of_N (now - last_update b)) ≤ 2 ^ 70 * O) by (apply fx_range; lia).
  generalize dependent (fx (Z.of_N (now - last_update b))). intros ns Ne Hb.
  assert (Hprod : fval e * fval (f64_of_N 300) = 300 * fval e * O) by (rewrite E3; unfold fx; ring).
  assert (He : fval e ≤ 2 ^ 70 * O) by (generalize dependent (fval e); intros; scales).
  destruct (mul_ok e (f64_of_N 300) Oe O3) as [Om Nm].
  { rewrite Hprod. apply Z.mul_lt_mono_pos_r; [done|]. apply (Z.le_lt_trans _ (fx (2 ^ 80))).
    2: exact (fx_pow_big 80 ltac:(lia)).
    unfold fx. generalize dependent (fval e). intros. scales. }
  rewrite Hprod, Z.div_mul in Nm by done. set (m := f64_mul e (f64_of_N 300)) in *.
  pose proof (fval_nonneg _ Om) as Pm. unfold near in Nm. change (fx 600) with (600 * O) in *.
  assert (Hm : fval m ≤ 2 ^ 80 * O) by (generalize dependent (fval m); generalize dependent (fval e); intros; scales).
  destruct (add_ok _ _ Ht Om) as [Oa Na].
  { apply (Z.le_lt_trans _ (fx (2 ^ 90))).
    2: exact (fx_pow_big 90 ltac:(lia)). unfold fx.
    generalize dependent (fval m). generalize dependent (fval (tokens b)). intros. scales. }
  set (a := f64_add (tokens b) m) in *. unfold near in Na.
  destruct (min_ok a (f64_of_N 600) Oa O6) as [Oi Ei]. rewrite E6 in Ei. change (fx (Z.of_N 600)) with (600 * O) in Ei.
  rewrite Ei. split; [done|]. clear Hprod He Hm Oi Ei Oa Om Oe Ht Hrate Hcap Hns.
  generalize dependent (fval a). generalize dependent (fval m). generalize dependent (fval e).
  generalize dependent (fval (tokens b)). intros t Hr Pt ev Ne Pe mv Nm Pm av Na.
  split; [lia|]. split; [scales|]. intros Hlt. scales.
Qed.

Lemma one_ok : f64_ok f64_one ∧ fval f64_one = O.
Proof. destruct (integer_exact 1 eq_refl) as [H1 H2]. split; [exact H1|]. etransitivity; [exact H2|]. unfold fx. ring. Qed.

Definition charge (ok : bool) : Z := if ok then 1 else 0.

(** One request: the bucket stays in its range, and what it gives out and keeps is at most
    what it had and what the time brings. *)
Lemma allow_spec b now : bucket_ok b → (now - last_update b < 2 ^ 70)%N →
  let ns := fx (Z.of_N (now - last_update b)) in
  let '(b', ok) := allow b now in
  bucket_ok b' ∧ last_update b' = now
  ∧ (1000000000 * (fval (tokens b') + charge ok * O - fval (tokens b)) - 300 * ns) * 2 ^ 39 ≤ ns + 1000000000 * O
  ∧ (4000000 ≤ now - last_update b → ok = true)%N.
Proof.
  intros Hb Hns. destruct (refill_near b now Hb Hns) as (Ho & Hle & Hup & Hlow). cbn zeta in *.
  pose proof (fval_nonneg _ (bo_tokens _ Hb)) as Pt. pose proof (bo_range _ Hb) as Hr.
  destruct one_ok as [O1 E1]. unfold allow. fold (refilled b now). rewrite ge_ok, E1 by done.
  change (fx 600) with (600 * O) in *. assert (0 ≤ fx (Z.of_N (now - last_update b))) by (apply fx_nonneg; lia).
  destruct (Z.leb_spec O (fval (refilled b now))) as [Hge|Hlt].
  - destruct (sub_ok (refilled b now) f64_one Ho O1) as [Os Ns]; [by rewrite E1| |].
    { eapply Z.le_lt_trans; [exact Hle|]. apply (fx_big 600); done. }
    rewrite E1 in Ns. unfold near in Ns. split_and!; [|done| |done].
    + split; cbn [tokens rate_per_sec capacity]; [done| |apply Hb|apply Hb]. change (fx 600) with (600 * O).
      generalize dependent (fval (f64_sub (refilled b now) f64_one)).
      generalize dependent (fval (refilled b now)). intros. clear Hup Hlow. scales.
    + cbn [tokens charge]. generalize dependent (fval (f64_sub (refilled b now) f64_one)).
      generalize dependent (fval (refilled b now)). generalize dependent (fval (tokens b)).
      generalize dependent (fx (Z.of_N (now - last_update b))). clear Hns Hb O1 E1. intros. scales.
  - split_and!; [|done| |].
    + split; cbn [tokens rate_per_sec capacity]; [done|done|apply Hb|apply Hb].
    + cbn [tokens charge]. generalize dependent (fval (refilled b now)). generalize dependent (fval (tokens b)).
      generalize dependent (fx (Z.of_N (now - last_update b))). clear Hns Hb O1 E1. intros. scales.
    + intros Hwait. exfalso. assert (Hns' : 4000000 * O ≤ fx (Z.of_N (now - last_update b))) by (apply scaled_mono; lia).
      generalize dependent (fval (refilled b now)). generalize dependent (fval (tokens b)).
      generalize dependent (fx (Z.of_N (now - last_update b))). clear Hns Hwait Hb O1 E1. intros.
      specialize (Hlow ltac:(scales)). scales.
Qed.

(** The requests that come one after the other, and whether each is let through. *)
Fixpoint arrivals (b : TokenBucket) (times : list N) : TokenBucket * list bool :=
  match times with
  | [] => (b, [])
  | now :: times =>
      let '(b, ok) := allow b now in
      let '(b, oks) := arrivals b times in (b, ok :: oks)
  end.

Definition admitted (oks : list bool) : nat := length (List.filter (λ ok, ok) oks).

(** Times that never go back, from [t] on, and the last of them. *)
Fixpoint in_order (t : N) (times : list N) : Prop :=
  match times with [] => True | now :: times => (t ≤ now)%N ∧ in_order now times end.

Definition final (t : N) (times : list N) : N := fold_left (λ _ u, u) times t.

Lemma in_order_final times : ∀ t, in_order t times → (t ≤ final t times)%N.
Proof.
  induction times as [|u l IH]; intros t; cbn [in_order final fold_left]; [done|]. intros [H H'].
  etransitivity; [exact H|]. by apply IH.
Qed.

Lemma arrivals_spec times : ∀ b, bucket_ok b → in_order (last_update b) times →
  (final (last_update b) times - last_update b < 2 ^ 70)%N →
  let ns := fx (Z.of_N (final (last_update b) times - last_update b)) in
  let '(b', oks) := arrivals b times in
  bucket_ok b' ∧ length oks = length times
  ∧ (1000000000 * (fval (tokens b') + Z.of_nat (admitted oks) * O - fval (tokens b)) - 300 * ns) * 2 ^ 39
    ≤ ns + 1000000000 * O * Z.of_nat (length times).
Proof.
  induction times as [|now times IH]; intros b Hb Hord Hns; cbn zeta; cbn [arrivals].
  { split; [done|]. split; [done|]. cbn [final fold_left admitted List.filter length]. rewrite N.sub_diag. unfold fx. lia. }
  cbn [in_order final fold_left] in Hord, Hns. destruct Hord as [Hle Hord].
  pose proof (in_order_final times now Hord) as Hf. fold (final now times) in Hns.
  pose proof (allow_spec b now Hb ltac:(lia)) as Ha. cbn zeta in Ha. destruct (allow b now) as [b1 ok].
  destruct Ha as (Hb1 & Hu & Hc & _). specialize (IH b1 Hb1). rewrite Hu in IH.
  specialize (IH Hord ltac:(lia)). cbn zeta in IH. destruct (arrivals b1 times) as [b' oks].
  destruct IH as (Hb' & Hlen & IH). split; [done|]. split; [cbn; lia|].
  cbn [final fold_left]. fold (final now times). cbn [length]. rewrite Nat2Z.inj_succ.
  replace (fx (Z.of_N (final now times - last_update b)))
    with (fx (Z.of_N (now - last_update b)) + fx (Z.of_N (final now times - now)))
    by (unfold fx; rewrite <- Z.mul_add_distr_r; f_equal; lia).
  replace (Z.of_nat (admitted (ok :: oks))) with (charge ok + Z.of_nat (admitted oks))
    by (unfold admitted; destruct ok; cbn; lia).
  clear -Hc IH. lia.
Qed.

Lemma bucket_new_ok now : bucket_ok (api_bucket now).
Proof.
  destruct (integer_exact 600 eq_refl) as [H1 H2].
  split; cbn [api_bucket bucket_new tokens rate_per_sec capacity]; [exact H1|by rewrite H2|done|done].
Qed.
Local Close Scope Z_scope.

(** ** The node behind the bucket *)

Section server.
Context {C : Crypto} {E : Ethers} {V : Revm} {HO : HashOrder} {HX : Hex} {ET : EvmText} {UT : U256Text}
  {J : SnapshotJson V}.

(** A request: one that may change the node, a call of JSON-RPC, or any other route. *)
Inductive api_call := CallHttp (rq : http_request) | CallRpc (rq : RpcRequest) (now_s : N) | CallRead.

Definition call_event (c : api_call) (now : N) : option event :=
  match c with
  | CallHttp rq => Some (EvRequest rq now)
  | CallRpc rq now_s => Some (EvRpc rq now now_s)
  | CallRead => None
  end.

(** The routes behind the middleware; a panic ends the connection alone. *)
Definition handle (n : Node) (ev : option event) : Node :=
  match ev with
  | Some ev => match node_step n ev with Some (n', _) => n' | None => n end
  | None => n
  end.

(** [ct] is the call, the instant the bucket sees, the time the handler sees. *)
Definition serve (bn : TokenBucket * Node) (ct : api_call * N * N) : TokenBucket * Node * result limited () :=
  rate_limit_middleware (λ n, (handle n (call_event ct.1.1 ct.2), ())) bn.1 bn.2 ct.1.2.

Fixpoint serve_all (bn : TokenBucket * Node) (cts : list (api_call * N * N))
    : TokenBucket * Node * list (result limited ()) :=
  match cts with
  | [] => (bn, [])
  | ct :: cts =>
      let '(bn, r) := serve bn ct in
      let '(bn, rs) := serve_all bn cts in (bn, r :: rs)
  end.

(** The calls that were let through. *)
Definition passed (cts : list (api_call * N * N)) (oks : list bool) : list (option event) :=
  map (λ p : api_call * N * N * bool, call_event p.1.1.1 p.1.2) (List.filter (λ p, p.2) (combine cts oks)).

Lemma serve_all_spec cts : ∀ b n,
  let oks := (arrivals b (map (λ ct, ct.1.2) cts)).2 in
  serve_all (b, n) cts
  = ((arrivals b (map (λ ct, ct.1.2) cts)).1, fold_left handle (passed cts oks) n,
     map (λ ok : bool, if ok then Ok () else Err TOO_MANY_REQUESTS) oks).
Proof using.
  induction cts as [|ct cts IH]; intros b n; cbn zeta; [done|]. cbn [serve_all map arrivals].
  unfold serve, rate_limit_middleware. cbn [fst snd]. destruct (allow b ct.1.2) as [b1 ok].
  destruct ok; rewrite IH; destruct (arrivals b1 _) as [b' oks]; done.
Qed.

(** C28: the rate limit, roundings included. Whenever its requests come, the server lets through
    at most six hundred of them and three hundred more for every second, one more for all
    the roundings together; a request that comes four milliseconds after the last one is
    let through; and the node goes through exactly the calls that were let through, every
    other being answered with an error and reaching nothing. *)
Theorem rate_limit b n cts :
  bucket_ok b → in_order (last_update b) (map (λ ct, ct.1.2) cts) →
  let ns := final (last_update b) (map (λ ct, ct.1.2) cts) - last_update b in
  ns < 2 ^ 38 * 10 ^ 9 → (N.of_nat (length cts) ≤ 2 ^ 38) →
  ∃ b' oks, serve_all (b, n) cts = (b', fold_left handle (passed cts oks) n,
                                    map (λ ok : bool, if ok then Ok () else Err TOO_MANY_REQUESTS) oks)
    ∧ bucket_ok b' ∧ length oks = length cts
    ∧ N.of_nat (admitted oks) * 10 ^ 9 ≤ 601 * 10 ^ 9 + 300 * ns
    ∧ (∀ now, last_update b' + 4000000 ≤ now → now < last_update b' + 2 ^ 70 → (allow b' now).2 = true).
Proof using.
  intros Hb Hord ns Hns Hlen. rewrite serve_all_spec.
  pose proof (arrivals_spec _ b Hb Hord ltac:(fold ns; lia)) as Ha. cbn zeta in Ha. fold ns in Ha.
  destruct (arrivals b _) as [b' oks]. destruct Ha as (Hb' & Hl & Ha). rewrite length_map in Hl, Ha.
  exists b', oks. split_and!; [done|done|done| |].
  - pose proof (bo_range _ Hb) as Hr. pose proof (fval_nonneg _ (bo_tokens _ Hb')) as Hp.
    change (fx 600) with (600 * scale)%Z in Hr. unfold fx in Ha. cbn [fst] in *.
    assert (Hz : (Z.of_nat (admitted oks) * 10 ^ 9 * scale ≤ (601 * 10 ^ 9 + 300 * Z.of_N ns) * scale)%Z).
    { assert (Hn2 : (Z.of_N ns * scale ≤ 2 ^ 38 * 10 ^ 9 * scale)%Z) by (apply scaled_mono; lia).
      assert (Hl2 : (Z.of_nat (length cts) * scale ≤ 2 ^ 38 * scale)%Z) by (apply scaled_mono; lia).
      pose proof scale_pos as Hp2.
      generalize dependent scale. intros o. clear -o Hp. intros. lia. }
    apply Z.mul_le_mono_pos_r in Hz; [lia|done].
  - intros now H1 H2. pose proof (allow_spec b' now Hb' ltac:(lia)) as Hs. cbn zeta in Hs.
    destruct (allow b' now) as [b2 ok]. cbn [snd]. apply Hs. lia.
Qed.
End server.

(** ** A burst *)

(** Six hundred and one requests in the same instant: the last is refused; four milliseconds
    later one more is let through, and no second one. *)
Example burst :
  let '(b, oks) := arrivals (api_bucket 0) (repeat 5 601) in
  (admitted oks, List.last oks true, snd (arrivals b [4000005; 4000005])) = (600%nat, false, [true; false]).
Proof. vm_compute. reflexivity. Qed.

Section sample.
Local Existing Instance lawful_crypto.
Local Existing Instance wire_ethers.
Local Existing Instance transfer_vm.
Local Existing Instance map_order.
Local Existing Instance plain_hex.
Local Existing Instance plain_text.
Local Existing Instance plain_u256.
Local Existing Instance plain_json.

Lemma rate_limit_witness :
  ∃ n b' oks, serve_all (api_bucket 0, n) (repeat (CallHttp PostClaim, 5, 5) 601)
      = (b', fold_left handle (passed (repeat (CallHttp PostClaim, 5, 5) 601) oks) n,
         map (λ ok : bool, if ok then Ok () else Err TOO_MANY_REQUESTS) oks)
    ∧ N.of_nat (admitted oks) ≤ 601.
Proof.
  destruct restarted_life as [n _]. exists n.
  destruct (rate_limit (api_bucket 0) n (repeat (CallHttp PostClaim, 5, 5) 601)) as (b' & oks & Hs & _ & _ & Ha & _).
  - apply bucket_new_ok.
  - by vm_compute.
  - by vm_compute.
  - by vm_compute.
  - exists b', oks. split; [exact Hs|].
    assert (Hf : final (last_update (api_bucket 0)) (map (λ ct : api_call * N * N, ct.1.2) (repeat (CallHttp PostClaim, 5, 5) 601))
      - last_update (api_bucket 0) = 5) by (vm_compute; reflexivity).
    rewrite Hf in Ha. lia.
Defined.
End sample.
