(* ===== verification/Config.v ===== *)
(** * Configuration (src/src/bin/mesh_node.rs, src/src/bin/gen_operators.rs, src/src/operator/stake.rs)

    What the binaries read as text: the number a node takes from its name, or from the file
    that keeps a random one, the list of its peers, the operators whose accounts the
    generator prints, and the table of stakes of a specification.  Proved: a name ending
    in a number gives that number, a random number is kept across restarts, the accounts
    the generator prints are those the nodes boot with, and the printed form of a list of
    stakes is read back as the table that stakes them in order, malformed entries being
    skipped.  Strings are UTF-8 bytes. *)
From S2P Require Import Prelude F64 Bytes Value Crypto Signals Merkle Stake Rewards Certificate.
From S2P Require Import Metabolic ModArith Ntt WaveField Domain Dag DagOrder Evm Oscillator Synthesis Settlement.
From S2P Require Import Persistence Typing Api EvmRpc Views ApiTyping Node.
Local Open Scope N_scope.

(** ** Text *)

(** The rest of a string after a leading character of Unicode's White_Space. *)
Definition after_white (s : bytes) : option bytes :=
  match s with
  | (x09 | x0a | x0b | x0c | x0d | x20) :: s => Some s
  | xc2 :: (x85 | xa0) :: s => Some s
  | xe1 :: x9a :: x80 :: s => Some s
  | xe2 :: x80 :: (x80 | x81 | x82 | x83 | x84 | x85 | x86 | x87 | x88 | x89 | x8a | xa8 | xa9 | xaf) :: s => Some s
  | xe2 :: x81 :: x9f :: s => Some s
  | xe3 :: x80 :: x80 :: s => Some s
  | _ => None
  end.
(** The same of the reversed string, at its end. *)
Definition before_white (s : bytes) : option bytes :=
  match s with
  | (x09 | x0a | x0b | x0c | x0d | x20) :: s => Some s
  | (x85 | xa0) :: xc2 :: s => Some s
  | x80 :: x9a :: xe1 :: s => Some s
  | (x80 | x81 | x82 | x83 | x84 | x85 | x86 | x87 | x88 | x89 | x8a | xa8 | xa9 | xaf) :: x80 :: xe2 :: s => Some s
  | x9f :: x81 :: xe2 :: s => Some s
  | x80 :: x80 :: xe3 :: s => Some s
  | _ => None
  end.

Fixpoint strip (f : bytes → option bytes) (fuel : nat) (s : bytes) : bytes :=
  match fuel with
  | O => s
  | S fuel => match f s with Some s => strip f fuel s | None => s end
  end.

(** [str::trim]; every character takes at least a byte. *)
Definition trim (s : bytes) : bytes :=
  let s := strip after_white (length s) s in rev (strip before_white (length s) (rev s)).

(** [str::split], of a character. *)
Fixpoint split (sep : byte) (s : bytes) : list bytes :=
  match s with
  | [] => [[]]
  | b :: s =>
      if bool_decide (b = sep) then [] :: split sep s
      else match split sep s with p :: ps => (b :: p) :: ps | [] => [[b]] end
  end.

(** [str::split_once] and [str::rsplit_once] *)
Fixpoint split_once (sep : byte) (s : bytes) : option (bytes * bytes) :=
  match s with
  | [] => None
  | b :: s =>
      if bool_decide (b = sep) then Some ([], s)
      else '(p, q) ← split_once sep s; Some (b :: p, q)
  end.
Definition rsplit_once (sep : byte) (s : bytes) : option (bytes * bytes) :=
  '(q, p) ← split_once sep (rev s); Some (rev p, rev q).

Definition comma : byte := x2c.
Definition dash : byte := x2d.
Definition equals : byte := x3d.

(** ** mesh_node.rs *)

(** A plain number, or the number a name ends in. *)
Definition oscillator_number (id_str : bytes) : option N :=
  match ('(_, suffix) ← rsplit_once dash id_str; parse_u64 suffix) with
  | Some n => Some n
  | None => parse_u64 id_str
  end.

(** [OSCILLATOR_ID], the file it falls back to and the number drawn when there is none: the
    number, and what is written to the file. *)
Definition node_number (id_var file : option bytes) (random : N) : N * option bytes :=
  match oscillator_number (default (ascii "0") id_var) with
  | Some n => (n, None)
  | None =>
      match (s ← file; parse_u64 (trim s)) with
      | Some n => (n, None)
      | None => (random, Some (decimal random))
      end
  end.

(** [PEERS] *)
Definition peer_names (var : option bytes) : list bytes :=
  List.filter (λ s, negb (bool_decide (s = []))) (map trim (split comma (default [] var))).

Section config.
Context {C : Crypto} {HX : Hex}.

(** ** gen_operators.rs *)

(** [Display for AccountId] *)
Definition display_id (id : N) : bytes :=
  flat_map (λ b, [hex_char (Byte.to_N b / 16); hex_char (Byte.to_N b mod 16)]) (id_bytes id).

(** [Display for Coordinate] *)
Definition coord_text (c : Coordinate) : bytes :=
  ascii "[" ++ concat (imap (λ i x, (if (0 <? i)%nat then ascii ", " else []) ++ decimal x) (components c)) ++ ascii "]".

(** One line of the generator; [None] is its panic. *)
Definition operator_account (name : bytes) : option N :=
  '(_, suffix) ← rsplit_once dash name; n ← parse_u64 suffix;
  Some (account_id (from_seed (node_id n))).
Definition operator_line (name : bytes) : option bytes :=
  id ← operator_account name; Some (name ++ ascii " -> " ++ display_id id).

Definition operator_names : list bytes := [ascii "mesh-node-0"; ascii "mesh-node-1"; ascii "mesh-node-2"].
Definition gen_operators : option (list bytes) := mapM operator_line operator_names.

(** ** stake.rs *)

Definition account_from_hex (s : bytes) : option N :=
  bs ← hex_decode s; if negb (length bs =? 32)%nat then None else Some (of_be bs).

(** One entry of a specification; what cannot be read is skipped. *)
Definition spec_entry (t : StakeTable) (entry : bytes) : StakeTable :=
  let entry := trim entry in
  if bool_decide (entry = []) then t
  else
    match split_once equals entry with
    | None => t
    | Some (hex, amount_str) =>
        match account_from_hex (trim hex), parse_u128 (trim amount_str) with
        | Some account, Some amount => (lock_stake t account amount).1
        | _, _ => t
        end
    end.

Definition from_spec (c : StakingConfig) (spec : bytes) : StakeTable :=
  fold_left spec_entry (split comma spec) (table_new c).
End config.

Example trims :
  trim (ascii "	 a b ") = ascii "a b" ∧ trim [xc2; xa0; x61; xe2; x80; xa9; x0a] = [x61] ∧ trim (ascii "  ") = [].
Proof. vm_compute. done. Qed.

Example coordinates : coord_text (coord_from_scalar 42) = ascii "[42, 0, 0, 0]".
Proof. vm_compute. done. Qed.

Example numbers :
  map oscillator_number [ascii "7"; ascii "mesh-node-2"; ascii "-5"; ascii "a-b"; ascii "3-x"; ascii "+4"]
  = [Some 7; Some 2; Some 5; None; None; Some 4].
Proof. vm_compute. done. Qed.

Example peers : peer_names (Some (ascii " a:1, ,b:2,")) = [ascii "a:1"; ascii "b:2"].
Proof. vm_compute. done. Qed.

(** ** Lemmas on text *)

Lemma split_once_app sep p q : sep ∉ p → split_once sep (p ++ sep :: q) = Some (p, q).
Proof.
  induction p as [|b p IH]; intros Hn; cbn [split_once app]; [by rewrite bool_decide_true|].
  apply not_elem_of_cons in Hn as [Hb Hn]. rewrite bool_decide_false by congruence. by rewrite IH.
Qed.

Lemma split_once_none sep p : sep ∉ p → split_once sep p = None.
Proof.
  induction p as [|b p IH]; intros Hn; cbn [split_once]; [done|].
  apply not_elem_of_cons in Hn as [Hb Hn]. rewrite bool_decide_false by congruence. by rewrite IH.
Qed.

Lemma rsplit_once_app sep p q : sep ∉ q → rsplit_once sep (p ++ sep :: q) = Some (p, q).
Proof.
  intros Hn. unfold rsplit_once. rewrite rev_app_distr. cbn [rev]. rewrite <- app_assoc. cbn [app].
  rewrite split_once_app; [cbn; by rewrite !rev_involutive|]. by rewrite list_elem_of_In, <- in_rev, <- list_elem_of_In.
Qed.

Lemma rsplit_once_none sep p : sep ∉ p → rsplit_once sep p = None.
Proof.
  intros Hn. unfold rsplit_once. rewrite split_once_none; [done|].
  by rewrite list_elem_of_In, <- in_rev, <- list_elem_of_In.
Qed.

Lemma split_nonempty sep s : split sep s ≠ [].
Proof. destruct s as [|b s]; cbn; [done|]. case_bool_decide; [done|]. by destruct (split sep s). Qed.

Lemma split_app sep p q : split sep (p ++ sep :: q) = split sep p ++ split sep q.
Proof.
  induction p as [|b p IH]; cbn [split app]; [by rewrite bool_decide_true|].
  case_bool_decide; [by rewrite IH|]. rewrite IH. pose proof (split_nonempty sep p). by destruct (split sep p).
Qed.

Lemma split_one sep p : sep ∉ p → split sep p = [p].
Proof.
  induction p as [|b p IH]; intros Hn; cbn [split]; [done|].
  apply not_elem_of_cons in Hn as [Hb Hn]. rewrite bool_decide_false by congruence. by rewrite IH.
Qed.

(** Text that is neither white nor a separator. *)
Definition printable (b : byte) : bool := let c := Byte.to_N b in (48 <=? c) && (c <? 127).

Lemma strip_none f n s : f s = None → strip f n s = s.
Proof. intros H. destruct n; cbn; [done|]. by rewrite H. Qed.

Lemma trim_printable s : Forall (λ b, printable b = true) s → trim s = s.
Proof.
  intros Hs. unfold trim. rewrite (strip_none after_white).
  - rewrite strip_none; [by rewrite rev_involutive|]. apply Forall_rev in Hs.
    destruct Hs as [|b l Hb Hl]; [done|]. cbn. by destruct b.
  - destruct Hs as [|b l Hb Hl]; [done|]. by destruct b.
Qed.

Lemma decimal_digits n : Forall (λ b, is_Some (digit b)) (decimal n).
Proof.
  pose proof (parse_digits_decimal n) as Hp. unfold parse_digits in Hp.
  assert (G : ∀ s acc v, fold_opt (λ acc b, d ← digit b; Some (10 * acc + d)) s acc = Some v → Forall (λ b, is_Some (digit b)) s).
  { induction s as [|b s IH]; intros acc v; cbn [fold_opt]; [by constructor|].
    intros (x & (d & Hd & _)%bind_Some & Hv)%bind_Some. constructor; [by exists d|by eapply IH]. }
  destruct (decimal n) as [|b s]; [done|]. by eapply G.
Qed.

Lemma digit_printable b : is_Some (digit b) → printable b = true ∧ b ≠ dash ∧ b ≠ equals ∧ b ≠ comma.
Proof. intros [d Hd]. destruct b; try discriminate Hd; done. Qed.

Lemma decimal_text n : Forall (λ b, printable b = true) (decimal n) ∧ dash ∉ decimal n ∧ equals ∉ decimal n ∧ comma ∉ decimal n.
Proof.
  pose proof (decimal_digits n) as Hd. split.
  - eapply Forall_impl; [exact Hd|]. by intros b (? & _)%digit_printable.
  - rewrite Forall_forall in Hd. split_and!; intros Hin; by apply Hd, digit_printable in Hin as (_ & ? & ? & ?).
Qed.

Lemma parse_u64_decimal n : n < 2 ^ 64 → parse_u64 (decimal n) = Some n.
Proof.
  intros Hn. unfold parse_u64. pose proof (parse_digits_decimal n) as Hp.
  destruct (decimal_head n) as (b & rest & d & Hb & Hd). rewrite Hb in *.
  assert (Hs : match b :: rest with x2b :: rest0 => rest0 | _ => b :: rest end = b :: rest) by (by destruct b; try discriminate Hd).
  rewrite Hs, Hp. cbn. by destruct (N.ltb_spec n (2 ^ 64)); [|lia].
Qed.

(** ** Names and numbers *)

Lemma name_number prefix n : n < 2 ^ 64 → oscillator_number (prefix ++ dash :: decimal n) = Some n.
Proof.
  intros Hn. destruct (decimal_text n) as (_ & Hd & _). unfold oscillator_number.
  rewrite rsplit_once_app by done. cbn [mbind option_bind]. by rewrite parse_u64_decimal.
Qed.

Lemma plain_number n : n < 2 ^ 64 → oscillator_number (decimal n) = Some n.
Proof.
  intros Hn. destruct (decimal_text n) as (_ & Hd & _). unfold oscillator_number.
  rewrite rsplit_once_none by done. cbn [mbind option_bind]. by rewrite parse_u64_decimal.
Qed.

Section identity.
Context {C : Crypto} {E : Ethers} {V : Revm} {HO : HashOrder} {HX : Hex} {ET : EvmText} {UT : U256Text}
  {J : SnapshotJson V}.

(** The identity of a node. A number, or any name that ends in a dash and a number, gives
    that number whatever file there is; a node without one keeps the number it drew, since
    the file it writes gives it back at every later start whatever is drawn then; and the
    account the generator prints for a name is the account of every node that boots with
    the number of that name. *)
Theorem node_identity prefix n :
  n < 2 ^ 64 →
  let name := prefix ++ dash :: decimal n in
  (∀ file random, node_number (Some name) file random = (n, None) ∧ node_number (Some (decimal n)) file random = (n, None))
  ∧ (∀ var file random, oscillator_number var = None → 
     node_number (Some var) file n = (n, Some (decimal n)) →
     node_number (Some var) (Some (decimal n)) random = (n, None))
  ∧ (∀ random_kp read_ok file now1 now2 node, boot n random_kp read_ok file now1 now2 = Some node →
     operator_account name = Some (account_id (n_keypair node))).
Proof using.
  intros Hn name. split; [|split].
  - intros file random. unfold node_number. cbn [default id]. unfold name. rewrite name_number, plain_number by done. done.
  - intros var file random Hv _. unfold node_number. cbn [default id]. rewrite Hv. cbn [mbind option_bind].
    rewrite trim_printable by apply decimal_text. by rewrite parse_u64_decimal.
  - intros kp ok file now1 now2 node. unfold boot. intros (o & _ & [= <-])%bind_Some. cbn [n_keypair].
    unfold operator_account, name. destruct (decimal_text n) as (_ & Hd & _).
    rewrite rsplit_once_app by done. cbn [mbind option_bind]. by rewrite parse_u64_decimal.
Qed.
End identity.

(** ** Specifications of stakes *)

(** The text of an encoding is lower-case digits. *)
Definition hex_letter (b : byte) : bool :=
  let c := Byte.to_N b in ((48 <=? c) && (c <? 58)) || ((97 <=? c) && (c <? 103)).
Class HexText (HX : Hex) := hex_letters : ∀ bs, Forall (λ b, hex_letter b = true) (hex_encode bs).

Lemma letter_printable b : hex_letter b = true → printable b = true ∧ b ≠ equals ∧ b ≠ comma.
Proof. by destruct b. Qed.

Section spec.
Context {HX : Hex} {HL : HexLaws HX} {HT : HexText HX}.

Lemma hex_text bs : Forall (λ b, printable b = true) (hex_encode bs) ∧ equals ∉ hex_encode bs ∧ comma ∉ hex_encode bs.
Proof using HT.
  pose proof (hex_letters bs) as Hd. split.
  - eapply Forall_impl; [exact Hd|]. by intros b (? & _)%letter_printable.
  - rewrite Forall_forall in Hd. split; intros Hin; by apply Hd, letter_printable in Hin as (_ & ? & ?).
Qed.

(** An entry as it is written, and the entries of a list. *)
Definition entry_text (e : N * N) : bytes := hex_encode (id_bytes e.1) ++ equals :: decimal e.2.
Fixpoint spec_text (l : list (N * N)) : bytes :=
  match l with
  | [] => []
  | [e] => entry_text e
  | e :: l => entry_text e ++ comma :: spec_text l
  end.

Definition stake_entry (t : StakeTable) (e : N * N) : StakeTable := (lock_stake t e.1 e.2).1.

Lemma entry_text_plain e : Forall (λ b, printable b = true) (entry_text e) ∧ comma ∉ entry_text e.
Proof using HT.
  destruct (hex_text (id_bytes e.1)) as (H1 & _ & H2). destruct (decimal_text e.2) as (H3 & _ & _ & H4).
  unfold entry_text. split; [apply Forall_app; split; [done|by constructor]|].
  rewrite not_elem_of_app, not_elem_of_cons. done.
Qed.

Lemma spec_entry_text t e : e.1 < 2 ^ 256 → e.2 < 2 ^ 128 → spec_entry t (entry_text e) = stake_entry t e.
Proof using HL HT.
  intros H1 H2. unfold spec_entry. rewrite trim_printable by apply entry_text_plain.
  rewrite bool_decide_false by (unfold entry_text; by destruct (hex_encode (id_bytes e.1))).
  destruct (hex_text (id_bytes e.1)) as (Hp & He & _). destruct (decimal_text e.2) as (Hd & _).
  unfold entry_text at 1. rewrite split_once_app, !trim_printable by done. unfold account_from_hex.
  rewrite hex_roundtrip. cbn [mbind option_bind]. rewrite length_id_bytes. cbn [negb Nat.eqb].
  rewrite of_be_id_bytes, amounts_roundtrip by done. done.
Qed.

Lemma fold_spec l t : Forall (λ e, e.1 < 2 ^ 256 ∧ e.2 < 2 ^ 128) l →
  fold_left spec_entry (split comma (spec_text l)) t = fold_left stake_entry l t.
Proof using HL HT.
  intros Hl. revert t. induction Hl as [|e l [H1 H2] Hl IH]; intros t; [done|].
  destruct (entry_text_plain e) as [_ Hc]. destruct l as [|e2 l].
  - cbn [spec_text fold_left]. rewrite split_one by done. cbn [fold_left]. by apply spec_entry_text.
  - change (spec_text (e :: e2 :: l)) with (entry_text e ++ comma :: spec_text (e2 :: l)).
    rewrite split_app, split_one by done. cbn [app]. cbn [fold_left] in *. rewrite spec_entry_text by done. apply IH.
Qed.

(** Specifications of stakes. The written form of any list of stakes is read back as the
    table that locks them in order, later entries replacing earlier ones of the same
    account; and an entry that is empty, has no sign of equality, an account that is not 32
    bytes of hexadecimal digits or an amount that is not a number of 128 bits is skipped,
    wherever it stands and whatever stands around it. *)
Theorem stake_spec_read c l pre bad post :
  Forall (λ e, e.1 < 2 ^ 256 ∧ e.2 < 2 ^ 128) l → comma ∉ bad →
  (trim bad = [] ∨ split_once equals (trim bad) = None
   ∨ ∃ hex amount, split_once equals (trim bad) = Some (hex, amount)
                   ∧ (account_from_hex (trim hex) = None ∨ parse_u128 (trim amount) = None)) →
  from_spec c (spec_text l) = fold_left stake_entry l (table_new c)
  ∧ from_spec c (pre ++ comma :: bad ++ comma :: post) = from_spec c (pre ++ comma :: post).
Proof using HL HT.
  intros Hl Hc Hbad. split; [by apply fold_spec|]. unfold from_spec.
  rewrite !split_app, !fold_left_app, (split_one comma bad) by done. cbn [fold_left]. f_equal.
  unfold spec_entry. case_bool_decide; [done|].
  destruct Hbad as [Hb|[Hb|(hex & amount & Hb & H')]]; [done|by rewrite Hb|rewrite Hb].
  destruct H' as [->| ->]; [done|]. by destruct (account_from_hex _).
Qed.
End spec.

(** ** Samples *)

Section sample.
Local Existing Instance lawful_crypto.
Local Existing Instance wire_ethers.
Local Existing Instance transfer_vm.
Local Existing Instance map_order.
Local Existing Instance plain_hex.
Local Existing Instance plain_text.
Local Existing Instance plain_u256.
Local Existing Instance plain_json.

#[local] Instance plain_hex_text : HexText plain_hex.
Proof.
  intros bs. induction bs as [|b bs IH]; [constructor|].
  cbn [hex_encode plain_hex lower_hex]. constructor; [|constructor; [|exact IH]]; by destruct b.
Qed.

(** The generator prints three lines, and the first names the account of node 0. *)
Example generated : (λ ls, (length ls, take 15 <$> head ls)) <$> gen_operators = Some (3%nat, Some (ascii "mesh-node-0 -> ")).
Proof. vm_compute. reflexivity. Qed.

Lemma node_identity_witness :
  node_number (Some (ascii "mesh-node-3")) (Some (ascii "9")) 5 = (3, None)
  ∧ node_number (Some (ascii "alpha")) (Some (ascii "3")) 5 = (3, None)
  ∧ ∃ node, boot 3 (from_seed 9) true None 1 2 = Some node ∧ operator_account (ascii "mesh-node-3") = Some (account_id (n_keypair node)).
Proof.
  destruct (node_identity (ascii "mesh-node") 3 eq_refl) as (H1 & H2 & H3).
  split; [exact (proj1 (H1 (Some (ascii "9")) 5))|].
  split; [exact (H2 (ascii "alpha") None 5 eq_refl eq_refl)|].
  assert (Hs : (λ _, true) <$> boot 3 (from_seed 9) true None 1 2 = Some true) by (vm_compute; reflexivity).
  destruct (checked_option _ _ Hs) as (node & Hn & _). exists node. split; [exact Hn|]. exact (H3 _ _ _ _ _ _ Hn).
Defined.

Lemma stake_spec_witness :
  from_spec default_config (spec_text [(7, 500); (8, 2); (7, 600)])
  = fold_left stake_entry [(7, 500); (8, 2); (7, 600)] (table_new default_config)
  ∧ get_stake (from_spec default_config (spec_text [(7, 500); (8, 2); (7, 600)])) 7 = 600.
Proof.
  destruct (stake_spec_read default_config [(7, 500); (8, 2); (7, 600)] [] (ascii "zz=1") []) as [H _].
  - repeat constructor.
  - apply (bool_decide_eq_true_1 _). vm_compute. reflexivity.
  - right. right. exists (ascii "zz"), (ascii "1"). split; [vm_compute; reflexivity|]. left. vm_compute. reflexivity.
  - split; [exact H|]. rewrite H. vm_compute. reflexivity.
Defined.
End sample.
