(* ===== verification/Demo.v ===== *)
(** * The demonstration (src/src/main.rs)

    A node of its own, a hundred pool shifts and a transfer of one account, one synthesis
    cycle, and the numbers it prints; run here as a whole with fewer shifts. *)
From S2P Require Import Prelude F64 Bytes Value Crypto Signals Merkle Stake Rewards Certificate.
From S2P Require Import Metabolic ModArith Ntt WaveField Domain Dag DagOrder Evm Oscillator Synthesis Settlement.
Local Open Scope N_scope.

Section demo.
Context {C : Crypto} {E : Ethers} {V : Revm} {HO : HashOrder}.

Definition DEMO_ID : N := of_be (repeat x01 32).
Definition DEMO_POOL : N := of_be (repeat x2a 32).

Definition demo_shift (alice : KeyPair) (i : N) : CommutativeShift :=
  cs_new alice DEFAULT_DEX_DOMAIN (coord_from_scalar i) 1000000 DEMO_POOL i 0.
Definition demo_transfer (alice bob : KeyPair) : StatefulShift :=
  ss_new alice DEFAULT_DEX_DOMAIN (account_id bob) 500000000000 (VectorClock.tick VectorClock.new DEMO_ID).1 [] 1 0.

(** [ingest(..).expect(..)] *)
Definition expect_ingest (o : Oscillator) (s : Signal) (now : N) : option Oscillator :=
  match ingest o s now with (o, Ok _) => Some o | (_, Err _) => None end.

(** What is printed, with [n] shifts on a transform of [size] bins: the shifts applied, the balances of the two
    accounts, the pool. *)
Definition demo_of (size n : nat) (random alice bob : KeyPair) (now : N) (ck : CycleClock) : option (nat * nat * N * N * N) :=
  o ← osc_new DEMO_ID size random;
  let o := osc_seed_account o (account_id alice) 1000000000000000 in
  o ← fold_opt (λ o i, expect_ingest o (SigCommutative (demo_shift alice (N.of_nat i))) now) (seq 0 n) o;
  o ← expect_ingest o (SigStateful (demo_transfer alice bob)) now;
  '(o, r) ← synthesize o {[ account_id alice := public_key alice ]} ck;
  a ← final_balances r !! account_id alice;
  b ← final_balances r !! account_id bob;
  Some (commutative_applied r, stateful_applied r, a, b, units (pool_balance (wave_field o) DEMO_POOL)).
Definition demo := demo_of 1024 100.
End demo.

Section sample.
Local Existing Instance lawful_crypto.
Local Existing Instance plain_ethers.
Local Existing Instance transfer_vm.
Local Existing Instance map_order.

(** With four shifts instead of a hundred, on sixteen bins. *)
Example demo_prints :
  demo_of 16 4 (from_seed 9) alice bob 5 6 = Some (4%nat, 1%nat, 999500000000000, 500000000000, 4000000).
Proof. vm_compute. reflexivity. Qed.
End sample.
