(* ===== verification/Tests.v ===== *)
(** * The repository's unit tests

    The [#[test]] functions of the modelled sources, each as the definition of what it
    computes: [Some true] when its assertions hold, [Some false] when one fails, [None]
    when it panics otherwise, as at the [unwrap] of an error.  Random keys are arguments.
    Every one of them passes here, with the concrete instances, so that the definitions of
    the library agree with what the source is tested for. *)
From S2P Require Import Prelude F64 Bytes Value Crypto Signals Merkle Stake Rewards Certificate.
From S2P Require Import Metabolic ModArith Ntt WaveField Domain Dag DagOrder Evm Oscillator Synthesis Settlement.
From S2P Require Import Network Gossip Simulation Bridge Persistence Api EvmRpc.
Local Open Scope N_scope.

Definition unwrap {E A} (r : result E A) : option A := match r with Ok a => Some a | Err _ => None end.
Definition is_err {E A} (r : result E A) : bool := match r with Ok _ => false | Err _ => true end.
(** [[b; 32]] *)
Definition id32 (b : byte) : N := of_be (repeat b 32).
Definition clock (nodes : list N) : VectorClock.t := fold_left (λ vc n, (VectorClock.tick vc n).1) nodes VectorClock.new.

(** ** consensus/dag.rs *)

Module DagTests.
Section tests.
Context {C : Crypto} {HO : HashOrder} (kp : KeyPair) (to : N).

Definition start : VectorClockDag := seed_balance dag_new (account_id kp) 1000000000000.
Definition insert (d : VectorClockDag) (s : StatefulShift) (tick : N) : option VectorClockDag :=
  '(d, r) ← dag_insert d s (public_key kp) tick 3; _ ← unwrap r; Some d.
Definition shift (amount : N) (vc : VectorClock.t) (preds : list N) (nonce : N) : StatefulShift :=
  ss_new kp DEFAULT_DEX_DOMAIN to amount vc preds nonce 0.

Definition dag_orders_chain : option bool :=
  let vc := clock [id32 x01] in
  let shift1 := shift 100 vc [] 1 in
  let h1 := ss_hash shift1 in
  d ← insert start shift1 0;
  let vc2 := (VectorClock.tick vc (id32 x01)).1 in
  d ← insert d (shift 200 vc2 [h1] 2) 1;
  r ← topological_order d; order ← unwrap r;
  b ← apply_ordered d; balances ← unwrap b;
  from ← balances !! account_id kp; dest ← balances !! to;
  Some (bool_decide (length order = 2%nat) && bool_decide (order !! 0%nat = Some h1)
        && (from =? 1000000000000 - 300) && (dest =? 300)).

Definition topological_order_uses_vector_clock_tiebreaker : option bool :=
  let shift_a := shift 100 (clock [id32 x01]) [] 1 in
  let shift_b := shift 100 (clock [id32 x02; id32 x01]) [] 2 in
  d ← insert start shift_b 0; d ← insert d shift_a 0;
  r ← topological_order d; order ← unwrap r;
  Some (bool_decide (order = [ss_hash shift_a; ss_hash shift_b])).

Definition dag_detects_double_spend : option bool :=
  let shift_a := shift 700000000000 (clock [id32 x01]) [] 1 in
  let shift_b := shift 400000000000 (clock [id32 x02]) [] 2 in
  d ← insert start shift_a 0; d ← insert d shift_b 0;
  ds ← detect_double_spends d; Some (negb (bool_decide (ds = []))).

Definition validates_vector_clock_monotonicity : option bool :=
  let sender := account_id kp in
  d ← insert start (shift 100 (clock [sender]) [] 1) 0;
  Some (is_err (validate_vector_clock d sender (clock [sender; sender; sender]))
        && negb (is_err (validate_vector_clock d sender (clock [sender; sender])))).

Definition derives_vector_clock_when_missing : option bool :=
  let sender := account_id kp in
  d ← insert start (ss_new kp DEFAULT_DEX_DOMAIN sender 1 (clock [sender]) [] 1 0) 0;
  derived ← unwrap (validate_or_derive d sender None);
  Some (VectorClock.get derived sender =? 2).
End tests.
End DagTests.

(** ** consensus/oscillator.rs *)

Module OscillatorTests.
Section tests.
Context {C : Crypto} {E : Ethers} {V : Revm} {HO : HashOrder} (random alice bob operator : KeyPair) (now : N).

Definition ingest_ok (o : Oscillator) (s : Signal) : option Oscillator :=
  let '(o, r) := ingest o s now in _ ← unwrap r; Some o.

Definition oscillator_rejects_replayed_nonce : option bool :=
  o ← osc_new (id32 x01) 64 random;
  let o := osc_seed_account o (account_id alice) 10000000000000 in
  let st amount nonce := SigStateful (ss_new alice DEFAULT_DEX_DOMAIN (account_id bob) amount (clock [id32 x01]) [] nonce 0) in
  o ← ingest_ok o (st 100 1);
  let '(o, r) := ingest o (st 200 1) now in
  if negb (is_err r) then Some false else _ ← ingest_ok o (st 200 2); Some true.

Definition oscillator_registers_domain_and_deducts_fee : option bool :=
  o ← osc_new (id32 x01) 64 random;
  let fee := domain_reservation_fee_units in
  let o := osc_seed_account o (account_id alice) (fee + 1000000000000) in
  policy ← unwrap (policy_new (id32 x07) true true Causal 3 20 MetabolicOnly);
  let before := units (account_balance (wave_field o) (account_id alice)) in
  let '(o, r) := register_domain o policy (account_id alice) in
  _ ← unwrap r;
  let after := units (account_balance (wave_field o) (account_id alice)) in
  Some ((before - after =? fee) && registry_contains (domain_registry o) (id32 x07)).

Definition oscillator_strict_domain_waits_for_quorum : option bool :=
  o ← osc_new (id32 x01) 64 random;
  let o := osc_seed_account o (account_id operator) 2000000000000000000 in
  let o := osc_seed_account o (account_id alice) 1000000000000 in
  let o := set_operator_keypair o operator in
  policy ← unwrap (policy_new (id32 x2a) false true Strict 3 20 MetabolicOnly);
  let '(o, r) := register_domain o policy (account_id operator) in
  _ ← unwrap r;
  let o := with_stakes o (lock_stake (stake_table o) (account_id operator) 1000000000000000000).1 in
  o ← ingest_ok o (SigStateful (ss_new alice (id32 x2a) (account_id bob) 500 (clock [id32 x01]) [] 1 0));
  let keys := <[account_id operator := public_key operator]> {[account_id alice := public_key alice]} in
  '(o, r1) ← synthesize o keys now;
  '(o, r2) ← synthesize o keys now;
  Some (bool_decide (stateful_applied r1 = 0%nat) && bool_decide (stateful_applied r2 = 1%nat)).

Definition oscillator_aggregates_commutative_and_applies_stateful : option bool :=
  o ← osc_new (id32 x01) 64 random;
  let o := osc_seed_account o (account_id alice) 10000000000000 in
  o ← fold_opt (λ o i, ingest_ok o (SigCommutative
          (cs_new alice DEFAULT_DEX_DOMAIN (coord_from_scalar (N.of_nat i)) 100 (id32 x09) (N.of_nat i) 0)))
        (seq 0 10) o;
  o ← ingest_ok o (SigStateful (ss_new alice DEFAULT_DEX_DOMAIN (account_id bob) 500 (clock [id32 x01]) [] 1 0));
  '(o, r) ← synthesize o {[account_id alice := public_key alice]} now;
  dest ← final_balances r !! account_id bob;
  Some (bool_decide (commutative_applied r = 10%nat) && bool_decide (stateful_applied r = 1%nat)
        && (dest =? 500) && (units (pool_balance (wave_field o) (id32 x09)) =? 10 * 100)).
End tests.
End OscillatorTests.

(** ** operator/stake.rs, operator/rewards.rs *)

Module StakeTests.
Section tests.
Context {HO : HashOrder} {HX : Hex}.

Definition at_100 : StakeTable := table_new {| min_stake := 100 |}.

Definition staked_operator_meets_minimum : option bool :=
  let op := id32 x01 in
  Some (negb (is_staked at_100 op) && is_staked (lock_stake at_100 op 100).1 op).

Definition slashed_operator_is_no_longer_staked : option bool :=
  let op := id32 x02 in
  let t := (lock_stake at_100 op 100).1 in
  Some (negb (is_staked (slash t op).1 op)).

Definition snapshot_roundtrip_preserves_slash_and_burned_stake : option bool :=
  let op := id32 x03 in
  let t := (lock_stake at_100 op 200).1 in
  let '(t, (_, burned)) := slash t op in
  let restored := from_snapshot {| min_stake := 100 |} (to_snapshot t) in
  Some ((burned =? 200) && (get_stake restored op =? 0) && is_slashed restored op && negb (is_staked restored op)).

Definition at_1 (stakes : list (N * N)) : StakeTable :=
  fold_left (λ t e, (lock_stake t e.1 e.2).1) stakes (table_new {| min_stake := 1 |}).

Definition rewards_split_proportionally_to_stake : option bool :=
  let '(a, b) := (id32 x01, id32 x02) in
  let pool := distribute pool_new 10000 (at_1 [(a, 75); (b, 25)]) in
  Some ((balance pool a =? 3750) && (balance pool b =? 1250) && (lp_reward_balance pool DEFAULT_DEX_DOMAIN =? 5000)).

Definition slashed_operator_gets_no_rewards : option bool :=
  let '(a, b) := (id32 x01, id32 x02) in
  let pool := distribute pool_new 10000 (slash (at_1 [(a, 50); (b, 50)]) a).1 in
  Some ((balance pool a =? 0) && (balance pool b =? 5000) && (lp_reward_balance pool DEFAULT_DEX_DOMAIN =? 5000)).

Definition lp_share_accrues_even_without_staked_operators : option bool :=
  let pool := distribute pool_new 10000 (table_new {| min_stake := 1000 |}) in
  Some (lp_reward_balance pool DEFAULT_DEX_DOMAIN =? 5000).

Definition claim_lp_reward_zeroes_balance : option bool :=
  let '(pool, claimed) := claim_lp_reward (distribute pool_new 10000 (at_1 [])) DEFAULT_DEX_DOMAIN in
  Some ((claimed =? 5000) && (lp_reward_balance pool DEFAULT_DEX_DOMAIN =? 0)).
End tests.
End StakeTests.

(** ** value/metabolic.rs, value/spectrum.rs, value/stream.rs, value/supply.rs *)

Module ValueTests.
Section tests.
Context {HO : HashOrder} (owner other : N).

Definition pow_uses_exponentiation_by_squaring : option bool :=
  Some ((pow 1 0 =? 1) && (pow 7 1 =? 7) && (pow 2 10 =? 1024) && (pow 9999 2 =? 99980001)
        && (pow 10000 3 =? 1000000000000)).

Definition decayed_balance_matches_closed_form : option bool :=
  Some ((decayed_balance 1000000 10000 0 =? 1000000) && (decayed_balance 1000000 10000 1 =? 990000)
        && (decayed_balance 1000000 10000 2 =? 980100) && (decayed_balance 1000000 10000 3 =? 970299)).

Definition split (decayed : N) : N * N :=
  let burn := sat_mul 128 decayed METABOLIC_BURN_BP / BASIS_POINTS_DENOMINATOR in (burn, decayed - burn).
Definition metabolic_burn_split_is_deterministic_25_75 : option bool :=
  Some (bool_decide (split 1000000 = (250000, 750000))
        && ((split 3).1 =? 0) && ((split 3).1 + (split 3).2 =? 3)
        && ((split 4).1 =? 1) && ((split 4).1 + (split 4).2 =? 4)
        && ((split 987654321).1 + (split 987654321).2 =? 987654321)).

Definition lambda_is_capped_below_denominator : option bool :=
  let stream := stream_new (id32 x09) owner 1000000 2000000 in
  Some ((ms_rate_ppm stream =? DECAY_DENOMINATOR - 1) && (remaining_at stream 1 =? 1)).

Definition stream_remaining_follows_exponential_curve : option bool :=
  let stream := stream_new (id32 x01) owner 1000000 10000 in
  Some ((remaining_at stream 0 =? 1000000) && (remaining_at stream 1 =? 990000)
        && (remaining_at stream 2 =? 980100) && (remaining_at stream 5 =? decayed_balance 1000000 10000 5)).

Definition process_returns_incremental_burn_each_tick : option bool :=
  let stream := stream_new (id32 x02) owner 1000000 10000 in
  let '(stream, (burned, exhausted)) := process stream 1 in
  let first := (burned =? 10000) && negb exhausted && (ms_remaining stream =? 990000) in
  let '(stream, (burned, exhausted)) := process stream 2 in
  let second := (burned =? 9900) && negb exhausted && (ms_remaining stream =? 980100) in
  let '(stream, (burned, _)) := process stream 2 in
  Some (first && second && (burned =? 0)).

Definition engine_accumulates_exponential_burn : option bool :=
  let e := add_stream Metabolic.engine_new (stream_new (id32 x03) owner 1000000 10000) in
  let '(e, b1) := process_metabolic_degradation e 1 in
  let first := (b1 =? 10000) && (eng_total_burned e =? 10000) in
  let '(e, b2) := process_metabolic_degradation e 2 in
  Some (first && (b2 =? 9900) && (eng_total_burned e =? 19900) && bool_decide (active_stream_count e = 1%nat)).

Definition engine_removes_fully_exhausted_streams : option bool :=
  let e := add_stream Metabolic.engine_new (stream_new (id32 x04) owner 1 9999) in
  let '(e, burned) := process_metabolic_degradation e 1 in
  Some ((burned =? 1) && bool_decide (active_stream_count e = 0%nat)).

Definition spectrum_lease_and_authorize : option bool :=
  s ← unwrap (Spectrum.lease (Spectrum.new 1024) owner 0 64 1000000000000 100);
  match Spectrum.authorize s 32 with
  | Ok s => Some (is_err (Spectrum.authorize s 2000))
  | Err _ => Some false
  end.

Definition spectrum_rejects_overlapping_leases : option bool :=
  s ← unwrap (Spectrum.lease (Spectrum.new 1024) owner 0 64 1000000000000 100);
  Some (is_err (Spectrum.lease s other 32 96 1000000000000 100)).

Definition stream_burn_rate : option bool :=
  let stream := Stream.new 10 1 10 in
  Some (Stream.burned_in 5 (Stream.rate_per_tick stream) =? 5 * WAVE_PRECISION).

Definition stream_state_exhausts : option bool :=
  let '(state, burned) := Stream.tick (Stream.state_new (Stream.from_subunits WAVE_PRECISION WAVE_PRECISION 10)) 1 in
  Some ((burned =? WAVE_PRECISION) && Stream.is_exhausted state).

Definition mint_increases_circulating : option bool :=
  let '(s, ok) := Supply.mint Supply.new 1000 in
  Some (ok && (Supply.circulating s =? 1000) && (Supply.remaining s =? TOTAL_WAVE_SUPPLY - 1000)).

Definition mint_respects_cap : option bool :=
  let '(s, ok) := Supply.mint Supply.new TOTAL_WAVE_SUPPLY in
  Some (ok && negb (Supply.mint s 1).2).

Definition burn_frees_cap_space : option bool :=
  let '(s, ok) := Supply.mint Supply.new 1000 in
  let s := Supply.burn s 400 in
  let burnt := (Supply.circulating s =? 600) && (Supply.burned s =? 400) in
  let '(s, ok') := Supply.mint s 400 in
  Some (ok && burnt && ok' && (Supply.circulating s =? 1000)).
End tests.
End ValueTests.

(** ** field/wave_field.rs, field/coordinates.rs, consensus/ntt.rs *)

Module FieldTests.
Section tests.
Context {HO : HashOrder}.

Definition wave_field_account_debit : option bool :=
  f ← field_new 16;
  let id := id32 x01 in
  let f := credit_account f id 1000000000000 in
  let '(f, first) := debit_account f id 500000000000 in
  let '(f, second) := debit_account f id 600000000000 in
  Some (first && negb second && (units (account_balance f id) =? 500000000000)).

Definition ntt_batch_synthesis_matches_sequential_sum : option bool :=
  f ← field_new 64;
  let pool := id32 x07 in
  '(f, r) ← synthesize_commutative_batch f (map (λ i, (coord_from_scalar (N.of_nat i), 100%Z, pool)) (seq 0 32));
  _ ← unwrap r; Some (units (pool_balance f pool) =? 32 * 100).

Definition metabolic_decay_follows_exponential_formula : option bool :=
  f ← field_new 16;
  let '(id, initial, rate_ppm, n) := (id32 x05, 1000000000000, 10000, 5) in
  let f := credit_account f id initial in
  let '(f, burned) := apply_metabolic_decay f n rate_ppm ∅ in
  let expected := decayed_balance initial rate_ppm n in
  let first := (units (account_balance f id) =? expected) && (burned =? initial - expected)
               && (last_decay_tick (account_balance f id) =? n) in
  let '(f, burned2) := apply_metabolic_decay f (n + 1) rate_ppm ∅ in
  let expected2 := decayed_balance expected rate_ppm 1 in
  Some (first && (units (account_balance f id) =? expected2) && (burned2 =? expected - expected2)).

Definition metabolic_decay_skips_immune_accounts : option bool :=
  f ← field_new 16;
  let '(immune_id, normal_id) := (id32 x06, id32 x07) in
  let f := credit_account (credit_account f immune_id 1000000) normal_id 1000000 in
  let '(f, burned) := apply_metabolic_decay f 10 100 {[immune_id]} in
  let expected := decayed_balance 1000000 100 10 in
  Some ((units (account_balance f immune_id) =? 1000000) && (last_decay_tick (account_balance f immune_id) =? 10)
        && (units (account_balance f normal_id) =? expected) && (burned =? 1000000 - expected)).

Definition metabolic_decay_also_decays_pool_balances : option bool :=
  f ← field_new 16;
  let pool := id32 x08 in
  let '(f, r) := apply_commutative_delta f pool 1000000 in
  _ ← unwrap r;
  let '(f, burned) := apply_metabolic_decay f 3 100 ∅ in
  let expected := decayed_balance 1000000 100 3 in
  Some ((units (pool_balance f pool) =? expected) && (burned =? 1000000 - expected)).

Definition metabolic_decay_exempts_non_decaying_balances : option bool :=
  f ← field_new 16;
  let '(wave_id, usdc_id) := (id32 x0a, id32 x0b) in
  let f := credit_account (credit_account f wave_id 1000000) usdc_id 1000000 in
  let f := set_non_decaying f usdc_id in
  let '(f, burned) := apply_metabolic_decay f 10 100 ∅ in
  let expected := decayed_balance 1000000 100 10 in
  Some ((units (account_balance f usdc_id) =? 1000000) && (last_decay_tick (account_balance f usdc_id) =? 10)
        && (units (account_balance f wave_id) =? expected) && (burned =? 1000000 - expected)).

Definition metabolic_decay_grants_activity_grace : option bool :=
  f ← field_new 16;
  let '(id, initial) := (id32 x0c, 1000000) in
  let f := mark_active (credit_account f id initial) id 5 in
  let '(f, burned) := apply_metabolic_decay f 7 10000 ∅ in
  let first := (units (account_balance f id) =? initial) && (burned =? 0)
               && (last_decay_tick (account_balance f id) =? 7) in
  let '(f, burned2) := apply_metabolic_decay f (5 + METABOLIC_IDLE_GRACE_TICKS + 1) 10000 ∅ in
  let expected := decayed_balance initial 10000 (5 + METABOLIC_IDLE_GRACE_TICKS + 1 - 7) in
  Some (first && (units (account_balance f id) =? expected) && (expected <? initial) && (burned2 =? initial - expected)).

Definition coordinate_to_bytes_roundtrip : option bool :=
  let c := Coord 1 2 3 4 in
  let bs := coord_to_bytes c in
  Some (bool_decide (components c = map (λ i, of_le (take 8 (drop (i * 8) bs))) (seq 0 4))).

Definition ntt_index_in_bounds : option bool :=
  Some (to_ntt_index (Coord 12345 67890 111 222) 1024 <? 1024)%nat.

Definition ntt_intt_roundtrip : option bool :=
  e ← Ntt.engine_new 16;
  let original := map (λ x, (Z.of_nat x * 7) mod NTT_MODULUS)%Z (seq 0 16) in
  a ← ntt e original; a ← intt e a; Some (bool_decide (a = original)).

Definition ntt_linearity : option bool :=
  e ← Ntt.engine_new 16;
  let x := map Z.of_nat (seq 0 16) in
  let y := map (λ i, Z.of_nat (i * 3)) (seq 0 16) in
  let sum a b := map (λ uv : Z * Z, add_mod uv.1 uv.2 NTT_MODULUS) (combine a b) in
  a ← ntt e x; b ← ntt e y; z ← ntt e (sum x y);
  Some (bool_decide (sum a b = z)).
End tests.
End FieldTests.

(** ** crypto/keys.rs, crypto/phase_shift.rs, state/merkle.rs, consensus/certificate.rs, light_client/mod.rs *)

Module CryptoTests.
Section tests.
Context {C : Crypto} {HO : HashOrder} (kp other : KeyPair).

Definition keypair_generation_and_signing : option bool :=
  let msg := ascii "fluidic test message" in
  Some (verify_bytes (public_key kp) msg (sign kp msg)).

Definition account_id_is_deterministic : option bool :=
  let '(kp1, kp2) := (from_seed (id32 x2a), from_seed (id32 x2a)) in
  Some ((account_id kp1 =? account_id kp2) && (wave_address kp1 =? wave_address kp2)).

Definition commutative_sign_verify : option bool :=
  let s := cs_new kp DEFAULT_DEX_DOMAIN (coord_from_scalar 7) 100 (id32 x01) 1 0 in
  Some (cs_verify s (public_key kp)).

Definition stateful_sign_verify_rejects_wrong_signer : option bool :=
  let s := ss_new kp DEFAULT_DEX_DOMAIN (account_id other) 50 VectorClock.new [] 1 0 in
  Some (ss_verify s (public_key kp) && negb (ss_verify s (public_key other))).

Definition vector_clock_ordering : option bool :=
  let vc_a := clock [id32 x01] in
  let vc_b := (VectorClock.tick vc_a (id32 x02)).1 in
  Some (VectorClock.happened_before vc_a vc_b && negb (VectorClock.happened_before vc_b vc_a)
        && VectorClock.concurrent_with vc_a vc_a).

Definition root_is_deterministic : option bool :=
  let items := [(ascii "a", ascii "1"); (ascii "b", ascii "2"); (ascii "c", ascii "3")] in
  r1 ← Merkle.root items; r2 ← Merkle.root items; Some (r1 =? r2).

Definition order_matters : option bool :=
  r1 ← Merkle.root [(ascii "a", ascii "1"); (ascii "b", ascii "2")];
  r2 ← Merkle.root [(ascii "b", ascii "2"); (ascii "a", ascii "1")];
  Some (r1 =? r2).

Definition certificate_signs_and_verifies : option bool :=
  let cert := sc_sign kp 7 10 3 1 (id32 x01) (id32 x02) (id32 x03) (id32 x04) (id32 x05) (id32 x06) 1000000 1700000000000 in
  Some (sc_verify cert (public_key kp)).

Definition certificate_rejects_wrong_key : option bool :=
  let cert := sc_sign kp 0 0 0 0 0 0 0 0 0 0 0 0 in
  Some (negb (sc_verify cert (public_key other))).

Definition balances_root_is_deterministic : option bool :=
  let balances : gmap N N := <[id32 x02 := 200]> (<[id32 x01 := 100]> {[id32 x03 := 300]}) in
  Some (balances_root balances =? balances_root balances).

Definition light_client_tracks_quorum : option bool :=
  let t := (lock_stake (table_new {| min_stake := 1000000 |}) (account_id kp) 1000000).1 in
  let client := Certificate.register_key (client_new t) (account_id kp) (public_key kp) in
  let '(client, r) := Certificate.ingest_certificate client (sc_sign kp 1 0 0 0 0 0 0 0 0 0 0 0) in
  quorum ← unwrap r;
  Some (bool_decide (is_Some quorum) && (latest_finalized_tick client =? 1)).
End tests.
End CryptoTests.

(** ** network/buffer.rs, network/node.rs, consensus/domain.rs, consensus/simulation.rs, bridge/mod.rs *)

Module NodeTests.
Section tests.
Context {C : Crypto} {K : Codec} {HO : HashOrder} (kp : KeyPair).

Definition ring_buffer_wraps : option bool :=
  '(rb, n1) ← rb_write (rb_new 8) (ascii "hello");
  '(rb, n2) ← rb_write rb (ascii "world");
  '(rb, c1) ← rb_read_chunk rb 5;
  '(rb, c2) ← rb_read_chunk rb 3;
  Some (bool_decide (n1 = 5%nat) && bool_decide (n2 = 3%nat) && bool_decide (c1 = ascii "hello")
        && bool_decide (c2 = ascii "wor")).

Definition ring_buffer_peek_does_not_consume : option bool :=
  '(rb, _) ← rb_write (rb_new 16) (ascii "fluidic");
  p ← rb_peek rb 4;
  Some (bool_decide (p = ascii "flui") && bool_decide (rb_len rb = 7%nat)).

(** Channels 1 and 2; addresses by their ports. *)
Definition in_process_broadcast_and_receive (shift : Signal) : option bool :=
  let '(cs, node1) := new_in_process ∅ 1 8001 in
  let '(cs, node2) := new_in_process cs 2 8002 in
  let node1 := node_add_peer node1 8002 (Channel 1) in
  let '(cs, r) := node_broadcast node1 cs shift in
  _ ← unwrap r;
  packet ← unwrap (encode_packet shift);
  '(b, _) ← rb_write (ingress_buffer node2) packet;
  '(_, received) ← next_shift b;
  received ← unwrap received; Some (bool_decide (is_Some received)).

Definition registry_seeds_dex_domain : option bool :=
  policy ← registry_get registry_new DEFAULT_DEX_DOMAIN;
  Some (policy_commutative policy && policy_stateful policy && match policy_ordering policy with Causal => true | _ => false end
        && (finalization_depth policy =? 3) && (metabolic_lambda_ppm policy =? DEFAULT_DEX_LAMBDA_PPM)
        && match fee_policy policy with MetabolicOnly => true | _ => false end).

Definition bridge_registry_polls_adapters : option bool :=
  let registry := bridges_register bridges_new (Boxed {| eth_name := ascii "eth-stub" |}) in
  let '(_, events, errors) := poll_all registry in
  Some (match events, errors with [], [] => true | _, _ => false end).

Definition bridge_domain_policy_is_strict : option bool :=
  policy ← bridge_domain_policy (id32 x63);
  Some ((policy_domain policy =? id32 x63) && match policy_ordering policy with Strict => true | _ => false end
        && negb (policy_commutative policy) && policy_stateful policy).

(** The test's counts are 2048, 100,000 and 16; the workers finish in order. *)
Definition stress_bin_exact_recovery (size count threads : nat) : option bool :=
  sim ← sim_new size;
  '(algebraic, recovered) ← stress_bin sim count threads (seq 0 threads);
  Some (bool_decide (algebraic = recovered)).
End tests.
End NodeTests.

(** ** evm/mod.rs, api/evm_rpc.rs *)

Module EvmTests.
Section tests.
Context {C : Crypto} {E : Ethers} {V : Revm} {HO : HashOrder} {HX : Hex} {ET : EvmText}.
(** The signed transfer is the wallet's work: its bytes, its sender, its recipient, its value. *)
Context (raw : bytes) (wallet to value : N).

Definition decodes_signed_transfer : option bool :=
  d ← decode_raw raw; decoded ← unwrap d;
  Some ((tx_from decoded =? wallet) && bool_decide (tx_to decoded = Some to) && (tx_value decoded =? value)).

Definition executes_signed_transfer_with_revm (now : N) : option bool :=
  d ← decode_raw raw; decoded ← unwrap d;
  let tx_hash := tx_hash decoded in
  let pool := submit evm_pool_new decoded now in
  '(pool, balances, (applied, _), _) ← pool_synthesize pool {[evm_address_to_fluidic wallet := 10 * value]} now 1;
  receipt ← pool_receipt pool tx_hash;
  Some (bool_decide (applied = 1%nat)
        && match pool_status pool tx_hash with Some Success => true | _ => false end
        && (rc_status receipt =? 1)
        && (default 0 (balances !! evm_address_to_fluidic to) =? value)).

Definition rejects_wrong_chain_id : option bool := d ← decode_raw raw; Some (is_err d).

Definition chain_id_is_constant : option bool :=
  Some (match chain_id with JStr s => bool_decide (s = ascii "0xf1d1c") | _ => false end).

Definition block_number_reflects_synthesis_tick (random : KeyPair) : option bool :=
  o ← osc_new 0 512 random;
  let a := api_new (with_tick o 42) in
  Some (match rpc_block_number a with JStr s => bool_decide (s = ascii "0x2a") | _ => false end).

Definition get_balance_derives_account_from_evm_address (random : KeyPair) : option bool :=
  o ← osc_new 0 512 random;
  let evm_address := ascii "0000000000000000000000000000000000000001" in
  bs ← hex_decode evm_address;
  let account := blake3 (ascii "fluidic:evm-account:v1" ++ bs) in
  let a := api_new o in
  let a := with_osc a (osc_seed_account (osc a) account 5000000000000) in
  b ← unwrap (rpc_get_balance a [JStr (ascii "0x" ++ evm_address)]);
  Some (match b with JStr s => bool_decide (s = ascii "0x48c27395000") | _ => false end).
End tests.
End EvmTests.

Section instances.
Local Existing Instance lawful_crypto.
Local Existing Instance wire_ethers.
Local Existing Instance transfer_vm.
Local Existing Instance map_order.
Local Existing Instance plain_hex.
Local Existing Instance plain_text.
Local Existing Instance plain_u256.

Example dag_tests :
  let kp := from_seed 1 in let to := account_id (from_seed 2) in
  [DagTests.dag_orders_chain kp to; DagTests.topological_order_uses_vector_clock_tiebreaker kp to;
   DagTests.dag_detects_double_spend kp to; DagTests.validates_vector_clock_monotonicity kp to;
   DagTests.derives_vector_clock_when_missing kp] = repeat (Some true) 5.
Proof. vm_compute. reflexivity. Qed.

Example oscillator_tests :
  let r := from_seed 9 in let a := from_seed 1 in let b := from_seed 2 in let op := from_seed 3 in
  [OscillatorTests.oscillator_rejects_replayed_nonce r a b 5;
   OscillatorTests.oscillator_registers_domain_and_deducts_fee r a;
   OscillatorTests.oscillator_strict_domain_waits_for_quorum r a b op 5;
   OscillatorTests.oscillator_aggregates_commutative_and_applies_stateful r a b 5] = repeat (Some true) 4.
Proof. vm_compute. reflexivity. Qed.

Example stake_tests :
  [StakeTests.staked_operator_meets_minimum; StakeTests.slashed_operator_is_no_longer_staked;
   StakeTests.snapshot_roundtrip_preserves_slash_and_burned_stake; StakeTests.rewards_split_proportionally_to_stake;
   StakeTests.slashed_operator_gets_no_rewards; StakeTests.lp_share_accrues_even_without_staked_operators;
   StakeTests.claim_lp_reward_zeroes_balance] = repeat (Some true) 7.
Proof. vm_compute. reflexivity. Qed.

Example value_tests :
  [ValueTests.pow_uses_exponentiation_by_squaring; ValueTests.decayed_balance_matches_closed_form;
   ValueTests.metabolic_burn_split_is_deterministic_25_75; ValueTests.lambda_is_capped_below_denominator 1;
   ValueTests.stream_remaining_follows_exponential_curve 1; ValueTests.process_returns_incremental_burn_each_tick 1;
   ValueTests.engine_accumulates_exponential_burn 1; ValueTests.engine_removes_fully_exhausted_streams 1;
   ValueTests.spectrum_lease_and_authorize 1; ValueTests.spectrum_rejects_overlapping_leases 1 2;
   ValueTests.stream_burn_rate; ValueTests.stream_state_exhausts; ValueTests.mint_increases_circulating;
   ValueTests.mint_respects_cap; ValueTests.burn_frees_cap_space] = repeat (Some true) 15.
Proof. vm_compute. reflexivity. Qed.

Example field_tests :
  [FieldTests.wave_field_account_debit; FieldTests.ntt_batch_synthesis_matches_sequential_sum;
   FieldTests.metabolic_decay_follows_exponential_formula; FieldTests.metabolic_decay_skips_immune_accounts;
   FieldTests.metabolic_decay_also_decays_pool_balances; FieldTests.metabolic_decay_exempts_non_decaying_balances;
   FieldTests.metabolic_decay_grants_activity_grace; FieldTests.coordinate_to_bytes_roundtrip;
   FieldTests.ntt_index_in_bounds; FieldTests.ntt_intt_roundtrip; FieldTests.ntt_linearity] = repeat (Some true) 11.
Proof. vm_compute. reflexivity. Qed.

Example crypto_tests :
  let kp := from_seed 1 in let other := from_seed 2 in
  [CryptoTests.keypair_generation_and_signing kp; CryptoTests.account_id_is_deterministic;
   CryptoTests.commutative_sign_verify kp; CryptoTests.stateful_sign_verify_rejects_wrong_signer kp other;
   CryptoTests.vector_clock_ordering; CryptoTests.root_is_deterministic; CryptoTests.order_matters;
   CryptoTests.certificate_signs_and_verifies kp; CryptoTests.certificate_rejects_wrong_key kp other;
   CryptoTests.balances_root_is_deterministic; CryptoTests.light_client_tracks_quorum kp] = repeat (Some true) 11.
Proof. vm_compute. reflexivity. Qed.

(** The codec instance has pings, so one stands for the commutative shift. *)
Example node_tests :
  [NodeTests.ring_buffer_wraps; NodeTests.ring_buffer_peek_does_not_consume;
   NodeTests.in_process_broadcast_and_receive (SigPing 1 42); NodeTests.registry_seeds_dex_domain;
   NodeTests.bridge_registry_polls_adapters; NodeTests.bridge_domain_policy_is_strict;
   NodeTests.stress_bin_exact_recovery 64 1000 16] = repeat (Some true) 7.
Proof. vm_compute. reflexivity. Qed.

(** A transaction of another chain needs a codec with chain ids; bytes that are no transaction
    are refused here. *)
Example evm_tests :
  let raw := [x07; x08; x1e; x00] in
  [EvmTests.decodes_signed_transfer raw 7 8 30; EvmTests.executes_signed_transfer_with_revm raw 7 8 30 5;
   EvmTests.rejects_wrong_chain_id [x00]; EvmTests.chain_id_is_constant;
   EvmTests.block_number_reflects_synthesis_tick (from_seed 9);
   EvmTests.get_balance_derives_account_from_evm_address (from_seed 9)] = repeat (Some true) 6.
Proof. vm_compute. reflexivity. Qed.

(** The simulation at the sizes of its test, without running it. *)
Lemma stress_test_passes : NodeTests.stress_bin_exact_recovery 2048 (N.to_nat 100000) 16 = Some true.
Proof.
  unfold NodeTests.stress_bin_exact_recovery. destruct (sim_new 2048) as [sim|] eqn:Es.
  - cbn [mbind option_bind]. rewrite (stress_bin_total sim 2048 (N.to_nat 100000) 16 (seq 0 16) Es); [|lia|done|lia].
    cbn [mbind option_bind]. pose proof (delta_sum_abs 0 (N.to_nat 100000)) as Ha.
    assert (Hf : fits (delta_sum 0 (N.to_nat 100000))) by (unfold fits; lia). clear Ha.
    apply field_roundtrip in Hf. generalize dependent (delta_sum 0 (N.to_nat 100000)). intros x Hx.
    by rewrite Hx, bool_decide_eq_true_2.
  - apply (f_equal (λ o, bool_decide (is_Some o))) in Es. vm_compute in Es. discriminate Es.
Qed.
End instances.
